(* ===== verification/_CoqProject ===== *)
-Q . S2P
Prelude.v
Strs.v
NetIP.v
Profiles.v
Config.v
ConfigJSON.v
JSONText.v
Durations.v
Discovery.v
Resolve.v
Resolver.v
Fsutil.v
Frames.v
ConfigLoad.v
Control.v
Hosts.v
HostsApply.v
Upstream.v
CA.v
Proxy.v
Gateway.v
Relay.v
Logging.v
Trust.v
TrustSafety.v
Service.v
ServiceSafety.v
Command.v
TestCommand.v
Daemon.v
Cli.v
CliSafety.v
CliHosts.v
System.v
