(* ===== verification/Prelude.v ===== *)
(** * utlsproxy: a verification development

    utlsproxy is a local TLS proxy. Clients that a hosts file points at it are met with
    certificates of a local CA; each connection is joined to the real server through a dial
    whose ClientHello is that of a browser profile. The program (Go, under src/) is a daemon
    and a command line that configures it, installs it as a service, edits the hosts file
    and manages the system's trust in the CA. This library models all of the internal
    packages and proves what makes them correct.

    ** Parts and files

    This file holds what the others share: byte strings, errors and results, the error
    monad, the tactics [bools], [ok_inv], [case_if] and [by_compute], and lemmas on lists. Strs and NetIP model
    the parts of Go's strings, strconv and net/netip the program uses; Durations models
    time.ParseDuration and Duration.String; JSONText the lexer and the printer of
    encoding/json.

    - internal/config/config.go: Config (data, Defaults, Validate), ConfigJSON (CheckJSON,
      exactFields), ConfigLoad (decoding, Load).
    - internal/profiles/profiles.go: Profiles.
    - internal/dns: Discovery (discovery*.go, resolved_properties.go), Resolve (one
      resolution), Resolver (cache, single flights, refresh).
    - internal/fsutil/fsutil.go: Fsutil, which also has the model of the file system and the
      Hoare rules; Frames has the rules for what a program leaves alone.
    - internal/control/control.go: Control. internal/logging/rotate.go: Logging.
    - internal/hosts/hosts.go: Hosts (the edit as a function), HostsApply (the replacement
      of the file).
    - internal/ca/ca.go: CA.
    - internal/proxy: Upstream (upstream.go); Proxy (the server's goroutines), Relay (relay),
      Daemon (the frame of Run and the control interface), Gateway (the abstract
      specification), all of server.go.
    - internal/trust: Trust, and its theorems in TrustSafety. internal/service: Service, and
      its theorems in ServiceSafety.
    - internal/cli: Command (exit codes, printing, flags), Cli (cli.go), TestCommand
      (temporary_test_command.go), and theorems in CliSafety and CliHosts.
    - System puts the server and the resolver together under the configurations that the
      command line loads.

    ** How state and effects are modelled

    Code that only computes is a function in the error monad [result]. Code that works on
    files is a program of Fsutil's monad [M] over an operating system state: directory
    entries, inodes, what a crash keeps of them, and locks. In every run any call may fail
    ([fault]), a failing write may leave part of its data, and other processes may act
    before any call ([env]); a theorem that needs them not to act says [quiet]. Programs of
    the command line are in the monad [C], which also records what is printed.

    Code with goroutines is a step relation whose steps are the sections between two points
    at which another goroutine can act: Resolver's [step] on [world], Proxy's [step] and
    Relay's [rstep]. Their theorems are about every reachable state, by induction on the
    steps, and so hold for every interleaving.

    Components meet through classes. Proxy uses the classes [Dialer] and [AuthoritySource],
    whose laws Upstream and CA fulfil (instances [upstream_dialer] and [ca_source]); Trust
    uses [Backend], of which the Linux and the macOS backends are instances. Code outside
    the repository is a class or a variable: [Unicode] tables, [IDNA], [Profiles.UTLS],
    [Network], [DBus], [Kernel], [CA.Encoding] and [Formats] (PEM, DER), the DNS exchange,
    SHA-256, the service manager, the clock and random choices, and [Outside] for the
    command line. Every hypothesis on them is witnessed by a concrete instance.

    ** What the theorems show

    Joining clients to servers. [relaying_authorized]: nothing is relayed for a client, a
    name or an upstream that the rules of its snapshot do not allow.
    [server_refines_gateway]: the server refines the gateway an operator thinks of.
    [bytes_accounted], [shutdown_drains], and, in Proxy, [Connections_spec]: the counters,
    the table and the shutdown. [relay_delivers], [relay_returns], [relay_result]: bytes are
    neither lost nor invented, errors end both directions. [DialUpstream_safe],
    [DialUpstream_agreed], [New_compatible_offered]: where dials go and what they offer.
    [Certificate_for_ok]: the certificates. [serves_alone]: one daemon at a time.
    [daemon_keeps_configuration], [daemon_bounded]: the daemon as a whole, across reloads.

    Names. [Select_spec], [resolvedDiscovery_spec]: routing of names to servers against a
    specification. [resolve_spec], [follow_terminates]: alias chains, lifetimes and
    termination. [cached_answer_fresh_and_routed], [cache_bounded]: the cache under every
    interleaving.

    Configuration. [Validate_spec] (against the set of well-formed configurations),
    [CheckJSON_spec], [Load_wf], [Duration_roundtrip], [init_then_load].

    Files. [Atomic_crash_safe], [Apply_atomic]: replacements survive crashes and failures.
    [edit_spec]: only the marked block changes. [Listen_spares_occupied]: the socket's path.
    [Rotator_spec]: the log.

    The system. [Execute_accounts], [success_means_done]: no trusted certificate without
    the means to remove it. [Install_all_or_nothing], [Install_spares_foreign_files],
    [half_removed_is_stuck], [unit_file_roundtrip]: the service. [apply_needs_preflight],
    [uninstall_strands_nothing], [dry_run_changes_nothing]: the commands that change the
    system. [flags_roundtrip], [status_exit_code]: what the user says and is told.
    [test_cleans_up], [test_verdict]: the temporary test.

    ** Bounds and fuel

    Loops that are not structural take fuel that is enough: the JSON decoder, the duration
    parser and the XML escaper as many turns as the text has bytes or tokens, and one more
    where the end takes a turn; the alias loop of a reply 10, for at most 9 names
    ([follow_terminates]); the ancestors of a path as many as it has bytes; links at the end
    of a path 40, as the kernel follows. The waits for the service and for the temporary
    daemon are bounded by the code's deadlines; how many polls fit in them is an argument
    ([wait_turns], [test_turns]). Integers are unbounded where the code's cannot overflow,
    and kept at their width where they can: durations, lifetimes, generations (the theorems
    that need it speak of fewer than 2^64 steps).

    ** Not modelled

    cmd/utlsproxy/main.go, one line. The text that is printed for people, of which the
    values are kept, and the lines of the log. HTTP on the control socket below its routes
    and replies, and TLS below what its handshakes return. Binding a DNS socket to an
    interface, a system call. Wall-clock deadlines, which are steps the environment may take
    at any time. *)

From Stdlib Require Export Lia ZArith.
From stdpp Require Export base tactics option numbers gmap strings pretty list.

#[global] Open Scope Z_scope.
#[global] Open Scope list_scope.

(** ** Byte strings

    Go's [string] and [[]byte] are both sequences of bytes; both are [str].
    A Rocq string literal is read as the list of its bytes. *)
Abbreviation str := (list Ascii.ascii).
Abbreviation byte := Ascii.ascii.
Coercion String.list_ascii_of_string : String.string >-> list.
#[global] Arguments String.list_ascii_of_string : simpl never.

Definition str_eqb (s t : str) : bool := bool_decide (s = t).
Arguments str_eqb : simpl never.

Declare Scope go_scope.
Delimit Scope go_scope with go.
Notation "s == t" := (str_eqb s t) (at level 70, no associativity) : go_scope.
Notation "s != t" := (negb (str_eqb s t)) (at level 70, no associativity) : go_scope.
#[global] Open Scope go_scope.

Lemma str_eqb_eq (s t : str) : str_eqb s t = true ↔ s = t.
Proof. unfold str_eqb. apply bool_decide_eq_true. Qed.
Lemma str_eqb_neq (s t : str) : str_eqb s t = false ↔ s ≠ t.
Proof. unfold str_eqb. apply bool_decide_eq_false. Qed.
Lemma str_eqb_refl (s : str) : str_eqb s s = true.
Proof. by apply str_eqb_eq. Qed.
Lemma str_eqb_spec (s t : str) : reflect (s = t) (str_eqb s t).
Proof. unfold str_eqb. apply bool_decide_reflect. Qed.

(** Membership test of [slices.Contains] on strings. *)
Definition str_mem (x : str) (l : list str) : bool := bool_decide (x ∈ l).
Arguments str_mem : simpl never.
Lemma str_mem_elem x l : str_mem x l = true ↔ x ∈ l.
Proof. unfold str_mem. apply bool_decide_eq_true. Qed.
Lemma str_mem_not x l : str_mem x l = false ↔ x ∉ l.
Proof. unfold str_mem. apply bool_decide_eq_false. Qed.

(** ** Errors

    A Go [error] is its message together with the sentinels that
    [errors.Is] and [errors.As] find in its chain. *)
Inductive sentinel :=
  | ErrNotExist | ErrExist | ErrPermission | ErrClosed
  | ECONNREFUSED | ENOTSUP | EOTHER
  | Canceled | DeadlineExceeded | NetClosed | NetTimeout
  | NameError            (* the dns package's *nameError type *)
  | ErrDegraded | ErrNotTrusted | FlagHelp
  | Coded (code : Z)     (* the cli package's coded type *)
  | ExitError | NoSuchLink.
#[global] Instance sentinel_eq_dec : EqDecision sentinel.
Proof. solve_decision. Defined.

Record error := mkError { Error : str; chain : list sentinel }.
#[global] Instance error_eq_dec : EqDecision error.
Proof. solve_decision. Defined.

Definition errors_New (m : str) : error := mkError m [].
Definition errors_Is (e : error) (s : sentinel) : bool := bool_decide (s ∈ chain e).
(** [fmt.Errorf (pre ^ "%w", e)]: the chain of the wrapped error is kept. *)
Definition Errorf_w (pre : str) (e : error) : error := mkError (pre ++ Error e) (chain e).

Lemma errors_Is_wrap pre e s : errors_Is (Errorf_w pre e) s = errors_Is e s.
Proof. done. Qed.

(** ** Fallible results: Go's [(T, error)] when the value of a failing call is unused *)
Inductive result (A : Type) :=
  | Ok (a : A)
  | Err (e : error).
Arguments Ok {A} _.
Arguments Err {A} _.

#[global] Instance result_ret : MRet result := λ A a, Ok a.
#[global] Instance result_bind : MBind result :=
  λ A B f m, match m with Ok a => f a | Err e => Err e end.

Definition is_ok {A} (r : result A) : bool := match r with Ok _ => true | Err _ => false end.
Definition of_option {A} (e : error) (o : option A) : result A :=
  match o with Some a => Ok a | None => Err e end.
(** [if c { return e }] *)
Definition guard_err (c : bool) (e : error) : result unit := if c then Err e else Ok tt.

Lemma bind_Ok {A B} (f : A → result B) (m : result A) (b : B) :
  (m ≫= f) = Ok b ↔ ∃ a, m = Ok a ∧ f a = Ok b.
Proof. destruct m; naive_solver. Qed.
Lemma bind_Err {A B} (f : A → result B) (m : result A) (e : error) :
  (m ≫= f) = Err e ↔ m = Err e ∨ ∃ a, m = Ok a ∧ f a = Err e.
Proof. destruct m; naive_solver. Qed.
Lemma guard_Ok c e u : guard_err c e = Ok u ↔ c = false.
Proof. destruct c, u; naive_solver. Qed.
Lemma seq_Ok {A B} (m : result A) (k : result B) (b : B) :
  (m ≫= λ _, k) = Ok b ↔ is_ok m = true ∧ k = Ok b.
Proof. destruct m; naive_solver. Qed.
Lemma is_ok_guard c e : is_ok (guard_err c e) = true ↔ c = false.
Proof. by destruct c. Qed.
Lemma is_ok_unit (m : result unit) : is_ok m = true ↔ m = Ok tt.
Proof. destruct m as [[]|]; naive_solver. Qed.
Lemma guard_Err c e e' : guard_err c e = Err e' ↔ c = true ∧ e = e'.
Proof. destruct c; naive_solver. Qed.

(** Go's [for _, x := range l { if err := f(x); err != nil { return err } }]. *)
Fixpoint each {A} (f : A → result unit) (l : list A) : result unit :=
  match l with
  | [] => Ok tt
  | x :: l' => _ ← f x; each f l'
  end.
Lemma each_Ok {A} (f : A → result unit) l u :
  each f l = Ok u ↔ Forall (λ x, f x = Ok tt) l.
Proof.
  destruct u. induction l as [|x l IH]; simpl; [split; [by constructor|done]|].
  rewrite Forall_cons, <- IH. unfold mbind, result_bind.
  destruct (f x) as [[]|]; naive_solver.
Qed.

Lemma is_ok_each {A} (f : A → result unit) l :
  is_ok (each f l) = true ↔ Forall (λ x, is_ok (f x) = true) l.
Proof.
  rewrite is_ok_unit, each_Ok. apply Forall_proper; [|done]. intros x. by rewrite is_ok_unit.
Qed.
Lemma Forall_guard {A} (c : A → bool) (e : A → error) (l : list A) :
  Forall (λ x, is_ok (guard_err (c x) (e x)) = true) l ↔ Forall (λ x, c x = false) l.
Proof. apply Forall_proper; [|done]. intros x. apply is_ok_guard. Qed.
Lemma guard_chain {A} (c : bool) (e : error) (k : result A) (a : A) :
  (_ ← guard_err c e; k) = Ok a ↔ c = false ∧ k = Ok a.
Proof. by rewrite seq_Ok, is_ok_guard. Qed.

(** ** Lists of lists *)
Lemma mjoin_cons {A} (x : list A) l : mjoin (x :: l) = x ++ mjoin l.
Proof. done. Qed.
Lemma mjoin_snoc {A} (x : list A) l : mjoin (l ++ [x]) = mjoin l ++ x.
Proof. rewrite join_app, mjoin_cons. simpl. by rewrite app_nil_r. Qed.
Lemma filter_ext_in {A} (P Q : A → Prop) `{∀ x, Decision (P x), ∀ x, Decision (Q x)} (l : list A) :
  (∀ x, x ∈ l → P x ↔ Q x) → base.filter P l = base.filter Q l.
Proof.
  induction l as [|x l IH]; [done|]. intros Heq.
  assert (base.filter P l = base.filter Q l) as E by (apply IH; intros; apply Heq; by right).
  destruct (decide (P x)) as [Hp|Hp].
  - rewrite !filter_cons_True, E; [done|apply Heq; [left|done]|done].
  - rewrite !filter_cons_False, E; [done| |done]. intros Hq. apply Hp, Heq; [left|done].
Qed.
Lemma head_drop {A} n (l : list A) : head (drop n l) = l !! n.
Proof. by rewrite head_lookup, lookup_drop, Nat.add_0_r. Qed.

(** ** Automation *)
Create HintDb go discriminated.
#[export] Hint Resolve str_eqb_refl : go.
#[export] Hint Rewrite str_eqb_refl : go.

(** Turn boolean facts about Go conditions into propositions. *)
Ltac bools :=
  repeat match goal with
  | H : _ && _ = true |- _ => apply andb_true_iff in H as [? ?]
  | H : _ || _ = false |- _ => apply orb_false_iff in H as [? ?]
  | H : negb _ = true |- _ => apply negb_true_iff in H
  | H : negb _ = false |- _ => apply negb_false_iff in H
  | H : str_eqb _ _ = true |- _ => apply str_eqb_eq in H
  | H : str_eqb _ _ = false |- _ => apply str_eqb_neq in H
  | H : str_mem _ _ = true |- _ => apply str_mem_elem in H
  | H : str_mem _ _ = false |- _ => apply str_mem_not in H
  | H : bool_decide _ = true |- _ => apply bool_decide_eq_true in H
  | H : bool_decide _ = false |- _ => apply bool_decide_eq_false in H
  | H : (_ <? _) = true |- _ => apply Z.ltb_lt in H
  | H : (_ <? _) = false |- _ => apply Z.ltb_ge in H
  | H : (_ <=? _) = true |- _ => apply Z.leb_le in H
  | H : (_ <=? _) = false |- _ => apply Z.leb_gt in H
  | H : (_ =? _) = true |- _ => apply Z.eqb_eq in H
  | H : (_ =? _) = false |- _ => apply Z.eqb_neq in H
  end.

(** Invert a successful monadic computation step by step. *)
Ltac ok_inv :=
  repeat match goal with
  | H : Ok _ = Ok _ |- _ => injection H; clear H; intros
  | H : Err _ = Err _ |- _ => injection H; clear H; intros
  | H : Ok _ = Err _ |- _ => discriminate H
  | H : Err _ = Ok _ |- _ => discriminate H
  | H : (_ ≫= _) = Ok _ |- _ => apply bind_Ok in H as (? & ? & ?)
  | H : guard_err _ _ = Ok _ |- _ => apply guard_Ok in H
  | H : each _ _ = Ok _ |- _ => apply each_Ok in H
  end; subst.

Ltac case_if :=
  match goal with
  | |- context [if ?b then _ else _] => destruct b eqn:?
  | H : context [if ?b then _ else _] |- _ => destruct b eqn:?
  end.

(** ** Machine integers *)
Definition max_uint32 : Z := 2 ^ 32 - 1.
Definition max_int64 : Z := 2 ^ 63 - 1.
Definition min_int64 : Z := - 2 ^ 63.
Definition uint64 (z : Z) : Z := z mod 2 ^ 64.

(** ** Durations and instants: [time.Duration] counts nanoseconds *)
Definition Millisecond : Z := 1000000.
Definition Second : Z := 1000 * Millisecond.
Definition Minute : Z := 60 * Second.
Definition Hour : Z := 60 * Minute.

(** ** Evaluation in witnesses: decide a decidable closed proposition by computation *)
Ltac by_compute := solve [ vm_compute; reflexivity
                         | match goal with |- ?P =>
                             refine (@bool_decide_eq_true_1 P _ _); vm_compute; reflexivity end ].
