(* ===== verification/Strs.v ===== *)
(** * Strs: the parts of Go's [strings], [bytes], [strconv] and [unicode] the program uses

    Separators are single bytes, as in every call the program makes.  Go decodes
    UTF-8 only in [TrimSpace] and [Fields] (white space, whose encodings are listed
    here) and in [ToLower], [EqualFold] and [Quote] (whose behaviour on non-ASCII
    text depends on the Unicode tables and is the class [Unicode]). *)
From S2P Require Import Prelude.

Class Unicode := {
  unicode_lower : str → str;            (* strings.ToLower of a string with a non-ASCII byte *)
  unicode_fold : str → str → bool;      (* strings.EqualFold when a byte is non-ASCII *)
  unicode_quote : str → str;            (* strconv.Quote of a string with a non-ASCII byte *)
}.
(** An instance for evaluation: non-ASCII text is left as it is. *)
Definition ascii_only : Unicode :=
  {| unicode_lower := id; unicode_fold := str_eqb; unicode_quote := id |}.

(** ** Bytes *)
Definition code (c : byte) : Z := Z.of_nat (Ascii.nat_of_ascii c).
Definition chr (z : Z) : byte := Ascii.ascii_of_nat (Z.to_nat z).
Definition nl : byte := chr 10.
Definition dot : byte := chr 46.
Definition colon : byte := chr 58.
Definition slash : byte := chr 47.
Definition comma : byte := chr 44.
Definition hash : byte := chr 35.
Definition space : byte := chr 32.
Definition dash : byte := chr 45.

Definition beq (a b : byte) : bool := bool_decide (a = b).
Arguments beq : simpl never.
Definition in_range (lo hi : Z) (c : byte) : bool := (lo <=? code c) && (code c <=? hi).
Definition is_digit : byte → bool := in_range 48 57.
Definition is_lower : byte → bool := in_range 97 122.
Definition is_upper : byte → bool := in_range 65 90.
Definition is_ascii_byte (c : byte) : bool := code c <? 128.
Definition is_ascii (s : str) : bool := forallb is_ascii_byte s.

Definition lower_byte (c : byte) : byte := if is_upper c then chr (code c + 32) else c.

(** ** Prefixes and suffixes *)
Fixpoint strip_prefix (p s : str) : option str :=
  match p, s with
  | [], _ => Some s
  | a :: p', b :: s' => if beq a b then strip_prefix p' s' else None
  | _ :: _, [] => None
  end.
Definition HasPrefix (s p : str) : bool :=
  match strip_prefix p s with Some _ => true | None => false end.
Definition TrimPrefix (s p : str) : str :=
  match strip_prefix p s with Some r => r | None => s end.
Definition HasSuffix (s p : str) : bool := HasPrefix (rev s) (rev p).
Definition TrimSuffix (s p : str) : str := rev (TrimPrefix (rev s) (rev p)).

Fixpoint Contains (s sub : str) : bool :=
  HasPrefix s sub || match s with [] => false | _ :: s' => Contains s' sub end.

(** ** Splitting on a byte *)
Fixpoint Split (s : str) (c : byte) : list str :=
  match s with
  | [] => [[]]
  | x :: s' =>
      if beq x c then [] :: Split s' c
      else match Split s' c with
           | h :: t => (x :: h) :: t
           | [] => [[x]]
           end
  end.
Fixpoint SplitAfter (s : str) (c : byte) : list str :=
  match s with
  | [] => [[]]
  | x :: s' =>
      if beq x c then [x] :: SplitAfter s' c
      else match SplitAfter s' c with
           | h :: t => (x :: h) :: t
           | [] => [[x]]
           end
  end.
(** [strings.Cut]: the text before and after the first separator, and whether it occurs. *)
Fixpoint Cut (s : str) (c : byte) : str * str * bool :=
  match s with
  | [] => ([], [], false)
  | x :: s' =>
      if beq x c then ([], s', true)
      else let '(b, a, ok) := Cut s' c in (x :: b, a, ok)
  end.
(** The text before and after the last separator ([strings.LastIndexByte]). *)
Definition CutLast (s : str) (c : byte) : option (str * str) :=
  match Cut (rev s) c with
  | (b, a, true) => Some (rev a, rev b)
  | _ => None
  end.
Fixpoint Join (l : list str) (sep : str) : str :=
  match l with
  | [] => []
  | [x] => x
  | x :: l' => x ++ sep ++ Join l' sep
  end.
Fixpoint ReplaceAll (s : str) (c : byte) (by_ : str) : str :=
  match s with
  | [] => []
  | x :: s' => (if beq x c then by_ else [x]) ++ ReplaceAll s' c by_
  end.

(** ** White space: the encodings of the runes with [unicode.IsSpace] *)
Definition space_runes : list str :=
  map (map chr)
    ([[9]; [10]; [11]; [12]; [13]; [32]; [194; 133]; [194; 160]; [225; 154; 128]]
     ++ map (λ k, [226; 128; 128 + k]) [0; 1; 2; 3; 4; 5; 6; 7; 8; 9; 10]
     ++ [[226; 128; 168]; [226; 128; 169]; [226; 128; 175]; [226; 129; 159]; [227; 128; 128]]).
Definition is_space_byte (c : byte) : bool :=
  (code c =? 32) || in_range 9 13 c.

Fixpoint strip_any (ps : list str) (s : str) : option str :=
  match ps with
  | [] => None
  | p :: ps' => match strip_prefix p s with Some r => Some r | None => strip_any ps' s end
  end.
Fixpoint trim_loop (fuel : nat) (ps : list str) (s : str) : str :=
  match fuel with
  | O => s
  | S n => match strip_any ps s with Some r => trim_loop n ps r | None => s end
  end.
Definition TrimLeftSpace (s : str) : str := trim_loop (length s) space_runes s.
Definition TrimRightSpace (s : str) : str :=
  rev (trim_loop (length s) (map (@rev byte) space_runes) (rev s)).
Definition TrimSpace (s : str) : str := TrimRightSpace (TrimLeftSpace s).

(** [strings.Fields]: maximal runs of non-space runes. *)
Fixpoint fields_loop (fuel : nat) (cur : str) (s : str) : list str :=
  let flush (k : list str) := match cur with [] => k | _ => rev cur :: k end in
  match fuel with
  | O => flush []
  | S n =>
      match s with
      | [] => flush []
      | x :: s' =>
          match strip_any space_runes s with
          | Some r => flush (fields_loop n [] r)
          | None => fields_loop n (x :: cur) s'
          end
      end
  end.
Definition Fields (s : str) : list str := fields_loop (S (length s)) [] s.

(** [strings.Trim s cutset] for an ASCII cutset. *)
Fixpoint trim_bytes (cut : str) (s : str) : str :=
  match s with
  | x :: s' => if bool_decide (x ∈ cut) then trim_bytes cut s' else s
  | [] => []
  end.
Definition Trim (s cut : str) : str := rev (trim_bytes cut (rev (trim_bytes cut s))).
(** [strings.ContainsAny s chars] for ASCII chars. *)
Definition ContainsAny (s chars : str) : bool := existsb (λ c, bool_decide (c ∈ chars)) s.

(** ** Case *)
Section Case.
Context `{Unicode}.
Definition ToLower (s : str) : str :=
  if is_ascii s then map lower_byte s else unicode_lower s.
Definition EqualFold (s t : str) : bool :=
  if is_ascii s && is_ascii t then map lower_byte s == map lower_byte t
  else unicode_fold s t.
End Case.

(** ** Numbers *)
Definition Itoa (z : Z) : str := String.list_ascii_of_string (pretty z).

Fixpoint digits_value (acc : Z) (s : str) : option Z :=
  match s with
  | [] => Some acc
  | c :: s' => if is_digit c then digits_value (acc * 10 + (code c - 48)) s' else None
  end.
(** [strconv.ParseUint s 10 bits]. *)
Definition ParseUint (s : str) (bits : Z) : option Z :=
  match s with
  | [] => None
  | _ => match digits_value 0 s with
         | Some v => if v <? 2 ^ bits then Some v else None
         | None => None
         end
  end.
(** [strconv.Atoi] on a 64-bit platform: an optional sign and decimal digits. *)
Definition Atoi (s : str) : option Z :=
  let '(neg, d) :=
    match s with
    | c :: s' => if beq c dash then (true, s') else if beq c (chr 43) then (false, s') else (false, s)
    | [] => (false, s)
    end in
  match d with
  | [] => None
  | _ => match digits_value 0 d with
         | Some v =>
             let n := if neg : bool then - v else v in
             if (min_int64 <=? n) && (n <=? max_int64) then Some n else None
         | None => None
         end
  end.

Definition hex_digit (n : Z) : byte := chr (if n <? 10 then 48 + n else 87 + n).
Definition quote_byte (c : byte) : str :=
  let n := code c in
  if n =? 34 then [chr 92; chr 34] else if n =? 92 then [chr 92; chr 92]
  else if n =? 7 then "\a" else if n =? 8 then "\b" else if n =? 12 then "\f"
  else if n =? 10 then "\n" else if n =? 13 then "\r" else if n =? 9 then "\t"
  else if n =? 11 then "\v"
  else if (n <? 32) || (n =? 127) then "\x" ++ [hex_digit (n / 16); hex_digit (n mod 16)]
  else [c].
(** [strconv.Quote], the [%q] verb. *)
Definition Quote `{Unicode} (s : str) : str :=
  if is_ascii s then [chr 34] ++ mjoin (map quote_byte s) ++ [chr 34] else unicode_quote s.
(** The [%v] verb on a slice of strings. *)
Definition show_strs (l : list str) : str := "[" ++ Join l " " ++ "]".

(** ** Lemmas *)
Lemma beq_spec a b : reflect (a = b) (beq a b).
Proof. unfold beq. apply bool_decide_reflect. Qed.
Lemma beq_refl a : beq a a = true.
Proof. by destruct (beq_spec a a). Qed.
Lemma beq_true a b : beq a b = true ↔ a = b.
Proof. unfold beq. apply bool_decide_eq_true. Qed.
Lemma beq_false a b : beq a b = false ↔ a ≠ b.
Proof. unfold beq. apply bool_decide_eq_false. Qed.
#[export] Hint Rewrite beq_refl : go.

Lemma code_range c : 0 ≤ code c < 256.
Proof.
  unfold code. pose proof (Ascii.nat_ascii_bounded c). lia.
Qed.
Lemma chr_code c : chr (code c) = c.
Proof. unfold chr, code. rewrite Nat2Z.id. apply Ascii.ascii_nat_embedding. Qed.
Lemma code_chr z : 0 ≤ z < 256 → code (chr z) = z.
Proof. intros. unfold chr, code. rewrite Ascii.nat_ascii_embedding; lia. Qed.

Lemma strip_prefix_Some p s r : strip_prefix p s = Some r ↔ s = p ++ r.
Proof.
  revert s. induction p as [|a p IH]; intros [|b s]; simpl; try naive_solver.
  destruct (beq_spec a b) as [->|]; [rewrite IH|]; naive_solver.
Qed.
Lemma strip_prefix_app p r : strip_prefix p (p ++ r) = Some r.
Proof. by apply strip_prefix_Some. Qed.
Lemma HasPrefix_spec s p : HasPrefix s p = true ↔ ∃ r, s = p ++ r.
Proof.
  unfold HasPrefix. destruct (strip_prefix p s) as [r|] eqn:E.
  - apply strip_prefix_Some in E. naive_solver.
  - split; [done|]. intros [r ->]. by rewrite strip_prefix_app in E.
Qed.
Lemma HasPrefix_app p r : HasPrefix (p ++ r) p = true.
Proof. apply HasPrefix_spec. eauto. Qed.
Lemma HasSuffix_spec s p : HasSuffix s p = true ↔ ∃ r, s = r ++ p.
Proof.
  unfold HasSuffix. rewrite HasPrefix_spec. split; intros [r Hr].
  - exists (rev r). apply (f_equal (@rev _)) in Hr.
    by rewrite rev_involutive, rev_app_distr, rev_involutive in Hr.
  - exists (rev r). by rewrite Hr, rev_app_distr.
Qed.
Lemma TrimSuffix_spec s p :
  (∃ r, s = r ++ p ∧ TrimSuffix s p = r) ∨ ((∀ r, s ≠ r ++ p) ∧ TrimSuffix s p = s).
Proof.
  unfold TrimSuffix, TrimPrefix. destruct (strip_prefix _ _) as [r|] eqn:E.
  - left. apply strip_prefix_Some in E. exists (rev r). split; [|done].
    apply (f_equal (@rev _)) in E. by rewrite rev_involutive, rev_app_distr, rev_involutive in E.
  - right. split; [|apply rev_involutive]. intros r ->.
    by rewrite rev_app_distr, strip_prefix_app in E.
Qed.
Lemma HasPrefix_head c s p x : HasPrefix (c :: s) (x :: p) = true → c = x.
Proof. rewrite HasPrefix_spec. intros [r [=]]. done. Qed.

Lemma Contains_spec s sub : Contains s sub = true ↔ ∃ a b, s = a ++ sub ++ b.
Proof.
  induction s as [|x s IH]; simpl; rewrite orb_true_iff, HasPrefix_spec.
  - split; [intros [[r ?]|?]; [by exists [], r|done]|].
    intros (a & b & E). left. destruct a; simpl in E; [eauto|done].
  - rewrite IH. split.
    + intros [[r ?]|(a & b & ->)]; [by exists [], r|by exists (x :: a), b].
    + intros ([|y a] & b & E); simpl in *; [eauto|]. right. exists a, b. by injection E.
Qed.

(** *** Split and SplitAfter *)
Lemma Split_nonempty s c : Split s c ≠ [].
Proof. induction s as [|x s IH]; simpl; [done|]. case_if; [done|]. by destruct (Split s c). Qed.
Lemma SplitAfter_nonempty s c : SplitAfter s c ≠ [].
Proof.
  induction s as [|x s IH]; simpl; [done|]. case_if; [done|]. by destruct (SplitAfter s c).
Qed.
Lemma mjoin_SplitAfter s c : mjoin (SplitAfter s c) = s.
Proof.
  induction s as [|x s IH]; simpl; [done|].
  pose proof (SplitAfter_nonempty s c).
  destruct (beq_spec x c) as [->|]; simpl; [by rewrite IH|].
  destruct (SplitAfter s c); simpl in *; [done|by f_equal].
Qed.
(** A text that ends at a line boundary splits independently of what follows. *)
Lemma SplitAfter_app a c :
  ∃ l, l ≠ [] ∧ ∀ b, SplitAfter (a ++ c :: b) c = l ++ SplitAfter b c.
Proof.
  induction a as [|x a (l & Hl & IH)]; simpl.
  - exists [[c]]. split; [done|]. intros b. by rewrite beq_refl.
  - destruct (beq x c).
    + exists ([x] :: l). split; [done|]. intros b. by rewrite IH.
    + destruct l as [|h t]; [done|]. exists ((x :: h) :: t). split; [done|].
      intros b. by rewrite IH.
Qed.
Lemma SplitAfter_notin s c : c ∉ s → SplitAfter s c = [s].
Proof.
  induction s as [|x s IH]; simpl; intros Hn; [done|].
  apply not_elem_of_cons in Hn as [? ?].
  destruct (beq_spec x c); [congruence|]. by rewrite IH.
Qed.
Lemma SplitAfter_line l c b : c ∉ l → SplitAfter (l ++ c :: b) c = (l ++ [c]) :: SplitAfter b c.
Proof.
  induction l as [|x l IH]; simpl; intros Hn; [by rewrite beq_refl|].
  apply not_elem_of_cons in Hn as [? ?].
  destruct (beq_spec x c); [congruence|]. by rewrite IH.
Qed.
Lemma Split_notin s c : c ∉ s → Split s c = [s].
Proof.
  induction s as [|x s IH]; simpl; intros Hn; [done|].
  apply not_elem_of_cons in Hn as [? ?].
  destruct (beq_spec x c); [congruence|]. by rewrite IH.
Qed.
Lemma Split_line l c b : c ∉ l → Split (l ++ c :: b) c = l :: Split b c.
Proof.
  induction l as [|x l IH]; simpl; intros Hn; [by rewrite beq_refl|].
  apply not_elem_of_cons in Hn as [? ?].
  destruct (beq_spec x c); [congruence|]. by rewrite IH.
Qed.
Lemma Split_elem_notin s c l : l ∈ Split s c → c ∉ l.
Proof.
  revert l. induction s as [|x s IH]; simpl; intros l Hl.
  - apply list_elem_of_singleton in Hl as ->. by apply not_elem_of_nil.
  - destruct (beq_spec x c) as [->|Hne].
    + apply elem_of_cons in Hl as [->|Hl]; [by apply not_elem_of_nil|auto].
    + destruct (Split s c) as [|h t].
      * apply list_elem_of_singleton in Hl as ->. set_solver.
      * apply elem_of_cons in Hl as [->|Hl]; [|apply IH; by right].
        apply not_elem_of_cons. split; [done|apply IH; left].
Qed.
Lemma Join_Split s c : Join (Split s c) [c] = s.
Proof.
  induction s as [|x s IH]; simpl; [done|].
  pose proof (Split_nonempty s c).
  destruct (beq_spec x c) as [->|]; destruct (Split s c) as [|h t] eqn:E; try done.
  - simpl in *. by rewrite IH.
  - rewrite <- IH. by destruct t.
Qed.

Lemma elem_of_rev {A} (x : A) l : x ∈ rev l ↔ x ∈ l.
Proof. rewrite rev_alt. apply elem_of_reverse. Qed.
Lemma Cut_spec s c :
  (∃ b a, Cut s c = (b, a, true) ∧ s = b ++ c :: a ∧ c ∉ b)
  ∨ (Cut s c = (s, [], false) ∧ c ∉ s).
Proof.
  induction s as [|x s IH]; simpl; [right; by split; [|apply not_elem_of_nil]|].
  destruct (beq_spec x c) as [->|].
  - left. exists [], s. split_and!; [done..|apply not_elem_of_nil].
  - destruct IH as [(b & a & -> & -> & ?)|[-> ?]]; [left; exists (x :: b), a|right];
      split_and?; try done; set_solver.
Qed.
Lemma app_sep_inj {A} (c : A) a b a' b' :
  c ∉ b → c ∉ b' → a ++ c :: b = a' ++ c :: b' → a = a' ∧ b = b'.
Proof.
  intros Hb Hb'. revert a'. induction a as [|x a IH]; intros [|y a']; simpl; intros E.
  - by injection E as ->.
  - injection E as -> ->. set_solver.
  - injection E as -> <-. set_solver.
  - injection E as -> E. destruct (IH _ E) as [-> ->]. done.
Qed.
Lemma CutLast_Some s c b a : CutLast s c = Some (b, a) ↔ s = b ++ c :: a ∧ c ∉ a.
Proof.
  unfold CutLast.
  destruct (Cut_spec (rev s) c) as [(x & y & -> & E & Hn)|[-> Hn]].
  - apply (f_equal (@rev _)) in E. rewrite rev_involutive, rev_app_distr in E. simpl in E.
    rewrite <- app_assoc in E. simpl in E. subst s. rewrite <- elem_of_rev in Hn. split.
    + by intros [= <- <-].
    + intros [E Hn']. by destruct (app_sep_inj _ _ _ _ _ Hn Hn' E) as [-> ->].
  - rewrite elem_of_rev in Hn. split; [done|]. intros [-> ?]. set_solver.
Qed.

(** *** Case *)
Lemma lower_byte_fixed c : is_upper c = false → lower_byte c = c.
Proof. intros H. unfold lower_byte. by rewrite H. Qed.
Lemma is_upper_lower_byte c : is_upper (lower_byte c) = false.
Proof.
  unfold lower_byte. destruct (is_upper c) eqn:E; [|done].
  unfold is_upper, in_range in *. bools. rewrite code_chr by lia.
  apply andb_false_iff. right. apply Z.leb_gt. lia.
Qed.
Lemma map_lower_fixed s : forallb (λ c, negb (is_upper c)) s = true → map lower_byte s = s.
Proof.
  induction s as [|c s IH]; simpl; [done|]. intros H. bools.
  rewrite lower_byte_fixed by done. f_equal. auto.
Qed.
Lemma ToLower_fixed `{Unicode} s :
  is_ascii s = true → forallb (λ c, negb (is_upper c)) s = true → ToLower s = s.
Proof. intros Ha Hu. unfold ToLower. rewrite Ha. by apply map_lower_fixed. Qed.
Lemma ToLower_ascii `{Unicode} s : is_ascii s = true → ToLower s = map lower_byte s.
Proof. unfold ToLower. by intros ->. Qed.
Lemma map_lower_idem s : map lower_byte (map lower_byte s) = map lower_byte s.
Proof.
  apply map_lower_fixed. induction s as [|c s IH]; simpl; [done|].
  by rewrite is_upper_lower_byte.
Qed.

Lemma Split_snoc_sep s c : Split (s ++ [c]) c = Split s c ++ [[]].
Proof.
  induction s as [|x s IH]; simpl; [by rewrite beq_refl|].
  rewrite IH. destruct (beq x c); [done|].
  pose proof (Split_nonempty s c). by destruct (Split s c).
Qed.
Lemma Split_elem_bytes s c x : x ∈ s → x = c ∨ ∃ l, l ∈ Split s c ∧ x ∈ l.
Proof.
  induction s as [|y s IH]; simpl; [by intros ?%not_elem_of_nil|].
  intros [->|Hx]%elem_of_cons.
  - destruct (beq_spec y c) as [->|]; [by left|]. right.
    destruct (Split s c) as [|h t]; eexists; (split; [left|left]).
  - destruct (IH Hx) as [->|(l & Hl & Hxl)]; [by left|]. right.
    destruct (beq y c); [exists l; split; [by right|done]|].
    destruct (Split s c) as [|h t]; [by apply not_elem_of_nil in Hl|].
    apply elem_of_cons in Hl as [->|Hl];
      [exists (y :: h); split; [left|by right]|exists l; split; [by right|done]].
Qed.

(** ** Trimming white space *)
Lemma strip_prefix_shorter p s r : strip_prefix p s = Some r → (length r ≤ length s)%nat.
Proof. intros ->%strip_prefix_Some. rewrite length_app. lia. Qed.
Lemma strip_any_Some ps s r : strip_any ps s = Some r → ∃ p, p ∈ ps ∧ s = p ++ r.
Proof.
  induction ps as [|p ps IH]; simpl; [done|].
  destruct (strip_prefix p s) as [r'|] eqn:E.
  - intros [= ->]. exists p. split; [left|by apply strip_prefix_Some].
  - intros (q & Hq & ->)%IH. exists q. split; [by right|done].
Qed.
Lemma trim_loop_suffix n ps s : ∃ t, s = t ++ trim_loop n ps s.
Proof.
  revert s. induction n as [|n IH]; intros s; simpl; [by exists []|].
  destruct (strip_any ps s) as [r|] eqn:E; [|by exists []].
  apply strip_any_Some in E as (p & _ & ->). destruct (IH r) as [t Ht].
  exists (p ++ t). rewrite <- app_assoc. by f_equal.
Qed.
Lemma trim_loop_nil n ps s : strip_any ps s = None → trim_loop n ps s = s.
Proof. intros E. destruct n; simpl; [done|]. by rewrite E. Qed.
Lemma space_runes_nonempty : Forall (λ p, p ≠ []) space_runes ∧ Forall (λ p, p ≠ []) (map (@rev byte) space_runes).
Proof. split; by_compute. Qed.
(** A rune cannot be completed by a newline. *)
Definition nl_safe (p : str) : bool := (length p =? 1)%nat || negb (bool_decide (nl ∈ p)).
Lemma strip_prefix_nl p s :
  s ≠ [] → nl_safe p = true →
  strip_prefix p (s ++ [nl]) = (λ r, r ++ [nl]) <$> strip_prefix p s.
Proof.
  intros Hs Hp. destruct (strip_prefix p s) as [r|] eqn:E.
  - apply strip_prefix_Some in E as ->. rewrite <- app_assoc. simpl. apply strip_prefix_app.
  - destruct (strip_prefix p (s ++ [nl])) as [r|] eqn:E2; [|done].
    exfalso. apply strip_prefix_Some in E2.
    assert (∀ r', s ≠ p ++ r') as Hno by (intros r' ->; by rewrite strip_prefix_app in E).
    destruct r as [|c r].
    + rewrite app_nil_r in E2. unfold nl_safe in Hp. apply orb_true_iff in Hp as [Hp|Hp]; bools.
      * apply Nat.eqb_eq in Hp. rewrite <- E2, length_app in Hp. destruct s; simpl in Hp; [done|lia].
      * apply Hp. rewrite <- E2. set_solver.
    + destruct (exists_last (l := c :: r)) as (r' & x & Er); [done|]. rewrite Er, app_assoc in E2.
      apply app_inj_tail in E2 as [E2 _]. by apply (Hno r').
Qed.
Lemma strip_any_nl ps s :
  s ≠ [] → forallb nl_safe ps = true →
  strip_any ps (s ++ [nl]) = (λ r, r ++ [nl]) <$> strip_any ps s.
Proof.
  intros Hs. induction ps as [|p ps IH]; simpl; [done|]. intros [Hp Hps]%andb_true_iff.
  rewrite strip_prefix_nl by done. destruct (strip_prefix p s); simpl; [done|]. by apply IH.
Qed.
Lemma trim_left_nl s :
  TrimLeftSpace (s ++ [nl]) = match TrimLeftSpace s with [] => [] | t => t ++ [nl] end.
Proof.
  unfold TrimLeftSpace. rewrite length_app, Nat.add_comm. simpl (length [nl] + _)%nat.
  assert (∀ n s, (length s ≤ n)%nat → trim_loop (S n) space_runes (s ++ [nl])
     = match trim_loop n space_runes s with [] => [] | t => t ++ [nl] end) as E.
  { clear s. induction n as [|n IH]; intros s Hn.
    - by destruct s; [|simpl in Hn; lia].
    - destruct s as [|c s]; [by vm_compute; destruct n|].
      change (trim_loop (S (S n)) space_runes ((c :: s) ++ [nl])) with
        (match strip_any space_runes ((c :: s) ++ [nl]) with
         | Some r => trim_loop (S n) space_runes r | None => (c :: s) ++ [nl] end).
      rewrite strip_any_nl by (done || by vm_compute).
      change (trim_loop (S n) space_runes (c :: s)) with
        (match strip_any space_runes (c :: s) with
         | Some r => trim_loop n space_runes r | None => c :: s end).
      destruct (strip_any space_runes (c :: s)) as [r|] eqn:Er; [|done]. cbn [fmap option_fmap option_map].
      apply IH. apply strip_any_Some in Er as (p & Hp & Er).
      apply (f_equal length) in Er. rewrite length_app in Er. simpl in *.
      pose proof (proj1 space_runes_nonempty) as Hne. rewrite Forall_forall in Hne.
      specialize (Hne _ Hp). destruct p; simpl in *; [done|lia]. }
  by apply E.
Qed.
Lemma trim_right_nl s : TrimRightSpace (s ++ [nl]) = TrimRightSpace s.
Proof.
  unfold TrimRightSpace. rewrite rev_app_distr, length_app, Nat.add_comm. f_equal.
Qed.
Lemma TrimSpace_nl s : TrimSpace (s ++ [nl]) = TrimSpace s.
Proof.
  unfold TrimSpace. rewrite trim_left_nl. destruct (TrimLeftSpace s); [done|]. apply trim_right_nl.
Qed.
Lemma TrimRightSpace_prefix s : ∃ t, s = TrimRightSpace s ++ t.
Proof.
  unfold TrimRightSpace. destruct (trim_loop_suffix (length s) (map (@rev byte) space_runes) (rev s)) as [t Ht].
  exists (rev t). rewrite <- rev_app_distr, <- Ht. by rewrite rev_involutive.
Qed.
(** A text that starts with a digit keeps its first byte, if anything. *)
Lemma TrimSpace_digit c s : is_digit c = true → ∀ x t, TrimSpace (c :: s) = x :: t → x = c.
Proof.
  intros Hc x t Ht. unfold TrimSpace in Ht.
  assert (TrimLeftSpace (c :: s) = c :: s) as E.
  { unfold TrimLeftSpace. apply trim_loop_nil.
    destruct (strip_any space_runes (c :: s)) as [r|] eqn:Er; [|done].
    apply strip_any_Some in Er as (p & Hp & Er).
    assert (forallb (λ p, match p with [] => false | d :: _ => negb (is_digit d) end) space_runes = true) as Hall
      by (by vm_compute).
    rewrite forallb_forall in Hall. specialize (Hall p). rewrite <- list_elem_of_In in Hall.
    specialize (Hall Hp). destruct p as [|d p]; [done|]. simplify_eq/=. by rewrite Hc in Hall. }
  rewrite E in Ht. destruct (TrimRightSpace_prefix (c :: s)) as [u Hu]. rewrite Ht in Hu. by simplify_eq/=.
Qed.

(** ** Lines *)
(** All but the last line end with the separator, and the rest splits by itself. *)
Lemma SplitAfter_cons b c x y r :
  SplitAfter b c = x :: y :: r →
  ∃ l b', x = l ++ [c] ∧ c ∉ l ∧ b = l ++ c :: b' ∧ SplitAfter b' c = y :: r.
Proof.
  revert x. induction b as [|z b IH]; intros x; simpl; [done|].
  destruct (beq_spec z c) as [->|Hz].
  - intros [= <- E]. exists [], b. split_and!; try done. by apply not_elem_of_nil.
  - destruct (SplitAfter b c) as [|h t] eqn:E; [done|]. intros [= <- ->].
    destruct (IH h eq_refl) as (l & b' & -> & Hl & -> & Hr). exists (z :: l), b'.
    split_and!; try done. apply not_elem_of_cons. split; [congruence|done].
Qed.
Lemma SplitAfter_decomp b c xs post :
  SplitAfter b c = xs ++ post → post ≠ [] →
  (∀ d, SplitAfter (mjoin xs ++ d) c = xs ++ SplitAfter d c) ∧ SplitAfter (mjoin post) c = post
  ∧ b = mjoin xs ++ mjoin post.
Proof.
  revert b. induction xs as [|x xs IH]; intros b Hb Hp; simpl in *.
  - split; [done|]. rewrite <- Hb, mjoin_SplitAfter. done.
  - destruct (xs ++ post) as [|y r] eqn:E; [by destruct xs, post|].
    apply SplitAfter_cons in Hb as (l & b' & -> & Hl & -> & Hb').
    destruct (IH b' ltac:(congruence) Hp) as (H1 & H2 & ->). split_and!; [|done|].
    + intros d. rewrite <- !app_assoc. simpl. rewrite SplitAfter_line by done. by rewrite H1.
    + by rewrite <- !app_assoc.
Qed.

(** *** Decimal numbers *)
Lemma pretty_N_char_digit x : is_digit (pretty_N_char x) = true.
Proof. unfold pretty_N_char. repeat case_match; reflexivity. Qed.
Lemma code_pretty_N_char x : (x < 10)%N → code (pretty_N_char x) - 48 = Z.of_N x.
Proof.
  intros Hx. assert (x = 0 ∨ x = 1 ∨ x = 2 ∨ x = 3 ∨ x = 4 ∨ x = 5 ∨ x = 6 ∨ x = 7 ∨ x = 8 ∨ x = 9)%N as Hc by lia.
  destruct_or! Hc; subst x; reflexivity.
Qed.
Lemma pretty_N_go_spec x t :
  ∃ ds, String.list_ascii_of_string (pretty_N_go x t) = ds ++ String.list_ascii_of_string t ∧
    Forall (λ c, is_digit c = true) ds ∧ ((0 < x)%N → ds ≠ []) ∧
    ∀ r, digits_value 0 (ds ++ r) = digits_value (Z.of_N x) r.
Proof.
  revert t. induction (N.lt_wf_0 x) as [x _ IH]; intros t.
  assert (x = 0 ∨ 0 < x)%N as [->|Hx] by lia.
  { exists []. rewrite pretty_N_go_0. split_and!; [done|by apply Forall_nil|lia|done]. }
  rewrite pretty_N_go_step by done.
  destruct (IH (x `div` 10)%N (N.div_lt x 10 Hx ltac:(lia)) (String.String (pretty_N_char (x `mod` 10)) t)) as (ds & E & Hd & _ & Hv).
  exists (ds ++ [pretty_N_char (x `mod` 10)%N]). split_and!.
  - rewrite E, <- app_assoc. done.
  - apply Forall_app. split; [done|]. apply Forall_cons. split; [apply pretty_N_char_digit|by apply Forall_nil].
  - intros _ En. by apply app_eq_nil in En as [_ ?].
  - intros r. rewrite <- app_assoc, Hv. cbn [app digits_value]. rewrite pretty_N_char_digit.
    rewrite code_pretty_N_char by (apply N.mod_lt; lia). f_equal. pose proof (N.div_mod x 10 ltac:(lia)). lia.
Qed.
(** A non-negative number is written with digits only, and they are its value. *)
Lemma Itoa_digits z : 0 ≤ z → Forall (λ c, is_digit c = true) (Itoa z) ∧ Itoa z ≠ [] ∧
  ∀ r, digits_value 0 (Itoa z ++ r) = digits_value z r.
Proof.
  intros Hz. assert (∀ n, let s := String.list_ascii_of_string (pretty (A := N) n) in
    Forall (λ c, is_digit c = true) s ∧ s ≠ [] ∧ ∀ r, digits_value 0 (s ++ r) = digits_value (Z.of_N n) r) as Hn.
  { intros n. unfold pretty, pretty_N. destruct (decide (n = 0)%N) as [->|Hn0].
    - split_and!; [repeat constructor|done|done].
    - destruct (pretty_N_go_spec n ("" : String.string)) as (ds & E & Hd & Hne & Hv). cbv zeta. rewrite E. cbn [String.list_ascii_of_string].
      rewrite app_nil_r. split_and!; [done|apply Hne; lia|done]. }
  unfold Itoa. destruct z as [|p|p]; [split_and!; [repeat constructor|done|done]| |lia]. exact (Hn (Npos p)).
Qed.
