(* ===== verification/NetIP.v ===== *)
(** * NetIP: the parts of Go's [net/netip] the program uses

    Addresses, the parsers [ParseAddr], [ParseAddrPort] and [ParsePrefix], printing,
    the classification methods and prefix membership.  The error values of the
    parsers are never inspected by the program, so they return [option]. *)
From S2P Require Import Prelude Strs.

(** [netip.Addr]: the zero value, an IPv4 address (32 bits), an IPv6 address (128 bits)
    with its zone. *)
Inductive Addr := AddrZero | V4 (v : Z) | V6 (v : Z) (zone : str).
#[global] Instance Addr_eq_dec : EqDecision Addr.
Proof. solve_decision. Defined.
#[global] Instance Addr_countable : Countable Addr.
Proof.
  refine (inj_countable'
    (λ a, match a with AddrZero => inl () | V4 v => inr (inl v) | V6 v z => inr (inr (v, z)) end)
    (λ x, match x with inl _ => AddrZero | inr (inl v) => V4 v | inr (inr (v, z)) => V6 v z end) _).
  by intros [].
Defined.
Definition addr_eqb (a b : Addr) : bool := bool_decide (a = b).
Record AddrPort := mkAddrPort { ap_addr : Addr; ap_port : Z }.
Record Prefix := mkPrefix { pfx_addr : Addr; pfx_bits : Z }.

(** ** Parsing *)
Fixpoint parseIPv4Fields (s : str) (fields : list Z) (val digLen : Z) : option (list Z) :=
  match s with
  | [] => if (length fields <? 3)%nat then None else Some (fields ++ [val])
  | c :: s' =>
      if is_digit c then
        if (digLen =? 1) && (val =? 0) then None
        else let val' := val * 10 + (code c - 48) in
             if 255 <? val' then None else parseIPv4Fields s' fields val' (digLen + 1)
      else if beq c dot then
        if (digLen =? 0) || bool_decide (s' = []) then None
        else if (length fields =? 3)%nat then None
        else parseIPv4Fields s' (fields ++ [val]) 0 0
      else None
  end.
Definition be_value (base : Z) (l : list Z) : Z := fold_left (λ a x, a * base + x) l 0.
Definition parseIPv4 (s : str) : option Addr :=
  l ← parseIPv4Fields s [] 0 0; Some (V4 (be_value 256 l)).

Definition hex_value (c : byte) : option Z :=
  if is_digit c then Some (code c - 48)
  else if in_range 97 102 c then Some (code c - 87)
  else if in_range 65 70 c then Some (code c - 55)
  else None.
(** The leading hex group of [s]: its value, its length and the rest; [None] when it has
    more than four digits. *)
Fixpoint hex_group (s : str) (off : nat) (acc : Z) : option (Z * nat * str) :=
  match s with
  | [] => Some (acc, off, [])
  | c :: s' =>
      match hex_value c with
      | Some d => if (3 <? off)%nat then None else hex_group s' (S off) (acc * 16 + d)
      | None => Some (acc, off, s)
      end
  end.
(** The loop of [parseIPv6]; [ip] are the 16-bit groups read so far, [ell] the position
    of the ellipsis in them.  Each iteration adds a group, so eight suffice. *)
Fixpoint parseIPv6_loop (fuel : nat) (s : str) (ip : list Z) (ell : option nat)
    : option (str * list Z * option nat) :=
  match fuel with
  | O => Some (s, ip, ell)
  | S n =>
      '(acc, off, r) ← hex_group s 0 0;
      if (off =? 0)%nat then None
      else match r with
      | c :: _ =>
        if beq c dot then
          if bool_decide (ell = None) && negb (length ip =? 6)%nat then None
          else if (6 <? length ip)%nat then None
          else match parseIPv4Fields s [] 0 0 with
               | Some [a; b; c; d] => Some ([], ip ++ [a * 256 + b; c * 256 + d], ell)
               | _ => None
               end
        else if negb (beq c colon) then None
        else let ip' := ip ++ [acc] in
             match r with
             | [_] => None
             | _ :: ((c2 :: s2) as s1) =>
                 if beq c2 colon then
                   if bool_decide (ell ≠ None) then None
                   else match s2 with
                        | [] => Some ([], ip', Some (length ip'))
                        | _ => parseIPv6_loop n s2 ip' (Some (length ip'))
                        end
                 else parseIPv6_loop n s1 ip' ell
             | [] => None
             end
      | [] => Some ([], ip ++ [acc], ell)
      end
  end.
Definition parseIPv6 (s0 : str) : option Addr :=
  let '(s, zone, hasz) := Cut s0 (chr 37) in
  if hasz && bool_decide (zone = []) then None
  else
    let '(s, ell) := match strip_prefix "::" s with
                     | Some r => (r, Some 0%nat) | None => (s, None) end in
    if bool_decide (ell = Some 0%nat) && bool_decide (s = []) then Some (V6 0 zone)
    else
      '(rest, ip, ell) ← parseIPv6_loop 8 s [] ell;
      if bool_decide (rest ≠ []) then None
      else if (length ip <? 8)%nat then
        match ell with
        | None => None
        | Some e => Some (V6 (be_value 65536
                      (take e ip ++ replicate (8 - length ip) 0 ++ drop e ip)) zone)
        end
      else if bool_decide (ell ≠ None) then None
      else Some (V6 (be_value 65536 ip) zone).

Fixpoint parse_kind (s : str) : option bool :=  (* the first '.' (IPv4) or ':' (IPv6) *)
  match s with
  | [] => None
  | c :: s' => if beq c dot then Some true else if beq c colon then Some false
               else if beq c (chr 37) then None else parse_kind s'
  end.
Definition ParseAddr (s : str) : option Addr :=
  match parse_kind s with
  | Some true => parseIPv4 s
  | Some false => parseIPv6 s
  | None => None
  end.

Definition Is4 (a : Addr) : bool := match a with V4 _ => true | _ => false end.
Definition Is6 (a : Addr) : bool := match a with V6 _ _ => true | _ => false end.

Definition ParseAddrPort (s : str) : option AddrPort :=
  '(ip, port) ← CutLast s colon;
  match ip, port with
  | [], _ | _, [] => None
  | c :: ip', _ =>
      let bracket := beq c (chr 91) in
      ip ← (if bracket then
              match rev ip' with
              | d :: r => if beq d (chr 93) then Some (rev r) else None
              | [] => None
              end
            else Some ip);
      p ← ParseUint port 16;
      a ← ParseAddr ip;
      if bracket then (if Is4 a then None else Some (mkAddrPort a p))
      else if Is6 a then None else Some (mkAddrPort a p)
  end.
Definition ParsePrefix (s : str) : option Prefix :=
  '(l, bitsStr) ← CutLast s slash;
  ip ← ParseAddr l;
  match ip with
  | V6 _ (_ :: _) => None
  | _ =>
      if match bitsStr with
         | c :: _ :: _ => negb (in_range 49 57 c)
         | _ => false end then None
      else
        bits ← Atoi bitsStr;
        if (bits <? 0) || ((if Is6 ip then 128 else 32) <? bits) then None
        else Some (mkPrefix ip bits)
  end.

(** [netip.AddrFromSlice]: 4 or 16 bytes. *)
Definition AddrFromSlice (b : str) : option Addr :=
  if (length b =? 4)%nat then Some (V4 (be_value 256 (map code b)))
  else if (length b =? 16)%nat then Some (V6 (be_value 256 (map code b)) [])
  else None.

(** ** Methods *)
Definition Is4In6 (a : Addr) : bool :=
  match a with V6 v _ => Z.shiftr v 32 =? 65535 | _ => false end.
Definition Unmap (a : Addr) : Addr :=
  match a with V6 v _ => if Is4In6 a then V4 (v mod 2 ^ 32) else a | _ => a end.
Definition IsLoopback (a : Addr) : bool :=
  match Unmap a with
  | V4 v => Z.shiftr v 24 =? 127 | V6 v _ => v =? 1 | AddrZero => false end.
Definition IsMulticast (a : Addr) : bool :=
  match Unmap a with
  | V4 v => Z.shiftr v 28 =? 14 | V6 v _ => Z.shiftr v 120 =? 255 | AddrZero => false end.
Definition IsUnspecified (a : Addr) : bool :=
  match a with V4 v => v =? 0 | V6 v z => (v =? 0) && bool_decide (z = []) | AddrZero => false end.
(** [netip.MustParseAddr "255.255.255.255"] *)
Definition broadcast : Addr := V4 4294967295.
Definition hasZone (a : Addr) : bool :=
  match a with V6 _ z => bool_decide (z ≠ []) | _ => false end.
Definition PrefixContains (p : Prefix) (ip : Addr) : bool :=
  if hasZone ip then false
  else match pfx_addr p, ip with
       | V4 a, V4 b => Z.shiftr (Z.lxor b a) (32 - pfx_bits p) =? 0
       | V6 a _, V6 b _ => Z.shiftr (Z.lxor b a) (128 - pfx_bits p) =? 0
       | _, _ => false
       end.

(** ** Printing *)
Definition octets (v : Z) : list Z :=
  [v / 2 ^ 24 mod 256; v / 2 ^ 16 mod 256; v / 2 ^ 8 mod 256; v mod 256].
Definition groups (v : Z) : list Z :=
  map (λ i, v / 2 ^ (16 * (7 - i)) mod 65536) [0; 1; 2; 3; 4; 5; 6; 7].
Definition hex_str (x : Z) : str :=
  let d k := x / 16 ^ k mod 16 in
  map hex_digit (if 4096 <=? x then [d 3; d 2; d 1; d 0] else if 256 <=? x then [d 2; d 1; d 0]
                 else if 16 <=? x then [d 1; d 0] else [d 0]).
(** The first longest run of at least two zero groups: its start and length. *)
Fixpoint zero_run (l : list Z) : nat :=
  match l with 0 :: l' => S (zero_run l') | _ => O end.
Fixpoint longest_zero_run (l : list Z) (i : nat) (best : nat * nat) : nat * nat :=
  match l with
  | [] => best
  | _ :: l' =>
      let n := zero_run l in
      longest_zero_run l' (S i) (if (1 <? n)%nat && (snd best <? n)%nat then (i, n) else best)
  end.
Definition v6_string (v : Z) : str :=
  let g := groups v in
  let '(z, n) := longest_zero_run g 0 (0, 0)%nat in
  if (n =? 0)%nat then Join (map hex_str g) ":"
  else Join (map hex_str (take z g)) ":" ++ "::" ++ Join (map hex_str (drop (z + n) g)) ":".
Definition v4_string (v : Z) : str := Join (map Itoa (octets v)) ".".
Definition AddrString (a : Addr) : str :=
  match a with
  | AddrZero => "invalid IP"
  | V4 v => v4_string v
  | V6 v z =>
      (if Is4In6 a then "::ffff:" ++ v4_string (v mod 2 ^ 32) else v6_string v)
      ++ (match z with [] => [] | _ => "%" ++ z end)
  end.
(** [net.JoinHostPort]: brackets when the host has a colon or a percent sign. *)
Definition JoinHostPort (host port : str) : str :=
  if bool_decide (colon ∈ host) || bool_decide (chr 37 ∈ host) then "[" ++ host ++ "]:" ++ port
  else host ++ ":" ++ port.

(** ** Lemmas *)
(** A decimal numeral without a leading zero. *)
Definition canonical (ds : str) : bool :=
  forallb is_digit ds
  && match ds with [] => false | [_] => true | c :: _ => negb (code c =? 48) end.

Definition all_digits : list byte := map (λ i, chr (48 + Z.of_nat i)) (seq 0 10).
Lemma is_digit_all c : is_digit c = true → c ∈ all_digits.
Proof.
  unfold is_digit, in_range. intros H; bools.
  rewrite <- (chr_code c). unfold all_digits. apply list_elem_of_fmap.
  exists (Z.to_nat (code c - 48)). split; [f_equal; lia|].
  apply elem_of_seq. lia.
Qed.
Definition itoa_ok (ds : str) : bool :=
  match digits_value 0 ds with
  | Some v => implb (canonical ds && (v <=? 255)) (Itoa v == ds)
  | None => false
  end.
Lemma itoa_ok_1 : forallb (λ a, itoa_ok [a]) all_digits = true.
Proof. by vm_compute. Qed.
Lemma itoa_ok_2 : forallb (λ a, forallb (λ b, itoa_ok [a; b]) all_digits) all_digits = true.
Proof. by vm_compute. Qed.
Lemma itoa_ok_3 :
  forallb (λ a, forallb (λ b, forallb (λ c, itoa_ok [a; b; c]) all_digits) all_digits) all_digits = true.
Proof. by vm_compute. Qed.
Lemma forallb_elem {A} (f : A → bool) l x : forallb f l = true → x ∈ l → f x = true.
Proof. intros H Hx. eapply forallb_forall in H; [done|]. by apply list_elem_of_In. Qed.

Lemma digits_value_mono ds acc v : 0 ≤ acc → digits_value acc ds = Some v → acc * 10 ^ Z.of_nat (length ds) ≤ v.
Proof.
  revert acc. induction ds as [|c ds IH]; simpl; intros acc Ha H; [injection H as <-; lia|].
  destruct (is_digit c) eqn:Hd; [|done]. unfold is_digit, in_range in Hd. bools.
  apply IH in H; [|lia].
  rewrite Nat2Z.inj_succ, Z.pow_succ_r by lia. nia.
Qed.
(** Printing the value of a canonical octet gives the numeral back. *)
Lemma Itoa_octet ds v :
  canonical ds = true → digits_value 0 ds = Some v → v ≤ 255 → Itoa v = ds.
Proof.
  intros Hc Hv Hle.
  assert (itoa_ok ds = true) as H.
  { destruct ds as [|a [|b [|c [|d ds]]]]; [done|..]; pose proof Hc as Hc';
      unfold canonical in Hc'; simpl in Hc'; bools.
    - eapply (forallb_elem _ _ _ itoa_ok_1). by apply is_digit_all.
    - eapply (forallb_elem (λ b, itoa_ok [a; b]) all_digits), is_digit_all; [|done].
      by apply (forallb_elem _ _ _ itoa_ok_2), is_digit_all.
    - eapply (forallb_elem (λ c, itoa_ok [a; b; c]) all_digits), is_digit_all; [|done].
      eapply (forallb_elem (λ b, forallb (λ c, itoa_ok [a; b; c]) all_digits) all_digits),
        is_digit_all; [|done].
      by apply (forallb_elem _ _ _ itoa_ok_3), is_digit_all.
    - exfalso. simpl in Hv.
      repeat match goal with H : is_digit ?x = true |- _ => rewrite H in Hv end.
      apply digits_value_mono in Hv; [|unfold is_digit, in_range in *; bools; lia].
      unfold is_digit, in_range in *. bools.
      assert (1 ≤ 10 ^ Z.of_nat (length ds)) by (apply (Z.pow_le_mono_r 10 0); lia). nia. }
  unfold itoa_ok in H. rewrite Hv, Hc in H. simpl in H.
  assert ((v <=? 255) = true) as E by lia. rewrite E in H. simpl in H. by bools.
Qed.

Lemma digits_value_snoc acc ds c v :
  digits_value acc ds = Some v → is_digit c = true →
  digits_value acc (ds ++ [c]) = Some (v * 10 + (code c - 48)).
Proof.
  revert acc. induction ds as [|d ds IH]; simpl; intros acc H Hc.
  - injection H as <-. by rewrite Hc.
  - destruct (is_digit d); [by apply IH|done].
Qed.
Lemma canonical_snoc ds c v :
  canonical ds = true → digits_value 0 ds = Some v → is_digit c = true →
  (Z.of_nat (length ds) =? 1) && (v =? 0) = false → canonical (ds ++ [c]) = true.
Proof.
  unfold canonical. intros Hc Hv Hd Hz. rewrite forallb_app.
  apply andb_true_iff in Hc as [Hall Hc]. rewrite Hall. simpl. rewrite Hd. simpl.
  destruct ds as [|a [|b ds]]; [done| |done]. simpl in *.
  destruct (is_digit a); [|done]. injection Hv as <-.
  destruct (Z.eqb_spec (code a) 48) as [E|]; [|done]. by rewrite E in Hz.
Qed.
Lemma canonical_single c : is_digit c = true → canonical [c] = true.
Proof. intros H. unfold canonical. simpl. by rewrite H. Qed.

(** What [parseIPv4Fields] accepts is the dotted text of its result: [cur] are the digits
    of the current field. *)
Lemma parseIPv4Fields_inv s fields val cur out :
  parseIPv4Fields s fields val (Z.of_nat (length cur)) = Some out →
  (cur = [] ∧ val = 0 ∧ s ≠ [] ∨ canonical cur = true ∧ digits_value 0 cur = Some val) →
  0 ≤ val ≤ 255 → (length fields ≤ 3)%nat →
  ∃ l, out = fields ++ l ∧ l ≠ [] ∧ cur ++ s = Join (map Itoa l) "."
       ∧ Forall (λ x, 0 ≤ x ≤ 255) l ∧ length out = 4%nat.
Proof.
  revert fields val cur. induction s as [|c s IH]; intros fields val cur; simpl.
  - destruct (Nat.ltb_spec (length fields) 3) as [|Hlen]; [done|]. intros [= <-] [(_&_&?)|[Hc Hv]] ? ?; [done|].
    exists [val]. rewrite app_nil_r. simpl. rewrite (Itoa_octet cur val) by (done || lia).
    split_and!; try done; [constructor; [done|by apply Forall_nil]|]. rewrite length_app. simpl. lia.
  - destruct (is_digit c) eqn:Hd.
    + destruct ((Z.of_nat (length cur) =? 1) && (val =? 0)) eqn:Hz; [done|].
      destruct (255 <? val * 10 + (code c - 48)) eqn:Hov; [done|]. bools.
      intros H Hcur Hval Hf.
      assert (0 ≤ code c - 48) by (unfold is_digit, in_range in Hd; bools; lia).
      replace (Z.of_nat (length cur) + 1) with (Z.of_nat (length (cur ++ [c]))) in H
        by (rewrite length_app; simpl; lia).
      apply IH in H as (l & ? & ? & E & ? & ?); [|right|lia|done].
      { exists l. rewrite <- app_assoc in E. done. }
      destruct Hcur as [(-> & -> & _)|[Hc Hv]].
      * split; [by apply canonical_single|]. simpl. by rewrite Hd.
      * split; [by eapply canonical_snoc|by apply digits_value_snoc].
    + destruct (beq_spec c dot) as [->|]; [|done].
      destruct (Z.eqb_spec (Z.of_nat (length cur)) 0) as [|Hn]; [done|]. simpl.
      destruct (bool_decide_reflect (s = [])) as [|Hs]; [done|].
      destruct (Nat.eqb_spec (length fields) 3) as [|Hf3]; [done|].
      intros H Hcur Hval Hf.
      apply (IH (fields ++ [val]) 0 []) in H as (l & -> & Hl & E & HF & Hlen);
        [|by left|lia|rewrite length_app; simpl; lia].
      simpl in E. rewrite <- app_assoc in *. simpl in *.
      destruct Hcur as [(-> & _)|[Hc Hv]]; [done|].
      exists (val :: l). split_and!; [done|done| |by constructor|done].
      simpl. rewrite (Itoa_octet cur val) by (done || lia).
      destruct l as [|x l]; [done|]. simpl. rewrite E. done.
Qed.
Lemma octets_be (a b c d : Z) :
  0 ≤ a ≤ 255 → 0 ≤ b ≤ 255 → 0 ≤ c ≤ 255 → 0 ≤ d ≤ 255 →
  octets (be_value 256 [a; b; c; d]) = [a; b; c; d].
Proof.
  intros. unfold octets, be_value. cbn [fold_left].
  change (2 ^ 24) with 16777216. change (2 ^ 16) with 65536. change (2 ^ 8) with 256.
  repeat (apply f_equal2; [Z.div_mod_to_equations; lia|]). done.
Qed.
Lemma parseIPv6_not_v4 s v : parseIPv6 s ≠ Some (V4 v).
Proof.
  unfold parseIPv6. destruct (Cut s (chr 37)) as [[s' z] hz].
  destruct (_ && _); [done|].
  destruct (match strip_prefix "::" s' with Some r => _ | None => _ end) as [s2 ell].
  destruct (_ && _); [done|].
  unfold mbind, option_bind.
  destruct (parseIPv6_loop 8 s2 [] ell) as [[[rest ip] ell']|]; [|done].
  repeat case_match; done.
Qed.
Lemma parse_kind_v4 s v : ParseAddr s = Some (V4 v) → parseIPv4 s = Some (V4 v).
Proof.
  unfold ParseAddr. destruct (parse_kind s) as [[]|]; try done.
  intros H. by apply parseIPv6_not_v4 in H.
Qed.
(** The printed form of a parsed IPv4 address is the text it was parsed from. *)
Lemma ParseAddr_v4_string s v :
  ParseAddr s = Some (V4 v) → v4_string v = s ∧ 0 ≤ v < 2 ^ 32.
Proof.
  intros H%parse_kind_v4. unfold parseIPv4 in H.
  destruct (parseIPv4Fields s [] 0 0) as [out|] eqn:E; [|done]. simplify_eq/=.
  assert (s ≠ []) as Hs by (by intros ->).
  apply (parseIPv4Fields_inv s [] 0 []) in E as (l & -> & ? & E & HF & Hlen);
    [|by left|lia|simpl; lia].
  simpl in *. destruct l as [|a [|b [|c [|d [|]]]]]; try done.
  repeat match goal with H : Forall _ (_ :: _) |- _ => apply Forall_cons in H as [? ?] end.
  unfold v4_string. rewrite octets_be by done. split; [by rewrite E|].
  unfold be_value. simpl. lia.
Qed.
Lemma ParseAddr_range s v : ParseAddr s = Some (V4 v) → 0 ≤ v < 2 ^ 32.
Proof. intros H%ParseAddr_v4_string. apply H. Qed.

Lemma ParseUint_range s bits v : ParseUint s bits = Some v → 0 ≤ v < 2 ^ bits.
Proof.
  unfold ParseUint. destruct s as [|c s]; [done|].
  destruct (digits_value 0 (c :: s)) as [w|] eqn:E; [|done].
  apply digits_value_mono in E; [|lia].
  destruct (w <? 2 ^ bits) eqn:?; intros; simplify_eq. bools. lia.
Qed.
Lemma ParseAddrPort_inv s a :
  ParseAddrPort s = Some a →
  ∃ h p, s = h ++ colon :: p ∧ colon ∉ p ∧ h ≠ [] ∧ p ≠ [] ∧ ParseUint p 16 = Some (ap_port a) ∧
    (Is4 (ap_addr a) = true → ParseAddr h = Some (ap_addr a)).
Proof.
  unfold ParseAddrPort. destruct (CutLast s colon) as [[h p]|] eqn:E; [|done].
  apply CutLast_Some in E as [-> Hp]. unfold mbind, option_bind.
  destruct h as [|c h]; [done|]. destruct p as [|d p]; [done|].
  destruct (if beq c (chr 91) then _ else _) as [ip|] eqn:Eip; [|done].
  destruct (ParseUint (d :: p) 16) as [port|] eqn:Ep; [|done].
  destruct (ParseAddr ip) as [x|] eqn:Ex; [|done].
  intros H. exists (c :: h), (d :: p).
  destruct (beq c (chr 91)); [destruct x|destruct (Is6 x)]; simplify_eq/=;
    split_and!; naive_solver.
Qed.

(** Membership in an IPv4 prefix compares the leading bits. *)
Lemma PrefixContains_v4 a b n :
  0 ≤ n ≤ 32 → PrefixContains (mkPrefix (V4 a) n) (V4 b) = bool_decide (a / 2 ^ (32 - n) = b / 2 ^ (32 - n)).
Proof.
  intros Hn. unfold PrefixContains. simpl.
  rewrite Z.shiftr_lxor. rewrite !Z.shiftr_div_pow2 by lia.
  destruct (Z.eqb_spec (Z.lxor (b / 2 ^ (32 - n)) (a / 2 ^ (32 - n))) 0) as [E|E].
  - apply Z.lxor_eq in E. by rewrite bool_decide_true.
  - rewrite bool_decide_false; [done|]. intros Eq. apply E. rewrite Eq. apply Z.lxor_nilpotent.
Qed.
Lemma IsLoopback_v4 v : IsLoopback (V4 v) = true ↔ 127 * 2 ^ 24 ≤ v < 128 * 2 ^ 24.
Proof.
  change (IsLoopback (V4 v)) with (Z.shiftr v 24 =? 127).
  rewrite Z.shiftr_div_pow2, Z.eqb_eq by lia. change (2 ^ 24) with 16777216.
  split; intros H; [|symmetry; apply (Z.div_unique v 16777216 127 (v - 127 * 16777216)); lia].
  pose proof (Z.mul_div_le v 16777216). pose proof (Z.mul_succ_div_gt v 16777216). lia.
Qed.
