(* ===== verification/Profiles.v ===== *)
(** * Profiles: the registry of upstream ClientHellos and the ALPN policy
    (src/internal/profiles/profiles.go)

    The uTLS library is not part of the repository.  What the code uses of it is the
    class [UTLS]: the extensions of a ClientHello identifier and whether a
    specification can be applied to a connection. *)
From S2P Require Import Prelude Strs.

Record Profile := mkProfile { Name : str; ID : str; ALPN : list str; Notes : str }.

Definition List : list Profile :=
  [ mkProfile "chrome-133" "HelloChrome_133" ["h2" : str; "http/1.1" : str]
      "TLS 1.3, ML-KEM, shuffled extensions and GREASE; nonempty upstream ALPS settings are rejected (use firefox-120); HTTP behavior remains the original client's";
    mkProfile "firefox-120" "HelloFirefox_120" ["h2" : str; "http/1.1" : str]
      "Versioned Firefox ClientHello; HTTP behavior remains the original client's" ].

Definition Get `{Unicode} (name : str) : result Profile :=
  match base.filter (λ p, Name p = name) List with
  | p :: _ => Ok p
  | [] => Err (errors_New ("unsupported profile " ++ Quote name ++ " (see profiles list)"))
  end.

(** ** The part of uTLS the code uses *)
Inductive ClientHelloID := HelloChrome_133 | HelloFirefox_120.
Inductive TLSExtension :=
  | ALPNExtension (AlpnProtocols : list str)
  | ApplicationSettingsExtension (SupportedProtocols : list str)
  | ApplicationSettingsExtensionNew (SupportedProtocols : list str)
  | OtherExtension (kind : Z).
#[global] Instance TLSExtension_eq_dec : EqDecision TLSExtension.
Proof. solve_decision. Defined.

(** The client handed to the handshake: its TLS configuration and its extensions.
    [trust] is the root pool, [None] for the system's. *)
Record UConn := mkUConn { ServerName : str; MinVersion : Z; RootCAs : option Z;
                          Extensions : list TLSExtension }.
Class UTLS := {
  UTLSIdToSpec : ClientHelloID → result (list TLSExtension);
  ApplyPreset : UConn → option error;
}.
Definition VersionTLS12 : Z := 771.

(** ** [New] *)
Definition alpn_modified : str := "ALPN restricted to client protocols".
Definition alps_removed : str := "ALPS removed with unsupported protocol".

Definition intersection (a b : list str) : list str := base.filter (λ v, v ∈ b) a.

(** The first loop: restrict each ALPN extension to the offered protocols. *)
Fixpoint restrict_alpn (offered : list str) (exts : list TLSExtension)
    (allowed modifications : list str) : list TLSExtension * list str * list str :=
  match exts with
  | [] => ([], allowed, modifications)
  | ALPNExtension protos :: exts' =>
      let allowed := allowed ++ intersection protos offered in
      let modifications :=
        if bool_decide (allowed = protos) then modifications
        else modifications ++ [alpn_modified] in
      let '(r, al, ms) := restrict_alpn offered exts' allowed modifications in
      (ALPNExtension allowed :: r, al, ms)
  | e :: exts' =>
      let '(r, al, ms) := restrict_alpn offered exts' allowed modifications in
      (e :: r, al, ms)
  end.
(** The second loop: drop the extensions left without a protocol. *)
Fixpoint filter_exts (allowed : list str) (exts : list TLSExtension) (modifications : list str)
    : list TLSExtension * list str :=
  match exts with
  | [] => ([], modifications)
  | ALPNExtension p :: exts' =>
      let '(r, ms) := filter_exts allowed exts' modifications in
      (if bool_decide (allowed = []) then r else ALPNExtension p :: r, ms)
  | ApplicationSettingsExtension p :: exts' =>
      let p := intersection p allowed in
      if bool_decide (p = []) then filter_exts allowed exts' (modifications ++ [alps_removed])
      else let '(r, ms) := filter_exts allowed exts' modifications in
           (ApplicationSettingsExtension p :: r, ms)
  | ApplicationSettingsExtensionNew p :: exts' =>
      let p := intersection p allowed in
      if bool_decide (p = []) then filter_exts allowed exts' (modifications ++ [alps_removed])
      else let '(r, ms) := filter_exts allowed exts' modifications in
           (ApplicationSettingsExtensionNew p :: r, ms)
  | e :: exts' =>
      let '(r, ms) := filter_exts allowed exts' modifications in (e :: r, ms)
  end.
Definition compatible_spec (offered : list str) (exts : list TLSExtension)
    : result (list TLSExtension * list str) :=
  let '(exts, allowed, modifications) := restrict_alpn offered exts [] [] in
  _ ← guard_err (negb (bool_decide (offered = [])) && bool_decide (allowed = []))
        (errors_New "no common application protocol");
  Ok (filter_exts allowed exts modifications).

Definition New `{Unicode, UTLS} (name host mode : str) (offered : list str) (roots : option Z)
    : result (UConn * list str) :=
  _ ← Get name;
  let id := if name == "firefox-120" then HelloFirefox_120 else HelloChrome_133 in
  exts ← UTLSIdToSpec id;
  '(exts, modifications) ← (if mode == "compatible" then compatible_spec offered exts
                            else Ok (exts, []));
  let u := mkUConn host VersionTLS12 roots exts in
  match ApplyPreset u with
  | Some e => Err e
  | None => Ok (u, modifications)
  end.

Definition Compatible (negotiated : str) (offered : list str) : bool :=
  if negotiated == "" then bool_decide (offered = []) || str_mem "http/1.1" offered
  else str_mem negotiated offered && ((negotiated == "h2") || (negotiated == "http/1.1")).

(** ** Lemmas *)
(** The protocols an extension list advertises. *)
Definition advertised (e : TLSExtension) : list str :=
  match e with
  | ALPNExtension p | ApplicationSettingsExtension p | ApplicationSettingsExtensionNew p => p
  | OtherExtension _ => []
  end.

Lemma intersection_elem x a b : x ∈ intersection a b ↔ x ∈ a ∧ x ∈ b.
Proof. unfold intersection. rewrite list_elem_of_filter. tauto. Qed.
Lemma intersection_sublist a b : intersection a b `sublist_of` a.
Proof. apply sublist_filter. Qed.
Lemma intersection_all a b : a ⊆ b → intersection a b = a.
Proof.
  intros H. unfold intersection. induction a as [|x a IH]; [done|].
  rewrite filter_cons_True by (apply H; left). f_equal. apply IH. set_solver.
Qed.
Lemma Get_Ok `{Unicode} name p : Get name = Ok p → Name p = name ∧ p ∈ List.
Proof.
  unfold Get. destruct (base.filter _ List) as [|q l] eqn:E; intros; simplify_eq.
  assert (p ∈ base.filter (λ p, Name p = name) List) as Hp by (rewrite E; left).
  by apply list_elem_of_filter in Hp.
Qed.
Lemma Get_registered `{Unicode} name :
  is_ok (Get name) = true ↔ name = "chrome-133" ∨ name = "firefox-120".
Proof.
  unfold Get. destruct (base.filter _ List) as [|q l] eqn:E; simpl.
  - split; [done|]. intros Hn. exfalso.
    assert (Hc : ∀ p, p ∈ List → Name p ≠ name).
    { intros p Hp Hp'. eapply not_elem_of_nil. rewrite <- E. by apply list_elem_of_filter. }
    unfold List in Hc. destruct Hn as [->| ->]; eapply Hc; [|done| |done];
      rewrite !elem_of_cons; eauto.
  - split; [|done]. intros _.
    assert (q ∈ base.filter (λ p, Name p = name) List) as [<- Hq]%list_elem_of_filter by (rewrite E; left).
    unfold List in Hq. rewrite !elem_of_cons in Hq.
    destruct Hq as [->|[->|[]%not_elem_of_nil]]; [by left|by right].
Qed.

(** Reference for the second loop: what becomes of one extension. *)
Definition keep_ext (allowed : list str) (e : TLSExtension) : option TLSExtension :=
  match e with
  | ALPNExtension p => if bool_decide (allowed = []) then None else Some e
  | ApplicationSettingsExtension p =>
      let q := intersection p allowed in
      if bool_decide (q = []) then None else Some (ApplicationSettingsExtension q)
  | ApplicationSettingsExtensionNew p =>
      let q := intersection p allowed in
      if bool_decide (q = []) then None else Some (ApplicationSettingsExtensionNew q)
  | OtherExtension _ => Some e
  end.
Lemma filter_exts_omap al exts ms : (filter_exts al exts ms).1 = omap (keep_ext al) exts.
Proof.
  revert ms. induction exts as [|e exts IH]; intros ms; [done|].
  destruct e; csimpl; repeat case_bool_decide; csimpl;
    first [by rewrite IH | rewrite <- (IH ms); by destruct (filter_exts al exts ms)].
Qed.
(** The second loop reports nothing exactly when every settings extension keeps a protocol. *)
Lemma filter_exts_mods al exts ms :
  (filter_exts al exts ms).2 = ms ++
    omap (λ e, match e with
               | ApplicationSettingsExtension p | ApplicationSettingsExtensionNew p =>
                   if bool_decide (intersection p al = []) then Some alps_removed else None
               | _ => None end) exts.
Proof.
  revert ms. induction exts as [|e exts IH]; intros ms; csimpl; [by rewrite app_nil_r|].
  destruct e; csimpl; repeat case_bool_decide; csimpl;
    first [rewrite IH, <- app_assoc; done
          | specialize (IH ms); by destruct (filter_exts al exts ms)].
Qed.

Lemma restrict_alpn_offered offered exts allowed mods exts' al ms :
  restrict_alpn offered exts allowed mods = (exts', al, ms) →
  allowed ⊆ offered →
  al ⊆ offered ∧ allowed `prefix_of` al ∧
  ∀ p, ALPNExtension p ∈ exts' → p `prefix_of` al.
Proof.
  revert allowed mods exts'. induction exts as [|e exts IH]; intros allowed mods exts' H Hal.
  - simplify_eq/=. split_and!; [done|done|]. by intros p ?%not_elem_of_nil.
  - assert (allowed ++ intersection (advertised e) offered ⊆ offered) as Hal'.
    { intros x [?|[? ?]%intersection_elem]%elem_of_app; auto. }
    destruct e as [q|q|q|k]; simpl in H, Hal';
      destruct (restrict_alpn _ exts _ _) as [[r al'] ms'] eqn:E; simplify_eq;
      apply IH in E as (H1 & H2 & H3); try done; split_and!; try done.
    1: by apply prefix_app_l in H2.
    all: intros p [?|?]%elem_of_cons; naive_solver.
Qed.
Definition is_alpn (e : TLSExtension) : bool := match e with ALPNExtension _ => true | _ => false end.
Lemma restrict_alpn_none offered exts allowed mods :
  Forall (λ e, is_alpn e = false) exts →
  restrict_alpn offered exts allowed mods = (exts, allowed, mods).
Proof.
  induction 1 as [|e exts He _ IH]; [done|]. destruct e; simpl in *; try done; by rewrite IH.
Qed.
Lemma restrict_alpn_single offered pre protos post :
  Forall (λ e, is_alpn e = false) (pre ++ post) →
  let al := intersection protos offered in
  restrict_alpn offered (pre ++ ALPNExtension protos :: post) [] [] =
    (pre ++ ALPNExtension al :: post, al,
     if bool_decide (al = protos) then [] else [alpn_modified]).
Proof.
  intros [Hpre Hpost]%Forall_app. simpl. induction Hpre as [|e pre He _ IH].
  - simpl. by rewrite restrict_alpn_none.
  - destruct e; simpl in *; try done; by rewrite IH.
Qed.

(** ** Properties *)
Section Properties.
Context `{Unicode, UTLS}.

Lemma New_Ok name host mode offered roots u mods :
  New name host mode offered roots = Ok (u, mods) →
  ∃ exts, UTLSIdToSpec (if name == "firefox-120" then HelloFirefox_120 else HelloChrome_133) = Ok exts ∧
    (if mode == "compatible" then compatible_spec offered exts else Ok (exts, []))
      = Ok (Extensions u, mods) ∧
    ServerName u = host ∧ is_ok (Get name) = true ∧ RootCAs u = roots.
Proof.
  unfold New. intros Hn. ok_inv. destruct x1 as [exts ms]. ok_inv.
  destruct (ApplyPreset _); [done|]. ok_inv. simplify_eq/=.
  eexists. split_and!; [done|done|done| |done].
  by match goal with H : Get _ = _ |- _ => rewrite H end.
Qed.

(** C22: In compatible mode the ClientHello sent upstream offers nothing the client did not
    offer: every protocol advertised by an ALPN or application-settings extension of the
    connection built by [New] is one the client offered, whatever the profile contains. *)
Theorem New_compatible_offered name host offered roots u mods e p :
  New name host "compatible" offered roots = Ok (u, mods) →
  e ∈ Extensions u → p ∈ advertised e → p ∈ offered.
Proof.
  intros (exts & _ & Hc & _)%New_Ok He Hp. rewrite str_eqb_refl in Hc.
  unfold compatible_spec in Hc.
  destruct (restrict_alpn offered exts [] []) as [[exts' al] ms] eqn:E. ok_inv.
  apply restrict_alpn_offered in E as (Hal & _ & Halpn); [|set_solver].
  assert (Extensions u = (filter_exts al exts' ms).1) as Hu
    by (by destruct (filter_exts al exts' ms); simplify_eq).
  rewrite Hu, filter_exts_omap in He. apply list_elem_of_omap in He as (e' & He' & Hk).
  clear - Hal Halpn He' Hk Hp.
  destruct e'; simpl in Hk; try case_bool_decide; simplify_eq/=;
    try (apply intersection_elem in Hp; set_solver).
  - apply Halpn in He' as [k ->]. apply Hal. set_solver.
  - by apply not_elem_of_nil in Hp.
Qed.

(** Every change compatible mode makes is reported: when [New] returns no
    modifications, the extensions are the profile's own.  The hypotheses describe the
    profile: one ALPN extension, whose list is not empty, and settings extensions that
    advertise some of its protocols. *)
Theorem New_reports_changes name host mode offered roots u pre protos post :
  UTLSIdToSpec (if name == "firefox-120" then HelloFirefox_120 else HelloChrome_133)
    = Ok (pre ++ ALPNExtension protos :: post) →
  protos ≠ [] →
  Forall (λ e, is_alpn e = false ∧ advertised e ⊆ protos) (pre ++ post) →
  New name host mode offered roots = Ok (u, []) →
  Extensions u = pre ++ ALPNExtension protos :: post.
Proof.
  intros Hspec Hne HF (exts & Hs & Hc & _)%New_Ok. rewrite Hspec in Hs. simplify_eq.
  destruct (mode == "compatible"); [|by simplify_eq]. unfold compatible_spec in Hc.
  rewrite restrict_alpn_single in Hc by (eapply Forall_impl; [exact HF|by intros ? []]).
  apply bind_Ok in Hc as (? & _ & Hc). injection Hc as Hc.
  pose proof (filter_exts_mods (intersection protos offered)
    (pre ++ ALPNExtension (intersection protos offered) :: post)
    (if bool_decide (intersection protos offered = protos) then [] else [alpn_modified])) as Hm.
  pose proof (filter_exts_omap (intersection protos offered)
    (pre ++ ALPNExtension (intersection protos offered) :: post)
    (if bool_decide (intersection protos offered = protos) then [] else [alpn_modified])) as Ho.
  rewrite Hc in Hm, Ho. simpl in Hm, Ho.
  case_bool_decide as Hal; [|done]. rewrite Hal in *. rewrite Ho. clear Ho Hc.
  assert (Hkeep : ∀ l, Forall (λ e, is_alpn e = false ∧ advertised e ⊆ protos) l →
    omap (λ e, match e with
             | ApplicationSettingsExtension p | ApplicationSettingsExtensionNew p =>
                 if bool_decide (intersection p protos = []) then Some alps_removed else None
             | _ => None end) l = [] → omap (keep_ext protos) l = l).
  { induction 1 as [|e l [He Ha] _ IH]; csimpl; [done|].
    destruct e; csimpl; try done; try (intros Hn; by rewrite (IH Hn));
      case_bool_decide; csimpl; try done; intros Hn; rewrite (IH Hn); do 2 f_equal;
      by apply intersection_all. }
  rewrite omap_app in Hm. rewrite omap_app. csimpl in *.
  symmetry in Hm. apply app_nil in Hm as [Hm1 Hm2].
  apply Forall_app in HF as [HF1 HF2].
  rewrite (bool_decide_eq_false_2 _ Hne). rewrite !Hkeep; done.
Qed.

(** Strict mode preserves the profile: the extensions are exactly those of the
    selected identifier, nothing is reported as modified, and only a registered profile
    name is accepted. *)
Theorem New_strict_preserves name host offered roots u mods :
  New name host "strict" offered roots = Ok (u, mods) →
  UTLSIdToSpec (if name == "firefox-120" then HelloFirefox_120 else HelloChrome_133)
    = Ok (Extensions u) ∧ mods = [] ∧ ServerName u = host ∧
  (name = "chrome-133" ∨ name = "firefox-120").
Proof.
  intros (exts & Hs & Hc & Hh & Hg & _)%New_Ok. apply Get_registered in Hg. by simplify_eq/=.
Qed.
End Properties.

(** ** Witnesses: a profile with GREASE, ALPN and settings extensions *)
Definition demo_spec : list TLSExtension :=
  [OtherExtension 2570; ALPNExtension ["h2" : str; "http/1.1" : str];
   ApplicationSettingsExtensionNew ["h2" : str]; OtherExtension 0].
Definition demo_utls : UTLS := {| UTLSIdToSpec _ := Ok demo_spec; ApplyPreset _ := None |}.
Definition demo_conn (exts : list TLSExtension) : UConn :=
  mkUConn "a.example" VersionTLS12 None exts.

Lemma New_compatible_offered_witness :
  @New ascii_only demo_utls "chrome-133" "a.example" "compatible" ["http/1.1" : str] None
    = Ok (demo_conn [OtherExtension 2570; ALPNExtension ["http/1.1" : str]; OtherExtension 0],
          [alpn_modified; alps_removed])
  ∧ ("http/1.1" : str) ∈ ["http/1.1" : str].
Proof.
  split; [by_compute|].
  eapply (@New_compatible_offered ascii_only demo_utls "chrome-133" "a.example"
            ["http/1.1" : str] None _ _ (ALPNExtension ["http/1.1" : str]) "http/1.1").
  - vm_compute. reflexivity.
  - by_compute.
  - by_compute.
Defined.
Lemma New_reports_changes_witness :
  Extensions (demo_conn demo_spec) = demo_spec.
Proof.
  apply (@New_reports_changes ascii_only demo_utls "chrome-133" "a.example" "compatible"
           ["h2" : str; "http/1.1" : str] None (demo_conn demo_spec)
           [OtherExtension 2570] ["h2" : str; "http/1.1" : str]
           [ApplicationSettingsExtensionNew ["h2" : str]; OtherExtension 0]).
  - reflexivity.
  - discriminate.
  - repeat (apply Forall_cons; split; [split; [reflexivity|]|]); [..|by apply Forall_nil];
      simpl; set_solver.
  - by_compute.
Defined.
Lemma New_strict_preserves_witness :
  Ok (demo_conn demo_spec, []) =
    @New ascii_only demo_utls "firefox-120" "a.example" "strict" ["http/1.1" : str] None
  ∧ ([] : list str) = [].
Proof.
  split; [by_compute|].
  eapply (@New_strict_preserves ascii_only demo_utls "firefox-120" "a.example"
            ["http/1.1" : str] None (demo_conn demo_spec) []).
  by_compute.
Defined.
