(* ===== verification/Config.v ===== *)
(** * Config: the configuration, its defaults and its validation
    (src/internal/config/config.go)

    [golang.org/x/net/idna] is not part of the repository: [idna.Lookup.ToASCII] is the
    operation of the class [IDNA]. *)
From S2P Require Import Prelude Strs NetIP Profiles.

Class IDNA := { ToASCII : str → result str }.

(** ** Data *)
Record DNS := mkDNS { Mode : str; Servers : list str; RefreshInterval : Z; Timeout : Z; CacheSize : Z }.
Record UpstreamCfg := mkUpstream { Port : Z; UProfile : str; ALPNMode : str }.
Record CACfg := mkCA { Cert : str; Key : str }.
Record RuntimeCfg := mkRuntime {
  StateDir : str; ControlSocket : str; MaxConnections : Z;
  HandshakeTimeout : Z; IdleTimeout : Z; ShutdownTimeout : Z }.
Record LogCfg := mkLog { Level : str; Format : str }.
Record Config := mkConfig {
  Version : Z; Listen : list str; Domains : list str; Upstream : UpstreamCfg; CDNS : DNS;
  CA : CACfg; HostsAddress : str; ClientCIDRs : list str; Runtime : RuntimeCfg; Log : LogCfg }.
#[global] Instance DNS_eq_dec : EqDecision DNS.
Proof. solve_decision. Defined.
#[global] Instance CACfg_eq_dec : EqDecision CACfg.
Proof. solve_decision. Defined.

Definition set_Domains (c : Config) (ds : list str) : Config :=
  mkConfig (Version c) (Listen c) ds (Upstream c) (CDNS c) (CA c) (HostsAddress c)
           (ClientCIDRs c) (Runtime c) (Log c).

(** ** Platform paths and defaults *)
Record Paths := mkPaths { PConfig : str; PState : str; PCA : str; PSocket : str;
                          PExecutable : str; PService : str; PLog : str }.
Definition PlatformPaths (GOOS : str) : Paths :=
  if GOOS == "darwin" then
    let base : str := "/Library/Application Support/utlsproxy" in
    mkPaths (base ++ "/config.json") (base ++ "/state") (base ++ "/ca")
      "/var/run/utlsproxy/control.sock" "/usr/local/bin/utlsproxy"
      "/Library/LaunchDaemons/local.utlsproxy.plist" "/var/log/utlsproxy/utlsproxy.log"
  else
    mkPaths "/etc/utlsproxy/config.json" "/var/lib/utlsproxy" "/var/lib/utlsproxy/ca"
      "/var/run/utlsproxy/control.sock" "/usr/local/bin/utlsproxy"
      "/etc/systemd/system/utlsproxy.service" "".
Definition Defaults (GOOS : str) : Config :=
  let p := PlatformPaths GOOS in
  {| Version := 1; Listen := ["127.0.0.1:443" : str]; Domains := ["tls.peet.ws" : str];
     Upstream := mkUpstream 443 "chrome-133" "compatible";
     CDNS := mkDNS "auto" [] (30 * Second) (3 * Second) 1024;
     CA := mkCA (PCA p ++ "/ca.crt") (PCA p ++ "/ca.key");
     HostsAddress := "127.0.0.1";
     ClientCIDRs := ["127.0.0.0/8" : str];
     Runtime := mkRuntime (PState p) (PSocket p) 1024 (15 * Second) (5 * Minute) (10 * Second);
     Log := mkLog "info" "json" |}.

Section Validation.
Context `{Unicode, IDNA}.

(** ** Names and endpoints *)
Definition label_byte (ch : byte) : bool := is_lower ch || is_digit ch || beq ch dash.
Definition valid_label (label : str) : bool :=
  match label with
  | [] => false
  | c :: _ =>
      (length label <=? 63)%nat && negb (beq c dash)
      && negb (bool_decide (last label = Some dash)) && forallb label_byte label
  end.
Definition Domain (s : str) : result str :=
  let s := TrimSuffix (ToLower s) "." in
  a ← ToASCII s;
  _ ← guard_err ((length a =? 0)%nat || (253 <? length a)%nat) (errors_New "invalid domain length");
  _ ← guard_err (bool_decide (is_Some (ParseAddr a))) (errors_New "domain must not be an IP literal");
  _ ← each (λ label, guard_err (negb (valid_label label))
                        (errors_New ("invalid domain " ++ Quote s))) (Split a dot);
  Ok a.

Definition Endpoint (s : str) (listener : bool) : result unit :=
  let bad := Err (errors_New ("expected IPv4:port, got " ++ Quote s)) in
  match ParseAddrPort s with
  | None => bad
  | Some a =>
      if negb (Is4 (ap_addr a)) || (ap_port a =? 0) then bad
      else if IsMulticast (ap_addr a) || addr_eqb (ap_addr a) broadcast
              || (negb listener && IsUnspecified (ap_addr a))
      then Err (errors_New ("invalid endpoint " ++ Quote s))
      else Ok tt
  end.

(** ** [Validate]: the loops *)
Fixpoint validate_listen (seen : list str) (l : list str) : result unit :=
  match l with
  | [] => Ok tt
  | s :: l' =>
      _ ← Endpoint s true;
      _ ← guard_err (str_mem s seen) (errors_New ("duplicate listener " ++ s));
      validate_listen (s :: seen) l'
  end.
(** The domain list is rewritten in place, element by element. *)
Fixpoint validate_domains (seen : list str) (l : list str) : list str * option error :=
  match l with
  | [] => ([], None)
  | s :: l' =>
      match Domain s with
      | Err e => (s :: l', Some e)
      | Ok d =>
          if str_mem d seen then (s :: l', Some (errors_New ("duplicate domain " ++ d)))
          else let '(r, e) := validate_domains (d :: seen) l' in (d :: r, e)
      end
  end.
Definition valid_cidr (s : str) : bool :=
  match ParsePrefix s with Some p => Is4 (pfx_addr p) | None => false end.
Definition valid_hosts_address (s : str) : bool :=
  match ParseAddr s with
  | Some a => Is4 a && negb (IsUnspecified a) && negb (IsMulticast a) && negb (addr_eqb a broadcast)
  | None => false
  end.

(** The checks before and after the domain loop, in the code's order. *)
Definition validate_head (c : Config) : result unit :=
  _ ← guard_err (negb (Version c =? 1))
        (errors_New ("unsupported configuration version " ++ Itoa (Version c)));
  _ ← guard_err ((length (Listen c) =? 0)%nat || (16 <? length (Listen c))%nat)
        (errors_New "listen requires 1..16 IPv4 endpoints");
  _ ← validate_listen [] (Listen c);
  guard_err ((length (Domains c) =? 0)%nat || (4096 <? length (Domains c))%nat)
    (errors_New "domains requires 1..4096 exact names").
Definition validate_dns (d : DNS) : result unit :=
  _ ← guard_err (negb (Mode d == "auto") && negb (Mode d == "manual"))
        (errors_New "dns.mode must be auto or manual");
  _ ← guard_err (((Mode d == "auto") && negb (length (Servers d) =? 0)%nat)
                 || ((Mode d == "manual") && (length (Servers d) =? 0)%nat))
        (errors_New "DNS auto requires no servers; manual requires servers");
  _ ← guard_err (16 <? length (Servers d))%nat (errors_New "at most 16 DNS servers allowed");
  _ ← each (λ s, Endpoint s false) (Servers d);
  guard_err ((CacheSize d <? 0) || (65536 <? CacheSize d))
    (errors_New "DNS cache_size must be 0..65536").
Definition validate_limits (c : Config) : result unit :=
  let r := Runtime c in
  _ ← each (λ p, guard_err (p == "") (errors_New "CA and runtime paths must not be empty"))
        [Cert (CA c); Key (CA c); StateDir r; ControlSocket r];
  _ ← guard_err (100 <? length (ControlSocket r))%nat
        (errors_New "control socket path exceeds portable 100-byte limit");
  _ ← guard_err ((MaxConnections r <? 1) || (65536 <? MaxConnections r))
        (errors_New "max_connections must be 1..65536");
  _ ← each (λ d, guard_err ((d <=? 0) || (24 * Hour <? d))
               (errors_New "timeouts and refresh interval must be positive and at most 24h"))
        [Timeout (CDNS c); RefreshInterval (CDNS c); HandshakeTimeout r; IdleTimeout r; ShutdownTimeout r];
  _ ← guard_err (RefreshInterval (CDNS c) <? Second)
        (errors_New "DNS refresh interval must be at least 1s");
  _ ← guard_err (negb (str_mem (Level (Log c)) ["debug" : str; "info" : str; "warn" : str; "error" : str]))
        (errors_New "log.level must be debug, info, warn or error");
  guard_err (negb (Format (Log c) == "json") && negb (Format (Log c) == "text"))
    (errors_New "log.format must be json or text").
Definition validate_tail (c : Config) : result unit :=
  _ ← Get (UProfile (Upstream c));
  _ ← guard_err ((Port (Upstream c) <? 1) || (65535 <? Port (Upstream c)))
        (errors_New "upstream.port must be 1..65535");
  _ ← guard_err (negb (ALPNMode (Upstream c) == "strict") && negb (ALPNMode (Upstream c) == "compatible"))
        (errors_New "alpn_mode must be strict or compatible");
  _ ← validate_dns (CDNS c);
  _ ← guard_err (length (ClientCIDRs c) =? 0)%nat (errors_New "client_cidrs must not be empty");
  _ ← each (λ s, guard_err (negb (valid_cidr s)) (errors_New ("invalid IPv4 client CIDR " ++ Quote s)))
        (ClientCIDRs c);
  _ ← guard_err (negb (valid_hosts_address (HostsAddress c)))
        (errors_New "hosts.address must be a unicast IPv4 address");
  validate_limits c.

(** [Validate] has a pointer receiver: it returns the configuration it leaves behind and
    its error. *)
Definition Validate (c : Config) : Config * option error :=
  match validate_head c with
  | Err e => (c, Some e)
  | Ok _ =>
      let '(ds, err) := validate_domains [] (Domains c) in
      let c := set_Domains c ds in
      match err with
      | Some e => (c, Some e)
      | None => match validate_tail c with Err e => (c, Some e) | Ok _ => (c, None) end
      end
  end.

(** ** Queries *)
Definition AllowsDomain (c : Config) (s : str) : bool := str_mem s (Domains c).
Definition AllowsClient (c : Config) (a : Addr) : bool :=
  existsb (λ s, match ParsePrefix s with
                | Some p => PrefixContains p (Unmap a)
                | None => false     (* the zero Prefix contains nothing *)
                end) (ClientCIDRs c).
Definition RestartRequired (a b : Config) : bool :=
  negb (bool_decide (Listen a = Listen b)) || negb (Port (Upstream a) =? Port (Upstream b))
  || negb (bool_decide (CA a = CA b)) || negb (StateDir (Runtime a) == StateDir (Runtime b))
  || negb (ControlSocket (Runtime a) == ControlSocket (Runtime b))
  || negb (Format (Log a) == Format (Log b)).
End Validation.

(** An instance for evaluation: every name is its own ASCII form. *)
Definition id_idna : IDNA := {| ToASCII s := Ok s |}.

(** ** What a valid configuration is *)
Definition wf_label (l : str) : Prop :=
  (1 ≤ length l ≤ 63)%nat ∧ head l ≠ Some dash ∧ last l ≠ Some dash ∧
  Forall (λ c, is_lower c = true ∨ is_digit c = true ∨ c = dash) l.
Definition wf_domain (a : str) : Prop :=
  (1 ≤ length a ≤ 253)%nat ∧ ParseAddr a = None ∧ Forall wf_label (Split a dot).
Definition wf_endpoint (s : str) (listener : bool) : Prop :=
  ∃ v p, ParseAddrPort s = Some (mkAddrPort (V4 v) p) ∧ 0 < p < 2 ^ 16 ∧
    IsMulticast (V4 v) = false ∧ v ≠ 2 ^ 32 - 1 ∧ (listener = false → v ≠ 0).
Definition wf_cidr (s : str) : Prop :=
  ∃ v n, ParsePrefix s = Some (mkPrefix (V4 v) n).
Definition wf_hosts_address (s : str) : Prop :=
  ∃ v, ParseAddr s = Some (V4 v) ∧ v ≠ 0 ∧ v ≠ 2 ^ 32 - 1 ∧ IsMulticast (V4 v) = false.
Definition wf_duration (d : Z) : Prop := 0 < d ≤ 24 * Hour.
Record wf (c : Config) : Prop := {
  wf_version : Version c = 1;
  wf_listen_len : (1 ≤ length (Listen c) ≤ 16)%nat;
  wf_listen : Forall (λ s, wf_endpoint s true) (Listen c);
  wf_listen_nodup : NoDup (Listen c);
  wf_domains_len : (1 ≤ length (Domains c) ≤ 4096)%nat;
  wf_domains : Forall wf_domain (Domains c);
  wf_domains_nodup : NoDup (Domains c);
  wf_profile : UProfile (Upstream c) = "chrome-133" ∨ UProfile (Upstream c) = "firefox-120";
  wf_port : 1 ≤ Port (Upstream c) ≤ 65535;
  wf_alpn : ALPNMode (Upstream c) = "strict" ∨ ALPNMode (Upstream c) = "compatible";
  wf_dns_mode : (Mode (CDNS c) = "auto" ∧ Servers (CDNS c) = [])
                ∨ (Mode (CDNS c) = "manual" ∧ (1 ≤ length (Servers (CDNS c)) ≤ 16)%nat);
  wf_dns_servers : Forall (λ s, wf_endpoint s false) (Servers (CDNS c));
  wf_cache : 0 ≤ CacheSize (CDNS c) ≤ 65536;
  wf_cidrs_ne : ClientCIDRs c ≠ [];
  wf_cidrs : Forall wf_cidr (ClientCIDRs c);
  wf_hosts : wf_hosts_address (HostsAddress c);
  wf_paths : Forall (λ p : str, p ≠ []) [Cert (CA c); Key (CA c); StateDir (Runtime c); ControlSocket (Runtime c)];
  wf_socket : (length (ControlSocket (Runtime c)) ≤ 100)%nat;
  wf_conns : 1 ≤ MaxConnections (Runtime c) ≤ 65536;
  wf_durations : Forall wf_duration
    [Timeout (CDNS c); RefreshInterval (CDNS c); HandshakeTimeout (Runtime c);
     IdleTimeout (Runtime c); ShutdownTimeout (Runtime c)];
  wf_refresh : Second ≤ RefreshInterval (CDNS c);
  wf_level : Level (Log c) ∈ ["debug" : str; "info" : str; "warn" : str; "error" : str];
  wf_format : Format (Log c) = "json" ∨ Format (Log c) = "text";
}.

(** ** Lemmas: one per check *)
Lemma valid_label_spec l : valid_label l = true ↔ wf_label l.
Proof.
  unfold wf_label. destruct l as [|c l]; [split; [done|intros [? _]; simpl in *; lia]|].
  unfold valid_label.
  assert (forallb label_byte (c :: l) = true ↔
          Forall (λ c, is_lower c = true ∨ is_digit c = true ∨ c = dash) (c :: l)) as Hf.
  { rewrite forallb_forall, Forall_forall. unfold label_byte.
    split; intros Hx x Hin; specialize (Hx x).
    - apply list_elem_of_In in Hin. specialize (Hx Hin).
      rewrite !orb_true_iff, beq_true in Hx. tauto.
    - rewrite !orb_true_iff, beq_true. apply or_assoc, Hx. by apply list_elem_of_In. }
  rewrite !andb_true_iff, Nat.leb_le, !negb_true_iff, beq_false, bool_decide_eq_false, Hf.
  simpl. split.
  - intros [[[? ?] ?] ?]. split_and!; try done; [lia|congruence].
  - intros ([? ?] & ? & ? & ?). split_and!; try done; congruence.
Qed.
Lemma wf_label_bytes l c : wf_label l → c ∈ l → is_upper c = false ∧ is_ascii_byte c = true.
Proof.
  intros (_ & _ & _ & HF) Hc. rewrite Forall_forall in HF. specialize (HF _ Hc).
  unfold is_lower, is_digit, is_upper, in_range, is_ascii_byte in *.
  destruct HF as [?|[?| ->]]; [bools|bools|done];
    (split; [apply andb_false_iff; first [left; apply Z.leb_gt; lia|right; apply Z.leb_gt; lia]
            |apply Z.ltb_lt; lia]).
Qed.
Lemma wf_domain_lower `{Unicode} a : wf_domain a → ToLower a = a.
Proof.
  intros (_ & _ & HF).
  assert (∀ c, c ∈ a → is_upper c = false ∧ is_ascii_byte c = true) as Hb.
  { intros c Hc. destruct (Split_elem_bytes _ dot _ Hc) as [->|(l & Hl & Hcl)]; [done|].
    rewrite Forall_forall in HF. eauto using wf_label_bytes. }
  apply ToLower_fixed; apply forallb_forall; intros c Hc%list_elem_of_In; apply Hb in Hc as [Hu ?];
    [done|by rewrite Hu].
Qed.
Lemma wf_domain_no_dot a : wf_domain a → TrimSuffix a "." = a.
Proof.
  intros (_ & _ & HF). destruct (TrimSuffix_spec a ".") as [(r & -> & _)|[_ E]]; [|done].
  change (String.list_ascii_of_string ".") with [dot] in HF.
  rewrite Split_snoc_sep in HF. apply Forall_app in HF as [_ HF].
  apply Forall_cons in HF as [[Hl _] _]. simpl in Hl. lia.
Qed.

Section Lemmas.
Context `{Unicode, IDNA}.

Lemma Domain_inv s a :
  Domain s = Ok a → ToASCII (TrimSuffix (ToLower s) ".") = Ok a ∧ wf_domain a.
Proof.
  unfold Domain. intros Hd. ok_inv.
  match goal with H : Forall _ (Split _ _) |- _ => rename H into HF end. bools.
  split; [done|]. unfold wf_domain. split_and!.
  - match goal with H : (_ =? 0)%nat = false |- _ => apply Nat.eqb_neq in H end. lia.
  - match goal with H : (253 <? _)%nat = false |- _ => apply Nat.ltb_ge in H end. lia.
  - by apply eq_None_not_Some.
  - eapply Forall_impl; [exact HF|]. intros l Hl. apply guard_Ok in Hl. bools.
    by apply valid_label_spec.
Qed.
Lemma Domain_fixed a : wf_domain a → ToASCII a = Ok a → Domain a = Ok a.
Proof.
  intros Hwf Ha. unfold Domain. rewrite wf_domain_lower, wf_domain_no_dot, Ha by done.
  destruct Hwf as ([? ?] & Hp & HF).
  apply bind_Ok. exists a. split; [done|].
  apply bind_Ok. exists tt. split.
  { apply guard_Ok, orb_false_iff. split; [apply Nat.eqb_neq|apply Nat.ltb_ge]; lia. }
  apply bind_Ok. exists tt. split; [by rewrite Hp|].
  apply bind_Ok. exists tt. split; [|done].
  apply each_Ok. eapply Forall_impl; [exact HF|]. intros l Hl%valid_label_spec.
  by rewrite Hl.
Qed.

Lemma Endpoint_iff s listener : Endpoint s listener = Ok tt ↔ wf_endpoint s listener.
Proof.
  unfold Endpoint, wf_endpoint. change (2 ^ 32 - 1) with 4294967295.
  destruct (ParseAddrPort s) as [[a p]|] eqn:E;
    [|split; [done|by intros (? & ? & ? & _)]].
  pose proof (ParseAddrPort_inv _ _ E) as (h & q & _ & _ & _ & _ & Hp%ParseUint_range & _).
  unfold ap_addr, ap_port in *.
  destruct a as [|v|v z]; [split; [done|by intros (? & ? & ? & _)]|
                          |split; [done|by intros (? & ? & ? & _)]].
  destruct (Z.eqb_spec p 0) as [->|Hp0].
  { split; [done|]. intros (? & ? & [= <- <-] & [? _] & _). lia. }
  cbn [Is4 negb orb]. unfold addr_eqb, broadcast.
  destruct (IsMulticast (V4 v)) eqn:Em; cbn [negb orb].
  { split; [done|]. intros (? & ? & [= <- <-] & _ & Em' & _). congruence. }
  destruct (bool_decide_reflect (V4 v = V4 4294967295)) as [[= ->]|Hb]; cbn [negb orb].
  { split; [done|]. intros (? & ? & [= <- <-] & _ & _ & ? & _). done. }
  cbn [IsUnspecified]. destruct listener; cbn [negb andb].
  { split; [|done]. intros _. exists v, p. split_and!; [done|lia|lia|done| |done]. congruence. }
  destruct (Z.eqb_spec v 0) as [->|Hv].
  - split; [done|]. intros (? & ? & [= <- <-] & _ & _ & _ & Hz). by destruct Hz.
  - split; [|done]. intros _. exists v, p. split_and!; [done|lia|lia|done| |done]. congruence.
Qed.

Lemma validate_listen_iff seen l :
  validate_listen seen l = Ok tt ↔
  Forall (λ s, wf_endpoint s true) l ∧ NoDup l ∧ (∀ s, s ∈ l → s ∉ seen).
Proof.
  revert seen. induction l as [|s l IH]; intros seen; simpl.
  { split; [|done]. intros _. split_and!; [by apply Forall_nil|by apply NoDup_nil|].
    by intros s ?%not_elem_of_nil. }
  rewrite Forall_cons, NoDup_cons, <- Endpoint_iff.
  destruct (Endpoint s true) as [[]|e]; simpl; [|naive_solver].
  destruct (str_mem s seen) eqn:Es; simpl; bools.
  { split; [done|]. intros (_ & _ & Hn). exfalso. apply (Hn s); [left|done]. }
  rewrite IH. split.
  - intros (? & ? & Hn). split_and!; try done.
    + intros Hin. apply (Hn _ Hin). left.
    + intros x [->|Hx]%elem_of_cons; [done|]. specialize (Hn _ Hx). set_solver.
  - intros ((_ & ?) & (? & ?) & Hn). split_and!; try done. intros x Hx. set_solver.
Qed.
(** The domain loop succeeds with the normal forms, pairwise distinct. *)
Lemma validate_domains_Some seen l ds :
  validate_domains seen l = (ds, None) ↔
  Forall2 (λ s d, Domain s = Ok d) l ds ∧ NoDup ds ∧ (∀ d, d ∈ ds → d ∉ seen).
Proof.
  revert seen ds. induction l as [|s l IH]; intros seen ds; simpl.
  { split; [intros [= <-]|intros (Hf & _); by inversion Hf].
    split_and!; [done|by apply NoDup_nil|]. by intros d ?%not_elem_of_nil. }
  destruct (Domain s) as [d|e] eqn:Ed.
  2:{ split; [done|]. intros (Hf & _). inversion Hf; congruence. }
  destruct (str_mem d seen) eqn:Es; bools.
  { split; [done|]. intros (Hf & _ & Hn). inversion Hf as [|? d' ? ? Hd']; subst.
    rewrite Ed in Hd'. injection Hd' as <-. exfalso. apply (Hn d); [left|done]. }
  destruct (validate_domains (d :: seen) l) as [r e] eqn:Er. split.
  - intros [= <- ->]. apply IH in Er as (? & ? & Hn). split_and!.
    + by constructor.
    + apply NoDup_cons. split; [|done]. intros Hd. apply (Hn _ Hd). left.
    + intros x [->|Hx]%elem_of_cons; [done|]. specialize (Hn _ Hx). set_solver.
  - intros (Hf & Hnd & Hn). inversion Hf as [|? d' ? r' Hd' Hf']; subst.
    rewrite Ed in Hd'. injection Hd' as <-.
    apply NoDup_cons in Hnd as [Hd'' Hnd].
    assert (validate_domains (d :: seen) l = (r', None)) as Hr.
    { apply IH. split_and!; [done|done|]. intros x Hx.
      assert (x ∉ seen) by (apply Hn; by right). set_solver. }
    rewrite Hr in Er. by simplify_eq.
Qed.

Lemma validate_head_iff c :
  validate_head c = Ok tt ↔
  Version c = 1 ∧ (1 ≤ length (Listen c) ≤ 16)%nat ∧
  (Forall (λ s, wf_endpoint s true) (Listen c) ∧ NoDup (Listen c)) ∧
  (1 ≤ length (Domains c) ≤ 4096)%nat.
Proof.
  unfold validate_head. rewrite !guard_chain, seq_Ok, is_ok_unit, guard_Ok, validate_listen_iff.
  rewrite negb_false_iff, Z.eqb_eq, !orb_false_iff, !Nat.eqb_neq, !Nat.ltb_ge.
  assert (∀ s : str, s ∈ Listen c → s ∉ []) as Hn by (intros; apply not_elem_of_nil).
  split; [intros (? & ? & (? & ? & _) & ?)|intros (? & ? & (? & ?) & ?)]; split_and!; try done; lia.
Qed.
Lemma validate_dns_iff d :
  validate_dns d = Ok tt ↔
  (Mode d = "auto" ∧ Servers d = [] ∨ Mode d = "manual" ∧ (1 ≤ length (Servers d) ≤ 16)%nat) ∧
  Forall (λ s, wf_endpoint s false) (Servers d) ∧ 0 ≤ CacheSize d ≤ 65536.
Proof.
  unfold validate_dns. rewrite !guard_chain, seq_Ok, guard_Ok, is_ok_each.
  rewrite (Forall_iff _ (Servers d) (λ s, wf_endpoint s false))
    by (intros s; by rewrite is_ok_unit, Endpoint_iff).
  rewrite !orb_false_iff, !andb_false_iff, !Z.ltb_ge, !Nat.ltb_ge, !negb_false_iff.
  rewrite !str_eqb_eq, !str_eqb_neq, !Nat.eqb_eq, !Nat.eqb_neq.
  assert ((String.list_ascii_of_string "auto" : str) ≠ "manual") as Hd by (by vm_compute).
  split.
  - intros ([Hm|Hm] & [Hs1 Hs2] & Hl & HF & Hc); (split; [|split; [done|lia]]).
    + left. destruct Hs1 as [|Hs1]; [done|]. split; [done|]. by apply length_zero_iff_nil.
    + right. destruct Hs2 as [|Hs2]; [done|]. split; [done|]. lia.
  - intros ([[Hm Hs]|[Hm Hs]] & HF & Hc); rewrite Hm.
    + rewrite Hs in *. simpl. split; [by left|]. split; [split; [by right|left; congruence]|].
      split; [lia|]. done.
    + split; [by right|]. split; [split; [left; congruence|right; lia]|].
      split; [lia|]. done.
Qed.
Lemma valid_cidr_iff s : valid_cidr s = true ↔ wf_cidr s.
Proof.
  unfold valid_cidr, wf_cidr. destruct (ParsePrefix s) as [[a n]|]; [|naive_solver].
  destruct a; naive_solver.
Qed.
Lemma valid_hosts_address_iff s : valid_hosts_address s = true ↔ wf_hosts_address s.
Proof.
  unfold valid_hosts_address, wf_hosts_address. change (2 ^ 32 - 1) with 4294967295.
  destruct (ParseAddr s) as [[|v|v z]|];
    [split; [done|by intros (? & ? & _)]| |split; [done|by intros (? & ? & _)]
    |split; [done|by intros (? & ? & _)]].
  cbn [Is4 andb]. unfold addr_eqb, broadcast.
  rewrite !andb_true_iff, !negb_true_iff, bool_decide_eq_false. cbn [IsUnspecified].
  rewrite Z.eqb_neq. split.
  - intros [[? ?] ?]. exists v. split_and!; congruence.
  - intros (? & [= <-] & ? & ? & ?). split_and!; congruence.
Qed.
Lemma validate_limits_iff c :
  validate_limits c = Ok tt ↔
  Forall (λ p : str, p ≠ []) [Cert (CA c); Key (CA c); StateDir (Runtime c); ControlSocket (Runtime c)] ∧
  (length (ControlSocket (Runtime c)) ≤ 100)%nat ∧
  1 ≤ MaxConnections (Runtime c) ≤ 65536 ∧
  Forall wf_duration
    [Timeout (CDNS c); RefreshInterval (CDNS c); HandshakeTimeout (Runtime c);
     IdleTimeout (Runtime c); ShutdownTimeout (Runtime c)] ∧
  Second ≤ RefreshInterval (CDNS c) ∧
  Level (Log c) ∈ ["debug" : str; "info" : str; "warn" : str; "error" : str] ∧
  (Format (Log c) = "json" ∨ Format (Log c) = "text").
Proof.
  unfold validate_limits. rewrite seq_Ok, is_ok_each, Forall_guard, !guard_chain.
  rewrite seq_Ok, is_ok_each, Forall_guard, !guard_chain, guard_Ok.
  rewrite (Forall_iff _ _ (λ p : str, p ≠ [])) by (intros p; apply str_eqb_neq).
  rewrite (Forall_iff _ _ wf_duration).
  2:{ intros d. unfold wf_duration. rewrite orb_false_iff, Z.leb_gt, Z.ltb_ge. lia. }
  rewrite orb_false_iff, andb_false_iff, !negb_false_iff, !Z.ltb_ge, Nat.ltb_ge.
  rewrite str_mem_elem, !str_eqb_eq. tauto.
Qed.
Lemma validate_tail_iff c :
  validate_tail c = Ok tt ↔
  (UProfile (Upstream c) = "chrome-133" ∨ UProfile (Upstream c) = "firefox-120") ∧
  1 ≤ Port (Upstream c) ≤ 65535 ∧
  (ALPNMode (Upstream c) = "strict" ∨ ALPNMode (Upstream c) = "compatible") ∧
  validate_dns (CDNS c) = Ok tt ∧
  ClientCIDRs c ≠ [] ∧ Forall wf_cidr (ClientCIDRs c) ∧ wf_hosts_address (HostsAddress c) ∧
  validate_limits c = Ok tt.
Proof.
  unfold validate_tail. rewrite seq_Ok, Get_registered, !guard_chain.
  rewrite seq_Ok, is_ok_unit, guard_chain, seq_Ok, is_ok_each, Forall_guard, guard_chain.
  rewrite (Forall_iff _ _ wf_cidr) by (intros s; by rewrite negb_false_iff, valid_cidr_iff).
  rewrite orb_false_iff, andb_false_iff, !negb_false_iff, !Z.ltb_ge, !str_eqb_eq.
  rewrite valid_hosts_address_iff, Nat.eqb_neq.
  assert (length (ClientCIDRs c) ≠ 0%nat ↔ ClientCIDRs c ≠ []) as ->
    by (by destruct (ClientCIDRs c)).
  tauto.
Qed.

Lemma Validate_None c c' :
  Validate c = (c', None) ↔
  validate_head c = Ok tt ∧ validate_domains [] (Domains c) = (Domains c', None) ∧
  c' = set_Domains c (Domains c') ∧ validate_tail c' = Ok tt.
Proof.
  unfold Validate. destruct (validate_head c) as [[]|e]; [|naive_solver].
  destruct (validate_domains [] (Domains c)) as [ds [e|]]; [naive_solver|].
  destruct (validate_tail (set_Domains c ds)) as [[]|e] eqn:Et.
  - split; [intros [= <-]|intros (_ & [= ->] & -> & _)]; [|done]. done.
  - split; [done|]. intros (_ & [= ->] & -> & Ht). congruence.
Qed.
Lemma wf_iff c :
  wf c ↔ validate_head c = Ok tt ∧ Forall wf_domain (Domains c) ∧ NoDup (Domains c) ∧
         validate_tail c = Ok tt.
Proof.
  rewrite validate_head_iff, validate_tail_iff, validate_dns_iff, validate_limits_iff.
  split; [by intros []; tauto|].
  intros ((?&?&[??]&?) & ? & ? & ? & ? & ? & (? & ? & ?) & ? & ? & ? & ? & ? & ? & ? & ? & ? & ?).
  by constructor.
Qed.
Lemma Validate_wf c c' : Validate c = (c', None) → wf c'.
Proof.
  rewrite Validate_None, wf_iff, validate_domains_Some, !validate_head_iff.
  intros ((Hv & Hn & Hw & Hd) & (Hf & Hnd & _) & Hc & Ht). rewrite (Forall2_length _ _ _ Hf) in Hd.
  pose proof (f_equal Version Hc) as Ev. pose proof (f_equal Listen Hc) as El. simpl in Ev, El.
  rewrite Ev, El. split; [done|split; [|done]]. clear - Hf. induction Hf as [|s d l k Hd]; [by apply Forall_nil|].
  apply Domain_inv in Hd as [_ ?]. by apply Forall_cons.
Qed.
End Lemmas.

(** ** Properties *)
Section Properties.
Context `{Unicode, IDNA}.

(** C10: [Validate] accepts exactly the well-formed configurations, once their domain names
    are normalised: it returns no error and leaves [c'] if and only if [c'] meets every
    documented bound (1 to 16 distinct IPv4 listeners, 1 to 4096 distinct normalised DNS
    names, a registered profile, an ALPN mode, consistent DNS servers, IPv4 client blocks,
    a unicast redirection address, limits and durations in range) and differs from the
    input only in its domain list, where each name is replaced by its normal form. *)
Theorem Validate_spec c c' :
  Validate c = (c', None) ↔
  wf c' ∧ c' = set_Domains c (Domains c') ∧
  Forall2 (λ s d, Domain s = Ok d) (Domains c) (Domains c').
Proof.
  split.
  { intros Hv. split; [by eapply Validate_wf|]. by apply Validate_None in Hv as (_ & (? & _)%validate_domains_Some & ? & _). }
  rewrite Validate_None, wf_iff, validate_domains_Some, !validate_head_iff.
  intros (((Hv & Hn & Hw & Hd) & _ & Hnd & Ht) & Hc & Hf). rewrite <- (Forall2_length _ _ _ Hf) in Hd.
  pose proof (f_equal Version Hc) as Ev. pose proof (f_equal Listen Hc) as El. simpl in Ev, El.
  rewrite Ev, El in *. split_and!; try tauto. by intros d _ ?%not_elem_of_nil.
Qed.

(** [Validate] accepts every well-formed configuration whose names IDNA leaves alone, and
    changes nothing in it. *)
Theorem Validate_complete c :
  wf c → Forall (λ d, ToASCII d = Ok d) (Domains c) → Validate c = (c, None).
Proof.
  intros (Hh & HF & Hnd & Ht)%wf_iff Ha. apply Validate_None. split_and!; [done| |by destruct c|done].
  apply validate_domains_Some. split_and!; [|done|by intros d _ ?%not_elem_of_nil].
  clear Hnd Hh Ht. induction (Domains c) as [|d l IH]; [by apply Forall2_nil|].
  apply Forall_cons in HF as [? ?], Ha as [? ?]. apply Forall2_cons; split; [|by apply IH].
  by apply Domain_fixed.
Qed.

Section Idempotence.
(** Documented behaviour of [idna.Lookup]: the ASCII form of a name is a fixed point. *)
Hypothesis ToASCII_idem : ∀ s a, ToASCII s = Ok a → ToASCII a = Ok a.

(** Domain names are normalised once: [Domain] returns a well-formed lower-case
    ASCII name of 1 to 253 bytes that is not an IP literal, with labels of 1 to 63
    letters, digits and inner hyphens, and returns that name unchanged when it is
    applied to it. *)
Theorem Domain_normal s a : Domain s = Ok a → wf_domain a ∧ Domain a = Ok a.
Proof.
  intros [Ha Hwf]%Domain_inv. split; [done|]. apply Domain_fixed; [done|].
  by eapply ToASCII_idem.
Qed.

(** Validation is idempotent: the program validates a configuration again after
    applying command-line overrides and on every reload; a configuration that
    [Validate] has accepted is accepted again and not changed. *)
Theorem Validate_idempotent c c' : Validate c = (c', None) → Validate c' = (c', None).
Proof.
  intros Hv. pose proof Hv as (Hh & Hd & Hc & Ht)%Validate_None.
  apply validate_domains_Some in Hd as (Hf & Hnd & _).
  apply Validate_None. split_and!; [|..|by destruct c'|done].
  - apply validate_head_iff. apply validate_head_iff in Hh as (? & ? & ? & ?).
    apply Forall2_length in Hf. rewrite Hf in *. by rewrite Hc.
  - apply validate_domains_Some. split_and!; [|done|by intros d _ ?%not_elem_of_nil].
    clear Hc Hnd Hh Ht Hv. induction Hf as [|s d l k Hd]; [by apply Forall2_nil|].
    apply Forall2_cons. split; [|done]. apply Domain_inv in Hd as [? ?].
    apply Domain_fixed; [done|]. by eapply ToASCII_idem.
Qed.
End Idempotence.

Lemma valid_prefix s v n :
  ParsePrefix s = Some (mkPrefix (V4 v) n) → 0 ≤ n ≤ 32.
Proof.
  unfold ParsePrefix, mbind, option_bind.
  destruct (CutLast s slash) as [[l b]|]; [|done].
  destruct (ParseAddr l) as [ip|]; [|done].
  intros Hs. assert (match (if match b with c :: _ :: _ => negb (in_range 49 57 c) | _ => false end
                   then None else match Atoi b with
                   | Some bits => if (bits <? 0) || ((if Is6 ip then 128 else 32) <? bits)
                                  then None else Some (mkPrefix ip bits)
                   | None => None end) with
                   | Some p => p = mkPrefix (V4 v) n | None => False end) as Hq.
  { destruct ip as [|?|? [|]]; try done;
      by match goal with H : ?x = Some _ |- context [match ?x with _ => _ end] => rewrite H end. }
  clear Hs. destruct (match b with c :: _ :: _ => _ | _ => _ end); [done|].
  destruct (Atoi b) as [bits|]; [|done].
  destruct (_ || _) eqn:Eb; [done|]. simplify_eq. simpl in Eb. bools. lia.
Qed.

(** The access list is a set of address blocks: with valid client CIDRs, an address is
    admitted exactly when it is IPv4, possibly IPv4-mapped IPv6, and shares the leading
    bits of one of the configured blocks. *)
Theorem AllowsClient_spec c a :
  Forall wf_cidr (ClientCIDRs c) →
  AllowsClient c a = true ↔
  ∃ s v n w, s ∈ ClientCIDRs c ∧ ParsePrefix s = Some (mkPrefix (V4 v) n) ∧
    Unmap a = V4 w ∧ v / 2 ^ (32 - n) = w / 2 ^ (32 - n).
Proof.
  intros HF. unfold AllowsClient. rewrite existsb_exists. split.
  - intros (s & Hs & Hp). apply list_elem_of_In in Hs.
    rewrite Forall_forall in HF. destruct (HF _ Hs) as (v & n & E). rewrite E in Hp.
    unfold PrefixContains in Hp. simpl in Hp. destruct (Unmap a) as [|w|w z] eqn:Ea;
      [done| |by destruct (hasZone (V6 w z))].
    assert (PrefixContains (mkPrefix (V4 v) n) (V4 w) = true) as Hc by done.
    rewrite PrefixContains_v4 in Hc by (by eapply valid_prefix).
    apply bool_decide_eq_true in Hc. by exists s, v, n, w.
  - intros (s & v & n & w & Hs & E & Ea & Hb). exists s. split; [by apply list_elem_of_In|].
    rewrite E, Ea, PrefixContains_v4 by (by eapply valid_prefix). by apply bool_decide_eq_true.
Qed.

Lemma Defaults_wf GOOS : wf (Defaults GOOS).
Proof.
  assert (Forall wf_domain (Domains (Defaults GOOS))) as Hd.
  { apply Forall_cons. split; [|by apply Forall_nil].
    by apply (@Domain_inv ascii_only id_idna "tls.peet.ws"). }
  apply (@wf_iff ascii_only). split_and!; [|done|apply NoDup_singleton|];
    unfold Defaults, PlatformPaths; destruct (GOOS == "darwin"); by vm_compute.
Qed.

(** Out of the box the proxy serves only this machine: on every platform the default
    configuration is valid, and it admits an IPv4 client exactly when the address is in
    127.0.0.0/8. *)
Theorem Defaults_loopback_only GOOS :
  ToASCII "tls.peet.ws" = Ok ("tls.peet.ws" : str) →
  Validate (Defaults GOOS) = (Defaults GOOS, None) ∧
  ∀ v, AllowsClient (Defaults GOOS) (V4 v) = true ↔ 127 * 2 ^ 24 ≤ v < 128 * 2 ^ 24.
Proof.
  intros Ha. split.
  - pose proof (Defaults_wf GOOS) as (Hh & HF & Hnd & Ht)%wf_iff.
    apply Validate_None. split_and!; [done| |done|done].
    apply validate_domains_Some. split_and!; [|done|by intros d _ ?%not_elem_of_nil].
    apply Forall2_cons. split; [|by apply Forall2_nil].
    apply Forall_cons in HF as [? _]. by apply Domain_fixed.
  - intros v. rewrite <- IsLoopback_v4. unfold AllowsClient.
    assert (ParsePrefix "127.0.0.0/8" = Some (mkPrefix (V4 2130706432) 8)) as E by by_compute.
    cbn [Defaults ClientCIDRs existsb]. rewrite E. cbn [Unmap].
    rewrite PrefixContains_v4, orb_false_r, bool_decide_eq_true by lia.
    change (IsLoopback (V4 v)) with (Z.shiftr v 24 =? 127).
    rewrite Z.shiftr_div_pow2, Z.eqb_eq by lia. change (2130706432 / 2 ^ (32 - 8)) with 127.
    change (2 ^ (32 - 8)) with (2 ^ 24). done.
Qed.
End Properties.

(** ** Witnesses *)
Lemma Validate_complete_witness :
  @Validate ascii_only id_idna (Defaults "darwin") = (Defaults "darwin", None).
Proof.
  apply (@Validate_complete ascii_only id_idna).
  - apply Defaults_wf.
  - apply Forall_cons. split; [reflexivity|apply Forall_nil; exact I].
Defined.
Lemma Domain_normal_witness :
  @Domain ascii_only id_idna "www.example.com" = Ok ("www.example.com" : str).
Proof.
  refine (proj2 (@Domain_normal ascii_only id_idna _ "WWW.Example.COM." "www.example.com" _)).
  - intros s a [= ->]. reflexivity.
  - by_compute.
Defined.
Lemma Validate_idempotent_witness :
  @Validate ascii_only id_idna (Defaults "linux") = (Defaults "linux", None).
Proof.
  refine (@Validate_idempotent ascii_only id_idna _
            (set_Domains (Defaults "linux") ["TLS.peet.ws." : str]) _ _).
  - intros s a [= ->]. reflexivity.
  - by_compute.
Defined.
Lemma AllowsClient_spec_witness :
  Forall wf_cidr (ClientCIDRs (Defaults "linux")) ∧
  AllowsClient (Defaults "linux") (V6 281472812450057 []) = true.
Proof.
  assert (Forall wf_cidr (ClientCIDRs (Defaults "linux"))) as HF by apply Defaults_wf.
  split; [exact HF|]. apply (AllowsClient_spec _ _ HF).
  exists "127.0.0.0/8", 2130706432, 8, 2130706697. repeat split; by_compute.
Defined.
Lemma Defaults_loopback_only_witness :
  @Validate ascii_only id_idna (Defaults "linux") = (Defaults "linux", None).
Proof. apply (@Defaults_loopback_only ascii_only id_idna "linux"). reflexivity. Defined.
