(* ===== verification/ConfigJSON.v ===== *)
(** * ConfigJSON: the strict JSON check ([CheckJSON] and [exactFields] in
    src/internal/config/config.go)

    [encoding/json]'s token decoder is modelled from its state machine: the lexical
    tokens of the text are given, a lexical error being [RBad]; the nesting state, the
    separators and the stack are the decoder's own. *)
From S2P Require Import Prelude Strs.

(** ** Lexical tokens and decoder tokens *)
Inductive raw := RDelim (c : byte) | RStr (s : str) | RNum (s : str) | RBool (b : bool) | RNull | RBad.
Inductive token := TDelim (c : byte) | TStr (s : str) | TScalar | TNull.
Definition lbrack := chr 91.
Definition rbrack := chr 93.
Definition lbrace := chr 123.
Definition rbrace := chr 125.

Inductive tstate :=
  | TopValue | ArrayStart | ArrayValue | ArrayComma
  | ObjectStart | ObjectKey | ObjectColon | ObjectValue | ObjectComma.
Record Decoder := mkDec { input : list raw; state : tstate; stack : list tstate }.

Definition value_allowed (s : tstate) : bool :=
  match s with TopValue | ArrayStart | ArrayValue | ObjectValue => true | _ => false end.
Definition value_end (s : tstate) : tstate :=
  match s with ArrayStart | ArrayValue => ArrayComma | ObjectValue => ObjectComma | _ => s end.
Definition err_eof : error := errors_New "EOF".
Definition token_error : error := errors_New "invalid character".
Definition is_eof (e : error) : bool := bool_decide (e = err_eof).

(** One iteration of the loop of [Decoder.Token] per lexical token; separators continue it. *)
Fixpoint Token_loop (inp : list raw) (st : tstate) (stk : list tstate) : result (token * Decoder) :=
  match inp with
  | [] => Err err_eof
  | RDelim c :: inp' =>
      if beq c lbrack then
        if value_allowed st then Ok (TDelim c, mkDec inp' ArrayStart (st :: stk)) else Err token_error
      else if beq c lbrace then
        if value_allowed st then Ok (TDelim c, mkDec inp' ObjectStart (st :: stk)) else Err token_error
      else if beq c rbrack then
        match st, stk with
        | (ArrayStart | ArrayComma), s :: stk' => Ok (TDelim c, mkDec inp' (value_end s) stk')
        | _, _ => Err token_error
        end
      else if beq c rbrace then
        match st, stk with
        | (ObjectStart | ObjectComma), s :: stk' => Ok (TDelim c, mkDec inp' (value_end s) stk')
        | _, _ => Err token_error
        end
      else if beq c colon then
        match st with ObjectColon => Token_loop inp' ObjectValue stk | _ => Err token_error end
      else if beq c comma then
        match st with
        | ArrayComma => Token_loop inp' ArrayValue stk
        | ObjectComma => Token_loop inp' ObjectKey stk
        | _ => Err token_error
        end
      else Err token_error
  | RStr s :: inp' =>
      match st with
      | ObjectStart | ObjectKey => Ok (TStr s, mkDec inp' ObjectColon stk)
      | _ => if value_allowed st then Ok (TStr s, mkDec inp' (value_end st) stk) else Err token_error
      end
  | RNull :: inp' =>
      if value_allowed st then Ok (TNull, mkDec inp' (value_end st) stk) else Err token_error
  | (RNum _ | RBool _) :: inp' =>
      if value_allowed st then Ok (TScalar, mkDec inp' (value_end st) stk) else Err token_error
  | RBad :: _ => Err token_error
  end.
Definition Token (d : Decoder) : result (token * Decoder) := Token_loop (input d) (state d) (stack d).
Definition More (d : Decoder) : bool :=
  match input d with
  | [] => false
  | RDelim c :: _ => negb (beq c rbrack) && negb (beq c rbrace)
  | _ => true
  end.

(** ** [CheckJSON] *)
Section CheckJSON.
Context `{Unicode}.

Fixpoint walk (fuel : nat) (d : Decoder) : result Decoder :=
  match fuel with
  | O => Err (errors_New "out of fuel")
  | S n =>
      '(t, d) ← Token d;
      match t with
      | TNull => Err (errors_New "null configuration values are not allowed")
      | TDelim c =>
          d ← (if beq c lbrace then members n [] d
               else if beq c lbrack then elements n d
               else Err (errors_New "unexpected JSON delimiter"));
          '(_, d) ← Token d;
          Ok d
      | _ => Ok d
      end
  end
with members (fuel : nat) (seen : list str) (d : Decoder) : result Decoder :=
  match fuel with
  | O => Err (errors_New "out of fuel")
  | S n =>
      if More d then
        '(k, d) ← Token d;
        match k with
        | TStr s =>
            _ ← guard_err (str_mem s seen) (errors_New ("duplicate JSON key " ++ Quote s));
            d ← walk n d;
            members n (s :: seen) d
        | _ => Err (errors_New "invalid object key")
        end
      else Ok d
  end
with elements (fuel : nat) (d : Decoder) : result Decoder :=
  match fuel with
  | O => Err (errors_New "out of fuel")
  | S n =>
      if More d then d ← walk n d; elements n d else Ok d
  end.

Definition CheckJSON (b : list raw) : result unit :=
  d ← walk (2 * length b + 2) (mkDec b TopValue []);
  match Token d with
  | Err e => if is_eof e then Ok tt
             else Err (errors_New "configuration must contain one JSON value")
  | Ok _ => Err (errors_New "configuration must contain one JSON value")
  end.
End CheckJSON.

(** ** JSON values, their text, and the values the check admits *)
Inductive json :=
  | JNull | JStr (s : str) | JNum (s : str) | JBool (b : bool)
  | JArr (l : list json) | JObj (l : list (str * json)).

Fixpoint sep_by (l : list (list raw)) : list raw :=
  match l with
  | [] => []
  | [x] => x
  | x :: l' => x ++ RDelim comma :: sep_by l'
  end.
Fixpoint render (j : json) : list raw :=
  match j with
  | JNull => [RNull] | JStr s => [RStr s] | JNum s => [RNum s] | JBool b => [RBool b]
  | JArr l => RDelim lbrack :: sep_by (map render l) ++ [RDelim rbrack]
  | JObj l => RDelim lbrace
      :: sep_by (map (λ kv, RStr kv.1 :: RDelim colon :: render kv.2) l) ++ [RDelim rbrace]
  end.
(** No null anywhere and no repeated key in any object. *)
Inductive strict : json → Prop :=
  | strict_str s : strict (JStr s)
  | strict_num s : strict (JNum s)
  | strict_bool b : strict (JBool b)
  | strict_arr l : Forall strict l → strict (JArr l)
  | strict_obj l : NoDup l.*1 → Forall strict l.*2 → strict (JObj l).

(** ** [exactFields]: field names are matched exactly, unlike [encoding/json] *)
(** The part of [reflect.Type] the check looks at: a struct with its JSON tags, or not. *)
Inductive gotype := TStruct (fields : list (str * gotype)) | TOther.

Fixpoint field_type (name : str) (l : list (str * gotype)) : option gotype :=
  match l with
  | [] => None
  | (n, t) :: l' => if n == name then Some t else field_type name l'
  end.

Section ExactFields.
Context `{Unicode}.

(** The object has no repeated key, so the map it unmarshals to is its member list; the
    order of Go's map iteration only chooses which error is reported. *)
Fixpoint exactFields (j : json) (t : gotype) {struct j} : result unit :=
  match t with
  | TOther => Ok tt
  | TStruct known =>
      match j with
      | JObj fields =>
          (fix go (l : list (str * json)) : result unit :=
             match l with
             | [] => Ok tt
             | (name, value) :: l' =>
                 match field_type name known with
                 | None => Err (errors_New ("unknown configuration field " ++ Quote name))
                 | Some field =>
                     match exactFields value field with
                     | Err e => Err (Errorf_w (name ++ ": ") e)
                     | Ok _ => go l'
                     end
                 end
             end) fields
      | JNull => Ok tt
      | _ => Err (errors_New "json: cannot unmarshal into Go value")
      end
  end.
End ExactFields.

(** The struct types of config.go with their JSON tags. *)
Definition tag (s : str) : str * gotype := (s, TOther).
Definition DNS_type : gotype :=
  TStruct [tag "mode"; tag "servers"; tag "refresh_interval"; tag "timeout"; tag "cache_size"].
Definition field (s : str) (fields : list (str * gotype)) : str * gotype := (s, TStruct fields).
Definition Config_type : gotype :=
  TStruct [tag "version"; tag "listen"; tag "domains";
    field "upstream" [tag "port"; tag "profile"; tag "alpn_mode"];
    (("dns" : str), DNS_type);
    field "ca" [tag "cert"; tag "key"];
    field "hosts" [tag "address"];
    field "access" [tag "client_cidrs"];
    field "runtime" [tag "state_dir"; tag "control_socket"; tag "max_connections";
      tag "handshake_timeout"; tag "idle_timeout"; tag "shutdown_timeout"];
    field "log" [tag "level"; tag "format"]].

(** A value that names only the fields the type has, spelt exactly. *)
Inductive conforms : json → gotype → Prop :=
  | conforms_other j : conforms j TOther
  | conforms_null known : conforms JNull (TStruct known)
  | conforms_obj l known :
      (∀ name value, (name, value) ∈ l →
         ∃ field, field_type name known = Some field ∧ conforms value field) →
      conforms (JObj l) (TStruct known).

(** ** Lemmas *)
Definition commas (l : list (list raw)) : list raw := mjoin (map (cons (RDelim comma)) l).
(** The text of the remaining items of a container in a given decoder state. *)
Definition items (st : tstate) (l : list (list raw)) : list raw :=
  match st with ArrayStart | ObjectStart => sep_by l | _ => commas l end.
Lemma commas_cons x l : commas (x :: l) = RDelim comma :: x ++ commas l.
Proof. done. Qed.
Lemma sep_by_cons x l : sep_by (x :: l) = x ++ commas l.
Proof.
  revert x. induction l as [|y l IH]; intros x; simpl; [by rewrite app_nil_r|].
  unfold commas in *. simpl in *. by rewrite <- IH.
Qed.
(** A value can start in these states; [pre] are the separators read before it, [eff] the
    state in which its first token is read and [post] the state after it. *)
Definition starts (st : tstate) : bool :=
  match st with TopValue | ArrayStart | ArrayComma | ObjectColon => true | _ => false end.
Definition pre (st : tstate) : list raw :=
  match st with ArrayComma => [RDelim comma] | ObjectColon => [RDelim colon] | _ => [] end.
Definition eff (st : tstate) : tstate :=
  match st with ArrayComma => ArrayValue | ObjectColon => ObjectValue | _ => st end.
Definition post (st : tstate) : tstate := value_end (eff st).

Lemma Token_pre st inp stk :
  starts st = true → Token_loop (pre st ++ inp) st stk = Token_loop inp (eff st) stk.
Proof. by destruct st. Qed.
Lemma eff_allowed st : starts st = true → value_allowed (eff st) = true.
Proof. by destruct st. Qed.
Lemma eff_not_key st : starts st = true → eff st ≠ ObjectStart ∧ eff st ≠ ObjectKey.
Proof. by destruct st. Qed.

Inductive value_token (inp : list raw) (st : tstate) (stk : list tstate) (d : Decoder) : token → Prop :=
  | vt_str s : inp = RStr s :: input d → state d = value_end st → stack d = stk →
      value_token inp st stk d (TStr s)
  | vt_num s : inp = RNum s :: input d → state d = value_end st → stack d = stk →
      value_token inp st stk d TScalar
  | vt_bool b : inp = RBool b :: input d → state d = value_end st → stack d = stk →
      value_token inp st stk d TScalar
  | vt_null : value_token inp st stk d TNull
  | vt_arr : inp = RDelim lbrack :: input d → state d = ArrayStart → stack d = st :: stk →
      value_token inp st stk d (TDelim lbrack)
  | vt_obj : inp = RDelim lbrace :: input d → state d = ObjectStart → stack d = st :: stk →
      value_token inp st stk d (TDelim lbrace)
  | vt_other c : c ≠ lbrack → c ≠ lbrace → value_token inp st stk d (TDelim c).

Lemma Token_value inp st stk t d :
  value_allowed st = true → Token_loop inp st stk = Ok (t, d) → value_token inp st stk d t.
Proof.
  intros Hst H. destruct inp as [|r inp]; [done|].
  destruct r as [c|s|s|b| |]; simpl in H.
  - destruct (beq_spec c lbrack) as [->|]; [destruct st; simplify_eq/=; by constructor|].
    destruct (beq_spec c lbrace) as [->|]; [destruct st; simplify_eq/=; by constructor|].
    destruct (beq c rbrack); [destruct st, stk; simplify_eq/=; by constructor|].
    destruct (beq c rbrace); [destruct st, stk; simplify_eq/=; by constructor|].
    destruct (beq c colon); [by destruct st|].
    destruct (beq c comma); [by destruct st|done].
  - destruct st; simplify_eq/=; by eapply vt_str.
  - destruct st; simplify_eq/=; by eapply vt_num.
  - destruct st; simplify_eq/=; by eapply vt_bool.
  - destruct st; simplify_eq/=; by eapply vt_null.
  - done.
Qed.
Lemma Token_starts inp st stk t d :
  starts st = true → Token_loop inp st stk = Ok (t, d) →
  (∃ inp', inp = pre st ++ inp' ∧ value_token inp' (eff st) stk d t)
  ∨ (∃ c, t = TDelim c ∧ c ≠ lbrack ∧ c ≠ lbrace).
Proof.
  intros Hst H. destruct (value_allowed st) eqn:Hv.
  { left. exists inp. destruct st; try done; by eapply Token_value in H. }
  assert ((∃ inp', inp = pre st ++ inp') ∨ (∃ c, t = TDelim c ∧ c ≠ lbrack ∧ c ≠ lbrace))
    as [[inp' ->]|?]; [| |by right].
  { destruct inp as [|r inp]; [done|]. destruct st; try done; destruct r as [c| | | | |]; try done;
      simpl in H;
      repeat match type of H with context [beq c ?x] => destruct (beq_spec c x) as [->|]; try done end;
      try (left; by eexists).
    destruct stk; [done|]. simplify_eq. right. by eexists. }
  left. rewrite Token_pre in H by done. exists inp'. split; [done|].
  eapply Token_value; [by apply eff_allowed|done].
Qed.
Definition key_pre (st : tstate) : list raw :=
  match st with ObjectComma => [RDelim comma] | _ => [] end.
Lemma Token_key inp st stk t d s :
  st = ObjectStart ∨ st = ObjectComma → Token_loop inp st stk = Ok (t, d) → t = TStr s →
  inp = key_pre st ++ RStr s :: input d ∧
  state d = ObjectColon ∧ stack d = stk.
Proof.
  intros Hst H ->. destruct inp as [|r inp]; [done|].
  destruct Hst as [->| ->]; destruct r as [c| | | | |]; try done; simpl in H |- *;
    repeat match type of H with context [beq c ?x] => destruct (beq_spec c x) as [->|]; try done end;
    try (by destruct stk); [by simplify_eq|].
  destruct inp as [|r inp]; [done|]. destruct r as [c| | | | |]; try done; simpl in H;
    repeat match type of H with context [beq c ?x] => destruct (beq c x); try done end.
  by simplify_eq.
Qed.
(** After a container's items, one more token is its closing delimiter. *)
Lemma Token_close d t d' :
  More d = false → Token d = Ok (t, d') →
  ∃ s, stack d = s :: stack d' ∧ state d' = value_end s ∧
    ((input d = RDelim rbrack :: input d' ∧ (state d = ArrayStart ∨ state d = ArrayComma))
     ∨ (input d = RDelim rbrace :: input d' ∧ (state d = ObjectStart ∨ state d = ObjectComma))).
Proof.
  destruct d as [inp st stk]. unfold More, Token. simpl. intros Hm H.
  destruct inp as [|r inp]; [done|]. destruct r as [c| | | | |]; try done. simpl in H.
  destruct (beq_spec c rbrack) as [->|]; [|destruct (beq_spec c rbrace) as [->|]; [|done]];
    destruct st, stk; simplify_eq/=; eexists; split_and!; eauto.
Qed.

Definition member_text (kv : str * json) : list raw := RStr kv.1 :: RDelim colon :: render kv.2.
Lemma items_cons_start st x l :
  st = ArrayStart ∨ st = ObjectStart → items st (x :: l) = x ++ commas l.
Proof. intros [->| ->]; apply sep_by_cons. Qed.

Section Correctness.
Context `{Unicode}.

Definition walk_ok (n : nat) : Prop := ∀ d d',
  starts (state d) = true → walk n d = Ok d' →
  ∃ j, strict j ∧ input d = pre (state d) ++ render j ++ input d' ∧
       state d' = post (state d) ∧ stack d' = stack d.
Definition members_ok (n : nat) : Prop := ∀ seen d d',
  state d = ObjectStart ∨ state d = ObjectComma → members n seen d = Ok d' →
  ∃ l, NoDup l.*1 ∧ Forall strict l.*2 ∧ (∀ k, k ∈ l.*1 → k ∉ seen) ∧
       input d = items (state d) (map member_text l) ++ input d' ∧
       (state d' = ObjectStart ∨ state d' = ObjectComma) ∧ stack d' = stack d ∧ More d' = false.
Definition elements_ok (n : nat) : Prop := ∀ d d',
  state d = ArrayStart ∨ state d = ArrayComma → elements n d = Ok d' →
  ∃ l, Forall strict l ∧ input d = items (state d) (map render l) ++ input d' ∧
       (state d' = ArrayStart ∨ state d' = ArrayComma) ∧ stack d' = stack d ∧ More d' = false.

Lemma elements_sound n : walk_ok n → elements_ok n → elements_ok (S n).
Proof.
  intros IHw IHe d d' Hst Hw. simpl in Hw. destruct (More d) eqn:Hm.
  2:{ simplify_eq. exists []. split_and!; first [done|by apply Forall_nil|by apply NoDup_nil
        |by intros k ?%not_elem_of_nil|by destruct Hst as [-> | ->]]. }
  apply bind_Ok in Hw as (d1 & Hw & He).
  apply IHw in Hw as (j & Hj & Hin & Hs1 & Hk1); [|by destruct Hst as [-> | ->]].
  assert (state d1 = ArrayComma) as Hd1 by (rewrite Hs1; by destruct Hst as [-> | ->]).
  apply IHe in He as (l & Hl & Hin' & Hs2 & Hk2 & Hm2); [|by right].
  exists (j :: l). split_and!; [by apply Forall_cons| |done|congruence|done].
  rewrite Hin, Hin', Hd1. simpl map.
  destruct Hst as [-> | ->]; [rewrite items_cons_start by (by left)|]; simpl;
    by rewrite <- !app_assoc.
Qed.
Lemma members_sound n : walk_ok n → members_ok n → members_ok (S n).
Proof.
  intros IHw IHm seen d d' Hst Hw. simpl in Hw. destruct (More d) eqn:Hm.
  2:{ simplify_eq. exists []. split_and!; first [done|by apply Forall_nil|by apply NoDup_nil
        |by intros k ?%not_elem_of_nil|by destruct Hst as [-> | ->]]. }
  apply bind_Ok in Hw as ([k d1] & Ht & Hw). destruct k as [|s| |]; try done.
  eapply (Token_key _ _ _ _ _ s) in Ht as (Hin & Hs1 & Hk1); [|done|done].
  apply seq_Ok in Hw as [Hseen Hw]. apply is_ok_guard in Hseen. bools.
  apply bind_Ok in Hw as (d2 & Hw & Hmm).
  apply IHw in Hw as (j & Hj & Hin2 & Hs2 & Hk2); [|by rewrite Hs1].
  rewrite Hs1 in Hs2, Hin2. simpl in Hs2, Hin2.
  apply IHm in Hmm as (l & Hnd & Hl & Hns & Hin3 & Hs3 & Hk3 & Hm3); [|by right].
  exists ((s, j) :: l). simpl. split_and!; try done; try congruence.
  - apply NoDup_cons. split; [|done]. intros Hin'. apply (Hns _ Hin'). left.
  - by apply Forall_cons.
  - intros k [->|Hk]%elem_of_cons; [done|]. specialize (Hns _ Hk). set_solver.
  - rewrite Hin, Hin2, Hin3, Hs2. destruct Hst as [-> | ->];
      [rewrite items_cons_start by (by right)|]; unfold member_text; simpl;
      by rewrite <- !app_assoc.
Qed.
Lemma walk_sound n : elements_ok n → members_ok n → walk_ok (S n).
Proof.
  intros IHe IHm d d' Hst Hw. simpl in Hw. apply bind_Ok in Hw as ([t d1] & Ht & Hw).
  apply Token_starts in Ht as [(inp' & Hin & Hv)|(c & -> & H1 & H2)]; [| |done].
  2:{ apply beq_false in H1, H2. by rewrite H1, H2 in Hw. }
  rewrite Hin. unfold post.
  destruct Hv as [s -> Hs Hk|s -> Hs Hk|b -> Hs Hk| | -> Hs Hk| -> Hs Hk|c H1 H2]; simplify_eq.
  - exists (JStr s). split_and!; [constructor|done..].
  - exists (JNum s). split_and!; [constructor|done..].
  - exists (JBool b). split_and!; [constructor|done..].
  - change (beq lbrack lbrace) with false in Hw. rewrite beq_refl in Hw.
    apply bind_Ok in Hw as (d2 & He & Hw). apply bind_Ok in Hw as ([t d3] & Hc & [= ->]).
    apply IHe in He as (l & Hl & Hin2 & Hs2 & Hk2 & Hm2); [|by left].
    apply Token_close in Hc as (s & Hk3 & Hs3 & Hc); [|done].
    exists (JArr l). split; [by constructor|].
    rewrite Hk2, Hk in Hk3. injection Hk3 as <- <-. split; [|by rewrite Hs3].
    destruct Hc as [[Hc _]|[_ Hc]]; [|destruct Hs2 as [E|E]; rewrite E in Hc; naive_solver].
    rewrite Hin2, Hs, Hc. simpl. by rewrite <- !app_assoc.
  - rewrite beq_refl in Hw.
    apply bind_Ok in Hw as (d2 & He & Hw). apply bind_Ok in Hw as ([t d3] & Hc & [= ->]).
    apply IHm in He as (l & Hnd & Hl & _ & Hin2 & Hs2 & Hk2 & Hm2); [|by left].
    apply Token_close in Hc as (s & Hk3 & Hs3 & Hc); [|done].
    exists (JObj l). split; [by constructor|].
    rewrite Hk2, Hk in Hk3. injection Hk3 as <- <-. split; [|by rewrite Hs3].
    destruct Hc as [[_ Hc]|[Hc _]]; [destruct Hs2 as [E|E]; rewrite E in Hc; naive_solver|].
    rewrite Hin2, Hs, Hc. simpl. by rewrite <- !app_assoc.
  - apply beq_false in H1, H2. by rewrite H1, H2 in Hw.
Qed.
Lemma all_sound n : walk_ok n ∧ members_ok n ∧ elements_ok n.
Proof.
  induction n as [|n (? & ? & ?)]; [by split_and!; repeat intro|].
  split_and!; [by apply walk_sound|by apply members_sound|by apply elements_sound].
Qed.

(** *** Completeness *)
Definition closing (rest : list raw) : Prop :=
  ∃ c r, rest = RDelim c :: r ∧ (c = rbrack ∨ c = rbrace).
Lemma More_closing rest st stk : closing rest → More (mkDec rest st stk) = false.
Proof. by intros (c & r & -> & [-> | ->]). Qed.
(** The first lexical token of a value's text is not a closing delimiter. *)
Lemma More_render st j rest stk : starts st = true → More (mkDec (pre st ++ render j ++ rest) st stk) = true.
Proof. by destruct st, j. Qed.

Definition walk_complete (j : json) : Prop := ∀ n st stk rest,
  starts st = true → (2 * length (render j) ≤ n)%nat →
  walk n (mkDec (pre st ++ render j ++ rest) st stk) = Ok (mkDec rest (post st) stk).

Lemma length_sep_by x l : length (sep_by (x :: l)) = (length x + length (commas l))%nat.
Proof. by rewrite sep_by_cons, length_app. Qed.

Lemma elements_complete l : Forall walk_complete l → ∀ n st stk rest,
  st = ArrayStart ∨ st = ArrayComma → closing rest →
  (2 * length (items st (map render l)) + 1 ≤ n)%nat →
  ∃ st', (st' = ArrayStart ∨ st' = ArrayComma) ∧
    elements n (mkDec (items st (map render l) ++ rest) st stk) = Ok (mkDec rest st' stk).
Proof.
  induction 1 as [|j l Hj _ IH]; intros n st stk rest Hst Hr Hn; (destruct n as [|n]; [lia|]).
  - assert (items st [] = []) as E by (by destruct Hst as [-> | ->]).
    simpl map. rewrite E. exists st. split; [done|]. simpl. by rewrite More_closing.
  - assert (items st (map render (j :: l)) ++ rest
            = pre st ++ render j ++ commas (map render l) ++ rest) as E.
    { destruct Hst as [-> | ->]; simpl map; [rewrite items_cons_start by (by left)|];
        simpl; by rewrite <- !app_assoc. }
    assert (length (items st (map render (j :: l)))
            = length (pre st) + length (render j) + length (commas (map render l)))%nat as El.
    { destruct Hst as [-> | ->]; cbn [map items pre];
        [rewrite length_sep_by|rewrite commas_cons; simpl; rewrite length_app]; simpl; lia. }
    rewrite E. assert (starts st = true) as Hs by (by destruct Hst as [-> | ->]).
    cbn [elements]. rewrite More_render, Hj by (done || lia).
    assert (post st = ArrayComma) as -> by (by destruct Hst as [-> | ->]).
    apply (IH n ArrayComma); [by right|done|].
    simpl in *. assert (0 < length (render j))%nat by (by destruct j; simpl; lia). lia.
Qed.
Lemma members_complete l : Forall (λ kv, walk_complete kv.2) l → ∀ n seen st stk rest,
  NoDup l.*1 → (∀ k, k ∈ l.*1 → k ∉ seen) →
  st = ObjectStart ∨ st = ObjectComma → closing rest →
  (2 * length (items st (map member_text l)) + 1 ≤ n)%nat →
  ∃ st', (st' = ObjectStart ∨ st' = ObjectComma) ∧
    members n seen (mkDec (items st (map member_text l) ++ rest) st stk) = Ok (mkDec rest st' stk).
Proof.
  induction 1 as [|[k j] l Hj _ IH]; intros n seen st stk rest Hnd Hns Hst Hr Hn;
    (destruct n as [|n]; [lia|]).
  - assert (items st [] = []) as E by (by destruct Hst as [-> | ->]).
    simpl map. rewrite E. exists st. split; [done|]. simpl. by rewrite More_closing.
  - assert (items st (map member_text ((k, j) :: l)) ++ rest
            = key_pre st ++ RStr k :: pre ObjectColon ++ render j ++ commas (map member_text l) ++ rest) as E.
    { destruct Hst as [-> | ->]; simpl map; [rewrite items_cons_start by (by right)|];
        unfold member_text; simpl; by rewrite <- !app_assoc. }
    assert (length (items st (map member_text ((k, j) :: l)))
            = length (key_pre st) + 2 + length (render j) + length (commas (map member_text l)))%nat as El.
    { destruct Hst as [-> | ->]; cbn [map items key_pre];
        [rewrite sep_by_cons|rewrite commas_cons]; simpl; rewrite length_app; simpl; lia. }
    rewrite E. simpl in Hnd, Hns. apply NoDup_cons in Hnd as [Hk Hnd].
    assert (Token (mkDec (key_pre st ++ RStr k :: pre ObjectColon ++ render j
              ++ commas (map member_text l) ++ rest) st stk)
            = Ok (TStr k, mkDec (pre ObjectColon ++ render j ++ commas (map member_text l) ++ rest)
                                ObjectColon stk)) as Ht by (by destruct Hst as [-> | ->]).
    assert (More (mkDec (key_pre st ++ RStr k :: pre ObjectColon ++ render j
              ++ commas (map member_text l) ++ rest) st stk) = true) as Hm
      by (by destruct Hst as [-> | ->]).
    assert (str_mem k seen = false) as Hks by (apply str_mem_not, Hns; left).
    cbn [members]. rewrite Hm, Ht. cbn [mbind result_bind]. rewrite Hks. cbn [guard_err mbind result_bind].
    rewrite El in Hn. simpl fst in *. simpl snd in *. unfold walk_complete in Hj.
    rewrite Hj by (done || lia). apply (IH n (k :: seen) ObjectComma); try done.
    + intros k' Hk'. apply not_elem_of_cons. split; [by intros ->|]. apply Hns. by right.
    + by right.
    + simpl. assert (0 < length (render j))%nat by (by destruct j; simpl; lia). lia.
Qed.
Lemma length_render_arr l : length (render (JArr l)) = (2 + length (sep_by (map render l)))%nat.
Proof. simpl. rewrite length_app. simpl. lia. Qed.
Lemma length_render_obj l :
  length (render (JObj l)) = (2 + length (sep_by (map member_text l)))%nat.
Proof. simpl. rewrite length_app. unfold member_text. simpl. lia. Qed.
Lemma length_sep_by_elem x l : x ∈ l → (length x ≤ length (sep_by l))%nat.
Proof.
  assert (∀ l, x ∈ l → (length x ≤ length (commas l))%nat) as Hc.
  { induction l0 as [|y l0 IH]; [by intros ?%not_elem_of_nil|].
    rewrite commas_cons. simpl. rewrite length_app. intros [->|Hx]%elem_of_cons; [lia|].
    specialize (IH Hx). lia. }
  destruct l as [|y l]; [by intros ?%not_elem_of_nil|]. rewrite sep_by_cons, length_app.
  intros [->|Hx]%elem_of_cons; [lia|]. specialize (Hc _ Hx). lia.
Qed.
Lemma Token_open c inp st stk : starts st = true → c = lbrack ∨ c = lbrace →
  Token (mkDec (pre st ++ RDelim c :: inp) st stk)
  = Ok (TDelim c, mkDec inp (if beq c lbrack then ArrayStart else ObjectStart) (eff st :: stk)).
Proof.
  intros Hst Hc. unfold Token. simpl. rewrite Token_pre by done. simpl.
  rewrite eff_allowed by done. by destruct Hc as [-> | ->].
Qed.

Lemma all_complete m j : (length (render j) ≤ m)%nat → strict j → walk_complete j.
Proof.
  revert j. induction m as [|m IH]; intros j Hm Hj; [by destruct j; simpl in Hm; lia|].
  intros n st stk rest Hst Hn.
  destruct Hj as [s|s|b|l Hl|l Hnd Hl].
  1-3: destruct n as [|n]; [simpl in Hn; lia|]; by destruct st.
  - rewrite length_render_arr in Hm, Hn. destruct n as [|n]; [lia|].
    cbn [render walk]. rewrite <- app_comm_cons, <- app_assoc, Token_open by (done || by left).
    cbn [mbind result_bind].
    destruct (elements_complete l) with (n := n) (st := ArrayStart) (stk := eff st :: stk)
      (rest := [RDelim rbrack] ++ rest) as (st' & Hst' & E); [|by left| |simpl; lia|].
    + apply Forall_forall. intros x Hx. apply IH; [|by eapply Forall_forall].
      assert (length (render x) ≤ length (sep_by (map render l)))%nat; [|lia].
      apply length_sep_by_elem, list_elem_of_fmap. by exists x.
    + exists rbrack, rest. split; [done|by left].
    + simpl in E |- *. rewrite E. by destruct Hst' as [-> | ->].
  - rewrite length_render_obj in Hm, Hn. destruct n as [|n]; [lia|].
    cbn [render walk]. rewrite <- app_comm_cons, <- app_assoc, Token_open by (done || by right).
    cbn [mbind result_bind].
    destruct (members_complete l) with (n := n) (seen := @nil str) (st := ObjectStart)
      (stk := eff st :: stk) (rest := [RDelim rbrace] ++ rest)
      as (st' & Hst' & E); [|done| |by left| |simpl; lia|].
    + apply Forall_forall. intros x Hx.
      apply IH; [|eapply Forall_forall; [done|]; apply list_elem_of_fmap; by exists x].
      assert (length (member_text x) ≤ length (sep_by (map member_text l)))%nat as Hlen.
      { apply length_sep_by_elem, list_elem_of_fmap. by exists x. }
      change (length (member_text x)) with (2 + length (render x.2))%nat in Hlen. lia.
    + by intros k _ ?%not_elem_of_nil.
    + exists rbrace, rest. split; [done|by right].
    + simpl in E |- *. unfold member_text in E. rewrite E. by destruct Hst' as [-> | ->].
Qed.

Lemma Token_end d e : Token d = Err e → is_eof e = true → state d = TopValue → input d = [].
Proof.
  unfold Token, is_eof. intros Ht He%bool_decide_eq_true Hs. subst e. rewrite Hs in Ht.
  destruct (input d) as [|[c| | | | |] inp]; try done; simpl in Ht.
  repeat match type of Ht with context [beq c ?x] => destruct (beq c x); try done end.
Qed.
Lemma CheckJSON_render j : strict j → CheckJSON (render j) = Ok tt.
Proof.
  intros Hj. unfold CheckJSON. pose proof (all_complete _ j ltac:(done) Hj) as Hw.
  specialize (Hw (2 * length (render j) + 2)%nat TopValue [] [] eq_refl ltac:(lia)).
  cbn [pre] in Hw. rewrite app_nil_r in Hw. cbn [app] in Hw. by rewrite Hw.
Qed.
End Correctness.


(** [exactFields] accepts exactly the values in which every member of an object read
    into a struct carries, at every depth, the exact JSON tag of one of its fields; names
    that [encoding/json] alone would match without regard to case are refused. *)
Theorem exactFields_spec `{Unicode} (j : json) (t : gotype) :
  exactFields j t = Ok tt ↔ conforms j t.
Proof.
  revert j t. fix IH 1. intros j [known|]; [|destruct j; simpl; split; by constructor].
  destruct j as [| | | |l|l];
    try (split; [done|by inversion 1]); [split; [by constructor|done]|].
  assert (exactFields (JObj l) (TStruct known) = Ok tt ↔
    ∀ name value, (name, value) ∈ l →
      ∃ field, field_type name known = Some field ∧ conforms value field) as E.
  { induction l as [|[name value] l IHl]; [split; [by intros _ ?? ?%not_elem_of_nil|done]|].
    specialize (IH value). simpl in IHl |- *.
    destruct (field_type name known) as [field|] eqn:Hf.
    - specialize (IH field). destruct (exactFields value field) as [[]|e] eqn:Hv.
      + rewrite IHl. split.
        * intros Hl n v [[= -> ->]|Hin]%elem_of_cons; [|by apply Hl].
          exists field. split; [done|by apply IH].
        * intros Hl n v Hin. apply Hl. by right.
      + split; [done|]. intros Hl. destruct (Hl name value) as (f & Hf' & Hc); [left|].
        rewrite Hf in Hf'. injection Hf' as <-. by apply IH in Hc.
    - split; [done|]. intros Hl. destruct (Hl name value) as (f & Hf' & _); [left|].
      by rewrite Hf in Hf'. }
  rewrite E. split; [by constructor|by inversion 1].
Qed.
