(* ===== verification/JSONText.v ===== *)
(** * JSONText: the text of JSON values ([encoding/json] of the Go standard library)

    The lexer of the decoder, with its escapes and its treatment of UTF-8, and the encoder's
    text, indented or compact; what is written is read back. *)
From S2P Require Import Prelude Strs ConfigJSON.

Definition dquote : byte := chr 34.
Definition backslash : byte := chr 92.

(** ** UTF-8: the sequences of two, three and four bytes *)
Definition cont : byte → bool := in_range 128 191.
Definition two (a b : byte) : bool := in_range 194 223 a && cont b.
Definition three (a b c : byte) : bool :=
  ((code a =? 224) && in_range 160 191 b
   || (code a =? 237) && in_range 128 159 b
   || (in_range 225 236 a || in_range 238 239 a) && cont b) && cont c.
Definition four (a b c d : byte) : bool :=
  ((code a =? 240) && in_range 144 191 b
   || (code a =? 244) && in_range 128 143 b
   || in_range 241 243 a && cont b) && cont c && cont d.
Inductive utf8 : str → Prop :=
  | utf8_nil : utf8 []
  | utf8_one a s : code a < 128 → utf8 s → utf8 (a :: s)
  | utf8_two a b s : two a b = true → utf8 s → utf8 (a :: b :: s)
  | utf8_three a b c s : three a b c = true → utf8 s → utf8 (a :: b :: c :: s)
  | utf8_four a b c d s : four a b c d = true → utf8 s → utf8 (a :: b :: c :: d :: s).
Definition replacement : str := [chr 239; chr 191; chr 189].
Definition surrogate (v : Z) : bool := (55296 <=? v) && (v <=? 57343).
Definition encode_rune (v : Z) : str :=
  if v <? 128 then [chr v]
  else if v <? 2048 then [chr (192 + v / 64); chr (128 + v mod 64)]
  else if surrogate v then replacement
  else if v <? 65536 then [chr (224 + v / 4096); chr (128 + v / 64 mod 64); chr (128 + v mod 64)]
  else [chr (240 + v / 262144); chr (128 + v / 4096 mod 64); chr (128 + v / 64 mod 64); chr (128 + v mod 64)].

(** ** The lexer *)
Definition hex_value (c : byte) : option Z :=
  if is_digit c then Some (code c - 48)
  else if in_range 97 102 c then Some (code c - 87)
  else if in_range 65 70 c then Some (code c - 55)
  else None.
Definition hex4 (a b c d : byte) : option Z :=
  w ← hex_value a; x ← hex_value b; y ← hex_value c; z ← hex_value d;
  Some (((w * 16 + x) * 16 + y) * 16 + z).
Definition unescape (e : byte) : option byte :=
  match code e with
  | 34 => Some dquote | 92 => Some backslash | 47 => Some slash
  | 98 => Some (chr 8) | 102 => Some (chr 12) | 110 => Some nl | 114 => Some (chr 13) | 116 => Some (chr 9)
  | _ => None
  end.
Definition add_text (x : str) (r : option (str * str)) : option (str * str) := '(y, t) ← r; Some (x ++ y, t).
(** Two \u escapes that are one character. *)
Definition pair_value (v : Z) (b u k1 k2 k3 k4 : byte) : option Z :=
  if beq b backslash && beq u (chr 117) && (v <=? 56319) then
    w ← hex4 k1 k2 k3 k4;
    if (56320 <=? w) && (w <=? 57343) then Some (65536 + (v - 55296) * 1024 + (w - 56320)) else None
  else None.
(** The string after its opening quote, and what follows its closing quote. *)
Fixpoint lex_str (s : str) : option (str * str) :=
  match s with
  | [] => None
  | c :: s1 =>
      if beq c dquote then Some ([], s1)
      else if beq c backslash then
        match s1 with
        | [] => None
        | e :: s2 =>
            if beq e (chr 117) then
              match s2 with
              | h1 :: h2 :: h3 :: h4 :: s3 =>
                  match hex4 h1 h2 h3 h4 with
                  | None => None
                  | Some v =>
                      if surrogate v then
                        match s3 with
                        | b :: u :: k1 :: k2 :: k3 :: k4 :: s4 =>
                            match pair_value v b u k1 k2 k3 k4 with
                            | Some w => add_text (encode_rune w) (lex_str s4)
                            | None => add_text replacement (lex_str s3)
                            end
                        | _ => add_text replacement (lex_str s3)
                        end
                      else add_text (encode_rune v) (lex_str s3)
                  end
              | _ => None
              end
            else match unescape e with Some b => add_text [b] (lex_str s2) | None => None end
        end
      else if code c <? 32 then None
      else if code c <? 128 then add_text [c] (lex_str s1)
      else
        match s1 with
        | c2 :: s2 =>
            if two c c2 then add_text [c; c2] (lex_str s2)
            else match s2 with
                 | c3 :: s3 =>
                     if three c c2 c3 then add_text [c; c2; c3] (lex_str s3)
                     else match s3 with
                          | c4 :: s4 => if four c c2 c3 c4 then add_text [c; c2; c3; c4] (lex_str s4)
                                        else add_text replacement (lex_str s1)
                          | [] => add_text replacement (lex_str s1)
                          end
                 | [] => add_text replacement (lex_str s1)
                 end
        | [] => add_text replacement (lex_str s1)
        end
  end.
Fixpoint span_digits (s : str) : str * str :=
  match s with
  | c :: t => if is_digit c then let '(d, r) := span_digits t in (c :: d, r) else ([], s)
  | [] => ([], [])
  end.
(** An integer part without a needless zero. *)
Definition lex_int (s : str) : option (str * str) :=
  match s with
  | c :: t => if beq c (chr 48) then Some ([c], t)
              else if is_digit c then Some (span_digits s) else None
  | [] => None
  end.
Definition some_digits (s : str) : option (str * str) :=
  match span_digits s with ([], _) => None | (d, r) => Some (d, r) end.
Definition lex_fraction (s : str) : option (str * str) :=
  match s with
  | c :: t => if beq c dot then '(d, r) ← some_digits t; Some (c :: d, r) else Some ([], s)
  | [] => Some ([], [])
  end.
Definition lex_exponent (s : str) : option (str * str) :=
  match s with
  | c :: t =>
      if beq c (chr 101) || beq c (chr 69) then
        let '(sign, t) := match t with
                          | x :: u => if beq x (chr 43) || beq x dash then ([x], u) else ([], t)
                          | [] => ([], t)
                          end in
        '(d, r) ← some_digits t; Some (c :: sign ++ d, r)
      else Some ([], s)
  | [] => Some ([], [])
  end.
Definition lex_num (s : str) : option (str * str) :=
  let '(sign, t) := match s with c :: t => if beq c dash then ([c], t) else ([], s) | [] => ([], s) end in
  '(i, t) ← lex_int t; '(f, t) ← lex_fraction t; '(e, t) ← lex_exponent t; Some (sign ++ i ++ f ++ e, t).
Definition is_space (c : byte) : bool := (code c =? 32) || (code c =? 9) || (code c =? 10) || (code c =? 13).
Definition is_delim (c : byte) : bool :=
  beq c lbrack || beq c rbrack || beq c lbrace || beq c rbrace || beq c colon || beq c comma.
Fixpoint tokens (n : nat) (s : str) : list raw :=
  match n with
  | O => [RBad]
  | S n =>
      match s with
      | [] => []
      | c :: t =>
          if is_space c then tokens n t
          else if is_delim c then RDelim c :: tokens n t
          else if beq c dquote then match lex_str t with Some (v, r) => RStr v :: tokens n r | None => [RBad] end
          else match strip_prefix "true" s with
               | Some r => RBool true :: tokens n r
               | None =>
                   match strip_prefix "false" s with
                   | Some r => RBool false :: tokens n r
                   | None =>
                       match strip_prefix "null" s with
                       | Some r => RNull :: tokens n r
                       | None => match lex_num s with Some (v, r) => RNum v :: tokens n r | None => [RBad] end
                       end
                   end
               end
      end
  end.
Definition lex (s : str) : list raw := tokens (S (length s)) s.

(** ** The encoder *)
Definition hex_digit (v : Z) : byte := if v <? 10 then chr (48 + v) else chr (87 + v).
Definition escape_u (v : Z) : str :=
  backslash :: chr 117 :: [hex_digit (v / 4096); hex_digit (v / 256 mod 16); hex_digit (v / 16 mod 16); hex_digit (v mod 16)].
Definition escape_byte (c : byte) : str :=
  match code c with
  | 34 => [backslash; dquote] | 92 => [backslash; backslash]
  | 8 => [backslash; chr 98] | 12 => [backslash; chr 102] | 10 => [backslash; chr 110]
  | 13 => [backslash; chr 114] | 9 => [backslash; chr 116]
  | 60 => escape_u 60 | 62 => escape_u 62 | 38 => escape_u 38
  | v => if v <? 32 then escape_u v else [c]
  end.
(** U+2028 and U+2029. *)
Definition separator (a b c : byte) : option Z :=
  if (code a =? 226) && (code b =? 128) && ((code c =? 168) || (code c =? 169)) then Some (8192 + code c - 128) else None.
Definition escape_three (a b c : byte) : str :=
  match separator a b c with Some v => escape_u v | None => [a; b; c] end.
Fixpoint escape (s : str) : str :=
  match s with
  | [] => []
  | c :: s1 =>
      if code c <? 128 then escape_byte c ++ escape s1
      else
        match s1 with
        | c2 :: s2 =>
            if two c c2 then c :: c2 :: escape s2
            else match s2 with
                 | c3 :: s3 =>
                     if three c c2 c3 then escape_three c c2 c3 ++ escape s3
                     else match s3 with
                          | c4 :: s4 => if four c c2 c3 c4 then c :: c2 :: c3 :: c4 :: escape s4
                                        else escape_u 65533 ++ escape s1
                          | [] => escape_u 65533 ++ escape s1
                          end
                 | [] => escape_u 65533 ++ escape s1
                 end
        | [] => escape_u 65533 ++ escape s1
        end
  end.
Definition quote_string (s : str) : str := dquote :: escape s ++ [dquote].
Section Print.
(** The line break before an item at a depth, and what follows a key. *)
Variables (line : nat → str) (after_key : str).
Fixpoint separated (sep : str) (l : list str) : str :=
  match l with [] => [] | [x] => x | x :: l => x ++ sep ++ separated sep l end.
Definition container (open close : byte) (n : nat) (l : list str) : str :=
  match l with
  | [] => [open; close]
  | _ => open :: line (S n) ++ separated (comma :: line (S n)) l ++ line n ++ [close]
  end.
Fixpoint print (n : nat) (j : json) : str :=
  match j with
  | JNull => "null"
  | JStr s => quote_string s
  | JNum s => s
  | JBool b => if b then "true" else "false"
  | JArr l => container lbrack rbrack n (map (print (S n)) l)
  | JObj l => container lbrace rbrace n (map (λ kv, quote_string kv.1 ++ after_key ++ print (S n) kv.2) l)
  end.
End Print.
Definition indented (n : nat) : str := nl :: replicate (2 * n) space.
Definition MarshalIndent (j : json) : str := print indented ": " 0 j.
Definition Marshal (j : json) : str := print (λ _, []) ":" 0 j.
Example MarshalIndent_example : MarshalIndent (JObj [("a" : str, JArr [JNum "1"; JBool true]); ("b" : str, JObj [])])
  = Join ["{" : str; "  " ++ quote_string "a" ++ ": [" : str; "    1," : str; "    true" : str; "  ]," : str;
          "  " ++ quote_string "b" ++ ": {}" : str; "}" : str] [nl].
Proof. vm_compute. reflexivity. Qed.

(** ** Strings *)
Lemma code_bounds c : 0 ≤ code c < 256.
Proof. unfold code. pose proof (Ascii.nat_ascii_bounded c). lia. Qed.
Lemma hex_value_digit d : 0 ≤ d < 16 → hex_value (hex_digit d) = Some d.
Proof.
  intros Hd. assert (d = 0 ∨ d = 1 ∨ d = 2 ∨ d = 3 ∨ d = 4 ∨ d = 5 ∨ d = 6 ∨ d = 7 ∨ d = 8 ∨ d = 9 ∨ d = 10 ∨ d = 11 ∨ d = 12 ∨
    d = 13 ∨ d = 14 ∨ d = 15) as Hcases by lia.
  repeat destruct Hcases as [->|Hcases]; try (vm_compute; reflexivity). subst. vm_compute. reflexivity.
Qed.
Lemma lex_str_escape_u v t : 0 ≤ v < 65536 → surrogate v = false →
  lex_str (escape_u v ++ t) = add_text (encode_rune v) (lex_str t).
Proof.
  intros Hv Hs. unfold escape_u. cbn [app lex_str]. change (beq backslash dquote) with false. rewrite !beq_refl.
  assert (hex4 (hex_digit (v / 4096)) (hex_digit (v / 256 mod 16)) (hex_digit (v / 16 mod 16)) (hex_digit (v mod 16)) = Some v) as ->.
  { assert (v / 256 = v / 16 / 16) as E1 by (by rewrite Z.div_div). assert (v / 4096 = v / 16 / 16 / 16) as E2 by (by rewrite !Z.div_div).
    pose proof (Z.mod_pos_bound v 16 ltac:(lia)). pose proof (Z.mod_pos_bound (v / 16) 16 ltac:(lia)).
    pose proof (Z.mod_pos_bound (v / 16 / 16) 16 ltac:(lia)). pose proof (Z.div_mod v 16 ltac:(lia)).
    pose proof (Z.div_mod (v / 16) 16 ltac:(lia)). pose proof (Z.div_mod (v / 16 / 16) 16 ltac:(lia)).
    unfold hex4. rewrite E1, E2. rewrite !hex_value_digit by lia. cbn [mbind option_bind]. f_equal. lia. }
  by rewrite Hs.
Qed.
(** How a byte below 128 is written: as itself, as a short escape or as its number. *)
Definition byte_ok (c : byte) : bool :=
  (escape_byte c == [c]) && negb (beq c dquote) && negb (beq c backslash) && (32 <=? code c)
  || match escape_byte c with
     | [b; x] => beq b backslash && negb (beq x (chr 117)) && bool_decide (unescape x = Some c)
     | _ => false
     end
  || (escape_byte c == escape_u (code c)) && (encode_rune (code c) == [c]).
Lemma all_bytes_ok c : code c < 128 → byte_ok c = true.
Proof.
  intros Hc. destruct c as [b0 b1 b2 b3 b4 b5 b6 b7]. destruct b7.
  - exfalso. revert Hc. destruct b0, b1, b2, b3, b4, b5, b6; vm_compute; discriminate.
  - clear Hc. destruct b0, b1, b2, b3, b4, b5, b6; vm_compute; reflexivity.
Qed.
Lemma lex_str_byte c t : code c < 128 → lex_str (escape_byte c ++ t) = add_text [c] (lex_str t).
Proof.
  intros Hc. pose proof (all_bytes_ok c Hc) as Ho. unfold byte_ok in Ho. apply orb_true_iff in Ho as [Ho|Ho].
  2:{ bools. repeat match goal with H : (_ == _) = true |- _ => apply str_eqb_eq in H end.
      match goal with H : escape_byte c = _ |- _ => rewrite H end. pose proof (code_bounds c).
      rewrite lex_str_escape_u; [congruence|lia|]. unfold surrogate. apply andb_false_iff. left. lia. }
  apply orb_true_iff in Ho as [Ho|Ho].
  - bools. match goal with H : escape_byte c = _ |- _ => rewrite H end. cbn [app lex_str].
    repeat match goal with H : beq c _ = false |- _ => rewrite H end.
    assert ((code c <? 32) = false) as -> by lia. assert ((code c <? 128) = true) as -> by lia. done.
  - destruct (escape_byte c) as [|b [|x [|? ?]]]; try done. bools. cbn [app lex_str].
    match goal with H : beq b _ = true |- _ => apply beq_true in H as -> end.
    change (beq backslash dquote) with false. rewrite beq_refl.
    match goal with H : beq x _ = false |- _ => rewrite H end.
    match goal with H : unescape x = _ |- _ => rewrite H end. done.
Qed.
(** A sequence of several bytes is read as it is. *)
Lemma high_byte a : 128 ≤ code a → beq a dquote = false ∧ beq a backslash = false ∧ (code a <? 32) = false ∧ (code a <? 128) = false.
Proof.
  intros Ha. split_and!; [..|lia|lia]; apply beq_false; intros ->; revert Ha; vm_compute; by destruct 1.
Qed.
Lemma lex_str_two a b t : two a b = true → lex_str (a :: b :: t) = add_text [a; b] (lex_str t).
Proof.
  intros E. assert (128 ≤ code a) as Ha by (revert E; unfold two, in_range; intros; bools; lia).
  cbn [lex_str]. destruct (high_byte a Ha) as (-> & -> & -> & ->). by rewrite E.
Qed.
Lemma three_first a b c : three a b c = true → 224 ≤ code a ≤ 239.
Proof.
  unfold three, in_range, cont, in_range. intros [Hab _]%andb_true_iff.
  repeat match goal with H : _ || _ = true |- _ => apply orb_true_iff in H as [H|H] | H : (_ || _) && _ = true |- _ => apply andb_true_iff in H as [H _] end;
    bools; lia.
Qed.
Lemma four_first a b c d : four a b c d = true → 240 ≤ code a ≤ 244.
Proof.
  unfold four, in_range, cont, in_range. intros [[Hab _]%andb_true_iff _]%andb_true_iff.
  repeat match goal with H : _ || _ = true |- _ => apply orb_true_iff in H as [H|H] | H : (_ || _) && _ = true |- _ => apply andb_true_iff in H as [H _] end;
    bools; lia.
Qed.
Lemma not_two a b : 224 ≤ code a → two a b = false.
Proof. intros Ha. unfold two, in_range. destruct (Z.leb_spec (code a) 223); [lia|]. by rewrite andb_false_r. Qed.
Lemma not_three a b c : 240 ≤ code a → three a b c = false.
Proof. intros Ha. destruct (three a b c) eqn:E; [|done]. apply three_first in E. lia. Qed.
Lemma lex_str_three a b c t : three a b c = true → lex_str (a :: b :: c :: t) = add_text [a; b; c] (lex_str t).
Proof.
  intros E. pose proof (three_first _ _ _ E) as Ha. cbn [lex_str]. destruct (high_byte a ltac:(lia)) as (-> & -> & -> & ->).
  by rewrite not_two, E by lia.
Qed.
Lemma lex_str_four a b c d t : four a b c d = true → lex_str (a :: b :: c :: d :: t) = add_text [a; b; c; d] (lex_str t).
Proof.
  intros E. pose proof (four_first _ _ _ _ E) as Ha. cbn [lex_str]. destruct (high_byte a ltac:(lia)) as (-> & -> & -> & ->).
  by rewrite not_two, not_three, E by lia.
Qed.
Lemma code_inj a b : code a = code b → a = b.
Proof. intros E. by rewrite <- (chr_code a), <- (chr_code b), E. Qed.
Lemma lex_str_separator a b c t : three a b c = true → lex_str (escape_three a b c ++ t) = add_text [a; b; c] (lex_str t).
Proof.
  intros E. unfold escape_three. destruct (separator a b c) as [v|] eqn:Es; [|by apply lex_str_three].
  revert Es. unfold separator. destruct (_ && _) eqn:Ec; [|done]. intros [= <-].
  apply andb_true_iff in Ec as [[Ha Hb]%andb_true_iff Hc]. apply Z.eqb_eq in Ha, Hb.
  assert (a = chr 226) as -> by (by apply code_inj). assert (b = chr 128) as -> by (by apply code_inj).
  apply orb_true_iff in Hc as [Hc%Z.eqb_eq|Hc%Z.eqb_eq]; rewrite Hc.
  - assert (c = chr 168) as -> by (by apply code_inj). by rewrite lex_str_escape_u.
  - assert (c = chr 169) as -> by (by apply code_inj). by rewrite lex_str_escape_u.
Qed.
Lemma lex_str_escape s r : utf8 s → lex_str (escape s ++ dquote :: r) = Some (s, r).
Proof.
  induction 1 as [|a s Ha _ IH|a b s Hab _ IH|a b c s Habc _ IH|a b c d s Habcd _ IH].
  - cbn [escape app lex_str]. by rewrite beq_refl.
  - cbn [escape]. assert ((code a <? 128) = true) as -> by lia. rewrite <- app_assoc, lex_str_byte, IH by done. done.
  - assert (128 ≤ code a) as Ha by (revert Hab; unfold two, in_range; intros; bools; lia).
    cbn [escape]. destruct (high_byte a Ha) as (_ & _ & _ & ->). rewrite Hab. cbn [app]. by rewrite lex_str_two, IH.
  - pose proof (three_first _ _ _ Habc) as Ha. cbn [escape]. destruct (high_byte a ltac:(lia)) as (_ & _ & _ & ->).
    rewrite not_two, Habc by lia. by rewrite <- app_assoc, lex_str_separator, IH.
  - pose proof (four_first _ _ _ _ Habcd) as Ha. cbn [escape]. destruct (high_byte a ltac:(lia)) as (_ & _ & _ & ->).
    rewrite not_two, not_three, Habcd by lia. cbn [app]. by rewrite lex_str_four, IH.
Qed.

(** ** Numbers *)
Definition is_stop (c : byte) : bool := is_space c || is_delim c.
(** What may follow a number. *)
Definition stops (s : str) : Prop := match s with c :: _ => is_stop c = true | [] => True end.
Definition number_head (c : byte) : bool := is_digit c || beq c dash.
Definition head_ok (c : byte) : bool :=
  negb (is_space c) && negb (is_delim c) && negb (beq c dquote) &&
  negb (beq (chr 116) c) && negb (beq (chr 102) c) && negb (beq (chr 110) c).
Lemma number_head_ok c : number_head c = true → head_ok c = true.
Proof. destruct c as [[] [] [] [] [] [] [] []]; vm_compute; done. Qed.
Lemma stop_not_number c : is_stop c = true →
  is_digit c = false ∧ beq c dot = false ∧ beq c (chr 101) = false ∧ beq c (chr 69) = false.
Proof. destruct c as [[] [] [] [] [] [] [] []]; vm_compute; done. Qed.
Lemma span_digits_app d r : Forall (λ c, is_digit c = true) d → stops r → span_digits (d ++ r) = (d, r).
Proof.
  intros Hd Hr. induction Hd as [|c d Hc _ IH]; cbn [app span_digits].
  - destruct r as [|c r]; [done|]. cbn [span_digits]. by destruct (stop_not_number c Hr) as (-> & _).
  - by rewrite Hc, IH.
Qed.
(** No leading zero. *)
Lemma pretty_N_go_head x s : (0 < x)%N → ∃ c r, String.list_ascii_of_string (pretty_N_go x s) = c :: r ∧ c ≠ chr 48.
Proof.
  revert s. induction (N.lt_wf_0 x) as [x _ IH]. intros s Hx. rewrite pretty_N_go_step by done.
  destruct (decide (x / 10 = 0)%N) as [E|E].
  - rewrite E, pretty_N_go_0. cbn [String.list_ascii_of_string]. eexists _, _. split; [done|].
    assert (x < 10)%N as Hlt by (by apply N.div_small_iff in E). rewrite N.mod_small by done.
    destruct x as [|[[[p|p|]|[p|p|]|]|[[p|p|]|[p|p|]|]|]]; try lia; try (by vm_compute); destruct p; try lia; by vm_compute.
  - apply IH; [apply N.div_lt; lia|by apply N.neq_0_lt_0].
Qed.
Lemma Itoa_head z : 0 < z → ∃ c r, Itoa z = c :: r ∧ c ≠ chr 48.
Proof.
  intros Hz. assert (∀ n, (0 < n)%N → ∃ c r, String.list_ascii_of_string (pretty (A := N) n) = c :: r ∧ c ≠ chr 48) as Hn.
  { intros n Hn. unfold pretty, pretty_N. destruct (decide (n = 0)%N); [lia|]. by apply pretty_N_go_head. }
  destruct z as [|p|p]; [lia| |lia]. exact (Hn (Npos p) eq_refl).
Qed.
Lemma lex_int_Itoa z r : 0 ≤ z → stops r → lex_int (Itoa z ++ r) = Some (Itoa z, r).
Proof.
  intros Hz Hr. destruct (decide (z = 0)) as [->|Hne]; [done|].
  destruct (Itoa_digits z Hz) as (Hd & _ & _). destruct (Itoa_head z ltac:(lia)) as (c & t & E & Hc). rewrite E in *.
  cbn [app lex_int]. apply beq_false in Hc. rewrite Hc. apply Forall_cons in Hd as [Hc' Hd]. rewrite Hc'.
  change (c :: t ++ r) with ((c :: t) ++ r). rewrite span_digits_app; [done|by apply Forall_cons|done].
Qed.
Lemma lex_num_Itoa z r : stops r → lex_num (Itoa z ++ r) = Some (Itoa z, r).
Proof.
  intros Hr. assert (∀ sign y, 0 ≤ y → (let t := Itoa y ++ r in '(i, t) ← lex_int t; '(f, t) ← lex_fraction t;
    '(e, t) ← lex_exponent t; Some (sign ++ i ++ f ++ e, t)) = Some (sign ++ Itoa y, r)) as Hy.
  { intros sign y Hy. cbv zeta. rewrite lex_int_Itoa by done. cbn [mbind option_bind].
    assert (lex_fraction r = Some ([], r)) as ->.
    { destruct r as [|c r]; [done|]. cbn [lex_fraction]. by destruct (stop_not_number c Hr) as (_ & -> & _). }
    cbn [mbind option_bind]. assert (lex_exponent r = Some ([], r)) as ->.
    { destruct r as [|c r]; [done|]. cbn [lex_exponent]. by destruct (stop_not_number c Hr) as (_ & _ & -> & ->). }
    cbn [mbind option_bind]. by rewrite !app_nil_r. }
  unfold lex_num. destruct (Z_lt_ge_dec z 0) as [Hneg|Hpos].
  - destruct z as [|p|p]; [lia|lia|]. change (Itoa (Z.neg p)) with (dash :: Itoa (Z.pos p)). cbn [app]. rewrite beq_refl.
    exact (Hy [dash] (Z.pos p) ltac:(lia)).
  - destruct (Itoa_digits z ltac:(lia)) as (Hd & Hne & _). pose proof (Hy [] z ltac:(lia)) as Hz. destruct (Itoa z) as [|c t]; [done|].
    cbn [app] in *. apply Forall_cons in Hd as [Hc _]. destruct (beq_spec c dash) as [->|_]; [done|]. exact Hz.
Qed.

(** ** Tokens *)
(** [s] is read as [ts], whatever follows; or whatever may follow a number. *)
Definition reads_any (s : str) (ts : list raw) : Prop := ∀ rest n, (length (s ++ rest) < n)%nat →
  ∃ m, (length rest < m)%nat ∧ tokens n (s ++ rest) = ts ++ tokens m rest.
Definition reads (s : str) (ts : list raw) : Prop := ∀ rest n, stops rest → (length (s ++ rest) < n)%nat →
  ∃ m, (length rest < m)%nat ∧ tokens n (s ++ rest) = ts ++ tokens m rest.
Definition begins (s : str) : Prop := match s with c :: _ => is_stop c = true | [] => False end.
Lemma reads_any_reads s ts : reads_any s ts → reads s ts.
Proof. intros Hs rest n _. apply Hs. Qed.
Lemma reads_any_nil : reads_any [] [].
Proof. intros rest n Hn. by exists n. Qed.
Lemma reads_any_app a b x y : reads_any a x → reads_any b y → reads_any (a ++ b) (x ++ y).
Proof.
  intros Ha Hb rest n Hn. rewrite <- app_assoc in *. destruct (Ha (b ++ rest) n Hn) as (m & Hm & ->).
  destruct (Hb rest m Hm) as (k & Hk & ->). exists k. by rewrite app_assoc.
Qed.
Lemma reads_any_then a b x y : reads_any a x → reads b y → reads (a ++ b) (x ++ y).
Proof.
  intros Ha Hb rest n Hs Hn. rewrite <- app_assoc in *. destruct (Ha (b ++ rest) n Hn) as (m & Hm & ->).
  destruct (Hb rest m Hs Hm) as (k & Hk & ->). exists k. by rewrite app_assoc.
Qed.
Lemma reads_then a b x y : reads a x → begins b → reads b y → reads (a ++ b) (x ++ y).
Proof.
  intros Ha Hh Hb rest n Hs Hn. rewrite <- app_assoc in *. destruct (Ha (b ++ rest) n) as (m & Hm & ->); [by destruct b|done|].
  destruct (Hb rest m Hs Hm) as (k & Hk & ->). exists k. by rewrite app_assoc.
Qed.
Lemma reads_then_any a b x y : reads a x → begins b → reads_any b y → reads_any (a ++ b) (x ++ y).
Proof.
  intros Ha Hh Hb rest n Hn. rewrite <- app_assoc in *. destruct (Ha (b ++ rest) n) as (m & Hm & ->); [by destruct b|done|].
  destruct (Hb rest m Hm) as (k & Hk & ->). exists k. by rewrite app_assoc.
Qed.
Lemma reads_space c : is_space c = true → reads_any [c] [].
Proof.
  intros Hc rest n Hn. destruct n as [|n]; [lia|]. exists n. cbn [app length] in *. split; [lia|]. cbn [tokens]. by rewrite Hc.
Qed.
Lemma reads_delim c : is_space c = false → is_delim c = true → reads_any [c] [RDelim c].
Proof.
  intros Hs Hc rest n Hn. destruct n as [|n]; [lia|]. exists n. cbn [app length] in *. split; [lia|]. cbn [tokens]. by rewrite Hs, Hc.
Qed.
Lemma reads_string s : utf8 s → reads_any (quote_string s) [RStr s].
Proof.
  intros Hs rest n Hn. destruct n as [|n]; [lia|]. exists n. unfold quote_string in *. cbn [app length] in *.
  rewrite <- app_assoc in *. split; [rewrite !length_app in Hn; cbn [length] in Hn; lia|]. cbn [tokens].
  change (is_space dquote) with false. change (is_delim dquote) with false. rewrite beq_refl.
  cbn [app]. by rewrite lex_str_escape.
Qed.
Lemma reads_number z : reads (Itoa z) [RNum (Itoa z)].
Proof.
  intros rest n Hs Hn. pose proof (lex_num_Itoa z rest Hs) as Hl.
  assert (∃ c t, Itoa z = c :: t ∧ number_head c = true) as (c & t & E & Hc).
  { unfold number_head. destruct (Z_lt_ge_dec z 0) as [Hneg|Hpos].
    - destruct z as [|p|p]; [lia|lia|]. exists dash, (Itoa (Z.pos p)). by rewrite beq_refl, orb_true_r.
    - destruct (Itoa_digits z ltac:(lia)) as (Hd & Hne & _). destruct (Itoa z) as [|c t]; [done|]. exists c, t.
      apply Forall_cons in Hd as [-> _]. done. }
  destruct n as [|n]; [lia|]. exists n. rewrite length_app, E in Hn. cbn [length] in Hn. split; [lia|].
  apply number_head_ok in Hc. unfold head_ok in Hc. bools. rewrite E in *. cbn [app tokens].
  repeat match goal with H : is_space c = false |- _ => rewrite H; clear H | H : is_delim c = false |- _ => rewrite H; clear H
                       | H : beq c dquote = false |- _ => rewrite H; clear H end.
  assert (∀ x p, beq x c = false → strip_prefix (x :: p) (c :: t ++ rest) = None) as Hp.
  { intros x p Hx. cbn [strip_prefix]. by rewrite Hx. }
  change (String.list_ascii_of_string "true") with (chr 116 :: ("rue" : str)).
  change (String.list_ascii_of_string "false") with (chr 102 :: ("alse" : str)).
  change (String.list_ascii_of_string "null") with (chr 110 :: ("ull" : str)).
  rewrite !Hp by done. cbn [app] in Hl. by rewrite Hl.
Qed.
Lemma shorter (s rest : str) n : s ≠ [] → (length (s ++ rest) < S n)%nat → (length rest < n)%nat.
Proof. intros Hs. rewrite length_app. destruct s; [done|]. cbn [length]. lia. Qed.
Lemma reads_bool (b : bool) : reads (if b then ("true" : str) else "false") [RBool b].
Proof.
  intros rest n _ Hn. destruct n as [|n]; [lia|]. exists n. split; [apply (shorter (if b then "true" else "false")); by destruct b|].
  destruct b; reflexivity.
Qed.
Lemma reads_null : reads "null" [RNull].
Proof. intros rest n _ Hn. destruct n as [|n]; [lia|]. exists n. split; [by apply (shorter "null")|reflexivity]. Qed.

(** ** Values *)
(** Values whose strings are valid UTF-8 and whose numbers are integers. *)
Inductive writable : json → Prop :=
  | writable_null : writable JNull
  | writable_str s : utf8 s → writable (JStr s)
  | writable_num z : writable (JNum (Itoa z))
  | writable_bool b : writable (JBool b)
  | writable_arr l : Forall writable l → writable (JArr l)
  | writable_obj l : Forall utf8 l.*1 → Forall writable l.*2 → writable (JObj l).
Section Reading.
Variables (line : nat → str) (after_key : str).
Hypothesis line_space : ∀ n, reads_any (line n) [].
Hypothesis line_begins : ∀ n, line n = [] ∨ begins (line n).
Hypothesis key_colon : reads_any after_key [RDelim colon].
Lemma reads_separated n (l : list str) (ts : list (list raw)) :
  Forall2 reads l ts → l ≠ [] → reads (separated (comma :: line n) l) (sep_by ts).
Proof.
  induction 1 as [|x t l ts Hx Hl IH]; intros Hne; [done|]. destruct Hl as [|y u l ts Hy Hl]; [exact Hx|].
  change (separated (comma :: line n) (x :: y :: l)) with (x ++ (comma :: line n) ++ separated (comma :: line n) (y :: l)).
  change (sep_by (t :: u :: ts)) with (t ++ [RDelim comma] ++ sep_by (u :: ts)).
  apply reads_then; [done|done|]. apply reads_any_then; [|by apply IH].
  apply (reads_any_app [comma] (line n) [RDelim comma] []); [by apply reads_delim|apply line_space].
Qed.
Lemma reads_container open close n (l : list str) (ts : list (list raw)) :
  is_space open = false → is_delim open = true → is_space close = false → is_delim close = true →
  Forall2 reads l ts → reads_any (container line open close n l) (RDelim open :: sep_by ts ++ [RDelim close]).
Proof.
  intros Ho1 Ho2 Hc1 Hc2 Hl. destruct Hl as [|x t l ts Hx Hl].
  - apply (reads_any_app [open] [close] [RDelim open] [RDelim close]); by apply reads_delim.
  - unfold container. apply (reads_any_app [open] _ [RDelim open]); [by apply reads_delim|].
    apply (reads_any_app _ _ []); [apply line_space|].
    apply reads_then_any; [apply reads_separated; [by constructor|done]| |].
    + destruct (line_begins n) as [->|Hb]; [cbn; unfold is_stop; by rewrite Hc2, orb_true_r|by destruct (line n)].
    + apply (reads_any_app _ [close] [] [RDelim close]); [apply line_space|by apply reads_delim].
Qed.
Lemma reads_print m j : (length (render j) ≤ m)%nat → writable j → ∀ n, reads (print line after_key n j) (render j).
Proof.
  revert j. induction m as [|m IH]; intros j Hm Hj n; [by destruct j; simpl in Hm; lia|].
  destruct Hj as [|s Hs|z|b|l Hl|l Hk Hl]; cbn [print].
  - apply reads_null.
  - by apply reads_any_reads, reads_string.
  - apply reads_number.
  - apply reads_bool.
  - rewrite length_render_arr in Hm. apply reads_any_reads, reads_container; try reflexivity.
    apply Forall2_fmap_2, Forall_Forall2_diag, Forall_forall. intros x Hx. apply IH.
    + pose proof (length_sep_by_elem (render x) (map render l) ltac:(apply list_elem_of_fmap; by exists x)). lia.
    + rewrite Forall_forall in Hl. by apply Hl.
  - rewrite length_render_obj in Hm. apply reads_any_reads.
    change (render (JObj l)) with (RDelim lbrace :: sep_by (map member_text l) ++ [RDelim rbrace]).
    apply reads_container; try reflexivity.
    apply Forall2_fmap_2, Forall_Forall2_diag, Forall_forall. intros [k x] Hx. cbn [fst snd].
    rewrite Forall_fmap, Forall_forall in Hk. rewrite Forall_fmap, Forall_forall in Hl.
    change (member_text (k, x)) with ([RStr k] ++ [RDelim colon] ++ render x).
    apply reads_any_then; [apply reads_string, (Hk (k, x) Hx)|]. apply reads_any_then; [apply key_colon|].
    apply IH; [|apply (Hl (k, x) Hx)].
    pose proof (length_sep_by_elem (member_text (k, x)) (map member_text l) ltac:(apply list_elem_of_fmap; by exists (k, x))) as Hle.
    change (length (member_text (k, x))) with (2 + length (render x))%nat in Hle. lia.
Qed.
End Reading.
Lemma reads_indented n : reads_any (indented n) [].
Proof.
  unfold indented. apply (reads_any_app [nl] _ [] []); [by apply reads_space|]. induction (2 * n)%nat as [|k IH]; [apply reads_any_nil|].
  apply (reads_any_app [space] _ [] []); [by apply reads_space|exact IH].
Qed.
(** What the encoder writes, with a final newline, the lexer reads. *)
Lemma lex_MarshalIndent j : writable j → lex (MarshalIndent j ++ [nl]) = render j.
Proof.
  intros Hj. unfold lex, MarshalIndent.
  destruct (reads_print indented ": " reads_indented (λ n, or_intror eq_refl)
    ltac:(apply (reads_any_app [colon] [space] [RDelim colon] []); [by apply reads_delim|by apply reads_space])
    (length (render j)) j (Nat.le_refl _) Hj 0 [nl] _ eq_refl (Nat.lt_succ_diag_r _)) as (m & Hm & ->).
  cbn [length] in Hm. destruct m as [|[|m]]; [lia|lia|]. cbn. by rewrite app_nil_r.
Qed.

(** ** Strings that are valid UTF-8 *)
Lemma utf8_ascii s : is_ascii s = true → utf8 s.
Proof.
  unfold is_ascii. induction s as [|c s IH]; [constructor|]. cbn [forallb]. intros [Hc Hs]%andb_true_iff.
  apply utf8_one; [|by apply IH]. unfold is_ascii_byte in Hc. lia.
Qed.
Lemma utf8_app a b : utf8 a → utf8 b → utf8 (a ++ b).
Proof. induction 1; cbn [app]; eauto using utf8. Qed.
Lemma two_high a b : two a b = true → 128 ≤ code a ∧ 128 ≤ code b.
Proof. unfold two, cont, in_range. intros. bools. lia. Qed.
Lemma three_high a b c : three a b c = true → 128 ≤ code a ∧ 128 ≤ code b ∧ 128 ≤ code c.
Proof.
  unfold three, cont, in_range. intros [Hab Hc]%andb_true_iff.
  repeat match goal with H : _ || _ = true |- _ => apply orb_true_iff in H as [H|H] | H : (_ || _) && _ = true |- _ => apply andb_true_iff in H as [H ?] end;
    bools; lia.
Qed.
Lemma four_high a b c d : four a b c d = true → 128 ≤ code a ∧ 128 ≤ code b ∧ 128 ≤ code c ∧ 128 ≤ code d.
Proof.
  unfold four, cont, in_range. intros [[Hab Hc]%andb_true_iff Hd]%andb_true_iff.
  repeat match goal with H : _ || _ = true |- _ => apply orb_true_iff in H as [H|H] | H : (_ || _) && _ = true |- _ => apply andb_true_iff in H as [H ?] end;
    bools; lia.
Qed.
(** A text is cut at an ASCII byte into valid texts. *)
Lemma utf8_cut a c b : code c < 128 → utf8 (a ++ c :: b) → utf8 a ∧ utf8 b.
Proof.
  intros Hc Hu. remember (a ++ c :: b) as s eqn:E. revert a E.
  induction Hu as [|x s Hx Hs IH|x y s Hxy Hs IH|x y z s Hxyz Hs IH|x y z w s Hx Hs IH]; intros a E.
  - by destruct a.
  - destruct a as [|x' a]; injection E as -> ->; [by split; [constructor|]|].
    destruct (IH a eq_refl) as [? ?]. split; [by constructor|done].
  - apply two_high in Hxy as Hh. destruct a as [|x' [|y' a]]; [injection E; intros; subst; lia|injection E; intros; subst; lia|].
    injection E as -> -> ->. destruct (IH a eq_refl) as [? ?]. split; [by apply utf8_two|done].
  - apply three_high in Hxyz as Hh. destruct a as [|x' [|y' [|z' a]]]; [injection E; intros; subst; lia..|].
    injection E as -> -> -> ->. destruct (IH a eq_refl) as [? ?]. split; [by apply utf8_three|done].
  - apply four_high in Hx as Hh. destruct a as [|x' [|y' [|z' [|w' a]]]]; [injection E; intros; subst; lia..|].
    injection E as -> -> -> -> ->. destruct (IH a eq_refl) as [? ?]. split; [by apply utf8_four|done].
Qed.
