(* ===== verification/Durations.v ===== *)
(** * Durations: [time.ParseDuration] and [time.Duration.String], which the configuration
    ([Duration] in src/internal/config/config.go) and the command line use

    A duration is a number of nanoseconds in 64 bits. Fractions go through binary64, which
    is the executable one of the standard library, so that the text of every duration is
    shown to be read back exactly. *)
From Stdlib Require Import SpecFloat.
From S2P Require Import Prelude Strs NetIP.

(** ** Binary64 *)
Definition float_of (z : Z) : spec_float := binary_normalize 53 1024 z 0 false.
(** [uint64(x)] of a non-negative float below 2^63. *)
Definition trunc (x : spec_float) : Z :=
  match x with
  | S754_finite false m e => if 0 <=? e then Z.pos m * 2 ^ e else Z.pos m / 2 ^ (- e)
  | _ => 0
  end.
(** [uint64(float64(f) * (float64(unit) / scale))]. *)
Definition fraction_of (f unit scale : Z) : Z :=
  trunc (SFmul 53 1024 (float_of f) (SFdiv 53 1024 (float_of unit) (float_of scale))).

(** ** [ParseDuration] *)
Definition time_quote (s : str) : str :=
  let q c :=
    let n := code c in
    if (128 <=? n) || (n <? 32) then "\x" ++ [hex_digit (n / 16); hex_digit (n mod 16)]
    else if (n =? 34) || (n =? 92) then [chr 92; c] else [c] in
  [chr 34] ++ mjoin (map q s) ++ [chr 34].
Definition invalid_duration (orig : str) : error := errors_New ("time: invalid duration " ++ time_quote orig).
Definition unit_of (u : str) : option Z :=
  if u == "ns" then Some 1
  else if (u == "us") || (u == [chr 194; chr 181; chr 115]) || (u == [chr 206; chr 188; chr 115]) then Some 1000
  else if u == "ms" then Some 1000000
  else if u == "s" then Some Second
  else if u == "m" then Some Minute
  else if u == "h" then Some Hour
  else None.
Fixpoint leadingInt (x : Z) (s : str) : option (Z * str) :=
  match s with
  | c :: t =>
      if is_digit c then
        if 2 ^ 63 / 10 <? x then None
        else let x := x * 10 + (code c - 48) in
             if 2 ^ 63 <? x then None else leadingInt x t
      else Some (x, s)
  | [] => Some (x, [])
  end.
Fixpoint leadingFraction (x scale : Z) (overflow : bool) (s : str) : Z * Z * str :=
  match s with
  | c :: t =>
      if is_digit c then
        if overflow then leadingFraction x scale true t
        else if (2 ^ 63 - 1) / 10 <? x then leadingFraction x scale true t
        else let y := x * 10 + (code c - 48) in
             if 2 ^ 63 <? y then leadingFraction x scale true t
             else leadingFraction y (scale * 10) false t
      else (x, scale, s)
  | [] => (x, scale, [])
  end.
(** The unit ends at a digit or a dot. *)
Fixpoint take_unit (s : str) : str * str :=
  match s with
  | c :: t => if is_digit c || beq c dot then ([], s) else let '(u, r) := take_unit t in (c :: u, r)
  | [] => ([], [])
  end.
(** One number with its unit. *)
Definition segment (orig s : str) : result (Z * str) :=
  _ ← guard_err (negb (match s with c :: _ => is_digit c || beq c dot | [] => false end)) (invalid_duration orig);
  '(v, s1) ← of_option (invalid_duration orig) (leadingInt 0 s);
  let pre := negb (length s =? length s1)%nat in
  let '(f, scale, s2, post) :=
    match s1 with
    | c :: t => if beq c dot then let '(f, scale, r) := leadingFraction 0 1 false t in (f, scale, r, negb (length t =? length r)%nat)
                else (0, 1, s1, false)
    | [] => (0, 1, s1, false)
    end in
  _ ← guard_err (negb pre && negb post) (invalid_duration orig);
  let '(u, s3) := take_unit s2 in
  _ ← guard_err (u == "") (errors_New ("time: missing unit in duration " ++ time_quote orig));
  unit ← of_option (errors_New ("time: unknown unit " ++ time_quote u ++ " in duration " ++ time_quote orig)) (unit_of u);
  _ ← guard_err (2 ^ 63 / unit <? v) (invalid_duration orig);
  let w := if 0 <? f then v * unit + fraction_of f unit scale else v * unit in
  _ ← guard_err ((0 <? f) && (2 ^ 63 <? w)) (invalid_duration orig);
  Ok (w, s3).
(** The sum is kept in 64 bits. *)
Fixpoint segments (fuel : nat) (orig s : str) (d : Z) : result Z :=
  match s, fuel with
  | [], _ => Ok d
  | _, O => Err (errors_New "out of fuel")
  | _, S n =>
      '(v, s) ← segment orig s;
      let d := uint64 (d + v) in
      _ ← guard_err (2 ^ 63 <? d) (invalid_duration orig);
      segments n orig s d
  end.
Definition ParseDuration (s : str) : result Z :=
  let '(neg, t) :=
    match s with
    | c :: t => if beq c dash then (true, t) else if beq c (chr 43) then (false, t) else (false, s)
    | [] => (false, s)
    end in
  if t == "0" then Ok 0
  else if t == "" then Err (invalid_duration s)
  else
    d ← segments (length t) s t 0;
    if neg : bool then Ok (- d)
    else _ ← guard_err (2 ^ 63 - 1 <? d) (invalid_duration s); Ok d.

(** ** [String] *)
Definition digit_char (d : Z) : byte := chr (48 + d).
(** The last [prec] digits of [v], without the zeros at their end, before [buf]. *)
Fixpoint fmtFrac_loop (prec : nat) (v : Z) (print : bool) (buf : str) : bool * str * Z :=
  match prec with
  | O => (print, buf, v)
  | S n =>
      let digit := v mod 10 in
      let print := print || negb (digit =? 0) in
      fmtFrac_loop n (v / 10) print (if print then digit_char digit :: buf else buf)
  end.
Definition fmtFrac (buf : str) (v : Z) (prec : nat) : str * Z :=
  let '(print, buf, v) := fmtFrac_loop prec v false buf in (if print then dot :: buf else buf, v).
Definition micro : str := [chr 194; chr 181; chr 115].
Definition magnitude (u : Z) : str :=
  if u <? Second then
    if u =? 0 then "0s"
    else if u <? 1000 then Itoa u ++ "ns"
    else if u <? 1000000 then let '(buf, v) := fmtFrac micro u 3 in Itoa v ++ buf
    else let '(buf, v) := fmtFrac "ms" u 6 in Itoa v ++ buf
  else
    let '(buf, v) := fmtFrac "s" u 9 in
    let buf := Itoa (v mod 60) ++ buf in
    let v := v / 60 in
    if 0 <? v then
      let buf := Itoa (v mod 60) ++ "m" ++ buf in
      let v := v / 60 in
      if 0 <? v then Itoa v ++ "h" ++ buf else buf
    else buf.
Definition Duration_String (d : Z) : str := if d <? 0 then dash :: magnitude (Z.abs d) else magnitude (Z.abs d).

Example show_1 : Duration_String (15 * Second) = "15s". Proof. reflexivity. Qed.
Example show_2 : Duration_String (3 * Hour + 1500000000) = "3h0m1.5s". Proof. reflexivity. Qed.
Example show_3 : Duration_String 1010000 = "1.01ms". Proof. reflexivity. Qed.
Example parse_1 : ParseDuration "1.5h" = Ok (90 * Minute). Proof. vm_compute. reflexivity. Qed.
Example parse_2 : ParseDuration "-1.000000007s2ms" = Ok (-1002000007). Proof. vm_compute. reflexivity. Qed.
(** The overflow that the sum's 64 bits hide. *)
Example parse_3 : ParseDuration "9223372036854775808ns9223372036854775808ns" = Ok 0. Proof. vm_compute. reflexivity. Qed.

(** ** Binary64 is exact on small products *)
Lemma digits2_log2 p : Z.pos (digits2_pos p) = Z.log2 (Z.pos p) + 1.
Proof.
  induction p as [p IH|p IH|]; cbn [digits2_pos]; [| |done].
  - rewrite Pos2Z.inj_succ, IH. replace (Z.pos p~1) with (2 * Z.pos p + 1) by lia. rewrite Z.log2_succ_double by lia. lia.
  - rewrite Pos2Z.inj_succ, IH. replace (Z.pos p~0) with (2 * Z.pos p) by lia. rewrite Z.log2_double by lia. lia.
Qed.
Lemma shr_exact n x : 0 < x →
  SpecFloat.iter_pos shr_1 n (Build_shr_record (x * 2 ^ Z.pos n) false false) = Build_shr_record x false false.
Proof.
  assert (∀ y, 0 < y → shr_1 (Build_shr_record (2 * y) false false) = Build_shr_record y false false) as H1.
  { intros [|y|y] Hy; [lia|done|lia]. }
  revert x. induction n as [n IH|n IH|]; intros x Hx; cbn [SpecFloat.iter_pos].
  - replace (x * 2 ^ Z.pos n~1) with (2 * (x * 2 ^ Z.pos n * 2 ^ Z.pos n)).
    2:{ replace (Z.pos n~1) with (Z.pos n + Z.pos n + 1) by lia. rewrite !Z.pow_add_r by lia. lia. }
    rewrite H1, !IH; [done|lia|nia|nia].
  - replace (x * 2 ^ Z.pos n~0) with (x * 2 ^ Z.pos n * 2 ^ Z.pos n).
    2:{ replace (Z.pos n~0) with (Z.pos n + Z.pos n) by lia. rewrite Z.pow_add_r by lia. lia. }
    rewrite !IH; [done|lia|nia].
  - rewrite Z.mul_comm. by apply H1.
Qed.
(** A number is held exactly, with at most [k] binary places. *)
Definition holds_exactly (k : Z) (x : spec_float) (v : Z) : Prop :=
  ∃ m e, x = S754_finite false m (- e) ∧ 0 ≤ e ≤ k ∧ Z.pos m = v * 2 ^ e.
Lemma round_exact v k m :
  0 < v < 2 ^ 53 → 0 ≤ k ≤ 104 → Z.pos m = v * 2 ^ k →
  holds_exactly k (binary_round_aux 53 1024 false (Z.pos m) (- k) loc_Exact) v.
Proof.
  intros Hv Hk Hm. assert (Z.pos (digits2_pos m) = Z.log2 v + 1 + k) as Hd.
  { rewrite digits2_log2, Hm, Z.log2_mul_pow2 by lia. lia. }
  assert (0 ≤ Z.log2 v < 53) as Hl by (split; [apply Z.log2_nonneg|apply Z.log2_lt_pow2; lia]).
  set (n := Z.log2 v - 52 + k).
  assert (shr_fexp 53 1024 (Z.pos m) (- k) loc_Exact = shr (Build_shr_record (Z.pos m) false false) (- k) n) as E1.
  { unfold shr_fexp. cbn [Zdigits2 shr_record_of_loc]. rewrite Hd. f_equal. unfold fexp, emin, n. lia. }
  destruct (Z_le_gt_dec n 0) as [Hn|Hn].
  - assert (shr_fexp 53 1024 (Z.pos m) (- k) loc_Exact = (Build_shr_record (Z.pos m) false false, - k)) as E2.
    { rewrite E1. unfold shr. destruct n; [done|lia|done]. }
    unfold binary_round_aux. rewrite E2. cbn [shr_m loc_of_shr_record round_nearest_even]. rewrite E2. cbn [shr_m].
    assert ((- k <=? 1024 - 53) = true) as -> by lia. exists m, k. split_and!; lia || done.
  - assert (n ≤ k) as Hnk by lia. destruct n as [|q|q] eqn:En; [lia| |lia].
    assert (Z.pos m = v * 2 ^ (k - Z.pos q) * 2 ^ Z.pos q) as Hm'.
    { rewrite Hm, <- Z.mul_assoc, <- Z.pow_add_r by lia. f_equal. f_equal. lia. }
    assert (0 < v * 2 ^ (k - Z.pos q)) as Hpos by nia.
    unfold binary_round_aux. rewrite E1. unfold shr at 1. rewrite Hm', shr_exact by done.
    cbn [shr_m loc_of_shr_record round_nearest_even].
    destruct (v * 2 ^ (k - Z.pos q)) as [|p|p] eqn:Ep; [lia| |lia].
    assert (Z.pos (digits2_pos p) = 53) as Hp53.
    { rewrite digits2_log2, <- Ep, Z.log2_mul_pow2 by lia. lia. }
    assert (shr_fexp 53 1024 (Z.pos p) (- k + Z.pos q) loc_Exact = (Build_shr_record (Z.pos p) false false, - k + Z.pos q)) as ->.
    { unfold shr_fexp. cbn [Zdigits2 shr_record_of_loc]. rewrite Hp53.
      assert (fexp 53 1024 (53 + (- k + Z.pos q)) - (- k + Z.pos q) = 0) as -> by (unfold fexp, emin; lia). done. }
    cbn [shr_m]. assert ((- k + Z.pos q <=? 1024 - 53) = true) as -> by lia.
    exists p, (k - Z.pos q). split_and!; try lia. f_equal. lia.
Qed.
Lemma float_of_exact v : 0 < v < 2 ^ 53 → holds_exactly 52 (float_of v) v.
Proof.
  intros Hv. destruct v as [|p|p]; [lia| |lia]. unfold float_of. cbn [binary_normalize]. unfold binary_round.
  assert (Z.pos (digits2_pos p) = Z.log2 (Z.pos p) + 1) as Hd by apply digits2_log2.
  assert (0 ≤ Z.log2 (Z.pos p) < 53) as Hl by (split; [apply Z.log2_nonneg|apply Z.log2_lt_pow2; lia]).
  assert (fexp 53 1024 (Z.pos (digits2_pos p) + 0) = - (52 - Z.log2 (Z.pos p))) as -> by (rewrite Hd; unfold fexp, emin; lia).
  set (k := 52 - Z.log2 (Z.pos p)) in *. unfold shl_align. replace (- k - 0) with (- k) by lia.
  destruct k as [|q|q] eqn:Ek; [|cbn [Z.opp]|lia].
  - destruct (round_exact (Z.pos p) 0 p) as (m & e & ? & ? & ?); [lia..|by rewrite Z.mul_1_r|]. exists m, e. split_and!; lia || done.
  - change (Z.neg q) with (- Z.pos q).
    destruct (round_exact (Z.pos p) (Z.pos q) (Pos.iter xO p q)) as (m & e & ? & ? & ?); [lia..| |exists m, e; split_and!; lia || done].
    clear. induction q as [|q IH] using Pos.peano_ind; [cbn; lia|].
    rewrite Pos.iter_succ, Pos2Z.inj_succ, Z.pow_succ_r by lia.
    change (Z.pos (xO (Pos.iter xO p q))) with (2 * Z.pos (Pos.iter xO p q)). rewrite IH. lia.
Qed.
Lemma mul_exact x y a b :
  holds_exactly 52 x a → holds_exactly 52 y b → 0 < a → 0 < b → a * b < 2 ^ 53 → holds_exactly 104 (SFmul 53 1024 x y) (a * b).
Proof.
  intros (m1 & e1 & -> & He1 & Hm1) (m2 & e2 & -> & He2 & Hm2) Ha Hb Hab.
  cbn [SFmul xorb]. replace (- e1 + - e2) with (- (e1 + e2)) by lia.
  destruct (round_exact (a * b) (e1 + e2) (m1 * m2)) as (m & e & ? & ? & ?); [nia|lia| |exists m, e; split_and!; lia || done].
  rewrite Pos2Z.inj_mul, Hm1, Hm2, Z.pow_add_r by lia. lia.
Qed.
Lemma trunc_exact k x v : holds_exactly k x v → trunc x = v.
Proof.
  intros (m & e & -> & He & Hm). unfold trunc. destruct (Z.leb_spec 0 (- e)).
  - assert (e = 0) as -> by lia. cbn in *. lia.
  - rewrite Z.opp_involutive, Hm, Z.div_mul; [done|]. lia.
Qed.
(** A fraction of at most as many digits as the unit has is read exactly. *)
Lemma fraction_exact f p k :
  p = 3 ∨ p = 6 ∨ p = 9 → 0 ≤ k ≤ p → 0 < f < 10 ^ 9 → f * 10 ^ (p - k) < 2 ^ 53 →
  fraction_of f (10 ^ p) (10 ^ k) = f * 10 ^ (p - k).
Proof.
  intros Hp Hk Hf Hfk. unfold fraction_of.
  assert (SFdiv 53 1024 (float_of (10 ^ p)) (float_of (10 ^ k)) = float_of (10 ^ (p - k))) as ->.
  { assert (k = 0 ∨ k = 1 ∨ k = 2 ∨ k = 3 ∨ k = 4 ∨ k = 5 ∨ k = 6 ∨ k = 7 ∨ k = 8 ∨ k = 9) as Hc by lia.
    destruct Hp as [->|[->| ->]]; destruct_or! Hc; subst k; first [lia|vm_compute; reflexivity]. }
  assert (0 < 10 ^ (p - k) < 2 ^ 53) as H10.
  { split; [lia|]. apply (Z.le_lt_trans _ (10 ^ 9)); [apply Z.pow_le_mono_r; lia|done]. }
  eapply trunc_exact, mul_exact; [apply float_of_exact; lia|by apply float_of_exact|lia..].
Qed.

(** ** Reading what was written *)
Definition ends_number (r : str) : Prop := match r with c :: _ => is_digit c = false | [] => True end.
Lemma digit_value c : is_digit c = true → 0 ≤ code c - 48 ≤ 9.
Proof. unfold is_digit, in_range. intros H. bools. lia. Qed.
Lemma leadingInt_digits ds x v r :
  Forall (λ c, is_digit c = true) ds → 0 ≤ x → digits_value x ds = Some v → v ≤ 2 ^ 63 → ends_number r →
  leadingInt x (ds ++ r) = Some (v, r).
Proof.
  intros Hd Hx. revert x Hx. induction Hd as [|c ds Hc Hds IH]; intros x Hx Hv Hle Hr; cbn [app].
  - injection Hv as ->. destruct r as [|c r]; [done|]. cbn [leadingInt]. by rewrite Hr.
  - cbn [digits_value] in Hv. rewrite Hc in Hv. pose proof (digit_value c Hc) as Hcv.
    pose proof (digits_value_mono ds (x * 10 + (code c - 48)) v ltac:(lia) Hv) as Hmono.
    assert (1 ≤ 10 ^ Z.of_nat (length ds)) by lia.
    assert (x * 10 + (code c - 48) ≤ v) by nia.
    cbn [leadingInt]. rewrite Hc. destruct (Z.ltb_spec (2 ^ 63 / 10) x) as [Hlt|_].
    { exfalso. assert (x ≤ 2 ^ 63 / 10); [|lia]. apply Z.div_le_lower_bound; lia. }
    destruct (Z.ltb_spec (2 ^ 63) (x * 10 + (code c - 48))); [lia|]. apply IH; done || lia.
Qed.
Lemma leadingInt_Itoa v r : 0 ≤ v ≤ 2 ^ 63 → ends_number r → leadingInt 0 (Itoa v ++ r) = Some (v, r).
Proof.
  intros Hv Hr. destruct (Itoa_digits v) as (Hd & _ & Hval); [lia|]. apply leadingInt_digits; try done || lia.
  specialize (Hval []). by rewrite app_nil_r in Hval.
Qed.
Lemma leadingFraction_digits ds x scale v r :
  Forall (λ c, is_digit c = true) ds → 0 ≤ x → digits_value x ds = Some v → v < 10 ^ 9 → ends_number r →
  leadingFraction x scale false (ds ++ r) = (v, scale * 10 ^ Z.of_nat (length ds), r).
Proof.
  intros Hd Hx. revert x scale Hx. induction Hd as [|c ds Hc Hds IH]; intros x scale Hx Hv Hle Hr; cbn [app].
  - injection Hv as ->. rewrite Z.mul_1_r. destruct r as [|c r]; [done|]. cbn [leadingFraction]. by rewrite Hr.
  - cbn [digits_value] in Hv. rewrite Hc in Hv. pose proof (digit_value c Hc) as Hcv.
    pose proof (digits_value_mono ds (x * 10 + (code c - 48)) v ltac:(lia) Hv) as Hmono.
    assert (1 ≤ 10 ^ Z.of_nat (length ds)) by lia.
    assert (x * 10 + (code c - 48) ≤ v) by nia.
    cbn [leadingFraction]. rewrite Hc. destruct (Z.ltb_spec ((2 ^ 63 - 1) / 10) x) as [Hlt|_].
    { exfalso. assert (x ≤ (2 ^ 63 - 1) / 10); [|lia]. apply Z.div_le_lower_bound; lia. }
    destruct (Z.ltb_spec (2 ^ 63) (x * 10 + (code c - 48))); [lia|].
    rewrite IH by (done || lia). do 2 f_equal. cbn [length]. rewrite Nat2Z.inj_succ, Z.pow_succ_r by lia. lia.
Qed.
(** What [fmtFrac] writes. *)
Lemma code_digit_char d : 0 ≤ d ≤ 9 → is_digit (digit_char d) = true ∧ code (digit_char d) - 48 = d.
Proof.
  intros Hd. assert (d = 0 ∨ d = 1 ∨ d = 2 ∨ d = 3 ∨ d = 4 ∨ d = 5 ∨ d = 6 ∨ d = 7 ∨ d = 8 ∨ d = 9) as Hc by lia.
  destruct_or! Hc; subst d; done.
Qed.
Record fraction_text (prec : nat) (v : Z) (ds : str) : Prop := {
  ft_digits : Forall (λ c, is_digit c = true) ds;
  ft_length : (length ds ≤ prec)%nat;
  ft_value : ∃ f, digits_value 0 ds = Some f ∧ 0 < f ∧ f * 10 ^ (Z.of_nat prec - Z.of_nat (length ds)) = v }.
Lemma mod_pow_succ v n : 0 ≤ v → v mod 10 ^ Z.of_nat (S n) = v mod 10 + 10 * ((v / 10) mod 10 ^ Z.of_nat n).
Proof. intros Hv. rewrite Nat2Z.inj_succ, Z.pow_succ_r, Z.rem_mul_r by lia. lia. Qed.
Lemma div_pow_succ v n : 0 ≤ v → v / 10 ^ Z.of_nat (S n) = v / 10 / 10 ^ Z.of_nat n.
Proof. intros Hv. rewrite Nat2Z.inj_succ, Z.pow_succ_r, Z.div_div by lia. done. Qed.
Lemma fmtFrac_printing n v buf : 0 ≤ v → ∃ ds,
  fmtFrac_loop n v true buf = (true, ds ++ buf, v / 10 ^ Z.of_nat n) ∧
  Forall (λ c, is_digit c = true) ds ∧ length ds = n ∧
  ∀ acc r, digits_value acc (ds ++ r) = digits_value (acc * 10 ^ Z.of_nat n + v mod 10 ^ Z.of_nat n) r.
Proof.
  revert v buf. induction n as [|n IH]; intros v buf Hv.
  - exists []. cbn [fmtFrac_loop]. rewrite Z.div_1_r. split_and!; [done|by apply Forall_nil|done|].
    intros acc r. rewrite Z.mod_1_r, Z.mul_1_r, Z.add_0_r. done.
  - cbn [fmtFrac_loop orb]. destruct (IH (v / 10) (digit_char (v mod 10) :: buf)) as (ds & E & Hd & Hl & Hval).
    { apply Z.div_pos; lia. }
    pose proof (Z.mod_pos_bound v 10 ltac:(lia)). destruct (code_digit_char (v mod 10)) as [Hc Hcv]; [lia|].
    exists (ds ++ [digit_char (v mod 10)]). rewrite E, div_pow_succ by done. split_and!.
    + by rewrite <- app_assoc.
    + apply Forall_app. split; [done|]. by repeat constructor.
    + rewrite length_app. cbn. lia.
    + intros acc r. rewrite <- app_assoc, Hval. cbn [app digits_value]. rewrite Hc, Hcv, mod_pow_succ by done.
      f_equal. rewrite Nat2Z.inj_succ, Z.pow_succ_r by lia. lia.
Qed.
Lemma fmtFrac_spec n v buf : 0 ≤ v → ∃ t,
  fmtFrac buf v n = (t ++ buf, v / 10 ^ Z.of_nat n) ∧
  (v mod 10 ^ Z.of_nat n = 0 ∧ t = [] ∨ ∃ ds, t = dot :: ds ∧ fraction_text n (v mod 10 ^ Z.of_nat n) ds).
Proof.
  unfold fmtFrac. revert v. induction n as [|n IH]; intros v Hv.
  - exists []. cbn [fmtFrac_loop]. rewrite Z.div_1_r. split; [done|]. left. by rewrite Z.mod_1_r.
  - cbn [fmtFrac_loop orb]. rewrite div_pow_succ, mod_pow_succ by done.
    pose proof (Z.mod_pos_bound v 10 ltac:(lia)). assert (0 ≤ v / 10) as Hv10 by (apply Z.div_pos; lia).
    destruct (Z.eqb_spec (v mod 10) 0) as [E0|E0]; cbn [negb].
    + destruct (IH (v / 10) Hv10) as (t & E & Hc). exists t. rewrite E0. split; [exact E|].
      destruct Hc as [[-> ->]|(ds & -> & [Hd Hl (f & Hf & Hf0 & Hfv)])]; [by left|]. right. exists ds. split; [done|].
      split; [done|lia|]. exists f. split_and!; [done|done|]. rewrite <- Hfv.
      replace (Z.of_nat (S n) - Z.of_nat (length ds)) with (Z.of_nat n - Z.of_nat (length ds) + 1) by lia.
      rewrite Z.pow_add_r by lia. lia.
    + destruct (fmtFrac_printing n (v / 10) (digit_char (v mod 10) :: buf) Hv10) as (ds & E & Hd & Hl & Hval).
      destruct (code_digit_char (v mod 10)) as [Hc Hcv]; [lia|].
      exists (dot :: ds ++ [digit_char (v mod 10)]). rewrite E. split; [by rewrite <- app_comm_cons, <- app_assoc|].
      right. eexists. split; [done|].
      assert (length (ds ++ [digit_char (v mod 10)]) = S n) as El by (rewrite length_app; cbn; lia).
      split; [apply Forall_app; split; [done|by repeat constructor]|lia|].
      exists ((v / 10) mod 10 ^ Z.of_nat n * 10 + v mod 10). rewrite Hval. cbn [digits_value]. rewrite Hc, Hcv, El.
      pose proof (Z.mod_pos_bound (v / 10) (10 ^ Z.of_nat n) ltac:(lia)). split_and!; [done|lia|].
      replace (Z.of_nat (S n) - Z.of_nat (S n)) with 0 by lia. lia.
Qed.

(** *** One number with its unit *)
Definition unit_byte (c : byte) : Prop := is_digit c || beq c dot = false.
Definition is_unit (u : str) (unit : Z) : Prop := unit_of u = Some unit ∧ u ≠ [] ∧ Forall unit_byte u.
Definition starts_number (r : str) : Prop := match r with c :: _ => is_digit c = true | [] => True end.
Lemma take_unit_app u r : Forall unit_byte u → starts_number r → take_unit (u ++ r) = (u, r).
Proof.
  induction 1 as [|c u Hc _ IH]; intros Hr; cbn [app take_unit].
  - destruct r as [|c r]; [done|]. cbn [take_unit]. cbn in Hr. by rewrite Hr.
  - rewrite Hc, IH by done. done.
Qed.
Lemma unit_ends u r : u ≠ [] → Forall unit_byte u → ends_number (u ++ r).
Proof. intros Hu Hf. destruct u as [|c u]; [done|]. apply Forall_cons in Hf as [Hc _]. unfold unit_byte in Hc. cbn. by bools. Qed.
(** The fraction [fr] of a unit. *)
Definition fraction_ok (unit : Z) (t : str) (fr : Z) : Prop :=
  fr = 0 ∧ t = [] ∨
  ∃ p ds, (p = 3 ∨ p = 6 ∨ p = 9)%nat ∧ unit = 10 ^ Z.of_nat p ∧ fr < unit ∧ t = dot :: ds ∧ fraction_text p fr ds.
Lemma segment_text orig v t u unit fr rest :
  0 ≤ v → 0 ≤ fr → 0 < unit → v * unit + fr ≤ 2 ^ 63 → is_unit u unit → fraction_ok unit t fr → starts_number rest →
  segment orig (Itoa v ++ t ++ u ++ rest) = Ok (v * unit + fr, rest).
Proof.
  intros Hv Hfr Hunit Hle (Hu & Hne & Hub) Hf Hr. destruct (Itoa_digits v Hv) as (Hd & Hn & _).
  assert (0 ≤ v ≤ 2 ^ 63) as Hv63 by nia.
  assert (ends_number (t ++ u ++ rest)) as Hend.
  { destruct Hf as [[_ ->]|(p & ds & _ & _ & _ & -> & _)]; [exact (unit_ends u rest Hne Hub)|done]. }
  assert ((match Itoa v ++ t ++ u ++ rest with c :: _ => is_digit c || beq c dot | [] => false end) = true) as Hhead.
  { destruct (Itoa v) as [|c w]; [done|]. apply Forall_cons in Hd as [Hc _]. cbn. by rewrite Hc. }
  unfold segment. rewrite Hhead. cbn [negb guard_err mbind result_bind]. rewrite leadingInt_Itoa by done.
  cbn [of_option mbind result_bind].
  assert (length (Itoa v ++ t ++ u ++ rest) =? length (t ++ u ++ rest) = false)%nat as Hlen.
  { apply Nat.eqb_neq. rewrite length_app. destruct (Itoa v); [done|]. cbn. lia. }
  rewrite Hlen. cbn [negb andb]. assert (2 ^ 63 / unit <? v = false) as Hov.
  { apply Z.ltb_ge, Z.div_le_lower_bound; [lia|]. nia. }
  destruct Hf as [[-> ->]|(p & ds & Hp & -> & Hlt & -> & [Hds Hdl (f & Hfv & Hf0 & Hfr')])].
  - cbn [app]. assert ((match u ++ rest with
        | c :: t => if beq c dot then let '(f, scale, r) := leadingFraction 0 1 false t in (f, scale, r, negb (length t =? length r)%nat)
                    else (0, 1, u ++ rest, false)
        | [] => (0, 1, u ++ rest, false) end) = (0, 1, u ++ rest, false)) as ->.
    { destruct u as [|c w]; [done|]. apply Forall_cons in Hub as [Hc _]. unfold unit_byte in Hc. cbn. apply orb_false_iff in Hc as [_ ->]. done. }
    cbn [guard_err mbind result_bind]. rewrite take_unit_app by done.
    assert ((u == "") = false) as -> by (by apply str_eqb_neq). cbn [guard_err mbind result_bind].
    rewrite Hu. cbn [of_option mbind result_bind]. rewrite Hov. cbn. by rewrite Z.add_0_r.
  - cbn [app]. rewrite beq_refl.
    assert (f < 10 ^ 9) as Hf9.
    { assert (1 ≤ 10 ^ (Z.of_nat p - Z.of_nat (length ds))) by lia. assert (10 ^ Z.of_nat p ≤ 10 ^ 9) by (apply Z.pow_le_mono_r; lia). nia. }
    rewrite (leadingFraction_digits ds 0 1 f) by (done || lia || exact (unit_ends u rest Hne Hub)).
    cbn [guard_err mbind result_bind]. rewrite take_unit_app by done.
    assert ((u == "") = false) as -> by (by apply str_eqb_neq). cbn [guard_err mbind result_bind].
    rewrite Hu. cbn [of_option mbind result_bind]. rewrite Hov. cbn [guard_err mbind result_bind].
    rewrite (proj2 (Z.ltb_lt 0 f)) by done. rewrite Z.mul_1_l.
    assert (10 ^ Z.of_nat p ≤ 10 ^ 9) as Hp9 by (apply Z.pow_le_mono_r; lia).
    rewrite fraction_exact by lia. rewrite Hfr'. destruct (Z.ltb_spec (2 ^ 63) (v * 10 ^ Z.of_nat p + fr)); [lia|]. done.
Qed.

(** *** The whole text *)
Ltac unit_ok := split; [reflexivity|split; [discriminate|repeat constructor]].
Lemma segments_cons n orig s s' d v :
  segment orig s = Ok (v, s') → s ≠ [] → 0 ≤ d → 0 ≤ v → d + v ≤ 2 ^ 63 →
  segments (S n) orig s d = segments n orig s' (d + v).
Proof.
  intros Hs Hne Hd Hv Hle. destruct s as [|c s]; [done|]. cbn [segments]. rewrite Hs. cbn [mbind result_bind].
  assert (uint64 (d + v) = d + v) as -> by (unfold uint64; apply Z.mod_small; lia).
  destruct (Z.ltb_spec (2 ^ 63) (d + v)); [lia|done].
Qed.
Lemma segments_nil n orig d : segments n orig [] d = Ok d.
Proof. by destruct n. Qed.
(** A text whose segments can be read with as many turns as it has bytes. *)
Definition readable (s : str) (u : Z) : Prop :=
  starts_number s ∧ s ≠ [] ∧ ∀ n orig d, (length s ≤ n)%nat → 0 ≤ d → d + u ≤ 2 ^ 63 → segments n orig s d = Ok (d + u).
Lemma readable_cons v t u unit fr s w :
  0 ≤ v → 0 ≤ fr → 0 < unit → 0 ≤ w → is_unit u unit → fraction_ok unit t fr → (s = [] ∧ w = 0 ∨ readable s w) →
  v * unit + fr + w ≤ 2 ^ 63 →
  readable (Itoa v ++ t ++ u ++ s) (v * unit + fr + w).
Proof.
  intros Hv Hfr Hunit Hw Hu Hf Hs Hle. destruct (Itoa_digits v Hv) as (Hd & Hn & _).
  assert (starts_number s) as Hss by (by destruct Hs as [[-> _]|[? _]]).
  assert (0 ≤ v * unit) by nia.
  split; [destruct (Itoa v) as [|c x]; [done|by apply Forall_cons in Hd as [Hc _]]|].
  split; [by destruct (Itoa v)|]. intros n orig d Hlen Hd0 Hsum.
  assert (length s < length (Itoa v ++ t ++ u ++ s))%nat.
  { rewrite !length_app. destruct (Itoa v); [done|cbn; lia]. }
  destruct n as [|n]; [lia|].
  rewrite (segments_cons n orig _ s d (v * unit + fr)); [|by apply segment_text; first [done|lia]|by destruct (Itoa v)|lia..].
  destruct Hs as [[-> ->]|(_ & _ & Hs)]; [rewrite segments_nil; f_equal; lia|]. rewrite Hs by lia. f_equal. lia.
Qed.
Lemma fmtFrac_ok prec u buf t v :
  0 ≤ u → (prec = 3 ∨ prec = 6 ∨ prec = 9)%nat → fmtFrac buf u prec = (t, v) →
  ∃ t', t = t' ++ buf ∧ v = u / 10 ^ Z.of_nat prec ∧ fraction_ok (10 ^ Z.of_nat prec) t' (u mod 10 ^ Z.of_nat prec).
Proof.
  intros Hu Hp E. destruct (fmtFrac_spec prec u buf Hu) as (t' & E' & Hc). rewrite E in E'. injection E' as -> ->.
  exists t'. split_and!; [done|done|]. destruct Hc as [[Hz ->]|(ds & -> & Hf)]; [by left|]. right.
  exists prec, ds. split_and!; [done|done| |done|done]. apply Z.mod_pos_bound. lia.
Qed.
(** Below a second: one number with its fraction, in the largest unit that fits. *)
Lemma small_readable u prec unit t v :
  0 ≤ u ≤ 2 ^ 63 → (prec = 3 ∨ prec = 6 ∨ prec = 9)%nat → is_unit unit (10 ^ Z.of_nat prec) →
  fmtFrac unit u prec = (t, v) → readable (Itoa v ++ t) u.
Proof.
  intros Hu Hp Hb E. apply fmtFrac_ok in E as (t' & -> & -> & Hf); [|lia|done].
  set (k := 10 ^ Z.of_nat prec) in *. assert (0 < k) as Hk by (apply Z.pow_pos_nonneg; lia).
  pose proof (Z.div_mod u k ltac:(lia)) as Eu. pose proof (Z.mod_pos_bound u k Hk) as Hm.
  pose proof (Z.div_pos u k ltac:(lia) Hk) as Hq.
  pose proof (readable_cons (u / k) t' unit k (u mod k) [] 0) as Hr. rewrite app_nil_r in Hr.
  replace (u / k * k + u mod k + 0) with u in Hr by lia.
  apply Hr; [done|apply Hm|done|done|done|done|by left|lia].
Qed.
(** From a second on: hours and minutes where they are not zero, then the seconds. *)
Lemma div_mod_parts u k : 0 ≤ u → 0 < k → u = u / k * k + u mod k ∧ 0 ≤ u mod k < k ∧ 0 ≤ u / k.
Proof.
  intros Hu Hk. split_and!; [pose proof (Z.div_mod u k ltac:(lia)); lia|apply Z.mod_pos_bound; lia..|apply Z.div_pos; lia].
Qed.
Lemma large_readable u : Second ≤ u ≤ 2 ^ 63 → readable (magnitude u) u.
Proof.
  intros Hu. assert (0 ≤ u) by (change Second with 1000000000 in Hu; lia). unfold magnitude. destruct (Z.ltb_spec u Second) as [Hs|Hs]; [lia|].
  destruct (fmtFrac "s" u 9) as [buf v] eqn:E. apply fmtFrac_ok in E as (t & -> & -> & Hf); [|lia|by right; right].
  change (10 ^ Z.of_nat 9) with 1000000000 in *. change Second with 1000000000 in *.
  destruct (div_mod_parts u 1000000000) as (Eu & Hfr & Hv); [lia..|].
  set (v := u / 1000000000) in *. set (fr := u mod 1000000000) in *.
  destruct (div_mod_parts v 60) as (Ev & Hs60 & Hm0); [lia..|]. destruct (div_mod_parts (v / 60) 60) as (Em & Hm60 & Hh0); [lia..|].
  assert (readable (Itoa (v mod 60) ++ t ++ "s" ++ []) (v mod 60 * 1000000000 + fr + 0)) as R1.
  { apply readable_cons; [lia..|unit_ok|exact Hf|by left|lia]. }
  rewrite app_nil_r in R1.
  destruct (Z.ltb_spec 0 (v / 60)) as [Hm|Hm].
  2:{ replace u with (v mod 60 * 1000000000 + fr + 0); [exact R1|]. lia. }
  assert (readable (Itoa ((v / 60) mod 60) ++ [] ++ "m" ++ Itoa (v mod 60) ++ t ++ "s")
    ((v / 60) mod 60 * 60000000000 + 0 + (v mod 60 * 1000000000 + fr + 0))) as R2.
  { apply readable_cons; [lia..|unit_ok|by left|by right|lia]. }
  destruct (Z.ltb_spec 0 (v / 60 / 60)) as [Hh|Hh].
  2:{ replace u with ((v / 60) mod 60 * 60000000000 + 0 + (v mod 60 * 1000000000 + fr + 0)); [exact R2|]. lia. }
  replace u with (v / 60 / 60 * 3600000000000 + 0 + ((v / 60) mod 60 * 60000000000 + 0 + (v mod 60 * 1000000000 + fr + 0)));
    [|lia].
  refine (readable_cons (v / 60 / 60) [] "h" 3600000000000 0 _ _ Hh0 (Z.le_refl 0) _ _ _ _ (or_intror R2) _);
    [lia|lia|unit_ok|by left|lia].
Qed.
Lemma magnitude_readable u : 0 ≤ u ≤ 2 ^ 63 → readable (magnitude u) u.
Proof.
  intros Hu. destruct (Z.lt_ge_cases u Second) as [Hs|Hs]; [|apply large_readable; lia].
  unfold magnitude. destruct (Z.ltb_spec u Second); [|lia]. destruct (Z.eqb_spec u 0) as [->|H0].
  { split; [done|]. split; [done|]. intros n orig d Hn Hd Hle. assert (2 ≤ n)%nat as Hn2 by exact Hn. destruct n as [|n]; [lia|].
    rewrite (segments_cons n orig _ [] d 0); [by rewrite segments_nil|vm_compute; reflexivity|done|lia..]. }
  destruct (Z.ltb_spec u 1000) as [Hn|Hn].
  { pose proof (readable_cons u [] "ns" 1 0 [] 0) as Hr. cbn [app] in Hr. rewrite app_nil_r in Hr.
    replace (u * 1 + 0 + 0) with u in Hr by lia. apply Hr; [lia..|unit_ok|by left|by left|lia]. }
  destruct (Z.ltb_spec u 1000000) as [Hm|Hm].
  - destruct (fmtFrac micro u 3) as [t v] eqn:E. by apply (small_readable u 3 micro); [|left|unit_ok|].
  - destruct (fmtFrac "ms" u 6) as [t v] eqn:E. by apply (small_readable u 6 "ms"); [|right; left|unit_ok|].
Qed.
(** A duration is read back as it was written, for any 64-bit duration. *)
Lemma ParseDuration_String d : - 2 ^ 63 ≤ d < 2 ^ 63 → ParseDuration (Duration_String d) = Ok d.
Proof.
  intros Hd. destruct (magnitude_readable (Z.abs d)) as (Hs & Hne & Hr); [lia|].
  set (m := magnitude (Z.abs d)) in *. assert (∀ orig, segments (length m) orig m 0 = Ok (Z.abs d)) as Hall.
  { intros orig. rewrite Hr by lia. f_equal. }
  assert ((m == "0") = false) as H0.
  { apply str_eqb_neq. intros E. specialize (Hall []). rewrite E in Hall. vm_compute in Hall. discriminate Hall. }
  assert ((m == "") = false) as Hnil by (by apply str_eqb_neq).
  unfold Duration_String, ParseDuration. fold m. destruct (Z.ltb_spec d 0) as [Hneg|Hpos].
  - rewrite beq_refl, H0, Hnil, Hall. cbn [mbind result_bind]. f_equal. lia.
  - assert ((match m with
      | c :: t => if beq c dash then (true, t) else if beq c (chr 43) then (false, t) else (false, m)
      | [] => (false, m) end) = (false, m)) as ->.
    { destruct m as [|c t]; [done|]. cbn in Hs. destruct (beq_spec c dash) as [->|_]; [done|].
      destruct (beq_spec c (chr 43)) as [->|_]; done. }
    rewrite H0, Hnil, Hall. cbn [mbind result_bind]. destruct (Z.ltb_spec (2 ^ 63 - 1) (Z.abs d)); [lia|]. cbn.
    f_equal. lia.
Qed.
