(* ===== verification/Discovery.v ===== *)
(** * Discovery: which DNS servers the host uses, and which of them a name is sent to
    (src/internal/dns/discovery.go, discovery_linux.go, discovery_darwin.go,
    resolved_properties.go)

    The D-Bus values of github.com/godbus/dbus and the reader of resolv.conf of
    github.com/miekg/dns are not part of the repository: they are the operations of the
    class [DBus] and fields of the environment [LinuxEnv]. *)
From S2P Require Import Prelude Strs NetIP.

Record Group := mkGroup {
  GServers : list str; GDomains : list str; GInterface : Z; GPriority : Z; GDefault : bool }.
Record Discovery := mkDiscovery { DSource : str; DRouting : str; DGroups : list Group }.
#[global] Instance Group_eq_dec : EqDecision Group.
Proof. solve_decision. Defined.
Definition set_Servers (g : Group) (s : list str) : Group :=
  mkGroup s (GDomains g) (GInterface g) (GPriority g) (GDefault g).
Definition empty_Group : Group := mkGroup [] [] 0 0 false.

(** ** Local addresses and usable servers *)
(** [net.InterfaceAddrs] gives the addresses as text. *)
Definition LocalAddresses (addrs : result (list str)) : result (list Addr) :=
  l ← addrs : result (list str);
  Ok (omap (M := list) (λ a, match ParsePrefix a with
                 | Some p => if Is4 (pfx_addr p) then Some (pfx_addr p) else None
                 | None => None
                 end) l).
Definition usable_server (local : list Addr) (s : str) : bool :=
  match ParseAddrPort s with
  | Some a =>
      Is4 (ap_addr a) && negb (IsLoopback (ap_addr a)) && negb (IsUnspecified (ap_addr a))
      && negb (IsMulticast (ap_addr a)) && negb (bool_decide (ap_addr a ∈ local))
  | None => false
  end.
Definition usable (addrs : result (list str)) (d : Discovery) : result Discovery :=
  local ← LocalAddresses addrs;
  let groups := map (λ g, set_Servers g (List.filter (usable_server local) (GServers g))) (DGroups d) in
  let count := length (mjoin (map GServers groups)) in
  _ ← guard_err (count =? 0)%nat (errors_New
        "auto DNS found no usable IPv4 upstream; configure --dns IPv4:port for an opaque local DNS stub");
  Ok (mkDiscovery (DSource d) (DRouting d) groups).

(** ** The output of scutil --dns *)
(** [bufio.Scanner] with a buffer of at most 1 MiB: the lines before the first one that
    does not fit, and whether there is such a line. *)
Definition max_token : nat := 1024 * 1024.
Fixpoint scan_lines (max : nat) (ls : list str) : list str * bool :=
  match ls with
  | [] => ([], false)
  | l :: ls' => if (max <=? length l)%nat then ([], true)
                else let '(r, e) := scan_lines max ls' in (l :: r, e)
  end.

Section Scutil.
Context `{Unicode}.

Record scutil := mkScutil {
  sc_groups : list Group; sc_group : option Group; sc_mdns : bool; sc_port : Z; sc_header : bool }.
Definition scutil_init : scutil := mkScutil [] None false 53 false.
Definition flush (s : scutil) : scutil :=
  let groups :=
    match sc_group s with
    | Some g =>
        if sc_mdns s then sc_groups s
        else sc_groups s ++
             [mkGroup (map (λ a, JoinHostPort a (Itoa (sc_port s))) (GServers g)) (GDomains g)
                      (GInterface g) (GPriority g) (length (GDomains g) =? 0)%nat]
    | None => sc_groups s
    end in
  mkScutil groups None false 53 (sc_header s).
Definition with_group (s : scutil) (g : Group) : scutil :=
  mkScutil (sc_groups s) (Some g) (sc_mdns s) (sc_port s) (sc_header s).

(** The [switch] on one "key : value" line of the resolver [g]. *)
Definition scutil_key (s : scutil) (g : Group) (key value : str) : result scutil :=
  if HasPrefix key "nameserver[" then
    match ParseAddr value with
    | Some a => if Is4 a
                then Ok (with_group s (set_Servers g (GServers g ++ [AddrString a])))
                else Ok s
    | None => Ok s
    end
  else if key == "domain" then
    Ok (with_group s (mkGroup (GServers g) (GDomains g ++ [TrimSuffix (ToLower value) "."])
                              (GInterface g) (GPriority g) (GDefault g)))
  else if key == "if_index" then
    match Fields value with
    | [] => Err (errors_New "empty scutil interface")
    | p :: _ =>
        match Atoi p with
        | None => Err (errors_New "invalid scutil interface: invalid syntax")
        | Some n => Ok (with_group s (mkGroup (GServers g) (GDomains g) n (GPriority g) (GDefault g)))
        end
    end
  else if key == "port" then
    match Atoi value with
    | Some n =>
        if (n <? 1) || (65535 <? n) then Err (errors_New "invalid scutil DNS port")
        else Ok (mkScutil (sc_groups s) (sc_group s) (sc_mdns s) n (sc_header s))
    | None => Err (errors_New "invalid scutil DNS port")
    end
  else if key == "order" then
    match Atoi value with
    | Some n => Ok (with_group s (mkGroup (GServers g) (GDomains g) (GInterface g) n (GDefault g)))
    | None => Err (errors_New "strconv.Atoi: invalid syntax")
    end
  else if (key == "options") && Contains value "mdns" then
    Ok (mkScutil (sc_groups s) (sc_group s) true (sc_port s) (sc_header s))
  else Ok s.

(** The scanning loop; it stops at the scoped queries. *)
Fixpoint scutil_lines (s : scutil) (lines : list str) : result scutil :=
  match lines with
  | [] => Ok s
  | text :: lines' =>
      let line := TrimSpace text in
      if HasPrefix line "DNS configuration (for scoped queries)" then Ok s
      else if HasPrefix line "resolver #" then
        let s := flush s in
        scutil_lines (mkScutil (sc_groups s) (Some empty_Group) (sc_mdns s) (sc_port s) true) lines'
      else
        match sc_group s with
        | None => scutil_lines s lines'
        | Some g =>
            match Cut line colon with
            | (_, _, false) => scutil_lines s lines'
            | (key, value, true) =>
                s ← scutil_key s g (TrimSpace key) (TrimSpace value);
                scutil_lines s lines'
            end
        end
  end.
(** The scanner's error is only reached when the loop ran to the end of its lines. *)
Definition stops_early (lines : list str) : bool :=
  existsb (λ l, HasPrefix (TrimSpace l) "DNS configuration (for scoped queries)") lines.

Definition ParseScutil (text : str) : result Discovery :=
  let '(lines, toolong) := scan_lines max_token (Split text nl) in
  s ← scutil_lines scutil_init lines;
  let s := flush s in
  _ ← guard_err (toolong && negb (stops_early lines)) (errors_New "bufio.Scanner: token too long");
  _ ← guard_err (negb (sc_header s) || (length (sc_groups s) =? 0)%nat)
        (errors_New "unrecognized or empty macOS DNS configuration");
  Ok (mkDiscovery "scutil --dns" "domain-aware" (sc_groups s)).

(** ** [Select] *)
Definition domain_score (name domain : str) (score : Z) : Z :=
  let domain := ToLower domain in
  let domain := TrimPrefix domain "~" in
  let domain := TrimSuffix domain "." in
  if domain == "" then Z.max score 0
  else if (name == domain) || HasSuffix name ("." ++ domain)
  then Z.max score (Z.of_nat (length (Split domain dot)))
  else score.
Definition group_score (name : str) (g : Group) : Z :=
  fold_left (λ score domain, domain_score name domain score) (GDomains g) (-1).

Record selection := mkSel { best : Z; priority : Z; matched : list Group }.
Definition select_step (name : str) (st : selection) (g : Group) : selection :=
  let score := group_score name g in
  if score <? 0 then st
  else
    let st := if (best st <? score) || ((score =? best st) && (GPriority g <? priority st))
              then mkSel score (GPriority g) [] else st in
    if (score =? best st) && (GPriority g =? priority st)
    then mkSel (best st) (priority st) (matched st ++ [g]) else st.
Definition default_step (st : selection) (g : Group) : selection :=
  if GDefault g then
    let st := if GPriority g <? priority st then mkSel (best st) (GPriority g) [] else st in
    if GPriority g =? priority st then mkSel (best st) (priority st) (matched st ++ [g]) else st
  else st.
Definition Select (groups : list Group) (name : str) : list Group :=
  let name := TrimSuffix (ToLower name) "." in
  let st := fold_left (select_step name) groups (mkSel (-1) max_int64 []) in
  if 0 <=? best st then matched st
  else matched (fold_left default_step groups st).
End Scutil.

(** ** systemd-resolved *)
(** Decoded entries of the properties DNS, DNSEx and Domains; [re_index] is only in the
    Manager's properties, the port only in DNSEx. *)
Record resolvedDNS := mkEntry { re_index : Z; re_family : Z; re_address : str; re_port : Z }.
Record resolvedDomain := mkRDomain { rd_index : Z; rd_name : str; rd_route_only : bool }.
Definition AF_INET : Z := 2.

(** [dbus.Variant] and [dbus.Store] at the types the code uses: the entries of a Link's or
    of the Manager's property, DNSEx or DNS. A field the target struct lacks is 0. *)
Inductive iface := Link | Manager.
Class DBus := {
  Variant : Type;
  v_string : Variant → option str;
  v_bool : Variant → option bool;
  store_dnsex : iface → Variant → result (list resolvedDNS);
  store_dns : iface → Variant → result (list resolvedDNS);
  store_domains : iface → Variant → result (list resolvedDomain) }.

Section Resolved.
Context `{Unicode, DBus}.
Definition props := gmap String.string Variant.

Definition dot_mandatory (p : props) : bool :=
  match p !! "DNSOverTLS"%string with
  | Some v => bool_decide (v_string v = Some ("yes" : str))
  | None => false
  end.
(** [net.JoinHostPort(net.IP(s.Address).String(), ...)] of a four-byte address. *)
Definition ip_string (address : str) : str := AddrString (V4 (be_value 256 (map code address))).
Definition entry_server (default_port : bool) (s : resolvedDNS) : str :=
  JoinHostPort (ip_string (re_address s))
    (if default_port then "53" else Itoa (if re_port s =? 0 then 53 else re_port s)).
Definition entry_v4 (s : resolvedDNS) : bool :=
  (re_family s =? AF_INET) && (length (re_address s) =? 4)%nat.
(** The DNSEx property if present, else DNS. *)
Definition entry_servers (i : iface) (keep : resolvedDNS → bool) (p : props) : result (list str) :=
  match p !! "DNSEx"%string with
  | Some v => servers ← store_dnsex i v; Ok (map (entry_server false) (List.filter keep servers))
  | None =>
      match p !! "DNS"%string with
      | Some v => servers ← store_dns i v; Ok (map (entry_server true) (List.filter keep servers))
      | None => Ok []
      end
  end.

Definition linkGroup (p : props) (index : Z) : result Group :=
  _ ← guard_err (dot_mandatory p)
        (errors_New "mandatory DNS-over-TLS is unsupported; provide a suitable manual DNS server");
  let default := match p !! "DefaultRoute"%string with
                 | Some v => default false (v_bool v)
                 | None => false
                 end in
  servers ← entry_servers Link entry_v4 p;
  domains ← match p !! "Domains"%string with
            | Some v => ds ← store_domains Link v; Ok (map rd_name ds)
            | None => Ok []
            end;
  Ok (mkGroup servers domains index 0 default).

Definition managerGroup (p : props) : result Group :=
  servers ← entry_servers Manager (λ s, (re_index s =? 0) && entry_v4 s) p;
  domains ← match p !! "Domains"%string with
            | Some v => ds ← store_domains Manager v;
                        Ok (map (λ d, ToLower (rd_name d)) (List.filter (λ d, rd_index d =? 0) ds))
            | None => Ok []
            end;
  Ok (mkGroup servers domains 0 0 true).

(** The bus: the properties of an object, and the Manager's GetLink. *)
Record BusObject := mkBus {
  GetAll : str → str → result props;
  GetLink : Z → result str;
  Interfaces : result (list (Z * str)) }.
Definition nonempty_group (g : Group) : bool :=
  (0 <? length (GServers g))%nat || (0 <? length (GDomains g))%nat.

Fixpoint resolved_links (bus : BusObject) (groups : list Group) (links : list (Z * str))
    : result (list Group) :=
  match links with
  | [] => Ok groups
  | (index, name) :: links' =>
      match GetLink bus index with
      | Err e =>
          if errors_Is e NoSuchLink then resolved_links bus groups links'
          else Err (Errorf_w ("get DNS link " ++ name ++ ": ") e)
      | Ok path =>
          match GetAll bus path "org.freedesktop.resolve1.Link" with
          | Err e => Err (Errorf_w ("read DNS link " ++ name ++ ": ") e)
          | Ok p =>
              match linkGroup p index with
              | Err e => Err (Errorf_w ("link " ++ name ++ ": ") e)
              | Ok g => resolved_links bus (if nonempty_group g then groups ++ [g] else groups) links'
              end
          end
      end
  end.
Definition resolvedDiscovery (bus : BusObject) : result Discovery :=
  p ← GetAll bus "/org/freedesktop/resolve1" "org.freedesktop.resolve1.Manager";
  _ ← guard_err (dot_mandatory p) (errors_New "mandatory DNS-over-TLS is unsupported");
  g ← managerGroup p;
  let groups := if nonempty_group g then [g] else [] in
  match Interfaces bus with
  | Err e => Err (Errorf_w "enumerate DNS interfaces: " e)
  | Ok links =>
      groups ← resolved_links bus groups links;
      Ok (mkDiscovery "org.freedesktop.resolve1" "domain-aware" groups)
  end.

(** ** [Discover] on Linux and on macOS *)
Record LinuxEnv := mkLinuxEnv {
  resolv_conf_path : str;                           (* EvalSymlinks of /etc/resolv.conf *)
  stub_exists : bool;
  SystemBus : result (result bool * BusObject);     (* NameHasOwner, the resolve1 objects *)
  ClientConfig : result (list str * str);           (* servers and port of resolv.conf *)
  InterfaceAddrs : result (list str) }.
(** [net.ParseIP(s)] and [To4]. *)
Definition ParseIP_To4 (s : str) : bool :=
  match ParseAddr s with
  | Some (V4 _) => true
  | Some (V6 v z) => (length z =? 0)%nat && Is4In6 (V6 v z)
  | _ => false
  end.
Definition Discover (env : LinuxEnv) : result Discovery :=
  let known := Contains (resolv_conf_path env) "/systemd/resolve/" || stub_exists env in
  let fallback :=
    if known then Err (errors_New "systemd-resolved routing configuration unavailable; refusing flat/stub fallback; configure manual DNS")
    else
      '(servers, port) ← ClientConfig env;
      usable (InterfaceAddrs env)
        (mkDiscovery "/etc/resolv.conf" "default-only"
           [mkGroup (map (λ s, JoinHostPort s port) (List.filter ParseIP_To4 servers)) [] 0 0 true]) in
  match SystemBus env with
  | Ok (Ok true, bus) => d ← resolvedDiscovery bus; usable (InterfaceAddrs env) d
  | _ => fallback
  end.
Definition Discover_darwin (scutil : result str) (addrs : result (list str)) : result Discovery :=
  match scutil with
  | Err e => Err (Errorf_w "scutil DNS discovery: " e)
  | Ok b => d ← ParseScutil b; usable addrs d
  end.
End Resolved.

(** ** The routing specification *)
(** A domain without case, route-only mark and final dot, and its labels. *)
Definition norm_domain `{Unicode} (domain : str) : str :=
  TrimSuffix (TrimPrefix (ToLower domain) "~") ".".
Definition norm_name `{Unicode} (name : str) : str := TrimSuffix (ToLower name) ".".
Definition labels (d : str) : list str := match d with [] => [] | _ => Split d dot end.
(** [name] lies at or under [domain]. *)
Definition under `{Unicode} (name domain : str) : Prop :=
  labels (norm_domain domain) `suffix_of` labels (norm_name name).
#[global] Instance under_dec `{Unicode} name domain : Decision (under name domain).
Proof. unfold under. apply _. Defined.
(** The depth of the longest of the group's domains the name lies under; -1 if none. *)
Definition depth `{Unicode} (name : str) (g : Group) : Z :=
  foldr Z.max (-1) (map (λ d, if bool_decide (under name d)
                              then Z.of_nat (length (labels (norm_domain d))) else -1) (GDomains g)).
(** The groups a name goes to: among those with a domain it lies under, the ones with the
    longest such domain and among these the least priority value; the default groups of
    least priority value only if no group has one. *)
Definition chosen `{Unicode} (groups : list Group) (name : str) (g : Group) : Prop :=
  (0 ≤ depth name g ∧
   Forall (λ g', depth name g' < depth name g
                 ∨ depth name g' = depth name g ∧ GPriority g ≤ GPriority g') groups)
  ∨ (Forall (λ g', depth name g' < 0) groups ∧ GDefault g = true ∧
     Forall (λ g', GDefault g' = true → GPriority g ≤ GPriority g') groups).
#[global] Instance chosen_dec `{Unicode} groups name g : Decision (chosen groups name g).
Proof. unfold chosen. apply _. Defined.

(** ** Lemmas: [Select] *)
Lemma Split_app_dot a b c : Split (a ++ c :: b) c = Split a c ++ Split b c.
Proof.
  induction a as [|x a IH]; simpl; [by rewrite beq_refl|].
  destruct (beq x c) eqn:E; [by rewrite IH|]. rewrite IH.
  destruct (Split a c) as [|y l] eqn:Ea; [by apply Split_nonempty in Ea|done].
Qed.
Lemma Join_app (l k : list str) (sep : str) : l ≠ [] → k ≠ [] → Join (l ++ k) sep = Join l sep ++ sep ++ Join k sep.
Proof.
  intros Hl Hk. induction l as [|x l IH]; [done|]. destruct l as [|y l].
  - destruct k; [done|]. simpl. done.
  - simpl in IH |- *. rewrite IH by done. by rewrite <- !app_assoc.
Qed.
Lemma suffix_labels (name domain : str) :
  domain ≠ [] →
  (name == domain) || HasSuffix name ("." ++ domain) = true ↔
  labels domain `suffix_of` labels name.
Proof.
  intros Hd. rewrite orb_true_iff, str_eqb_eq, HasSuffix_spec.
  change (String.list_ascii_of_string ".") with [dot].
  assert (labels domain = Split domain dot) as -> by (by destruct domain).
  split.
  - intros [-> | [r ->]]; [by destruct domain|].
    exists (Split r dot). simpl. rewrite <- Split_app_dot. unfold labels.
    by destruct r.
  - intros [k Hk]. destruct name as [|c name].
    { simpl in Hk. symmetry in Hk. apply app_eq_nil in Hk as [_ Hk]. by apply Split_nonempty in Hk. }
    change (labels (c :: name)) with (Split (c :: name) dot) in Hk.
    rewrite <- (Join_Split (c :: name) dot), <- (Join_Split domain dot), Hk.
    destruct k as [|x k]; [by left|]. right. exists (Join (x :: k) [dot]).
    rewrite Join_app by (done || apply Split_nonempty). by rewrite Join_Split.
Qed.

Section SelectLemmas.
Context `{Unicode}.
Lemma domain_score_spec name domain score :
  domain_score (norm_name name) domain score
  = Z.max score (if bool_decide (under name domain)
                 then Z.of_nat (length (labels (norm_domain domain))) else score).
Proof.
  unfold domain_score. fold (norm_domain domain).
  destruct (str_eqb_spec (norm_domain domain) "") as [E|Hd].
  - rewrite bool_decide_true by (unfold under; rewrite E; apply suffix_nil).
    rewrite E. done.
  - pose proof (suffix_labels (norm_name name) _ Hd) as Hs. fold (under name domain) in Hs.
    destruct (_ || _).
    + rewrite bool_decide_true by (by apply Hs). unfold labels. by destruct (norm_domain domain).
    + rewrite bool_decide_false by (by intros ?%Hs). lia.
Qed.
Lemma depth_ge name g : -1 ≤ depth name g.
Proof. unfold depth. induction (GDomains g) as [|d l IH]; cbn [map foldr]; lia. Qed.
Lemma group_score_spec name g : group_score (norm_name name) g = depth name g.
Proof.
  unfold group_score, depth.
  assert (∀ z, -1 ≤ z → fold_left (λ score domain, domain_score (norm_name name) domain score) (GDomains g) z
    = Z.max z (foldr Z.max (-1) (map (λ d, if bool_decide (under name d)
               then Z.of_nat (length (labels (norm_domain d))) else -1) (GDomains g)))) as E.
  { induction (GDomains g) as [|d l IH]; intros z Hz; simpl; [lia|].
    rewrite IH, domain_score_spec; [|rewrite domain_score_spec; lia].
    case_bool_decide; lia. }
  rewrite E by lia. pose proof (depth_ge name g). unfold depth in *. lia.
Qed.
(** The first loop: what it has kept of the groups it has seen. *)
Record best_of (name : str) (seen : list Group) (st : selection) : Prop := {
  bo_none : best st < 0 → st = mkSel (-1) max_int64 [] ∧ Forall (λ g, depth name g < 0) seen;
  bo_some : 0 ≤ best st →
    (∃ g, g ∈ seen ∧ depth name g = best st ∧ GPriority g = priority st) ∧
    Forall (λ g, depth name g < best st ∨ depth name g = best st ∧ priority st ≤ GPriority g) seen ∧
    matched st = base.filter (λ g, depth name g = best st ∧ GPriority g = priority st) seen }.

Lemma filter_snoc {A} (P : A → Prop) `{!∀ x, Decision (P x)} l x :
  base.filter P (l ++ [x]) = base.filter P l ++ (if decide (P x) then [x] else []).
Proof. by rewrite filter_app, filter_cons, filter_nil. Qed.
Lemma filter_none {A} (P : A → Prop) `{!∀ x, Decision (P x)} l :
  Forall (λ x, ¬ P x) l → base.filter P l = [].
Proof.
  induction 1 as [|x l Hx _ IH]; [done|]. by rewrite filter_cons_False.
Qed.

Lemma elem_of_snoc {A} (x : A) l : x ∈ l ++ [x].
Proof. rewrite elem_of_app, list_elem_of_singleton. by right. Qed.
Lemma Forall_snoc {A} (P : A → Prop) l x : Forall P l → P x → Forall P (l ++ [x]).
Proof. intros. apply Forall_app_2; [done|by apply Forall_singleton]. Qed.
Lemma list_filter_iff' {A} (P Q : A → Prop) `{!∀ x, Decision (P x), !∀ x, Decision (Q x)} l :
  Forall (λ x, P x ↔ Q x) l → base.filter P l = base.filter Q l.
Proof.
  induction 1 as [|x l Hx _ IH]; [done|]. rewrite !filter_cons, IH.
  destruct (decide (P x)), (decide (Q x)); naive_solver.
Qed.

Lemma select_step_inv name seen st g :
  best_of name seen st → best_of name (seen ++ [g]) (select_step (norm_name name) st g).
Proof.
  intros [Hn Hs]. unfold select_step. rewrite group_score_spec.
  destruct (Z.ltb_spec (depth name g) 0) as [Hneg|Hpos]; [|destruct (_ || _) eqn:Ec].
  - split.
    + intros Hb. destruct (Hn Hb) as [-> ?]. split; [done|]. by apply Forall_snoc.
    + intros Hb. destruct (Hs Hb) as ((g' & Hin & ? & ?) & ? & Hm). split_and!.
      * exists g'. rewrite elem_of_app. naive_solver.
      * apply Forall_snoc; [done|lia].
      * rewrite filter_snoc, decide_False, app_nil_r; [done|lia].
  - rewrite !Z.eqb_refl. split; simpl; [lia|]. intros _.
    assert (Forall (λ g0, depth name g0 < depth name g
       ∨ depth name g0 = depth name g ∧ GPriority g < GPriority g0) seen) as Hlt.
    { destruct (Z.lt_ge_cases (best st) 0) as [Hb|Hb].
      - destruct (Hn Hb) as [_ HF]. eapply Forall_impl; [exact HF|]. simpl. lia.
      - destruct (Hs Hb) as (_ & HF & _). eapply Forall_impl; [exact HF|]. simpl.
        apply orb_true_iff in Ec as [Ec|Ec]; bools; lia. }
    split_and!; [by exists g; split; [apply elem_of_snoc|]| |].
    + apply Forall_snoc; [|lia]. eapply Forall_impl; [exact Hlt|]. simpl. lia.
    + rewrite filter_snoc, decide_True by done. rewrite filter_none; [done|].
      eapply Forall_impl; [exact Hlt|]. simpl. lia.
  - apply orb_false_iff in Ec as [Eb Ep]. bools.
    assert (0 ≤ best st) as Hb by lia. destruct (Hs Hb) as ((g' & Hin & ? & ?) & HF & Hm).
    assert (g' ∈ seen ++ [g]) as Hin' by (rewrite elem_of_app; by left).
    destruct ((depth name g =? best st) && (GPriority g =? priority st)) eqn:Ea.
    + bools. split; simpl; [lia|]. intros _. split_and!; [by exists g'|apply Forall_snoc; [done|lia]|].
      rewrite filter_snoc, decide_True by done. by rewrite Hm.
    + split; [lia|]. intros _. assert (depth name g ≠ best st ∨ GPriority g ≠ priority st) as Hne
        by (apply andb_false_iff in Ea as [Ea|Ea]; bools; auto).
      split_and!; [by exists g'|apply Forall_snoc; [done|]|].
      * apply andb_false_iff in Ep as [Ep|Ep]; bools; lia.
      * rewrite filter_snoc, decide_False, app_nil_r; [done|lia].
Qed.

(** The second loop, over the default groups. *)
Record default_of (seen : list Group) (st : selection) : Prop := {
  do_none : Forall (λ g, GDefault g = false) seen → st = mkSel (-1) max_int64 [];
  do_some : Exists (λ g, GDefault g = true) seen →
    (∃ g, g ∈ seen ∧ GDefault g = true ∧ GPriority g = priority st) ∧
    Forall (λ g, GDefault g = true → priority st ≤ GPriority g) seen ∧
    matched st = base.filter (λ g, GDefault g = true ∧ GPriority g = priority st) seen }.

(** The first default group is kept; a later one is compared with what is kept. *)
Lemma default_step_first seen st g :
  GPriority g ≤ max_int64 → Forall (λ g, GDefault g = false) seen → default_of seen st →
  default_of (seen ++ [g]) (default_step st g).
Proof.
  intros Hg HF [Hn _]. unfold default_step. rewrite (Hn HF). destruct (GDefault g) eqn:Ed.
  - assert (default_of (seen ++ [g]) (mkSel (-1) (GPriority g) [g])) as Hd.
    { split; simpl.
      - intros Hf. apply Forall_app in Hf as [_ Hf]. rewrite Forall_singleton in Hf. congruence.
      - intros _. split_and!; [by exists g; split; [apply elem_of_snoc|]| |].
        + apply Forall_snoc; [|lia]. eapply Forall_impl; [exact HF|]. simpl. congruence.
        + rewrite filter_snoc, decide_True by done. rewrite filter_none; [done|].
          eapply Forall_impl; [exact HF|]. simpl. intros x Hx [? _]. congruence. }
    cbn [priority best matched].
    destruct (Z.ltb_spec (GPriority g) max_int64); cbn [priority best matched].
    + by rewrite Z.eqb_refl.
    + replace (GPriority g) with max_int64 in * by lia. by rewrite Z.eqb_refl.
  - split; simpl; [done|]. intros Hx. apply Exists_app in Hx as [Hx|Hx].
    + apply Exists_exists in Hx as (x & Hx & ?). rewrite Forall_forall in HF.
      specialize (HF x Hx). congruence.
    + inversion Hx as [? ? Hx'|? ? Hx']; subst; [congruence|by inversion Hx'].
Qed.
Lemma default_step_later seen st g :
  Exists (λ g, GDefault g = true) seen → default_of seen st → default_of (seen ++ [g]) (default_step st g).
Proof.
  intros Hx [_ Hs]. unfold default_step. destruct (Hs Hx) as ((g' & Hin & Hd' & Hp') & HF & Hm).
  assert (g' ∈ seen ++ [g]) as Hin' by (rewrite elem_of_app; by left).
  assert (∀ st', (∃ g0, g0 ∈ seen ++ [g] ∧ GDefault g0 = true ∧ GPriority g0 = priority st') →
    Forall (λ g0, GDefault g0 = true → priority st' ≤ GPriority g0) (seen ++ [g]) →
    matched st' = base.filter (λ g0, GDefault g0 = true ∧ GPriority g0 = priority st') (seen ++ [g]) →
    default_of (seen ++ [g]) st') as Hintro.
  { intros st' ???. split; [|done]. intros Hf. rewrite Forall_forall in Hf. specialize (Hf _ Hin'). congruence. }
  destruct (GDefault g) eqn:Ed; [destruct (Z.ltb_spec (GPriority g) (priority st)) as [Hlt|Hge]|].
  - cbn [priority best matched]. rewrite Z.eqb_refl. apply Hintro; simpl.
    + exists g. split; [apply elem_of_snoc|done].
    + apply Forall_snoc; [|lia]. eapply Forall_impl; [exact HF|]. simpl. intros x Hx' ?. specialize (Hx' ltac:(done)). lia.
    + rewrite filter_snoc, decide_True by done. rewrite filter_none; [done|].
      eapply Forall_impl; [exact HF|]. simpl. intros x Hx' [? ?]. specialize (Hx' ltac:(done)). lia.
  - assert (Forall (λ g0, GDefault g0 = true → priority st ≤ GPriority g0) (seen ++ [g])) as HF' by (by apply Forall_snoc).
    destruct (Z.eqb_spec (GPriority g) (priority st)) as [E|E]; apply Hintro; simpl; try done; try (by exists g').
    + rewrite filter_snoc, decide_True by done. by rewrite Hm.
    + rewrite filter_snoc, decide_False, app_nil_r by naive_solver. done.
  - apply Hintro; [by exists g'|apply Forall_snoc; [done|congruence]|].
    rewrite filter_snoc, decide_False, app_nil_r; [done|]. intros [? _]. congruence.
Qed.
Lemma default_step_inv seen st g :
  GPriority g ≤ max_int64 → default_of seen st → default_of (seen ++ [g]) (default_step st g).
Proof.
  intros Hg Hd. destruct (Forall_Exists_dec (λ g, GDefault g = false) (λ g, ¬ GDefault g = false)
    (λ g, decide _) seen) as [HF|HE]; [by apply default_step_first|].
  apply default_step_later; [|done]. eapply Exists_impl; [exact HE|]. intros x. simpl. by destruct (GDefault x).
Qed.

Lemma select_loop_inv name groups :
  best_of name groups (fold_left (select_step (norm_name name)) groups (mkSel (-1) max_int64 [])).
Proof.
  induction groups as [|g l IH] using rev_ind.
  - split; simpl; [|lia]. intros _. split; [done|]. by apply Forall_nil.
  - rewrite fold_left_app. by apply select_step_inv.
Qed.
Lemma default_loop_inv groups :
  Forall (λ g, GPriority g ≤ max_int64) groups →
  default_of groups (fold_left default_step groups (mkSel (-1) max_int64 [])).
Proof.
  induction groups as [|g l IH] using rev_ind; intros HF.
  - split; [done|]. intros Hx. by inversion Hx.
  - apply Forall_app in HF as [? Hg]. rewrite Forall_singleton in Hg.
    rewrite fold_left_app. apply default_step_inv; [done|]. by apply IH.
Qed.
End SelectLemmas.

(** ** Lemmas: [usable] and [Select] *)
(** Functions that touch neither the domains, the priority nor the default mark. *)
Definition keeps_routing (f : Group → Group) : Prop :=
  ∀ g, GDomains (f g) = GDomains g ∧ GPriority (f g) = GPriority g ∧ GDefault (f g) = GDefault g.
Definition sel_map (f : Group → Group) (st : selection) : selection :=
  mkSel (best st) (priority st) (map f (matched st)).
Lemma fold_left_sim {A} (step : selection → A → selection) (f : A → A) (h : selection → selection) l st :
  (∀ st x, step (h st) (f x) = h (step st x)) → fold_left step (map f l) (h st) = h (fold_left step l st).
Proof. intros Hs. revert st. induction l as [|x l IH]; intros st; simpl; [done|]. by rewrite Hs, IH. Qed.
Lemma Select_map `{Unicode} f groups name :
  keeps_routing f → Select (map f groups) name = map f (Select groups name).
Proof.
  intros Hf. unfold Select. set (step := select_step _). set (st0 := mkSel _ _ _).
  assert (fold_left step (map f groups) st0 = sel_map f (fold_left step groups st0)) as E.
  { apply (fold_left_sim step f (sel_map f) groups st0). unfold step.
    intros [b p m] g. destruct (Hf g) as (Hd & Hp & _). unfold select_step, group_score.
    rewrite Hd, Hp. cbn [best priority matched sel_map]. cbv zeta.
    destruct (_ <? 0); [done|]. destruct (_ || _); cbn [best priority matched sel_map];
      (destruct (_ && _); [|done]); unfold sel_map; cbn [best priority matched map app];
      by rewrite ?map_app. }
  rewrite E. set (st := fold_left step groups st0). cbv zeta. cbn [best sel_map].
  destruct (0 <=? best st); [done|]. rewrite (fold_left_sim default_step f (sel_map f)); [done|].
  intros [b p m] g. destruct (Hf g) as (_ & Hp & Hd). unfold default_step. rewrite Hd, Hp.
  cbn [best priority matched sel_map]. cbv zeta. destruct (GDefault g); [|done].
  destruct (_ <? _); cbn [best priority matched sel_map];
    (destruct (_ =? _); [|done]); unfold sel_map; cbn [best priority matched map app];
    by rewrite ?map_app.
Qed.
Definition only_usable (local : list Addr) (g : Group) : Group :=
  set_Servers g (List.filter (usable_server local) (GServers g)).

(** ** Lemmas: scutil *)
(** A server the parser produces: an IPv4 address and a port in range. *)
Definition scutil_server (s : str) : Prop :=
  ∃ v p, s = JoinHostPort (v4_string v) (Itoa p) ∧ 1 ≤ p ≤ 65535.
Definition scutil_group (g : Group) : Prop :=
  Forall scutil_server (GServers g) ∧ (GDefault g = true ↔ GDomains g = []).
Record scutil_inv (s : scutil) : Prop := {
  si_groups : Forall scutil_group (sc_groups s);
  si_port : 1 ≤ sc_port s ≤ 65535;
  si_group : ∀ g, sc_group s = Some g → Forall (λ a, ∃ v, a = v4_string v) (GServers g) }.
Lemma flush_inv s : scutil_inv s → scutil_inv (flush s).
Proof.
  intros [Hg Hp Hs]. unfold flush. split; simpl; [|lia|done].
  destruct (sc_group s) as [g|]; [|done]. destruct (sc_mdns s); [done|].
  apply Forall_app_2; [done|]. apply Forall_singleton. split; simpl.
  - specialize (Hs g eq_refl). apply Forall_fmap. eapply Forall_impl; [exact Hs|].
    intros a [v ->]. by exists v, (sc_port s).
  - rewrite Nat.eqb_eq. apply length_zero_iff_nil.
Qed.
Lemma scutil_key_inv `{Unicode} s g key value s' :
  sc_group s = Some g → scutil_inv s → scutil_key s g key value = Ok s' → scutil_inv s'.
Proof.
  intros Eg [Hg Hp Hs] Hk. specialize (Hs g Eg) as Hgs. unfold scutil_key, with_group in Hk.
  repeat case_match; simplify_eq; bools; split; simpl; try done; try lia;
    intros g'; rewrite ?Eg; intros [= <-]; simpl; try done.
  apply Forall_app_2; [done|]. apply Forall_singleton.
  match goal with a : Addr |- _ => destruct a; try done end. by eexists.
Qed.
Lemma scutil_lines_inv `{Unicode} lines s s' :
  scutil_inv s → scutil_lines s lines = Ok s' → scutil_inv s'.
Proof.
  revert s. induction lines as [|l lines IH]; intros s Hs Hl; simpl in Hl; [by simplify_eq|].
  destruct (HasPrefix _ _); [by simplify_eq|]. destruct (HasPrefix _ _).
  { apply IH in Hl; [done|]. apply flush_inv in Hs as [? ? ?].
    split; simpl; try done. by intros g [= <-]. }
  destruct (sc_group s) as [g|] eqn:Eg; [|by eapply IH].
  destruct (Cut _ _) as [[key value] []]; [|by eapply IH].
  apply bind_Ok in Hl as (s1 & Hk & Hl). eapply IH; [|done]. by eapply scutil_key_inv.
Qed.
Lemma scutil_lines_stop `{Unicode} a s l b :
  HasPrefix (TrimSpace l) "DNS configuration (for scoped queries)" = true →
  scutil_lines s (a ++ l :: b) = scutil_lines s a.
Proof.
  intros Hl. revert s. induction a as [|x a IH]; intros s; simpl; [by rewrite Hl|].
  repeat (case_match; try done). destruct (scutil_key _ _ _ _); [|done]. simpl. apply IH.
Qed.
Lemma scan_lines_app max a b :
  scan_lines max (a ++ b) = (if (scan_lines max a).2 then scan_lines max a
                             else ((scan_lines max a).1 ++ (scan_lines max b).1, (scan_lines max b).2)).
Proof.
  induction a as [|x a IH]; simpl; [by destruct (scan_lines max b)|].
  destruct (_ <=? _)%nat; [done|]. rewrite IH.
  destruct (scan_lines max a) as [r []]; simpl; [done|]. done.
Qed.

(** ** Lemmas: systemd-resolved *)
Section ResolvedLemmas.
Context `{Unicode, DBus}.
(** The group of one interface: [None] when resolved does not track it. *)
Definition link_group (bus : BusObject) (l : Z * str) : option Group :=
  match GetLink bus l.1 with
  | Ok path =>
      match GetAll bus path "org.freedesktop.resolve1.Link" with
      | Ok p => match linkGroup p l.1 with Ok g => Some g | Err _ => None end
      | Err _ => None
      end
  | Err _ => None
  end.
(** The interface was read in full, or resolved answered that it has no such link. *)
Definition link_read (bus : BusObject) (l : Z * str) : Prop :=
  (∃ e, GetLink bus l.1 = Err e ∧ errors_Is e NoSuchLink = true) ∨
  (∃ path p g, GetLink bus l.1 = Ok path ∧
     GetAll bus path "org.freedesktop.resolve1.Link" = Ok p ∧
     dot_mandatory p = false ∧ linkGroup p l.1 = Ok g).
Lemma resolved_links_spec bus groups links out :
  resolved_links bus groups links = Ok out ↔
  Forall (link_read bus) links ∧
  out = groups ++ List.filter nonempty_group (omap (link_group bus) links).
Proof.
  revert groups. induction links as [|[i n] links IH]; intros groups; csimpl.
  { rewrite app_nil_r. split; [intros [= <-]; split; [by apply Forall_nil|done]|by intros [_ ->]]. }
  rewrite Forall_cons. unfold link_read at 1. unfold link_group at 1. cbn [fst].
  destruct (GetLink bus i) as [path|e] eqn:El.
  2:{ destruct (errors_Is e NoSuchLink) eqn:Ee; [rewrite IH; naive_solver|].
      split; [done|]. intros [[[(? & [= <-] & ?)|(? & ? & ? & ? & _)] _] _]; congruence. }
  destruct (GetAll bus path _) as [p|e] eqn:Ep.
  2:{ split; [done|].
      intros [[[(? & ? & _)|(? & ? & ? & [= <-] & Ep' & _)] _] _]; [done|congruence]. }
  destruct (linkGroup p i) as [g|e] eqn:Eg.
  2:{ split; [done|].
      intros [[[(? & ? & _)|(? & ? & ? & [= <-] & Ep' & _ & Eg')] _] _]; [done|].
      rewrite Ep in Ep'. injection Ep' as <-. congruence. }
  assert (dot_mandatory p = false) as Hd.
  { unfold linkGroup in Eg. by apply bind_Ok in Eg as (_ & Hg%guard_Ok & _). }
  rewrite IH. csimpl. destruct (nonempty_group g).
  - rewrite <- app_assoc. split; [|naive_solver]. intros [? ->].
    split; [split; [right; by eexists _, _, _|done]|done].
  - split; [|naive_solver]. intros [? ->].
    split; [split; [right; by eexists _, _, _|done]|done].
Qed.
End ResolvedLemmas.

(** ** Properties *)
Section Properties.
Context `{Unicode}.

(** C11: [Select] implements the routing specification [chosen]: whatever the groups (with
    priorities that fit an int64), it returns, in their order, exactly the groups whose
    longest domain label-suffix of the name is longest and, among these, whose priority
    value is least, and the default groups of least priority value only when the name
    lies under no domain of any group. *)
Theorem Select_spec groups name :
  Forall (λ g, GPriority g ≤ max_int64) groups →
  Select groups name = base.filter (chosen groups name) groups.
Proof.
  intros HF. unfold Select. fold (norm_name name).
  pose proof (select_loop_inv name groups) as [Hn Hs].
  set (st := fold_left (select_step (norm_name name)) groups _) in *.
  destruct (Z.leb_spec 0 (best st)) as [Hb|Hb].
  - destruct (Hs Hb) as ((g0 & Hin0 & Hd0 & Hp0) & HF' & ->).
    apply list_filter_iff'. rewrite Forall_forall in HF'. apply Forall_forall. intros g Hg.
    unfold chosen. rewrite !Forall_forall. split.
    + intros [Hd Hp]. left. split; [lia|]. intros g' Hg'. specialize (HF' _ Hg'). lia.
    + intros [[Hd Hall]|[Hall _]]; [|specialize (Hall _ Hin0); lia].
      pose proof (Hall _ Hin0). pose proof (HF' _ Hg). lia.
  - destruct (Hn Hb) as [-> Hneg]. pose proof (default_loop_inv _ HF) as [Dn Ds].
    set (st' := fold_left default_step groups _) in *.
    assert (∀ g, g ∈ groups → chosen groups name g ↔ GDefault g = true ∧
      Forall (λ g', GDefault g' = true → GPriority g ≤ GPriority g') groups) as Hch.
    { intros g Hg. unfold chosen. rewrite Forall_forall in Hneg.
      pose proof (Hneg _ Hg). split; [intros [[? _]|(_ & ?)]; [lia|done]|].
      intros ?. right. split; [by apply Forall_forall|done]. }
    destruct (Forall_Exists_dec (λ g, GDefault g = false) (λ g, ¬ GDefault g = false)
              (λ g, decide _) groups) as [Hf|He].
    + rewrite (Dn Hf). symmetry. apply filter_none. apply Forall_forall. intros g Hg Hc.
      apply Hch in Hc as [? _]; [|done]. rewrite Forall_forall in Hf. specialize (Hf _ Hg). congruence.
    + destruct Ds as ((g0 & Hin0 & Hd0 & Hp0) & HF' & ->).
      { eapply Exists_impl; [exact He|]. intros x. simpl. by destruct (GDefault x). }
      apply list_filter_iff', Forall_forall. intros g Hg. rewrite Hch by done.
      rewrite !Forall_forall in *. split.
      * intros [Hd Hp]. split; [done|]. intros g' Hg' Hd'. specialize (HF' _ Hg' Hd'). lia.
      * intros [Hd Hall]. split; [done|]. pose proof (Hall _ Hin0 Hd0). pose proof (HF' _ Hg Hd). lia.
Qed.

(** Dropping unusable servers never reroutes a name: [usable] succeeds only when some
    server is left; what is left are IPv4 servers that are neither loopback, unspecified,
    multicast nor an address of this host; and for every name the groups selected
    afterwards are the groups selected before, less their unusable servers. A private
    domain whose servers are all unusable therefore resolves to no server at all and
    never falls back to the default servers. *)
Theorem usable_keeps_routing addrs local d d' :
  LocalAddresses addrs = Ok local → usable addrs d = Ok d' →
  (∃ g s, g ∈ DGroups d' ∧ s ∈ GServers g) ∧
  (∀ g s, g ∈ DGroups d' → s ∈ GServers g →
     ∃ v p, ParseAddrPort s = Some (mkAddrPort (V4 v) p) ∧ IsLoopback (V4 v) = false ∧
            v ≠ 0 ∧ IsMulticast (V4 v) = false ∧ V4 v ∉ local) ∧
  ∀ name, Select (DGroups d') name = map (only_usable local) (Select (DGroups d) name).
Proof.
  intros Hl Hu. unfold usable in Hu. rewrite Hl in Hu. cbn [mbind result_bind] in Hu.
  apply bind_Ok in Hu as (_ & Hc%guard_Ok & [= <-]). cbn [DGroups]. split_and!.
  - destruct (mjoin _) as [|x l] eqn:E; [done|].
    assert (x ∈ x :: l) as Hx by (left). rewrite <- E in Hx.
    apply list_elem_of_join in Hx as (ss & Hx & Hss). apply list_elem_of_fmap in Hss as (g & -> & Hg).
    by exists g, x.
  - intros g s Hg Hs. apply list_elem_of_fmap in Hg as (g0 & -> & _). simpl in Hs.
    apply list_elem_of_In, filter_In in Hs as [_ Hs]. unfold usable_server in Hs.
    destruct (ParseAddrPort s) as [[a p]|]; [|done]. cbn [ap_addr] in Hs.
    destruct a as [|v|]; [done| |done]. exists v, p. bools.
    split_and!; try done. cbn [IsUnspecified] in *. bools. done.
  - intros name. apply (Select_map (only_usable local)). by intros g.
Qed.

(** What [ParseScutil] returns: at least one group; every server is "address:port"
    with an IPv4 address and a port in 1..65535; a group is a default group exactly when
    it names no domain. *)
Theorem ParseScutil_sound text d :
  ParseScutil text = Ok d → DGroups d ≠ [] ∧ Forall scutil_group (DGroups d).
Proof.
  unfold ParseScutil. destruct (scan_lines _ _) as [lines toolong]. intros Hp.
  apply bind_Ok in Hp as (s & Hs & Hp). apply bind_Ok in Hp as (_ & _ & Hp).
  apply bind_Ok in Hp as (_ & Hg%guard_Ok & [= <-]). cbn [DGroups]. split.
  - apply orb_false_iff in Hg as [_ Hg]. apply Nat.eqb_neq in Hg. intros E.
    by apply Hg, length_zero_iff_nil.
  - apply (si_groups (flush s)), flush_inv. eapply scutil_lines_inv; [|exact Hs].
    split; simpl; [by apply Forall_nil|lia|done].
Qed.

(** Scoped resolvers are not defaults: from the line that starts the scoped queries
    on, the output of scutil has no influence on the groups. *)
Theorem ParseScutil_scoped a b c :
  ParseScutil (a ++ nl :: "DNS configuration (for scoped queries)" ++ nl :: b)
  = ParseScutil (a ++ nl :: "DNS configuration (for scoped queries)" ++ nl :: c).
Proof.
  set (m := String.list_ascii_of_string "DNS configuration (for scoped queries)").
  assert (∀ x, ∃ r e, scan_lines max_token (Split (a ++ nl :: m ++ nl :: x) nl)
     = if (scan_lines max_token (Split a nl)).2 then scan_lines max_token (Split a nl)
       else ((scan_lines max_token (Split a nl)).1 ++ m :: r, e)) as Hx.
  { intros x. rewrite Split_app_dot, scan_lines_app.
    destruct (scan_lines max_token (Split a nl)) as [r []]; [by exists [], false|]. cbn [fst snd].
    rewrite Split_line by (unfold m; by_compute). cbn [scan_lines].
    rewrite (proj2 (Nat.leb_gt _ _)) by (apply (Nat.lt_le_trans _ 64); [by_compute|];
      unfold max_token; change 64%nat with (8 * 8)%nat; nia).
    destruct (scan_lines max_token (Split x nl)) as [r' e']. by exists r', e'. }
  unfold ParseScutil. destruct (Hx b) as (rb & eb & ->), (Hx c) as (rc & ec & ->).
  destruct (scan_lines max_token (Split a nl)) as [r []]; [done|]. cbn [fst snd].
  assert (HasPrefix (TrimSpace m) "DNS configuration (for scoped queries)" = true) as Hm by by_compute.
  rewrite !scutil_lines_stop by done.
  assert (∀ x, stops_early (r ++ m :: x) = true) as Hst.
  { intros x. unfold stops_early. rewrite existsb_app. apply orb_true_iff. right.
    apply orb_true_iff. left. exact Hm. }
  by rewrite !Hst, !andb_false_r.
Qed.
End Properties.

Section ResolvedProperties.
Context `{Unicode, DBus}.


(** A host that runs systemd-resolved is never read as a flat resolver: when
    /etc/resolv.conf is resolved's or its stub file exists, a successful discovery came
    from resolved's own routing configuration; the flat list of /etc/resolv.conf is used
    only when neither holds and resolved does not answer on the bus. Either way some
    server is usable. *)
Theorem Discover_no_flat_fallback env d :
  Discover env = Ok d →
  (∃ bus d0, SystemBus env = Ok (Ok true, bus) ∧ resolvedDiscovery bus = Ok d0 ∧
     usable (InterfaceAddrs env) d0 = Ok d ∧ DRouting d = "domain-aware")
  ∨ (Contains (resolv_conf_path env) "/systemd/resolve/" = false ∧ stub_exists env = false ∧
     (∀ bus, SystemBus env ≠ Ok (Ok true, bus)) ∧
     DSource d = "/etc/resolv.conf" ∧ Forall (λ g, GDefault g = true) (DGroups d)).
Proof.
  assert (∀ a d d', usable a d = Ok d' → DSource d' = DSource d ∧ DRouting d' = DRouting d ∧
            map GDefault (DGroups d') = map GDefault (DGroups d)) as Hu.
  { intros a d0 d' (local & _ & (_ & _ & [= <-])%bind_Ok)%bind_Ok. simpl.
    split_and!; [done|done|]. rewrite map_map. done. }
  unfold Discover.
  set (fb := if _ : bool then _ else _).
  assert (fb = Ok d → (∀ bus, SystemBus env ≠ Ok (Ok true, bus)) →
     Contains (resolv_conf_path env) "/systemd/resolve/" = false ∧ stub_exists env = false ∧
     (∀ bus, SystemBus env ≠ Ok (Ok true, bus)) ∧
     DSource d = "/etc/resolv.conf" ∧ Forall (λ g, GDefault g = true) (DGroups d)) as Hfb.
  { unfold fb. destruct (_ || _) eqn:Ek; [done|]. apply orb_false_iff in Ek as [? ?].
    intros ([servers port] & _ & (Hs & _ & Hg)%Hu)%bind_Ok Hb. split_and!; try done.
    simpl in Hg. destruct (DGroups d) as [|g [|]]; simplify_eq/=; repeat constructor. done. }
  clearbody fb.
  destruct (SystemBus env) as [[[[]|e] bus]|e]; [|right; apply Hfb; done..].
  intros (d0 & Hr & Hd)%bind_Ok. left. exists bus, d0. split_and!; try done.
  apply Hu in Hd as (_ & -> & _). unfold resolvedDiscovery in Hr.
  apply bind_Ok in Hr as (? & _ & Hr). apply bind_Ok in Hr as (_ & _ & Hr).
  apply bind_Ok in Hr as (? & _ & Hr). destruct (Interfaces bus); [|done].
  apply bind_Ok in Hr as (? & _ & Hr). by injection Hr as <-.
Qed.
End ResolvedProperties.

(** ** Witnesses *)
(** A public default server, a VPN link with a private zone, a link of lower priority. *)
Definition demo_groups : list Group := [
  mkGroup ["8.8.8.8:53" : str] [] 0 0 true;
  mkGroup ["10.0.0.2:53" : str] ["~corp.example." : str; "example" : str] 3 0 false;
  mkGroup ["10.0.0.3:53" : str] ["CORP.example" : str] 4 10 false].
Lemma Select_spec_witness :
  Select (H := ascii_only) demo_groups "git.Corp.Example."
  = [mkGroup ["10.0.0.2:53" : str] ["~corp.example." : str; "example" : str] 3 0 false].
Proof.
  rewrite (@Select_spec ascii_only demo_groups "git.Corp.Example."); [by_compute|].
  repeat constructor; by_compute.
Defined.
Lemma usable_keeps_routing_witness :
  ∃ d', usable (Ok ["10.0.0.2/24" : str]) (mkDiscovery "s" "r" demo_groups) = Ok d' ∧
    Select (H := ascii_only) (DGroups d') "git.corp.example"
    = [mkGroup [] ["~corp.example." : str; "example" : str] 3 0 false].
Proof.
  eexists. split; [reflexivity|].
  refine (eq_trans (proj2 (proj2 (@usable_keeps_routing ascii_only (Ok ["10.0.0.2/24" : str])
    [V4 167772162] (mkDiscovery "s" "r" demo_groups) _ _ _)) _) _); by_compute.
Defined.
Definition demo_scutil : str := Eval vm_compute in
  Join ["resolver #1" : str; "  nameserver[0] : 192.168.1.1" : str; "  order : 200" : str;
        "resolver #2" : str; "  domain : Corp.Example." : str; "  nameserver[0] : 10.0.0.2" : str;
        "  port : 5353" : str; "resolver #3" : str; "  domain : local" : str; "  options : mdns" : str;
        "DNS configuration (for scoped queries)" : str; "resolver #1" : str;
        "  nameserver[0] : 9.9.9.9" : str] [nl].
Lemma ParseScutil_sound_witness :
  Forall scutil_group [
    mkGroup ["192.168.1.1:53" : str] [] 0 200 true;
    mkGroup ["10.0.0.2:5353" : str] ["corp.example" : str] 0 0 false].
Proof.
  refine (proj2 (@ParseScutil_sound ascii_only demo_scutil
    (mkDiscovery "scutil --dns" "domain-aware" _) _)). vm_compute. reflexivity.
Defined.
Definition demo_DBus : DBus := {|
  Variant := str + bool;
  v_string v := match v with inl s => Some s | _ => None end;
  v_bool v := match v with inr b => Some b | _ => None end;
  store_dnsex _ _ := Err (errors_New "dbus: wrong type");
  store_dns _ v := match v with inl s => Ok [mkEntry 0 2 s 0] | _ => Err (errors_New "dbus: wrong type") end;
  store_domains _ _ := Ok [] |}.
Definition demo_props : @props demo_DBus := {["DNS"%string := inl [chr 10; chr 0; chr 0; chr 2]]}.
Definition demo_bus : @BusObject demo_DBus := mkBus (H0 := demo_DBus)
  (λ _ _, Ok demo_props) (λ _, Err (mkError "no such link" [NoSuchLink])) (Ok [(1, "lo" : str)]).
Lemma Discover_no_flat_fallback_witness :
  ∃ d, @Discover ascii_only demo_DBus
    (mkLinuxEnv (H0 := demo_DBus) "/run/systemd/resolve/stub-resolv.conf" true (Ok (Ok true, demo_bus))
       (Err (errors_New "no file")) (Ok [])) = Ok d ∧ DRouting d = "domain-aware".
Proof.
  eexists. split; [vm_compute; reflexivity|].
  match goal with |- DRouting ?d = _ =>
    destruct (@Discover_no_flat_fallback ascii_only demo_DBus
      (mkLinuxEnv (H0 := demo_DBus) "/run/systemd/resolve/stub-resolv.conf" true (Ok (Ok true, demo_bus))
         (Err (errors_New "no file")) (Ok [])) d) as [(bus & d0 & _ & _ & _ & Hd)|(_ & Hs & _)]
  end; [vm_compute; reflexivity|exact Hd|discriminate Hs].
Defined.
