(* ===== verification/Resolve.v ===== *)
(** * Resolve: one DNS resolution against one server ([resolve] in
    src/internal/dns/resolver.go)

    The exchange of messages is github.com/miekg/dns and not part of the repository: it is
    the parameter [exchange] of the section, which may answer each query of a resolution
    differently; the message identifiers it draws are the parameter [query_id]. *)
From S2P Require Import Prelude Strs NetIP.

(** ** Messages, as far as the code looks at them *)
Definition TypeA : Z := 1.
Definition ClassINET : Z := 1.
Definition OpcodeQuery : Z := 0.
Definition RcodeSuccess : Z := 0.
Definition RcodeNameError : Z := 3.
Record RR_Header := mkHdr { h_name : str; h_class : Z; h_ttl : Z }.
Inductive RR :=
  | RR_A (hdr : RR_Header) (a : str)
  | RR_CNAME (hdr : RR_Header) (target : str)
  | RR_other (hdr : RR_Header).
Definition Header (rr : RR) : RR_Header :=
  match rr with RR_A h _ | RR_CNAME h _ | RR_other h => h end.
Record Question := mkQuestion { q_name : str; q_type : Z; q_class : Z }.
Record Msg := mkMsg {
  Id : Z; Response : bool; Opcode : Z; Truncated : bool; Rcode : Z;
  Questions : list Question; Answer : list RR }.

Definition nameError (m : str) : error := mkError m [NameError].

Section Resolve.
Context `{Unicode}.

(** The scan of the answer for the records of one owner. *)
Record scan := mkScan { s_ips : list Addr; s_next : str; s_ttl : Z }.
Definition scan_rr (owner : str) (rr : RR) (s : scan) : result scan :=
  if negb (h_class (Header rr) =? ClassINET) || negb (EqualFold (h_name (Header rr)) owner) then Ok s
  else
    match rr with
    | RR_A hdr a =>
        match AddrFromSlice a with
        | Some ip => Ok (mkScan (s_ips s ++ [Unmap ip]) (s_next s) (Z.min (s_ttl s) (h_ttl hdr)))
        | None => Ok s
        end
    | RR_CNAME hdr t =>
        let target := ToLower t in
        if (s_next s != "") && (s_next s != target) then Err (errors_New "dns_conflicting_cname")
        else Ok (mkScan (s_ips s) target (Z.min (s_ttl s) (h_ttl hdr)))
    | RR_other _ => Ok s
    end.
Fixpoint scan_answer (owner : str) (rrs : list RR) (s : scan) : result scan :=
  match rrs with
  | [] => Ok s
  | rr :: rrs' => s ← scan_rr owner rr s; scan_answer owner rrs' s
  end.

(** The loop over the aliases supplied in one answer: it returns addresses, or the name
    to query next. *)
Inductive outcome :=
  | Addresses (ips : list Addr) (ttl : Z)
  | Requery (name : str) (seen : gset str) (ttl : Z).
Definition has_owner (answer : list RR) (next : str) : bool :=
  existsb (λ rr, EqualFold (h_name (Header rr)) next) answer.
Fixpoint follow (fuel : nat) (answer : list RR) (name owner : str) (seen : gset str) (ttl : Z)
    : result outcome :=
  match fuel with
  | O => Err (errors_New "out of fuel")
  | S fuel' =>
      s ← scan_answer owner answer (mkScan [] "" ttl);
      if (0 <? length (s_ips s))%nat then
        if s_next s != "" then Err (errors_New "dns_conflicting_address_and_cname")
        else Ok (Addresses (s_ips s) (s_ttl s))
      else if s_next s == "" then
        if owner != name then Ok (Requery owner seen (s_ttl s))
        else Err (nameError ("dns_no_ipv4_address: " ++ name))
      else if bool_decide (s_next s ∈ seen) || (8 <? size seen)%nat
      then Err (errors_New "dns_cname_cycle_or_limit")
      else if negb (has_owner answer (s_next s)) then Ok (Requery (s_next s) seen (s_ttl s))
      else follow fuel' answer name (s_next s) ({[s_next s]} ∪ seen) (s_ttl s)
  end.

(** [exchange hop tcp name] is the reply to the hop's query, over UDP or TCP. *)
Variable exchange : nat → bool → str → result Msg.
Variable query_id : nat → Z.
Variable RcodeToString : Z → str.
Variable server : str.

Definition malformed (hop : nat) (name : str) (m : Msg) : bool :=
  negb (Response m) || Truncated m || negb (Opcode m =? OpcodeQuery) || negb (Id m =? query_id hop)
  || match Questions m with
     | [q] => negb (EqualFold (q_name q) name) || negb (q_type q =? TypeA)
              || negb (q_class q =? ClassINET)
     | _ => true
     end.
(** One query: UDP, TCP when the reply is truncated, and the checks of the reply. *)
Definition ask (hop : nat) (name : str) : result Msg :=
  response ← match exchange hop false name with
             | Err e => Err (Errorf_w ("dns_query " ++ server ++ ": ") e)
             | Ok m => Ok m
             end;
  response ← (if Truncated response then exchange hop true name else Ok response);
  _ ← guard_err (malformed hop name response) (errors_New "dns_malformed_response");
  _ ← guard_err (Rcode response =? RcodeNameError) (nameError ("dns_nxdomain: " ++ name));
  _ ← guard_err (negb (Rcode response =? RcodeSuccess))
        (errors_New ("dns_server_error: " ++ RcodeToString (Rcode response)));
  Ok response.

(** [for hop := 0; hop <= 8; hop++]: [n] hops are left. *)
Fixpoint hops (n hop : nat) (name : str) (seen : gset str) (ttl : Z) : result (list Addr * Z) :=
  match n with
  | O => Err (errors_New "dns_cname_limit")
  | S n' =>
      _ ← guard_err (bool_decide (name ∈ seen)) (errors_New "dns_cname_cycle");
      let seen := {[name]} ∪ seen in
      response ← ask hop name;
      o ← follow 10 (Answer response) name name seen ttl;
      match o with
      | Addresses ips ttl => Ok (ips, ttl)
      | Requery name seen ttl => hops n' (S hop) name seen ttl
      end
  end.
Definition resolve (name : str) : result (list Addr * Z) := hops 9 0 name ∅ max_uint32.

End Resolve.

(** ** Specification *)
Section Specification.
Context `{Unicode}.

(** The records of an owner in class IN. *)
Definition owned (owner : str) (rr : RR) : bool :=
  (h_class (Header rr) =? ClassINET) && EqualFold (h_name (Header rr)) owner.
(** The address, the alias target and the lifetime a record contributes to an owner. *)
Definition rr_address (owner : str) (rr : RR) : option Addr :=
  match rr with
  | RR_A _ a => if owned owner rr then Unmap <$> AddrFromSlice a else None
  | _ => None
  end.
Definition rr_target (owner : str) (rr : RR) : option str :=
  match rr with
  | RR_CNAME _ t => if owned owner rr then Some (ToLower t) else None
  | _ => None
  end.
Definition rr_lifetime (owner : str) (rr : RR) : option Z :=
  if owned owner rr then
    match rr with
    | RR_A hdr a => if AddrFromSlice a then Some (h_ttl hdr) else None
    | RR_CNAME hdr _ => Some (h_ttl hdr)
    | RR_other _ => None
    end
  else None.
Definition addresses (owner : str) (rrs : list RR) : list Addr := omap (M := list) (rr_address owner) rrs.
Definition targets (owner : str) (rrs : list RR) : list str := omap (M := list) (rr_target owner) rrs.
Definition lifetimes (owner : str) (rrs : list RR) : list Z := omap (M := list) (rr_lifetime owner) rrs.
Definition shortest (ttls : list Z) : Z := foldr Z.min max_uint32 ttls.

(** The owner is an alias of [next] in the answer and has no address there. *)
Definition alias_of (rrs : list RR) (owner next : str) : Prop :=
  addresses owner rrs = [] ∧ next ≠ [] ∧
  ∃ k j, targets owner rrs = replicate k [] ++ replicate (S j) next.

(** The reply to query number [hop], for a name. *)
Variable replied : nat → str → Msg → Prop.
(** [alias_path start hop m path ttls]: from [start], following only alias records whose
    owner is the name reached so far, the resolution has reached the head of [path] in
    the reply [m] to query number [hop]; a query is made for an alias target of which the
    reply holds no record. [ttls] are the lifetimes of all the alias records used. *)
Inductive alias_path (start : str) : nat → Msg → list str → list Z → Prop :=
  | path_start m : replied 0 start m → alias_path start 0 m [start] []
  | path_alias hop m owner path ttls next :
      alias_path start hop m (owner :: path) ttls →
      alias_of (Answer m) owner next → has_owner (Answer m) next = true →
      alias_path start hop m (next :: owner :: path) (lifetimes owner (Answer m) ++ ttls)
  | path_query hop m owner path ttls next m' :
      alias_path start hop m (owner :: path) ttls →
      alias_of (Answer m) owner next → has_owner (Answer m) next = false →
      replied (S hop) next m' →
      alias_path start (S hop) m' (next :: owner :: path) (lifetimes owner (Answer m) ++ ttls).

(** A reply that answers the query: its header and its question are the query's, it is
    whole, and it reports success. *)
Variables (exchange : nat → bool → str → result Msg) (query_id : nat → Z).
Record answers_query (hop : nat) (name : str) (m : Msg) : Prop := {
  aq_response : Response m = true;
  aq_whole : Truncated m = false;
  aq_opcode : Opcode m = OpcodeQuery;
  aq_id : Id m = query_id hop;
  aq_question : ∃ q, Questions m = [q] ∧ EqualFold (q_name q) name = true ∧ q_type q = TypeA ∧ q_class q = ClassINET;
  aq_success : Rcode m = RcodeSuccess }.
(** The reply that is used: over UDP, or over TCP if that one was cut short. *)
Definition replied_well (hop : nat) (name : str) (m : Msg) : Prop :=
  (∃ u, exchange hop false name = Ok u ∧ if Truncated u then exchange hop true name = Ok m else m = u) ∧
  answers_query hop name m.
End Specification.

(** ** Lemmas *)
Section Lemmas.
Context `{Unicode}.

Lemma shortest_app l k : shortest (l ++ k) = Z.min (shortest l) (shortest k).
Proof.
  unfold shortest. induction l as [|x l IH]; simpl; [|lia].
  induction k as [|y k IHk]; simpl; lia.
Qed.
Lemma shortest_cons x l : shortest (x :: l) = Z.min x (shortest l).
Proof. done. Qed.

Lemma addresses_cons owner rr rrs :
  addresses owner (rr :: rrs)
  = match rr_address owner rr with Some x => x :: addresses owner rrs | None => addresses owner rrs end.
Proof. done. Qed.
Lemma targets_cons owner rr rrs :
  targets owner (rr :: rrs)
  = match rr_target owner rr with Some x => x :: targets owner rrs | None => targets owner rrs end.
Proof. done. Qed.
Lemma lifetimes_cons owner rr rrs :
  lifetimes owner (rr :: rrs)
  = match rr_lifetime owner rr with Some x => x :: lifetimes owner rrs | None => lifetimes owner rrs end.
Proof. done. Qed.

(** The target the scan ends with, or none when the targets conflict. *)
Fixpoint next_of (next : str) (ts : list str) : option str :=
  match ts with
  | [] => Some next
  | t :: ts' => if (next != "") && (next != t) then None else next_of t ts'
  end.
Lemma scan_answer_spec owner rrs ips next ttl :
  ttl ≤ max_uint32 →
  scan_answer owner rrs (mkScan ips next ttl)
  = match next_of next (targets owner rrs) with
    | None => Err (errors_New "dns_conflicting_cname")
    | Some n => Ok (mkScan (ips ++ addresses owner rrs) n (Z.min ttl (shortest (lifetimes owner rrs))))
    end.
Proof.
  revert ips next ttl. induction rrs as [|rr rrs IH]; intros ips next ttl Ht.
  { csimpl. rewrite app_nil_r. unfold shortest. simpl. by rewrite Z.min_l. }
  assert (∀ z, Z.min ttl z ≤ max_uint32) as Hm by lia.
  cbn [scan_answer]. rewrite addresses_cons, targets_cons, lifetimes_cons.
  unfold scan_rr, rr_address, rr_target, rr_lifetime, owned.
  destruct rr as [hdr a|hdr t|hdr]; cbn [Header];
    destruct (h_class hdr =? ClassINET), (EqualFold (h_name hdr) owner);
    cbn [negb orb andb mbind result_bind]; try (by apply IH).
  - destruct (AddrFromSlice a) as [ip|]; cbn [fmap option_fmap option_map mbind result_bind];
      [|by apply IH].
    cbn [s_ips s_next s_ttl]. rewrite IH by apply Hm. destruct (next_of _ _); [|done].
    rewrite shortest_cons, <- app_assoc. do 2 f_equal. lia.
  - cbn [s_ips s_next s_ttl next_of]. destruct (_ && _); [done|]. cbn [mbind result_bind].
    rewrite IH by apply Hm.
    destruct (next_of _ _); [|done]. rewrite shortest_cons. do 2 f_equal. lia.
Qed.
Lemma next_of_nonempty next ts n :
  next ≠ [] → next_of next ts = Some n ↔ n = next ∧ ∃ j, ts = replicate j next.
Proof.
  intros Hne. assert (next != "" = true) as E by (by apply negb_true_iff, str_eqb_neq).
  induction ts as [|t ts IH]; cbn [next_of].
  - split; [intros [= ->]; split; [done|by exists 0%nat]|by intros [-> _]].
  - rewrite E. destruct (str_eqb_spec next t) as [<-|Hd]; cbn [negb andb].
    + rewrite IH. split; intros [-> [j Hj]]; (split; [done|]).
      * exists (S j). by rewrite Hj.
      * destruct j; simplify_eq/=. by exists j.
    + split; [done|]. intros (_ & [|j] & Hj); simplify_eq/=.
Qed.
Lemma next_of_empty ts n :
  next_of [] ts = Some n ↔
  (n = [] ∧ Forall (λ t, t = []) ts) ∨ (n ≠ [] ∧ ∃ k j, ts = replicate k [] ++ replicate (S j) n).
Proof.
  induction ts as [|t ts IH]; cbn [next_of].
  - split; [intros [= <-]; by left|]. intros [[-> _]|(_ & [|k] & j & ?)]; done.
  - change ([] != "") with false. cbn [andb]. destruct t as [|c t].
    + rewrite IH, Forall_cons. split.
      * intros [[-> ?]|(? & k & j & ->)]; [by left|right]. split; [done|]. by exists (S k), j.
      * intros [(-> & _ & ?)|(? & [|k] & j & E)]; [by left|simplify_eq/=|].
        right. split; [done|]. exists k, j. simpl in E. by simplify_eq.
    + rewrite next_of_nonempty, Forall_cons by done. split.
      * intros [-> [j ->]]. right. split; [done|]. by exists 0%nat, j.
      * intros [(_ & ? & _)|(? & [|k] & j & E)]; [done| |done].
        simpl in E. simplify_eq. split; [done|by exists j].
Qed.
Lemma alias_of_next rrs owner next :
  alias_of rrs owner next ↔
  addresses owner rrs = [] ∧ next ≠ [] ∧ next_of [] (targets owner rrs) = Some next.
Proof. unfold alias_of. rewrite next_of_empty. naive_solver. Qed.
End Lemmas.

Section Correctness.
Context `{Unicode}.
Variable exchange : nat → bool → str → result Msg.
Variable query_id : nat → Z.
Variable RcodeToString : Z → str.
Variable server : str.
Notation ask := (ask exchange query_id RcodeToString server).
Notation asked := (λ hop name m, ask hop name = Ok m).
Notation hops := (hops exchange query_id RcodeToString server).
Notation resolve := (resolve exchange query_id RcodeToString server).

Lemma malformed_ok hop name m :
  Rcode m = RcodeSuccess → malformed query_id hop name m = false ↔ answers_query query_id hop name m.
Proof.
  intros Hr. unfold malformed. rewrite !orb_false_iff, !negb_false_iff, !Z.eqb_eq.
  assert ((match Questions m with
           | [q] => negb (EqualFold (q_name q) name) || negb (q_type q =? TypeA) || negb (q_class q =? ClassINET)
           | _ => true end = false) ↔
          ∃ q, Questions m = [q] ∧ EqualFold (q_name q) name = true ∧ q_type q = TypeA ∧ q_class q = ClassINET) as ->.
  { destruct (Questions m) as [|q [|q' l]]; [naive_solver| |naive_solver].
    rewrite !orb_false_iff, !negb_false_iff, !Z.eqb_eq. naive_solver. }
  split; [|intros []; naive_solver]. intros ((((? & ?) & ?) & ?) & ?). by split.
Qed.
Lemma ask_spec hop name m : ask hop name = Ok m ↔ replied_well exchange query_id hop name m.
Proof.
  unfold ask, replied_well.
  assert (∀ r, (_ ← guard_err (malformed query_id hop name r) (errors_New "dns_malformed_response");
      _ ← guard_err (Rcode r =? RcodeNameError) (nameError ("dns_nxdomain: " ++ name));
      _ ← guard_err (negb (Rcode r =? RcodeSuccess)) (errors_New ("dns_server_error: " ++ RcodeToString (Rcode r)));
      Ok r) = Ok m ↔ r = m ∧ answers_query query_id hop name m) as Hc.
  { intros r. destruct (Z.eq_dec (Rcode r) RcodeSuccess) as [Hr|Hr].
    - pose proof (malformed_ok hop name r Hr) as Hm. destruct (malformed query_id hop name r); cbn.
      + split; [done|]. intros [-> Ha]. apply Hm in Ha. done.
      + rewrite Hr. cbn. split; [intros [= ->]; split; [done|by apply Hm]|by intros [-> _]].
    - split; [|intros [-> []]; done]. rewrite (proj2 (Z.eqb_neq _ _) Hr).
      destruct (malformed query_id hop name r); cbn; [done|]. by destruct (Rcode r =? RcodeNameError). }
  destruct (exchange hop false name) as [u|e]; cbn [mbind result_bind].
  2:{ split; [done|]. by intros [(? & ? & _) _]. }
  destruct (Truncated u) eqn:Et.
  - destruct (exchange hop true name) as [r|e]; cbn [mbind result_bind].
    + rewrite Hc. split.
      * intros [-> Ha]. split; [|done]. exists u. by rewrite Et.
      * intros [(u' & [= <-] & Hx) Ha]. rewrite Et in Hx. by injection Hx as ->.
    + split; [done|]. intros [(u' & [= <-] & Hx) _]. by rewrite Et in Hx.
  - cbn [mbind result_bind]. rewrite Hc. split.
    + intros [-> Ha]. split; [|done]. exists m. by rewrite Et.
    + intros [(u' & [= <-] & Hx) Ha]. rewrite Et in Hx. done.
Qed.
Lemma alias_path_ext (R R' : nat → str → Msg → Prop) start hop m path ttls :
  (∀ h n m, R h n m ↔ R' h n m) → alias_path R start hop m path ttls ↔ alias_path R' start hop m path ttls.
Proof.
  assert (∀ (R R' : nat → str → Msg → Prop), (∀ h n m, R h n m ↔ R' h n m) → alias_path R start hop m path ttls →
    alias_path R' start hop m path ttls) as Himp.
  { clear R R'. intros R R' HR. induction 1; [apply path_start|apply path_alias|eapply path_query]; try done; by apply HR. }
  intros HR. split; apply Himp; [done|]. intros h n m'. by rewrite HR.
Qed.
(** The resolution of [start] stands at the head of [path] in the reply [m]. *)
Record standing (start : str) (hop : nat) (m : Msg) (path : list str) (ttls : list Z)
    (seen : gset str) (ttl : Z) : Prop := {
  st_path : alias_path asked start hop m path ttls;
  st_nodup : NoDup path;
  st_length : (length path ≤ 9)%nat;
  st_seen : seen = list_to_set path;
  st_ttl : ttl = shortest ttls }.
(** The answer a standing resolution gives. *)
Definition answer_at (m : Msg) (owner : str) (ttls : list Z) (ips : list Addr) (ttl : Z) : Prop :=
  ips = addresses owner (Answer m) ∧ ips ≠ [] ∧ Forall (λ t, t = []) (targets owner (Answer m)) ∧
  ttl = shortest (lifetimes owner (Answer m) ++ ttls).
Lemma shortest_le l : shortest l ≤ max_uint32.
Proof. unfold shortest. induction l; simpl; lia. Qed.

(** One turn of the alias loop. *)
Lemma follow_S fuel m name owner seen ttls :
  follow (S fuel) (Answer m) name owner seen (shortest ttls)
  = match next_of [] (targets owner (Answer m)) with
    | None => Err (errors_New "dns_conflicting_cname")
    | Some next =>
        let ttl := shortest (lifetimes owner (Answer m) ++ ttls) in
        if (0 <? length (addresses owner (Answer m)))%nat then
          if next != "" then Err (errors_New "dns_conflicting_address_and_cname")
          else Ok (Addresses (addresses owner (Answer m)) ttl)
        else if next == "" then
          if owner != name then Ok (Requery owner seen ttl)
          else Err (nameError ("dns_no_ipv4_address: " ++ name))
        else if bool_decide (next ∈ seen) || (8 <? size seen)%nat
        then Err (errors_New "dns_cname_cycle_or_limit")
        else if negb (has_owner (Answer m) next) then Ok (Requery next seen ttl)
        else follow fuel (Answer m) name next ({[next]} ∪ seen) ttl
    end.
Proof.
  cbn [follow]. rewrite scan_answer_spec by apply shortest_le.
  change (String.list_ascii_of_string "") with (@nil byte).
  destruct (next_of [] _) as [next|]; [|done]. cbn [mbind result_bind s_ips s_next s_ttl app].
  rewrite shortest_app, Z.min_comm. done.
Qed.

Lemma standing_step start hop m m' hop' owner path ttls seen ttl next :
  standing start hop m (owner :: path) ttls seen ttl →
  alias_path asked start hop' m' (next :: owner :: path) (lifetimes owner (Answer m) ++ ttls) →
  next ∉ seen → (size seen ≤ 8)%nat →
  standing start hop' m' (next :: owner :: path) (lifetimes owner (Answer m) ++ ttls)
    ({[next]} ∪ seen) (shortest (lifetimes owner (Answer m) ++ ttls)).
Proof.
  intros [Hp Hnd Hl -> ->] Hp' Hn Hsz. rewrite size_list_to_set in Hsz by done.
  split; try done.
  - apply NoDup_cons. split; [|done]. intros Hx. by apply Hn, elem_of_list_to_set.
  - simpl in *. lia.
Qed.

Lemma follow_sound fuel start hop m name owner path ttls seen ttl o :
  standing start hop m (owner :: path) ttls seen ttl →
  follow fuel (Answer m) name owner seen ttl = Ok o →
  ∃ owner' path' ttls' seen' ttl', standing start hop m (owner' :: path') ttls' seen' ttl' ∧
  match o with
  | Addresses ips t => answer_at m owner' ttls' ips t
  | Requery n s t =>
      n ∈ s ∨ (alias_of (Answer m) owner' n ∧ has_owner (Answer m) n = false ∧
               n ∉ seen' ∧ (size seen' ≤ 8)%nat ∧ s = seen' ∧
               t = shortest (lifetimes owner' (Answer m) ++ ttls'))
  end.
Proof.
  revert owner path ttls seen ttl.
  induction fuel as [|fuel IH]; intros owner path ttls seen ttl Hst Hf; [done|].
  pose proof Hst as [Hp Hnd Hl Hs Ht]. rewrite Ht, follow_S in Hf.
  destruct (next_of [] _) as [next|] eqn:En; [|done]. cbv zeta in Hf.
  destruct (addresses owner (Answer m)) as [|a l] eqn:Ea; cbn [length] in Hf; simpl (0 <? _)%nat in Hf.
  - destruct (str_eqb_spec next "") as [->|Hne].
    + destruct (owner != name); [|done]. injection Hf as <-.
      exists owner, path, ttls, seen, ttl. split; [done|]. left. rewrite Hs. simpl. set_solver.
    + destruct (_ || _) eqn:Ec; [done|]. bools. apply Nat.ltb_ge in H1.
      assert (alias_of (Answer m) owner next) as Hal by (by apply alias_of_next).
      destruct (has_owner (Answer m) next) eqn:Eh; cbn [negb] in Hf.
      * eapply IH; [|exact Hf]. eapply standing_step; [exact Hst| |done|done]. by eapply path_alias.
      * injection Hf as <-. exists owner, path, ttls, seen, ttl. split; [done|]. right. done.
  - destruct (str_eqb_spec next "") as [->|Hne]; [|done]. injection Hf as <-.
    exists owner, path, ttls, seen, ttl. split; [done|]. unfold answer_at. rewrite Ea.
    split_and!; [done|done| |done]. apply next_of_empty in En as [[_ ?]|[? _]]; done.
Qed.

Lemma hops_sound n start hop name seen ttl ips t :
  (∀ m, ask hop name = Ok m → name ∉ seen → ∃ path ttls,
     standing start hop m (name :: path) ttls ({[name]} ∪ seen) ttl) →
  hops n hop name seen ttl = Ok (ips, t) →
  ∃ hop' m owner path ttls seen' ttl',
    standing start hop' m (owner :: path) ttls seen' ttl' ∧ answer_at m owner ttls ips t.
Proof.
  revert hop name seen ttl. induction n as [|n IH]; intros hop name seen ttl Hb Hh; [done|].
  cbn [hops] in Hh. apply bind_Ok in Hh as (_ & Hn%guard_Ok & Hh).
  apply bind_Ok in Hh as (m & Hm & Hh). apply bind_Ok in Hh as (o & Hf & Hh). bools.
  destruct (Hb m Hm Hn) as (path & ttls & Hst).
  apply (follow_sound _ _ _ _ _ _ _ _ _ _ _ Hst) in Hf
    as (owner & path' & ttls' & seen' & ttl' & Hst' & Ho).
  destruct o as [ips' t'|n' s' t']; [|destruct Ho as [Hin|(Hal & Hno & Hns & Hsz & -> & ->)]].
  - injection Hh as <- <-. by exists hop, m, owner, path', ttls', seen', ttl'.
  - destruct n as [|n]; [done|]. cbn [hops] in Hh. by rewrite bool_decide_true in Hh.
  - eapply IH; [|exact Hh]. intros m' Hm' _. exists (owner :: path'), (lifetimes owner (Answer m) ++ ttls').
    eapply standing_step; [exact Hst'| |done|done]. eapply path_query; try done. apply Hst'.
Qed.

Definition continue (hop : nat) (o : outcome) : result (list Addr * Z) :=
  match o with
  | Addresses ips ttl => Ok (ips, ttl)
  | Requery name seen ttl => hops (8 - hop) (S hop) name seen ttl
  end.
Lemma hops_unfold n hop name seen ttl m :
  name ∉ seen → ask hop name = Ok m →
  hops (S n) hop name seen ttl
  = (o ← follow 10 (Answer m) name name ({[name]} ∪ seen) ttl;
     match o with
     | Addresses ips ttl => Ok (ips, ttl)
     | Requery name seen ttl => hops n (S hop) name seen ttl
     end).
Proof. intros Hn Hm. cbn [hops]. rewrite bool_decide_false by done. cbn. by rewrite Hm. Qed.

Lemma hops_seen n hop name seen ttl :
  name ∈ seen → hops (S n) hop name seen ttl = Err (errors_New "dns_cname_cycle").
Proof. intros Hn. cbn [hops]. by rewrite bool_decide_true. Qed.
(** A resolution gets to every standing point of an alias path without repetition. *)
Lemma path_run start hop m path ttls :
  alias_path asked start hop m path ttls → NoDup path → (length path ≤ 9)%nat →
  ∃ owner path' fuel name, path = owner :: path' ∧ (hop < length path)%nat ∧ (11 ≤ fuel + length path)%nat ∧
    resolve start = (follow fuel (Answer m) name owner (list_to_set path) (shortest ttls) ≫= continue hop).
Proof.
  induction 1 as [m Hm|hop m owner path ttls next Hp IH Hal Ho|hop m owner path ttls next m' Hp IH Hal Ho Hm'];
    intros Hnd Hl.
  - exists start, [], 10%nat, start. split_and!; [done|simpl; lia|simpl; lia|].
    unfold resolve. rewrite (hops_unfold _ _ _ _ _ m) by set_solver. done.
  - apply NoDup_cons in Hnd as [Hn Hnd]. simpl in Hl.
    destruct IH as (? & ? & fuel & name & [= <- <-] & Hh & Hf & Hr); [done|simpl; lia|].
    destruct fuel as [|fuel]; [simpl in Hf; lia|].
    exists next, (owner :: path), fuel, name. split_and!; [done|simpl in *; lia|simpl in *; lia|].
    rewrite Hr, follow_S. apply alias_of_next in Hal as (Ha & Hne & ->). rewrite Ha. cbv zeta.
    cbn [length]. change (0 <? 0)%nat with false; cbv iota.
    rewrite (proj2 (str_eqb_neq next "")) by done.
    rewrite bool_decide_false by (by rewrite elem_of_list_to_set).
    rewrite size_list_to_set by done. rewrite (proj2 (Nat.ltb_ge 8 (length (owner :: path)))) by (simpl; lia).
    rewrite Ho. done.
  - apply NoDup_cons in Hnd as [Hn Hnd]. simpl in Hl.
    destruct IH as (? & ? & fuel & name & [= <- <-] & Hh & Hf & Hr); [done|simpl; lia|].
    destruct fuel as [|fuel]; [simpl in Hf; lia|].
    exists next, (owner :: path), 10%nat, next. split_and!; [done|simpl in *; lia|simpl in *; lia|].
    rewrite Hr, follow_S. apply alias_of_next in Hal as (Ha & Hne & ->). rewrite Ha. cbv zeta.
    cbn [length]. change (0 <? 0)%nat with false; cbv iota.
    rewrite (proj2 (str_eqb_neq next "")) by done.
    rewrite bool_decide_false by (by rewrite elem_of_list_to_set).
    rewrite size_list_to_set by done. rewrite (proj2 (Nat.ltb_ge 8 (length (owner :: path)))) by (simpl; lia).
    rewrite Ho. cbn [orb negb mbind result_bind continue]. simpl in Hh.
    replace (8 - hop)%nat with (S (8 - S hop)) by lia.
    rewrite (hops_unfold _ _ _ _ _ m') by (done || by rewrite elem_of_list_to_set). done.
Qed.

(** C5: [resolve] follows only the queried owner's alias chain and honours every lifetime
    on it: it returns [ips] with lifetime [t] exactly when a chain of at most 9 distinct
    names leads from the queried name, each alias being recorded for the name reached so
    far in a reply that passed all checks, to a name whose valid A records in the last
    reply are [ips], nonempty and without an alias beside them; [t] is the least lifetime
    of all the records used. Address records of any other owner are never returned. *)
Theorem resolve_spec start ips t :
  resolve start = Ok (ips, t) ↔
  ∃ hop m owner path ttls,
    alias_path (replied_well exchange query_id) start hop m (owner :: path) ttls ∧
    NoDup (owner :: path) ∧ (length (owner :: path) ≤ 9)%nat ∧ answer_at m owner ttls ips t.
Proof.
  split.
  - intros Hr. eapply hops_sound in Hr as (hop & m & owner & path & ttls & ? & ? & [? ? ? _ _] & Ha).
    + exists hop, m, owner, path, ttls. split_and!; try done. by apply (alias_path_ext asked); [apply ask_spec|].
    + intros m Hm _. exists [], []. split; [by apply path_start|apply NoDup_singleton|simpl; lia| |done].
      simpl. set_solver.
  - intros (hop & m & owner & path & ttls & Hp & Hnd & Hl & -> & Hne & Ht & ->).
    apply (alias_path_ext asked) in Hp; [|apply ask_spec]. destruct (path_run _ _ _ _ _ Hp Hnd Hl) as (? & ? & fuel & name & [= <- <-] & _ & Hf & ->).
    destruct fuel as [|fuel]; [simpl in Hf, Hl; lia|].
    rewrite follow_S, (proj2 (next_of_empty _ [])) by (by left). cbv zeta.
    destruct (addresses owner (Answer m)) as [|a l]; [done|]. done.
Qed.

(** C36: The alias loop always ends: whatever a reply contains, following aliases inside it
    from a state with 1 to 9 names seen stops within 11 turns less the names seen (every
    turn either ends or marks a new name, and at most 9 are marked), so the fuel of 10
    that the model gives each reply is never what ends it. *)
Theorem follow_terminates fuel answer name owner seen ttl :
  (1 ≤ size seen ≤ 9)%nat → (11 ≤ fuel + size seen)%nat →
  follow fuel answer name owner seen ttl ≠ Err (errors_New "out of fuel").
Proof.
  revert owner seen ttl. induction fuel as [|fuel IH]; intros owner seen ttl Hs Hf; [lia|].
  cbn [follow]. destruct (scan_answer _ _ _) as [s|e] eqn:Es.
  2:{ cbn. intros [= ->]. clear -Es. revert Es. generalize (mkScan [] "" ttl).
      induction answer as [|rr l IH]; intros s; cbn [scan_answer]; [done|].
      destruct (scan_rr owner rr s) as [s'|e] eqn:E; cbn; [apply IH|]. intros [= ->].
      unfold scan_rr in E. repeat (case_match; try done). }
  cbn [mbind result_bind].
  destruct (_ <? _)%nat; [by case_match|]. destruct (_ == _); [by case_match|].
  destruct (_ || _) eqn:Ec; [done|]. destruct (negb _); [done|]. bools.
  match goal with H : (_ <? _)%nat = false |- _ => apply Nat.ltb_ge in H end.
  apply IH; (rewrite size_union, size_singleton; [lia|by apply disjoint_singleton_l]).
Qed.

(** An alias whose target the reply mentions only by other records cannot be resolved:
    when the reply to the first query makes the name an alias of [next] and holds some
    record of [next] (a signature, an IPv6 address) but neither an address nor an alias,
    the code turns to a second query for [next], as for a target the reply does not
    mention, and then refuses it as a cycle, because [next] is already marked as seen. *)
Theorem resolve_mentioned_alias_fails start m next :
  ask 0 start = Ok m → alias_of (Answer m) start next → next ≠ start →
  has_owner (Answer m) next = true →
  addresses next (Answer m) = [] → targets next (Answer m) = [] →
  resolve start = Err (errors_New "dns_cname_cycle").
Proof.
  intros Hm Hal Hne Ho Ha Ht.
  assert (alias_path asked start 0 m [next; start] (lifetimes start (Answer m) ++ [])) as Hp
    by (by apply path_alias; [apply path_start|..]).
  unfold resolve. rewrite (hops_unfold _ _ _ _ _ m) by set_solver.
  change max_uint32 with (shortest []). rewrite follow_S.
  apply alias_of_next in Hal as (Ea & Hnn & ->). rewrite Ea. cbv zeta. cbn [length].
  change (0 <? 0)%nat with false; cbv iota. rewrite (proj2 (str_eqb_neq next "")) by done.
  rewrite bool_decide_false by set_solver.
  rewrite union_empty_r_L, size_singleton, Ho. cbn [orb negb].
  change (8 <? 1)%nat with false; cbv iota. rewrite follow_S, Ha, Ht. cbn [next_of length]. cbv zeta.
  change (0 <? 0)%nat with false; cbv iota. rewrite (proj2 (str_eqb_neq next start)) by done.
  change ([] == "") with true. cbn [negb mbind result_bind]. cbv iota. cbn [mbind result_bind].
  apply hops_seen. apply elem_of_union. left. by apply elem_of_singleton.
Qed.
End Correctness.

(** ** Witnesses *)
(** A reply that aliases a.test. to b.test. and holds only another record of b.test. *)
Definition demo_reply (name : str) (answer : list RR) : Msg :=
  mkMsg 7 true 0 false 0 [mkQuestion name 1 1] answer.
Definition demo_answer : list RR :=
  [RR_CNAME (mkHdr "a.test." 1 60) "b.test."; RR_other (mkHdr "b.test." 1 60)].
Definition demo_exchange (hop : nat) (tcp : bool) (name : str) : result Msg :=
  Ok (demo_reply name demo_answer).
Lemma follow_terminates_witness :
  @follow ascii_only 10 demo_answer "a.test." "a.test." {["a.test." : str]} 60
  ≠ Err (errors_New "out of fuel").
Proof.
  apply (@follow_terminates ascii_only 10 demo_answer "a.test." "a.test." {["a.test." : str]} 60).
  - assert (size ({["a.test." : str]} : gset str) = 1%nat) as -> by (vm_compute; reflexivity). lia.
  - assert (size ({["a.test." : str]} : gset str) = 1%nat) as -> by (vm_compute; reflexivity). lia.
Defined.
Lemma resolve_mentioned_alias_fails_witness :
  @resolve ascii_only demo_exchange (λ _, 7) (λ _, []) "9.9.9.9:53" "a.test."
  = Err (errors_New "dns_cname_cycle").
Proof.
  apply (@resolve_mentioned_alias_fails ascii_only demo_exchange (λ _, 7) (λ _, []) "9.9.9.9:53"
           "a.test." (demo_reply "a.test." demo_answer) "b.test.");
    [vm_compute; reflexivity| |discriminate|vm_compute; reflexivity..].
  split; [vm_compute; reflexivity|]. split; [discriminate|].
  exists 0%nat, 0%nat. vm_compute. reflexivity.
Defined.
