(* ===== verification/Resolver.v ===== *)
(** * Resolver: the caching resolver and its refresh protocol
    (type Resolver in src/internal/dns/resolver.go)

    Each critical section of [Resolver.mu] is one function on the record [Resolver]; the
    interleavings of lookups, flights, refreshes and reconfigurations are the relation
    [step] on [world]. Instants are in nanoseconds. *)
From S2P Require Import Prelude Strs NetIP Config Discovery Resolve.

(** ** State *)
(** [LastRefresh] is [None] for the zero time, which is more than 292 years ago:
    [time.Since] saturates at the largest duration. *)
Record State := mkState {
  SMode : str; SDiscovery : Discovery; Generation : Z; LastRefresh : option Z; LastError : str }.
Record cached := mkCached { c_ips : list Addr; c_expires : Z }.
Record Resolver := mkResolver { cfg : DNS; applied : DNS; state : State; cache : gmap str cached }.
#[global] Instance Discovery_eq_dec : EqDecision Discovery.
Proof. solve_decision. Defined.

Definition zero_DNS : DNS := mkDNS [] [] 0 0 0.
Definition zero_State : State := mkState [] (mkDiscovery [] [] []) 0 None [].
(** The resolver [New] makes before its first [Refresh]. *)
Definition New (c : DNS) : Resolver := mkResolver c zero_DNS zero_State ∅.
Definition since (now : Z) (last : option Z) : Z :=
  match last with Some t => now - t | None => max_int64 end.
Definition set_cache (r : Resolver) (m : gmap str cached) : Resolver :=
  mkResolver (cfg r) (applied r) (state r) m.

(** [Status]: the state with the number of cached answers. *)
Definition Status (r : Resolver) : State * Z := (state r, Z.of_nat (size (cache r))).
(** The locked part of [Configure], before it refreshes. *)
Definition Configure (c : DNS) (r : Resolver) : Resolver := mkResolver c (applied r) (state r) ∅.
(** [Run] refreshes on a tick when this holds. *)
Definition due (now : Z) (r : Resolver) : bool :=
  RefreshInterval (cfg r) <=? since now (LastRefresh (state r)).

(** ** [Refresh]: before and after the discovery *)
Definition coalesced (now : Z) (r : Resolver) : bool :=
  bool_decide (cfg r = applied r) && (since now (LastRefresh (state r)) <? 100 * Millisecond).
Definition Refresh_enter (now : Z) (r : Resolver) : DNS + option error :=
  if coalesced now r then
    inr (if LastError (state r) != "" then Some (errors_New (LastError (state r))) else None)
  else inl (cfg r).
Definition manual_discovery (c : DNS) : Discovery :=
  mkDiscovery "configuration" "manual" [mkGroup (Servers c) [] 0 0 true].
(** What the discovery yields; [auto] is the result of [r.discover], which returns a
    discovery beside an error. *)
Definition discovered (c : DNS) (auto : Discovery * option error) : Discovery * option error :=
  if Mode c == "manual" then (manual_discovery c, None) else auto.
Definition Refresh_commit (now : Z) (c : DNS) (found : Discovery * option error) (r : Resolver)
    : Resolver * option error :=
  if negb (bool_decide (c = cfg r)) then (r, None)
  else
    let '(d, e) := found in
    let errorText := match e with Some e => Error e | None => [] end in
    let d := match e with Some _ => mkDiscovery (DSource d) (DRouting d) [] | None => d end in
    let s := state r in
    let changed := negb (bool_decide (c = applied r)) || negb (bool_decide (d = SDiscovery s))
                   || (errorText != LastError s) || (Mode c != SMode s) in
    let gen := if changed then uint64 (Generation s + 1) else Generation s in
    let m := if changed then ∅ else cache r in
    (mkResolver (cfg r) c (mkState (Mode c) d gen (Some now) errorText) m, e).

(** ** [lookup]: before, during and after the flight *)
Section Lookup.
Context `{Unicode}.
(** [mdns.Fqdn]: the name with a final dot. *)
Definition Fqdn (s : str) : str := if HasSuffix s "." then s else s ++ ".".
Definition lookup_host (host : str) : str := ToLower (Fqdn host).
Definition cache_key (gen : Z) (host : str) : str := Itoa gen ++ ":" ++ host.

Record flight := mkFlight { f_gen : Z; f_host : str; f_groups : list Group; f_size : Z }.
Inductive begin := Cached (ips : list Addr) | Failed (e : error) | Fly (key : str) (f : flight).
Definition lookup_begin (now : Z) (name : str) (r : Resolver) : Resolver * begin :=
  let host := lookup_host name in
  let s := state r in
  let key := cache_key (Generation s) host in
  if LastError s != "" then (r, Failed (errors_New ("dns_unavailable: " ++ LastError s)))
  else
    let fly r :=
      match Select (DGroups (SDiscovery s)) host with
      | [] => (r, Failed (errors_New "dns_unavailable: no eligible resolver group"))
      | groups => (r, Fly key (mkFlight (Generation s) host groups (CacheSize (cfg r))))
      end in
    match cache r !! key with
    | Some entry =>
        if now <? c_expires entry then (r, Cached (c_ips entry))
        else fly (set_cache r (delete key (cache r)))
    | None => fly r
    end.

(** The flight asks the servers of the groups in turn. [query n server index] is the
    [n]-th call of [resolve], with the instant it started. *)
Variable query : nat → str → Z → Z * result (list Addr * Z).
Definition answer : Type := list Addr * Z * Z.       (* addresses, lifetime, start *)
Inductive attempt := Done (a : answer) | Permanent (e : error) | Next (n : nat) (last : option error).
Fixpoint try_servers (n : nat) (index : Z) (servers : list str) (last : option error) : attempt :=
  match servers with
  | [] => Next n last
  | server :: servers' =>
      match query n server index with
      | (started, Ok (ips, ttl)) =>
          match ips with [] => Next (S n) None | _ => Done (ips, ttl, started) end
      | (_, Err e) => if errors_Is e NameError then Permanent e
                      else try_servers (S n) index servers' (Some e)
      end
  end.
Fixpoint try_groups (n : nat) (groups : list Group) (last : option error) : result answer :=
  match groups with
  | [] => Err (default (errors_New "no usable IPv4 DNS server in matched group") last)
  | g :: groups' =>
      match try_servers n (GInterface g) (GServers g) last with
      | Done a => Ok a
      | Permanent e => Err e
      | Next n last => try_groups n groups' last
      end
  end.
Definition fly (f : flight) : result answer := try_groups 0 (f_groups f) None.

(** The locked end of a successful flight; [victim] is the entry the map iteration meets
    first. *)
Definition flight_commit (now : Z) (key : str) (f : flight) (a : answer) (victim : str)
    (r : Resolver) : Resolver :=
  let '(ips, ttl, started) := a in
  let expires := started + ttl * Second in
  if (Generation (state r) =? f_gen f) && (0 <? ttl) && (now <? expires) && (0 <? f_size f) then
    let m := if f_size f <=? Z.of_nat (size (cache r)) then delete victim (cache r) else cache r in
    set_cache r (<[key := mkCached ips expires]> m)
  else r.

(** [Lookup]: one more attempt when a refresh changed the generation. *)
Definition refresh_wanted (now : Z) (e : error) (r : Resolver) : bool :=
  negb (errors_Is e Canceled) && (Mode (cfg r) == "auto")
  && (Second <? since now (LastRefresh (state r))).
Definition Lookup (now : Z) (lookup : Resolver → Resolver * result (list Addr))
    (Refresh : Resolver → Resolver) (r : Resolver) : Resolver * result (list Addr) :=
  match lookup r with
  | (r, Ok ips) => (r, Ok ips)
  | (r, Err e) =>
      if refresh_wanted now e r then
        let r' := Refresh r in
        if negb (Generation (state r') =? Generation (state r)) then lookup r' else (r', Err e)
      else (r, Err e)
  end.
End Lookup.

(** ** Interleavings *)
(** One successful flight: what was asked, whom, and what came back. *)
Record resolution := mkResolution {
  l_host : str; l_groups : list Group; l_ips : list Addr; l_ttl : Z; l_started : Z }.
Record world := mkWorld {
  res : Resolver;
  clock : Z;
  refreshing : option DNS;            (* holder of refreshMu, with the settings it read *)
  flights : gmap str flight;          (* singleflight *)
  history : list resolution }.        (* every answer of a flight so far *)
Definition with_res (w : world) (r : Resolver) : world :=
  mkWorld r (clock w) (refreshing w) (flights w) (history w).

Section Steps.
Context `{Unicode}.
Variable valid : DNS → Prop.        (* the settings the resolver is configured with *)

Inductive step : world → world → Prop :=
  | step_time w t : clock w ≤ t →
      step w (mkWorld (res w) t (refreshing w) (flights w) (history w))
  | step_configure w c : valid c → step w (with_res w (Configure c (res w)))
  | step_refresh_enter w c :
      refreshing w = None → Refresh_enter (clock w) (res w) = inl c →
      step w (mkWorld (res w) (clock w) (Some c) (flights w) (history w))
  | step_refresh_commit w c auto r e :
      refreshing w = Some c → Refresh_commit (clock w) c (discovered c auto) (res w) = (r, e) →
      step w (mkWorld r (clock w) None (flights w) (history w))
  | step_lookup w name r b :
      lookup_begin (clock w) name (res w) = (r, b) →
      step w (mkWorld r (clock w) (refreshing w)
                (match b with
                 | Fly key f => match flights w !! key with
                                | None => <[key := f]> (flights w)
                                | Some _ => flights w            (* joins the flight *)
                                end
                 | _ => flights w
                 end) (history w))
  | step_flight w key f query ips ttl started victim :
      flights w !! key = Some f → fly query f = Ok (ips, ttl, started) →
      (cache (res w) ≠ ∅ → victim ∈ dom (cache (res w))) →
      step w (mkWorld (flight_commit (clock w) key f (ips, ttl, started) victim (res w))
                (clock w) (refreshing w) (delete key (flights w))
                (mkResolution (f_host f) (f_groups f) ips ttl started :: history w))
  | step_flight_error w key f query e :
      flights w !! key = Some f → fly query f = Err e →
      step w (mkWorld (res w) (clock w) (refreshing w) (delete key (flights w)) (history w)).

(** [reach c n w]: the world [n] steps after [New c]. *)
Inductive reach (c : DNS) : Z → world → Prop :=
  | reach_init t : valid c → reach c 0 (mkWorld (New c) t None ∅ [])
  | reach_step n w w' : reach c n w → step w w' → reach c (n + 1) w'.
End Steps.

(** ** Lemmas *)
Section Lemmas.
Context `{Unicode}.
Variable valid : DNS → Prop.

(** The routing data a generation stands for. *)
Definition routing (r : Resolver) : DNS * str * Discovery * str :=
  (applied r, SMode (state r), SDiscovery (state r), LastError (state r)).
Definition current_groups (r : Resolver) : list Group := DGroups (SDiscovery (state r)).
Notation gen w := (Generation (state (res w))).

Lemma uint64_small z : 0 ≤ z < 2 ^ 64 → uint64 z = z.
Proof. apply Z.mod_small. Qed.

Lemma Refresh_commit_spec now c found r r' e :
  0 ≤ Generation (state r) → Generation (state r) + 1 < 2 ^ 64 →
  Refresh_commit now c found r = (r', e) →
  cfg r' = cfg r ∧
  ((routing r' = routing r ∧ cache r' = cache r ∧ Generation (state r') = Generation (state r))
   ∨ (cache r' = ∅ ∧ Generation (state r') = Generation (state r) + 1)).
Proof.
  intros Hg Hm. unfold Refresh_commit. destruct (bool_decide_reflect (c = cfg r)) as [->|]; simpl.
  2:{ intros [= <- <-]. split; [done|]. by left. }
  destruct found as [d err]. intros [= <- <-]. split; [done|].
  destruct (_ || _) eqn:Ec; [right|left].
  - split; [done|]. simpl. apply uint64_small. lia.
  - bools. unfold routing. simpl. split_and!; [|done|done]. congruence.
Qed.
Lemma lookup_begin_res now name r r' b :
  lookup_begin now name r = (r', b) →
  cfg r' = cfg r ∧ applied r' = applied r ∧ state r' = state r ∧ cache r' ⊆ cache r.
Proof.
  unfold lookup_begin. repeat case_match; intros [= <- <-]; split_and!; try done; apply delete_subseteq.
Qed.
Lemma flight_commit_res now key f a victim r :
  let r' := flight_commit now key f a victim r in
  cfg r' = cfg r ∧ applied r' = applied r ∧ state r' = state r.
Proof. unfold flight_commit. destruct a as [[ips ttl] started]. by case_match. Qed.

Lemma step_cases w w' :
  0 ≤ gen w → gen w + 1 < 2 ^ 64 → step valid w w' →
  (routing (res w') = routing (res w) ∧ gen w' = gen w)
  ∨ (cache (res w') = ∅ ∧ gen w' = gen w + 1 ∧ flights w' = flights w).
Proof.
  intros H0 Hm Hs. destruct Hs; cbn [res flights with_res] in *; try (by left).
  - match goal with Hc : Refresh_commit _ _ _ _ = _ |- _ =>
      apply Refresh_commit_spec in Hc as (_ & [(? & _ & ?)|(? & ?)]) end; auto.
  - match goal with Hb : lookup_begin _ _ _ = _ |- _ =>
      apply lookup_begin_res in Hb as (_ & Ha & Hs & _) end. left. unfold routing. by rewrite Ha, Hs.
  - left. pose proof (flight_commit_res (clock w) key f (ips, ttl, started) victim (res w)) as (_ & Ha & Hs).
    cbv zeta in Ha, Hs. unfold routing. by rewrite Ha, Hs.
Qed.
Lemma gen_step n w w' :
  0 ≤ gen w ≤ n → n + 1 < 2 ^ 64 → step valid w w' → gen w ≤ gen w' ≤ n + 1.
Proof. intros ? ? Hs. destruct (step_cases w w' ltac:(lia) ltac:(lia) Hs) as [(_ & ->)|(_ & -> & _)]; lia. Qed.
Lemma gen_bound c n w : reach valid c n w → n < 2 ^ 64 → 0 ≤ gen w ≤ n.
Proof.
  induction 1 as [|n w w' _ IH Hs]; intros Hn; [done|].
  assert (0 ≤ gen w ≤ n) as Hg by (apply IH; lia). pose proof (gen_step n w w' Hg Hn Hs). lia.
Qed.

(** *** What holds in every reachable world *)
Record inv (w : world) : Prop := {
  i_flight : ∀ key f, flights w !! key = Some f →
    key = cache_key (f_gen f) (f_host f) ∧ f_gen f ≤ gen w ∧
    (f_gen f = gen w → f_groups f = Select (current_groups (res w)) (f_host f));
  i_cache : ∀ key e, cache (res w) !! key = Some e → ∃ l, l ∈ history w ∧
    key = cache_key (gen w) (l_host l) ∧ l_groups l = Select (current_groups (res w)) (l_host l) ∧
    e = mkCached (l_ips l) (l_started l + l_ttl l * Second) ∧ 0 < l_ttl l }.

Lemma inv_same w r t rf :
  inv w → routing r = routing (res w) → Generation (state r) = gen w → cache r ⊆ cache (res w) →
  inv (mkWorld r t rf (flights w) (history w)).
Proof.
  intros [Hf Hc] Hr Hg Hsub. unfold routing in Hr. injection Hr as _ _ Hd _.
  split; simpl; unfold current_groups in *; rewrite Hd, Hg; [done|].
  intros key e He. apply Hc. by eapply lookup_weaken.
Qed.
Lemma inv_step w w' : 0 ≤ gen w → gen w + 1 < 2 ^ 64 → inv w → step valid w w' → inv w'.
Proof.
  intros H0 Hm Hi Hs. pose proof (step_cases _ _ H0 Hm Hs) as Hcase.
  destruct Hs as [w t Ht|w c Hv|w c Hn He|w c auto r e Hr Hc|w name r b Hb
                 |w key f query ips ttl started victim Hf Hq Hv|w key f query e Hf Hq].
  - by apply inv_same.
  - apply inv_same; try done. simpl. apply map_empty_subseteq.
  - by apply inv_same.
  - apply Refresh_commit_spec in Hc as (_ & [(? & Hcc & ?)|(Hcc & Hg)]); [|..|done|done].
    + apply inv_same; try done. by rewrite Hcc.
    + destruct Hi as [Hf _]. split; simpl; [|by rewrite Hcc; setoid_rewrite lookup_empty].
      intros key f Hk. destruct (Hf key f Hk) as (? & ? & _). split_and!; [done|lia|]. lia.
  - pose proof Hb as (Hcf & Ha & Hst & Hsub)%lookup_begin_res.
    assert (inv (mkWorld r (clock w) (refreshing w) (flights w) (history w))) as Hi'.
    { apply inv_same; [done| |by rewrite Hst|done]. unfold routing. by rewrite Ha, Hst. }
    destruct b as [|e|key f]; [done..|]. destruct (flights w !! key) eqn:Ek; [done|].
    destruct Hi' as [Hf' Hc']. split; simpl in *; [|done].
    intros k g Hk. apply lookup_insert_Some in Hk as [[<- <-]|[_ Hk]]; [|by apply Hf'].
    unfold current_groups. rewrite Hst. unfold lookup_begin in Hb.
    repeat case_match; simplify_eq/=; done.
  - pose proof (flight_commit_res (clock w) key f (ips, ttl, started) victim (res w)) as (_ & Ha & Hst).
    cbv zeta in Ha, Hst. destruct Hi as [Hfl Hc].
    split; cbn [res flights history]; unfold current_groups; rewrite Hst.
    { intros k g [_ Hk]%lookup_delete_Some. by apply Hfl. }
    destruct (Hfl _ _ Hf) as (-> & Hle & Hgr).
    assert (∀ k e, cache (res w) !! k = Some e → ∃ l, l ∈ mkResolution (f_host f) (f_groups f) ips ttl started :: history w ∧
      k = cache_key (gen w) (l_host l) ∧ l_groups l = Select (current_groups (res w)) (l_host l) ∧
      e = mkCached (l_ips l) (l_started l + l_ttl l * Second) ∧ 0 < l_ttl l) as Hold.
    { intros k e He. destruct (Hc k e He) as (l & ? & ?). exists l. split; [by right|done]. }
    unfold flight_commit. destruct (_ && _) eqn:Ec; [|exact Hold].
    intros k e Hk. cbn [set_cache cache] in Hk. bools. apply lookup_insert_Some in Hk as [[<- <-]|[_ Hk]].
    + eexists. split; [left|]. simpl. split_and!; [congruence|by apply Hgr|done|done].
    + apply Hold. destruct (_ <=? _); [by apply lookup_delete_Some in Hk as [_ ?]|done].
  - destruct Hi as [Hfl Hc]. split; simpl; [|done]. intros k g [_ Hk]%lookup_delete_Some. by apply Hfl.
Qed.
Lemma reach_inv c n w : reach valid c n w → n < 2 ^ 64 → inv w.
Proof.
  induction 1 as [t Hv|n w w' Hr IH Hs]; intros Hn.
  - split; simpl; by setoid_rewrite lookup_empty.
  - pose proof (gen_bound _ _ _ Hr). eapply inv_step; [| |apply IH; lia|exact Hs]; lia.
Qed.

(** *** What holds of the resolver alone *)
Record consistent (r : Resolver) : Prop := {
  cs_dark : LastError (state r) ≠ [] → current_groups r = [];
  cs_mode : LastRefresh (state r) ≠ None → SMode (state r) = Mode (applied r);
  cs_manual : LastRefresh (state r) ≠ None → Mode (applied r) = "manual" →
    SDiscovery (state r) = manual_discovery (applied r) ∧ LastError (state r) = [] }.
Lemma consistent_same r r' :
  consistent r → applied r' = applied r → state r' = state r → consistent r'.
Proof. intros [? ? ?] Ha Hs. split; unfold current_groups; by rewrite ?Ha, ?Hs. Qed.
Lemma consistent_step w w' : consistent (res w) → step valid w w' → consistent (res w').
Proof.
  intros Hi Hs. destruct Hs; cbn [res with_res]; try done; try (by eapply consistent_same).
  - match goal with Hc : Refresh_commit _ _ _ _ = _ |- _ => unfold Refresh_commit in Hc end.
    destruct (bool_decide _); simpl in *; [|by simplify_eq].
    unfold discovered in *. destruct (Mode c == "manual") eqn:Em; simplify_eq.
    + split; simpl; [done|done|]. done.
    + destruct auto as [d [err|]]; simplify_eq; split; simpl; try done; bools; done.
  - match goal with Hb : lookup_begin _ _ _ = _ |- _ => apply lookup_begin_res in Hb as (_ & ? & ? & _) end.
    by eapply consistent_same.
  - pose proof (flight_commit_res (clock w) key f (ips, ttl, started) victim (res w)) as (_ & ? & ?).
    by eapply consistent_same.
Qed.
Lemma reach_consistent c n w : reach valid c n w → consistent (res w).
Proof. induction 1; [by split|by eapply consistent_step]. Qed.

(** The cache never outgrows what the settings allow. *)
Variable bound : Z.
Hypothesis valid_size : ∀ c, valid c → 0 ≤ CacheSize c ≤ bound.
Record small (w : world) : Prop := {
  sm_cfg : 0 ≤ CacheSize (cfg (res w)) ≤ bound;
  sm_flights : ∀ key f, flights w !! key = Some f → f_size f ≤ bound;
  sm_cache : Z.of_nat (size (cache (res w))) ≤ bound }.
Lemma small_shrink w r t rf :
  small w → cfg r = cfg (res w) → cache r ⊆ cache (res w) → small (mkWorld r t rf (flights w) (history w)).
Proof.
  intros [? ? ?] Hc Hs. split; simpl; [by rewrite Hc|done|].
  apply map_subseteq_size in Hs. lia.
Qed.
Lemma flight_commit_size now key f a victim r :
  (cache r ≠ ∅ → victim ∈ dom (cache r)) → f_size f ≤ bound → Z.of_nat (size (cache r)) ≤ bound →
  Z.of_nat (size (cache (flight_commit now key f a victim r))) ≤ bound.
Proof.
  intros Hv Hf Hc. unfold flight_commit. destruct a as [[ips ttl] started].
  destruct (_ && _) eqn:Ec; [|done]. bools. cbn [set_cache cache].
  destruct (Z.leb_spec (f_size f) (Z.of_nat (size (cache r)))) as [Hfull|Hfree].
  - assert (cache r ≠ ∅) as Hne by (intros E; rewrite E, map_size_empty in Hfull; lia).
    specialize (Hv Hne). apply elem_of_dom in Hv as [e He].
    pose proof (map_size_delete_Some victim (cache r) ltac:(by eexists)) as Hd.
    pose proof (map_size_ne_0_lookup_2 (cache r) victim ltac:(by eexists)).
    rewrite map_size_insert. destruct (_ !! key); unfold id; lia.
  - rewrite map_size_insert. destruct (_ !! key); unfold id; lia.
Qed.
Lemma small_step w w' : small w → step valid w w' → small w'.
Proof.
  intros Hi Hs. destruct Hs as [w t Ht|w c Hv|w c Hn He|w c auto r e Hr Hc|w name r b Hb
                 |w key f query ips ttl started victim Hf Hq Hv|w key f query e Hf Hq].
  - by apply small_shrink.
  - destruct Hi as [? ? ?]. split; simpl; [by apply valid_size|done|].
    pose proof (valid_size c Hv). rewrite map_size_empty. lia.
  - by apply small_shrink.
  - assert (cfg r = cfg (res w) ∧ cache r ⊆ cache (res w)) as [? ?]; [|by apply small_shrink].
    unfold Refresh_commit in Hc. destruct (negb _); [by simplify_eq|].
    destruct (discovered c auto). simplify_eq. simpl. split; [done|].
    destruct (_ || _); [apply map_empty_subseteq|done].
  - pose proof Hb as (Hcf & _ & _ & Hsub)%lookup_begin_res.
    assert (small (mkWorld r (clock w) (refreshing w) (flights w) (history w))) as Hi'
      by (by apply small_shrink).
    destruct b as [|e|key f]; [done..|]. destruct (flights w !! key) eqn:Ek; [done|].
    destruct Hi' as [Hc' Hf' Hm']. split; simpl in *; [done| |done].
    intros k g Hk. apply lookup_insert_Some in Hk as [[<- <-]|[_ Hk]]; [|by eapply Hf'].
    destruct Hi as [Hc'' _ _]. unfold lookup_begin in Hb. repeat case_match; simplify_eq/=; lia.
  - pose proof (flight_commit_res (clock w) key f (ips, ttl, started) victim (res w)) as (Hcf & _ & _).
    cbv zeta in Hcf. destruct Hi as [Hc Hfl Hm]. split; cbn [res flights].
    + by rewrite Hcf.
    + intros k g [_ Hk]%lookup_delete_Some. by eapply Hfl.
    + apply flight_commit_size; [done| |done]. by eapply Hfl.
  - destruct Hi as [Hc Hfl Hm]. split; simpl; [done| |done].
    intros k g [_ Hk]%lookup_delete_Some. by eapply Hfl.
Qed.
Lemma reach_small c n w : reach valid c n w → small w.
Proof.
  induction 1 as [t Hv|]; [|by eapply small_step].
  pose proof (valid_size c Hv). split; simpl; [done|by setoid_rewrite lookup_empty|].
  rewrite map_size_empty. lia.
Qed.
End Lemmas.
Lemma step_mono `{Unicode} (v v' : DNS → Prop) w w' : (∀ c, v c → v' c) → step v w w' → step v' w w'.
Proof. intros Hv []; by econstructor; eauto. Qed.
(** Only [Configure] changes the settings. *)
Lemma step_cfg `{Unicode} w w' : step (λ _, False) w w' → cfg (res w') = cfg (res w).
Proof.
  intros Hs. destruct Hs as [w t Ht|w c []|w c Hn He|w c auto r e Hr Hc|w name r b Hb
                 |w key f query ips ttl started victim Hf Hq Hv|w key f query e Hf Hq]; try done.
  - unfold Refresh_commit in Hc. by repeat (case_match; simplify_eq).
  - by apply lookup_begin_res in Hb as (? & _).
  - by pose proof (flight_commit_res (clock w) key f (ips, ttl, started) victim (res w)) as (? & _).
Qed.

(** ** Lemmas: the order of a flight *)
Section FlightOrder.
Context `{Unicode}.
(** The servers of a flight in the order it asks them. *)
Definition flight_servers (f : flight) : list (str * Z) :=
  mjoin (map (λ g, map (λ s, (s, GInterface g)) (GServers g)) (f_groups f)).
(** Attempt [k] failed, but not with a final answer. *)
Definition passed_over (query : nat → str → Z → Z * result (list Addr * Z)) (k : nat) (s : str * Z) : Prop :=
  ∃ t e, query k s.1 s.2 = (t, Err e) ∧ errors_Is e NameError = false.

Lemma try_servers_spec query n index servers last :
  (∀ n s i t ips ttl, query n s i = (t, Ok (ips, ttl)) → ips ≠ []) →
  match try_servers query n index servers last with
  | Done (ips, ttl, started) => ∃ k s, servers !! k = Some s ∧
      query (n + k)%nat s index = (started, Ok (ips, ttl)) ∧
      ∀ j s', (j < k)%nat → servers !! j = Some s' → passed_over query (n + j) (s', index)
  | Permanent e => errors_Is e NameError = true
  | Next n' _ => n' = (n + length servers)%nat ∧
      ∀ j s', servers !! j = Some s' → passed_over query (n + j) (s', index)
  end.
Proof.
  intros Hne. revert n last. induction servers as [|s servers IH]; intros n last; simpl.
  { split; [lia|]. intros j s'. by rewrite lookup_nil. }
  destruct (query n s index) as [t [[[|ip ips] ttl]|e]] eqn:Eq.
  - by apply Hne in Eq.
  - exists 0%nat, s. rewrite Nat.add_0_r. split_and!; [done|done|]. intros; lia.
  - destruct (errors_Is e NameError) eqn:Ee; [done|].
    assert (passed_over query (n + 0) (s, index)) as H0.
    { rewrite Nat.add_0_r. by exists t, e. }
    specialize (IH (S n) (Some e)). destruct (try_servers query (S n) index servers (Some e)) as [[[ips ttl] st]|e'|n' l'].
    + destruct IH as (k & s1 & Hk & Hq & Hj). exists (S k), s1. split_and!; [done| |].
      * by replace (n + S k)%nat with (S n + k)%nat by lia.
      * intros [|j] s' Hlt Hs'; simpl in Hs'; [by simplify_eq|].
        replace (n + S j)%nat with (S n + j)%nat by lia. apply Hj; [lia|done].
    + done.
    + destruct IH as [-> Hj]. split; [lia|]. intros [|j] s' Hs'; simpl in Hs'; [by simplify_eq|].
      replace (n + S j)%nat with (S n + j)%nat by lia. by apply Hj.
Qed.
Lemma try_groups_spec query n groups last :
  (∀ n s i t ips ttl, query n s i = (t, Ok (ips, ttl)) → ips ≠ []) →
  let servers := mjoin (map (λ g, map (λ s, (s, GInterface g)) (GServers g)) groups) in
  match try_groups query n groups last with
  | Ok (ips, ttl, started) => ∃ k s, servers !! k = Some s ∧
      query (n + k)%nat s.1 s.2 = (started, Ok (ips, ttl)) ∧
      ∀ j s', (j < k)%nat → servers !! j = Some s' → passed_over query (n + j) s'
  | Err e => errors_Is e NameError = true ∨
      ∀ j s', servers !! j = Some s' → passed_over query (n + j) s'
  end.
Proof.
  intros Hne. cbv zeta. revert n last. induction groups as [|g groups IH]; intros n last.
  { right. intros j s'. simpl. by rewrite lookup_nil. }
  cbn [map mjoin try_groups list_join]. set (rest := mjoin _) in *.
  pose proof (try_servers_spec query n (GInterface g) (GServers g) last Hne) as Ht.
  assert (∀ j s', (j < length (GServers g))%nat →
    (map (λ s, (s, GInterface g)) (GServers g) ++ rest) !! j = Some s' →
    ∃ x, s' = (x, GInterface g) ∧ GServers g !! j = Some x) as Hin.
  { intros j s' Hj. rewrite lookup_app_l by (by rewrite length_map).
    intros Hm. apply list_lookup_fmap_Some in Hm as (x & Hx & ->). by exists x. }
  destruct (try_servers query n (GInterface g) (GServers g) last) as [[[ips ttl] st]|e|n' l'].
  - destruct Ht as (k & s & Hk & Hq & Hj). pose proof (lookup_lt_Some _ _ _ Hk) as Hlt.
    exists k, (s, GInterface g). split_and!; [|done|].
    + apply lookup_app_l_Some. apply list_lookup_fmap_Some. by exists s.
    + intros j s' Hjk Hs'. apply Hin in Hs' as (x & -> & Hx); [|lia]. by apply Hj.
  - by left.
  - destruct Ht as [-> Hj]. specialize (IH (n + length (GServers g))%nat l').
    assert (∀ k, (map (λ s, (s, GInterface g)) (GServers g) ++ rest) !! (length (GServers g) + k)%nat = rest !! k) as Hsh.
    { intros k. rewrite lookup_app_r by (rewrite length_map; lia). f_equal. rewrite length_map. lia. }
    assert (∀ j s' (P : Prop), (map (λ s, (s, GInterface g)) (GServers g) ++ rest) !! j = Some s' →
      ((j < length (GServers g))%nat → P) → (∀ k, j = (length (GServers g) + k)%nat → rest !! k = Some s' → P) → P) as Hcase.
    { intros j s' P Hs' H1 H2. destruct (decide (j < length (GServers g))%nat) as [|Hge]; [by apply H1|].
      apply (H2 (j - length (GServers g))%nat); [lia|]. rewrite <- Hsh.
      by replace (length (GServers g) + (j - length (GServers g)))%nat with j by lia. }
    destruct (try_groups query _ groups l') as [[[ips ttl] st]|e].
    + destruct IH as (k & s & Hk & Hq & Hbefore). exists (length (GServers g) + k)%nat, s.
      split_and!; [by rewrite Hsh|by rewrite Nat.add_assoc|].
      intros j s' Hlt Hs'. apply (Hcase j s' _ Hs').
      * intros Hl. apply Hin in Hs' as (x & -> & Hx); [|done]. by apply Hj.
      * intros i -> Hi. rewrite Nat.add_assoc. apply Hbefore; [lia|done].
    + destruct IH as [?|Hall]; [by left|right]. intros j s' Hs'. apply (Hcase j s' _ Hs').
      * intros Hl. apply Hin in Hs' as (x & -> & Hx); [|done]. by apply Hj.
      * intros i -> Hi. rewrite Nat.add_assoc. by apply Hall.
Qed.
End FlightOrder.

(** ** Properties *)
Section Properties.
Context `{Unicode}.
Variable valid : DNS → Prop.

(** C6: A cached answer is fresh and still routed the same way: in every world reachable
    in fewer than 2^64 steps of any interleaving of lookups, flights, refreshes and
    reconfigurations, an answer that a lookup takes from the cache was obtained by an
    earlier flight for the same name, from the groups that the present routing selects
    for that name, and its lifetime, counted from the start of that resolution, is not
    over. *)
Theorem cached_answer_fresh_and_routed c n w name r ips :
  reach valid c n w → n < 2 ^ 64 →
  lookup_begin (clock w) name (res w) = (r, Cached ips) →
  ∃ l, l ∈ history w ∧ l_host l = lookup_host name ∧ l_ips l = ips ∧
    l_groups l = Select (current_groups (res w)) (lookup_host name) ∧
    clock w < l_started l + l_ttl l * Second.
Proof.
  intros Hr Hn Hb. pose proof (reach_inv _ _ _ _ Hr Hn) as [_ Hc].
  unfold lookup_begin in Hb. destruct (_ != _); [done|].
  destruct (cache (res w) !! _) as [e|] eqn:Ee; [|by case_match].
  destruct (Z.ltb_spec (clock w) (c_expires e)) as [Hx|Hx]; [|by case_match].
  simplify_eq. destruct (Hc _ _ Ee) as (l & Hl & Hk & Hg & -> & _).
  unfold cache_key in Hk. do 2 apply app_inv_head in Hk.
  exists l. rewrite Hk. simpl in *. done.
Qed.

(** The generation identifies the routing: along every run shorter than 2^64 steps, two
    worlds with the same generation have the same applied settings, mode, discovery and
    error. [Lookup] relies on it when it retries only if the generation changed, and so
    does the cache, whose keys carry the generation. *)
Theorem generation_identifies_routing c n w m w' :
  reach valid c n w → n + Z.of_nat m < 2 ^ 64 → nsteps (step valid) m w w' →
  Generation (state (res w)) ≤ Generation (state (res w')) ∧
  (Generation (state (res w')) = Generation (state (res w)) → routing (res w') = routing (res w)).
Proof.
  intros Hr Hn Hs. revert n Hr Hn. induction Hs as [w|m w w1 w' Hs _ IH]; intros n Hr Hn; [done|].
  pose proof (gen_bound _ _ _ _ Hr ltac:(lia)) as Hg.
  assert (reach valid c (n + 1) w1) as Hr1 by (by eapply reach_step).
  destruct (IH _ Hr1 ltac:(lia)) as [Hle Heq].
  destruct (step_cases valid w w1 ltac:(lia) ltac:(lia) Hs) as [(Hro & Hge)|(_ & Hge & _)].
  - rewrite Hge in *. split; [done|]. intros E. rewrite <- Hro. by apply Heq.
  - split; lia.
Qed.

(** A failed discovery goes dark instead of stale: in every reachable world in which
    the last refresh failed, no group is left and every lookup fails at once, cached
    answers included; and once a refresh has run in manual mode, the groups are exactly
    the configured servers. *)
Theorem failed_discovery_is_dark c n w :
  reach valid c n w →
  (LastError (state (res w)) ≠ [] →
     current_groups (res w) = [] ∧
     ∀ name, lookup_begin (clock w) name (res w)
             = (res w, Failed (errors_New ("dns_unavailable: " ++ LastError (state (res w)))))) ∧
  (LastRefresh (state (res w)) ≠ None → Mode (applied (res w)) = "manual" →
     SDiscovery (state (res w)) = manual_discovery (applied (res w)) ∧ LastError (state (res w)) = []).
Proof.
  intros Hr. apply reach_consistent in Hr as [Hd _ Hm]. split; [|exact Hm].
  intros He. split; [by apply Hd|]. intros name. unfold lookup_begin.
  rewrite (proj2 (str_eqb_neq (LastError (state (res w))) "")) by done. done.
Qed.

(** The cache is bounded: when every configured cache size is at most [bound], as
    validation ensures for 65536, no interleaving makes the cache hold more entries,
    reconfiguration during a flight included. *)
Theorem cache_bounded bound c n w :
  (∀ c, valid c → 0 ≤ CacheSize c ≤ bound) → reach valid c n w →
  Z.of_nat (size (cache (res w))) ≤ bound.
Proof. intros Hv Hr. by apply (reach_small valid bound Hv) in Hr as [_ _ ?]. Qed.

(** A flight asks the selected servers in order and stops at the first answer: when
    [resolve] never succeeds without an address, a successful flight returns the answer of
    some server of its groups, and every server before it failed with an error other than
    a name error; a failed flight met a name error, which is final, or every server of
    every group failed otherwise. No server outside the groups is asked. *)
Theorem fly_spec query f :
  (∀ n s i t ips ttl, query n s i = (t, Ok (ips, ttl)) → ips ≠ []) →
  match fly query f with
  | Ok (ips, ttl, started) => ∃ k s, flight_servers f !! k = Some s ∧
      query k s.1 s.2 = (started, Ok (ips, ttl)) ∧
      ∀ j s', (j < k)%nat → flight_servers f !! j = Some s' → passed_over query j s'
  | Err e => errors_Is e NameError = true ∨
      ∀ j s', flight_servers f !! j = Some s' → passed_over query j s'
  end.
Proof. intros Hne. exact (try_groups_spec query 0 (f_groups f) None Hne). Qed.
End Properties.

(** ** Witnesses *)
(** A run in manual mode: the first refresh, a lookup of a.test, its flight and its answer. *)
Definition demo_dns : DNS := mkDNS "manual" ["9.9.9.9:53" : str] (30 * Second) (3 * Second) 2.
Definition demo_valid (c : DNS) : Prop := 0 ≤ CacheSize c ≤ 65536.
Definition demo_query (n : nat) (server : str) (index : Z) : Z * result (list Addr * Z) :=
  (0, Ok ([V4 16909060], 60)).
Definition demo_flight : flight :=
  mkFlight 1 "a.test." [mkGroup ["9.9.9.9:53" : str] [] 0 0 true] 2.
Definition demo_r1 : Resolver := Eval vm_compute in
  (Refresh_commit 0 demo_dns (discovered demo_dns (manual_discovery demo_dns, None)) (New demo_dns)).1.
Definition demo_key : str := Eval vm_compute in cache_key 1 "a.test.".
Definition demo_w0 : world := mkWorld (New demo_dns) 0 None ∅ [].
Definition demo_w1 : world := mkWorld (New demo_dns) 0 (Some demo_dns) ∅ [].
Definition demo_w2 : world := mkWorld demo_r1 0 None ∅ [].
Definition demo_w3 : world := mkWorld demo_r1 0 None {[demo_key := demo_flight]} [].
Definition demo_w4 : world :=
  mkWorld (flight_commit 0 demo_key demo_flight ([V4 16909060], 60, 0) demo_key demo_r1) 0 None
    (delete demo_key {[demo_key := demo_flight]})
    [mkResolution "a.test." [mkGroup ["9.9.9.9:53" : str] [] 0 0 true] [V4 16909060] 60 0].
Lemma demo_reach2 : @reach ascii_only demo_valid demo_dns 2 demo_w2.
Proof.
  apply (reach_step (H := ascii_only) _ _ 1 demo_w1).
  - apply (reach_step (H := ascii_only) _ _ 0 demo_w0); [constructor; by_compute|].
    by apply (@step_refresh_enter ascii_only demo_valid demo_w0 demo_dns).
  - by apply (@step_refresh_commit ascii_only demo_valid demo_w1 demo_dns (manual_discovery demo_dns, None) demo_r1 None).
Qed.
Lemma demo_steps24 : nsteps (@step ascii_only demo_valid) 2 demo_w2 demo_w4.
Proof.
  apply (nsteps_l _ _ _ demo_w3); [|apply nsteps_once].
  - apply (@step_lookup ascii_only demo_valid demo_w2 "A.test" demo_r1 (Fly demo_key demo_flight)).
    vm_compute. reflexivity.
  - apply (@step_flight ascii_only demo_valid demo_w3 demo_key demo_flight demo_query [V4 16909060] 60 0 demo_key);
      [vm_compute; reflexivity..|]. intros Hne. destruct Hne. vm_compute. reflexivity.
Qed.
Lemma demo_reach4 : @reach ascii_only demo_valid demo_dns 4 demo_w4.
Proof.
  apply (reach_step (H := ascii_only) _ _ 3 demo_w3).
  - apply (reach_step (H := ascii_only) _ _ 2 demo_w2); [apply demo_reach2|].
    apply (@step_lookup ascii_only demo_valid demo_w2 "A.test" demo_r1 (Fly demo_key demo_flight)).
    vm_compute. reflexivity.
  - apply (@step_flight ascii_only demo_valid demo_w3 demo_key demo_flight demo_query [V4 16909060] 60 0 demo_key);
      [vm_compute; reflexivity..|]. intros Hne. destruct Hne. vm_compute. reflexivity.
Qed.

Lemma cached_answer_fresh_and_routed_witness :
  ∃ l, l ∈ history demo_w4 ∧ l_ips l = [V4 16909060] ∧ 0 < l_started l + l_ttl l * Second.
Proof.
  destruct (@cached_answer_fresh_and_routed ascii_only demo_valid demo_dns 4 demo_w4 "A.TEST" (res demo_w4)
    [V4 16909060] demo_reach4) as (l & Hl & _ & Hi & _ & Ht).
  - reflexivity.
  - vm_compute. reflexivity.
  - exists l. split; [exact Hl|]. split; [exact Hi|exact Ht].
Defined.
Lemma generation_identifies_routing_witness :
  Generation (state (res demo_w4)) = 1 ∧ routing (res demo_w4) = routing (res demo_w2).
Proof.
  split; [vm_compute; reflexivity|].
  refine (proj2 (@generation_identifies_routing ascii_only demo_valid demo_dns 2 demo_w2 2 demo_w4
    demo_reach2 _ demo_steps24) _); by_compute.
Defined.
(** Automatic discovery that fails. *)
Definition dark_dns : DNS := mkDNS "auto" [] (30 * Second) (3 * Second) 2.
Definition dark_result : Discovery * option error :=
  (mkDiscovery "scutil --dns" "domain-aware" demo_groups, Some (errors_New "no usable server")).
Definition dark_w1 : world := mkWorld (New dark_dns) 0 (Some dark_dns) ∅ [].
Definition dark_w2 : world :=
  mkWorld (Refresh_commit 0 dark_dns (discovered dark_dns dark_result) (New dark_dns)).1 0 None ∅ [].
Lemma dark_reach2 : @reach ascii_only demo_valid dark_dns 2 dark_w2.
Proof.
  apply (reach_step (H := ascii_only) _ _ 1 dark_w1).
  - apply (reach_step (H := ascii_only) _ _ 0 (mkWorld (New dark_dns) 0 None ∅ [])); [constructor; by_compute|].
    by apply (@step_refresh_enter ascii_only demo_valid (mkWorld (New dark_dns) 0 None ∅ []) dark_dns).
  - by apply (@step_refresh_commit ascii_only demo_valid dark_w1 dark_dns dark_result
                (res dark_w2) (Some (errors_New "no usable server"))).
Qed.
Lemma failed_discovery_is_dark_witness :
  lookup_begin (H := ascii_only) 0 "a.test" (res dark_w2)
  = (res dark_w2, Failed (errors_New "dns_unavailable: no usable server")).
Proof.
  refine (proj2 (proj1 (@failed_discovery_is_dark ascii_only demo_valid dark_dns 2 dark_w2 dark_reach2) _) "a.test").
  discriminate.
Defined.
Lemma cache_bounded_witness : Z.of_nat (size (cache (res demo_w4))) ≤ 65536.
Proof.
  apply (@cache_bounded ascii_only demo_valid 65536 demo_dns 4); [intros c Hc; exact Hc|exact demo_reach4].
Defined.
Lemma fly_spec_witness :
  ∃ k s, flight_servers demo_flight !! k = Some s ∧
    demo_query k s.1 s.2 = (0, Ok ([V4 16909060], 60)).
Proof.
  destruct (fly_spec demo_query demo_flight) as (k & s & Hk & Hq & _).
  - unfold demo_query. intros ? ? ? ? ? ? [= <- <- <-]. discriminate.
  - exists k, s. split; [exact Hk|exact Hq].
Defined.
