(* ===== verification/Fsutil.v ===== *)
(** * Fsutil: the file system and the operations on private files
    (src/internal/fsutil/fsutil.go)

    The kernel's file system is modelled as directory entries and inodes, with what a crash
    preserves of them. System calls may fail at any point ([fault]), a failing write may
    leave a part of the data, and other processes may act before any call ([env]). Programs
    are functions in the monad [M], which records the state after every call. *)
From S2P Require Import Prelude Strs.

(** ** The file system *)
Inductive ftype := FRegular | FDir | FSymlink | FSocket | FOther.
#[global] Instance ftype_eq_dec : EqDecision ftype.
Proof. solve_decision. Defined.
Record inode := mkInode {
  i_type : ftype; i_mode : Z; i_uid : Z; i_gid : Z;
  i_data : str;                        (* a link's target *)
  i_synced : bool;                     (* the data is on disk *)
  i_xattrs : list (str * str) }.
Record fs := mkFs {
  dents : gmap str Z;                  (* directory entries: path to inode number *)
  ddents : gmap str Z;                 (* the entries on disk *)
  inodes : gmap Z inode;
  locks : gset Z }.                    (* inodes locked with flock *)

Definition inode_at (s : fs) (p : str) : option inode := n ← dents s !! p; inodes s !! n.
Definition read (s : fs) (p : str) : option str := i_data <$> inode_at s p.
Definition fresh_ino (s : fs) : Z := fresh (C := gset Z) (dom (inodes s)).
Definition set_dents (s : fs) (d : gmap str Z) : fs := mkFs d (ddents s) (inodes s) (locks s).
Definition set_inodes (s : fs) (m : gmap Z inode) : fs := mkFs (dents s) (ddents s) m (locks s).
Definition set_data (i : inode) (b : str) (synced : bool) : inode :=
  mkInode (i_type i) (i_mode i) (i_uid i) (i_gid i) b synced (i_xattrs i).
Definition set_mode (i : inode) (m : Z) : inode :=
  mkInode (i_type i) m (i_uid i) (i_gid i) (i_data i) (i_synced i) (i_xattrs i).
Definition set_owner (i : inode) (u g : Z) : inode :=
  mkInode (i_type i) (i_mode i) u g (i_data i) (i_synced i) (i_xattrs i).
Definition set_xattrs (i : inode) (x : list (str * str)) : inode :=
  mkInode (i_type i) (i_mode i) (i_uid i) (i_gid i) (i_data i) (i_synced i) x.

(** A state found after a crash: every directory entry is the last one or the one on disk,
    and data that was synced is intact. *)
Definition crash (s s' : fs) : Prop :=
  (∀ p, dents s' !! p = dents s !! p ∨ dents s' !! p = ddents s !! p) ∧
  (∀ n i, inodes s !! n = Some i →
     ∃ i', inodes s' !! n = Some i' ∧ (i_synced i = true → i_data i' = i_data i)).

(** ** Programs *)
Record os := mkOs { sys : fs; calls : nat; trace : list fs }.
Definition M (A : Type) : Type := os → result A * os.
#[global] Instance M_ret : MRet M := λ A a o, (Ok a, o).
#[global] Instance M_bind : MBind M := λ A B f m o,
  match m o with (Ok a, o') => f a o' | (Err e, o') => (Err e, o') end.
Definition lift {A} (r : result A) : M A := λ o, (r, o).
Definition fail {A} (e : error) : M A := lift (Err e).
(** A call whose error is ignored. *)
Definition ignore {A} (m : M A) : M unit := λ o, (Ok tt, (m o).2).
(** [defer d] for the rest of a function. *)
Definition finally {A} (m : M A) (d : M unit) : M A := λ o, let '(r, o') := m o in (r, (d o').2).
(** What the rest of a function does with a call's error. *)
Definition try {A} (m : M A) : M (result A) := λ o, let '(r, o') := m o in (Ok r, o').

Class Kernel := {
  fault : nat → option error;                (* the call that fails, and how *)
  short_write : nat → nat;                   (* how much a failing write has written *)
  env : nat → fs → fs;                       (* other processes, before each call *)
  temp_name : fs → str → str;                (* the name CreateTemp picks *)
  temp_fresh : ∀ s d, dents s !! temp_name s d = None;
  euid : Z }.

Section Calls.
Context `{Kernel}.

Definition syscall {A} (partial : nat → fs → fs) (f : fs → result A * fs) : M A := λ o,
  let k := calls o in
  let s := env k (sys o) in
  match fault k with
  | Some e => let s := partial k s in (Err e, mkOs s (S k) (s :: trace o))
  | None => let '(r, s) := f s in (r, mkOs s (S k) (s :: trace o))
  end.
Definition nothing (k : nat) (s : fs) : fs := s.
Definition not_exist : error := mkError "no such file or directory" [ErrNotExist].
Definition exists_error : error := mkError "file exists" [ErrExist].
(** A call that only looks. *)
Definition query {A} (f : fs → result A) : M A := syscall nothing (λ s, (f s, s)).

(** [O_CREATE|O_EXCL]: a new empty inode; the descriptor is its number. *)
Definition add_file (s : fs) (p : str) (mode : Z) : Z * fs :=
  let n := fresh_ino s in
  (n, mkFs (<[p := n]> (dents s)) (ddents s)
           (<[n := mkInode FRegular mode euid euid [] true []]> (inodes s)) (locks s)).
Definition sys_create (p : str) (mode : Z) : M Z := syscall nothing (λ s,
  match dents s !! p with
  | Some _ => (Err exists_error, s)
  | None => let '(n, s) := add_file s p mode in (Ok n, s)
  end).
Definition CreateTemp (dir pattern : str) : M (Z * str) := syscall nothing (λ s,
  let p := temp_name s (dir ++ pattern) in
  let '(n, s) := add_file s p 384 in (Ok (n, p), s)).
Definition on_inode (n : Z) (f : inode → inode) (s : fs) : fs :=
  set_inodes s (alter f n (inodes s)).
Definition append_data (b : str) (i : inode) : inode := set_data i (i_data i ++ b) (bool_decide (b = []) && i_synced i).
Definition Write (fd : Z) (b : str) : M unit := syscall
  (λ k s, on_inode fd (append_data (take (short_write k) b)) s)
  (λ s, (Ok tt, on_inode fd (append_data b) s)).
Definition Chmod (fd : Z) (mode : Z) : M unit := syscall nothing (λ s,
  (Ok tt, on_inode fd (λ i, set_mode i mode) s)).
Definition Chown (fd : Z) (u g : Z) : M unit := syscall nothing (λ s,
  (Ok tt, on_inode fd (λ i, set_owner i u g) s)).
Definition Sync (fd : Z) : M unit := syscall nothing (λ s,
  (Ok tt, on_inode fd (λ i, set_data i (i_data i) true) s)).
Definition Close (fd : Z) : M unit := syscall nothing (λ s, (Ok tt, s)).
Definition Rename (old new : str) : M unit := syscall nothing (λ s,
  match dents s !! old with
  | Some n => (Ok tt, set_dents s (<[new := n]> (delete old (dents s))))
  | None => (Err not_exist, s)
  end).
Definition Remove (p : str) : M unit := syscall nothing (λ s,
  match dents s !! p with
  | Some _ => (Ok tt, set_dents s (delete p (dents s)))
  | None => (Err not_exist, s)
  end).
(** Opening, syncing and closing the directory of a path. *)
Definition OpenDir (p : str) : M unit := query (λ s, Ok tt).
Definition SyncDir (p : str) : M unit := syscall nothing (λ s,
  (Ok tt, mkFs (dents s) (dents s) (inodes s) (locks s))).
(** An entry always has its inode; [stale] keeps the model total. *)
Definition stale : error := errors_New "stale file handle".
Definition missing (s : fs) (p : str) : error := match dents s !! p with Some _ => stale | None => not_exist end.
Definition Lstat (p : str) : M inode := query (λ s, of_option (missing s p) (inode_at s p)).
(** [Stat] follows links at the end of the path. *)
Fixpoint follow (n : nat) (s : fs) (p : str) : option (Z * inode) :=
  match dents s !! p with
  | None => None
  | Some k =>
      match inodes s !! k, n with
      | Some i, S n' => match i_type i with FSymlink => follow n' s (i_data i) | _ => Some (k, i) end
      | _, _ => None
      end
  end.
Definition is_directory : error := errors_New "is a directory".
Definition read_file (s : fs) (p : str) : result str :=
  match follow 40 s p with
  | None => Err not_exist
  | Some (_, i) => if bool_decide (i_type i = FDir) then Err is_directory else Ok (i_data i)
  end.
Definition ReadFile (p : str) : M str := query (λ s, read_file s p).
Definition Stat (p : str) : M (Z * inode) := query (λ s, of_option not_exist (follow 40 s p)).
(** [os.MkdirAll]; the parents of the directory are not modelled. *)
Definition MkdirAll (p : str) (mode : Z) : M unit := syscall nothing (λ s,
  match dents s !! p with
  | Some _ =>
      match follow 40 s p with
      | Some (_, i) => (if bool_decide (i_type i = FDir) then Ok tt
                        else Err (errors_New "not a directory"), s)
      | None => (Err exists_error, s)
      end
  | None =>
      let n := fresh_ino s in
      (Ok tt, mkFs (<[p := n]> (dents s)) (ddents s)
                (<[n := mkInode FDir mode euid euid [] true []]> (inodes s)) (locks s))
  end).

(** ** fsutil.go *)
Definition PrivateDir (path : str) : M unit :=
  _ ← MkdirAll path 448;
  i ← Lstat path;
  _ ← lift (guard_err (negb (bool_decide (i_type i = FDir))) (errors_New ("not a real directory: " ++ path)));
  _ ← lift (guard_err (negb (Z.land (i_mode i) 63 =? 0))
              (errors_New ("directory " ++ path ++ " must be private (chmod 700)")));
  '(_, st) ← Stat path;
  lift (guard_err (negb (i_uid st =? euid))
          (errors_New ("private directory belongs to another user: " ++ path))).

Definition Exclusive (path : str) (b : str) (mode : Z) : M unit :=
  fd ← sys_create path mode;
  r ← try (_ ← Write fd b; _ ← Sync fd; Close fd);
  _ ← ignore (Close fd);
  match r with
  | Ok _ => mret tt
  | Err e => _ ← ignore (Remove path); fail e
  end.

(** [filepath.Dir] of a clean path. *)
Definition Dir (p : str) : str :=
  match CutLast p slash with
  | Some ([], _) => "/"
  | Some (d, _) => d
  | None => "."
  end.
Definition Atomic (path : str) (b : str) (mode : Z) : M unit :=
  '(fd, tmp) ← CreateTemp (Dir path) "/.utlsproxy-*";
  finally
    (_ ← Chmod fd mode;
     _ ← Write fd b;
     _ ← Sync fd;
     _ ← Close fd;
     _ ← Rename tmp path;
     d ← try (OpenDir (Dir path));
     match d with
     | Ok _ => _ ← ignore (SyncDir (Dir path)); mret tt
     | Err _ => mret tt
     end)
    (_ ← ignore (Close fd); ignore (Remove tmp)).

(** [Lock]: the lock file is created if missing and never followed through a link; the
    function returned unlocks it. *)
Definition sys_open_lock (path : str) : M Z := syscall nothing (λ s,
  match dents s !! path with
  | Some n =>
      match inodes s !! n with
      | Some i => (if bool_decide (i_type i = FSymlink) then Err (errors_New "too many levels of symbolic links") else Ok n, s)
      | None => (Err not_exist, s)
      end
  | None => let '(n, s) := add_file s path 384 in (Ok n, s)
  end).
Definition Flock (fd : Z) : M unit := syscall nothing (λ s,
  if decide (fd ∈ locks s) then (Err (errors_New "resource temporarily unavailable"), s)
  else (Ok tt, mkFs (dents s) (ddents s) (inodes s) ({[fd]} ∪ locks s))).
Definition Unflock (fd : Z) : M unit := syscall nothing (λ s,
  (Ok tt, mkFs (dents s) (ddents s) (inodes s) (locks s ∖ {[fd]}))).
Definition Lock (path : str) : M (M unit) :=
  fd ← sys_open_lock path;
  r ← try (Flock fd);
  match r with
  | Err e => _ ← ignore (Close fd); fail (Errorf_w ("already locked " ++ path ++ ": ") e)
  | Ok _ => mret (_ ← ignore (Unflock fd); ignore (Close fd))
  end.
Definition Regular (path : str) : M unit :=
  i ← Lstat path;
  lift (guard_err (negb (bool_decide (i_type i = FRegular))) (errors_New ("not a regular file: " ++ path))).
End Calls.

(** [RootOwned]: every ancestor of the path as written and of the path without links;
    [lstat] and [stat] are the two system calls. *)
Section RootOwned.
Variables (lstat stat : str → result inode).
Definition lexical_ok (p : str) : result unit :=
  st ← lstat p;
  guard_err (negb (i_uid st =? 0)
             || (negb (bool_decide (i_type st = FSymlink)) && negb (Z.land (i_mode st) 18 =? 0)))
    (errors_New ("root service requires a protected path: " ++ p)).
Definition resolved_ok (p : str) : result unit :=
  st ← stat p;
  guard_err (negb (i_uid st =? 0) || negb (Z.land (i_mode st) 18 =? 0))
    (errors_New ("root service requires root-owned, non-writable path: " ++ p)).
Fixpoint ancestors_ok (fuel : nat) (check : str → result unit) (p : str) : result unit :=
  match fuel with
  | O => Err (errors_New "out of fuel")
  | S n => _ ← check p; if Dir p == p then Ok tt else ancestors_ok n check (Dir p)
  end.
Definition RootOwned (Abs EvalSymlinks : str → result str) (path : str) : result unit :=
  lexical ← Abs path;
  _ ← ancestors_ok (2 + length lexical) lexical_ok lexical;
  p ← EvalSymlinks path;
  ancestors_ok (2 + length p) resolved_ok p.
End RootOwned.

Lemma follow_regular s p i : inode_at s p = Some i → i_type i = FRegular → ∃ n, follow 40 s p = Some (n, i).
Proof.
  unfold inode_at. intros Hi Ht. destruct (dents s !! p) as [n|] eqn:E; [|done]. cbn in Hi.
  exists n. simpl. by rewrite E, Hi, Ht.
Qed.
Lemma read_file_regular s p i : inode_at s p = Some i → i_type i = FRegular → read_file s p = Ok (i_data i).
Proof.
  intros Hi Ht. destruct (follow_regular s p i Hi Ht) as [n Hn]. unfold read_file. rewrite Hn, bool_decide_false; [done|].
  by rewrite Ht.
Qed.

(** ** Reasoning about programs

    [hoare good P m Q]: from a state satisfying [P], [m] ends with a result and a state
    satisfying [Q], and every state after one of its calls satisfies [good]. *)
Definition hoare {A} (good : fs → Prop) (P : fs → Prop) (m : M A) (Q : result A → fs → Prop) : Prop :=
  ∀ o, P (sys o) →
    Q (m o).1 (sys (m o).2) ∧ (Forall good (trace o) → Forall good (trace (m o).2)).

Section Hoare.
Context `{Kernel} (good : fs → Prop).
Lemma hoare_ret {A} (a : A) (P : fs → Prop) (Q : result A → fs → Prop) :
  (∀ s, P s → Q (Ok a) s) → hoare good P (mret a) Q.
Proof. intros HQ o HP. split; [by apply HQ|done]. Qed.
Lemma hoare_lift {A} (r : result A) (P : fs → Prop) (Q : result A → fs → Prop) :
  (∀ s, P s → Q r s) → hoare good P (lift r) Q.
Proof. intros HQ o HP. split; [by apply HQ|done]. Qed.
Lemma hoare_bind {A B} (m : M A) (f : A → M B) P R Q :
  hoare good P m R → (∀ e s, R (Err e) s → Q (Err e) s) →
  (∀ a, hoare good (R (Ok a)) (f a) Q) → hoare good P (m ≫= f) Q.
Proof.
  intros Hm He Hf o HP. destruct (Hm o HP) as [HR Ht]. unfold mbind, M_bind.
  destruct (m o) as [[a|e] o']; simpl in *; [|split; [by apply He|done]].
  destruct (Hf a o' HR) as [HQ Ht']. split; [done|]. intros Hg. by apply Ht', Ht.
Qed.
Lemma hoare_bind_lift {A B} (r : result A) (f : A → M B) P Q :
  (∀ a, r = Ok a → hoare good P (f a) Q) → (∀ e s, r = Err e → P s → Q (Err e) s) →
  hoare good P (lift r ≫= f) Q.
Proof.
  intros Hf He. destruct r as [a|e]; [by apply (Hf a)|]. intros o HP. split; [by apply He|done].
Qed.
Lemma hoare_conseq {A} (m : M A) (P P' : fs → Prop) (Q Q' : result A → fs → Prop) :
  hoare good P m Q → (∀ s, P' s → P s) → (∀ r s, Q r s → Q' r s) → hoare good P' m Q'.
Proof. intros Hm HP HQ o Ho. destruct (Hm o (HP _ Ho)). split; [by apply HQ|done]. Qed.
Lemma hoare_try {A} (m : M A) P Q (R : result A → fs → Prop) :
  hoare good P m R → (∀ r s, R r s → Q (Ok r) s) → hoare good P (try m) Q.
Proof.
  intros Hm HQ o HP. destruct (Hm o HP) as [HR Ht]. unfold try.
  destruct (m o) as [r o']; simpl in *. split; [by apply HQ|done].
Qed.
Lemma hoare_ignore {A} (m : M A) P (Q : result unit → fs → Prop) :
  hoare good P m (λ _ s, Q (Ok tt) s) → hoare good P (ignore m) Q.
Proof. intros Hm o HP. destruct (Hm o HP) as [HR Ht]. split; done. Qed.
Lemma hoare_finally {A} (m : M A) (d : M unit) P Q (R : result A → fs → Prop) :
  hoare good P m R → (∀ r, hoare good (R r) d (λ _ s, Q r s)) → hoare good P (finally m d) Q.
Proof.
  intros Hm Hd o HP. destruct (Hm o HP) as [HR Ht]. unfold finally.
  destruct (m o) as [r o'] eqn:E; simpl in *. destruct (Hd r o' HR) as [HQ Ht'].
  split; [done|]. intros Hg. by apply Ht', Ht.
Qed.
Lemma hoare_exists {A X} (m : M A) (P : X → fs → Prop) Q :
  (∀ x, hoare good (P x) m Q) → hoare good (λ s, ∃ x, P x s) m Q.
Proof. intros Hm o [x HP]. by apply (Hm x). Qed.
Lemma hoare_pure {A} (m : M A) (p : Prop) (P : fs → Prop) Q :
  (p → hoare good P m Q) → hoare good (λ s, p ∧ P s) m Q.
Proof. intros Hm o [Hp HP]. by apply (Hm Hp). Qed.

Lemma hoare_pure_r {A} (m : M A) (p : Prop) (P : fs → Prop) Q :
  (p → hoare good P m Q) → hoare good (λ s, P s ∧ p) m Q.
Proof. intros Hm o [HP Hp]. by apply (Hm Hp). Qed.

(** No other process touches the files at work. *)
Definition quiet : Prop := ∀ k s, env k s = s.
Hypothesis alone : quiet.
Lemma hoare_syscall {A} partial (f : fs → result A * fs) P Q :
  (∀ s, P s → Q (f s).1 (f s).2 ∧ good (f s).2) →
  (∀ s k e, P s → Q (Err e) (partial k s) ∧ good (partial k s)) →
  hoare good P (syscall partial f) Q.
Proof.
  intros Hf Hp o HP. unfold syscall. rewrite alone. destruct (fault (calls o)) as [e|].
  - destruct (Hp (sys o) (calls o) e HP). simpl. split; [done|]. intros ?. by apply Forall_cons.
  - destruct (Hf (sys o) HP). destruct (f (sys o)) as [r s]. simpl in *. split; [done|].
    intros ?. by apply Forall_cons.
Qed.
Lemma hoare_query_fault {A} (f : fs → result A) (P : fs → Prop) (Q : result A → fs → Prop) :
  (∀ s, P s → good s) → (∀ s, P s → Q (f s) s) → (∀ s k e, P s → fault k = Some e → Q (Err e) s) →
  hoare good P (query f) Q.
Proof.
  intros Hg HQ He o HP. unfold query, syscall, nothing. rewrite alone.
  destruct (fault (calls o)) as [e|] eqn:E; simpl; (split; [eauto|]); intros ?; apply Forall_cons; eauto.
Qed.
Lemma hoare_query {A} (f : fs → result A) (P : fs → Prop) (Q : result A → fs → Prop) :
  (∀ s, P s → good s) → (∀ s, P s → Q (f s) s) → (∀ s e, P s → Q (Err e) s) →
  hoare good P (query f) Q.
Proof. intros Hg HQ He. apply hoare_syscall; intros; simpl; auto. Qed.
End Hoare.

(** ** A file is prepared under a temporary name and then renamed *)
Section Staging.
Context `{Kernel}.
Variable s0 : fs.
Variable path : str.
(** The file to replace is on disk as it reads. *)
Record settled : Prop := {
  se_dents : ddents s0 !! path = dents s0 !! path;
  se_inode : ∀ n, dents s0 !! path = Some n → ∃ i, inodes s0 !! n = Some i ∧ i_synced i = true }.
(** The new file is complete but for what [f] says of its inode. *)
Record staged (fd : Z) (tmp : str) (f : inode → Prop) (s : fs) : Prop := {
  sg_dents : ∀ q, q ≠ tmp → dents s !! q = dents s0 !! q;
  sg_tmp : dents s !! tmp = Some fd;
  sg_ddents : ddents s = ddents s0;
  sg_inodes : ∀ n, n ≠ fd → inodes s !! n = inodes s0 !! n;
  sg_fd : ∃ i, inodes s !! fd = Some i ∧ f i }.
(** The new file has taken the place of the old one. *)
Record replaced (fd : Z) (f : inode → Prop) (s : fs) : Prop := {
  rp_dents : dents s = <[path := fd]> (dents s0);
  rp_ddents : ddents s = ddents s0 ∨ ddents s = dents s;
  rp_inodes : ∀ n, n ≠ fd → inodes s !! n = inodes s0 !! n;
  rp_fd : ∃ i, inodes s !! fd = Some i ∧ f i }.
(** Nothing but the temporary name differs from the start. *)
Record restored (tmp : str) (fd : Z) (s : fs) : Prop := {
  rs_dents : ∀ q, q ≠ tmp → dents s !! q = dents s0 !! q;
  rs_ddents : ddents s = ddents s0;
  rs_inodes : ∀ n, n ≠ fd → inodes s !! n = inodes s0 !! n }.

Hypothesis Hset : settled.
(** After any crash the path reads as before, or as [b]. *)
Definition crash_safe (b : str) (s : fs) : Prop :=
  ∀ s', crash s s' → read s' path = read s0 path ∨ read s' path = Some b.

Lemma read_kept s s' :
  (∀ n i, dents s0 !! path = Some n → inodes s0 !! n = Some i → inodes s !! n = Some i) →
  crash s s' → dents s' !! path = dents s0 !! path → read s' path = read s0 path.
Proof.
  intros Hi [_ Hc] Hd. unfold read, inode_at. rewrite Hd.
  destruct (dents s0 !! path) as [n|] eqn:E; [|done]. cbn [mbind option_bind].
  destruct (se_inode Hset n E) as (i & Hn & Hs).
  destruct (Hc n i (Hi n i eq_refl Hn)) as (i' & Hi' & Hd'). rewrite Hn, Hi'. cbn. f_equal. by apply Hd'.
Qed.
Lemma untouched_fd fd : inodes s0 !! fd = None → dents s0 !! path ≠ Some fd.
Proof. intros Hf E. destruct (se_inode Hset fd E) as (i & ? & _). congruence. Qed.

Lemma restored_safe tmp fd b s :
  tmp ≠ path → inodes s0 !! fd = None → restored tmp fd s → crash_safe b s.
Proof.
  intros Hne Hfd [Hd Hdd Hi] s' Hc. left. eapply read_kept; [|exact Hc|].
  - intros n i Hn Hi0. rewrite Hi; [done|]. intros ->. congruence.
  - destruct Hc as [Hp _]. specialize (Hp path). rewrite Hdd, (Hd path) in Hp by congruence.
    rewrite (se_dents Hset) in Hp. tauto.
Qed.
Lemma staged_restored fd tmp f s : staged fd tmp f s → restored tmp fd s.
Proof. by intros []. Qed.
Lemma replaced_safe fd f b s :
  inodes s0 !! fd = None → (∀ i, f i → i_data i = b ∧ i_synced i = true) →
  replaced fd f s → crash_safe b s.
Proof.
  intros Hfd Hf [Hd Hdd Hi (i & Hin & Hfi)] s' Hc. destruct (Hf i Hfi) as [Hb Hsy].
  assert (dents s' !! path = Some fd ∨ dents s' !! path = dents s0 !! path) as [E|E].
  { destruct Hc as [Hp _]. specialize (Hp path). rewrite Hd, lookup_insert_eq in Hp.
    destruct Hp as [?|Hp]; [by left|]. destruct Hdd as [Hdd|Hdd].
    - right. by rewrite Hp, Hdd, (se_dents Hset).
    - left. by rewrite Hp, Hdd, Hd, lookup_insert_eq. }
  - right. destruct Hc as [_ Hc]. destruct (Hc fd i Hin) as (i' & Hi' & Hd').
    unfold read, inode_at. rewrite E. cbn. rewrite Hi'. cbn. f_equal. rewrite <- Hb. by apply Hd'.
  - left. eapply read_kept; [|exact Hc|done].
    intros n j Hn Hj. rewrite Hi; [done|]. intros ->. congruence.
Qed.
Lemma replaced_read fd f b s :
  (∀ i, f i → i_data i = b) → replaced fd f s → read s path = Some b.
Proof.
  intros Hf [Hd _ _ (i & Hin & Hfi)]. unfold read, inode_at.
  rewrite Hd, lookup_insert_eq. cbn. rewrite Hin. cbn. f_equal. by apply Hf.
Qed.
Lemma restored_read tmp fd s :
  tmp ≠ path → inodes s0 !! fd = None → restored tmp fd s → read s path = read s0 path.
Proof.
  intros Hne Hfd [Hd _ Hi]. unfold read, inode_at. rewrite Hd by congruence.
  destruct (dents s0 !! path) as [n|] eqn:E; [|done]. cbn. rewrite Hi; [done|].
  intros ->. destruct (se_inode Hset fd E) as (i & ? & _). congruence.
Qed.

Lemma staged_on_inode fd tmp f f' g s :
  staged fd tmp f s → (∀ i, f i → f' (g i)) → staged fd tmp f' (on_inode fd g s).
Proof.
  intros [Hd Ht Hdd Hi (i & Hin & Hf)] Hg. split; simpl; [done|done|done| |].
  - intros n Hn. rewrite lookup_alter_ne by congruence. by apply Hi.
  - exists (g i). split; [|by apply Hg]. by rewrite lookup_alter_eq, Hin.
Qed.
Lemma staged_rename fd tmp f s :
  tmp ≠ path → dents s0 !! tmp = None → staged fd tmp f s →
  replaced fd f (set_dents s (<[path := fd]> (delete tmp (dents s)))).
Proof.
  intros Hne Ht0 [Hd Ht Hdd Hi Hf]. split; simpl; [|by left|done|done].
  f_equal. apply map_eq. intros q. destruct (decide (q = tmp)) as [->|Hq].
  - by rewrite lookup_delete_eq, Ht0.
  - rewrite lookup_delete_ne by done. by apply Hd.
Qed.
End Staging.

(** ** Properties *)
Section Properties.
Context `{Kernel}.

(** *** The steps of a staged replacement *)
Section Steps.
Variable s0 : fs.
Variable path : str.
Variable b : str.
Hypothesis Hset : settled s0 path.
Hypothesis alone : quiet.
Variable good : fs → Prop.
Hypothesis good_safe : ∀ s, crash_safe s0 path b s → good s.
Notation staged := (staged s0).
Notation restored := (restored s0).

Variables (fd : Z) (tmp : str).
Hypothesis Hfd : inodes s0 !! fd = None.
Hypothesis Htmp : tmp ≠ path.
Lemma restored_good s : restored tmp fd s → good s.
Proof. intros Hr. eapply good_safe, restored_safe; eauto. Qed.
(** A call on the new file's inode. *)
Lemma hoare_on_inode {A} partial (a : A) g (f f' : inode → Prop) :
  (∀ i, f i → f' (g i)) →
  (∀ k s, staged fd tmp f s → ∃ f'', staged fd tmp f'' (partial k s)) →
  hoare good (staged fd tmp f) (syscall partial (λ s, (Ok a, on_inode fd g s)))
    (λ r s, match r with Ok _ => staged fd tmp f' s | Err _ => restored tmp fd s end).
Proof.
  intros Hg Hp. apply hoare_syscall; [done|..].
  - intros s Hs. pose proof (staged_on_inode _ _ _ _ f' g s Hs Hg) as Hs'.
    split; [done|]. eapply restored_good, staged_restored, Hs'.
  - intros s k e Hs. destruct (Hp k s Hs) as [f'' Hs''].
    split; [by eapply staged_restored|]. eapply restored_good, staged_restored, Hs''.
Qed.
Lemma hoare_look {A} (f : inode → Prop) (q : fs → result A) :
  hoare good (staged fd tmp f) (query q)
    (λ r s, match r with Ok _ => staged fd tmp f s | Err _ => restored tmp fd s end).
Proof.
  apply hoare_query; [done|..].
  - intros s Hs. eapply restored_good, staged_restored, Hs.
  - intros s Hs. destruct (q s); [done|by eapply staged_restored].
  - intros s e Hs. by eapply staged_restored.
Qed.
Lemma hoare_write (f f' : inode → Prop) data :
  (∀ i, f i → f' (append_data data i)) →
  hoare good (staged fd tmp f) (Write fd data)
    (λ r s, match r with Ok _ => staged fd tmp f' s | Err _ => restored tmp fd s end).
Proof.
  intros Hg. apply hoare_on_inode; [done|]. intros k s Hs. exists (λ _, True).
  eapply staged_on_inode; [exact Hs|done].
Qed.
Lemma hoare_close (f : inode → Prop) :
  hoare good (staged fd tmp f) (Close fd)
    (λ r s, match r with Ok _ => staged fd tmp f s | Err _ => restored tmp fd s end).
Proof.
  apply hoare_syscall; [done|..].
  - intros s Hs. split; [done|]. eapply restored_good, staged_restored, Hs.
  - intros s k e Hs. split; [by eapply staged_restored|]. eapply restored_good, staged_restored, Hs.
Qed.

(** The rename, and the sync of the directory after it. *)
Variable f : inode → Prop.
Hypothesis Hf : ∀ i, f i → i_data i = b ∧ i_synced i = true.
Hypothesis Htmp0 : dents s0 !! tmp = None.
Lemma replaced_good s : replaced s0 path fd f s → good s.
Proof. intros Hr. eapply good_safe, replaced_safe; eauto. Qed.
Lemma hoare_rename :
  hoare good (staged fd tmp f) (Rename tmp path)
    (λ r s, match r with Ok _ => replaced s0 path fd f s | Err _ => restored tmp fd s end).
Proof.
  apply hoare_syscall; [done|..].
  - intros s Hs. rewrite (sg_tmp _ _ _ _ _ Hs). cbn [fst snd].
    pose proof (staged_rename _ _ _ _ _ _ Htmp Htmp0 Hs) as Hr. split; [done|by apply replaced_good].
  - intros s k e Hs. split; [by eapply staged_restored|]. eapply restored_good, staged_restored, Hs.
Qed.
Lemma hoare_syncdir (Q : result unit → fs → Prop) p :
  (∀ s r, replaced s0 path fd f s → Q r s) → hoare good (replaced s0 path fd f) (SyncDir p) Q.
Proof.
  intros HQ. apply hoare_syscall; [done|..].
  - intros s [Hd Hdd Hi Hx]. assert (replaced s0 path fd f (mkFs (dents s) (dents s) (inodes s) (locks s))) as Hr.
    { split; simpl; [done|by right|done|done]. }
    split; [by apply HQ|by apply replaced_good].
  - intros s k e Hs. split; [by apply HQ|by apply replaced_good].
Qed.
Lemma hoare_look_replaced {A} (q : fs → result A) (Q : result A → fs → Prop) :
  (∀ s r, replaced s0 path fd f s → Q r s) → hoare good (replaced s0 path fd f) (query q) Q.
Proof.
  intros HQ. apply hoare_query; [done|..].
  - intros s Hs. by apply replaced_good.
  - intros s Hs. by apply HQ.
  - intros s e Hs. by apply HQ.
Qed.
(** The deferred Close and Remove change nothing that matters. *)
Definition outcome_ok {A} (r : result A) (s : fs) : Prop :=
  match r with Ok _ => replaced s0 path fd f s | Err _ => restored tmp fd s end.
Lemma hoare_close_outcome {A} (r : result A) :
  hoare good (outcome_ok r) (Close fd) (λ _ s, outcome_ok r s).
Proof.
  apply hoare_syscall; [done|..]; intros; (split; [done|]); destruct r;
    (by apply replaced_good) || (by eapply restored_good).
Qed.
Lemma hoare_remove_tmp {A} (r : result A) :
  hoare good (outcome_ok r) (Remove tmp) (λ _ s, outcome_ok r s).
Proof.
  apply hoare_syscall; [done|..].
  - intros s Hs. destruct (dents s !! tmp) as [n|] eqn:E; cbn [fst snd].
    + assert (outcome_ok r (set_dents s (delete tmp (dents s)))) as Ho; [|split; [done|]].
      { destruct r as [a|e]; cbn [outcome_ok] in *.
        - destruct Hs as [Hd _ _ _]. rewrite Hd, lookup_insert_ne in E by congruence. congruence.
        - destruct Hs as [Hd Hdd Hi]. split; simpl; [|done|done].
          intros q Hq. rewrite lookup_delete_ne by congruence. by apply Hd. }
      destruct r; (by apply replaced_good) || (by eapply restored_good).
    + split; [done|]. destruct r; (by apply replaced_good) || (by eapply restored_good).
  - intros s k e Hs. split; [done|]. destruct r; (by apply replaced_good) || (by eapply restored_good).
Qed.
End Steps.

Lemma fresh_ino_None s : inodes s !! fresh_ino s = None.
Proof.
  apply (not_elem_of_dom (D := gset Z)). unfold fresh_ino. apply is_fresh.
Qed.
(** The file CreateTemp makes. *)
Definition temp_inode (i : inode) : Prop := i = mkInode FRegular 384 euid euid [] true [].
Lemma staged_create s0 tmp :
  dents s0 !! tmp = None →
  staged s0 (fresh_ino s0) tmp temp_inode (add_file s0 tmp 384).2.
Proof.
  intros Ht. split; simpl.
  - intros q Hq. by rewrite lookup_insert_ne by congruence.
  - by rewrite lookup_insert_eq.
  - done.
  - intros n Hn. by rewrite lookup_insert_ne by congruence.
  - eexists. rewrite lookup_insert_eq. done.
Qed.
Lemma hoare_CreateTemp s0 path b dir pat (good : fs → Prop) :
  settled s0 path → quiet → (∀ s, crash_safe s0 path b s → good s) →
  temp_name s0 (dir ++ pat) ≠ path →
  hoare good (λ s, s = s0) (CreateTemp dir pat)
    (λ r s, match r with
            | Ok (fd, tmp) => (inodes s0 !! fd = None ∧ dents s0 !! tmp = None ∧ tmp ≠ path) ∧
                              staged s0 fd tmp temp_inode s
            | Err _ => s = s0
            end).
Proof.
  intros Hset alone Hgood Hne. apply hoare_syscall; [done|..].
  - intros s ->. pose proof (temp_fresh s0 (dir ++ pat)) as Ht.
    pose proof (staged_create s0 _ Ht) as Hs. cbn [add_file fst snd] in *.
    split; [split; [split; [apply fresh_ino_None|done]|done]|].
    eapply Hgood, restored_safe; [done|exact Hne|apply (fresh_ino_None s0)|by eapply staged_restored].
  - intros s k e ->. split; [done|]. apply Hgood. unfold nothing.
    eapply (restored_safe s0 path Hset (temp_name s0 (dir ++ pat)) (fresh_ino s0));
      [exact Hne|apply fresh_ino_None|]. by split.
Qed.

(** The parts of [Atomic] after the temporary file exists. *)
Definition complete (mode : Z) (b : str) (i : inode) : Prop :=
  i_mode i = mode ∧ i_data i = b ∧ i_synced i = true ∧ i_type i = FRegular.
Lemma complete_written mode b i : complete mode b i → i_data i = b ∧ i_synced i = true.
Proof. by intros (_ & ? & ? & _). Qed.
Lemma hoare_fill s0 path b mode fd tmp :
  settled s0 path → quiet → inodes s0 !! fd = None → dents s0 !! tmp = None → tmp ≠ path →
  hoare (crash_safe s0 path b) (staged s0 fd tmp temp_inode)
    (_ ← Chmod fd mode;
     _ ← Write fd b;
     _ ← Sync fd;
     _ ← Close fd;
     _ ← Rename tmp path;
     d ← try (OpenDir (Dir path));
     match d with
     | Ok _ => _ ← ignore (SyncDir (Dir path)); mret tt
     | Err _ => mret tt
     end)
    (outcome_ok s0 path fd tmp (complete mode b)).
Proof.
  intros Hset alone Hfd Ht0 Htmp. set (G := crash_safe s0 path b).
  assert (∀ s, crash_safe s0 path b s → G s) as HG by done.
  set (f1 := λ i : inode, i_mode i = mode ∧ i_data i = [] ∧ i_type i = FRegular).
  set (f2 := λ i : inode, i_mode i = mode ∧ i_data i = b ∧ i_type i = FRegular).
  eapply hoare_bind.
  { apply (hoare_on_inode s0 path b Hset alone G HG fd tmp Hfd Htmp nothing tt _ temp_inode f1).
    - by intros i ->.
    - intros k s Hs. by exists temp_inode. }
  { by intros ? ? ?. }
  intros []. eapply hoare_bind.
  { apply (hoare_write s0 path b Hset alone G HG fd tmp Hfd Htmp f1 f2).
    intros i (? & Hd & ?). unfold f2, append_data. simpl. by rewrite Hd. }
  { by intros ? ? ?. }
  intros []. eapply hoare_bind.
  { apply (hoare_on_inode s0 path b Hset alone G HG fd tmp Hfd Htmp nothing tt _ f2 (complete mode b)).
    - by intros i (? & ? & ?).
    - intros k s Hs. by exists f2. }
  { by intros ? ? ?. }
  intros []. eapply hoare_bind; [apply (hoare_close s0 path b Hset alone G HG fd tmp Hfd Htmp)|by intros ? ? ?|intros []].
  pose proof (complete_written mode b) as Hc.
  eapply hoare_bind; [by apply (hoare_rename s0 path b Hset alone G HG fd tmp Hfd Htmp)|by intros ? ? ?|intros []].
  set (R := λ s, replaced s0 path fd (complete mode b) s).
  eapply hoare_bind with (R := λ r s, match r with Ok _ => R s | Err _ => False end); [|by intros ? ? ?|].
  { eapply hoare_try with (R := λ _ s, R s); [|done].
    by apply (hoare_look_replaced s0 path b Hset alone G HG fd Hfd (complete mode b) Hc). }
  intros [[]|e]; [|by apply hoare_ret].
  eapply hoare_bind with (R := λ r s, match r with Ok _ => R s | Err _ => False end);
    [|by intros ? ? ?|intros []; by apply hoare_ret].
  apply hoare_ignore. by apply (hoare_syncdir s0 path b Hset alone G HG fd Hfd (complete mode b) Hc).
Qed.
Lemma hoare_Atomic s0 path b mode :
  settled s0 path → quiet → temp_name s0 (Dir path ++ "/.utlsproxy-*") ≠ path →
  hoare (crash_safe s0 path b) (λ s, s = s0) (Atomic path b mode)
    (λ r s, match r with
            | Ok _ => ∃ fd, inodes s0 !! fd = None ∧ replaced s0 path fd (complete mode b) s
            | Err _ => ∃ tmp fd, tmp ≠ path ∧ inodes s0 !! fd = None ∧ restored s0 tmp fd s
            end).
Proof.
  intros Hset alone Hne. unfold Atomic. eapply hoare_bind.
  { eapply (hoare_CreateTemp s0 path b); [exact Hset|exact alone|done|exact Hne]. }
  { intros e s ->. exists (temp_name s0 (Dir path ++ "/.utlsproxy-*")), (fresh_ino s0).
    split; [done|]. split; [apply fresh_ino_None|by split]. }
  intros [fd tmp]. apply hoare_pure. intros (Hfd & Ht0 & Htmp). pose proof (complete_written mode b) as Hc.
  set (G := crash_safe s0 path b). assert (∀ s, crash_safe s0 path b s → G s) as HG by done.
  eapply hoare_finally with (R := outcome_ok s0 path fd tmp (complete mode b)); [by apply hoare_fill|].
  intros r. eapply hoare_bind with (R := λ _ s, outcome_ok s0 path fd tmp (complete mode b) r s).
  { apply hoare_ignore. by apply (hoare_close_outcome s0 path b Hset alone G HG fd tmp Hfd Htmp). }
  { intros e s Hs. destruct r; [by exists fd|by exists tmp, fd]. }
  intros []. apply hoare_ignore. eapply hoare_conseq;
    [by apply (hoare_remove_tmp s0 path b Hset alone G HG fd tmp Hfd Htmp)|intros s Hs; exact Hs|].
  intros ? s Hs. destruct r; [by exists fd|by exists tmp, fd].
Qed.

(** C23: [Atomic] is atomic and crash safe. With no other process at work on the files, and
    whichever of its calls fail: on success the path reads as the new bytes, with the
    requested mode, and no other name has changed; on failure it reads as before, and at
    most a temporary name has appeared; and if the machine crashes after any of its calls,
    the path reads either as before or as the new bytes, never as a part of them. *)
Theorem Atomic_crash_safe path b mode o r o' :
  quiet → settled (sys o) path → temp_name (sys o) (Dir path ++ "/.utlsproxy-*") ≠ path →
  trace o = [] → Atomic path b mode o = (r, o') →
  Forall (crash_safe (sys o) path b) (trace o') ∧
  match r with
  | Ok _ => read (sys o') path = Some b ∧
            (∃ i, inode_at (sys o') path = Some i ∧ i_mode i = mode) ∧
            (∀ q, q ≠ path → dents (sys o') !! q = dents (sys o) !! q)
  | Err _ => read (sys o') path = read (sys o) path ∧
             ∃ tmp, tmp ≠ path ∧ ∀ q, q ≠ tmp → dents (sys o') !! q = dents (sys o) !! q
  end.
Proof.
  intros alone Hset Hne Ht Ha.
  destruct (hoare_Atomic (sys o) path b mode Hset alone Hne o eq_refl) as [HQ Hg].
  rewrite Ha in HQ, Hg. cbn [fst snd] in HQ, Hg. rewrite Ht in Hg.
  split; [by apply Hg, Forall_nil|]. destruct r as [u|e].
  - destruct HQ as (fd & Hfd & Hr). split_and!.
    + eapply replaced_read; [|exact Hr]. by intros i (_ & ? & _).
    + destruct Hr as [Hd _ _ (i & Hi & Hm & _)]. exists i. split; [|done].
      unfold inode_at. rewrite Hd, lookup_insert_eq. done.
    + intros q Hq. rewrite (rp_dents _ _ _ _ _ Hr), lookup_insert_ne by congruence. done.
  - destruct HQ as (tmp & fd & Htmp & Hfd & Hr). split.
    + by eapply (restored_read _ _ Hset).
    + exists tmp. split; [done|]. apply Hr.
Qed.
End Properties.

(** ** Files that other operations leave alone

    [keeps kept D]: every path of [kept] names the inode it is given with, with the same
    contents, and the directories on disk are [D]. The operations that only create files
    keep every file there is, whatever call of theirs fails. *)
Definition files : Type := str → option (Z * inode).
Definition with_file (kept : files) (p : str) (n : Z) (i : inode) : files :=
  λ q, if decide (q = p) then Some (n, i) else kept q.
Definition no_files : files := λ _, None.
Definition all_files (s : fs) : files := λ q, n ← dents s !! q; i ← inodes s !! n; Some (n, i).
Record keeps (kept : files) (D : gmap str Z) (s : fs) : Prop := {
  k_file : ∀ q n i, kept q = Some (n, i) → dents s !! q = Some n ∧ inodes s !! n = Some i;
  k_ddents : ddents s = D }.
Lemma keeps_inode_at kept D s q n i : keeps kept D s → kept q = Some (n, i) → inode_at s q = Some i.
Proof. intros Hk Hq. destruct (k_file _ _ _ Hk q n i Hq) as [Hd Hi]. unfold inode_at. by rewrite Hd. Qed.
Lemma keeps_all s : keeps (all_files s) (ddents s) s.
Proof.
  split; [|done]. unfold all_files. intros q n i Hq.
  destruct (dents s !! q) as [m|]; [|done]. cbn in Hq. destruct (inodes s !! m) eqn:E; simplify_eq/=. done.
Qed.
Lemma keeps_with kept D s p n i :
  keeps (with_file kept p n i) D s → (∀ m j, kept p = Some (m, j) → m = n ∧ j = i) → keeps kept D s.
Proof.
  intros [Hf HD] Hp. split; [|done]. intros q m j Hq. apply Hf. unfold with_file.
  destruct (decide (q = p)) as [->|]; [|done]. by destruct (Hp _ _ Hq) as [-> ->].
Qed.

Section Keep.
Context `{Kernel}.
Variable D : gmap str Z.
Lemma keeps_add kept s p mode :
  keeps kept D s → dents s !! p = None →
  keeps (with_file kept p (fresh_ino s) (mkInode FRegular mode euid euid [] true [])) D (add_file s p mode).2.
Proof.
  intros [Hf HD] Hp. pose proof (fresh_ino_None s). split; [|done]. simpl. unfold with_file. intros q n i Hq.
  destruct (decide (q = p)) as [->|]; [simplify_eq; by rewrite !lookup_insert_eq|].
  destruct (Hf q n i Hq) as [Hd Hi]. rewrite !lookup_insert_ne by congruence. done.
Qed.
Lemma keeps_add_file kept s p mode :
  keeps kept D s → dents s !! p = None → keeps kept D (add_file s p mode).2.
Proof.
  intros Hk Hp. eapply keeps_with; [by apply keeps_add|]. intros m j Hq.
  destruct (k_file _ _ _ Hk p m j Hq). congruence.
Qed.
(** A kept file other than those at the inode worked on. *)
Lemma keeps_on_inode kept s p fd i g :
  keeps (with_file kept p fd i) D s → (∀ q n j, kept q = Some (n, j) → n ≠ fd) →
  keeps (with_file kept p fd (g i)) D (on_inode fd g s).
Proof.
  intros [Hf HD] Hn. split; [|done]. unfold with_file in *. intros q n j Hq. simpl.
  destruct (decide (q = p)) as [->|Hne].
  - simplify_eq. destruct (Hf p n i) as [? Hi]; [by destruct (decide _)|]. by rewrite lookup_alter_eq, Hi.
  - rewrite lookup_alter_ne by (by intros ->; eapply Hn). apply Hf. by rewrite decide_False.
Qed.
Lemma keeps_delete kept s p fd i :
  keeps (with_file kept p fd i) D s → (∀ m j, kept p = Some (m, j) → False) →
  keeps kept D (set_dents s (delete p (dents s))).
Proof.
  intros [Hf HD] Hp. split; [|done]. intros q n j Hq. simpl.
  assert (q ≠ p) by (intros ->; by eapply Hp). rewrite lookup_delete_ne by congruence.
  apply Hf. unfold with_file. by rewrite decide_False.
Qed.

Variable good : fs → Prop.
Variable kept : files.
Hypothesis keeps_good : ∀ s, keeps kept D s → good s.
Hypothesis alone : quiet.
Notation kp := (keeps kept D).
Lemma hoare_keeps {A} partial (f : fs → result A * fs) (Q : result A → fs → Prop) (P : fs → Prop) :
  (∀ s, P s → kp s) →
  (∀ s, P s → kp (f s).2 ∧ Q (f s).1 (f s).2) →
  (∀ k s e, P s → kp (partial k s) ∧ Q (Err e) (partial k s)) →
  hoare good P (syscall partial f) Q.
Proof.
  intros HP Hf Hp. apply hoare_syscall; [done|..].
  - intros s Hs. destruct (Hf s Hs). split; [done|by apply keeps_good].
  - intros s k e Hs. destruct (Hp k s e Hs). split; [done|by apply keeps_good].
Qed.
Lemma hoare_keeps_query {A} (f : fs → result A) : hoare good kp (query f) (λ _ s, kp s).
Proof. by apply hoare_keeps. Qed.
Lemma hoare_keeps_lift {A} (r : result A) : hoare good kp (lift r) (λ _ s, kp s).
Proof. by apply hoare_lift. Qed.
Lemma hoare_keeps_bind {A B} (m : M A) (f : A → M B) :
  hoare good kp m (λ _ s, kp s) → (∀ a, hoare good kp (f a) (λ _ s, kp s)) →
  hoare good kp (m ≫= f) (λ _ s, kp s).
Proof. intros Hm Hf. by eapply hoare_bind; [exact Hm|..]. Qed.
Lemma hoare_keeps_try {A} (m : M A) :
  hoare good kp m (λ _ s, kp s) → hoare good kp (try m) (λ r s, match r with Ok _ => kp s | Err _ => False end).
Proof. intros Hm. by eapply hoare_try; [exact Hm|]. Qed.

Lemma hoare_MkdirAll d mode : hoare good kp (MkdirAll d mode) (λ _ s, kp s).
Proof.
  apply hoare_keeps; [done| |done]. intros s Hs. cbv beta. destruct (dents s !! d) eqn:E.
  - by destruct (follow 40 s d) as [[? ?]|].
  - pose proof (keeps_add_file kept s d 0 Hs E) as [Hf HD]. pose proof (fresh_ino_None s) as Hn.
    destruct Hs as [Hs1 Hs2]. split; (split; simpl in *; [|done]); intros q n i Hq;
      destruct (Hf q n i Hq), (Hs1 q n i Hq); (split; [done|]); by rewrite lookup_insert_ne by congruence.
Qed.
Lemma hoare_PrivateDir d : hoare good kp (PrivateDir d) (λ _ s, kp s).
Proof.
  unfold PrivateDir. apply hoare_keeps_bind; [apply hoare_MkdirAll|].
  intros []. apply hoare_keeps_bind; [apply hoare_keeps_query|]. intros i.
  apply hoare_keeps_bind; [apply hoare_keeps_lift|]. intros [].
  apply hoare_keeps_bind; [apply hoare_keeps_lift|]. intros [].
  apply hoare_keeps_bind; [apply hoare_keeps_query|]. intros [? ?]. apply hoare_keeps_lift.
Qed.
Lemma hoare_Lock l :
  hoare good kp (Lock l)
    (λ r s, kp s ∧ match r with
            | Ok u => ∃ fd, u = (_ ← ignore (Unflock fd); ignore (Close fd))
            | Err _ => True end).
Proof.
  unfold Lock. eapply hoare_bind with (R := λ _ s, kp s).
  { apply hoare_keeps; [done| |done]. intros s Hs. cbv beta. unfold sys_open_lock.
    destruct (dents s !! l) as [n|] eqn:E; [by destruct (inodes s !! n)|].
    pose proof (keeps_add_file kept s l 384 Hs E). done. }
  { by intros e s Hs. }
  intros fd. eapply hoare_bind with (R := λ r s, kp s ∧ match r with Ok _ => True | Err _ => False end).
  { eapply hoare_try with (R := λ _ s, kp s); [|done]. apply hoare_keeps; [done| |done].
    intros s Hs. cbv beta. destruct (decide _); [done|]. destruct Hs. by split; [split|]. }
  { by intros e s [? ?]. }
  intros [[]|e].
  - apply hoare_ret. intros s [Hs _]. split; [done|]. by exists fd.
  - eapply hoare_bind with (R := λ r s, kp s ∧ match r with Ok _ => True | Err _ => False end).
    { apply hoare_ignore. apply hoare_keeps; [by intros s [? _]|..]; [by intros s [? _]|by intros k s ? [? _]]. }
    { by intros ? s [? ?]. }
    intros []. apply hoare_lift. by intros s [? _].
Qed.
(** *** [Exclusive] *)
Section Exclusive.
Variable p : str.
(** The new file, with inode [i]; it replaces none that is kept. *)
Record made (fd : Z) (i : inode) (s : fs) : Prop := {
  md_keeps : keeps (with_file kept p fd i) D s;
  md_path : ∀ m j, kept p = Some (m, j) → False;
  md_ino : ∀ q n j, kept q = Some (n, j) → n ≠ fd }.
Lemma made_keeps fd i s : made fd i s → kp s.
Proof. intros [Hk Hp _]. eapply keeps_with; [done|]. intros m j Hq. by apply Hp in Hq. Qed.
Lemma made_on_inode fd i g s : made fd i s → made fd (g i) (on_inode fd g s).
Proof. intros [Hk Hp Hn]. split; [by apply keeps_on_inode|done|done]. Qed.
Lemma made_create mode s : kp s → dents s !! p = None →
  made (fresh_ino s) (mkInode FRegular mode euid euid [] true []) (add_file s p mode).2.
Proof.
  intros Hk Hp. pose proof (fresh_ino_None s). split; [by apply keeps_add| |].
  - intros m j Hq. destruct (k_file _ _ _ Hk p m j Hq). congruence.
  - intros q n j Hq. destruct (k_file _ _ _ Hk q n j Hq). congruence.
Qed.
Lemma hoare_made {A} partial (f : fs → result A * fs) fd i (Q : result A → fs → Prop) :
  (∀ s, made fd i s → kp (f s).2 ∧ Q (f s).1 (f s).2) →
  (∀ k s e, made fd i s → kp (partial k s) ∧ Q (Err e) (partial k s)) →
  hoare good (made fd i) (syscall partial f) Q.
Proof. intros. apply hoare_keeps; [|done|done]. intros s. apply made_keeps. Qed.
(** A call on the new file: what it makes of the inode, or a failure that leaves some
    version of the new file. *)
Definition outcome {A} (fd : Z) (i : inode) (r : result A) (s : fs) : Prop :=
  match r with Ok _ => made fd i s | Err _ => ∃ i', made fd i' s end.
Lemma outcome_keeps {A} fd i (r : result A) s : outcome fd i r s → kp s.
Proof. destruct r; [apply made_keeps|]. intros [i' Hm]. by eapply made_keeps. Qed.
Lemma hoare_made_call {A} partial (a : A) f g fd i :
  (∀ k s, made fd i s → ∃ i', made fd i' (partial k s)) →
  (∀ s, made fd i s → f s = (Ok a, on_inode fd g s) ∨ (f s = (Ok a, s) ∧ g i = i)) →
  hoare good (made fd i) (syscall partial f) (λ r s, outcome fd (g i) r s).
Proof.
  intros Hp Hf. apply hoare_made.
  - intros s Hs. destruct (Hf s Hs) as [->|[-> E]]; cbn [fst snd].
    + pose proof (made_on_inode _ _ g _ Hs) as Hm. split; [by eapply made_keeps|done].
    + rewrite E. split; [by eapply made_keeps|done].
  - intros k s e Hs. destruct (Hp k s Hs) as [i' Hm]. split; [by eapply made_keeps|by exists i'].
Qed.
Definition exclusive_file (mode : Z) (b : str) : inode := mkInode FRegular mode euid euid b true [].
Lemma hoare_write_out fd mode b :
  hoare good (made fd (exclusive_file mode [])) (_ ← Write fd b; _ ← Sync fd; Close fd)
    (λ r s, outcome fd (exclusive_file mode b) r s).
Proof.
  eapply hoare_bind; [apply (hoare_made_call _ tt _ (append_data b))| |].
  { intros k s Hs. eexists. by apply made_on_inode. }
  { by left. }
  { by intros e s Hs. }
  intros []. eapply hoare_bind; [apply (hoare_made_call _ tt _ (λ i, set_data i (i_data i) true))| |].
  { intros k s Hs. by eexists. }
  { by left. }
  { by intros e s Hs. }
  intros []. eapply hoare_conseq; [apply (hoare_made_call _ tt _ id)| |].
  { intros k s Hs. by eexists. }
  { by right. }
  { intros s Hs. exact Hs. }
  { intros r s Hs. exact Hs. }
Qed.
(** What a successful [Exclusive] has made: a new file with the data, complete and synced;
    in every case the files that were there before are kept. *)
Lemma hoare_Exclusive b mode :
  hoare good kp (Exclusive p b mode)
    (λ r s, match r with Ok _ => ∃ fd, made fd (exclusive_file mode b) s | Err _ => kp s end).
Proof.
  unfold Exclusive.
  eapply hoare_bind with (R := λ r s, match r with Ok fd => made fd (exclusive_file mode []) s | Err _ => kp s end).
  { apply hoare_keeps; [done| |done]. intros s Hs. cbv beta. destruct (dents s !! p) eqn:E; [done|].
    pose proof (made_create mode s Hs E) as Hm. split; [by eapply made_keeps|done]. }
  { by intros e s Hs. }
  intros fd. eapply hoare_bind with (R := λ x s, match x with
    | Ok r => outcome fd (exclusive_file mode b) r s | Err _ => False end).
  { eapply hoare_try; [apply hoare_write_out|done]. }
  { by intros e s Hs. }
  intros r. eapply hoare_bind with (R := λ x s, match x with
    | Ok _ => outcome fd (exclusive_file mode b) r s | Err _ => False end).
  { apply hoare_ignore. apply hoare_keeps; [by intros s Hs; eapply outcome_keeps|..].
    - intros s Hs. split; [by eapply outcome_keeps|done].
    - intros k s e Hs. split; [by eapply outcome_keeps|done]. }
  { by intros e s Hs. }
  intros []. destruct r as [[]|e].
  { apply hoare_ret. intros s Hs. by exists fd. }
  eapply hoare_bind with (R := λ x s, match x with Ok _ => kp s | Err _ => False end).
  { apply hoare_ignore. apply hoare_keeps; [by intros s Hs; eapply outcome_keeps|..].
    - intros s [i [Hm Hp _]]. cbv beta. assert (kp s) as Hs by (by eapply keeps_with; [done|]; intros ? ? Hq; apply Hp in Hq).
      destruct (dents s !! p); [|done]. pose proof (keeps_delete _ _ _ _ _ Hm Hp). done.
    - intros k s ? Hs. apply outcome_keeps in Hs. done. }
  { by intros ? s Hs. }
  intros []. apply hoare_lift. by intros s Hs.
Qed.
End Exclusive.
End Keep.

(** *** Ancestors *)
Definition ancestor (k : nat) (p : str) : str := Nat.iter k Dir p.
Lemma Dir_dot : Dir "." = ".".
Proof. reflexivity. Qed.
Lemma Dir_shorter p : Dir p = p ∨ (length (Dir p) < length p)%nat ∨ Dir p = ".".
Proof.
  unfold Dir. destruct (CutLast p slash) as [[d a]|] eqn:E; [|by right; right].
  apply CutLast_Some in E as [-> _]. destruct d as [|c d].
  - destruct a as [|x a]; [by left|right; left; simpl; lia].
  - right. left. rewrite length_app. simpl. lia.
Qed.
Lemma ancestor_S k p : ancestor (S k) p = ancestor k (Dir p).
Proof. unfold ancestor. by rewrite Nat.iter_succ_r. Qed.
Lemma ancestor_fixed k p : Dir p = p → ancestor k p = p.
Proof. intros E. induction k as [|k IH]; [done|]. by rewrite ancestor_S, E. Qed.
Lemma ancestors_ok_spec fuel check p :
  (2 + length p ≤ fuel)%nat ∨ (p = "." ∧ (1 ≤ fuel)%nat) →
  ancestors_ok fuel check p = Ok tt ↔ ∀ k, check (ancestor k p) = Ok tt.
Proof.
  revert p. induction fuel as [|fuel IH]; intros p Hf; [destruct Hf as [?|[_ ?]]; lia|].
  cbn [ancestors_ok]. rewrite seq_Ok, is_ok_unit.
  destruct (str_eqb_spec (Dir p) p) as [E|E].
  - split; [|intros Hk; split; [apply (Hk 0%nat)|done]].
    intros [Hc _] k. by rewrite ancestor_fixed.
  - rewrite IH.
    + split.
      * intros [Hc Hk] [|k]; [done|]. rewrite ancestor_S. apply Hk.
      * intros Hk. split; [apply (Hk 0%nat)|]. intros k. rewrite <- ancestor_S. apply Hk.
    + destruct Hf as [Hf|[-> _]]; [|by destruct E].
      destruct (Dir_shorter p) as [?|[?|?]]; [done|left; lia|right; split; [done|lia]].
Qed.

(** A service run by root starts only from protected paths: [RootOwned] accepts a path
    exactly when every ancestor of the path as written (itself included) belongs to root and
    is not writable by group or others unless it is a link, and every ancestor of the path
    with its links resolved belongs to root and is not writable by group or others. The
    walks up the tree end for every path. *)
Theorem RootOwned_spec lstat stat Abs EvalSymlinks path lexical p :
  Abs path = Ok lexical → EvalSymlinks path = Ok p →
  RootOwned lstat stat Abs EvalSymlinks path = Ok tt ↔
  (∀ k, ∃ st, lstat (ancestor k lexical) = Ok st ∧ i_uid st = 0 ∧
     (i_type st = FSymlink ∨ Z.land (i_mode st) 18 = 0)) ∧
  (∀ k, ∃ st, stat (ancestor k p) = Ok st ∧ i_uid st = 0 ∧ Z.land (i_mode st) 18 = 0).
Proof.
  intros Ha He. unfold RootOwned. rewrite Ha, He. cbn [mbind result_bind].
  rewrite seq_Ok, is_ok_unit, !ancestors_ok_spec by (left; lia).
  assert (∀ q, lexical_ok lstat q = Ok tt ↔ ∃ st, lstat q = Ok st ∧ i_uid st = 0 ∧
     (i_type st = FSymlink ∨ Z.land (i_mode st) 18 = 0)) as Hl.
  { intros q. unfold lexical_ok. rewrite bind_Ok. apply exist_proper. intros st.
    rewrite guard_Ok, orb_false_iff, andb_false_iff, !negb_false_iff, !Z.eqb_eq, bool_decide_eq_true. done. }
  assert (∀ q, resolved_ok stat q = Ok tt ↔ ∃ st, stat q = Ok st ∧ i_uid st = 0 ∧ Z.land (i_mode st) 18 = 0) as Hr.
  { intros q. unfold resolved_ok. rewrite bind_Ok. apply exist_proper. intros st.
    rewrite guard_Ok, orb_false_iff, !negb_false_iff, !Z.eqb_eq. done. }
  setoid_rewrite Hl. setoid_rewrite Hr. done.
Qed.

(** ** Witnesses *)
(** A kernel in which nothing fails; a temporary name is longer than every name in use. *)
Definition longest_name (s : fs) : nat := max_list (length <$> elements (dom (dents s) : gset str)).
Definition long_name (s : fs) (d : str) : str := d ++ replicate (S (longest_name s)) (chr 48).
Lemma long_name_fresh s d : dents s !! long_name s d = None.
Proof.
  destruct (dents s !! long_name s d) as [n|] eqn:E; [|done].
  assert (length (long_name s d) ≤ longest_name s)%nat as Hl.
  { apply max_list_elem_of_le, list_elem_of_fmap. exists (long_name s d). split; [done|].
    apply elem_of_elements, elem_of_dom. by eexists. }
  unfold long_name in Hl. rewrite length_app, length_replicate in Hl. lia.
Qed.
Definition demo_kernel (fault : nat → option error) : Kernel := {|
  fault := fault; short_write _ := 3%nat; env _ s := s; temp_name := long_name;
  temp_fresh := long_name_fresh; euid := 0 |}.
Definition no_faults : Kernel := demo_kernel (λ _, None).
(** A directory, and a file on disk. *)
Definition demo_file : inode := mkInode FRegular 420 0 0 "old" true [].
Definition demo_fs : fs :=
  mkFs {["/etc/hosts" : str := 1]} {["/etc/hosts" : str := 1]} {[1 := demo_file]} ∅.
Lemma demo_settled : settled demo_fs "/etc/hosts".
Proof.
  split; [vm_compute; reflexivity|]. intros n Hn. vm_compute in Hn. injection Hn as <-.
  exists demo_file. split; vm_compute; reflexivity.
Qed.
Definition demo_atomic : result unit * os := @Atomic no_faults "/etc/hosts" "new" 384 (mkOs demo_fs 0 []).
Lemma Atomic_crash_safe_witness :
  read (sys demo_atomic.2) "/etc/hosts" = Some ("new" : str) ∧
  Forall (@crash_safe demo_fs "/etc/hosts" "new") (trace demo_atomic.2).
Proof.
  assert (demo_atomic.1 = Ok tt) as Er by (vm_compute; reflexivity).
  destruct (@Atomic_crash_safe no_faults "/etc/hosts" "new" 384 (mkOs demo_fs 0 []) demo_atomic.1 demo_atomic.2)
    as [Hs Hm].
  - intros k s. reflexivity.
  - exact demo_settled.
  - intros E. vm_compute in E. discriminate E.
  - reflexivity.
  - exact (surjective_pairing demo_atomic).
  - rewrite Er in Hm. split; [exact (proj1 Hm)|exact Hs].
Defined.
Lemma RootOwned_spec_witness :
  RootOwned (λ _, Ok (mkInode FDir 493 0 0 [] true [])) (λ _, Ok (mkInode FDir 493 0 0 [] true []))
    Ok Ok "/usr/local/bin" = Ok tt.
Proof.
  apply (RootOwned_spec _ _ _ _ "/usr/local/bin" "/usr/local/bin" "/usr/local/bin"); [reflexivity..|].
  split; intros k; exists (mkInode FDir 493 0 0 [] true []); (split; [reflexivity|]);
    (split; [reflexivity|]); [right; reflexivity|reflexivity].
Defined.
