(* ===== verification/Frames.v ===== *)
(** * Frames: what programs on the file system leave alone

    [spares X m]: whatever calls of [m] fail, and in every state after one of them, the
    names in [X] stay as they are: a missing one is still missing and a present one is the
    same file with the same contents. Most programs spare most names, and the lemmas here
    show it along the structure of the program. *)
From S2P Require Import Prelude Strs Fsutil.

Definition same_at (X : str → Prop) (s s' : fs) : Prop :=
  ∀ q, X q → dents s' !! q = dents s !! q ∧
    ∀ n i, dents s !! q = Some n → inodes s !! n = Some i → inodes s' !! n = Some i.
#[global] Instance same_at_refl X : Reflexive (same_at X).
Proof. intros s q _. by split. Qed.
#[global] Instance same_at_trans X : Transitive (same_at X).
Proof.
  intros s1 s2 s3 H1 H2 q Hq. destruct (H1 q Hq) as [Hd1 Hi1], (H2 q Hq) as [Hd2 Hi2].
  split; [congruence|]. intros n i Hn Hi. apply Hi2; [congruence|]. by apply Hi1.
Qed.
Lemma same_at_mono (X Y : str → Prop) s s' : (∀ q, Y q → X q) → same_at X s s' → same_at Y s s'.
Proof. intros HXY Hs q Hq. by apply Hs, HXY. Qed.
Lemma same_at_inode X s s' q i : same_at X s s' → X q → inode_at s q = Some i → inode_at s' q = Some i.
Proof.
  intros Hs Hq. destruct (Hs q Hq) as [Hd Hi]. unfold inode_at. rewrite Hd.
  destruct (dents s !! q) as [n|]; [|done]. cbn. by apply Hi.
Qed.
(** The changes that spare [X]. *)
Lemma same_at_add X s p n i : ¬ X p → inodes s !! n = None →
  same_at X s (mkFs (<[p := n]> (dents s)) (ddents s) (<[n := i]> (inodes s)) (locks s)).
Proof.
  intros Hp Hn q Hq. simpl. rewrite lookup_insert_ne by congruence. split; [done|].
  intros m j _ Hj. by rewrite lookup_insert_ne by congruence.
Qed.
Lemma same_at_delete X s p : ¬ X p → same_at X s (set_dents s (delete p (dents s))).
Proof. intros Hp q Hq. simpl. rewrite lookup_delete_ne by congruence. by split. Qed.
Lemma same_at_on_inode X s0 s fd f : inodes s0 !! fd = None → same_at X s0 s → same_at X s0 (on_inode fd f s).
Proof.
  intros Hfd Hs q Hq. destruct (Hs q Hq) as [Hd Hi]. split; [done|]. intros n i Hn Hin. simpl.
  rewrite lookup_alter_ne by congruence. by apply Hi.
Qed.
Lemma same_at_sync X s0 s d l : same_at X s0 s → same_at X s0 (mkFs (dents s) d (inodes s) l).
Proof. done. Qed.

(** The states of a run, the last one included. *)
Definition states (o : os) : list fs := sys o :: trace o.

Section Frames.
Context `{Kernel}.
Definition spares (X : str → Prop) {A} (m : M A) : Prop :=
  ∀ s0 good, (∀ s, same_at X s0 s → good s) → hoare good (λ s, s = s0) m (λ _, same_at X s0).

(** An invariant that depends on the spared names only is kept. *)
Lemma hoare_spares {A} X (m : M A) (good I : fs → Prop) :
  spares X m → (∀ s s', I s → same_at X s s' → I s') → (∀ s, I s → good s) → hoare good I m (λ _, I).
Proof.
  intros Hm HI Hg o Ho. destruct (Hm (sys o) good (λ s Hs, Hg s (HI _ _ Ho Hs)) o eq_refl) as [HQ Ht].
  split; [by eapply HI|done].
Qed.
Lemma spares_mono {A} (X Y : str → Prop) (m : M A) : (∀ q, Y q → X q) → spares X m → spares Y m.
Proof.
  intros HXY Hm s0 good Hg. eapply (hoare_conseq _ _ (λ s, s = s0)); [apply Hm|done|].
  - intros s Hs. eapply Hg, same_at_mono, Hs. done.
  - intros r s Hs. by eapply same_at_mono.
Qed.
Lemma spares_lift {A} X (r : result A) : spares X (lift r).
Proof. intros s0 good Hg. apply hoare_lift. by intros s ->. Qed.
Lemma spares_ret {A} X (a : A) : spares X (mret a : M A).
Proof. intros s0 good Hg. apply hoare_ret. by intros s ->. Qed.
Lemma spares_bind_post {A B} X (m : M A) (f : A → M B) :
  spares X m → (∀ a, (∃ o, (m o).1 = Ok a) → spares X (f a)) → spares X (m ≫= f).
Proof.
  intros Hm Hf s0 good Hg o Ho. destruct (Hm s0 good Hg o Ho) as [HR Ht]. unfold mbind, M_bind.
  destruct (m o) as [[a|e] o'] eqn:E; cbn [fst snd] in *; [|done].
  destruct (Hf a (ex_intro _ o (f_equal fst E)) (sys o') good (λ s Hs, Hg s (transitivity HR Hs)) o' eq_refl) as [HQ Ht'].
  split; [by etransitivity|]. intros Ho'. by apply Ht', Ht.
Qed.
Lemma spares_bind {A B} X (m : M A) (f : A → M B) : spares X m → (∀ a, spares X (f a)) → spares X (m ≫= f).
Proof. intros Hm Hf. apply spares_bind_post; [done|]. intros a _. apply Hf. Qed.
Lemma spares_try {A} X (m : M A) : spares X m → spares X (try m).
Proof. intros Hm s0 good Hg. by eapply hoare_try; [apply Hm|]. Qed.
Lemma spares_ignore {A} X (m : M A) : spares X m → spares X (ignore m).
Proof. intros Hm s0 good Hg. apply hoare_ignore. by apply Hm. Qed.
Lemma spares_finally {A} X (m : M A) (d : M unit) : spares X m → spares X d → spares X (finally m d).
Proof.
  intros Hm Hd s0 good Hg. eapply hoare_finally; [by apply Hm|]. intros r. apply (hoare_spares X); [done| |done].
  intros s s' Hs Hs'. by etransitivity.
Qed.

Hypothesis alone : quiet.
Lemma spares_syscall {A} X partial (f : fs → result A * fs) :
  (∀ s, same_at X s (f s).2) → (∀ k s, same_at X s (partial k s)) → spares X (syscall partial f).
Proof.
  intros Hf Hp s0 good Hg. apply hoare_syscall; [done|..].
  - intros s ->. split; [done|]. by apply Hg.
  - intros s k e ->. split; [done|]. by apply Hg.
Qed.
Lemma spares_query {A} X (f : fs → result A) : spares X (query f).
Proof. by apply spares_syscall. Qed.
Lemma spares_ReadFile X p : spares X (ReadFile p).
Proof. apply spares_query. Qed.
Lemma spares_Regular X p : spares X (Regular p).
Proof. unfold Regular. apply spares_bind; [apply spares_query|]. intros i. apply spares_lift. Qed.
Lemma spares_MkdirAll X d mode : ¬ X d → spares X (MkdirAll d mode).
Proof.
  intros Hd. apply spares_syscall; [|done]. intros s. cbv beta zeta. destruct (dents s !! d) eqn:E.
  - by destruct (follow 40 s d) as [[? ?]|].
  - cbn [snd]. apply same_at_add; [done|apply fresh_ino_None].
Qed.
Lemma spares_create X p mode : ¬ X p → spares X (sys_create p mode).
Proof.
  intros Hp. apply spares_syscall; [|done]. intros s. cbv beta zeta. destruct (dents s !! p); [done|].
  cbn [snd add_file]. apply same_at_add; [done|apply fresh_ino_None].
Qed.
Lemma spares_Remove X p : ¬ X p → spares X (Remove p).
Proof.
  intros Hp. apply spares_syscall; [|done]. intros s. cbv beta. destruct (dents s !! p); [|done].
  by apply same_at_delete.
Qed.
Lemma spares_PrivateDir X d : ¬ X d → spares X (PrivateDir d).
Proof.
  intros Hd. unfold PrivateDir. apply spares_bind; [by apply spares_MkdirAll|]. intros [].
  apply spares_bind; [apply spares_query|]. intros i. apply spares_bind; [apply spares_lift|]. intros [].
  apply spares_bind; [apply spares_lift|]. intros []. apply spares_bind; [apply spares_query|].
  intros [? ?]. apply spares_lift.
Qed.
Lemma spares_unlock X fd : spares X (_ ← ignore (Unflock fd); ignore (Close fd)).
Proof.
  apply spares_bind; [|intros []]; apply spares_ignore, spares_syscall; done.
Qed.
Lemma spares_Lock X l : ¬ X l → spares X (Lock l).
Proof.
  intros Hl. unfold Lock. apply spares_bind.
  { apply spares_syscall; [|done]. intros s. cbv beta. destruct (dents s !! l) as [n|] eqn:E.
    - by destruct (inodes s !! n).
    - cbn [snd add_file]. apply same_at_add; [done|apply fresh_ino_None]. }
  intros fd. apply spares_bind.
  { apply spares_try, spares_syscall; [|done]. intros s. cbv beta. by destruct (decide _). }
  intros [[]|e]; [apply spares_ret|]. apply spares_bind; [by apply spares_ignore, spares_syscall|].
  intros []. apply spares_lift.
Qed.
Lemma Lock_unlock X l o u : (Lock l o).1 = Ok u → spares X u.
Proof.
  unfold Lock, mbind, M_bind. destruct (sys_open_lock l o) as [[fd|e] o1]; [|done].
  unfold try. destruct (Flock fd o1) as [[[]|e] o2]; cbn [fst]; [|done].
  intros [= <-]. apply spares_unlock.
Qed.
Lemma spares_Exclusive X p b mode : ¬ X p → spares X (Exclusive p b mode).
Proof.
  intros Hp s0 good Hg. unfold Exclusive.
  eapply hoare_bind with (R := λ r s, same_at X s0 s ∧ match r with Ok fd => inodes s0 !! fd = None | Err _ => True end).
  { apply hoare_syscall; [done|..].
    - intros s ->. cbv beta zeta. destruct (dents s0 !! p); cbn [fst snd add_file]; [by split; [split|apply Hg]|].
      pose proof (same_at_add X s0 p (fresh_ino s0) (mkInode FRegular mode euid euid [] true []) Hp (fresh_ino_None s0)).
      split; [split; [done|apply fresh_ino_None]|by apply Hg].
    - intros s k e ->. by split; [split|apply Hg]. }
  { by intros e s [? _]. }
  intros fd. apply hoare_pure_r. intros Hfd. set (I := same_at X s0).
  assert (∀ A (a : A) pt g, (∀ k s, I s → I (pt k s)) → (∀ s, I s → I (g s).2) →
    hoare good I (syscall pt g) (λ _ : result A, I)) as Hcall.
  { intros A a pt g Hpt Hgs. apply hoare_syscall; [done|..].
    - intros s Hs. split; [by apply Hgs|by apply Hg, Hgs].
    - intros s k e Hs. split; [by apply Hpt|by apply Hg, Hpt]. }
  assert (hoare good I (try (_ ← Write fd b; _ ← Sync fd; Close fd)) (λ _, I)) as Hw.
  { eapply hoare_try with (R := λ _, I); [|done].
    eapply hoare_bind with (R := λ _, I); [|done|intros []].
    { apply (Hcall _ tt); [intros k s Hs|intros s Hs]; by apply same_at_on_inode. }
    eapply hoare_bind with (R := λ _, I); [|done|intros []].
    { apply (Hcall _ tt); [done|intros s Hs]; by apply same_at_on_inode. }
    by apply (Hcall _ tt). }
  eapply hoare_bind with (R := λ _, I); [exact Hw|done|]. intros r.
  eapply hoare_bind with (R := λ _, I); [apply hoare_ignore; by apply (Hcall _ tt)|done|]. intros [].
  destruct r as [[]|e]; [by apply hoare_ret|].
  eapply hoare_bind with (R := λ _, I); [|done|intros []; by apply hoare_lift].
  apply hoare_ignore, (Hcall _ tt); [done|]. intros s Hs. cbv beta. destruct (dents s !! p); [|done].
  cbn [snd]. unfold I. etransitivity; [exact Hs|by apply same_at_delete].
Qed.
End Frames.

(** ** [Atomic] replaces one file and spares the others

    At every moment the path is the old file or a regular file with exactly the new bytes,
    and the names of [X], all of them present at the start, are spared. *)
Section Replacing.
Context `{Kernel}.
Hypothesis alone : quiet.
Variables (X : str → Prop) (s0 : fs) (p b : str) (n0 : Z) (i0 : inode).
Hypothesis Hp : ¬ X p.
Hypothesis Hp0 : dents s0 !! p = Some n0.
Hypothesis Hi0 : inodes s0 !! n0 = Some i0.
Hypothesis present : ∀ q, X q → is_Some (dents s0 !! q).
Record replacing (s : fs) : Prop := {
  rg_spared : same_at X s0 s;
  rg_file : ∃ i, inode_at s p = Some i ∧ (i = i0 ∨ i_type i = FRegular ∧ i_data i = b) }.
Variable good : fs → Prop.
Hypothesis Hgood : ∀ s, replacing s → good s.
Notation X' := (λ q, X q ∨ q = p).
(** The temporary file, which [f] says more of. *)
Record staging (fd : Z) (tmp : str) (f : inode → Prop) (s : fs) : Prop := {
  st_spared : same_at X' s0 s;
  st_tmp : dents s !! tmp = Some fd;
  st_fd : ∃ i, inodes s !! fd = Some i ∧ f i }.
Lemma untouched s : same_at X' s0 s → replacing s.
Proof.
  intros Hs. split; [eapply same_at_mono, Hs; by left|]. exists i0. split; [|by left].
  eapply same_at_inode; [exact Hs|by right|]. unfold inode_at. rewrite Hp0. exact Hi0.
Qed.
Lemma hoare_staging {A} fd tmp (f f' : inode → Prop) (a : A) partial g :
  inodes s0 !! fd = None → (∀ i, f i → f' (g i)) → (∀ k s, partial k s = s ∨ ∃ h, partial k s = on_inode fd h s) →
  hoare good (staging fd tmp f) (syscall partial (λ s, (Ok a, on_inode fd g s)))
    (λ r s, match r with Ok _ => staging fd tmp f' s | Err _ => replacing s end).
Proof.
  intros Hfd Hg Hpt. apply hoare_syscall; [done|..].
  - intros s [Hs Ht (i & Hi & Hf)]. pose proof (same_at_on_inode _ _ _ fd g Hfd Hs) as Hs'.
    split; [|by apply Hgood, untouched]. split; [done|done|]. exists (g i). split; [|by apply Hg].
    simpl. by rewrite lookup_alter_eq, Hi.
  - intros s k e [Hs _ _]. assert (replacing (partial k s)) as Hr; [|split; [done|by apply Hgood]].
    apply untouched. destruct (Hpt k s) as [->|[h ->]]; [done|by apply same_at_on_inode].
Qed.
Lemma hoare_replacing {A} (pt : nat → fs → fs) (g : fs → result A * fs) :
  (∀ k s, replacing s → replacing (pt k s)) → (∀ s, replacing s → replacing (g s).2) →
  hoare good replacing (syscall pt g) (λ _, replacing).
Proof.
  intros Hpt Hg. apply hoare_syscall; [done|..].
  - intros s Hs. split; [by apply Hg|by apply Hgood, Hg].
  - intros s k e Hs. split; [by apply Hpt|by apply Hgood, Hpt].
Qed.
Lemma replacing_delete s tmp : tmp ≠ p → ¬ X tmp → replacing s → replacing (set_dents s (delete tmp (dents s))).
Proof.
  intros Ht Hx [Hs (i & Hi & Hc)]. split; [etransitivity; [exact Hs|by apply same_at_delete]|].
  exists i. split; [|done]. unfold inode_at in *. simpl. by rewrite lookup_delete_ne by congruence.
Qed.
Lemma replacing_rename fd tmp s :
  tmp ≠ p → ¬ X tmp → staging fd tmp (λ i, i_type i = FRegular ∧ i_data i = b) s →
  replacing (set_dents s (<[p := fd]> (delete tmp (dents s)))).
Proof.
  intros Ht Hx [Hs Hd (i & Hi & Hf)]. split.
  - intros q Hq. simpl. rewrite lookup_insert_ne, lookup_delete_ne by congruence. by apply Hs; left.
  - exists i. split; [|by right]. unfold inode_at. simpl. rewrite lookup_insert_eq. exact Hi.
Qed.
Definition blank (i : inode) : Prop := i_type i = FRegular ∧ i_data i = [].
Definition filled (i : inode) : Prop := i_type i = FRegular ∧ i_data i = b.
Lemma hoare_CreateTemp_replacing :
  hoare good (λ s, s = s0) (CreateTemp (Dir p) "/.utlsproxy-*")
    (λ r s, match r with
            | Ok (fd, tmp) => (inodes s0 !! fd = None ∧ tmp ≠ p ∧ ¬ X tmp) ∧ staging fd tmp blank s
            | Err _ => replacing s
            end).
Proof.
  assert (replacing s0) as H0 by (by apply untouched). apply hoare_syscall; [done|..].
  - intros s ->. pose proof (temp_fresh s0 (Dir p ++ "/.utlsproxy-*")) as Ht. cbn [add_file fst snd].
    set (t := temp_name s0 (Dir p ++ "/.utlsproxy-*")) in *.
    assert (¬ X t) as Hx by (intros Hq; destruct (present t Hq); congruence).
    assert (t ≠ p) as Htp by congruence. pose proof (fresh_ino_None s0) as Hf.
    assert (¬ X' t) as Hx' by (by intros [|]).
    pose proof (same_at_add X' s0 t (fresh_ino s0) (mkInode FRegular 384 euid euid [] true []) Hx' Hf) as Hs.
    split; [split; [done|]|by apply Hgood, untouched]. split; [done|by simpl; rewrite lookup_insert_eq|].
    eexists. simpl. by rewrite lookup_insert_eq.
  - intros s k e ->. split; [done|by apply Hgood].
Qed.
Lemma hoare_Atomic_replacing mode : hoare good (λ s, s = s0) (Atomic p b mode) (λ _, replacing).
Proof.
  unfold Atomic. eapply hoare_bind; [apply hoare_CreateTemp_replacing|done|].
  intros [fd tmp]. apply hoare_pure. intros (Hfd & Htp & Hx).
  eapply hoare_finally with (R := λ _, replacing).
  - eapply hoare_bind; [by apply (hoare_staging fd tmp blank blank tt nothing); [..|by left]|done|intros []].
    eapply hoare_bind; [apply (hoare_staging fd tmp blank filled tt); [done| |by right; eexists]|done|intros []].
    { intros i [? Hd]. split; [done|]. simpl. by rewrite Hd. }
    eapply hoare_bind; [by apply (hoare_staging fd tmp filled filled tt nothing); [..|by left]|done|intros []].
    eapply hoare_bind with (R := λ r s, match r with Ok _ => staging fd tmp filled s | Err _ => replacing s end); [|done|intros []].
    { apply hoare_syscall; [done|..]; intros; destruct_and?; (split; [done || by apply untouched, st_spared with fd tmp filled|
        by eapply Hgood, untouched, st_spared]). }
    eapply hoare_bind with (R := λ _, replacing); [|done|intros []].
    { apply hoare_syscall; [done|..].
      - intros s Hs. rewrite (st_tmp _ _ _ _ Hs). cbn [fst snd].
        pose proof (replacing_rename fd tmp s Htp Hx Hs). split; [done|by apply Hgood].
      - intros s k e Hs. apply st_spared, untouched in Hs. split; [done|by apply Hgood]. }
    eapply hoare_bind with (R := λ _, replacing); [|done|intros d].
    { eapply hoare_try with (R := λ _, replacing); [by apply hoare_replacing|done]. }
    destruct d as [[]|e]; [|by apply hoare_ret].
    eapply hoare_bind with (R := λ _, replacing); [|done|intros []; by apply hoare_ret].
    apply hoare_ignore, hoare_replacing; [done|]. intros s [Hs Hi]. by split.
  - intros r. eapply hoare_bind with (R := λ _, replacing); [apply hoare_ignore; by apply hoare_replacing|done|intros []].
    apply hoare_ignore, hoare_replacing; [done|]. intros s Hs. cbv beta. destruct (dents s !! tmp); [|done].
    cbn [snd]. by apply replacing_delete.
Qed.
End Replacing.

Create HintDb spares discriminated.
#[export] Hint Resolve spares_lift spares_ret spares_try spares_ignore spares_finally spares_query
  spares_ReadFile spares_Regular
  spares_MkdirAll spares_create spares_Remove spares_PrivateDir spares_Lock spares_Exclusive : spares.
#[export] Hint Extern 2 (spares _ (mbind _ _)) => apply spares_bind; [|intros] : spares.
#[export] Hint Extern 2 (spares _ (match ?x with _ => _ end)) => destruct x : spares.

(** ** Known files

    [holds X v s]: each name of [X] is a regular file with the contents [v] gives it, or is
    missing if it gives none. Without faults the calls on these names do what they say. *)
Lemma hoare_syscall_sure `{Kernel} {A} partial (f : fs → result A * fs) (P : fs → Prop) (Q : result A → fs → Prop) :
  quiet → (∀ n, fault n = None) → (∀ s, P s → Q (f s).1 (f s).2) → hoare (λ _, True) P (syscall partial f) Q.
Proof.
  intros alone sure Hf o HP. unfold syscall. rewrite alone, sure. specialize (Hf _ HP).
  destruct (f (sys o)) as [r s]. split; [done|]. intros _. apply Forall_cons. split; [done|by apply Forall_true].
Qed.
Section Known.
Context `{Kernel}.
Variable X : str → Prop.
Definition view : Type := str → option str.
Definition holds (v : view) (s : fs) : Prop := ∀ q, X q → match v q with
  | Some b => ∃ i, inode_at s q = Some i ∧ i_type i = FRegular ∧ i_data i = b
  | None => dents s !! q = None
  end.
Definition update (v : view) (p : str) (b : option str) : view := λ q, if decide (q = p) then b else v q.
Lemma holds_ext v v' s : (∀ q, X q → v q = v' q) → holds v s → holds v' s.
Proof. intros Hv Hs q Hq. rewrite <- Hv by done. by apply Hs. Qed.
Lemma holds_same v s s' : holds v s → same_at X s s' → holds v s'.
Proof.
  intros Hs Hsame q Hq. specialize (Hs q Hq). destruct (v q) as [b|].
  - destruct Hs as (i & Hi & ?). exists i. split; [by eapply same_at_inode|done].
  - by rewrite (proj1 (Hsame q Hq)).
Qed.
Lemma holds_keep {A} (m : M A) v : spares X m → hoare (λ _, True) (holds v) m (λ _, holds v).
Proof. intros Hm. eapply hoare_spares; [exact Hm|apply holds_same|done]. Qed.
Lemma holds_read v s p b : holds v s → X p → v p = Some b → read_file s p = Ok b.
Proof.
  intros Hs Hp Hv. specialize (Hs p Hp). rewrite Hv in Hs. destruct Hs as (i & Hi & Ht & <-).
  by apply read_file_regular.
Qed.
Lemma holds_missing v s p : holds v s → X p → v p = None → read_file s p = Err not_exist.
Proof. intros Hs Hp Hv. specialize (Hs p Hp). rewrite Hv in Hs. unfold read_file. cbn [follow]. by rewrite Hs. Qed.

Hypothesis alone : quiet.
Hypothesis sure : ∀ n, fault n = None.
Lemma sure_query {A} (f : fs → result A) v : hoare (λ _, True) (holds v) (query f) (λ r s, holds v s ∧ r = f s).
Proof. apply hoare_query_fault; [done|done|done|]. intros s n e _ He. by rewrite sure in He. Qed.
(** A call that looks at one of the names. *)
Lemma sure_ReadFile v p : X p → hoare (λ _, True) (holds v) (ReadFile p) (λ r s, holds v s ∧ r = of_option not_exist (v p)).
Proof.
  intros Hp. eapply hoare_conseq; [apply sure_query|done|]. intros r s [Hs ->]. split; [done|].
  destruct (v p) as [b|] eqn:E; [by eapply holds_read|by eapply holds_missing].
Qed.
Lemma sure_Remove v p : X p →
  hoare (λ _, True) (holds v) (Remove p) (λ r s, match v p with
    | Some _ => r = Ok tt ∧ holds (update v p None) s
    | None => r = Err not_exist ∧ holds v s end).
Proof.
  intros Hp. apply hoare_syscall_sure; [done|done|]. intros s Hs. pose proof (Hs p Hp) as Hf. destruct (v p) as [b|] eqn:E.
  - destruct Hf as (i & Hi & _). unfold inode_at in Hi. destruct (dents s !! p) as [n|] eqn:Ed; [|done].
    cbn [fst snd]. split; [done|]. intros q Hq. unfold update. destruct (decide (q = p)) as [->|Hne].
    + simpl. by rewrite lookup_delete_eq.
    + specialize (Hs q Hq). destruct (v q); simpl.
      * unfold inode_at in *. simpl. by rewrite lookup_delete_ne by congruence.
      * by rewrite lookup_delete_ne by congruence.
  - by rewrite Hf.
Qed.
(** *** [Atomic] *)
Section Atomic.
Hypothesis temp_apart : ∀ s d, ¬ X (temp_name s d).
Variables (v : view) (p b : str).
Hypothesis Hp : X p.
Record prepared (fd : Z) (tmp d : str) (s : fs) : Prop := {
  pr_holds : holds v s;
  pr_tmp : dents s !! tmp = Some fd;
  pr_fd : ∃ i, inodes s !! fd = Some i ∧ i_type i = FRegular ∧ i_data i = d;
  pr_apart : ∀ q, X q → dents s !! q ≠ Some fd }.
Lemma prepared_on_inode fd tmp d d' g s :
  (∀ i, i_type (g i) = i_type i) → (∀ i, i_data i = d → i_data (g i) = d') →
  prepared fd tmp d s → prepared fd tmp d' (on_inode fd g s).
Proof.
  intros Hgt Hgd [Hs Ht (i & Hi & Hit & Hid) Ha]. split; [|done| |done].
  - intros q Hq. specialize (Hs q Hq). destruct (v q) as [c|]; [|done]. destruct Hs as (j & Hj & ?). exists j.
    split; [|done]. specialize (Ha q Hq). unfold inode_at in *. simpl. destruct (dents s !! q) as [m|]; [|done].
    cbn in *. by rewrite lookup_alter_ne by congruence.
  - exists (g i). simpl. rewrite lookup_alter_eq, Hi. split; [done|]. by rewrite Hgt, (Hgd i Hid).
Qed.
Lemma sure_prepared {A} fd tmp d d' (a : A) pt g :
  (∀ i, i_type (g i) = i_type i) → (∀ i, i_data i = d → i_data (g i) = d') →
  hoare (λ _, True) (prepared fd tmp d) (syscall pt (λ s, (Ok a, on_inode fd g s))) (λ r s, r = Ok a ∧ prepared fd tmp d' s).
Proof. intros Hgt Hgd. apply hoare_syscall_sure; [done|done|]. intros s Hs. split; [done|]. by eapply prepared_on_inode. Qed.
Lemma prepared_rename fd tmp s :
  ¬ X tmp → prepared fd tmp b s → holds (update v p (Some b)) (set_dents s (<[p := fd]> (delete tmp (dents s)))).
Proof.
  intros Ht [Hs Hd (i & Hi & ?) Ha] q Hq. unfold update. destruct (decide (q = p)) as [->|Hne].
  - exists i. split; [|done]. unfold inode_at. simpl. by rewrite lookup_insert_eq.
  - specialize (Hs q Hq). assert (q ≠ tmp) by congruence. destruct (v q) as [c|]; simpl.
    + unfold inode_at in *. simpl. by rewrite lookup_insert_ne, lookup_delete_ne by congruence.
    + by rewrite lookup_insert_ne, lookup_delete_ne by congruence.
Qed.
Lemma sure_bind {A B} (m : M A) (f : A → M B) (P R : fs → Prop) a Q :
  hoare (λ _, True) P m (λ r s, r = Ok a ∧ R s) → hoare (λ _, True) R (f a) Q → hoare (λ _, True) P (m ≫= f) Q.
Proof.
  intros Hm Hf. eapply hoare_bind; [exact Hm|by intros e s [? _]|]. intros x o [Hx Ho]. injection Hx as ->. by apply Hf.
Qed.
Lemma sure_Atomic mode :
  hoare (λ _, True) (holds v) (Atomic p b mode) (λ r s, r = Ok tt ∧ holds (update v p (Some b)) s).
Proof.
  unfold Atomic.
  eapply hoare_bind with (R := λ r s, match r with Ok (fd, tmp) => ¬ X tmp ∧ prepared fd tmp [] s | Err _ => False end).
  { apply hoare_syscall_sure; [done|done|]. intros s Hs. cbv beta zeta. cbn [add_file fst snd].
    set (t := temp_name s _). pose proof (temp_apart s (Dir p ++ "/.utlsproxy-*")) as Ht. fold t in Ht. split; [done|].
    pose proof (fresh_ino_None s) as Hf. pose proof (same_at_add X s t (fresh_ino s) (mkInode FRegular 384 euid euid [] true []) Ht Hf) as Hsame.
    split; [by eapply holds_same|by simpl; rewrite lookup_insert_eq| |].
    - eexists. simpl. by rewrite lookup_insert_eq.
    - intros q Hq. simpl. rewrite lookup_insert_ne by congruence. intros E. specialize (Hs q Hq).
      destruct (v q); [|congruence]. destruct Hs as (i & Hi & _). unfold inode_at in Hi. rewrite E in Hi. cbn in Hi. congruence. }
  { done. }
  intros [fd tmp]. apply hoare_pure. intros Ht. set (w := holds (update v p (Some b))).
  assert (∀ A (m : M A), spares X m → hoare (λ _, True) w m (λ _, w)) as Hk by (intros A m; apply holds_keep).
  eapply hoare_finally with (R := λ r s, r = Ok tt ∧ w s).
  - eapply sure_bind; [apply (sure_prepared fd tmp [] []); done|].
    eapply sure_bind; [apply (sure_prepared fd tmp [] b); [done|by intros i Hi; simpl; rewrite Hi]|].
    eapply sure_bind; [apply (sure_prepared fd tmp b b); done|].
    eapply sure_bind; [apply (hoare_syscall_sure _ _ (prepared fd tmp b) (λ r s, r = Ok tt ∧ prepared fd tmp b s)); done|].
    eapply (sure_bind _ _ _ w tt).
    { apply hoare_syscall_sure; [done|done|]. intros s Hs. rewrite (pr_tmp _ _ _ _ Hs). cbn [fst snd].
      split; [done|]. by apply prepared_rename. }
    eapply hoare_bind with (R := λ r s, match r with Ok _ => w s | Err _ => False end); [|done|].
    { eapply hoare_try; [apply Hk, spares_query; done|by intros r]. }
    intros [[]|e]; [|by apply hoare_ret].
    eapply (sure_bind _ _ _ w tt); [|by apply hoare_ret].
    apply hoare_ignore. eapply hoare_conseq; [apply Hk, spares_syscall; done|done|done].
  - intros r. eapply hoare_bind with (R := λ _ s, r = Ok tt ∧ w s); [|done|intros []].
    + apply hoare_ignore, hoare_pure. intros ->. eapply hoare_conseq; [apply Hk, spares_syscall; done|done|done].
    + apply hoare_ignore, hoare_pure. intros ->. eapply hoare_conseq; [apply Hk, spares_Remove; done|done|done].
Qed.
End Atomic.
End Known.

(** ** Looking at a file, when calls may fail *)
Section Looking.
Context `{Kernel}.
Variable good : fs → Prop.
Hypothesis alone : quiet.
(** The faults are real ones: no call claims that a file is missing when it is there. *)
Definition honest : Prop := ∀ n e, fault n = Some e → errors_Is e ErrNotExist = false.
Hypothesis real : honest.
(** Looking at a file. *)
Section At.
Variable s1 : fs.
Hypothesis Hg : good s1.
Notation at_s1 := (λ s, s = s1).
Lemma hoare_Regular p :
  hoare good at_s1 (Regular p) (λ r s, s = s1 ∧ match r with
    | Ok _ => ∃ i, inode_at s1 p = Some i ∧ i_type i = FRegular
    | Err e => errors_Is e ErrNotExist = true → dents s1 !! p = None end).
Proof.
  unfold Regular. eapply hoare_bind with (R := λ r s, s = s1 ∧ match r with
    | Ok i => inode_at s1 p = Some i
    | Err e => errors_Is e ErrNotExist = true → dents s1 !! p = None end).
  - apply hoare_query_fault; [done|by intros s ->| |].
    + intros s ->. split; [done|]. destruct (inode_at s1 p); cbn [of_option]; [done|].
      unfold missing. by destruct (dents s1 !! p).
    + intros s n e -> He. split; [done|]. intros Hn. pose proof (real n e He). congruence.
  - done.
  - intros i. apply hoare_lift. intros s [-> Hi]. split; [done|].
    destruct (bool_decide (i_type i = FRegular)) eqn:Ht; cbn [negb guard_err]; [|done].
    exists i. split; [done|by bools].
Qed.
Lemma hoare_ReadFile p :
  hoare good at_s1 (ReadFile p) (λ r s, s = s1 ∧ match r with
    | Ok b => read_file s1 p = Ok b | Err e => True end).
Proof.
  apply hoare_query; [done|by intros s ->| |by intros s e ->]. intros s ->. split; [done|]. by destruct (read_file s1 p).
Qed.
End At.
End Looking.
