(* ===== verification/ConfigLoad.v ===== *)
(** * ConfigLoad: reading and writing the configuration ([Load] and [Duration] in
    src/internal/config/config.go, [config init] in src/internal/cli/cli.go)

    The JSON value of a checked text, its decoding into the defaults field by field, the
    paths made absolute, and the value that [config init] writes. *)
From S2P Require Import Prelude Strs NetIP Config ConfigJSON JSONText Durations Fsutil.

(** ** [filepath] *)
Definition IsAbs (p : str) : bool := match p with c :: _ => beq c slash | [] => false end.
(** The components that [Clean] keeps, the last one first. *)
Fixpoint clean_parts (rooted : bool) (acc : list str) (l : list str) : list str :=
  match l with
  | [] => acc
  | x :: l =>
      if (x == "") || (x == ".") then clean_parts rooted acc l
      else if x == ".." then
        match acc with
        | y :: acc' => if y == ".." then clean_parts rooted (x :: acc) l else clean_parts rooted acc' l
        | [] => clean_parts rooted (if rooted then [] else [x]) l
        end
      else clean_parts rooted (x :: acc) l
  end.
Definition Clean (p : str) : str :=
  let rooted := IsAbs p in
  let body := Join (reverse (clean_parts rooted [] (Split p slash))) [slash] in
  if rooted then slash :: body else if body == "" then "." : str else body.
(** [filepath.Join] of two elements. *)
Definition JoinPath (a b : str) : str :=
  if (a == "") && (b == "") then [] : str
  else if a == "" then Clean b else if b == "" then Clean a else Clean (a ++ slash :: b).

(** [filepath.Dir]. *)
Definition DirOf (p : str) : str := match CutLast p slash with Some (d, _) => Clean (d ++ [slash]) | None => "." end.

(** ** The value of a text *)
Fixpoint parse_value (fuel : nat) (b : list raw) : option (json * list raw) :=
  match fuel with
  | O => None
  | S n =>
      match b with
      | RStr s :: r => Some (JStr s, r)
      | RNum s :: r => Some (JNum s, r)
      | RBool x :: r => Some (JBool x, r)
      | RNull :: r => Some (JNull, r)
      | RDelim c :: r =>
          if beq c lbrack then
            match r with
            | RDelim d :: r' => if beq d rbrack then Some (JArr [], r') else '(l, r) ← parse_elements n r; Some (JArr l, r)
            | _ => '(l, r) ← parse_elements n r; Some (JArr l, r)
            end
          else if beq c lbrace then
            match r with
            | RDelim d :: r' => if beq d rbrace then Some (JObj [], r') else None
            | _ => '(l, r) ← parse_members n r; Some (JObj l, r)
            end
          else None
      | _ => None
      end
  end
with parse_elements (fuel : nat) (b : list raw) : option (list json * list raw) :=
  match fuel with
  | O => None
  | S n =>
      '(j, r) ← parse_value n b;
      match r with
      | RDelim c :: r => if beq c comma then '(l, r) ← parse_elements n r; Some (j :: l, r)
                         else if beq c rbrack then Some ([j], r) else None
      | _ => None
      end
  end
with parse_members (fuel : nat) (b : list raw) : option (list (str * json) * list raw) :=
  match fuel with
  | O => None
  | S n =>
      match b with
      | RStr k :: RDelim c :: b =>
          if negb (beq c colon) then None
          else
            '(j, r) ← parse_value n b;
            match r with
            | RDelim c :: r => if beq c comma then '(l, r) ← parse_members n r; Some ((k, j) :: l, r)
                               else if beq c rbrace then Some ([(k, j)], r) else None
            | _ => None
            end
      | _ => None
      end
  end.
Definition parse (b : list raw) : option json :=
  '(j, r) ← parse_value (2 * length b + 2) b;
  match r with [] => Some j | _ => None end.

(** ** Decoding into a struct

    After the checks every member names a field exactly, once, and nothing is null. A field
    that is not named keeps its default. *)
Definition type_error : error := errors_New "json: cannot unmarshal into Go struct field".
Definition jstr (j : json) : result str := match j with JStr s => Ok s | _ => Err type_error end.
Definition jint (j : json) : result Z :=
  match j with JNum s => of_option type_error (Atoi s) | _ => Err type_error end.
Definition jstrs (j : json) : result (list str) :=
  match j with JArr l => mapM jstr l | _ => Err type_error end.
(** [Duration.UnmarshalJSON]. *)
Definition jduration (j : json) : result Z := s ← jstr j; ParseDuration s.
Definition setter (R : Type) : Type := str * (json → R → result R).
Definition set {R A} (name : str) (get : json → result A) (f : A → R → R) : setter R :=
  (name, λ j r, a ← get j; Ok (f a r)).
Fixpoint find_setter {R} (name : str) (l : list (setter R)) : option (json → R → result R) :=
  match l with
  | [] => None
  | (n, f) :: l => if n == name then Some f else find_setter name l
  end.
Fixpoint decode_members {R} (fields : list (setter R)) (l : list (str * json)) (r : R) : result R :=
  match l with
  | [] => Ok r
  | (k, j) :: l =>
      f ← of_option (errors_New ("json: unknown field " ++ k)) (find_setter k fields);
      r ← f j r;
      decode_members fields l r
  end.
Definition decode_struct {R} (fields : list (setter R)) (j : json) (r : R) : result R :=
  match j with JObj l => decode_members fields l r | _ => Err type_error end.
(** A field that is itself a struct is decoded into the value it has. *)
Definition sub {R S} (name : str) (fields : list (setter S)) (get : R → S) (put : S → R → R) : setter R :=
  (name, λ j r, s ← decode_struct fields j (get r); Ok (put s r)).

Definition DNS_fields : list (setter DNS) :=
  [set "mode" jstr (λ x d, mkDNS x (Servers d) (RefreshInterval d) (Timeout d) (CacheSize d));
   set "servers" jstrs (λ x d, mkDNS (Mode d) x (RefreshInterval d) (Timeout d) (CacheSize d));
   set "refresh_interval" jduration (λ x d, mkDNS (Mode d) (Servers d) x (Timeout d) (CacheSize d));
   set "timeout" jduration (λ x d, mkDNS (Mode d) (Servers d) (RefreshInterval d) x (CacheSize d));
   set "cache_size" jint (λ x d, mkDNS (Mode d) (Servers d) (RefreshInterval d) (Timeout d) x)].
Definition upstream_fields : list (setter UpstreamCfg) :=
  [set "port" jint (λ x u, mkUpstream x (UProfile u) (ALPNMode u));
   set "profile" jstr (λ x u, mkUpstream (Port u) x (ALPNMode u));
   set "alpn_mode" jstr (λ x u, mkUpstream (Port u) (UProfile u) x)].
Definition ca_fields : list (setter CACfg) :=
  [set "cert" jstr (λ x u, mkCA x (Key u)); set "key" jstr (λ x u, mkCA (Cert u) x)].
Definition runtime_fields : list (setter RuntimeCfg) :=
  let mk := mkRuntime in
  [set "state_dir" jstr (λ x r, mk x (ControlSocket r) (MaxConnections r) (HandshakeTimeout r) (IdleTimeout r) (ShutdownTimeout r));
   set "control_socket" jstr (λ x r, mk (StateDir r) x (MaxConnections r) (HandshakeTimeout r) (IdleTimeout r) (ShutdownTimeout r));
   set "max_connections" jint (λ x r, mk (StateDir r) (ControlSocket r) x (HandshakeTimeout r) (IdleTimeout r) (ShutdownTimeout r));
   set "handshake_timeout" jduration (λ x r, mk (StateDir r) (ControlSocket r) (MaxConnections r) x (IdleTimeout r) (ShutdownTimeout r));
   set "idle_timeout" jduration (λ x r, mk (StateDir r) (ControlSocket r) (MaxConnections r) (HandshakeTimeout r) x (ShutdownTimeout r));
   set "shutdown_timeout" jduration (λ x r, mk (StateDir r) (ControlSocket r) (MaxConnections r) (HandshakeTimeout r) (IdleTimeout r) x)].
Definition log_fields : list (setter LogCfg) :=
  [set "level" jstr (λ x u, mkLog x (Format u)); set "format" jstr (λ x u, mkLog (Level u) x)].
Definition set_Version (x : Z) (c : Config) : Config :=
  mkConfig x (Listen c) (Domains c) (Upstream c) (CDNS c) (CA c) (HostsAddress c) (ClientCIDRs c) (Runtime c) (Log c).
Definition set_Listen (x : list str) (c : Config) : Config :=
  mkConfig (Version c) x (Domains c) (Upstream c) (CDNS c) (CA c) (HostsAddress c) (ClientCIDRs c) (Runtime c) (Log c).
Definition set_Upstream (x : UpstreamCfg) (c : Config) : Config :=
  mkConfig (Version c) (Listen c) (Domains c) x (CDNS c) (CA c) (HostsAddress c) (ClientCIDRs c) (Runtime c) (Log c).
Definition set_DNS (x : DNS) (c : Config) : Config :=
  mkConfig (Version c) (Listen c) (Domains c) (Upstream c) x (CA c) (HostsAddress c) (ClientCIDRs c) (Runtime c) (Log c).
Definition set_CA (x : CACfg) (c : Config) : Config :=
  mkConfig (Version c) (Listen c) (Domains c) (Upstream c) (CDNS c) x (HostsAddress c) (ClientCIDRs c) (Runtime c) (Log c).
Definition set_Address (x : str) (c : Config) : Config :=
  mkConfig (Version c) (Listen c) (Domains c) (Upstream c) (CDNS c) (CA c) x (ClientCIDRs c) (Runtime c) (Log c).
Definition set_CIDRs (x : list str) (c : Config) : Config :=
  mkConfig (Version c) (Listen c) (Domains c) (Upstream c) (CDNS c) (CA c) (HostsAddress c) x (Runtime c) (Log c).
Definition set_Runtime (x : RuntimeCfg) (c : Config) : Config :=
  mkConfig (Version c) (Listen c) (Domains c) (Upstream c) (CDNS c) (CA c) (HostsAddress c) (ClientCIDRs c) x (Log c).
Definition set_Log (x : LogCfg) (c : Config) : Config :=
  mkConfig (Version c) (Listen c) (Domains c) (Upstream c) (CDNS c) (CA c) (HostsAddress c) (ClientCIDRs c) (Runtime c) x.
Definition Config_fields : list (setter Config) :=
  [set "version" jint set_Version; set "listen" jstrs set_Listen; set "domains" jstrs (λ x c, set_Domains c x);
   sub "upstream" upstream_fields Upstream set_Upstream; sub "dns" DNS_fields CDNS set_DNS;
   sub "ca" ca_fields Config.CA set_CA; sub "hosts" [set "address" jstr (λ x _, x)] HostsAddress set_Address;
   sub "access" [set "client_cidrs" jstrs (λ x _, x)] ClientCIDRs set_CIDRs;
   sub "runtime" runtime_fields Config.Runtime set_Runtime; sub "log" log_fields Log set_Log].
Definition decode_config (j : json) (c : Config) : result Config := decode_struct Config_fields j c.

(** ** [Load] *)
Definition relative (base p : str) : str := if (p != "") && negb (IsAbs p) then JoinPath base p else p.
Definition absolute_paths (base : str) (c : Config) : Config :=
  let r := Config.Runtime c in
  set_Runtime (mkRuntime (relative base (StateDir r)) (relative base (ControlSocket r)) (MaxConnections r)
                 (HandshakeTimeout r) (IdleTimeout r) (ShutdownTimeout r))
    (set_CA (mkCA (relative base (Cert (Config.CA c))) (relative base (Key (Config.CA c)))) c).
Definition checked (r : Config * option error) : result Config :=
  match r with (c, None) => Ok c | (_, Some e) => Err e end.
Section Load.
Context `{Unicode, IDNA, Kernel}.
(** [filepath.Abs] and the platform. *)
Variables (Abs : str → result str) (GOOS : str).
Definition read_config (path b : str) : result Config :=
  _ ← guard_err (1024 * 1024 <? Z.of_nat (length b)) (errors_New "configuration exceeds 1 MiB");
  _ ← CheckJSON (lex b);
  j ← of_option type_error (parse (lex b));
  _ ← exactFields j Config_type;
  c ← decode_config j (Defaults GOOS);
  base ← Abs (DirOf path);
  checked (Validate (absolute_paths base c)).
Definition Load (path : str) : M Config := b ← ReadFile path; lift (read_config path b).
End Load.

(** ** What [json.MarshalIndent] writes *)
Definition num (z : Z) : json := JNum (Itoa z).
(** [Duration.MarshalJSON]. *)
Definition duration (d : Z) : json := JStr (Duration_String d).
Definition strings (l : list str) : json := JArr (map JStr l).
Definition encode_config (c : Config) : json :=
  let u := Upstream c in let d := CDNS c in let r := Config.Runtime c in
  JObj [("version" : str, num (Version c)); ("listen" : str, strings (Listen c)); ("domains" : str, strings (Domains c));
    ("upstream" : str, JObj [("port" : str, num (Port u)); ("profile" : str, JStr (UProfile u)); ("alpn_mode" : str, JStr (ALPNMode u))]);
    ("dns" : str, JObj [("mode" : str, JStr (Mode d)); ("servers" : str, strings (Servers d));
       ("refresh_interval" : str, duration (RefreshInterval d)); ("timeout" : str, duration (Timeout d));
       ("cache_size" : str, num (CacheSize d))]);
    ("ca" : str, JObj [("cert" : str, JStr (Cert (Config.CA c))); ("key" : str, JStr (Key (Config.CA c)))]);
    ("hosts" : str, JObj [("address" : str, JStr (HostsAddress c))]);
    ("access" : str, JObj [("client_cidrs" : str, strings (ClientCIDRs c))]);
    ("runtime" : str, JObj [("state_dir" : str, JStr (StateDir r)); ("control_socket" : str, JStr (ControlSocket r));
       ("max_connections" : str, num (MaxConnections r)); ("handshake_timeout" : str, duration (HandshakeTimeout r));
       ("idle_timeout" : str, duration (IdleTimeout r)); ("shutdown_timeout" : str, duration (ShutdownTimeout r))]);
    ("log" : str, JObj [("level" : str, JStr (Level (Log c))); ("format" : str, JStr (Format (Log c)))])].

(** ** The parser reads what is rendered *)
Definition parses (j : json) : Prop := ∀ n rest, (length (render j) < n)%nat → parse_value n (render j ++ rest) = Some (j, rest).
Lemma parse_elements_render l : Forall parses l → ∀ j n rest, parses j →
  (length (sep_by (map render (j :: l))) + 1 < n)%nat →
  parse_elements n (sep_by (map render (j :: l)) ++ RDelim rbrack :: rest) = Some (j :: l, rest).
Proof.
  induction 1 as [|k l Hk _ IH]; intros j n rest Hj Hn; (destruct n as [|n]; [lia|]); cbn [map parse_elements] in *.
  - cbn [sep_by] in *. rewrite Hj by lia. cbn [mbind option_bind]. done.
  - rewrite sep_by_cons, commas_cons, length_app in Hn. cbn [length] in Hn. rewrite length_app in Hn.
    change (sep_by (render j :: render k :: map render l)) with (render j ++ RDelim comma :: sep_by (render k :: map render l)).
    rewrite <- app_assoc. rewrite Hj by lia. cbn [mbind option_bind app]. rewrite beq_refl.
    rewrite (IH k n rest Hk); [done|]. cbn [map]. rewrite sep_by_cons, length_app. lia.
Qed.
Lemma parse_members_render l : Forall (λ kv, parses kv.2) l → ∀ kv n rest, parses kv.2 →
  (length (sep_by (map member_text (kv :: l))) + 1 < n)%nat →
  parse_members n (sep_by (map member_text (kv :: l)) ++ RDelim rbrace :: rest) = Some (kv :: l, rest).
Proof.
  induction 1 as [|k l Hk _ IH]; intros [s j] n rest Hj Hn; (destruct n as [|n]; [lia|]); cbn [map parse_members snd] in *.
  - cbn [sep_by member_text fst snd app length] in *. rewrite beq_refl. cbn [negb]. rewrite Hj by lia. done.
  - rewrite sep_by_cons, commas_cons, length_app in Hn. cbn [length] in Hn. rewrite length_app in Hn.
    change (length (member_text (s, j))) with (2 + length (render j))%nat in Hn.
    change (sep_by (member_text (s, j) :: member_text k :: map member_text l))
      with (member_text (s, j) ++ RDelim comma :: sep_by (member_text k :: map member_text l)).
    rewrite <- app_assoc. unfold member_text at 1. cbn [fst snd app]. rewrite beq_refl. cbn [negb].
    rewrite Hj by lia. cbn [mbind option_bind app]. rewrite beq_refl.
    rewrite (IH k n rest Hk); [done|]. cbn [map]. rewrite sep_by_cons, length_app. lia.
Qed.
Lemma parses_all m j : (length (render j) ≤ m)%nat → parses j.
Proof.
  revert j. induction m as [|m IH]; intros j Hm; [by destruct j; simpl in Hm; lia|].
  intros n rest Hn. destruct n as [|n]; [lia|]. destruct j as [|s|s|b|l|l]; [done..| |].
  - cbn [render app parse_value]. rewrite beq_refl. destruct l as [|j l]; [done|].
    rewrite length_render_arr in Hm, Hn.
    assert (Forall parses (j :: l)) as Hall.
    { apply Forall_forall. intros x Hx. apply IH.
      pose proof (length_sep_by_elem (render x) (map render (j :: l))) as Hle.
      assert (length (render x) ≤ length (sep_by (map render (j :: l))))%nat; [|lia]. apply Hle, list_elem_of_fmap. by exists x. }
    apply Forall_cons in Hall as [Hj Hl].
    pose proof (parse_elements_render l Hl j n rest Hj ltac:(lia)) as E. rewrite <- app_assoc. cbn [app].
    assert (∃ x r, sep_by (map render (j :: l)) = x :: r ∧ x ≠ RDelim rbrack) as (x & r & Ex & Hx).
    { cbn [map]. rewrite sep_by_cons. destruct j; cbn [render app]; eexists _, _; split; done. }
    rewrite Ex in E |- *. cbn [app] in E |- *. rewrite E. destruct x as [d| | | | |]; try done.
    destruct (beq_spec d rbrack) as [->|]; done.
  - cbn [render app parse_value]. change (beq lbrace lbrack) with false. rewrite beq_refl. destruct l as [|kv l]; [done|].
    rewrite length_render_obj in Hm, Hn.
    assert (Forall (λ kv, parses kv.2) (kv :: l)) as Hall.
    { apply Forall_forall. intros x Hx. apply IH.
      pose proof (length_sep_by_elem (member_text x) (map member_text (kv :: l))) as Hle.
      assert (length (member_text x) ≤ length (sep_by (map member_text (kv :: l))))%nat as Hx' by (apply Hle, list_elem_of_fmap; by exists x).
      change (length (member_text x)) with (2 + length (render x.2))%nat in Hx'. lia. }
    apply Forall_cons in Hall as [Hj Hl].
    pose proof (parse_members_render l Hl kv n rest Hj ltac:(lia)) as E. rewrite <- app_assoc. cbn [app].
    change (map (λ kv : str * json, RStr kv.1 :: RDelim colon :: render kv.2) (kv :: l)) with (map member_text (kv :: l)).
    assert (∃ s r, sep_by (map member_text (kv :: l)) = RStr s :: r) as (s & r & Ex).
    { cbn [map]. rewrite sep_by_cons. by eexists _, _. }
    rewrite Ex in E |- *. cbn [app] in E |- *. by rewrite E.
Qed.
Lemma parse_render j : parse (render j) = Some j.
Proof.
  unfold parse. rewrite <- (app_nil_r (render j)) at 2. rewrite (parses_all _ j (Nat.le_refl _)) by lia. done.
Qed.

(** ** The decoder reads what is encoded *)
Definition int64_ok (z : Z) : Prop := min_int64 ≤ z ≤ max_int64.
Lemma Atoi_Itoa z : int64_ok z → Atoi (Itoa z) = Some z.
Proof.
  intros Hz. assert (∀ y, 0 ≤ y → ∃ c s, Itoa y = c :: s ∧ is_digit c = true ∧ digits_value 0 (Itoa y) = Some y) as Hp.
  { intros y Hy. destruct (Itoa_digits y Hy) as (Hd & Hne & Hv). specialize (Hv []). rewrite app_nil_r in Hv.
    destruct (Itoa y) as [|c s]; [done|]. apply Forall_cons in Hd as [Hc _]. by exists c, s. }
  assert (∀ n : Z, int64_ok n → ((min_int64 <=? n) && (n <=? max_int64)) = true) as Hr.
  { intros n Hn. unfold int64_ok in Hn. rewrite andb_true_iff, !Z.leb_le. lia. }
  destruct (Z_lt_ge_dec z 0) as [Hneg|Hpos].
  - destruct z as [|p|p]; [lia|lia|]. change (Itoa (Z.neg p)) with (dash :: Itoa (Z.pos p)).
    destruct (Hp (Z.pos p)) as (c & s & E & _ & Hv); [lia|]. unfold Atoi. rewrite beq_refl, E. rewrite E in Hv. rewrite Hv.
    change (- Z.pos p) with (Z.neg p). by rewrite Hr.
  - destruct (Hp z) as (c & s & E & Hc & Hv); [lia|]. unfold Atoi. rewrite E. rewrite E in Hv.
    destruct (beq_spec c dash) as [->|_]; [done|]. destruct (beq_spec c (chr 43)) as [->|_]; [done|]. by rewrite Hv, Hr.
Qed.
Lemma jint_num z : int64_ok z → jint (num z) = Ok z.
Proof. intros Hz. cbn. by rewrite Atoi_Itoa. Qed.
Lemma jstrs_strings l : jstrs (strings l) = Ok l.
Proof. cbn. induction l as [|s l IH]; [done|]. cbn in *. by rewrite IH. Qed.
Record representable (c : Config) : Prop := {
  rp_ints : int64_ok (Version c) ∧ int64_ok (Port (Upstream c)) ∧ int64_ok (CacheSize (CDNS c)) ∧
    int64_ok (MaxConnections (Config.Runtime c));
  rp_durations : Forall (λ d, - 2 ^ 63 ≤ d < 2 ^ 63) [RefreshInterval (CDNS c); Timeout (CDNS c);
    HandshakeTimeout (Config.Runtime c); IdleTimeout (Config.Runtime c); ShutdownTimeout (Config.Runtime c)] }.

Lemma jduration_duration d : - 2 ^ 63 ≤ d < 2 ^ 63 → jduration (duration d) = Ok d.
Proof. intros Hd. cbn [jduration duration jstr mbind result_bind]. by apply ParseDuration_String. Qed.
Lemma decode_members_cons {R} (fields : list (setter R)) k j l r f r' c :
  find_setter k fields = Some f → f j r = Ok r' → decode_members fields l r' = Ok c →
  decode_members fields ((k, j) :: l) r = Ok c.
Proof. intros Hf Hr Hc. cbn [decode_members]. rewrite Hf. cbn [of_option mbind result_bind]. by rewrite Hr. Qed.
Lemma bind_put {A B} (m : result A) (g : A → B) a : m = Ok a → (x ← m; Ok (g x)) = Ok (g a).
Proof. by intros ->. Qed.
Lemma find_here {R} k (f : json → R → result R) l : find_setter k ((k, f) :: l) = Some f.
Proof. cbn [find_setter]. by rewrite str_eqb_refl. Qed.
Lemma find_next {R} k n (f : json → R → result R) g l :
  (n == k) = false → find_setter k l = Some f → find_setter k ((n, g) :: l) = Some f.
Proof. intros Hn Hf. cbn [find_setter]. by rewrite Hn. Qed.
Ltac find_field := lazymatch goal with
  | |- find_setter _ ?l = _ => let l' := eval hnf in l in change l with l'
  end; repeat (apply find_next; [vm_compute; reflexivity|]); apply find_here.
Ltac fields := cbn [set_Version set_Listen set_Domains set_Upstream set_DNS set_CA set_Address set_CIDRs set_Runtime set_Log
  Version Listen Domains Upstream CDNS Config.CA HostsAddress ClientCIDRs Config.Runtime Log Port UProfile ALPNMode Mode Servers
  RefreshInterval Timeout CacheSize Cert Key StateDir ControlSocket MaxConnections HandshakeTimeout IdleTimeout ShutdownTimeout
  Level Format].
(** The members of a struct, each set by the field of its name. *)
Ltac members :=
  lazymatch goal with
  | |- decode_struct ?f (JObj ?l) ?r = _ => change (decode_struct f (JObj l) r) with (decode_members f l r); members
  | |- decode_members _ [] _ = _ => reflexivity
  | |- decode_members _ _ _ = _ =>
      eapply decode_members_cons; [find_field|cbv beta; eapply bind_put; members|fields; members]
  | |- jint _ = _ => apply jint_num; assumption
  | |- jduration _ = _ => apply jduration_duration; assumption
  | |- jstrs _ = _ => apply jstrs_strings
  | |- jstr _ = _ => reflexivity
  end.

Lemma decode_encode c c0 : representable c → decode_config (encode_config c) c0 = Ok c.
Proof.
  intros [(Hv & Hp & Hcs & Hm) Hd]. repeat match goal with H : Forall _ (_ :: _) |- _ => apply Forall_cons in H as [? H] end.
  destruct c as [v li dom [po up al] [mo se rf ti cs] [ce ke] ha cc [sd so mc ht it st] [le fo]]. cbn in * |-.
  destruct c0 as [? ? ? [] [] [] ? ? [] []]. unfold decode_config, encode_config. fields. members.
Qed.
Lemma encode_conforms `{Unicode} c : exactFields (encode_config c) Config_type = Ok tt.
Proof. vm_compute. reflexivity. Qed.
Lemma strict_strings l : strict (strings l).
Proof. constructor. induction l as [|s l IH]; [by apply Forall_nil|]. apply Forall_cons. split; [constructor|exact IH]. Qed.
Lemma encode_strict c : strict (encode_config c).
Proof.
  unfold encode_config, num, duration. cbv zeta.
  repeat match goal with
  | |- strict (strings _) => apply strict_strings
  | |- strict (JObj _) => constructor; [by_compute|]
  | |- strict (JStr _) => constructor
  | |- strict (JNum _) => constructor
  | |- Forall strict ?l => let l' := eval cbn [fmap list_fmap snd] in l in change (Forall strict l'); repeat (apply Forall_cons; split); [..|by apply Forall_nil]
  end.
Qed.

Lemma IsAbs_Clean p : IsAbs p = true → IsAbs (Clean p) = true.
Proof. intros Hp. unfold Clean. rewrite Hp. done. Qed.
Lemma IsAbs_relative base p : IsAbs base = true → p ≠ [] → IsAbs (relative base p) = true.
Proof.
  intros Hb Hp. unfold relative. assert ((p == "") = false) as Hp' by (by apply str_eqb_neq). rewrite Hp'. cbn [negb andb].
  destruct (IsAbs p) eqn:Ea; [done|]. cbn [negb]. unfold JoinPath.
  destruct base as [|x base]; [done|]. rewrite Hp'. rewrite andb_false_r.
  assert (((x :: base) == "") = false) as -> by (by apply str_eqb_neq). apply IsAbs_Clean. done.
Qed.
Lemma relative_id base p : IsAbs p = true → relative base p = p.
Proof. intros Hp. unfold relative. rewrite Hp. by rewrite andb_false_r. Qed.
Definition paths_of (c : Config) : list str :=
  [Cert (Config.CA c); Key (Config.CA c); StateDir (Config.Runtime c); ControlSocket (Config.Runtime c)].
Lemma absolute_paths_id base c : Forall (λ p, IsAbs p = true) (paths_of c) → absolute_paths base c = c.
Proof.
  unfold paths_of. intros HF.
  repeat match goal with H : Forall _ (_ :: _) |- _ => apply Forall_cons in H as [? H] end.
  unfold absolute_paths. rewrite !relative_id by done. by destruct c as [? ? ? ? ? [] ? ? [] ?].
Qed.

(** ** Properties *)
Section Properties.
Context `{Unicode, IDNA, Kernel}.
Variables (Abs : str → result str) (GOOS : str).

Lemma checked_Ok r c : checked r = Ok c → r = (c, None).
Proof. destruct r as [c' [e|]]; [done|]. by intros [= ->]. Qed.
(** What [Load] answers about the bytes it has read. *)
Lemma Load_inv path o c : (Load Abs GOOS path o).1 = Ok c → ∃ b j c1 base,
  (ReadFile path o).1 = Ok b ∧ CheckJSON (lex b) = Ok tt ∧ parse (lex b) = Some j ∧ exactFields j Config_type = Ok tt ∧
  decode_config j (Defaults GOOS) = Ok c1 ∧ Abs (DirOf path) = Ok base ∧ Validate (absolute_paths base c1) = (c, None).
Proof.
  unfold Load. unfold mbind at 1, M_bind. destruct (ReadFile path o) as [[b|e] o'] eqn:E; [|done]. unfold lift, read_config. cbn [fst].
  intros Hl. ok_inv. destruct (parse (lex b)) as [j|] eqn:Ej; [|done]. cbn [of_option] in *. ok_inv.
  repeat match goal with u : unit |- _ => destruct u end.
  match goal with H : checked _ = Ok _ |- _ => apply checked_Ok in H end. by eexists _, _, _, _.
Qed.

Lemma wf_representable c : wf c → representable c.
Proof.
  intros Hc. pose proof (wf_durations _ Hc) as Hd. pose proof (wf_version _ Hc) as Hv. pose proof (wf_port _ Hc) as Hp.
  pose proof (wf_cache _ Hc) as Hk. pose proof (wf_conns _ Hc) as Hm. unfold wf_duration in Hd. change (24 * Hour) with 86400000000000 in Hd.
  constructor; [unfold int64_ok, min_int64, max_int64; lia|].
  repeat match goal with H : Forall _ (_ :: _) |- _ => apply Forall_cons in H as [? H] end.
  repeat (apply Forall_cons; split; [lia|]). by apply Forall_nil.
Qed.
(** The text written for a valid configuration with absolute paths is read as that configuration. *)
Lemma read_written path b c base :
  lex b = render (encode_config c) → Z.of_nat (length b) ≤ 1024 * 1024 → Validate c = (c, None) →
  Forall (λ p, IsAbs p = true) (paths_of c) → Abs (DirOf path) = Ok base →
  read_config Abs GOOS path b = Ok c.
Proof.
  intros Hl Hn Hv Hp Hb. unfold read_config. rewrite Hl.
  assert (guard_err (1024 * 1024 <? Z.of_nat (length b)) (errors_New "configuration exceeds 1 MiB") = Ok tt) as ->.
  { unfold guard_err. by destruct (Z.ltb_spec (1024 * 1024) (Z.of_nat (length b))); [lia|]. }
  rewrite CheckJSON_render by apply encode_strict. rewrite parse_render. cbn [mbind result_bind of_option].
  rewrite encode_conforms. cbn [mbind result_bind]. rewrite decode_encode by (eapply wf_representable, Validate_wf, Hv).
  cbn [mbind result_bind]. rewrite Hb. cbn [mbind result_bind]. by rewrite absolute_paths_id, Hv.
Qed.

(** C25: Whatever the file holds, a configuration that [Load] accepts is well formed: it meets
    every documented bound, its domain names are normalised and distinct, and the paths of
    the authority, the state directory and the control socket are absolute, the socket's
    within the portable length after it was made absolute. *)
Theorem Load_wf path o c :
  (∀ p q, Abs p = Ok q → IsAbs q = true) → (Load Abs GOOS path o).1 = Ok c →
  wf c ∧ Forall (λ p, IsAbs p = true) (paths_of c).
Proof.
  intros HAbs (b & j & c1 & base & _ & _ & _ & _ & _ & Hb & Hv)%Load_inv.
  pose proof (Validate_wf _ _ Hv) as Hwf. split; [done|]. apply HAbs in Hb.
  apply Validate_None in Hv as (_ & _ & Hc & _).
  pose proof (wf_paths _ Hwf) as Hp. unfold paths_of. rewrite Hc in Hp |- *. clear - Hb Hp.
  assert (∀ q, relative base q ≠ [] → IsAbs (relative base q) = true) as Hr.
  { intros [|x q]; [done|]. intros _. by apply IsAbs_relative. }
  repeat match goal with H : Forall _ (_ :: _) |- _ => apply Forall_cons in H as [? H] end.
  repeat (apply Forall_cons; split); [by apply Hr..|by apply Forall_nil].
Qed.
End Properties.

(** ** Witnesses *)
Definition demo_idna : IDNA := {| ToASCII := λ s, Ok s |}.
Definition demo_text : str := Eval vm_compute in MarshalIndent (encode_config (Defaults "linux")) ++ [nl].
Definition demo_os : os := mkOs (mkFs {["/etc/utlsproxy/config.json" : str := 1]} ∅ {[1 := mkInode FRegular 384 0 0 demo_text true []]} ∅) 0 [].
Lemma Load_wf_witness : @wf (Defaults "linux") ∧ Forall (λ p, IsAbs p = true) (paths_of (Defaults "linux")).
Proof.
  apply (@Load_wf ascii_only demo_idna no_faults (λ p, if IsAbs p then Ok p else Err not_exist) "linux"
    "/etc/utlsproxy/config.json" demo_os (Defaults "linux")).
  - intros p q. destruct (IsAbs p) eqn:E; [|done]. by intros [= <-].
  - vm_compute. reflexivity.
Defined.
(** C27: The text form of a duration is faithful: for every 64-bit duration, negative and
    extreme ones included, what [MarshalJSON] writes (hours, minutes, seconds and decimal
    fractions, or the small units) is read back by [UnmarshalJSON], whose arithmetic on
    fractions is in binary floating point, as exactly that duration. *)
Theorem Duration_roundtrip d : - 2 ^ 63 ≤ d < 2 ^ 63 → jduration (duration d) = Ok d.
Proof. apply jduration_duration. Qed.
Lemma Duration_roundtrip_witness : duration (90 * Minute + 5) = JStr "1h30m0.000000005s" ∧
  jduration (JStr "1h30m0.000000005s") = Ok (90 * Minute + 5).
Proof.
  assert (duration (90 * Minute + 5) = JStr "1h30m0.000000005s") as E by (vm_compute; reflexivity).
  split; [exact E|]. rewrite <- E. apply Duration_roundtrip. split; vm_compute; [discriminate|reflexivity].
Defined.
