(* ===== verification/Control.v ===== *)
(** * Control: the daemon's control socket (src/internal/control/control.go)

    [Listen] as a program over the file system: what it may remove, and what it leaves.
    Whether somebody listens at a socket is a function of the system, an argument. *)
From S2P Require Import Prelude Strs Fsutil Frames.

Section Control.
Context `{Kernel}.
(** [net.DialTimeout] on a socket. *)
Variable dial : fs → str → result unit.
Definition Dial (path : str) : M unit := query (λ s, dial s path).
Definition in_use : error := errors_New "address already in use".
(** [net.Listen]: [bind] makes the socket, [listen] makes it answer; if the second fails
    the socket stays. *)
Definition bind_socket (path : str) : M Z := syscall nothing (λ s,
  match dents s !! path with
  | Some _ => (Err in_use, s)
  | None =>
      let n := fresh_ino s in
      (Ok n, mkFs (<[path := n]> (dents s)) (ddents s)
               (<[n := mkInode FSocket 493 euid euid [] true []]> (inodes s)) (locks s))
  end).
Definition listen_socket (fd : Z) : M unit := syscall nothing (λ s, (Ok tt, s)).
Definition net_Listen (path : str) : M Z :=
  fd ← bind_socket path;
  r ← try (listen_socket fd);
  match r with Ok _ => mret fd | Err e => _ ← ignore (Close fd); fail e end.
(** [os.Chmod] follows links. *)
Definition Chmod_path (path : str) (mode : Z) : M unit := syscall nothing (λ s,
  match follow 40 s path with
  | Some (n, _) => (Ok tt, on_inode n (λ i, set_mode i mode) s)
  | None => (Err not_exist, s)
  end).
(** Closing a listener removes its socket. *)
Definition close_listener (path : str) (fd : Z) : M unit := _ ← ignore (Remove path); ignore (Close fd).
Definition not_socket (path : str) : error := errors_New ("refusing to remove non-socket path " ++ path).
Definition already_in_use : error := errors_New "control socket already in use".
Definition unproven (e : error) : error := Errorf_w "cannot prove existing socket is stale: " e.
(** What the socket of a daemon that is gone answers. *)
Definition stale_answer (e : error) : bool := errors_Is e ErrNotExist || errors_Is e ECONNREFUSED.
Definition clear_path (path : str) : M unit :=
  x ← try (Lstat path);
  match x with
  | Ok i =>
      if negb (bool_decide (i_type i = FSocket)) then fail (not_socket path)
      else
        c ← try (Dial path);
        match c with
        | Ok _ => fail already_in_use
        | Err e => if negb (stale_answer e) then fail (unproven e) else Remove path
        end
  | Err e => if errors_Is e ErrNotExist then mret tt else fail e
  end.
(** [if err != nil { cleanup(); return nil, nil, err }] *)
Definition or_clean {A B} (cleanup : M unit) (m : M A) (k : A → M B) : M B :=
  x ← try m;
  match x with Ok a => k a | Err e => _ ← ignore cleanup; fail e end.
Definition Listen (path : str) : M (Z * M unit) :=
  _ ← PrivateDir (Dir path);
  unlock ← Lock (path ++ ".lock");
  or_clean unlock (clear_path path) (λ _,
  or_clean unlock (net_Listen path) (λ fd,
  or_clean (_ ← close_listener path fd; unlock) (Chmod_path path 384) (λ _,
  mret (fd, _ ← close_listener path fd; unlock)))).

(** [Request]: what the client makes of the daemon's reply: an error of the transport, a
    status and a body of which at most 4 MiB are read. *)
Definition max_body : nat := Z.to_nat (4 * 1024 * 1024).
Definition Request {A} (reply : result (Z * str * str)) (parse : str → result A) (socket : str) : result A :=
  match reply with
  | Err e => Err (Errorf_w ("daemon unavailable at " ++ socket ++ ": ") e)
  | Ok (code, status, body) =>
      let b := take max_body body in
      _ ← guard_err (negb (code =? 200)) (errors_New ("daemon returned " ++ status ++ ": " ++ b));
      parse b
  end.

(** ** What [Listen] may remove *)
Lemma lock_apart (path : str) : path ++ ".lock" ≠ path.
Proof.
  intros E. apply (f_equal length) in E. rewrite length_app in E. change (length (".lock" : str)) with 5%nat in E. lia.
Qed.
Hypothesis alone : quiet.
Section Spared.
Variables (s0 : fs) (path : str).
Notation at_path := (λ q, q = path).
Notation kept := (same_at at_path s0).
(** Something is at the path that is not the socket of a daemon that is gone. *)
Definition occupied : Prop :=
  ∃ i, inode_at s0 path = Some i ∧
    (i_type i ≠ FSocket ∨ ∀ s, kept s → ∀ e, dial s path = Err e → stale_answer e = false).
(** No call that fails says what only a missing file or a dead socket may say. *)
Definition sincere : Prop := ∀ n e, fault n = Some e → stale_answer e = false.
Hypothesis Hocc : occupied.
Hypothesis Hsin : sincere.
Lemma sincere_exist n e : fault n = Some e → errors_Is e ErrNotExist = false.
Proof. intros He%Hsin. unfold stale_answer in He. by bools. Qed.
Lemma spared {A} (m : M A) : spares at_path m → hoare kept kept m (λ _, kept).
Proof. intros Hm. eapply hoare_spares; [exact Hm| |done]. intros s s' Hs Hs'. exact (same_at_trans _ _ _ _ Hs Hs'). Qed.
Lemma clear_path_refuses : hoare kept kept (clear_path path) (λ r s, kept s ∧ is_ok r = false).
Proof.
  destruct Hocc as (i & Hi & Hwhy). unfold clear_path.
  eapply hoare_bind with (R := λ x s, kept s ∧ match x with
    | Ok (Ok j) => j = i | Ok (Err e) => errors_Is e ErrNotExist = false | Err _ => False end).
  { eapply hoare_try with (R := λ x s, kept s ∧ match x with
      | Ok j => j = i | Err e => errors_Is e ErrNotExist = false end); [|by intros [j|e] s].
    apply hoare_query_fault; [done|done| |].
    - intros s Hs. split; [done|]. by rewrite (same_at_inode _ _ _ _ _ Hs eq_refl Hi).
    - intros s n e Hs He. split; [done|]. by eapply sincere_exist. }
  { by intros e s [_ ?]. }
  intros [j|e]; apply hoare_pure_r; [intros ->|intros ->; by apply hoare_lift].
  destruct (bool_decide_reflect (i_type i = FSocket)) as [Ht|Ht]; cbn [negb]; [|by apply hoare_lift].
  destruct Hwhy as [Hwhy|Hlive]; [done|].
  eapply hoare_bind with (R := λ x s, kept s ∧ match x with
    | Ok (Err e) => stale_answer e = false | Ok (Ok _) => True | Err _ => False end).
  { eapply hoare_try with (R := λ x s, kept s ∧ match x with
      | Ok _ => True | Err e => stale_answer e = false end); [|by intros [j|e] s].
    apply hoare_query_fault; [done|done| |].
    - intros s Hs. split; [done|]. destruct (dial s path) as [u|e] eqn:E; [done|]. by eapply Hlive.
    - intros s n e Hs He. split; [done|]. by eapply Hsin. }
  { by intros e s [_ ?]. }
  intros [u|e]; apply hoare_pure_r; [intros _; by apply hoare_lift|]. intros ->. by apply hoare_lift.
Qed.
Lemma or_clean_refused {A B} cleanup (m : M A) (k : A → M B) (R : A → Prop) :
  spares at_path cleanup → hoare kept kept m (λ r s, kept s ∧ match r with Ok a => R a | Err _ => True end) →
  (∀ a, R a → hoare kept kept (k a) (λ r s, kept s ∧ is_ok r = false)) →
  hoare kept kept (or_clean cleanup m k) (λ r s, kept s ∧ is_ok r = false).
Proof.
  intros Hc Hm Hk. unfold or_clean.
  eapply hoare_bind with (R := λ x s, kept s ∧ match x with Ok (Ok a) => R a | Ok (Err _) => True | Err _ => False end).
  { eapply hoare_try; [exact Hm|by intros [a|e] s]. }
  { by intros e s [_ ?]. }
  intros [a|e]; apply hoare_pure_r; [apply Hk|]. intros _.
  eapply hoare_bind with (R := λ _, kept); [apply spared; by apply spares_ignore|by intros e' s|].
  intros []. by apply hoare_lift.
Qed.
End Spared.

(** C26: The daemon never takes a path that is in use. If there is something at the control
    socket's path that is not a socket, or a socket at which somebody answers, or one that
    cannot be shown to be dead, [Listen] fails, and it has not touched it at any moment,
    whichever of its calls fail. *)
Theorem Listen_spares_occupied path o x o' :
  sincere → occupied (sys o) path → Dir path ≠ path → trace o = [] → Listen path o = (x, o') →
  is_ok x = false ∧ Forall (same_at (λ q, q = path) (sys o)) (states o').
Proof.
  intros Hsin Hocc Hd Ht E. set (s0 := sys o) in *. set (X := λ q : str, q = path) in *.
  assert (¬ X (path ++ ".lock")) as Hl.
  { apply lock_apart. }
  assert (hoare (same_at X s0) (same_at X s0) (Listen path) (λ r s, same_at X s0 s ∧ is_ok r = false)) as Hh.
  { unfold Listen. eapply hoare_bind with (R := λ _, same_at X s0).
    { apply spared. by apply spares_PrivateDir. }
    { done. }
    intros [].
    eapply hoare_bind with (R := λ r s, same_at X s0 s ∧ match r with Ok u => spares X u | Err _ => True end).
    { intros o1 Ho. destruct (spared s0 path _ (spares_Lock alone X _ Hl) o1 Ho) as [Hv Htr]. split; [|done]. split; [done|].
      destruct (Lock (path ++ ".lock") o1).1 as [u|] eqn:El; [|done]. by eapply Lock_unlock. }
    { by intros e s [? _]. }
    intros u. apply hoare_pure_r. intros Hu. apply (or_clean_refused s0 path _ _ _ (λ _, False)); [exact Hu| |done].
    eapply hoare_conseq; [by apply clear_path_refuses|done|by intros [[]|e] s [? ?]]. }
  destruct (Hh o) as [[Hs Hx] Htr]; [done|]. rewrite E in *. cbn [fst snd] in *. split; [done|].
  apply Forall_cons. split; [done|]. apply Htr. rewrite Ht. by apply Forall_nil.
Qed.

(** ** What a success means *)
Section Success.
Variable path : str.
Notation lock := (path ++ ".lock").
Definition held (s : fs) : Prop := ∃ n, dents s !! lock = Some n ∧ n ∈ locks s.
Record listening (mode : Z) (fd : Z) (s : fs) : Prop := {
  li_held : held s;
  li_entry : dents s !! path = Some fd;
  li_inode : ∃ i, inodes s !! fd = Some i ∧ i_type i = FSocket ∧ i_mode i = mode ∧ i_uid i = euid }.
Notation H_ P m Q := (hoare (λ _, True) P m Q).
Lemma Lock_holds : H_ (λ _, True) (Lock lock) (λ r s, match r with Ok _ => held s | Err _ => True end).
Proof.
  unfold Lock. eapply hoare_bind with (R := λ r s, match r with Ok n => dents s !! lock = Some n | Err _ => True end); [|done|].
  { apply hoare_syscall; [done| |by intros s n e _]. intros s _. split; [|done]. destruct (dents s !! lock) as [n|] eqn:E.
    - destruct (inodes s !! n); [|done]. cbn [fst]. by destruct (bool_decide _).
    - cbn [fst snd add_file dents]. by rewrite lookup_insert_eq. }
  intros n. eapply hoare_bind with (R := λ r s, match r with Ok (Ok _) => held s | _ => True end); [|done|].
  { eapply hoare_try with (R := λ r s, match r with Ok _ => held s | Err _ => True end); [|by intros [u|e] s].
    apply hoare_syscall; [done| |by intros s k e _]. intros s Hn. split; [|done].
    destruct (decide (n ∈ locks s)); [done|]. exists n. cbn [fst snd dents locks]. split; [done|set_solver]. }
  intros [u|e]; [by apply hoare_ret|]. eapply hoare_bind with (R := λ _ _, True); [|done|intros []; by apply hoare_lift].
  apply hoare_ignore. by apply hoare_syscall.
Qed.
Lemma hoare_true {A} (m : M A) : (∀ P : fs → Prop, (∀ s, P s) → H_ P m (λ _ _, True)).
Proof. intros P _ o _. split; [done|]. intros _. apply Forall_true. done. Qed.
Lemma clear_path_held : H_ held (clear_path path) (λ _, held).
Proof.
  unfold clear_path, Lstat, Dial.
  assert (∀ A (f : fs → result A), H_ held (query f) (λ _, held)) as Hq by (intros A f; by apply hoare_query).
  eapply hoare_bind with (R := λ _, held); [by eapply hoare_try|done|]. intros [i|e].
  - destruct (negb _); [by apply hoare_lift|]. eapply hoare_bind with (R := λ _, held); [by eapply hoare_try|done|].
    intros [u|e]; [by apply hoare_lift|]. destruct (negb _); [by apply hoare_lift|].
    apply hoare_syscall; [done| |by intros s n e' ?]. intros s (n & Hn & Hin). split; [|done].
    destruct (dents s !! path); [|by exists n]. exists n. cbn. pose proof (lock_apart path).
    by rewrite lookup_delete_ne by congruence.
  - destruct (errors_Is e ErrNotExist); [by apply hoare_ret|by apply hoare_lift].
Qed.
Lemma or_clean_ok {A B} cleanup (m : M A) (k : A → M B) P (R : A → fs → Prop) (Q : B → fs → Prop) :
  H_ P m (λ r s, match r with Ok a => R a s | Err _ => True end) →
  (∀ a, H_ (R a) (k a) (λ r s, match r with Ok b => Q b s | Err _ => True end)) →
  H_ P (or_clean cleanup m k) (λ r s, match r with Ok b => Q b s | Err _ => True end).
Proof.
  intros Hm Hk. unfold or_clean.
  eapply hoare_bind with (R := λ x s, match x with Ok (Ok a) => R a s | _ => True end).
  { eapply hoare_try; [exact Hm|by intros [a|e] s]. }
  { done. }
  intros [a|e]; [apply Hk|]. eapply hoare_bind with (R := λ _ _, True); [by apply hoare_true|done|].
  intros []. by apply hoare_lift.
Qed.
Lemma net_Listen_ok :
  H_ held (net_Listen path) (λ r s, match r with Ok fd => listening 493 fd s | Err _ => True end).
Proof.
  unfold net_Listen. eapply hoare_bind with (R := λ r s, match r with Ok fd => listening 493 fd s | Err _ => True end); [|done|].
  { apply hoare_syscall; [done| |by intros s n e _]. intros s (n & Hn & Hin). split; [|done]. cbv beta zeta.
    destruct (dents s !! path); [done|]. cbn [fst snd]. pose proof (lock_apart path). split; cbn.
    - exists n. cbn. by rewrite lookup_insert_ne by congruence.
    - by rewrite lookup_insert_eq.
    - eexists. rewrite lookup_insert_eq. by split_and!. }
  intros fd. eapply hoare_bind with (R := λ r s, match r with Ok (Ok _) => listening 493 fd s | _ => True end); [|done|].
  { eapply hoare_try with (R := λ r s, match r with Ok _ => listening 493 fd s | _ => True end); [|by intros [u|e] s].
    by apply hoare_syscall. }
  intros [u|e]; [by apply hoare_ret|]. eapply hoare_bind with (R := λ _ _, True); [by apply hoare_true|done|].
  intros []. by apply hoare_lift.
Qed.
Lemma Chmod_ok fd :
  H_ (listening 493 fd) (Chmod_path path 384) (λ r s, match r with Ok _ => listening 384 fd s | Err _ => True end).
Proof.
  apply hoare_syscall; [done| |by intros s n e _]. intros s [(n & Hn & Hin) He (i & Hi & Ht & Hm & Hu)]. split; [|done].
  cbn [follow]. rewrite He, Hi, Ht. cbn [fst snd]. split; [by exists n|done|].
  exists (set_mode i 384). cbn. by rewrite lookup_alter_eq, Hi.
Qed.
(** Closing, when no call fails. *)
Lemma close_removes fd :
  (∀ n, fault n = None) → H_ (λ s, dents s !! path = Some fd) (close_listener path fd) (λ _ s, dents s !! path = None).
Proof.
  intros sure. unfold close_listener. eapply hoare_bind with (R := λ r s, r = Ok tt ∧ dents s !! path = None).
  - apply hoare_ignore, hoare_syscall_sure; [done|done|]. intros s ->. cbn. by rewrite lookup_delete_eq.
  - by intros e s [? _].
  - intros []. apply hoare_ignore, hoare_syscall_sure; [done|done|]. by intros s [_ ?].
Qed.

Lemma Listen_listens : H_ (λ _, True) (Listen path) (λ r s, match r with
  | Ok (fd, close) => listening 384 fd s ∧ ∃ u, close = (_ ← close_listener path fd; u) ∧ spares (λ q, q = path) u
  | Err _ => True end).
Proof.
  unfold Listen. eapply hoare_bind with (R := λ _ _, True); [by apply hoare_true|done|]. intros [].
  eapply hoare_bind with (R := λ r s, match r with Ok u => held s ∧ spares (λ q, q = path) u | Err _ => True end); [|done|].
  { intros o1 _. destruct (Lock_holds o1) as [Hl _]; [done|]. split; [|intros _; by apply Forall_true].
    destruct (Lock lock o1).1 as [u|] eqn:El; [|done]. split; [done|]. by eapply Lock_unlock. }
  intros u. apply hoare_pure_r. intros Hu.
  eapply hoare_conseq; [apply (or_clean_ok u _ _ held (λ _, held) (λ x s, listening 384 x.1 s ∧
    ∃ u, x.2 = (_ ← close_listener path x.1; u) ∧ spares (λ q, q = path) u))|done|by intros [[fd' c]|e] s].
  { eapply hoare_conseq; [apply clear_path_held|done|by intros [[]|e] s]. }
  intros []. apply (or_clean_ok _ _ _ _ (λ fd, listening 493 fd)); [apply net_Listen_ok|]. intros fd'.
  apply (or_clean_ok _ _ _ _ (λ _, listening 384 fd')); [apply Chmod_ok|]. intros [].
  apply hoare_ret. intros s Hs. split; [done|]. by exists u.
Qed.

(** A daemon that listens is alone and private: when [Listen] succeeds, the path is a
    socket of its own, open to its owner only, and it holds the lock beside it, whatever
    calls failed on the way and whatever was there before; and without faults the function
    it returns removes that socket. *)
Theorem Listen_ok o fd close o' :
  Listen path o = (Ok (fd, close), o') →
  listening 384 fd (sys o') ∧ ((∀ n, fault n = None) → dents (sys (close o').2) !! path = None).
Proof.
  intros E. destruct (Listen_listens o) as [Hx _]; [done|]. rewrite E in Hx. cbn [fst snd] in Hx. destruct Hx as [Hl (u & -> & Hu)].
  split; [done|]. intros sure. unfold mbind, M_bind.
  destruct (close_removes fd sure o' (li_entry _ _ _ Hl)) as [Hgone _].
  destruct (close_listener path fd o') as [[[]|e] o2] eqn:Ec; cbn [fst snd] in *; [|done].
  destruct (Hu (sys o2) (λ _, True) (λ _ _, I) o2 eq_refl) as [Hs _].
  by rewrite (proj1 (Hs path eq_refl)).
Qed.
End Success.
End Control.

(** ** Witnesses

    A machine on which a daemon listens, and one on which it has died. *)
#[local] Existing Instance no_faults.
Definition demo_socket : str := "/var/run/utlsproxy/control.sock".
Definition demo_machine : fs :=
  mkFs {[demo_socket := 1]} ∅ {[1 := mkInode FSocket 384 0 0 [] true []]} ∅.
Definition answers : fs → str → result unit := λ _ _, Ok tt.
Definition dead : fs → str → result unit := λ _ _, Err (mkError "connection refused" [ECONNREFUSED]).
Definition demo_listen (dial : fs → str → result unit) : result (Z * M unit) * os :=
  Listen dial demo_socket (mkOs demo_machine 0 []).
Lemma Listen_spares_occupied_witness :
  is_ok (demo_listen answers).1 = false ∧ dents (sys (demo_listen answers).2) !! demo_socket = Some 1.
Proof.
  destruct (@Listen_spares_occupied no_faults answers (λ _ _, eq_refl) demo_socket (mkOs demo_machine 0 [])
    (demo_listen answers).1 (demo_listen answers).2) as [Hx Hs].
  - intros n e E. discriminate E.
  - eexists. split; [vm_compute; reflexivity|]. right. intros s _ e E. discriminate E.
  - intros E. vm_compute in E. discriminate E.
  - reflexivity.
  - exact (surjective_pairing _).
  - split; [exact Hx|]. apply Forall_cons in Hs as [Hs _]. rewrite (proj1 (Hs demo_socket eq_refl)). vm_compute. reflexivity.
Defined.
Lemma Listen_ok_witness :
  ∃ fd close, (demo_listen dead).1 = Ok (fd, close) ∧ listening demo_socket 384 fd (sys (demo_listen dead).2).
Proof.
  assert (is_ok (demo_listen dead).1 = true) as Hok by (vm_compute; reflexivity).
  destruct (demo_listen dead) as [[[fd close]|e] o'] eqn:E; [|discriminate Hok]. exists fd, close. split; [reflexivity|].
  exact (proj1 (@Listen_ok no_faults dead (λ _ _, eq_refl) demo_socket (mkOs demo_machine 0 []) fd close o' E)).
Defined.
