(* ===== verification/Hosts.v ===== *)
(** * Hosts: the edit of the marked block of a hosts file
    (block, Prepare and lineDiff in src/internal/hosts/hosts.go)

    [edit] is what [Prepare] computes from the bytes it has read; resolving the path and
    reading the file are the arguments of [Prepare]. *)
From S2P Require Import Prelude Strs.

Definition Begin : str := "# BEGIN utlsproxy managed hosts v1".
Definition End_ : str := "# END utlsproxy managed hosts v1".
Record Plan := mkPlan {
  Path : str; Changed : bool; Managed : list str; Conflicts : list str;
  Diff : str; Before : str; After : str }.
Definition zero_Plan : Plan := mkPlan [] false [] [] [] [] [].

(** ** The block *)
Definition marker (t : str) : bool :=
  HasPrefix t "# BEGIN utlsproxy" || HasPrefix t "# END utlsproxy".
Definition malformed_block : error :=
  errors_New "malformed, duplicate or unknown-version utlsproxy hosts block".
(** The loop over the lines; -1 in the code is [None] here. *)
Fixpoint block_loop (lines : list str) (offset : nat) (start stop : option nat)
    : result (option nat * option nat) :=
  match lines with
  | [] => Ok (start, stop)
  | line :: lines' =>
      let t := TrimSpace line in
      let next := (offset + length line)%nat in
      if marker t then
        match start, stop with
        | None, None => if t == Begin then block_loop lines' next (Some offset) None
                        else Err malformed_block
        | Some _, None => if t == End_ then block_loop lines' next start (Some next)
                          else Err malformed_block
        | _, _ => Err malformed_block
        end
      else block_loop lines' next start stop
  end.
Definition block (b : str) : result (option (nat * nat)) :=
  '(start, stop) ← block_loop (SplitAfter b nl) 0 None None;
  match start, stop with
  | Some s, Some e => Ok (Some (s, e))
  | None, None => Ok None
  | _, _ => Err (errors_New "incomplete utlsproxy hosts block")
  end.

(** ** The difference shown to the user *)
Fixpoint common_prefix (a b : list str) : nat :=
  match a, b with
  | x :: a', y :: b' => if x == y then S (common_prefix a' b') else O
  | _, _ => O
  end.
(** The second loop, on the lines after the common prefix: how many it drops at the end. *)
Definition common_suffix (a b : list str) : nat := common_prefix (reverse a) (reverse b).
Definition lineDiff (before after : str) : str :=
  let a := SplitAfter before nl in
  let b := SplitAfter after nl in
  let i := common_prefix a b in
  let n := common_suffix (drop i a) (drop i b) in
  let j := (length a - n)%nat in
  let k := (length b - n)%nat in
  "@@ lines " ++ Itoa (Z.of_nat (i + 1)) ++ ".." ++ Itoa (Z.of_nat j) ++ " -> "
    ++ Itoa (Z.of_nat (i + 1)) ++ ".." ++ Itoa (Z.of_nat k) ++ " @@" ++ [nl]
    ++ mjoin (map (cons (chr 45)) (drop i (take j a)))
    ++ mjoin (map (cons (chr 43)) (drop i (take k b))).

(** ** [Prepare] *)
Section Prepare.
Context `{Unicode}.

Definition managed_lines (blk : str) : list str :=
  List.filter (λ line, negb (HasPrefix line "#") && (TrimSpace line != "")) (Split blk nl).
(** The entries of one line that redirect a wanted name; the line is reported once each. *)
Definition line_conflicts (domains : list str) (line : str) : list str :=
  let '(text, _, _) := Cut line hash in
  match Fields text with
  | _ :: names =>
      map (λ _, line) (List.filter (λ name, str_mem (TrimSuffix (ToLower name) ".") domains) names)
  | [] => []
  end.
Definition find_conflicts (domains : list str) (out : str) : list str :=
  mjoin (map (line_conflicts domains) (Split out nl)).
Definition generated (domains : list str) (address : str) : str :=
  Begin ++ [nl] ++ mjoin (map (λ d, address ++ [space] ++ d ++ [nl]) domains) ++ End_ ++ [nl].
Definition end_line (out : str) : str :=
  match last out with
  | Some c => if beq c nl then out else out ++ [nl]
  | None => out
  end.

Definition edit (path : str) (b : str) (domains : list str) (address : str) (remove : bool)
    : Plan * option error :=
  match block b with
  | Err e => (zero_Plan, Some e)
  | Ok found =>
      let '(managed, out) :=
        match found with
        | Some (s, e) => (managed_lines (take (e - s) (drop s b)), take s b ++ drop e b)
        | None => ([], b)
        end in
      let conflicts := find_conflicts domains out in
      if negb remove && (0 <? length conflicts)%nat then
        (mkPlan path false managed conflicts [] b [],
         Some (errors_New ("unmanaged hosts entries conflict with configured domains: "
                           ++ show_strs conflicts)))
      else
        let out :=
          if remove then out
          else match found with
               | Some (s, e) => take s b ++ generated domains address ++ drop e b
               | None => end_line out ++ generated domains address
               end in
        let changed := negb (b == out) in
        let diff := if changed
                    then "--- " ++ path ++ " (current)" ++ [nl] ++ "+++ " ++ path ++ " (proposed)"
                         ++ [nl] ++ lineDiff b out
                    else "No hosts changes needed." ++ [nl] in
        (mkPlan path changed managed conflicts diff b out, None)
  end.

Variable EvalSymlinks : str → result str.
Variable Regular : str → result unit.
Variable ReadFile : str → result str.
Definition Prepare (path : str) (domains : list str) (address : str) (remove : bool)
    : Plan * option error :=
  match (resolved ← EvalSymlinks path;
         _ ← Regular resolved;
         b ← ReadFile resolved;
         _ ← guard_err (Z.of_nat (length b) >? 4 * 1024 * 1024) (errors_New "hosts file exceeds 4 MiB");
         Ok (resolved, b)) with
  | Err e => (zero_Plan, Some e)
  | Ok (resolved, b) => edit resolved b domains address remove
  end.
End Prepare.

(** ** Specification *)
Definition plain_line (l : str) : Prop := marker (TrimSpace l) = false.
#[global] Instance plain_line_dec l : Decision (plain_line l).
Proof. unfold plain_line. apply _. Defined.
(** The text before the block, the block and the text after it; without a block everything
    is before it. *)
Inductive parts (b : str) : str → str → str → Prop :=
  | parts_none : Forall plain_line (SplitAfter b nl) → parts b b [] []
  | parts_block pre bl mid el post :
      SplitAfter b nl = pre ++ bl :: mid ++ el :: post →
      Forall plain_line pre → Forall plain_line mid → Forall plain_line post →
      TrimSpace bl = Begin → TrimSpace el = End_ →
      parts b (mjoin pre) (mjoin (bl :: mid ++ [el])) (mjoin post).
(** Entries that can be generated: the address starts with a digit, nothing spans lines. *)
Definition entries_ok (domains : list str) (address : str) : Prop :=
  (∃ c a, address = c :: a ∧ is_digit c = true) ∧ nl ∉ address ∧ Forall (λ d, nl ∉ d) domains.

(** ** Lemmas: the block loop *)
Lemma block_loop_plain ls rest off st en :
  Forall plain_line ls →
  block_loop (ls ++ rest) off st en = block_loop rest (off + length (mjoin ls)) st en.
Proof.
  intros HF. revert off. induction HF as [|l ls Hl _ IH]; intros off; cbn [app]; rewrite ?mjoin_cons.
  - simpl. by rewrite Nat.add_0_r.
  - cbn [block_loop]. rewrite Hl, IH, length_app. f_equal. lia.
Qed.
Lemma block_loop_plain_all ls off st en :
  Forall plain_line ls → block_loop ls off st en = Ok (st, en).
Proof. intros HF. rewrite <- (app_nil_r ls), block_loop_plain by done. done. Qed.
(** Whatever follows, the first marked line is found, or there is none. *)
Lemma first_marked ls :
  Forall plain_line ls ∨ ∃ pre l post, ls = pre ++ l :: post ∧ Forall plain_line pre ∧ marker (TrimSpace l) = true.
Proof.
  induction ls as [|l ls IH]; [by left; apply Forall_nil|].
  destruct (marker (TrimSpace l)) eqn:E.
  - right. exists [], l, ls. split_and!; [done|by apply Forall_nil|done].
  - destruct IH as [IH|(pre & l' & post & -> & HF & Hm)].
    + left. by apply Forall_cons.
    + right. exists (l :: pre), l', post. split_and!; [done|by apply Forall_cons|done].
Qed.
Lemma block_loop_done ls off s e r :
  block_loop ls off (Some s) (Some e) = Ok r → Forall plain_line ls ∧ r = (Some s, Some e).
Proof.
  intros Hb. destruct (first_marked ls) as [HF|(pre & l & post & -> & HF & Hm)].
  - rewrite block_loop_plain_all in Hb by done. by injection Hb as <-.
  - rewrite block_loop_plain in Hb by done. cbn [block_loop] in Hb. by rewrite Hm in Hb.
Qed.
Lemma block_loop_open ls off s x e :
  block_loop ls off (Some s) None = Ok (x, Some e) →
  x = Some s ∧ ∃ mid el post, ls = mid ++ el :: post ∧ Forall plain_line mid ∧ Forall plain_line post ∧
    TrimSpace el = End_ ∧ e = (off + length (mjoin mid) + length el)%nat.
Proof.
  intros Hb. destruct (first_marked ls) as [HF|(mid & el & post & -> & HF & Hm)].
  - by rewrite block_loop_plain_all in Hb.
  - rewrite block_loop_plain in Hb by done. cbn [block_loop] in Hb. rewrite Hm in Hb.
    destruct (str_eqb_spec (TrimSpace el) End_) as [He|]; [|done].
    apply block_loop_done in Hb as [Hp [= -> ->]]. split; [done|]. by exists mid, el, post.
Qed.
Lemma take_mjoin (xs ys : list str) : take (length (mjoin xs)) (mjoin xs ++ mjoin ys) = mjoin xs.
Proof. by rewrite take_app_length. Qed.

(** [block] finds the parts: its result as offsets into the bytes. *)
Lemma block_parts b found :
  block b = Ok found ↔
  ∃ pre blk post, parts b pre blk post ∧
    ((blk = [] ∧ pre = b ∧ post = [] ∧ found = None)
     ∨ (blk ≠ [] ∧ found = Some (length pre, (length pre + length blk)%nat))).
Proof.
  split.
  - unfold block. destruct (first_marked (SplitAfter b nl)) as [HF|(pre & bl & rest & E & HF & Hm)].
    { rewrite block_loop_plain_all by done. intros [= <-]. exists b, [], []. split; [by constructor|by left]. }
    rewrite E, block_loop_plain by done. cbn [block_loop]. rewrite Hm.
    destruct (str_eqb_spec (TrimSpace bl) Begin) as [Hbl|]; [|done].
    destruct (block_loop rest _ _ None) as [[x y]|e] eqn:Hb; [|done]. cbn [mbind result_bind].
    destruct y as [e|].
    2:{ destruct x; [done|]. intros _. exfalso. destruct (first_marked rest) as [HF'|(? & ? & ? & -> & HF' & Hm')].
        - by rewrite block_loop_plain_all in Hb.
        - rewrite block_loop_plain in Hb by done. cbn [block_loop] in Hb. rewrite Hm' in Hb.
          destruct (_ == _); [|done]. by apply block_loop_done in Hb as [_ ?]. }
    apply block_loop_open in Hb as (-> & mid & el & post & -> & Hmid & Hpost & Hel & ->).
    intros [= <-]. exists (mjoin pre), (mjoin (bl :: mid ++ [el])), (mjoin post).
    split; [by constructor|right]. split.
    + intros Hn. rewrite mjoin_cons in Hn. apply app_eq_nil in Hn as [-> _]. by vm_compute in Hbl.
    + rewrite mjoin_cons, mjoin_snoc, !length_app. do 2 f_equal. lia.
  - intros (pre & blk & post & Hp & Hc). unfold block.
    destruct Hp as [HF|pre bl mid el post E Hpre Hmid Hpost Hbl Hel].
    + destruct Hc as [(_ & _ & _ & ->)|[? _]]; [|done]. by rewrite block_loop_plain_all.
    + destruct Hc as [(Hn & _)|[_ ->]].
      { rewrite mjoin_cons in Hn. apply app_eq_nil in Hn as [-> _]. by vm_compute in Hbl. }
      rewrite E, block_loop_plain by done. cbn [block_loop]. rewrite Hbl.
      change (marker Begin) with true. cbv iota. rewrite str_eqb_refl.
      rewrite block_loop_plain by done. cbn [block_loop]. rewrite Hel.
      change (marker End_) with true. cbv iota. rewrite str_eqb_refl.
      rewrite block_loop_plain_all by done. cbn [mbind result_bind].
      rewrite mjoin_cons, mjoin_snoc, !length_app. do 3 f_equal; lia.
Qed.
Lemma parts_app b pre blk post : parts b pre blk post → b = pre ++ blk ++ post.
Proof.
  intros [HF|pre' bl mid el post' E _ _ _ _ _]; [by rewrite app_nil_r|].
  rewrite <- (mjoin_SplitAfter b nl), E, join_app, !mjoin_cons, mjoin_snoc, join_app, mjoin_cons.
  by rewrite <- !app_assoc.
Qed.

(** ** Lemmas: the generated block and what surrounds it *)
Definition entry_line (address d : str) : str := address ++ [space] ++ d ++ [nl].
Lemma generated_lines ds addr c :
  entries_ok ds addr →
  SplitAfter (generated ds addr ++ c) nl
  = (Begin ++ [nl]) :: map (entry_line addr) ds ++ (End_ ++ [nl]) :: SplitAfter c nl.
Proof.
  intros (_ & Ha & Hd). unfold generated. rewrite <- !app_assoc. cbn [app].
  rewrite SplitAfter_line by by_compute. f_equal.
  induction Hd as [|d ds Hd _ IH]; cbn [map app].
  - change (mjoin [] ++ End_ ++ nl :: c) with (End_ ++ nl :: c).
    by rewrite SplitAfter_line by by_compute.
  - rewrite mjoin_cons, <- IH. unfold entry_line.
    set (rest := mjoin (map _ ds) ++ End_ ++ nl :: c).
    replace ((_ ++ mjoin _) ++ End_ ++ nl :: c) with ((addr ++ [space] ++ d) ++ nl :: rest)
      by (unfold rest; rewrite <- !app_assoc; cbn [app]; by rewrite <- !app_assoc).
    rewrite SplitAfter_line; [by rewrite <- !app_assoc|].
    intros Hin. apply elem_of_app in Hin as [?|Hin]; [done|].
    apply elem_of_app in Hin as [?%list_elem_of_singleton|?]; done.
Qed.
Lemma entries_plain ds addr : entries_ok ds addr → Forall plain_line (map (entry_line addr) ds).
Proof.
  intros ((c & a & -> & Hc) & _ & _). apply Forall_fmap, Forall_true. intros d.
  unfold entry_line, plain_line, compose. cbn [app].
  destruct (TrimSpace (c :: a ++ space :: d ++ [nl])) as [|x t] eqn:E; [done|].
  apply TrimSpace_digit in E as ->; [|done]. unfold marker.
  assert (c ≠ hash) as Hne by (intros ->; by vm_compute in Hc).
  apply orb_false_iff. split.
  - destruct (HasPrefix (c :: t) "# BEGIN utlsproxy") eqn:E; [|done]. by apply HasPrefix_head in E.
  - destruct (HasPrefix (c :: t) "# END utlsproxy") eqn:E; [|done]. by apply HasPrefix_head in E.
Qed.
Lemma generated_mjoin ds addr :
  generated ds addr = mjoin ((Begin ++ [nl]) :: map (entry_line addr) ds ++ [End_ ++ [nl]]).
Proof. unfold generated. by rewrite mjoin_cons, mjoin_snoc, <- !app_assoc. Qed.

(** What precedes the new block. *)
Definition base (blk pre : str) : str := match blk with [] => end_line pre | _ => pre end.
Lemma plain_nil : plain_line [].
Proof. done. Qed.
Lemma block_nonempty bl rest : TrimSpace bl = Begin → bl ++ rest ≠ [].
Proof. intros Hb [-> _]%app_eq_nil. by vm_compute in Hb. Qed.
Lemma parts_empty b pre blk post :
  parts b pre blk post → (blk = [] ∧ pre = b ∧ post = []) ∨ blk ≠ [].
Proof.
  intros [HF|pre' bl mid el post' E _ _ _ Hbl _]; [by left|right].
  rewrite mjoin_cons. by apply block_nonempty.
Qed.
Lemma parts_before b pre blk post :
  parts b pre blk post →
  ∃ ls, mjoin ls = base blk pre ∧ Forall plain_line ls ∧
    ∀ c, SplitAfter (base blk pre ++ c) nl = ls ++ SplitAfter c nl.
Proof.
  intros [HF|pre' bl mid el post' E Hpre Hmid Hpost Hbl Hel].
  - cbn [base]. unfold end_line. destruct (last b) as [x|] eqn:El.
    2:{ apply last_None in El as ->. exists []. split_and!; [done|by apply Forall_nil|done]. }
    apply last_Some in El as [b' ->].
    assert (∀ b', Forall plain_line (SplitAfter (b' ++ [nl]) nl) →
       ∃ ls, mjoin ls = b' ++ [nl] ∧ Forall plain_line ls ∧
         ∀ c, SplitAfter ((b' ++ [nl]) ++ c) nl = ls ++ SplitAfter c nl) as Hnl.
    { clear. intros b HF. destruct (SplitAfter_app b nl) as (l & _ & Hl). exists l.
      pose proof (Hl []) as H0. rewrite H0 in HF. apply Forall_app in HF as [HF _].
      split_and!; [|done|by intros c; rewrite <- app_assoc; apply Hl].
      rewrite <- (mjoin_SplitAfter (b ++ [nl]) nl), H0, join_app. simpl. by rewrite app_nil_r. }
    destruct (beq_spec x nl) as [->|Hx]; [by apply Hnl|]. apply Hnl.
    set (b := b' ++ [x]) in *. clear -HF.
    assert (∃ xs l, SplitAfter b nl = xs ++ [l] ∧ nl ∉ l ∧ SplitAfter (b ++ [nl]) nl = xs ++ [l ++ [nl]; []])
      as (xs & l & E & _ & ->).
    { clear HF. induction b as [|y b (xs & l & E & Hl & E')]; [by exists [], []; split_and!; [|apply not_elem_of_nil|]|].
      simpl. rewrite E, E'. destruct (beq_spec y nl) as [->|Hy].
      - exists ([nl] :: xs), l. done.
      - destruct xs as [|h t].
        + exists [], (y :: l). split_and!; [done| |done]. apply not_elem_of_cons. split; [congruence|done].
        + exists ((y :: h) :: t), l. done. }
    rewrite E in HF. apply Forall_app in HF as [HF Hl]. rewrite Forall_singleton in Hl.
    apply Forall_app_2; [done|]. apply Forall_cons. split; [|apply Forall_singleton, plain_nil].
    unfold plain_line. by rewrite TrimSpace_nl.
  - rewrite mjoin_cons. cbn [base].
    assert (base (bl ++ mjoin (mid ++ [el])) (mjoin pre') = mjoin pre') as ->.
    { pose proof (block_nonempty bl (mjoin (mid ++ [el])) Hbl). by destruct (bl ++ _). }
    apply SplitAfter_decomp in E as (E & _ & _); [|done]. exists pre'. done.
Qed.
Lemma parts_after b pre blk post : parts b pre blk post → Forall plain_line (SplitAfter post nl).
Proof.
  intros [HF|pre' bl mid el post' E Hpre Hmid Hpost Hbl Hel].
  - apply Forall_singleton, plain_nil.
  - destruct post' as [|y r]; [apply Forall_singleton, plain_nil|].
    assert (SplitAfter b nl = (pre' ++ bl :: mid ++ [el]) ++ y :: r) as E'
      by (rewrite E; by rewrite <- !app_assoc; simpl; rewrite <- !app_assoc).
    apply SplitAfter_decomp in E' as (_ & -> & _); done.
Qed.
(** Installing the generated block and removing the block, as parts. *)
Lemma parts_install b pre blk post ds addr :
  parts b pre blk post → entries_ok ds addr →
  parts (base blk pre ++ generated ds addr ++ post) (base blk pre) (generated ds addr) post.
Proof.
  intros Hp Ha. destruct (parts_before _ _ _ _ Hp) as (ls & <- & Hls & Hsp).
  pose proof (parts_after _ _ _ _ Hp) as Hpost.
  rewrite (generated_mjoin ds addr) at 2. rewrite <- (mjoin_SplitAfter post nl) at 2.
  constructor; [|done|by apply entries_plain|done|..].
  - by rewrite Hsp, generated_lines.
  - by rewrite TrimSpace_nl; vm_compute.
  - by rewrite TrimSpace_nl; vm_compute.
Qed.
Lemma parts_remove b pre blk post :
  parts b pre blk post → parts (base blk pre ++ post) (base blk pre ++ post) [] [].
Proof.
  intros Hp. destruct (parts_before _ _ _ _ Hp) as (ls & _ & Hls & Hsp).
  constructor. rewrite Hsp. apply Forall_app_2; [done|by eapply parts_after].
Qed.

(** ** Lemmas: conflicts and [edit] *)
Section EditLemmas.
Context `{Unicode}.
Lemma find_conflicts_end_line ds out : find_conflicts ds (end_line out) = find_conflicts ds out.
Proof.
  unfold end_line. destruct (last out) as [c|]; [|done]. destruct (beq c nl); [done|].
  unfold find_conflicts. rewrite Split_snoc_sep, map_app, join_app. simpl. by rewrite app_nil_r.
Qed.
Lemma find_conflicts_base b pre blk post ds :
  parts b pre blk post → find_conflicts ds (base blk pre ++ post) = find_conflicts ds (pre ++ post).
Proof.
  intros [HF|pre' bl mid el post' E Hpre Hmid Hpost Hbl Hel].
  - rewrite !app_nil_r. apply find_conflicts_end_line.
  - rewrite mjoin_cons. unfold base.
    pose proof (block_nonempty bl (mjoin (mid ++ [el])) Hbl). by destruct (bl ++ _).
Qed.
(** The text [edit] leaves behind. *)
Definition edited (pre blk post : str) (ds : list str) (addr : str) (remove : bool) : str :=
  if remove then pre ++ post else base blk pre ++ generated ds addr ++ post.
Lemma edit_parts path b pre blk post ds addr remove :
  parts b pre blk post →
  ∃ managed,
    edit path b ds addr remove
    = if negb remove && (0 <? length (find_conflicts ds (pre ++ post)))%nat then
        (mkPlan path false managed (find_conflicts ds (pre ++ post)) [] b [],
         Some (errors_New ("unmanaged hosts entries conflict with configured domains: "
                           ++ show_strs (find_conflicts ds (pre ++ post)))))
      else
        let out := edited pre blk post ds addr remove in
        let changed := negb (b == out) in
        (mkPlan path changed managed (find_conflicts ds (pre ++ post))
           (if changed then "--- " ++ path ++ " (current)" ++ [nl] ++ "+++ " ++ path ++ " (proposed)"
                            ++ [nl] ++ lineDiff b out
            else "No hosts changes needed." ++ [nl]) b out, None).
Proof.
  intros Hp. unfold edit, edited.
  assert (∃ found, block b = Ok found ∧
    ((blk = [] ∧ pre = b ∧ post = [] ∧ found = None)
     ∨ (blk ≠ [] ∧ found = Some (length pre, (length pre + length blk)%nat)))) as (found & Hb & Hf).
  { destruct (decide (blk = [])) as [Hk|Hk].
    - exists None. assert (pre = b ∧ post = []) as [? ?]
        by (by destruct (parts_empty _ _ _ _ Hp) as [(_ & ? & ?)|?]).
      split; [|left; done]. apply block_parts. exists pre, blk, post. split; [done|by left].
    - eexists. split; [|right; split; [done|reflexivity]].
      apply block_parts. exists pre, blk, post. split; [done|by right]. }
  rewrite Hb. pose proof (parts_app _ _ _ _ Hp) as Eb.
  destruct Hf as [(-> & -> & -> & ->)|[Hne ->]].
  - rewrite !app_nil_r. exists []. cbn [base]. by destruct remove.
  - assert (take (length pre) b = pre) as Et by (by rewrite Eb, take_app_length).
    assert (drop (length pre + length blk) b = post) as Ed.
    { rewrite Eb, app_assoc, <- length_app. apply drop_app_length. }
    rewrite Et, Ed. assert (base blk pre = pre) as -> by (by destruct blk). by eexists.
Qed.
End EditLemmas.

(** ** Lemmas: the difference *)
Lemma common_prefix_spec a b :
  take (common_prefix a b) a = take (common_prefix a b) b ∧
  (common_prefix a b ≤ length a)%nat ∧ (common_prefix a b ≤ length b)%nat ∧
  (∀ x y, a !! common_prefix a b = Some x → b !! common_prefix a b = Some y → x ≠ y).
Proof.
  revert b. induction a as [|x a IH]; intros [|y b]; simpl; try (split_and!; (done || lia)).
  destruct (str_eqb_spec x y) as [->|Hxy]; simpl.
  - destruct (IH b) as (-> & ? & ? & ?). split_and!; [done|lia|lia|done].
  - split_and!; [done|lia|lia|]. intros ?? [= <-] [= <-]. done.
Qed.
Lemma common_suffix_spec a b :
  drop (length a - common_suffix a b) a = drop (length b - common_suffix a b) b ∧
  (common_suffix a b ≤ length a)%nat ∧ (common_suffix a b ≤ length b)%nat ∧
  (∀ x y, last (take (length a - common_suffix a b) a) = Some x →
          last (take (length b - common_suffix a b) b) = Some y → x ≠ y).
Proof.
  unfold common_suffix. destruct (common_prefix_spec (reverse a) (reverse b)) as (Ht & Ha & Hb & Hd).
  set (n := common_prefix (reverse a) (reverse b)) in *. rewrite length_reverse in Ha, Hb.
  rewrite !take_reverse in Ht. apply (inj reverse) in Ht.
  split_and!; [done|done|done|]. intros x y Hx Hy. apply Hd.
  - rewrite <- head_drop. rewrite drop_reverse. by rewrite head_reverse.
  - rewrite <- head_drop. rewrite drop_reverse. by rewrite head_reverse.
Qed.

(** ** Properties *)
Section Properties.
Context `{Unicode}.

(** C15: The edit touches nothing but the marked block. Whatever the bytes of the file, if
    they hold one well-formed block or none ([parts]), the edit fails only when entries are
    to be installed and some line outside the block redirects a configured domain; otherwise
    it leaves exactly the bytes before the block, the generated block (when installing) and
    the bytes after it, a file without a block first being given a final newline; and it
    reports a change exactly when the bytes differ. *)
Theorem edit_spec path b pre blk post ds addr remove p err :
  parts b pre blk post → edit path b ds addr remove = (p, err) →
  Conflicts p = find_conflicts ds (pre ++ post) ∧ Before p = b ∧
  (err = None ↔ remove = true ∨ Conflicts p = []) ∧
  (err = None → After p = edited pre blk post ds addr remove ∧ (Changed p = true ↔ After p ≠ b)).
Proof.
  intros Hp He. destruct (edit_parts path b pre blk post ds addr remove Hp) as [m Em].
  rewrite Em in He. clear Em. set (cs := find_conflicts ds (pre ++ post)) in *.
  destruct remove; cbn [negb andb] in He.
  - injection He as <- <-. simpl. split_and!; [done|done| |].
    + split; [by left|done].
    + intros _. split; [done|]. rewrite negb_true_iff, str_eqb_neq. done.
  - destruct cs as [|c0 cs0] eqn:Ec; cbn [length] in He.
    + injection He as <- <-. simpl. split_and!; [done|done|split; [by right|done]|].
      intros _. split; [done|]. rewrite negb_true_iff, str_eqb_neq. done.
    + injection He as <- <-. simpl. split_and!; [done|done| |done].
      split; [done|]. by intros [?|?].
Qed.

(** Files with a malformed, repeated, incomplete or unknown-version block are refused:
    the edit goes ahead with a block, or without one, exactly when the bytes decompose into
    [parts], in which every other line is unmarked. *)
Theorem block_iff_parts b :
  is_ok (block b) = true ↔ ∃ pre blk post, parts b pre blk post.
Proof.
  split.
  - destruct (block b) as [found|] eqn:E; [|done]. intros _.
    apply block_parts in E as (pre & blk & post & Hp & _). by exists pre, blk, post.
  - intros (pre & blk & post & Hp). destruct (decide (blk = [])) as [->|Hk].
    + rewrite (proj2 (block_parts b None)); [done|]. exists pre, [], post. split; [done|left].
      by destruct (parts_empty _ _ _ _ Hp) as [(_ & ? & ?)|?].
    + rewrite (proj2 (block_parts b (Some (length pre, (length pre + length blk)%nat)))); [done|]. exists pre, blk, post. split; [done|by right].
Qed.

(** Installing twice changes nothing the second time: the file an installation leaves
    holds one well-formed block, has no conflicts and is reported unchanged by the next
    installation of the same entries. *)
Theorem edit_idempotent path b ds addr p :
  entries_ok ds addr → edit path b ds addr false = (p, None) →
  ∃ p', edit path (After p) ds addr false = (p', None) ∧ Changed p' = false ∧ After p' = After p.
Proof.
  intros Ha He. destruct (block b) as [found|e] eqn:Eb.
  2:{ unfold edit in He. by rewrite Eb in He. }
  apply block_parts in Eb as (pre & blk & post & Hp & _).
  destruct (edit_parts path b pre blk post ds addr false Hp) as [m Em]. rewrite Em in He.
  cbn [negb andb] in He. destruct (_ <? _)%nat eqn:Ec; [done|]. assert (After p = base blk pre ++ generated ds addr ++ post) as -> by (by injection He as <-).
  pose proof (parts_install _ _ _ _ _ _ Hp Ha) as Hp'.
  destruct (edit_parts path _ _ _ _ ds addr false Hp') as [m' ->].
  rewrite (find_conflicts_base _ _ _ _ _ Hp), Ec. cbn [negb andb]. eexists. split; [done|].
  cbn [Changed After]. unfold edited.
  assert (base (generated ds addr) (base blk pre) = base blk pre) as -> by done.
  by rewrite str_eqb_refl.
Qed.

(** Removal undoes installation: removing the block from an installed file gives back
    the bytes outside the block, whichever domains the removal names; for a file that had no
    block and ended with a newline these are the original bytes. *)
Theorem edit_install_remove path b ds addr p ds' addr' :
  entries_ok ds addr → edit path b ds addr false = (p, None) →
  ∃ p' pre blk post, edit path (After p) ds' addr' true = (p', None) ∧
    parts b pre blk post ∧ After p' = base blk pre ++ post ∧
    (block b = Ok None → end_line b = b → After p' = b).
Proof.
  intros Ha He. destruct (block b) as [found|e] eqn:Eb.
  2:{ unfold edit in He. by rewrite Eb in He. }
  pose proof Eb as Eb'. apply block_parts in Eb' as (pre & blk & post & Hp & Hf).
  destruct (edit_parts path b pre blk post ds addr false Hp) as [m Em]. rewrite Em in He.
  cbn [negb andb] in He. destruct (_ <? _)%nat; [done|]. assert (After p = base blk pre ++ generated ds addr ++ post) as -> by (by injection He as <-).
  pose proof (parts_install _ _ _ _ _ _ Hp Ha) as Hp'.
  destruct (edit_parts path _ _ _ _ ds' addr' true Hp') as [m' ->]. cbn [negb andb].
  eexists _, pre, blk, post. split; [done|]. cbn [After]. split_and!; [done|done|].
  intros [= ->] Hnl. destruct Hf as [(-> & -> & -> & _)|[_ ?]]; [|done].
  unfold edited. rewrite app_nil_r. exact Hnl.
Qed.

(** The refusal is exact: the edit reports no conflict if and only if, in every line
    outside the block, no name after the address, read up to a comment, without case and
    without a final dot, is one of the configured domains. *)
Theorem find_conflicts_nil ds out :
  find_conflicts ds out = [] ↔
  ∀ line address names name,
    line ∈ Split out nl → Fields (Cut line hash).1.1 = address :: names → name ∈ names →
    TrimSuffix (ToLower name) "." ∉ ds.
Proof.
  unfold find_conflicts.
  assert (∀ ls : list str, mjoin (map (line_conflicts ds) ls) = [] ↔
    ∀ line, line ∈ ls → line_conflicts ds line = []) as E.
  { induction ls as [|l ls IH]; [split; [by intros _ ? ?%not_elem_of_nil|done]|].
    cbn [map]. rewrite mjoin_cons. split.
    - intros [Hl Hr]%app_eq_nil line [->|Hin]%elem_of_cons; [done|]. by apply IH.
    - intros Hall. rewrite (Hall l) by left. apply IH. intros line Hin. apply Hall. by right. }
  rewrite E. clear E.
  assert (∀ line, line_conflicts ds line = [] ↔ ∀ address names name,
    Fields (Cut line hash).1.1 = address :: names → name ∈ names → TrimSuffix (ToLower name) "." ∉ ds) as E.
  { intros line. unfold line_conflicts. destruct (Cut line hash) as [[text rest] ok]. simpl.
    destruct (Fields text) as [|a names]; [split; [done|done]|]. split.
    - intros Hm address names' name [= <- <-] Hin Hds. apply map_eq_nil in Hm.
      assert (name ∈ List.filter (λ name, str_mem (TrimSuffix (ToLower name) ".") ds) names) as Hx.
      { apply list_elem_of_In, filter_In. split; [by apply list_elem_of_In|by apply str_mem_elem]. }
      rewrite Hm in Hx. by apply not_elem_of_nil in Hx.
    - intros Hall. destruct (List.filter _ names) as [|x xs] eqn:Ef; [done|].
      assert (In x (List.filter (λ name, str_mem (TrimSuffix (ToLower name) ".") ds) names)) as Hx
        by (rewrite Ef; by left).
      apply filter_In in Hx as [Hx Hm]. apply list_elem_of_In in Hx.
      exfalso. apply (Hall a names x eq_refl Hx). by apply str_mem_elem. }
  split; [intros Hl line a ns n Hin; apply E; by apply Hl|intros Hl line Hin; apply E; intros; by eapply Hl].
Qed.

(** The difference shown is exact and tight: the lines before it and after it are
    common to both texts, the removed and the added lines are all the others, they start
    and end with different lines, and the text printed is a header with their line numbers,
    the removed lines marked with a minus and the added ones with a plus. *)
Theorem lineDiff_spec before after :
  ∃ pre del add suf,
    SplitAfter before nl = pre ++ del ++ suf ∧ SplitAfter after nl = pre ++ add ++ suf ∧
    (∀ x y, head del = Some x → head add = Some y → x ≠ y) ∧
    (∀ x y, last del = Some x → last add = Some y → x ≠ y) ∧
    lineDiff before after
    = "@@ lines " ++ Itoa (Z.of_nat (length pre + 1)) ++ ".." ++ Itoa (Z.of_nat (length pre + length del))
      ++ " -> " ++ Itoa (Z.of_nat (length pre + 1)) ++ ".." ++ Itoa (Z.of_nat (length pre + length add))
      ++ " @@" ++ [nl] ++ mjoin (map (cons (chr 45)) del) ++ mjoin (map (cons (chr 43)) add).
Proof.
  unfold lineDiff. set (a := SplitAfter before nl). set (b := SplitAfter after nl).
  destruct (common_prefix_spec a b) as (Hi & Hia & Hib & Hid). set (i := common_prefix a b) in *.
  destruct (common_suffix_spec (drop i a) (drop i b)) as (Hs & Hna & Hnb & Hsd).
  set (n := common_suffix (drop i a) (drop i b)) in *.
  rewrite !length_drop in *.
  exists (take i a), (take (length a - i - n) (drop i a)), (take (length b - i - n) (drop i b)),
    (drop (length a - i - n) (drop i a)).
  assert (∀ l : list str, (i ≤ length l)%nat → l = take i l ++ take (length l - i - n) (drop i l) ++ drop (length l - i - n) (drop i l)) as Hl.
  { intros l _. by rewrite take_drop, take_drop. }
  assert (∀ l : list str, (i ≤ length l)%nat → (n ≤ length l - i)%nat →
            drop i (take (length l - n) l) = take (length l - i - n) (drop i l)) as Hdt.
  { intros l ??. rewrite take_drop_commute. f_equal. f_equal. lia. }
  split_and!.
  - by apply Hl.
  - rewrite Hi, Hs. by apply Hl.
  - intros x y Hx Hy. apply Hid; rewrite <- head_drop.
    + by destruct (drop i a), (length a - i - n)%nat.
    + by destruct (drop i b), (length b - i - n)%nat.
  - exact Hsd.
  - rewrite !Hdt by done. rewrite !length_take, !length_drop.
    repeat (f_equal; [f_equal; lia|] || f_equal); lia.
Qed.
End Properties.

(** ** Witnesses *)
Definition demo_hosts : str := Eval vm_compute in
  Join ["127.0.0.1 localhost" : str; "# personal" : str; "192.0.2.1 other.example" : str] [nl] ++ [nl].
Definition demo_domains : list str := ["tls.peet.ws" : str].
Lemma demo_parts : parts demo_hosts demo_hosts [] [].
Proof. apply parts_none. by_compute. Qed.
Lemma demo_entries : entries_ok demo_domains "127.0.0.1".
Proof.
  split; [exists (chr 49), "27.0.0.1"; split; reflexivity|]. split; [by_compute|].
  apply Forall_singleton. by_compute.
Qed.
Definition demo_plan : Plan := Eval vm_compute in
  (@edit ascii_only "/etc/hosts" demo_hosts demo_domains "127.0.0.1" false).1.
Lemma edit_spec_witness :
  After demo_plan = edited demo_hosts [] [] demo_domains "127.0.0.1" false ∧ After demo_plan ≠ demo_hosts.
Proof.
  destruct (@edit_spec ascii_only "/etc/hosts" demo_hosts demo_hosts [] [] demo_domains "127.0.0.1" false
    demo_plan None demo_parts) as (_ & _ & _ & Hok); [vm_compute; reflexivity|].
  destruct (Hok eq_refl) as [Ha Hc]. split; [exact Ha|]. apply Hc. vm_compute. reflexivity.
Defined.
Lemma edit_idempotent_witness :
  ∃ p', @edit ascii_only "/etc/hosts" (After demo_plan) demo_domains "127.0.0.1" false = (p', None) ∧
    Changed p' = false ∧ After p' = After demo_plan.
Proof.
  apply (@edit_idempotent ascii_only "/etc/hosts" demo_hosts demo_domains "127.0.0.1" demo_plan);
    [exact demo_entries|vm_compute; reflexivity].
Defined.
Lemma edit_install_remove_witness :
  ∃ p', @edit ascii_only "/etc/hosts" (After demo_plan) [] "" true = (p', None) ∧ After p' = demo_hosts.
Proof.
  destruct (@edit_install_remove ascii_only "/etc/hosts" demo_hosts demo_domains "127.0.0.1" demo_plan [] "")
    as (p' & _ & _ & _ & He & _ & _ & Hb); [exact demo_entries|vm_compute; reflexivity|].
  exists p'. split; [exact He|]. apply Hb; vm_compute; reflexivity.
Defined.
