(* ===== verification/HostsApply.v ===== *)
(** * HostsApply: the replacement of the hosts file on disk
    (Apply and copyXattrs in src/internal/hosts/hosts.go)

    [Apply] is a program of the monad [M] of Fsutil. The time in the backup's name is the
    argument [stamp]; SHA-256 is the parameter [sha256]. *)
From S2P Require Import Prelude Strs Fsutil Frames Hosts.

Section Apply.
Context `{Kernel}.
Variable sha256 : str → str.

(** ** Extended attributes *)
Definition ENOTSUP_error : error := mkError "operation not supported" [ENOTSUP].
Definition ERANGE : error := errors_New "numerical result out of range".
Definition no_attribute : error := errors_New "no data available".
Definition list_size (names : list str) : Z := Z.of_nat (length (mjoin names) + length names).
Fixpoint assoc (k : str) (l : list (str * str)) : option str :=
  match l with [] => None | (k', v) :: l' => if k' == k then Some v else assoc k l' end.
Definition Listxattr_size (p : str) : M Z := query (λ s,
  match inode_at s p with Some i => Ok (list_size (i_xattrs i).*1) | None => Err not_exist end).
Definition Listxattr (p : str) (n : Z) : M (list str) := query (λ s,
  match inode_at s p with
  | Some i => if n <? list_size (i_xattrs i).*1 then Err ERANGE else Ok (i_xattrs i).*1
  | None => Err not_exist
  end).
Definition Getxattr_size (p k : str) : M Z := query (λ s,
  match inode_at s p with
  | Some i => match assoc k (i_xattrs i) with Some v => Ok (Z.of_nat (length v)) | None => Err no_attribute end
  | None => Err not_exist
  end).
Definition Getxattr (p k : str) (n : Z) : M str := query (λ s,
  match inode_at s p with
  | Some i => match assoc k (i_xattrs i) with
              | Some v => if n <? Z.of_nat (length v) then Err ERANGE else Ok v
              | None => Err no_attribute
              end
  | None => Err not_exist
  end).
(** Setting an attribute, by path; [fd] is the inode the path names. *)
Definition add_xattr (k v : str) (i : inode) : inode :=
  set_xattrs i (List.filter (λ kv, negb (kv.1 == k)) (i_xattrs i) ++ [(k, v)]).
Definition Setxattr (p : str) (k v : str) : M unit := syscall nothing (λ s,
  match dents s !! p with
  | Some n => (Ok tt, on_inode n (add_xattr k v) s)
  | None => (Err not_exist, s)
  end).
Definition max_xattr : Z := 1024 * 1024.
Fixpoint copy_keys (src dst : str) (keys : list str) : M unit :=
  match keys with
  | [] => mret tt
  | key :: keys' =>
      if key == "" then copy_keys src dst keys'
      else
        size ← Getxattr_size src key;
        if max_xattr <? size then fail (errors_New "hosts attribute too large")
        else
          data ← Getxattr src key size;
          r ← try (Setxattr dst key data);
          match r with
          | Err e => fail (Errorf_w ("preserving hosts metadata " ++ key ++ ": ") e)
          | Ok _ => copy_keys src dst keys'
          end
  end.
Definition copyXattrs (src dst : str) : M unit :=
  r ← try (Listxattr_size src);
  match r with
  | Err e => if errors_Is e ENOTSUP then mret tt else fail e
  | Ok n =>
      if n =? 0 then mret tt
      else if max_xattr <? n then fail (errors_New "hosts metadata too large")
      else keys ← Listxattr src n; copy_keys src dst keys
  end.

(** ** [Apply] *)
Definition same_file (a b : Z * inode) : bool :=
  (a.1 =? b.1) && (i_mode a.2 =? i_mode b.2) && bool_decide (i_type a.2 = i_type b.2)
  && (i_uid a.2 =? i_uid b.2) && (i_gid a.2 =? i_gid b.2).
(** From the first Stat to the end: the new file is completed beside the old one, the old
    one is looked at again, and the new one takes its name. *)
Definition replace (p : Plan) : M unit :=
  st ← Stat (Path p);
  '(fd, tmp) ← CreateTemp (Dir (Path p)) "/.utlsproxy-hosts-*";
  finally
    (_ ← Write fd (After p);
     _ ← Chown fd (i_uid st.2) (i_gid st.2);
     _ ← Chmod fd (Z.land (i_mode st.2) 511);
     _ ← copyXattrs (Path p) tmp;
     _ ← Sync fd;
     _ ← Close fd;
     current ← ReadFile (Path p);
     _ ← lift (guard_err (sha256 current != sha256 (Before p))
                 (errors_New "hosts changed concurrently before replacement; no changes applied"));
     latest ← Stat (Path p);
     _ ← lift (guard_err (negb (same_file st latest))
                 (errors_New "hosts identity or metadata changed concurrently"));
     r ← try (Rename tmp (Path p));
     match r with
     | Err e => fail (Errorf_w "atomic hosts replacement unsupported or failed: " e)
     | Ok _ =>
         d ← try (OpenDir (Dir (Path p)));
         match d with
         | Ok _ => ignore (SyncDir (Dir (Path p)))
         | Err _ => mret tt
         end
     end)
    (_ ← ignore (Remove tmp); ignore (Close fd)).
Definition error_of {A} (r : result A) : option error := match r with Ok _ => None | Err e => Some e end.
(** The backup's name and the error. *)
Definition apply_locked (p : Plan) (stateDir stamp : str) : M (str * option error) :=
  r ← try (ReadFile (Path p));
  match r with
  | Err e => mret ([], Some e)
  | Ok current =>
      if current != Before p then
        mret ([], Some (errors_New "hosts changed concurrently; review and retry"))
      else
        let backup := stateDir ++ "/hosts-backup-" ++ stamp in
        r ← try (Exclusive backup (Before p) 384);
        match r with
        | Err e => mret ([], Some e)
        | Ok _ => r ← try (replace p); mret (backup, error_of r)
        end
  end.
Definition Apply (p : Plan) (stateDir stamp : str) : M (str * option error) :=
  if negb (Changed p) then mret ([], None)
  else
    r ← try (PrivateDir stateDir);
    match r with
    | Err e => mret ([], Some e)
    | Ok _ =>
        r ← try (Lock (stateDir ++ "/hosts.lock"));
        match r with
        | Err e => mret ([], Some e)
        | Ok unlock => finally (apply_locked p stateDir stamp) unlock
        end
    end.
End Apply.

(** ** Lemmas *)
(** The attributes a copy of [keys] of [x0] leaves on a file with the attributes [x]. *)
Definition with_xattr (x : list (str * str)) (k v : str) : list (str * str) :=
  List.filter (λ kv, negb (kv.1 == k)) x ++ [(k, v)].
Fixpoint copied (x0 : list (str * str)) (keys : list str) (x : list (str * str)) : list (str * str) :=
  match keys with
  | [] => x
  | k :: keys' =>
      copied x0 keys' (if k == "" then x else match assoc k x0 with Some v => with_xattr x k v | None => x end)
  end.
Lemma assoc_app k l m : assoc k (l ++ m) = match assoc k l with Some v => Some v | None => assoc k m end.
Proof. induction l as [|[k' v] l IH]; simpl; [done|]. by destruct (k' == k). Qed.
Lemma assoc_with k k' v x : assoc k (with_xattr x k' v) = if k' == k then Some v else assoc k x.
Proof.
  unfold with_xattr. rewrite assoc_app. simpl.
  assert (assoc k (List.filter (λ kv, negb (kv.1 == k')) x) = if k' == k then None else assoc k x) as ->.
  { induction x as [|[a w] x IH]; simpl; [by destruct (k' == k)|].
    destruct (str_eqb_spec a k') as [->|Ha]; simpl.
    - rewrite IH. destruct (str_eqb_spec k' k) as [->|]; [done|]. done.
    - rewrite IH. destruct (str_eqb_spec k' k) as [->|]; destruct (str_eqb_spec a k) as [->|]; done. }
  destruct (k' == k); [done|]. by destruct (assoc k x).
Qed.
Lemma assoc_copied x0 keys x k :
  assoc k (copied x0 keys x)
  = if bool_decide (k ∈ keys ∧ k ≠ [] ∧ is_Some (assoc k x0)) then assoc k x0 else assoc k x.
Proof.
  revert x. induction keys as [|k' keys IH]; intros x; cbn [copied].
  { rewrite bool_decide_false; [done|]. by intros [?%not_elem_of_nil _]. }
  rewrite IH. destruct (bool_decide_reflect (k ∈ keys ∧ k ≠ [] ∧ is_Some (assoc k x0))) as [Hk|Hk].
  { rewrite bool_decide_true; [done|]. destruct Hk as (? & ? & ?). split_and!; try done. by right. }
  destruct (str_eqb_spec k' "") as [->|Hne].
  { rewrite bool_decide_false; [done|]. intros ([->|?]%elem_of_cons & ? & ?); [done|by apply Hk]. }
  destruct (assoc k' x0) as [v|] eqn:Ev.
  - rewrite assoc_with. destruct (str_eqb_spec k' k) as [->|Hkk].
    + rewrite bool_decide_true; [done|]. split_and!; [left|done|by eexists].
    + rewrite bool_decide_false; [done|]. intros ([->|?]%elem_of_cons & ? & ?); [done|by apply Hk].
  - rewrite bool_decide_false; [done|]. intros ([->|?]%elem_of_cons & ? & Hs); [|by apply Hk].
    rewrite Ev in Hs. by destruct Hs.
Qed.
Lemma assoc_elem k x : is_Some (assoc k x) → k ∈ x.*1.
Proof.
  induction x as [|[k' v] x IH]; simpl; [by intros []|].
  destruct (str_eqb_spec k' k) as [->|]; [left|]. intros Hs. right. by apply IH.
Qed.
(** A full copy onto a file without attributes gives the same attributes. *)
Lemma copied_all x0 k : Forall (λ k, k ≠ []) x0.*1 → assoc k (copied x0 x0.*1 []) = assoc k x0.
Proof.
  intros Hne. rewrite assoc_copied. destruct (bool_decide_reflect (k ∈ x0.*1 ∧ k ≠ [] ∧ is_Some (assoc k x0))) as [|Hn].
  { done. }
  destruct (assoc k x0) as [v|] eqn:E; [|done]. exfalso. apply Hn.
  assert (k ∈ x0.*1) as Hin by (apply assoc_elem; by rewrite E).
  split_and!; [done| |by eexists]. rewrite Forall_forall in Hne. by apply Hne.
Qed.

Section Correctness.
Context `{Kernel}.
Variable sha256 : str → str.
Hypothesis alone : quiet.
Variable p : Plan.
Variable s0 : fs.
Variables (n0 : Z) (i0 : inode).
Hypothesis Hset : settled s0 (Path p).
Hypothesis Hd0 : dents s0 !! Path p = Some n0.
Hypothesis Hi0 : inodes s0 !! n0 = Some i0.
Hypothesis Hreg : i_type i0 = FRegular.
Variable good : fs → Prop.
Hypothesis good_good : ∀ s, crash_safe s0 (Path p) (After p) s → good s.
Lemma Stat_regular : follow 40 s0 (Path p) = Some (n0, i0).
Proof. simpl. rewrite Hd0, Hi0, Hreg. done. Qed.

Section Staged.
Variables (fd : Z) (tmp : str).
Hypothesis Hfd : inodes s0 !! fd = None.
Hypothesis Htmp : tmp ≠ Path p.
Notation staged := (staged s0 fd tmp).
Notation restored := (restored s0 tmp fd).

Lemma staged_inode_at f s : staged f s → inode_at s (Path p) = Some i0 ∧ dents s !! Path p = Some n0.
Proof.
  intros [Hd _ _ Hi _]. assert (dents s !! Path p = Some n0) as E by (rewrite Hd; congruence).
  split; [|done]. unfold inode_at. rewrite E. cbn. rewrite Hi; [done|]. intros ->. congruence.
Qed.
Lemma staged_stat f s : staged f s → follow 40 s (Path p) = Some (n0, i0).
Proof.
  intros Hs. destruct (staged_inode_at _ _ Hs) as [Hi Hd]. unfold inode_at in Hi. rewrite Hd in Hi.
  cbn [mbind option_bind] in Hi. simpl. rewrite Hd, Hi, Hreg. done.
Qed.
(** A look whose answer the start determines. *)
Lemma hoare_look_eq {A} f (q : fs → result A) (v : result A) :
  (∀ s, staged f s → q s = v) →
  hoare good (staged f) (query q)
    (λ r s, match r with Ok a => v = Ok a ∧ staged f s | Err _ => restored s end).
Proof.
  intros Hq. apply hoare_query; [done|..].
  - intros s Hs. eapply (restored_good s0 (Path p) (After p) Hset); [apply good_good|exact Hfd|exact Htmp|by eapply staged_restored].
  - intros s Hs. rewrite <- (Hq s Hs). destruct (q s); [done|by eapply staged_restored].
  - intros s e Hs. by eapply staged_restored.
Qed.
Definition the (i : inode) : inode → Prop := λ j, j = i.
Definition new_file (u g m : Z) (sy : bool) (x : list (str * str)) : inode :=
  mkInode FRegular m u g (After p) sy x.

Lemma hoare_copy_keys u g m sy keys x :
  hoare good (staged (the (new_file u g m sy x))) (copy_keys (Path p) tmp keys)
    (λ r s, match r with
            | Ok _ => staged (the (new_file u g m sy (copied (i_xattrs i0) keys x))) s
            | Err _ => restored s
            end).
Proof.
  revert x. induction keys as [|k keys IH]; intros x; cbn [copy_keys copied]; [by apply hoare_ret|].
  destruct (k == ""); [apply IH|]. set (f := the (new_file u g m sy x)).
  assert (∀ s, staged f s → inode_at s (Path p) = Some i0) as Hat by (intros s Hs; by apply staged_inode_at in Hs as [? _]).
  eapply hoare_bind.
  { apply (hoare_look_eq f _ (match assoc k (i_xattrs i0) with Some v => Ok (Z.of_nat (length v)) | None => Err no_attribute end)).
    intros s Hs. by rewrite (Hat s Hs). }
  { by intros ? ? ?. }
  intros size. apply hoare_pure. destruct (assoc k (i_xattrs i0)) as [v|] eqn:Ev; [intros [= <-]|done].
  destruct (max_xattr <? _); [apply hoare_lift; intros s Hs; by eapply staged_restored|].
  eapply hoare_bind.
  { apply (hoare_look_eq f _ (if Z.of_nat (length v) <? Z.of_nat (length v) then Err ERANGE else Ok v)).
    intros s Hs. by rewrite (Hat s Hs), Ev. }
  { by intros ? ? ?. }
  intros data. apply hoare_pure. rewrite Z.ltb_irrefl. intros [= <-].
  set (f' := the (new_file u g m sy (with_xattr x k v))).
  eapply hoare_bind with (R := λ r s, match r with
    | Ok (Ok _) => staged f' s | Ok (Err _) => restored s | Err _ => False end).
  { eapply hoare_try with (R := λ r s, match r with Ok _ => staged f' s | Err _ => restored s end); [|done].
    apply hoare_syscall; [done|..].
    - intros s Hs. rewrite (sg_tmp _ _ _ _ _ Hs). cbn [fst snd].
      assert (staged f' (on_inode fd (add_xattr k v) s)) as Hs' by (eapply staged_on_inode; [exact Hs|by intros i ->]).
      split; [done|]. eapply (restored_good s0 (Path p) (After p) Hset); [apply good_good|exact Hfd|exact Htmp|by eapply staged_restored].
    - intros s j e Hs. split; [by eapply staged_restored|].
      eapply (restored_good s0 (Path p) (After p) Hset); [apply good_good|exact Hfd|exact Htmp|by eapply staged_restored]. }
  { by intros ? ? ?. }
  intros [[]|e]; [apply IH|by apply hoare_lift].
Qed.
(** What the copy leaves: the old file's attributes, or none where listing them is not
    supported. *)
Definition kept_xattrs (x : list (str * str)) : Prop :=
  (∀ k, assoc k x = assoc k (i_xattrs i0)) ∨ ∃ k e, fault k = Some e ∧ errors_Is e ENOTSUP = true.
Lemma list_size_zero (l : list str) : list_size l = 0 → l = [].
Proof. unfold list_size. destruct l; simpl; [done|lia]. Qed.
Hypothesis Hkeys : Forall (λ k, k ≠ []) (i_xattrs i0).*1.
Lemma hoare_copyXattrs u g m sy :
  hoare good (staged (the (new_file u g m sy []))) (copyXattrs (Path p) tmp)
    (λ r s, match r with
            | Ok _ => ∃ x, kept_xattrs x ∧ staged (the (new_file u g m sy x)) s
            | Err _ => restored s
            end).
Proof.
  set (f := the (new_file u g m sy [])). unfold copyXattrs.
  assert (∀ s, staged f s → good s) as Hgood.
  { intros s Hs. eapply (restored_good s0 (Path p) (After p) Hset);
      [apply good_good|exact Hfd|exact Htmp|by eapply staged_restored]. }
  set (size := list_size (i_xattrs i0).*1).
  eapply hoare_bind with (R := λ r s, staged f s ∧ match r with
    | Ok (Ok n) => n = size | Ok (Err e) => errors_Is e ENOTSUP = true → ∃ k, fault k = Some e | Err _ => False end).
  { eapply hoare_try with (R := λ r s, staged f s ∧ match r with
      | Ok n => n = size | Err e => errors_Is e ENOTSUP = true → ∃ k, fault k = Some e end); [|done].
    apply hoare_query_fault; [done|exact Hgood|..].
    - intros s Hs. destruct (staged_inode_at _ _ Hs) as [-> _]. done.
    - intros s k e Hs Hf. split; [done|]. intros _. by exists k. }
  { by intros ? ? [_ ?]. }
  intros [n|e].
  - destruct (Z.eqb_spec n 0) as [->|Hn].
    { apply hoare_ret. intros s [Hs Hz]. exists []. split; [|exact Hs]. left. intros k.
      symmetry in Hz. apply list_size_zero in Hz. destruct (i_xattrs i0); done. }
    destruct (max_xattr <? n); [apply hoare_lift; intros s [Hs _]; by eapply staged_restored|].
    intros o [Hs ->]. revert o Hs.
    change (hoare good (staged f) (keys ← Listxattr (Path p) size; copy_keys (Path p) tmp keys)
      (λ r s, match r with
            | Ok _ => ∃ x, kept_xattrs x ∧ staged (the (new_file u g m sy x)) s
            | Err _ => restored s end)).
    eapply hoare_bind.
    { apply (hoare_look_eq f _ (Ok (i_xattrs i0).*1)). intros s Hs.
      destruct (staged_inode_at _ _ Hs) as [-> _]. fold size. by rewrite Z.ltb_irrefl. }
    { by intros ? ? ?. }
    intros keys. apply hoare_pure. intros [= <-].
    eapply hoare_conseq; [apply hoare_copy_keys|done|]. intros r s. destruct r; [|done].
    intros Hs. eexists. split; [|exact Hs]. left. intros k. by apply copied_all.
  - destruct (errors_Is e ENOTSUP) eqn:Ee.
    + apply hoare_ret. intros s [Hs Hf]. exists []. split; [|exact Hs]. right.
      destruct (Hf eq_refl) as [k ?]. by exists k, e.
    + apply hoare_lift. intros s [Hs _]. by eapply staged_restored.
Qed.
End Staged.

(** The file that takes the place of the old one. *)
Definition installed (i : inode) : Prop :=
  i_data i = After p ∧ i_synced i = true ∧ i_type i = FRegular ∧
  i_mode i = Z.land (i_mode i0) 511 ∧ i_uid i = i_uid i0 ∧ i_gid i = i_gid i0 ∧ kept_xattrs (i_xattrs i).
Hypothesis Hkeys : Forall (λ k, k ≠ []) (i_xattrs i0).*1.
Hypothesis Hname : temp_name s0 (Dir (Path p) ++ "/.utlsproxy-hosts-*") ≠ Path p.
(** *** [replace] *)
(** The calls between CreateTemp and the second look at the old file. *)
Lemma hoare_prepare {A} fd tmp (K : M A) (Q : result A → fs → Prop) :
  inodes s0 !! fd = None → tmp ≠ Path p → dents s0 !! tmp = None →
  (∀ e s, restored s0 tmp fd s → Q (Err e) s) →
  hoare good (staged s0 fd tmp installed) K Q →
  hoare good (staged s0 fd tmp temp_inode)
    (_ ← Write fd (After p);
     _ ← Chown fd (i_uid i0) (i_gid i0);
     _ ← Chmod fd (Z.land (i_mode i0) 511);
     _ ← copyXattrs (Path p) tmp;
     _ ← Sync fd;
     _ ← Close fd;
     K) Q.
Proof.
  intros Hfd Htmp Ht0 HQ HK. set (m := Z.land (i_mode i0) 511).
  set (w := bool_decide (After p = []) && true).
  set (f1 := the (new_file euid euid 384 w [])). set (f2 := the (new_file (i_uid i0) (i_gid i0) 384 w [])).
  set (f3 := the (new_file (i_uid i0) (i_gid i0) m w [])).
  eapply hoare_bind.
  { apply (hoare_write s0 _ _ Hset alone _ good_good fd tmp Hfd Htmp temp_inode f1). by intros i ->. }
  { exact HQ. }
  intros []. eapply hoare_bind.
  { apply (hoare_on_inode s0 _ _ Hset alone _ good_good fd tmp Hfd Htmp nothing tt _ f1 f2);
      [by intros i ->|]. intros k s Hs. by exists f1. }
  { exact HQ. }
  intros []. eapply hoare_bind.
  { apply (hoare_on_inode s0 _ _ Hset alone _ good_good fd tmp Hfd Htmp nothing tt _ f2 f3);
      [by intros i ->|]. intros k s Hs. by exists f2. }
  { exact HQ. }
  intros []. eapply hoare_bind.
  { by apply (hoare_copyXattrs fd tmp Hfd Htmp Hkeys). }
  { exact HQ. }
  intros []. apply hoare_exists. intros x. apply hoare_pure. intros Hx. eapply hoare_bind.
  { apply (hoare_on_inode s0 _ _ Hset alone _ good_good fd tmp Hfd Htmp nothing tt _
             (the (new_file (i_uid i0) (i_gid i0) m w x)) installed).
    - intros i ->. by split_and!.
    - intros k s Hs. by eexists. }
  { exact HQ. }
  intros []. eapply hoare_bind.
  { apply (hoare_close s0 _ _ Hset alone _ good_good fd tmp Hfd Htmp). }
  { exact HQ. }
  intros []. exact HK.
Qed.
(** The rename and the sync of the directory. *)
Lemma hoare_finish fd tmp :
  inodes s0 !! fd = None → tmp ≠ Path p → dents s0 !! tmp = None →
  hoare good (staged s0 fd tmp installed)
    (r ← try (Rename tmp (Path p));
     match r with
     | Err e => fail (Errorf_w "atomic hosts replacement unsupported or failed: " e)
     | Ok _ =>
         d ← try (OpenDir (Dir (Path p)));
         match d with
         | Ok _ => ignore (SyncDir (Dir (Path p)))
         | Err _ => mret tt
         end
     end)
    (outcome_ok s0 (Path p) fd tmp installed).
Proof.
  intros Hfd Htmp Ht0.
  assert (∀ i, installed i → i_data i = After p ∧ i_synced i = true) as Hc by (by intros i (? & ? & _)).
  set (R := replaced s0 (Path p) fd installed).
  eapply hoare_bind with (R := λ r s, match r with
    | Ok (Ok _) => R s | Ok (Err _) => restored s0 tmp fd s | Err _ => False end).
  { eapply hoare_try; [by apply (hoare_rename s0 _ _ Hset alone _ good_good fd tmp Hfd Htmp)|]. done. }
  { by intros ? ? ?. }
  intros [[]|e]; [|by apply hoare_lift].
  eapply hoare_bind with (R := λ r s, match r with Ok _ => R s | Err _ => False end).
  { eapply hoare_try with (R := λ _ s, R s); [|done].
    by apply (hoare_look_replaced s0 _ _ Hset alone _ good_good fd Hfd installed Hc). }
  { by intros ? ? ?. }
  intros [[]|e]; [|by apply hoare_ret].
  apply hoare_ignore. by apply (hoare_syncdir s0 _ _ Hset alone _ good_good fd Hfd installed Hc).
Qed.

(** What [replace]'s own calls leave, before its clean-up. *)
Definition attempt (fd : Z) (tmp : str) (r : result unit) (s : fs) : Prop :=
  match r with
  | Ok _ => sha256 (i_data i0) = sha256 (Before p) ∧ replaced s0 (Path p) fd installed s
  | Err _ => restored s0 tmp fd s
  end.
(** The second look at the old file, up to the end. *)
Lemma hoare_recheck fd tmp :
  inodes s0 !! fd = None → tmp ≠ Path p → dents s0 !! tmp = None →
  hoare good (staged s0 fd tmp installed)
    (current ← ReadFile (Path p);
     _ ← lift (guard_err (sha256 current != sha256 (Before p))
                 (errors_New "hosts changed concurrently before replacement; no changes applied"));
     latest ← Stat (Path p);
     _ ← lift (guard_err (negb (same_file (n0, i0) latest))
                 (errors_New "hosts identity or metadata changed concurrently"));
     r ← try (Rename tmp (Path p));
     match r with
     | Err e => fail (Errorf_w "atomic hosts replacement unsupported or failed: " e)
     | Ok _ =>
         d ← try (OpenDir (Dir (Path p)));
         match d with
         | Ok _ => ignore (SyncDir (Dir (Path p)))
         | Err _ => mret tt
         end
     end)
    (attempt fd tmp).
Proof.
  intros Hfd Htmp Ht0. eapply hoare_bind.
  { apply (hoare_look_eq fd tmp Hfd Htmp installed _ (Ok (i_data i0))). intros s Hs.
    destruct (staged_inode_at fd tmp Hfd Htmp _ _ Hs) as [Hi _]. by apply (read_file_regular _ _ _ Hi). }
  { by intros ? ? ?. }
  intros cur. apply hoare_pure. intros [= <-].
  eapply hoare_bind with (R := λ r s, match r with
    | Ok _ => staged s0 fd tmp installed s ∧ sha256 (i_data i0) = sha256 (Before p)
    | Err _ => restored s0 tmp fd s end).
  { apply hoare_lift. intros s Hs. destruct (str_eqb_spec (sha256 (i_data i0)) (sha256 (Before p))); [done|].
    by eapply staged_restored. }
  { by intros ? ? ?. }
  intros []. apply hoare_pure_r. intros Hsha. eapply hoare_bind.
  { apply (hoare_look_eq fd tmp Hfd Htmp installed _ (Ok (n0, i0))). intros s Hs.
    by rewrite (staged_stat fd tmp Hfd Htmp _ _ Hs). }
  { by intros ? ? ?. }
  intros latest. apply hoare_pure. intros [= <-].
  eapply hoare_bind with (R := λ r s, match r with
    | Ok _ => staged s0 fd tmp installed s | Err _ => restored s0 tmp fd s end).
  { apply hoare_lift. intros s Hs. unfold same_file. rewrite !Z.eqb_refl, bool_decide_true by done. done. }
  { by intros ? ? ?. }
  intros []. eapply hoare_conseq; [by apply hoare_finish|done|]. intros [] s Hs; [by split|exact Hs].
Qed.
(** The deferred clean-up undoes nothing that was done. *)
Lemma hoare_cleanup fd tmp r :
  inodes s0 !! fd = None → tmp ≠ Path p → dents s0 !! tmp = None →
  hoare good (attempt fd tmp r) (_ ← ignore (Remove tmp); ignore (Close fd)) (λ _, attempt fd tmp r).
Proof.
  intros Hfd Htmp Ht0. assert (∀ i, installed i → i_data i = After p ∧ i_synced i = true) as Hc by (by intros i (? & ? & _)).
  set (ok := outcome_ok s0 (Path p) fd tmp installed r).
  set (out := λ s, ok s ∧ (is_ok r = true → sha256 (i_data i0) = sha256 (Before p))).
  apply (hoare_conseq good _ out _ (λ _, out)).
  - apply hoare_pure_r. intros Hsha. eapply hoare_bind with (R := λ _, ok).
    { apply hoare_ignore. by apply (hoare_remove_tmp s0 _ _ Hset alone _ good_good fd tmp Hfd Htmp). }
    { intros e s Hs. by split. }
    intros []. apply hoare_ignore.
    eapply hoare_conseq; [by apply (hoare_close_outcome s0 _ _ Hset alone _ good_good fd tmp Hfd Htmp)|done|].
    intros ? s Hs. by split.
  - unfold out, ok. by destruct r; [intros s [? ?]|intros s ?].
  - unfold out, ok. intros ? s [Hs Hsha]. destruct r; [|done]. by split; [apply Hsha|].
Qed.
Lemma hoare_replace :
  hoare good (λ s, s = s0) (replace sha256 p)
    (λ r s, match r with
            | Ok _ => sha256 (i_data i0) = sha256 (Before p) ∧
                      ∃ fd, inodes s0 !! fd = None ∧ replaced s0 (Path p) fd installed s
            | Err _ => ∃ tmp fd, tmp ≠ Path p ∧ inodes s0 !! fd = None ∧ restored s0 tmp fd s
            end).
Proof.
  unfold replace. set (t := temp_name s0 (Dir (Path p) ++ "/.utlsproxy-hosts-*")) in *.
  assert (restored s0 t (fresh_ino s0) s0) as Hr0 by (by split).
  assert (good s0) as Hg0 by (apply (restored_good s0 _ _ Hset _ good_good _ t (fresh_ino_None s0) Hname s0 Hr0)).
  eapply hoare_bind with (R := λ r s, s = s0 ∧ match r with Ok st => st = (n0, i0) | Err _ => True end).
  { apply hoare_query; [done|by intros s ->|..].
    - intros s ->. by rewrite Stat_regular.
    - by intros s e ->. }
  { intros e s [-> _]. exists t, (fresh_ino s0). split; [done|]. split; [apply fresh_ino_None|done]. }
  intros st. apply hoare_pure_r. intros ->. cbn [snd].
  eapply hoare_bind.
  { apply (hoare_CreateTemp s0 (Path p) (After p)); [exact Hset|exact alone|exact good_good|exact Hname]. }
  { intros e s ->. exists t, (fresh_ino s0). split; [done|]. split; [apply fresh_ino_None|done]. }
  intros [fd tmp]. apply hoare_pure. intros (Hfd & Ht0 & Htmp).
  eapply hoare_finally with (R := attempt fd tmp).
  - apply hoare_prepare; [done..|]. by apply hoare_recheck.
  - intros r. eapply hoare_conseq; [by apply hoare_cleanup|done|].
    intros ? s Hs. destruct r; [split; [by apply Hs|exists fd; split; [done|by apply Hs]]|by exists tmp, fd].
Qed.
End Correctness.

(** *** The calls before the replacement *)
Section Whole.
Context `{Kernel}.
Variable sha256 : str → str.
Hypothesis alone : quiet.
Variable p : Plan.
Variable s0 : fs.
Variables (n0 : Z) (i0 : inode).
Hypothesis Hset : settled s0 (Path p).
Hypothesis Hd0 : dents s0 !! Path p = Some n0.
Hypothesis Hi0 : inodes s0 !! n0 = Some i0.
Hypothesis Hreg : i_type i0 = FRegular.
Hypothesis Hkeys : Forall (λ k, k ≠ []) (i_xattrs i0).*1.
Hypothesis Hname : ∀ s, temp_name s (Dir (Path p) ++ "/.utlsproxy-hosts-*") ≠ Path p.
Notation good := (crash_safe s0 (Path p) (After p)).

(** The hosts file is untouched. *)
Definition the_hosts : files := with_file no_files (Path p) n0 i0.
Notation keeps := (keeps the_hosts (ddents s0)).
Lemma hosts_file : the_hosts (Path p) = Some (n0, i0).
Proof. unfold the_hosts, with_file. by rewrite decide_True. Qed.
Lemma keeps_iff s :
  keeps s ↔ dents s !! Path p = Some n0 ∧ ddents s = ddents s0 ∧ inodes s !! n0 = Some i0.
Proof.
  split.
  - intros [Hf HD]. destruct (Hf _ _ _ hosts_file). done.
  - intros (Hd & HD & Hi). split; [|done]. unfold the_hosts, with_file, no_files. intros q n i Hq.
    destruct (decide (q = Path p)); simplify_eq. done.
Qed.
Lemma keeps_s0 : keeps s0.
Proof. by apply keeps_iff. Qed.
Lemma keeps_read s : keeps s → read s (Path p) = read s0 (Path p).
Proof. intros (Hd & _ & Hi)%keeps_iff. unfold read, inode_at. rewrite Hd, Hd0. cbn. by rewrite Hi, Hi0. Qed.
Lemma keeps_settled s : keeps s → settled s (Path p).
Proof.
  intros (Hd & Hdd & Hi)%keeps_iff. split.
  - rewrite Hdd, (se_dents _ _ Hset). congruence.
  - intros n Hn. rewrite Hd in Hn. injection Hn as <-.
    destruct (se_inode _ _ Hset n0 Hd0) as (i & Hi' & Hs). exists i. split; [congruence|done].
Qed.
Lemma keeps_good s : keeps s → good s.
Proof.
  intros (Hd & Hdd & Hi)%keeps_iff s' Hc. left. eapply read_kept; [exact Hset| |exact Hc|].
  - intros n i Hn Hi'. congruence.
  - destruct Hc as [Hp _]. destruct (Hp (Path p)) as [->| ->]; [congruence|].
    by rewrite Hdd, (se_dents _ _ Hset).
Qed.
(** The backup is complete when [Exclusive] succeeds. *)
Definition backed_up (bk b : str) (s : fs) : Prop :=
  keeps s ∧ bk ≠ Path p ∧ ∃ fd i, dents s !! bk = Some fd ∧ inodes s !! fd = Some i ∧ i_data i = b.
Lemma hoare_backup bk b mode :
  hoare good keeps (Exclusive bk b mode)
    (λ r s, keeps s ∧ match r with Ok _ => backed_up bk b s | Err _ => True end).
Proof.
  eapply hoare_conseq; [apply (hoare_Exclusive _ _ _ keeps_good alone)|done|].
  intros [[]|e] s Hs; [|done]. destruct Hs as [fd Hm]. pose proof (made_keeps _ _ _ _ _ _ Hm) as Hk.
  split; [done|]. split; [done|]. destruct Hm as [[Hf _] Hp _]. split.
  - intros ->. by eapply Hp, hosts_file.
  - destruct (Hf bk fd (exclusive_file mode b)) as [? ?]; [unfold with_file; by rewrite decide_True|]. eauto 10.
Qed.

(** What [Apply] guarantees of the hosts file. *)
Definition applied (bk0 : str) (r : result (str * option error)) (s : fs) : Prop :=
  match r with
  | Ok (bk, None) =>
      i_data i0 = Before p ∧ bk = bk0 ∧ read s bk = Some (Before p) ∧
      ∃ i, inode_at s (Path p) = Some i ∧ installed p i0 i
  | Ok (_, Some _) => inode_at s (Path p) = Some i0
  | Err _ => False
  end.
(** The locks are not part of what matters. *)
Lemma locks_irrelevant bk0 r s l :
  applied bk0 r s ∧ good s →
  applied bk0 r (mkFs (dents s) (ddents s) (inodes s) l) ∧ good (mkFs (dents s) (ddents s) (inodes s) l).
Proof. by intros [Ha Hg]. Qed.
Lemma hoare_unlock bk0 r fd :
  hoare good (λ s, applied bk0 r s ∧ good s) (_ ← ignore (Unflock fd); ignore (Close fd))
    (λ _ s, applied bk0 r s ∧ good s).
Proof.
  eapply hoare_bind with (R := λ _ s, applied bk0 r s ∧ good s); [|done|intros []];
    apply hoare_ignore; apply hoare_syscall; try done.
  - intros s Hs. cbn [fst snd]. pose proof (locks_irrelevant bk0 r s (locks s ∖ {[fd]}) Hs) as [? ?]. done.
  - intros s k e [? ?]. done.
  - intros s [? ?]. done.
  - intros s k e [? ?]. done.
Qed.
Lemma hoare_at {A} (m : M A) (P : fs → Prop) Q :
  (∀ s1, P s1 → hoare good (λ s, s = s1) m Q) → hoare good P m Q.
Proof. intros Hm o HP. by apply (Hm (sys o)). Qed.
Lemma read_other s bk q n : bk ≠ q → read (set_dents s (<[q := n]> (dents s))) bk = read s bk.
Proof. intros Hne. unfold read, inode_at. simpl. by rewrite lookup_insert_ne by congruence. Qed.

Lemma hoare_replace_backed bk :
  hoare good (backed_up bk (Before p)) (try (replace sha256 p))
    (λ r s, match r with
            | Ok x => (match x with
                       | Ok _ => read s bk = Some (Before p) ∧
                                 ∃ i, inode_at s (Path p) = Some i ∧ installed p i0 i
                       | Err _ => inode_at s (Path p) = Some i0
                       end) ∧ good s
            | Err _ => False
            end).
Proof.
  apply hoare_at. intros s1 (Hk & Hbk & fd' & i' & Hd' & Hi' & Hb').
  assert (∀ s, crash_safe s1 (Path p) (After p) s → good s) as Hg.
  { intros s Hs s' Hc. rewrite <- (keeps_read s1 Hk). by apply Hs. }
  pose proof (keeps_settled s1 Hk) as Hse. apply keeps_iff in Hk as (Hk1 & Hk2 & Hk3).
  eapply hoare_try; [exact (hoare_replace sha256 alone p s1 n0 i0 Hse Hk1 Hk3 Hreg good Hg Hkeys (Hname s1))|].
  intros [[]|e] s.
  - intros (Hsha & fd & Hfd & Hr). split; [|eapply replaced_good; [exact Hse|exact Hg|exact Hfd| |exact Hr];
      by intros i (? & ? & _)]. destruct Hr as [Hd _ Hi (i & Hin & Hins)]. split.
    + unfold read, inode_at. rewrite Hd, lookup_insert_ne by congruence. rewrite Hd'. cbn.
      rewrite Hi by congruence. rewrite Hi'. cbn. by rewrite Hb'.
    + exists i. split; [|done]. unfold inode_at. rewrite Hd, lookup_insert_eq. done.
  - intros (tmp & fd & Htmp & Hfd & Hr). split; [|by eapply restored_good].
    destruct Hr as [Hd _ Hi]. unfold inode_at. rewrite Hd by congruence. rewrite Hk1. cbn.
    rewrite Hi; [done|]. congruence.
Qed.
Lemma hoare_apply_locked stateDir stamp :
  let bk := stateDir ++ "/hosts-backup-" ++ stamp in
  hoare good keeps (apply_locked sha256 p stateDir stamp) (λ r s, applied bk r s ∧ good s).
Proof.
  intros bk. unfold apply_locked.
  assert (∀ s e x, keeps s → applied bk (Ok (x, Some e)) s ∧ good s) as Hstop.
  { intros s e x Hs. split; [by eapply keeps_inode_at, hosts_file|by apply keeps_good]. }
  eapply hoare_bind with (R := λ r s, match r with
    | Ok x => keeps s ∧ match x with Ok c => c = i_data i0 | Err _ => True end | Err _ => False end).
  { eapply hoare_try with (R := λ r s, keeps s ∧ match r with Ok c => c = i_data i0 | Err _ => True end); [|done].
    eapply hoare_keeps; [exact keeps_good|done|done| |done]. intros s Hs. split; [done|]. split; [done|]. cbn [fst].
    by rewrite (read_file_regular _ _ _ (keeps_inode_at _ _ _ _ _ _ Hs hosts_file) Hreg). }
  { done. }
  intros [c|e]; [|apply hoare_ret; intros s [Hs _]; by apply Hstop].
  apply hoare_pure_r. intros ->. destruct (str_eqb_spec (i_data i0) (Before p)) as [Heq|Hne]; cbn [negb].
  2:{ apply hoare_ret. intros s Hs. by apply Hstop. }
  eapply hoare_bind with (R := λ r s, match r with
    | Ok x => keeps s ∧ match x with Ok _ => backed_up bk (Before p) s | Err _ => True end | Err _ => False end).
  { eapply hoare_try; [apply hoare_backup|]. done. }
  { done. }
  intros [[]|e]; [|apply hoare_ret; intros s [Hs _]; by apply Hstop].
  eapply hoare_bind.
  { eapply hoare_conseq; [apply hoare_replace_backed|by intros s [_ ?]|intros r s Hr; exact Hr]. }
  { done. }
  intros [[]|e]; apply hoare_ret.
  - intros s [(Hb & Hi) Hg]. by split.
  - intros s [Hi Hg]. by split.
Qed.
End Whole.

Lemma hoare_Apply `{Kernel} sha256 p stateDir stamp s0 i0 :
  quiet → settled s0 (Path p) → inode_at s0 (Path p) = Some i0 → i_type i0 = FRegular →
  Forall (λ k, k ≠ []) (i_xattrs i0).*1 →
  (∀ s, temp_name s (Dir (Path p) ++ "/.utlsproxy-hosts-*") ≠ Path p) → Changed p = true →
  hoare (crash_safe s0 (Path p) (After p)) (λ s, s = s0) (Apply sha256 p stateDir stamp)
    (λ r s, applied p i0 (stateDir ++ "/hosts-backup-" ++ stamp) r s ∧ crash_safe s0 (Path p) (After p) s).
Proof.
  intros alone Hset Hin Hreg Hkeys Hname Hch.
  unfold inode_at in Hin. destruct (dents s0 !! Path p) as [n0|] eqn:Hd0; [|done]. cbn in Hin.
  set (bk := stateDir ++ "/hosts-backup-" ++ stamp) in *.
  pose proof (keeps_good p s0 n0 i0 Hset Hd0 Hin Hreg Hkeys) as Hkg. unfold Apply. rewrite Hch. cbn [negb].
  apply (hoare_conseq _ _ (keeps (the_hosts p n0 i0) (ddents s0)) _ (λ r s, applied p i0 bk r s ∧ crash_safe s0 (Path p) (After p) s));
    [|intros s ->; by apply keeps_s0|done].
  assert (∀ s e x, keeps (the_hosts p n0 i0) (ddents s0) s → applied p i0 bk (Ok (x, Some e)) s ∧ crash_safe s0 (Path p) (After p) s) as Hstop.
  { intros s e x Hs. split; [eapply keeps_inode_at; [done|apply hosts_file]|by apply Hkg]. }
  eapply hoare_bind with (R := λ r s, match r with Ok _ => keeps (the_hosts p n0 i0) (ddents s0) s | Err _ => False end).
  { eapply hoare_try; [exact (hoare_PrivateDir _ _ _ Hkg alone _)|]. done. }
  { done. }
  intros [[]|e]; [|apply hoare_ret; intros s Hs; by apply Hstop].
  eapply hoare_bind with (R := λ r s, match r with
  | Ok x => keeps (the_hosts p n0 i0) (ddents s0) s ∧ match x with
      | Ok u => ∃ fd, u = (_ ← ignore (Unflock fd); ignore (Close fd)) | Err _ => True end
  | Err _ => False end).
  { eapply hoare_try; [exact (hoare_Lock _ _ _ Hkg alone _)|]. done. }
  { done. }
  intros [u|e]; [|apply hoare_ret; intros s [Hs _]; by apply Hstop].
  apply hoare_pure_r. intros [fd ->].
  eapply hoare_finally; [by eapply hoare_apply_locked|]. intros r. by apply hoare_unlock.
Qed.

(** C8: The hosts file is replaced as a whole or not at all. [Apply] runs with no other
    process at work on the files and with any of its calls failing, on a plan that changes
    something, for a regular file that is on disk. If it reports success, the file held the
    bytes the plan was made for, a backup of them exists under the returned name, and the
    path now names a complete new file with the planned bytes, the old permissions, owner
    and group, and the old extended attributes (unless listing them is unsupported). If it
    reports an error, in particular when the file had changed since the plan was made, the
    path still names the old file, untouched. And after a crash at any point the path reads
    as before or as planned. *)
Theorem Apply_atomic `{Kernel} sha256 p stateDir stamp o i0 res o' :
  quiet → settled (sys o) (Path p) → inode_at (sys o) (Path p) = Some i0 → i_type i0 = FRegular →
  Forall (λ k, k ≠ []) (i_xattrs i0).*1 →
  (∀ s, temp_name s (Dir (Path p) ++ "/.utlsproxy-hosts-*") ≠ Path p) →
  Changed p = true → trace o = [] → Apply sha256 p stateDir stamp o = (res, o') →
  Forall (crash_safe (sys o) (Path p) (After p)) (trace o') ∧
  applied p i0 (stateDir ++ "/hosts-backup-" ++ stamp) res (sys o').
Proof.
  intros alone Hset Hin Hreg Hkeys Hname Hch Ht Ha.
  destruct (hoare_Apply sha256 p stateDir stamp (sys o) i0 alone Hset Hin Hreg Hkeys Hname Hch o eq_refl) as [[Hq _] Hg].
  rewrite Ha, Ht in *. cbn [fst snd] in *. split; [by apply Hg, Forall_nil|done].
Qed.

(** ** What [Apply] leaves alone *)
Section Frame.
Context `{Kernel}.
Variable sha256 : str → str.
Variables (X : str → Prop) (p : Plan).
Hypothesis alone : quiet.
Hypothesis Hp : ¬ X (Path p).
Hypothesis Htemp : ∀ s d, ¬ X (temp_name s d).
Section From.
Variables (s0 : fs) (good : fs → Prop) (fd : Z) (tmp : str).
Hypothesis Hgood : ∀ s, same_at X s0 s → good s.
Hypothesis Hfd : inodes s0 !! fd = None.
(** The names of [X] are spared, and the temporary file is the new inode. *)
Definition making (s : fs) : Prop := same_at X s0 s ∧ dents s !! tmp = Some fd.
Lemma hoare_making {A} pt (g : fs → result A * fs) :
  (∀ k s, making s → making (pt k s)) → (∀ s, making s → making (g s).2) → hoare good making (syscall pt g) (λ _, making).
Proof.
  intros Hpt Hg. apply hoare_syscall; [done|..].
  - intros s Hs. split; [by apply Hg|by apply Hgood, Hg].
  - intros s k e Hs. split; [by apply Hpt|by apply Hgood, Hpt].
Qed.
Lemma making_on f s : making s → making (on_inode fd f s).
Proof. intros [Hs Ht]. split; [by apply same_at_on_inode|done]. Qed.
Lemma making_bind {A B} (m : M A) (f : A → M B) :
  hoare good making m (λ _, making) → (∀ a, hoare good making (f a) (λ _, same_at X s0)) →
  hoare good making (m ≫= f) (λ _, same_at X s0).
Proof. intros Hm Hf. eapply hoare_bind; [exact Hm|by intros e s []|done]. Qed.
Lemma making_query {A} (f : fs → result A) : hoare good making (query f) (λ _, making).
Proof. by apply hoare_making. Qed.
Lemma making_copy_keys src keys : hoare good making (copy_keys src tmp keys) (λ _, making).
Proof.
  induction keys as [|k keys IH]; cbn [copy_keys]; [by apply hoare_ret|]. destruct (k == ""); [done|].
  eapply hoare_bind; [apply making_query|done|]. intros n. destruct (max_xattr <? n); [by apply hoare_lift|].
  eapply hoare_bind; [apply making_query|done|]. intros v.
  eapply hoare_bind with (R := λ _, making); [|done|intros [[]|e]; [done|by apply hoare_lift]].
  eapply hoare_try; [apply hoare_making; [done|]|done]. intros s Hs. rewrite (proj2 Hs). by apply making_on.
Qed.
Lemma making_copyXattrs src : hoare good making (copyXattrs src tmp) (λ _, making).
Proof.
  unfold copyXattrs. eapply hoare_bind with (R := λ _, making); [eapply hoare_try; [apply making_query|done]|done|].
  intros [n|e]; [|destruct (errors_Is _ _); [by apply hoare_ret|by apply hoare_lift]].
  destruct (n =? 0); [by apply hoare_ret|]. destruct (max_xattr <? n); [by apply hoare_lift|].
  eapply hoare_bind; [apply making_query|done|]. intros keys. apply making_copy_keys.
Qed.
End From.
Lemma spared_calls s0 good {A} (m : M A) :
  (∀ s, same_at X s0 s → good s) → spares X m → hoare good (same_at X s0) m (λ _, same_at X s0).
Proof. intros Hg Hm. eapply hoare_spares; [exact Hm|by intros s s' ? ?; etransitivity|done]. Qed.
Lemma spares_replace : spares X (replace sha256 p).
Proof.
  intros s0 good Hg. unfold replace. set (S := same_at X s0).
  assert (∀ A (m : M A), spares X m → hoare good S m (λ _, S)) as Hcall by (intros A m Hm; by apply spared_calls).
  eapply hoare_bind with (R := λ _, S); [|done|].
  { eapply hoare_conseq; [by apply Hcall, spares_query| |done]. intros s ->. apply same_at_refl. }
  intros st. eapply hoare_bind with (R := λ r s, match r with
    | Ok (fd, tmp) => ∃ s1, (S s1 ∧ inodes s1 !! fd = None ∧ ¬ X tmp) ∧ making s1 fd tmp s
    | Err _ => S s end); [|done|].
  { apply hoare_syscall; [done|..]; [|by intros s k e Hs; split; [|apply Hg]].
    intros s Hs. cbn [add_file fst snd]. set (t := temp_name s _). assert (¬ X t) as Ht by apply Htemp.
    pose proof (same_at_add X s t (fresh_ino s) (mkInode FRegular 384 euid euid [] true []) Ht (fresh_ino_None s)) as Hs'.
    assert (S (mkFs (<[t := fresh_ino s]> (dents s)) (ddents s) (<[fresh_ino s := mkInode FRegular 384 euid euid [] true []]> (inodes s)) (locks s))) as HS by (unfold S; eapply same_at_trans; [exact Hs|exact Hs']).
    split; [|by apply Hg]. exists s. split; [split_and!; [done|apply fresh_ino_None|done]|].
    split; [exact Hs'|]. simpl. by rewrite lookup_insert_eq. }
  intros [fd tmp]. apply hoare_exists. intros s1. apply hoare_pure. intros (Hs1 & Hfd & Ht).
  assert (∀ s, same_at X s1 s → S s) as Hfrom by (intros s Hs; unfold S; eapply same_at_trans; [exact Hs1|exact Hs]).
  assert (∀ s, same_at X s1 s → good s) as Hg1 by (intros s Hs; by apply Hg, Hfrom).
  eapply hoare_finally with (R := λ _, S).
  2:{ intros r. apply Hcall, spares_bind; [|intros []]; apply spares_ignore; [by apply spares_Remove|by apply spares_syscall]. }
  eapply hoare_conseq with (Q := λ _, same_at X s1); [|done|by intros r s Hs%Hfrom].
  assert (∀ (f : inode → inode) pt, (∀ k s, making s1 fd tmp s → making s1 fd tmp (pt k s)) →
    hoare good (making s1 fd tmp) (syscall pt (λ s, (Ok tt, on_inode fd f s))) (λ _, making s1 fd tmp)) as Hon.
  { intros f pt Hpt. apply hoare_making; [done|exact Hpt|]. intros s Hs. by apply making_on. }
  apply making_bind; [apply Hon; intros k s; by apply making_on|intros []]. do 2 (apply making_bind; [by apply Hon|intros []]).
  apply making_bind; [by apply making_copyXattrs|intros []]. apply making_bind; [by apply Hon|intros []].
  apply making_bind; [by apply hoare_making|intros []]. apply making_bind; [by apply making_query|intros current].
  apply making_bind; [by apply hoare_lift|intros []]. apply making_bind; [by apply making_query|intros latest].
  apply making_bind; [by apply hoare_lift|intros []].
  eapply hoare_bind with (R := λ _, same_at X s1); [|done|].
  { eapply hoare_try with (R := λ _, same_at X s1); [|done]. apply hoare_syscall; [done|..].
    - intros s [Hs Htmp]. rewrite Htmp. cbn [fst snd]. assert (same_at X s1 (set_dents s (<[Path p := fd]> (delete tmp (dents s))))) as Hr;
        [|split; [done|by apply Hg1]]. eapply same_at_trans; [exact Hs|]. intros q Hq. simpl.
      rewrite lookup_insert_ne, lookup_delete_ne by congruence. by split.
    - intros s k e [Hs _]. split; [done|by apply Hg1]. }
  intros [[]|e]; [|by apply hoare_lift].
  assert (∀ A (m : M A), spares X m → hoare good (same_at X s1) m (λ _, same_at X s1)) as Hcall1 by (intros A m Hm; by apply spared_calls).
  apply Hcall1, spares_bind; [by apply spares_try, spares_query|intros [[]|e]; [|apply spares_ret]].
  by apply spares_ignore, spares_syscall.
Qed.
Lemma spares_Apply stateDir stamp :
  ¬ X stateDir → ¬ X (stateDir ++ "/hosts.lock") → ¬ X (stateDir ++ "/hosts-backup-" ++ stamp) →
  spares X (Apply sha256 p stateDir stamp).
Proof.
  intros Hd Hl Hb. unfold Apply. destruct (negb (Changed p)); [apply spares_ret|].
  apply spares_bind; [by apply spares_try, spares_PrivateDir|intros [[]|e]; [|apply spares_ret]].
  apply spares_bind_post; [by apply spares_try, spares_Lock|]. intros [u|e] [o Ho]; [|apply spares_ret].
  apply spares_finally; [|apply (Lock_unlock alone X (stateDir ++ "/hosts.lock") o); unfold try in Ho;
    destruct (Lock _ o) as [r o']; by injection Ho].
  unfold apply_locked. apply spares_bind; [by apply spares_try, spares_ReadFile|intros [b|e]; [|apply spares_ret]].
  destruct (b != Before p); [apply spares_ret|]. cbv zeta.
  apply spares_bind; [by apply spares_try, spares_Exclusive|intros [[]|e]; [|apply spares_ret]].
  apply spares_bind; [apply spares_try, spares_replace|intros r; apply spares_ret].
Qed.
End Frame.

(** ** Witness *)
Definition demo_apply_plan : Plan := mkPlan "/etc/hosts" true [] [] "" "old" "new".
Definition demo_run : result (str * option error) * os :=
  @Apply no_faults (λ s, s) demo_apply_plan "/state" "t0" (mkOs demo_fs 0 []).
Lemma Apply_atomic_witness :
  applied (H := no_faults) demo_apply_plan demo_file "/state/hosts-backup-t0" demo_run.1 (sys demo_run.2) ∧
  demo_run.1 = Ok ("/state/hosts-backup-t0" : str, None).
Proof.
  split; [|vm_compute; reflexivity].
  refine (proj2 (@Apply_atomic no_faults (λ s, s) demo_apply_plan "/state" "t0" (mkOs demo_fs 0 []) demo_file
    demo_run.1 demo_run.2 _ _ _ _ _ _ _ _ _)).
  - intros k s. reflexivity.
  - exact demo_settled.
  - vm_compute. reflexivity.
  - reflexivity.
  - apply Forall_nil. exact I.
  - intros s E. apply (f_equal (take 6)) in E. vm_compute in E. discriminate E.
  - reflexivity.
  - reflexivity.
  - apply surjective_pairing.
Defined.
