(* ===== verification/Upstream.v ===== *)
(** * Upstream: the dialled side of a connection (src/internal/proxy/upstream.go)

    The network is a class of oracles, one answer for each attempt: the host's addresses,
    the TCP dial and the uTLS handshake. What the code does to connections is the list of
    [event]s, each with the number of the attempt that opened the connection. *)
From S2P Require Import Prelude Strs NetIP Config Discovery.
From S2P Require Profiles.
Import Profiles (UTLS, UConn, mkUConn, Compatible, VersionTLS12).

Record ConnectionState := mkState { TLSVersion : Z; NegotiatedProtocol : str; PeerApplicationSettings : str }.
Inductive event :=
  | Dialed (k : nat) (address : str)
  | SetDeadline (k : nat) (d : Z)
  | Handshaked (k : nat) (hello : UConn)
  | Closed (k : nat).

Class Network := {
  InterfaceAddrs : nat → result (list str);
  DialContext : nat → str → result unit;
  HandshakeContext : nat → UConn → result ConnectionState }.

(** A connection with its handshake done: the attempt that opened it, the ClientHello sent
    on it and the state reached. *)
Record UpConn := mkUpConn { u_id : nat; u_hello : UConn; u_state : ConnectionState }.

Section Upstream.
Context `{Unicode, UTLS, Network}.

Definition loop_address (ip : Addr) : error :=
  errors_New ("upstream_loop_or_invalid_address: " ++ AddrString ip).
Definition CheckDestination (addrs : result (list str)) (ip : Addr) (redirect : str) : result unit :=
  local ← LocalAddresses addrs;
  guard_err (negb (Is4 ip) || IsLoopback ip || IsUnspecified ip || IsMulticast ip
             || addr_eqb ip broadcast || bool_decide (ip ∈ local) || (AddrString ip == redirect))
    (loop_address ip).

Definition quoted_list (l : list str) : str := "[" ++ Join l " " ++ "]".
Definition handshakeUpstream (k : nat) (c : Config) (host : str) (offered : list str) (roots : option Z)
    : result (UpConn * list str) * list event :=
  match Profiles.New (UProfile (Config.Upstream c)) host (ALPNMode (Config.Upstream c)) offered roots with
  | Err e => (Err e, [])
  | Ok (u, mods) =>
      let r :=
        match HandshakeContext k u with
        | Err e => Err (Errorf_w "upstream_tls: " e)
        | Ok state =>
            _ ← guard_err (negb (Compatible (NegotiatedProtocol state) offered))
                  (errors_New ("alpn_mismatch: upstream selected " ++ Quote (NegotiatedProtocol state)
                     ++ ", client offered " ++ quoted_list offered ++ " (use compatible mode if needed)"));
            _ ← guard_err (0 <? length (PeerApplicationSettings state))%nat
                  (errors_New "unsupported_alps: upstream sent application settings that cannot be forwarded through the downstream TLS stack; select firefox-120");
            Ok (mkUpConn k u state, mods)
        end in
      (r, [Handshaked k u])
  end.

(** One turn of the loop, for the candidate number [k]. *)
Definition attempt (k : nat) (deadline : option Z) (c : Config) (host : str) (offered : list str) (ip : Addr)
    : result (UpConn * list str * str) * list event :=
  match CheckDestination (InterfaceAddrs k) ip (HostsAddress c) with
  | Err e => (Err e, [])
  | Ok _ =>
      let address := JoinHostPort (AddrString ip) (Itoa (Port (Config.Upstream c))) in
      match DialContext k address with
      | Err e => (Err (Errorf_w "upstream_connect: " e), [])
      | Ok _ =>
          let opened := Dialed k address :: match deadline with Some d => [SetDeadline k d] | None => [] end in
          match handshakeUpstream k c host offered None with
          | (Err e, evs) => (Err e, opened ++ evs ++ [Closed k])
          | (Ok (u, mods), evs) => (Ok (u, mods, address), opened ++ evs)
          end
      end
  end.
Fixpoint try_ips (k : nat) (deadline : option Z) (c : Config) (host : str) (offered : list str)
    (ips : list Addr) (last : option error) : result (UpConn * list str * str) * list event :=
  match ips with
  | [] => (Err (default (errors_New "dns_no_ipv4_address") last), [])
  | ip :: ips' =>
      match attempt k deadline c host offered ip with
      | (Ok x, evs) => (Ok x, evs)
      | (Err e, evs) =>
          let '(r, evs') := try_ips (S k) deadline c host offered ips' (Some e) in (r, evs ++ evs')
      end
  end.
Definition DialUpstream (Lookup : str → result (list Addr)) (deadline : option Z) (c : Config)
    (host : str) (offered : list str) : result (UpConn * list str * str) * list event :=
  match Lookup host with
  | Err e => (Err e, [])
  | Ok ips => try_ips 0 deadline c host offered ips None
  end.

(** ** Lemmas *)
(** The connections left open by a list of events. *)
Definition opens (evs : list event) : list nat :=
  omap (λ e, match e with Dialed k _ => Some k | _ => None end) evs.
Definition closes (evs : list event) : list nat :=
  omap (λ e, match e with Closed k => Some k | _ => None end) evs.
Definition left_open (evs : list event) : list nat := base.filter (λ k, k ∉ closes evs) (opens evs).

(** An address the proxy may dial for the configuration: a unicast IPv4 address that is
    neither one of the host's own nor the one the domains are redirected to. *)
Definition permitted (c : Config) (local : list Addr) (ip : Addr) : Prop :=
  ∃ v, ip = V4 v ∧ IsLoopback (V4 v) = false ∧ v ≠ 0 ∧ IsMulticast (V4 v) = false ∧ v ≠ 2 ^ 32 - 1 ∧
    V4 v ∉ local ∧ ParseAddr (HostsAddress c) ≠ Some (V4 v).

Lemma CheckDestination_permitted addrs ip c :
  CheckDestination addrs ip (HostsAddress c) = Ok tt →
  ∃ local, LocalAddresses addrs = Ok local ∧ permitted c local ip.
Proof.
  unfold CheckDestination. intros (local & Hl & Hg)%bind_Ok. apply guard_Ok in Hg. bools.
  exists local. split; [done|]. destruct ip as [|v|v z]; try done. exists v. split_and!; try done.
  - by intros ->.
  - intros ->. by apply (bool_decide_eq_false (V4 (2 ^ 32 - 1) = broadcast)).
  - intros Hp%ParseAddr_v4_string. destruct Hp as [Hp _].
    match goal with Hne : AddrString _ ≠ _ |- _ => by apply Hne end.
Qed.

(** What an attempt leaves, by its outcome. *)
Definition opened_by (c : Config) (ip : Addr) (k : nat) (a : str) : Prop :=
  ∃ local, LocalAddresses (InterfaceAddrs k) = Ok local ∧ permitted c local ip ∧
    a = JoinHostPort (AddrString ip) (Itoa (Port (Config.Upstream c))).
Record agreed (c : Config) (host : str) (offered : list str) (u : UpConn) (mods : list str) : Prop := {
  ag_hello : Profiles.New (UProfile (Config.Upstream c)) host (ALPNMode (Config.Upstream c)) offered None = Ok (u_hello u, mods);
  ag_state : HandshakeContext (u_id u) (u_hello u) = Ok (u_state u);
  ag_alpn : Compatible (NegotiatedProtocol (u_state u)) offered = true;
  ag_alps : PeerApplicationSettings (u_state u) = [] }.
Lemma handshakeUpstream_spec k c host offered r evs :
  handshakeUpstream k c host offered None = (r, evs) →
  (∀ e, e ∈ evs → ∃ h mods, e = Handshaked k h ∧
     Profiles.New (UProfile (Config.Upstream c)) host (ALPNMode (Config.Upstream c)) offered None = Ok (h, mods)) ∧
  ∀ u mods, r = Ok (u, mods) → u_id u = k ∧ agreed c host offered u mods ∧ evs = [Handshaked k (u_hello u)].
Proof.
  unfold handshakeUpstream. destruct (Profiles.New _ _ _ _ _) as [[h ms]|e] eqn:E;
    [|intros [= <- <-]; split; [by intros ? ?%not_elem_of_nil|by intros]].
  intros [= <- <-]. split.
  - intros e ->%list_elem_of_singleton. by exists h, ms.
  - intros u mods Hr. destruct (HandshakeContext k h) as [st|] eqn:Eh; [|done].
    apply bind_Ok in Hr as (_ & Hg1%guard_Ok & Hr). apply bind_Ok in Hr as (_ & Hg2%guard_Ok & [= <- <-]).
    split_and!; [done| |done]. split; [done|done|by bools|].
    simpl. destruct (PeerApplicationSettings st); [done|]. apply Nat.ltb_ge in Hg2; simpl in Hg2; lia.
Qed.
Lemma handshakes_no_conn k evs :
  (∀ e, e ∈ evs → ∃ h, e = Handshaked k h) → opens evs = [] ∧ closes evs = [].
Proof.
  induction evs as [|e evs IH]; [done|]. intros Hk.
  destruct (Hk e) as [h ->]; [left|]. apply IH. intros e' He'. apply Hk. by right.
Qed.
(** The events of one attempt: none, or a dial to a permitted address whose connection is
    left open exactly if the attempt succeeds. *)
Lemma attempt_events k d c host offered ip r evs :
  attempt k d c host offered ip = (r, evs) →
  opens evs ++ closes evs ⊆ [k] ∧
  left_open evs = match r with Ok (u, _, _) => [u_id u] | Err _ => [] end ∧
  (∀ j a, Dialed j a ∈ evs → j = k ∧ opened_by c ip k a) ∧
  (∀ j h, Handshaked j h ∈ evs → ∃ mods,
     Profiles.New (UProfile (Config.Upstream c)) host (ALPNMode (Config.Upstream c)) offered None = Ok (h, mods)).
Proof.
  unfold attempt. destruct (CheckDestination _ ip _) as [[]|e] eqn:Ec;
    [|intros [= <- <-]; split_and!; [apply list_subseteq_nil|done|by intros ? ? ?%not_elem_of_nil..]].
  destruct (DialContext k _) as [[]|e];
    [|intros [= <- <-]; split_and!; [apply list_subseteq_nil|done|by intros ? ? ?%not_elem_of_nil..]].
  apply CheckDestination_permitted in Ec.
  destruct (handshakeUpstream k c host offered None) as [rh eh] eqn:Eh.
  apply handshakeUpstream_spec in Eh as [Hev Hok].
  set (a := JoinHostPort _ _). set (dl := match d with Some x => [SetDeadline k x] | None => [] end).
  assert (opens dl = [] ∧ closes dl = []) as [Od Cd] by (by subst dl; destruct d).
  destruct (handshakes_no_conn k eh) as [Oh Ch]; [intros e (h & ms & -> & _)%Hev; by exists h|].
  assert (∀ tl, opens tl = [] → opens (Dialed k a :: dl ++ eh ++ tl) = [k] ∧
                closes (Dialed k a :: dl ++ eh ++ tl) = closes tl) as Hoc.
  { intros tl Ht. unfold opens, closes in *. csimpl.
    rewrite !omap_app, Od, Oh, Ht, Cd, Ch. done. }
  assert (∀ tl, opens tl = [] → (∀ j h, Handshaked j h ∉ tl) →
    (∀ j b, Dialed j b ∈ Dialed k a :: dl ++ eh ++ tl → j = k ∧ opened_by c ip k b) ∧
    (∀ j h, Handshaked j h ∈ Dialed k a :: dl ++ eh ++ tl → ∃ mods,
     Profiles.New (UProfile (Config.Upstream c)) host (ALPNMode (Config.Upstream c)) offered None = Ok (h, mods))) as Hin.
  { intros tl Ht Hh. split.
    - intros j b [[= -> ->]|Hin]%elem_of_cons; [by destruct Ec as (l & ? & ?); split; [|exists l]|].
      assert (j ∈ opens (dl ++ eh ++ tl)) as Hj by (apply list_elem_of_omap; by exists (Dialed j b)).
      unfold opens in *. rewrite !omap_app, Od, Oh, Ht in Hj. by apply not_elem_of_nil in Hj.
    - intros j h [?|[Hin|[Hin|Hin]%elem_of_app]%elem_of_app]%elem_of_cons; [done| | |by apply Hh in Hin].
      + subst dl. destruct d; [by apply list_elem_of_singleton in Hin|by apply not_elem_of_nil in Hin].
      + apply Hev in Hin as (? & mods & [= -> ->] & HN). by exists mods. }
  destruct rh as [[u ms]|e]; intros [= <- <-].
  - destruct (Hok u ms eq_refl) as (Hu & _ & _). destruct (Hoc [] eq_refl) as [Eo Ec'].
    destruct (Hin [] eq_refl) as [Hd Hh]; [by intros ? ? ?%not_elem_of_nil|]. rewrite app_nil_r in *.
    unfold left_open. rewrite Eo, Ec', Hu. done.
  - destruct (Hoc [Closed k] eq_refl) as [Eo Ec'].
    destruct (Hin [Closed k] eq_refl) as [Hd Hh]; [by intros ? ? ?%list_elem_of_singleton|].
    unfold left_open. rewrite Eo, Ec'. split_and!; [set_solver| |done|done].
    rewrite filter_cons_False; [done|]. intros Hk. apply Hk. left.
Qed.
Lemma left_open_app k evs evs' :
  opens evs ++ closes evs ⊆ [k] → (∀ j, j ∈ opens evs' ++ closes evs' → (k < j)%nat) →
  left_open (evs ++ evs') = left_open evs ++ left_open evs'.
Proof.
  intros Hk Hj. unfold left_open. unfold opens, closes. rewrite !omap_app, filter_app.
  fold (opens evs) (opens evs') (closes evs) (closes evs').
  assert (∀ j, j ∈ opens evs ++ closes evs → j = k) as Hk' by set_solver.
  f_equal; apply filter_ext_in; intros j Hin; rewrite not_elem_of_app; (split; [tauto|]); intros Hn; split; try done.
  - intros Hc. assert (j = k) by (apply Hk'; set_solver). assert (k < j)%nat by (apply Hj; set_solver). lia.
  - intros Hc. assert (j = k) by (apply Hk'; set_solver). assert (k < j)%nat by (apply Hj; set_solver). lia.
Qed.

Section Loop.
Variables (deadline : option Z) (c : Config) (host : str) (offered : list str).
Notation attempt' k ip := (attempt k deadline c host offered ip).
Lemma try_ips_events ips : ∀ k last r evs,
  try_ips k deadline c host offered ips last = (r, evs) →
  (∀ j, j ∈ opens evs ++ closes evs → (k <= j)%nat) ∧
  left_open evs = match r with Ok (u, _, _) => [u_id u] | Err _ => [] end ∧
  (∀ j a, Dialed j a ∈ evs → ∃ ip, (k ≤ j)%nat ∧ ips !! (j - k)%nat = Some ip ∧ opened_by c ip j a) ∧
  (∀ j h, Handshaked j h ∈ evs → ∃ mods,
     Profiles.New (UProfile (Config.Upstream c)) host (ALPNMode (Config.Upstream c)) offered None = Ok (h, mods)).
Proof.
  induction ips as [|ip ips IH]; intros k last r evs; simpl.
  { intros [= <- <-]. split_and!; [|done|..]; by intros ? ?%not_elem_of_nil || intros ? ? ?%not_elem_of_nil. }
  destruct (attempt' k ip) as [ra ea] eqn:Ea. apply attempt_events in Ea as (Hid & Hl & Hd & Hh).
  destruct ra as [x|e].
  - intros [= <- <-]. split_and!; [|done| |done].
    + intros j Hj. apply Hid, list_elem_of_singleton in Hj. lia.
    + intros j a Hin. apply Hd in Hin as [-> Ho]. exists ip. by rewrite Nat.sub_diag.
  - destruct (try_ips (S k) _ _ _ _ _ _) as [r' evs'] eqn:Et. intros [= <- <-].
    apply IH in Et as (Hid' & Hl' & Hd' & Hh'). split_and!.
    + intros j Hj. unfold opens, closes in *. rewrite !omap_app in Hj.
      assert (j ∈ [k] ∨ (S k <= j)%nat) as [->%list_elem_of_singleton|?]; [|lia|lia].
      rewrite !elem_of_app in Hj. destruct Hj as [[Hj|Hj]|[Hj|Hj]];
        [left; apply Hid|right; apply Hid'|left; apply Hid|right; apply Hid'];
        apply elem_of_app; auto.
    + rewrite (left_open_app k), Hl, Hl'; [done|done|]. intros j Hj. apply Hid' in Hj. lia.
    + intros j a [Hin|Hin]%elem_of_app.
      * apply Hd in Hin as [-> Ho]. exists ip. by rewrite Nat.sub_diag.
      * apply Hd' in Hin as (ip' & Hle & Hip & Ho). exists ip'. split_and!; [lia| |done].
        by replace (j - k)%nat with (S (j - S k)) by lia.
    + intros j h [Hin|Hin]%elem_of_app; eauto.
Qed.
(** The loop stops at the first candidate that works. *)
Lemma try_ips_Ok ips k last x :
  (try_ips k deadline c host offered ips last).1 = Ok x ↔
  ∃ j ip, ips !! j = Some ip ∧ (attempt' (k + j) ip).1 = Ok x ∧
    ∀ i ip', (i < j)%nat → ips !! i = Some ip' → is_ok (attempt' (k + i) ip').1 = false.
Proof.
  revert k last. induction ips as [|ip ips IH]; intros k last; simpl.
  { split; [done|]. by intros (j & ip & ? & _). }
  destruct (attempt' k ip) as [[y|e] ea] eqn:Ea; simpl.
  - split.
    + intros [= ->]. exists 0%nat, ip. rewrite Nat.add_0_r, Ea. split_and!; [done|done|lia].
    + intros ([|j] & ip' & Hip & Hx & Hf).
      * injection Hip as <-. by rewrite Nat.add_0_r, Ea in Hx.
      * specialize (Hf 0%nat ip). rewrite Nat.add_0_r, Ea in Hf. ospecialize (Hf _ _); [lia|done|done].
  - specialize (IH (S k) (Some e)). destruct (try_ips (S k) _ _ _ _ _ _) as [r' evs']. simpl in *. rewrite IH. split.
    + intros (j & ip' & Hip & Hx & Hf). exists (S j), ip'. rewrite Nat.add_succ_r. split_and!; [done|done|].
      intros [|i] ip'' Hi Hip''; [|rewrite Nat.add_succ_r; apply (Hf i); [lia|done]].
      injection Hip'' as <-. by rewrite Nat.add_0_r, Ea.
    + intros ([|j] & ip' & Hip & Hx & Hf).
      * injection Hip as <-. by rewrite Nat.add_0_r, Ea in Hx.
      * exists j, ip'. rewrite Nat.add_succ_r in Hx. split_and!; [done|done|].
        intros i ip'' Hi Hip''. specialize (Hf (S i) ip''). rewrite Nat.add_succ_r in Hf. apply Hf; [lia|done].
Qed.
End Loop.
Lemma attempt_Ok k deadline c host offered ip u mods a :
  (attempt k deadline c host offered ip).1 = Ok (u, mods, a) →
  u_id u = k ∧ agreed c host offered u mods ∧ opened_by c ip k a.
Proof.
  unfold attempt. destruct (CheckDestination _ ip _) as [[]|e] eqn:Ec; [|done].
  apply CheckDestination_permitted in Ec as (local & Hl & Hp).
  destruct (DialContext k _) as [[]|e]; [|done].
  destruct (handshakeUpstream k c host offered None) as [[[u' m']|e] eh] eqn:Eh; [|done].
  apply handshakeUpstream_spec in Eh as [_ Hok]. destruct (Hok _ _ eq_refl) as (Hu & Hag & _).
  simpl. intros [= <- <- <-]. split_and!; [done|done|by exists local].
Qed.
Lemma New_conn name host mode offered roots h mods :
  Profiles.New name host mode offered roots = Ok (h, mods) →
  Profiles.ServerName h = host ∧ Profiles.MinVersion h = VersionTLS12 ∧ Profiles.RootCAs h = roots.
Proof.
  unfold Profiles.New. intros (p & _ & Hb)%bind_Ok. apply bind_Ok in Hb as (exts & _ & Hb).
  apply bind_Ok in Hb as ([exts' ms] & _ & Hb). by case_match; simplify_eq.
Qed.

(** C7: The dial is confined and leaks nothing. Every TCP connection [DialUpstream] opens
    goes to one of the host's resolved addresses, at the configured port, and only to a
    unicast IPv4 address that is not loopback, not one of the machine's own addresses and
    not the address the domains are redirected to, so that the proxy never dials itself.
    Every ClientHello names the requested host, offers at least TLS 1.2 and is checked
    against the system's roots. On success exactly the returned connection is left open,
    on failure none. *)
Theorem DialUpstream_safe Lookup deadline c host offered r evs :
  DialUpstream Lookup deadline c host offered = (r, evs) →
  (∀ k a, Dialed k a ∈ evs → ∃ ips ip local,
     Lookup host = Ok ips ∧ ips !! k = Some ip ∧ LocalAddresses (InterfaceAddrs k) = Ok local ∧
     permitted c local ip ∧ a = JoinHostPort (AddrString ip) (Itoa (Port (Config.Upstream c)))) ∧
  (∀ k h, Handshaked k h ∈ evs →
     Profiles.ServerName h = host ∧ Profiles.MinVersion h = VersionTLS12 ∧ Profiles.RootCAs h = None) ∧
  left_open evs = match r with Ok (u, _, _) => [u_id u] | Err _ => [] end.
Proof.
  unfold DialUpstream. destruct (Lookup host) as [ips|e] eqn:El;
    [|by intros [= <- <-]; split_and!; [intros ? ? ?%not_elem_of_nil..|]].
  intros (_ & Hl & Hd & Hh)%try_ips_events. split_and!; [| |done].
  - intros k a Hin. apply Hd in Hin as (ip & _ & Hip & local & Hloc & Hp & ->).
    rewrite Nat.sub_0_r in Hip. by exists ips, ip, local.
  - intros k h Hin. apply Hh in Hin as (mods & HN). by eapply New_conn.
Qed.

(** C21: A successful dial is an agreed connection: it is on the first of the host's
    addresses that works, its ClientHello is the profile's, its handshake succeeded, the
    protocol the upstream selected is one the client can speak, and no application
    settings were sent that could not be forwarded. *)
Theorem DialUpstream_agreed Lookup deadline c host offered u mods a :
  (DialUpstream Lookup deadline c host offered).1 = Ok (u, mods, a) →
  ∃ ips ip, Lookup host = Ok ips ∧ ips !! u_id u = Some ip ∧
    a = JoinHostPort (AddrString ip) (Itoa (Port (Config.Upstream c))) ∧
    Profiles.New (UProfile (Config.Upstream c)) host (ALPNMode (Config.Upstream c)) offered None = Ok (u_hello u, mods) ∧
    HandshakeContext (u_id u) (u_hello u) = Ok (u_state u) ∧
    Compatible (NegotiatedProtocol (u_state u)) offered = true ∧
    PeerApplicationSettings (u_state u) = [] ∧
    ∀ j ip', (j < u_id u)%nat → ips !! j = Some ip' →
      is_ok (attempt j deadline c host offered ip').1 = false.
Proof.
  unfold DialUpstream. destruct (Lookup host) as [ips|e]; [|done].
  intros (j & ip & Hip & Ha & Hf)%try_ips_Ok. simpl in Ha, Hf.
  destruct (attempt_Ok _ _ _ _ _ _ _ _ _ Ha) as (Hu & [? ? ? ?] & local & _ & _ & ->).
  exists ips, ip. rewrite Hu in *. by split_and!.
Qed.
End Upstream.

(** ** Witnesses *)
(** The first address is the machine's own, the second refuses, the third answers. *)
Definition demo_network : Network := {|
  InterfaceAddrs _ := Ok ["192.168.1.7/24" : str];
  DialContext k _ := if (k =? 1)%nat then Err (errors_New "connection refused") else Ok tt;
  HandshakeContext _ _ := Ok (mkState 772 "h2" []) |}.
Definition demo_ips : list Addr := [V4 3232235783; V4 167772161; V4 167772162].
Definition demo_dial : result (UpConn * list str * str) * list event :=
  @DialUpstream ascii_only Profiles.demo_utls demo_network (λ _, Ok demo_ips) (Some 10) (Defaults "linux")
    "tls.peet.ws" ["h2" : str; "http/1.1" : str].
Definition demo_up : UpConn := mkUpConn 2
  (mkUConn "tls.peet.ws" VersionTLS12 None Profiles.demo_spec) (mkState 772 "h2" []).
Lemma DialUpstream_safe_witness :
  demo_dial.2 = [Dialed 2 "10.0.0.2:443"; SetDeadline 2 10; Handshaked 2 (u_hello demo_up)] ∧
  left_open demo_dial.2 = [2%nat].
Proof.
  split; [vm_compute; reflexivity|].
  exact (proj2 (proj2 (@DialUpstream_safe ascii_only Profiles.demo_utls demo_network (λ _, Ok demo_ips) (Some 10)
    (Defaults "linux") "tls.peet.ws" ["h2" : str; "http/1.1" : str] (Ok (demo_up, [], "10.0.0.2:443" : str))
    demo_dial.2 ltac:(vm_compute; reflexivity)))).
Defined.
Lemma DialUpstream_agreed_witness :
  demo_dial.1 = Ok (demo_up, [], "10.0.0.2:443" : str) ∧
  Compatible "h2" ["h2" : str; "http/1.1" : str] = true.
Proof.
  assert (demo_dial.1 = Ok (demo_up, [], "10.0.0.2:443" : str)) as E by (vm_compute; reflexivity).
  split; [exact E|].
  destruct (@DialUpstream_agreed ascii_only Profiles.demo_utls demo_network (λ _, Ok demo_ips) (Some 10)
    (Defaults "linux") "tls.peet.ws" ["h2" : str; "http/1.1" : str] demo_up [] "10.0.0.2:443" E)
    as (ips & ip & _ & _ & _ & _ & _ & Hc & _). exact Hc.
Defined.
