(* ===== verification/CA.v ===== *)
(** * CA: the certificate authority (src/internal/ca/ca.go)

    Certificates are records of the fields the code sets and reads. The clock and the random
    choices of a call are its arguments. PEM and DER are a class: how certificates and keys
    are written as bytes and read back. *)
From S2P Require Import Prelude Strs Fsutil.

Record Certificate := mkCert {
  SerialNumber : Z; CommonName : str; DNSNames : list str;
  NotBefore : Z; NotAfter : Z;                     (* instants, in nanoseconds *)
  IsCA : bool; BasicConstraintsValid : bool; MaxPathLen : Z; MaxPathLenZero : bool;
  KeyUsage : Z; ServerAuth : bool;
  PublicKey : Z; SignedBy : Z }.
Definition KeyUsageDigitalSignature : Z := 1.
Definition KeyUsageCertSign : Z := 32.
Definition KeyUsageCRLSign : Z := 64.

(** Private keys: the key pair's number. *)
Inductive PrivateKey := ECDSA (k : Z) | OtherKey (k : Z).
Definition public (k : PrivateKey) : Z := match k with ECDSA k | OtherKey k => k end.

Class Encoding := {
  cert_pem : Certificate → str;
  parse_cert : str → option Certificate;           (* pem.Decode and x509.ParseCertificate *)
  key_pem : PrivateKey → str;
  parse_key : str → option PrivateKey;
  fingerprint : Certificate → str;                 (* SHA-256 of the DER bytes, in hex *)
  subject_string : Certificate → str }.

(** The random choices of one call, any of which can fail: a new key, a serial number, the
    signature; and which entry a full cache drops first. *)
Record Entropy := mkEntropy {
  e_key : result Z; e_serial : result Z; e_sign : option error; e_pick : nat }.

(** Certificates carry whole seconds. *)
Definition whole_seconds (t : Z) : Z := t / Second * Second.
Definition CreateCertificate (t : Certificate) (pub : Z) (signer : Z) (e : option error) : result Certificate :=
  match e with
  | Some e => Err e
  | None => Ok (mkCert (SerialNumber t) (CommonName t) (DNSNames t) (whole_seconds (NotBefore t))
                  (whole_seconds (NotAfter t)) (IsCA t) (BasicConstraintsValid t) (MaxPathLen t)
                  (MaxPathLenZero t) (KeyUsage t) (ServerAuth t) pub signer)
  end.

(** ** [Init] and [Inspect] *)
Record Info := mkInfo { i_SchemaVersion : Z; i_Subject : str; i_NotBefore : Z; i_NotAfter : Z;
                        i_SHA256 : str; i_Certificate : str }.
Definition max_validity : Z := 20 * 365 * 24 * Hour.
Definition root_template (now validity serial : Z) (name : str) : Certificate :=
  mkCert serial name [] (now - 5 * Minute) (now + validity) true true 0 true
    (Z.lor KeyUsageCertSign KeyUsageCRLSign) false 0 0.
Definition not_valid : error := errors_New "CA is not currently valid".

Section Files.
Context `{Kernel, Encoding}.
Definition Inspect (path : str) : M Info :=
  b ← ReadFile path;
  c ← lift (of_option (errors_New "invalid PEM certificate") (parse_cert b));
  mret (mkInfo 1 (subject_string c) (NotBefore c) (NotAfter c) (fingerprint c) path).
(** [os.Lstat] must say that the file is missing; any other answer refuses it. *)
Definition absent (p : str) : M unit :=
  r ← try (Lstat p);
  let refuse := errors_New ("refusing to overwrite existing CA output " ++ p) in
  match r with
  | Ok _ => fail refuse
  | Err e => lift (guard_err (negb (errors_Is e ErrNotExist)) refuse)
  end.
Definition Init (dir name : str) (validity now : Z) (rnd : Entropy) : M Info :=
  _ ← lift (guard_err ((validity <=? 0) || (max_validity <? validity))
              (errors_New "CA validity must be positive and at most 20 years"));
  _ ← lift (guard_err (name == "") (errors_New "CA name must not be empty"));
  _ ← PrivateDir dir;
  let certPath := dir ++ "/ca.crt" in
  let keyPath := dir ++ "/ca.key" in
  _ ← absent certPath;
  _ ← absent keyPath;
  k ← lift (e_key rnd);
  s ← lift (e_serial rnd);
  c ← lift (CreateCertificate (root_template now validity s name) k k (e_sign rnd));
  _ ← Exclusive keyPath (key_pem (ECDSA k)) 384;
  r ← try (Exclusive certPath (cert_pem c) 420);
  match r with
  | Err e => _ ← ignore (Remove keyPath); fail e
  | Ok _ => Inspect certPath
  end.

(** ** [Load] *)
Record Authority := mkAuthority { cert : Certificate; key : Z; cache : gmap str Certificate; max : nat }.
Definition LoadX509KeyPair (certPath keyPath : str) : M (Certificate * PrivateKey) :=
  cb ← ReadFile certPath;
  kb ← ReadFile keyPath;
  c ← lift (of_option (errors_New "tls: failed to parse certificate") (parse_cert cb));
  k ← lift (of_option (errors_New "tls: failed to parse private key") (parse_key kb));
  _ ← lift (guard_err (negb (PublicKey c =? public k)) (errors_New "tls: private key does not match public key"));
  mret (c, k).
Definition valid_at (c : Certificate) (now : Z) : bool := negb ((now <? NotBefore c) || negb (now <? NotAfter c)).
Definition Load (certPath keyPath : str) (now : Z) : M Authority :=
  _ ← Regular keyPath;
  '(_, i) ← Stat keyPath;
  _ ← lift (guard_err (negb (Z.land (i_mode i) 63 =? 0)) (errors_New ("CA key must have mode 600: " ++ keyPath)));
  '(c, pk) ← LoadX509KeyPair certPath keyPath;
  _ ← lift (guard_err (negb (IsCA c) || negb (BasicConstraintsValid c) || (Z.land (KeyUsage c) KeyUsageCertSign =? 0))
              (errors_New "certificate is not a signing CA"));
  _ ← lift (guard_err (negb (valid_at c now)) not_valid);
  match pk with
  | ECDSA k => mret (mkAuthority c k ∅ 4096)
  | OtherKey _ => fail (errors_New "expected ECDSA CA key")
  end.
End Files.

(** ** [Certificate] *)
Definition set_cache (a : Authority) (m : gmap str Certificate) : Authority := mkAuthority (cert a) (key a) m (max a).
Definition leaf_template (ca : Certificate) (now serial : Z) (host : str) : Certificate :=
  let end_ := if NotAfter ca <? now + 30 * 24 * Hour then NotAfter ca else now + 30 * 24 * Hour in
  let start := if now - 5 * Minute <? NotBefore ca then NotBefore ca else now - 5 * Minute in
  mkCert serial host [host] start end_ false true 0 false KeyUsageDigitalSignature true 0 0.
(** A full cache drops the first key of the map's iteration, which Go chooses. *)
Definition evict (pick : nat) (m : gmap str Certificate) : gmap str Certificate :=
  let ks := (map_to_list m).*1 in
  match ks !! (pick mod length ks)%nat with Some k => delete k m | None => m end.
Definition issue (a : Authority) (now : Z) (rnd : Entropy) (host : str) : result Certificate * Authority :=
  match (k ← e_key rnd; s ← e_serial rnd;
         CreateCertificate (leaf_template (cert a) now s host) k (key a) (e_sign rnd)) with
  | Err e => (Err e, a)
  | Ok c =>
      let m := if (max a <=? size (cache a))%nat then evict (e_pick rnd) (cache a) else cache a in
      (Ok c, set_cache a (<[host := c]> m))
  end.
Definition Certificate_for (a : Authority) (now : Z) (rnd : Entropy) (host : str) : result Certificate * Authority :=
  if (now <? NotBefore (cert a)) || negb (now <? NotAfter (cert a)) then (Err not_valid, a)
  else match cache a !! host with
       | Some c => if now + 24 * Hour <? NotAfter c then (Ok c, a) else issue a now rnd host
       | None => issue a now rnd host
       end.

(** ** The certificates issued *)
Record leaf_ok (ca : Certificate) (k : Z) (host : str) (now : Z) (c : Certificate) : Prop := {
  lf_names : DNSNames c = [host] ∧ CommonName c = host;
  lf_signed : SignedBy c = k;
  lf_use : IsCA c = false ∧ ServerAuth c = true ∧ KeyUsage c = KeyUsageDigitalSignature;
  lf_from : NotBefore ca ≤ NotBefore c ≤ now;
  lf_to : NotAfter c ≤ NotAfter ca ∧ NotAfter c ≤ now + 30 * 24 * Hour }.
(** [now] is no earlier than any call so far. *)
Record authority_ok (a : Authority) (now : Z) : Prop := {
  au_seconds : whole_seconds (NotBefore (cert a)) = NotBefore (cert a) ∧
               whole_seconds (NotAfter (cert a)) = NotAfter (cert a);
  au_max : (0 < max a)%nat;
  au_size : (size (cache a) ≤ max a)%nat;
  au_leaf : ∀ host c, cache a !! host = Some c → leaf_ok (cert a) (key a) host now c }.

Lemma whole_seconds_le t : whole_seconds t ≤ t < whole_seconds t + Second.
Proof.
  unfold whole_seconds. assert (0 < Second) by done.
  pose proof (Z.mul_div_le t Second). pose proof (Z.mul_succ_div_gt t Second). lia.
Qed.
Lemma whole_seconds_mono s t : s ≤ t → whole_seconds s ≤ whole_seconds t.
Proof. intros. unfold whole_seconds. apply Z.mul_le_mono_nonneg_r; [done|]. by apply Z.div_le_mono. Qed.
Lemma leaf_ok_later ca k host now now' c : leaf_ok ca k host now c → now ≤ now' → leaf_ok ca k host now' c.
Proof. intros [? ? ? ? ?] ?. split; [done..|lia|lia]. Qed.
Lemma evict_size pick m : (0 < size m)%nat → S (size (evict pick m)) = size m.
Proof.
  intros Hm. unfold evict. assert (length (map_to_list m).*1 = size m) as Hl
    by (by rewrite length_fmap, length_map_to_list).
  destruct ((map_to_list m).*1 !! (pick mod length (map_to_list m).*1)%nat) as [k|] eqn:E.
  - apply list_elem_of_lookup_2, list_elem_of_fmap in E as ([k' c] & -> & Hin).
    apply elem_of_map_to_list in Hin. simpl.
    rewrite map_size_delete_Some by done. lia.
  - apply lookup_ge_None_1 in E. rewrite Hl in E. pose proof (Nat.mod_upper_bound pick (size m)). lia.
Qed.
Lemma evict_sub pick m : evict pick m ⊆ m.
Proof. unfold evict. case_match; [apply delete_subseteq|done]. Qed.

Lemma issue_spec a now rnd host r a' :
  authority_ok a now → NotBefore (cert a) ≤ now < NotAfter (cert a) → issue a now rnd host = (r, a') →
  match r with
  | Ok c => leaf_ok (cert a) (key a) host now c ∧ now < NotAfter c ∧
            (now + 24 * Hour < NotAfter c ∨ NotAfter c = NotAfter (cert a)) ∧
            authority_ok a' now ∧ cache a' !! host = Some c ∧ cert a' = cert a ∧ key a' = key a
  | Err _ => a' = a
  end.
Proof.
  intros [[Hs1 Hs2] Hm Hsz Hl] Hv. unfold issue.
  destruct (e_key rnd) as [k|e]; [|by intros [= <- <-]]. destruct (e_serial rnd) as [s|e]; [|by intros [= <- <-]].
  unfold mbind, result_bind, CreateCertificate. destruct (e_sign rnd) as [e|]; [by intros [= <- <-]|].
  intros [= <- <-]. set (c := mkCert _ _ _ _ _ _ _ _ _ _ _ _ _).
  set (T := leaf_template (cert a) now s host) in *.
  assert (NotBefore c = whole_seconds (NotBefore T)) as Ecb by done.
  assert (NotAfter c = whole_seconds (NotAfter T)) as Ece by done.
  assert (NotAfter T = NotAfter (cert a) ∧ NotAfter (cert a) ≤ now + 30 * 24 * Hour ∨
          NotAfter T = now + 30 * 24 * Hour ∧ NotAfter T ≤ NotAfter (cert a)) as Hend.
  { subst T. simpl. case_if; bools; [left|right]; lia. }
  assert (NotBefore (cert a) ≤ NotBefore T ≤ now) as Hstart.
  { subst T. simpl. unfold Minute, Second, Millisecond. case_if; bools; lia. }
  assert (leaf_ok (cert a) (key a) host now c) as Hc.
  { assert (NotAfter T ≤ NotAfter (cert a) ∧ NotAfter T ≤ now + 30 * 24 * Hour) as [He1 He2] by lia.
    split; [done|done|done|rewrite Ecb|rewrite Ece].
    - pose proof (whole_seconds_mono _ _ (proj1 Hstart)). pose proof (whole_seconds_le (NotBefore T)). lia.
    - pose proof (whole_seconds_mono _ _ He1). pose proof (whole_seconds_le (NotAfter T)). lia. }
  assert (now + 24 * Hour < NotAfter c ∨ NotAfter c = NotAfter (cert a)) as Hlong.
  { rewrite Ece. destruct Hend as [[-> _]|[-> _]]; [by right|left].
    pose proof (whole_seconds_le (now + 30 * 24 * Hour)). unfold Hour, Minute, Second, Millisecond in *. lia. }
  split_and!; [done| |done| |by simpl; rewrite lookup_insert_eq|done|done].
  { destruct Hlong as [?|E]; [|lia]. unfold Hour, Minute, Second, Millisecond in *. lia. }
  set (m := if (max a <=? _)%nat then evict _ _ else _). assert (m ⊆ cache a) as Hsub by (subst m; case_if; [apply evict_sub|done]).
  split; simpl; [done|done| |].
  - assert (size (<[host := c]> m) ≤ S (size m))%nat as Hins.
    { rewrite map_size_insert. case_match; simpl; lia. }
    assert (S (size m) ≤ max a)%nat; [|lia]. subst m. case_if.
    + apply Nat.leb_le in Heqb. rewrite evict_size; lia.
    + apply Nat.leb_gt in Heqb. lia.
  - intros h d [[<- <-]|[? Hd]]%lookup_insert_Some; [done|]. apply Hl. by eapply lookup_weaken.
Qed.

Lemma Certificate_for_spec a t now rnd host r a' :
  authority_ok a t → t ≤ now → Certificate_for a now rnd host = (r, a') →
  authority_ok a' now ∧ cert a' = cert a ∧ key a' = key a ∧
  match r with
  | Ok c => leaf_ok (cert a) (key a) host now c ∧ NotBefore c ≤ now < NotAfter c ∧
            (now + 24 * Hour < NotAfter c ∨ NotAfter c = NotAfter (cert a)) ∧ cache a' !! host = Some c
  | Err _ => a' = a
  end.
Proof.
  intros Ha Ht. assert (authority_ok a now) as Hn.
  { destruct Ha as [? ? ? Hl]. split; [done..|]. intros h c Hc. eapply leaf_ok_later; [by apply Hl|done]. }
  unfold Certificate_for. destruct ((now <? _) || _) eqn:Ev; [by intros [= <- <-]|]. bools.
  assert (∀ h, issue a now rnd h = (r, a') → authority_ok a' now ∧ cert a' = cert a ∧ key a' = key a ∧
    match r with
    | Ok c => leaf_ok (cert a) (key a) h now c ∧ NotBefore c ≤ now < NotAfter c ∧
              (now + 24 * Hour < NotAfter c ∨ NotAfter c = NotAfter (cert a)) ∧ cache a' !! h = Some c
    | Err _ => a' = a end) as Hi.
  { intros h E. apply issue_spec in E; [|done|lia]. destruct r as [c|e]; [|by subst a'].
    destruct E as (Hc & ? & ? & ? & ? & ? & ?). destruct (lf_from _ _ _ _ _ Hc). by split_and!. }
  destruct (cache a !! host) as [c|] eqn:Ec; [|apply Hi].
  destruct (now + 24 * Hour <? NotAfter c) eqn:Ed; [|apply Hi]. bools. intros [= <- <-].
  pose proof (au_leaf _ _ Hn host c Ec) as Hc. destruct (lf_from _ _ _ _ _ Hc).
  split_and!; try done; [|by left]. unfold Hour, Minute, Second, Millisecond in *. lia.
Qed.

(** C9: The certificates handed out are right for the host they are asked for. Over any
    sequence of calls with a clock that does not go back, a certificate obtained from the
    authority, fresh or cached, names exactly the requested host, is signed by the CA's
    key, is for servers only and not itself a CA, is valid now and throughout lies within
    the CA's own validity and 30 days, and is good for another day unless the CA itself
    expires sooner. It is cached under the host, the cache stays within its bound, and a
    call that fails changes nothing. *)
Theorem Certificate_for_ok a t now rnd host r a' :
  authority_ok a t → t ≤ now → Certificate_for a now rnd host = (r, a') →
  authority_ok a' now ∧ cert a' = cert a ∧ key a' = key a ∧
  match r with
  | Ok c => leaf_ok (cert a) (key a) host now c ∧ NotBefore c ≤ now < NotAfter c ∧
            (now + 24 * Hour < NotAfter c ∨ NotAfter c = NotAfter (cert a)) ∧ cache a' !! host = Some c
  | Err _ => a' = a
  end.
Proof. apply Certificate_for_spec. Qed.

(** ** The files *)
Section FileLemmas.
Context `{Kernel, Encoding}.
Variables (D : gmap str Z) (kept : files) (dir name : str) (validity now : Z) (rnd : Entropy).
Hypothesis alone : quiet.
Notation certPath := (dir ++ "/ca.crt").
Notation keyPath := (dir ++ "/ca.key").
Notation good := (λ _ : fs, True).
(** What [Init] leaves when it succeeds. *)
Definition inited (s : fs) (k : Z) (c : Certificate) : Prop :=
  0 < validity ≤ max_validity ∧ e_key rnd = Ok k ∧
  (∃ serial, e_serial rnd = Ok serial ∧
     CreateCertificate (root_template now validity serial name) k k None = Ok c) ∧
  inode_at s keyPath = Some (exclusive_file 384 (key_pem (ECDSA k))) ∧
  inode_at s certPath = Some (exclusive_file 420 (cert_pem c)).
Lemma hoare_frame_query {A} P (f : fs → result A) :
  hoare good P (query f) (λ r s, P s ∧ (r = f s ∨ ∃ e, r = Err e)).
Proof. apply hoare_query_fault; [done|done|intros; by split; [|left]|intros; split; [done|right; by eexists]]. Qed.
Lemma hoare_absent p : hoare good (keeps kept D) (absent p) (λ _ s, keeps kept D s).
Proof.
  unfold absent. apply hoare_keeps_bind.
  - eapply hoare_conseq; [by apply hoare_keeps_try, hoare_keeps_query|done|]. by intros [r|e] s.
  - intros [i|e]; apply hoare_keeps_lift.
Qed.
Lemma paths_differ : certPath ≠ keyPath.
Proof. intros E%app_inv_head. discriminate E. Qed.

(** A file just made is a file to keep, beside the ones kept before. *)
Lemma hoare_keep_made {A} (K : files) p fd i (m : M A) Q :
  ((∀ s, keeps (with_file K p fd i) D s → keeps K D s) → (∀ m j, K p = Some (m, j) → False) →
   hoare good (keeps (with_file K p fd i) D) m Q) →
  hoare good (made D K p fd i) m Q.
Proof.
  intros Hm. eapply hoare_conseq with (P := λ s, (∀ m j, K p = Some (m, j) → False) ∧ keeps (with_file K p fd i) D s);
    [|by intros s [? ? ?]|intros r s Hr; exact Hr].
  apply hoare_pure. intros Hno. apply Hm; [|exact Hno]. intros s Hs. eapply keeps_with; [exact Hs|]. intros ? ? Hq. by apply Hno in Hq.
Qed.
Lemma with_file_eq (K : files) p n i : with_file K p n i p = Some (n, i).
Proof. unfold with_file. by rewrite decide_True. Qed.
Lemma hoare_write_pair k c :
  hoare good (keeps kept D)
    (_ ← Exclusive keyPath (key_pem (ECDSA k)) 384;
     r ← try (Exclusive certPath (cert_pem c) 420);
     match r with
     | Err e => _ ← ignore (Remove keyPath); fail e
     | Ok _ => Inspect certPath
     end)
    (λ r s, keeps kept D s ∧ (is_ok r = true →
       inode_at s keyPath = Some (exclusive_file 384 (key_pem (ECDSA k))) ∧
       inode_at s certPath = Some (exclusive_file 420 (cert_pem c)))).
Proof.
  eapply hoare_bind; [by apply hoare_Exclusive|by intros e s Hs|]. intros [].
  apply hoare_exists. intros fd. apply hoare_keep_made. set (ki := exclusive_file 384 _). set (ci := exclusive_file 420 _).
  set (K1 := with_file kept keyPath fd ki). intros Hk1k Hside.
  eapply hoare_bind with (R := λ x s, match x with
    | Ok (Ok _) => ∃ fd', made D K1 certPath fd' ci s | Ok (Err _) => keeps K1 D s | Err _ => False end).
  { eapply hoare_try; [by apply (hoare_Exclusive D good K1)|]. by intros [[]|e] s. }
  { by intros e s Hs. }
  intros [[]|e].
  - apply hoare_exists. intros fd'. apply hoare_keep_made. set (K2 := with_file K1 certPath fd' ci). intros Hk2k1 _.
    assert (K2 keyPath = Some (fd, ki)) as Hk2.
    { unfold K2, with_file. rewrite decide_False; [by apply with_file_eq|]. intros E. by apply paths_differ. }
    eapply hoare_conseq with (P := keeps K2 D) (Q := λ _ s, keeps K2 D s); [|done|].
    + unfold Inspect. apply hoare_keeps_bind; [by apply hoare_keeps_query|]. intros b.
      apply hoare_keeps_bind; [apply hoare_keeps_lift|]. intros x. by apply hoare_ret.
    + intros r s Hs. split; [by apply Hk1k, Hk2k1|]. intros _.
      split; [by eapply keeps_inode_at|by eapply keeps_inode_at; [|apply with_file_eq]].
  - eapply hoare_bind with (R := λ x s, match x with Ok _ => keeps kept D s | Err _ => False end).
    { apply hoare_ignore. eapply (hoare_keeps D good kept); [done|done|done|..].
      - intros s Hs. cbv beta. pose proof (Hk1k s Hs). destruct (dents s !! keyPath); [|done].
        pose proof (keeps_delete D _ _ _ _ _ Hs Hside). done.
      - intros j s e' Hs. by apply Hk1k in Hs. }
    { by intros e' s Hs. }
    intros []. apply hoare_lift. by intros s Hs.
Qed.
Lemma hoare_Init :
  hoare good (keeps kept D) (Init dir name validity now rnd)
    (λ r s, keeps kept D s ∧ (is_ok r = true → ∃ k c, inited s k c)).
Proof.
  assert (∀ (X : Type) (e : error) s, keeps kept D s →
    keeps kept D s ∧ (is_ok (Err (A := X) e) = true → ∃ k c, inited s k c)) as Hstop by done.
  unfold Init. apply hoare_bind_lift; [|by intros; apply Hstop]. intros [] Hv%guard_Ok. bools.
  apply hoare_bind_lift; [|by intros; apply Hstop]. intros [] _.
  eapply hoare_bind; [by apply hoare_PrivateDir|by intros; apply Hstop|]. intros [].
  eapply hoare_bind; [by apply hoare_absent|by intros; apply Hstop|]. intros [].
  eapply hoare_bind; [by apply hoare_absent|by intros; apply Hstop|]. intros [].
  apply hoare_bind_lift; [|by intros; apply Hstop]. intros k Ek.
  apply hoare_bind_lift; [|by intros; apply Hstop]. intros sr Es.
  apply hoare_bind_lift; [|by intros; apply Hstop]. intros c Ec.
  eapply hoare_conseq; [apply (hoare_write_pair k c)|done|]. intros r s [Hs Hok]. split; [done|].
  intros Hr. destruct (Hok Hr). exists k, c. split; [lia|]. split_and!; try done. exists sr. split; [done|].
  unfold CreateCertificate in *. by destruct (e_sign rnd).
Qed.
End FileLemmas.

(** Calls that cannot fail return what they look up. *)
Lemma hoare_sure `{Kernel} {A B} (s1 : fs) (f : fs → result A) (a : A) (k : A → M B) Q :
  quiet → (∀ n, fault n = None) → f s1 = Ok a →
  hoare (λ _, True) (λ s, s = s1) (k a) Q → hoare (λ _, True) (λ s, s = s1) (query f ≫= k) Q.
Proof.
  intros alone Hnf Hf Hk. eapply hoare_bind with (R := λ r s, s = s1 ∧ r = Ok a).
  - apply hoare_query_fault; [done|done|by intros s ->; rewrite Hf|]. intros s n e _ He. congruence.
  - by intros e s [_ ?].
  - intros x. apply hoare_pure_r. by intros [= ->].
Qed.
Section Theorems.
Context `{Kernel, Encoding}.
(** Reading back what was written: the standard encodings are lossless. *)
Definition dated (c : Certificate) : Prop :=
  whole_seconds (NotBefore c) = NotBefore c ∧ whole_seconds (NotAfter c) = NotAfter c.
Definition lossless : Prop :=
  (∀ c, dated c → parse_cert (cert_pem c) = Some c) ∧ (∀ k, parse_key (key_pem k) = Some k).
Lemma hoare_Load s1 certPath keyPath now k c :
  quiet → (∀ n, fault n = None) → lossless → dated c →
  inode_at s1 keyPath = Some (exclusive_file 384 (key_pem (ECDSA k))) →
  inode_at s1 certPath = Some (exclusive_file 420 (cert_pem c)) →
  PublicKey c = k → IsCA c = true → BasicConstraintsValid c = true → Z.land (KeyUsage c) KeyUsageCertSign ≠ 0 →
  valid_at c now = true →
  hoare (λ _, True) (λ s, s = s1) (Load certPath keyPath now) (λ r _, r = Ok (mkAuthority c k ∅ 4096)).
Proof.
  intros alone Hnf [Hpc Hpk] Hdc Hki Hci Hk Hca Hbc Hku Hv.
  set (ki := exclusive_file 384 (key_pem (ECDSA k))) in *.
  destruct (follow_regular _ _ _ Hki) as [n Hn]; [done|].
  unfold Load. eapply hoare_bind with (R := λ r s, s = s1 ∧ r = Ok tt).
  { unfold Regular. eapply hoare_sure; [done|done|by rewrite Hki|]. by apply hoare_lift. }
  { by intros e s [_ ?]. }
  intros []. apply hoare_pure_r. intros _.
  eapply hoare_sure; [done|done|by rewrite Hn|]. cbv beta iota.
  apply hoare_bind_lift; [intros _ _|by intros].
  eapply hoare_bind with (R := λ r s, s = s1 ∧ r = Ok (c, ECDSA k)).
  { unfold LoadX509KeyPair. eapply hoare_sure; [done|done|by apply (read_file_regular _ _ _ Hci)|].
    eapply hoare_sure; [done|done|by apply (read_file_regular _ _ _ Hki)|]. cbn [i_data exclusive_file ki].
    rewrite (Hpc c Hdc). unfold ki; simpl i_data. rewrite Hpk. cbn [of_option].
    apply hoare_bind_lift; [intros _ [= <-]|by intros]. apply hoare_bind_lift; [intros _ [= <-]|by intros].
    apply hoare_bind_lift; [intros [] _; by apply hoare_ret|].
    intros e s [He _]%guard_Err. rewrite Hk in He. simpl in He. by rewrite Z.eqb_refl in He. }
  { by intros e s [_ ?]. }
  intros x. apply hoare_pure_r. intros [= ->]. cbv beta iota.
  rewrite Hca, Hbc, Hv. apply hoare_bind_lift; [intros [] _|].
  2:{ intros e s [He _]%guard_Err. simpl in He. bools. done. }
  apply hoare_bind_lift; [intros [] _; by apply hoare_ret|by intros].
Qed.

(** [Init] overwrites nothing. Whatever call of it fails, every file that existed keeps
    its place and its contents; and if it succeeds it has made a new key file, readable by
    its owner only, and beside it a self-signed certificate for that key. *)
Theorem Init_safe dir name validity now rnd o r o' :
  quiet → Init dir name validity now rnd o = (r, o') →
  (∀ p i, inode_at (sys o) p = Some i → inode_at (sys o') p = Some i) ∧
  (is_ok r = true → ∃ k c, inited dir name validity now rnd (sys o') k c).
Proof.
  intros alone E.
  destruct (hoare_Init (ddents (sys o)) (all_files (sys o)) dir name validity now rnd alone o (keeps_all _))
    as [[Hk Hok] _]. rewrite E in *. cbn [fst snd] in *. split; [|done]. intros p i Hp.
  unfold inode_at in Hp. destruct (dents (sys o) !! p) as [n|] eqn:Ed; [|done]. cbn in Hp.
  eapply keeps_inode_at; [exact Hk|]. unfold all_files. rewrite Ed. cbn. by rewrite Hp.
Qed.

(** What [Init] makes, [Load] takes: on the files of a successful [Init], and while the
    certificate is valid, [Load] gives an authority that signs with the new key, with an
    empty cache, from which right certificates are issued ([authority_ok]). *)
Theorem Init_Load dir name validity now rnd o info o' later :
  quiet → (∀ n, fault n = None) → lossless →
  Init dir name validity now rnd o = (Ok info, o') →
  whole_seconds (now - 5 * Minute) ≤ later < whole_seconds (now + validity) →
  ∃ k c, e_key rnd = Ok k ∧ CommonName c = name ∧
    (Load (dir ++ "/ca.crt") (dir ++ "/ca.key") later o').1 = Ok (mkAuthority c k ∅ 4096) ∧
    authority_ok (mkAuthority c k ∅ 4096) later.
Proof.
  intros alone Hnf Hl E Ht.
  destruct (hoare_Init (ddents (sys o)) (all_files (sys o)) dir name validity now rnd alone o (keeps_all _))
    as [[_ Hok] _]. rewrite E in *. cbn [fst snd] in *.
  destruct (Hok eq_refl) as (k & c & _ & Hk & (sr & _ & Hc) & Hki & Hci).
  exists k, c. injection Hc as <-.
  assert (∀ z, whole_seconds (whole_seconds z) = whole_seconds z) as Hw.
  { intros z. unfold whole_seconds. by rewrite !Z.div_mul. }
  split_and!; [done|done| |].
  - apply (hoare_Load (sys o')); try done; [by split; simpl|]. unfold valid_at. simpl.
    destruct Ht as [Ht1 Ht2]. apply Z.ltb_ge in Ht1 as ->. apply Z.ltb_lt in Ht2 as ->. done.
  - split; simpl; [by rewrite !Hw|lia|rewrite map_size_empty; lia|done].
Qed.
End Theorems.

(** *** What [Load] promises to its callers *)
Lemma M_bind_inv {A B} (m : M A) (f : A → M B) o b :
  ((m ≫= f) o).1 = Ok b → ∃ a o', m o = (Ok a, o') ∧ (f a o').1 = Ok b.
Proof. unfold mbind, M_bind. destruct (m o) as [[a|e] o']; [|done]. by exists a, o'. Qed.
Lemma lift_inv {A} (r : result A) o a o' : lift r o = (Ok a, o') → r = Ok a ∧ o' = o.
Proof. by intros [= -> ->]. Qed.
(** Certificates read from bytes carry whole seconds. *)
Definition dated_in_seconds `{Encoding} : Prop := ∀ b c, parse_cert b = Some c →
  dated c.
Lemma Load_ok `{Kernel, Encoding} certPath keyPath now o a :
  dated_in_seconds → (Load certPath keyPath now o).1 = Ok a → authority_ok a now.
Proof.
  intros Hd HL. unfold Load in HL. apply M_bind_inv in HL as ([] & o1 & _ & HL).
  apply M_bind_inv in HL as ([n i] & o2 & _ & HL). apply M_bind_inv in HL as ([] & o3 & _ & HL).
  apply M_bind_inv in HL as ([c pk] & o4 & Hp & HL). apply M_bind_inv in HL as ([] & o5 & _ & HL).
  apply M_bind_inv in HL as ([] & o6 & _ & HL). destruct pk as [k|k]; [|done]. injection HL as <-.
  apply (f_equal fst) in Hp. unfold LoadX509KeyPair in Hp. apply M_bind_inv in Hp as (cb & p1 & _ & Hp).
  apply M_bind_inv in Hp as (kb & p2 & _ & Hp). apply M_bind_inv in Hp as (c' & p3 & Hc & Hp).
  apply M_bind_inv in Hp as (k' & p4 & _ & Hp). apply M_bind_inv in Hp as ([] & p5 & _ & [= -> ->]).
  apply lift_inv in Hc as [Hc _]. destruct (parse_cert cb) as [x|] eqn:Ex; [|done]. injection Hc as ->.
  split; simpl; [by apply (Hd cb)|lia|rewrite map_size_empty; lia|done].
Qed.

(** ** Witnesses *)
Definition demo_ca : Certificate :=
  mkCert 7 "test CA" [] 0 (3000 * Hour) true true 0 true 96 false 1 1.
Definition demo_authority : Authority := mkAuthority demo_ca 1 ∅ 4096.
Definition demo_entropy : Entropy := mkEntropy (Ok 2) (Ok 9) None 0.
Lemma demo_authority_ok : authority_ok demo_authority Hour.
Proof. split; [by split|simpl; lia|simpl; rewrite map_size_empty; lia|]. intros host c Hc. done. Qed.
Definition demo_issue : result Certificate * Authority :=
  Certificate_for demo_authority (2 * Hour) demo_entropy "tls.peet.ws".
Definition demo_leaf : Certificate :=
  Eval vm_compute in match demo_issue.1 with Ok c => c | Err _ => demo_ca end.
Lemma Certificate_for_ok_witness :
  demo_issue.1 = Ok demo_leaf ∧ NotBefore demo_leaf ≤ 2 * Hour < NotAfter demo_leaf.
Proof.
  assert (demo_issue.1 = Ok demo_leaf) as E by (vm_compute; reflexivity). split; [exact E|].
  destruct (Certificate_for_ok demo_authority Hour (2 * Hour) demo_entropy "tls.peet.ws"
    (Ok demo_leaf) demo_issue.2 demo_authority_ok ltac:(vm_compute; discriminate)) as (_ & _ & _ & _ & H & _).
  - rewrite (surjective_pairing demo_issue). by rewrite E.
  - exact H.
Defined.

(** A lossless encoding: the bits of a number for the certificate. *)
#[global] Instance Certificate_eq_dec : EqDecision Certificate.
Proof. solve_decision. Defined.
Definition cert_tuple (c : Certificate) :=
  (SerialNumber c, CommonName c, DNSNames c, (NotBefore c, NotAfter c), (IsCA c, BasicConstraintsValid c),
   (MaxPathLen c, MaxPathLenZero c), (KeyUsage c, ServerAuth c), (PublicKey c, SignedBy c)).
#[global] Instance Certificate_countable : Countable Certificate.
Proof.
  refine (inj_countable' cert_tuple
    (λ '(a, b, c, (d, e), (f, g), (h, i), (j, k), (l, m)), mkCert a b c d e f g h i j k l m) _).
  by intros [].
Defined.
Fixpoint bits (p : positive) : str :=
  match p with xH => [] | xO p => chr 48 :: bits p | xI p => chr 49 :: bits p end.
Fixpoint of_bits (s : str) : positive :=
  match s with [] => xH | c :: s => if bool_decide (c = chr 48) then xO (of_bits s) else xI (of_bits s) end.
Lemma of_bits_bits p : of_bits (bits p) = p.
Proof. induction p; simpl; by rewrite ?IHp. Qed.
#[global] Instance PrivateKey_eq_dec : EqDecision PrivateKey.
Proof. solve_decision. Defined.
#[global] Instance dated_dec c : Decision (dated c).
Proof. unfold dated. apply _. Defined.
Definition demo_encoding : Encoding := {|
  cert_pem c := bits (encode c); parse_cert s := c ← decode (A := Certificate) (of_bits s); if bool_decide (dated c) then Some c else None;
  key_pem k := bits (match k with ECDSA k => encode (true, k) | OtherKey k => encode (false, k) end);
  parse_key s := '(b, k) ← decode (A := bool * Z) (of_bits s); Some (if b : bool then ECDSA k else OtherKey k);
  fingerprint _ := []; subject_string c := CommonName c |}.
Lemma demo_lossless : @lossless demo_encoding.
Proof.
  split; simpl.
  - intros c Hc. rewrite of_bits_bits, decode_encode. simpl. by rewrite bool_decide_true.
  - intros [k|k]; by rewrite of_bits_bits, decode_encode.
Qed.
Lemma demo_dated : @dated_in_seconds demo_encoding.
Proof.
  intros b c. simpl. destruct (decode (of_bits b)) as [d|]; [|done]. simpl.
  destruct (bool_decide_reflect (dated d)); [|done]. by intros [= <-].
Qed.
Definition demo_init : result Info * os :=
  @Init no_faults demo_encoding "/ca" "test CA" Hour (Hour * 2) demo_entropy (mkOs demo_fs 0 []).
Lemma demo_init_Ok : is_ok demo_init.1 = true.
Proof. vm_compute. reflexivity. Qed.
Lemma Init_safe_witness :
  is_ok demo_init.1 = true ∧ inode_at (sys demo_init.2) "/etc/hosts" = Some demo_file ∧
  ∃ k c, @inited no_faults demo_encoding "/ca" "test CA" Hour (Hour * 2) demo_entropy (sys demo_init.2) k c.
Proof.
  split; [vm_compute; reflexivity|].
  destruct (@Init_safe no_faults demo_encoding "/ca" "test CA" Hour (Hour * 2) demo_entropy (mkOs demo_fs 0 [])
    demo_init.1 demo_init.2 ltac:(intros k s; reflexivity) (surjective_pairing demo_init)) as [Hk Hok].
  split.
  - apply Hk. vm_compute. reflexivity.
  - apply Hok. vm_compute. reflexivity.
Defined.
Definition demo_info : Info := Eval vm_compute in match demo_init.1 with Ok i => i | Err _ => mkInfo 0 [] 0 0 [] [] end.
Lemma Init_Load_witness : ∃ k c,
  (@Load no_faults demo_encoding "/ca/ca.crt" "/ca/ca.key" (Hour * 2) demo_init.2).1 = Ok (mkAuthority c k ∅ 4096) ∧
  authority_ok (mkAuthority c k ∅ 4096) (Hour * 2).
Proof.
  assert (demo_init.1 = Ok demo_info) as E by (vm_compute; reflexivity).
  destruct (@Init_Load no_faults demo_encoding "/ca" "test CA" Hour (Hour * 2) demo_entropy (mkOs demo_fs 0 [])
    demo_info demo_init.2 (Hour * 2)) as (k & c & _ & _ & Hl & Ha).
  - intros j s. reflexivity.
  - reflexivity.
  - exact demo_lossless.
  - rewrite <- E. exact (surjective_pairing demo_init).
  - split; [vm_compute; discriminate|vm_compute; reflexivity].
  - exists k, c. exact (conj Hl Ha).
Defined.
