(* ===== verification/Proxy.v ===== *)
(** * Proxy: the server and its connections (src/internal/proxy/server.go)

    The state of the server under its mutex, the goroutine of each connection as a handler
    with the place it has reached in [handle], and every section of the code between two
    points where another goroutine can act as one function. A connection's [active] object
    is shared: the table of connections holds it, its handler updates it there. *)
From stdpp Require Import sorting.
From S2P Require Import Prelude Strs NetIP Config Upstream.
From S2P Require CA Profiles.
Import CA (Certificate, Authority, Certificate_for, Entropy, authority_ok).
Import Profiles (Compatible, VersionTLS12).

(** ** State *)
Record snapshot := mkSnapshot { s_config : Config; s_authority : nat; s_generation : Z }.
Record Connection := mkConnection {
  ID : Z; Started : Z; Client : str; SNI : str; CUpstream : str; CProfile : str;
  Modifications : list str; ClientTLS : Z; UpstreamTLS : Z; ClientALPN : str; UpstreamALPN : str;
  BytesSent : Z; BytesReceived : Z; CState : str }.
(** [a_cancel]: the cancel function is set; [a_cancelled], [a_closed]: it was called, the
    client's socket was closed by the shutdown. *)
Record active := mkActive {
  record : Connection; a_sent : Z; a_received : Z;
  a_cancel : bool; a_cancelled : bool; a_closed : bool }.
(** The authorities loaded so far; a snapshot holds a reference to one. *)
Record Server := mkServer {
  current : snapshot; authorities : list Authority; resolver_config : DNS;
  connections : gmap Z active; failures : gmap str Z;
  total : Z; next : Z; sent : Z; received : Z; stopping : bool; wg : Z }.

Definition int64 (z : Z) : Z := (z + 2 ^ 63) mod 2 ^ 64 - 2 ^ 63.
Definition set_connections (s : Server) (m : gmap Z active) : Server :=
  mkServer (current s) (authorities s) (resolver_config s) m (failures s) (total s) (next s)
    (sent s) (received s) (stopping s) (wg s).
Definition set_failures (s : Server) (m : gmap str Z) : Server :=
  mkServer (current s) (authorities s) (resolver_config s) (connections s) m (total s) (next s)
    (sent s) (received s) (stopping s) (wg s).
Definition set_authority (s : Server) (k : nat) (a : Authority) : Server :=
  mkServer (current s) (<[k := a]> (authorities s)) (resolver_config s) (connections s) (failures s)
    (total s) (next s) (sent s) (received s) (stopping s) (wg s).
Definition set_stopping (s : Server) : Server :=
  mkServer (current s) (authorities s) (resolver_config s) (connections s) (failures s)
    (total s) (next s) (sent s) (received s) true (wg s).
Definition on_active (i : Z) (f : active → active) (s : Server) : Server :=
  set_connections s (alter f i (connections s)).
Definition on_record (f : Connection → Connection) (a : active) : active :=
  mkActive (f (record a)) (a_sent a) (a_received a) (a_cancel a) (a_cancelled a) (a_closed a).

(** ** Failures and their categories *)
Definition categories : list str :=
  ["sni_missing" : str; "domain_denied" : str; "upstream_loop" : str; "alpn_mismatch" : str;
   "unsupported_alps" : str; "dns_" : str; "upstream_connect" : str; "upstream_tls" : str].
Definition category (err : error) : str :=
  match List.find (λ c, Contains (Error err) c) categories with
  | Some c => TrimSuffix c "_"
  | None => if errors_Is err NetTimeout then "timeout" else "connection"
  end.
Definition failure (kind : str) (s : Server) : Server :=
  set_failures s (<[kind := uint64 (default 0 (failures s !! kind) + 1)]> (failures s)).

(** ** [accept] *)
Definition client_denied (snap : snapshot) (raw : str) : bool :=
  match ParseAddrPort raw with
  | Some a => negb (AllowsClient (s_config snap) (ap_addr a))
  | None => true
  end.
Definition new_active (snap : snapshot) (id now : Z) (raw : str) : active :=
  mkActive (mkConnection id now raw [] [] (UProfile (Config.Upstream (s_config snap))) [] 0 0 [] [] 0 0 "handshake")
    0 0 false false false.
(** The section under the mutex; the new connection's number, if it is admitted. *)
Definition accept_locked (snap : snapshot) (raw : str) (now : Z) (s : Server) : Server * option Z :=
  if stopping s || (MaxConnections (Config.Runtime (s_config snap)) <=? Z.of_nat (size (connections s)))
  then (failure "connection_limit" s, None)
  else
    let id := uint64 (next s + 1) in
    (mkServer (current s) (authorities s) (resolver_config s)
       (<[id := new_active snap id now raw]> (connections s)) (failures s)
       (uint64 (total s + 1)) id (sent s) (received s) (stopping s) (wg s + 1), Some id).
Definition accept (snap : snapshot) (raw : str) (now : Z) (s : Server) : Server * option Z :=
  if client_denied snap raw then (failure "client_denied" s, None) else accept_locked snap raw now s.

(** ** [handle] *)
Record ClientHelloInfo := mkHello { HelloName : str; SupportedProtos : list str }.
Record tls_Config := mkTLS { CMinVersion : Z; CertificateOf : Certificate; NextProtos : list str }.
(** crypto/tls's choice of the server's protocol. *)
Definition negotiateALPN (serverProtos clientProtos : list str) : result str :=
  if bool_decide (serverProtos = []) || bool_decide (clientProtos = []) then Ok []
  else match List.find (λ s, str_mem s clientProtos) serverProtos with
       | Some s => Ok s
       | None =>
           if str_mem "h2" serverProtos && str_mem "http/1.1" clientProtos then Ok []
           else Err (errors_New "tls: client requested unsupported application protocols")
       end.

(** Where the handler of a connection is. *)
Inductive phase :=
  | Begin
  | Handshaking
  | Named (hello : ClientHelloInfo) (host : str)
  | Dialing (hello : ClientHelloInfo) (host : str) (cert : Certificate)
  | Dialled (hello : ClientHelloInfo) (host : str) (cert : Certificate) (u : UpConn) (mods : list str) (ip : str)
  | Answered (hello : ClientHelloInfo) (host : str) (cfg : tls_Config)
  | Relaying (hello : ClientHelloInfo) (host : str) (cfg : tls_Config)
  | Returned (e : option error)
  | Ended (was_stopping : bool) (e : option error).
Record handler := mkHandler { h_snap : snapshot; h_phase : phase; h_upstream : option UpConn }.
Definition at_phase (h : handler) (p : phase) : handler := mkHandler (h_snap h) p (h_upstream h).
(** Leaving [handle] closes the upstream connection, if there is one. *)
Definition returned (h : handler) (e : option error) : handler := mkHandler (h_snap h) (Returned e) None.

Section Handle.
Context `{Unicode, IDNA}.
(** The callback's checks, up to the host's name. *)
Definition hello_host (c : Config) (upstream : option UpConn) (hello : ClientHelloInfo) : result str :=
  _ ← guard_err (bool_decide (is_Some upstream)) (errors_New "repeated ClientHello callback");
  _ ← guard_err (HelloName hello == "") (errors_New "sni_missing");
  host ← Domain (HelloName hello);
  _ ← guard_err (negb (AllowsDomain c host)) (errors_New ("domain_denied: " ++ host));
  Ok host.
End Handle.
Definition set_SNI (host : str) (r : Connection) : Connection :=
  mkConnection (ID r) (Started r) (Client r) host (CUpstream r) (CProfile r) (Modifications r) (ClientTLS r)
    (UpstreamTLS r) (ClientALPN r) (UpstreamALPN r) (BytesSent r) (BytesReceived r) (CState r).
Definition set_upstream (ip : str) (mods : list str) (st : ConnectionState) (r : Connection) : Connection :=
  mkConnection (ID r) (Started r) (Client r) (SNI r) ip (CProfile r) mods (ClientTLS r)
    (TLSVersion st) (ClientALPN r) (NegotiatedProtocol st) (BytesSent r) (BytesReceived r) (CState r).
Definition set_relaying (version : Z) (alpn : str) (r : Connection) : Connection :=
  mkConnection (ID r) (Started r) (Client r) (SNI r) (CUpstream r) (CProfile r) (Modifications r) version
    (UpstreamTLS r) alpn (UpstreamALPN r) (BytesSent r) (BytesReceived r) "relaying".
(** The configuration the callback answers with. *)
Definition answer (cert : Certificate) (st : ConnectionState) : tls_Config :=
  mkTLS VersionTLS12 cert (if NegotiatedProtocol st == "" then [] else [NegotiatedProtocol st]).
(** The check after the client's handshake. *)
Definition handshake_check (upstream : option UpConn) (negotiated : str) : result unit :=
  match upstream with
  | None => Err (errors_New "upstream handshake missing")
  | Some u => guard_err (negotiated != NegotiatedProtocol (u_state u))
                (errors_New "alpn_mismatch after client handshake")
  end.

(** ** The end of a connection *)
(** The section under the mutex after [handle] has returned. *)
Definition finish (i : Z) (a : active) (s : Server) : Server :=
  mkServer (current s) (authorities s) (resolver_config s) (delete i (connections s)) (failures s)
    (total s) (next s) (int64 (sent s + a_sent a)) (int64 (received s + a_received a)) (stopping s) (wg s).
(** The error is counted, unless the shutdown caused it; then the deferred [Done]. *)
Definition conclude (was_stopping : bool) (e : option error) (s : Server) : Server :=
  let s :=
    match e with
    | Some err => if was_stopping && (errors_Is err NetClosed || errors_Is err Canceled) then s
                  else failure (category err) s
    | None => s
    end in
  mkServer (current s) (authorities s) (resolver_config s) (connections s) (failures s) (total s) (next s)
    (sent s) (received s) (stopping s) (wg s - 1).

(** ** [Reload], [Status] and [Connections] *)
Definition set_current (s : Server) (snap : snapshot) (a : Authority) (d : DNS) : Server :=
  mkServer snap (authorities s ++ [a]) d (connections s) (failures s) (total s) (next s) (sent s) (received s)
    (stopping s) (wg s).
Definition Reload (load : result Config) (load_ca : Config → result Authority) (s : Server) : result unit * Server :=
  match load with
  | Err e => (Err e, s)
  | Ok c =>
      let old := current s in
      if RestartRequired (s_config old) c then
        (Err (errors_New "restart_required: listener, upstream port, CA/runtime paths or log format changed"), s)
      else
        match load_ca c with
        | Err e => (Err e, s)
        | Ok a => (Ok tt, set_current s (mkSnapshot c (length (authorities s)) (uint64 (s_generation old + 1))) a (CDNS c))
        end
  end.
Record Status := mkStatus {
  Health : str; Reasons : list str; SConfig : Config; Generation : Z; Active : nat; Total : Z;
  SBytesSent : Z; SBytesReceived : Z; SFailures : gmap str Z }.
Definition sum_over (f : active → Z) (m : gmap Z active) (z : Z) : Z :=
  foldr (λ a z, int64 (z + f a)) z (map_to_list m).*2.
Definition Status_of (LastError : str) (s : Server) : Status :=
  let health := if LastError != "" then "degraded" : str else if stopping s then "stopping" : str else "ready" in
  let reasons := (if stopping s then ["daemon is shutting down" : str] else [])
                 ++ (if LastError != "" then [LastError] else []) in
  mkStatus health reasons (s_config (current s)) (s_generation (current s)) (size (connections s)) (total s)
    (sum_over a_sent (connections s) (sent s)) (sum_over a_received (connections s) (received s)) (failures s).
Definition with_bytes (a : active) : Connection :=
  let r := record a in
  mkConnection (ID r) (Started r) (Client r) (SNI r) (CUpstream r) (CProfile r) (Modifications r) (ClientTLS r)
    (UpstreamTLS r) (ClientALPN r) (UpstreamALPN r) (a_sent a) (a_received a) (CState r).
Definition by_ID (a b : Connection) : Prop := ID a ≤ ID b.
#[global] Instance by_ID_dec a b : Decision (by_ID a b).
Proof. unfold by_ID. apply _. Defined.
Definition Connections (s : Server) : list Connection :=
  merge_sort by_ID (map (λ p, with_bytes p.2) (map_to_list (connections s))).

(** ** The interfaces of the components the server calls

    What a dial and the loading of an authority promise; the components that implement them
    are instances below. *)
Record dial_promise (c : Config) (host : str) (offered : list str) (u : UpConn) (ip : str) : Prop := {
  dp_host : Profiles.ServerName (u_hello u) = host;
  dp_trust : Profiles.MinVersion (u_hello u) = VersionTLS12 ∧ Profiles.RootCAs (u_hello u) = None;
  dp_alpn : Compatible (NegotiatedProtocol (u_state u)) offered = true;
  dp_address : ∃ local a, permitted c local a ∧ ip = JoinHostPort (AddrString a) (Itoa (Port (Config.Upstream c))) }.
Class Dialer := {
  dials : Config → str → list str → result (UpConn * list str * str) → Prop;
  dials_ok c host offered u mods ip : dials c host offered (Ok (u, mods, ip)) → dial_promise c host offered u ip;
  dials_total c host offered : ∃ r, dials c host offered r }.
Class AuthoritySource := {
  loads : Config → Z → result Authority → Prop;
  loads_ok c now a : loads c now (Ok a) → authority_ok a now }.

(** ** The goroutines as a step relation *)
(** The ghost fields count the connections admitted, the bytes relayed, and the largest
    limit of connections any configuration so far has set. *)
Record world := mkWorld {
  srv : Server; clock : Z; pending : list (snapshot * str); handlers : gmap Z handler;
  g_admitted : Z; g_sent : Z; g_received : Z; g_limit : Z }.
Definition with_srv (w : world) (s : Server) : world :=
  mkWorld s (clock w) (pending w) (handlers w) (g_admitted w) (g_sent w) (g_received w) (g_limit w).
Definition limit_of (snap : snapshot) : Z := MaxConnections (Config.Runtime (s_config snap)).
Definition set_cancel (a : active) : active :=
  mkActive (record a) (a_sent a) (a_received a) true (a_cancelled a) (a_closed a).
Definition add_sent (n : Z) (a : active) : active :=
  mkActive (record a) (int64 (a_sent a + n)) (a_received a) (a_cancel a) (a_cancelled a) (a_closed a).
Definition add_received (n : Z) (a : active) : active :=
  mkActive (record a) (a_sent a) (int64 (a_received a + n)) (a_cancel a) (a_cancelled a) (a_closed a).
Definition shut (a : active) : active :=
  mkActive (record a) (a_sent a) (a_received a) (a_cancel a) (a_cancel a || a_cancelled a) true.

Section Steps.
Context `{Unicode, IDNA, Dialer, AuthoritySource}.

(** One step of a connection's handler on its [active] object: the new handler and object,
    the authority as the step leaves it, and the bytes relayed in each direction. *)
Inductive hstep (now : Z) (au : list Authority) :
    handler → active → handler → active → option Authority → Z → Z → Prop :=
  | h_begin h a : h_phase h = Begin →
      hstep now au h a (at_phase h Handshaking) (set_cancel a) None 0 0
  | h_hello h a hello host : h_phase h = Handshaking →
      hello_host (s_config (h_snap h)) (h_upstream h) hello = Ok host →
      hstep now au h a (at_phase h (Named hello host)) (on_record (set_SNI host) a) None 0 0
  | h_hello_refused h a hello e : h_phase h = Handshaking ∨ (∃ x y z, h_phase h = Answered x y z) →
      hello_host (s_config (h_snap h)) (h_upstream h) hello = Err e →
      hstep now au h a (returned h (Some e)) a None 0 0
  | h_certificate h a hello host x rnd c x' : h_phase h = Named hello host →
      au !! s_authority (h_snap h) = Some x → Certificate_for x now rnd host = (Ok c, x') →
      hstep now au h a (at_phase h (Dialing hello host c)) a (Some x') 0 0
  | h_no_certificate h a hello host x rnd e x' : h_phase h = Named hello host →
      au !! s_authority (h_snap h) = Some x → Certificate_for x now rnd host = (Err e, x') →
      hstep now au h a (returned h (Some e)) a (Some x') 0 0
  | h_dial h a hello host c u mods ip : h_phase h = Dialing hello host c →
      dials (s_config (h_snap h)) host (SupportedProtos hello) (Ok (u, mods, ip)) →
      hstep now au h a (mkHandler (h_snap h) (Dialled hello host c u mods ip) (Some u)) a None 0 0
  | h_dial_failed h a hello host c e : h_phase h = Dialing hello host c →
      dials (s_config (h_snap h)) host (SupportedProtos hello) (Err e) →
      hstep now au h a (returned h (Some e)) a None 0 0
  | h_answer h a hello host c u mods ip : h_phase h = Dialled hello host c u mods ip →
      hstep now au h a (at_phase h (Answered hello host (answer c (u_state u))))
        (on_record (set_upstream ip mods (u_state u)) a) None 0 0
  | h_handshake h a hello host cfg p version : h_phase h = Answered hello host cfg →
      negotiateALPN (NextProtos cfg) (SupportedProtos hello) = Ok p →
      handshake_check (h_upstream h) p = Ok tt → CMinVersion cfg ≤ version →
      hstep now au h a (at_phase h (Relaying hello host cfg)) (on_record (set_relaying version p) a) None 0 0
  | h_handshake_refused h a hello host cfg p e : h_phase h = Answered hello host cfg →
      negotiateALPN (NextProtos cfg) (SupportedProtos hello) = Ok p →
      handshake_check (h_upstream h) p = Err e →
      hstep now au h a (returned h (Some e)) a None 0 0
  | h_no_alpn h a hello host cfg e : h_phase h = Answered hello host cfg →
      negotiateALPN (NextProtos cfg) (SupportedProtos hello) = Err e →
      hstep now au h a (returned h (Some e)) a None 0 0
  | h_handshake_failed h a e : h_phase h = Handshaking ∨ (∃ x y z, h_phase h = Answered x y z) →
      hstep now au h a (returned h (Some e)) a None 0 0      (* the client, the deadline, the shutdown *)
  | h_sent h a hello host cfg n : h_phase h = Relaying hello host cfg → 0 < n →
      hstep now au h a h (add_sent n a) None n 0
  | h_received h a hello host cfg n : h_phase h = Relaying hello host cfg → 0 < n →
      hstep now au h a h (add_received n a) None 0 n
  | h_relayed h a hello host cfg e : h_phase h = Relaying hello host cfg →
      hstep now au h a (returned h e) a None 0 0.

(** The server after a handler's step. *)
Definition update (i : Z) (k : nat) (x : option Authority) (a : active) (s : Server) : Server :=
  let s := match x with Some x => set_authority s k x | None => s end in
  set_connections s (<[i := a]> (connections s)).

Inductive step : world → world → Prop :=
  | s_clock w t : clock w ≤ t →
      step w (mkWorld (srv w) t (pending w) (handlers w) (g_admitted w) (g_sent w) (g_received w) (g_limit w))
  | s_arrive w raw :
      step w (mkWorld (srv w) (clock w) ((current (srv w), raw) :: pending w) (handlers w)
                (g_admitted w) (g_sent w) (g_received w) (g_limit w))
  | s_accept w l snap raw l' s id : pending w = l ++ (snap, raw) :: l' →
      accept snap raw (clock w) (srv w) = (s, Some id) →
      step w (mkWorld s (clock w) (l ++ l') (<[id := mkHandler snap Begin None]> (handlers w))
                (g_admitted w + 1) (g_sent w) (g_received w) (g_limit w))
  | s_reject w l snap raw l' s : pending w = l ++ (snap, raw) :: l' →
      accept snap raw (clock w) (srv w) = (s, None) →
      step w (mkWorld s (clock w) (l ++ l') (handlers w) (g_admitted w) (g_sent w) (g_received w) (g_limit w))
  | s_handler w i h a h' a' x m n : handlers w !! i = Some h → connections (srv w) !! i = Some a →
      hstep (clock w) (authorities (srv w)) h a h' a' x m n →
      step w (mkWorld (update i (s_authority (h_snap h)) x a' (srv w)) (clock w) (pending w)
                (<[i := h']> (handlers w)) (g_admitted w) (g_sent w + m) (g_received w + n) (g_limit w))
  | s_finish w i h a e : handlers w !! i = Some h → h_phase h = Returned e →
      connections (srv w) !! i = Some a →
      step w (mkWorld (finish i a (srv w)) (clock w) (pending w)
                (<[i := at_phase h (Ended (stopping (srv w)) e)]> (handlers w))
                (g_admitted w) (g_sent w) (g_received w) (g_limit w))
  | s_conclude w i h b e : handlers w !! i = Some h → h_phase h = Ended b e →
      step w (mkWorld (conclude b e (srv w)) (clock w) (pending w) (delete i (handlers w))
                (g_admitted w) (g_sent w) (g_received w) (g_limit w))
  | s_reload w load load_ca r s :
      (∀ c, loads c (clock w) (load_ca c)) → Reload load load_ca (srv w) = (r, s) →
      step w (mkWorld s (clock w) (pending w) (handlers w) (g_admitted w) (g_sent w) (g_received w)
                (Z.max (g_limit w) (limit_of (current s))))
  | s_stop w : step w (with_srv w (set_stopping (srv w)))
  | s_close_all w : stopping (srv w) = true →
      step w (with_srv w (set_connections (srv w) (shut <$> connections (srv w)))).

(** [New]: the state a server starts in. *)
Definition New_world (c : Config) (a : Authority) (now : Z) : world :=
  mkWorld (mkServer (mkSnapshot c 0 1) [a] (CDNS c) ∅ ∅ 0 0 0 0 false 0) now [] ∅ 0 0 0
    (MaxConnections (Config.Runtime c)).
Inductive reach : world → Prop :=
  | reach_new c a now : loads c now (Ok a) → reach (New_world c a now)
  | reach_step w w' : reach w → step w w' → reach w'.
End Steps.

(** ** Invariants *)
Section Invariants.
Context `{Unicode, IDNA, Dialer, AuthoritySource}.

(** *** The counters, the authorities and the limit *)
Definition snap_ok (w : world) (snap : snapshot) : Prop :=
  (s_authority snap < length (authorities (srv w)))%nat ∧ limit_of snap ≤ g_limit w.
Record base_ok (w : world) : Prop := {
  b_count : 0 ≤ g_admitted w ∧ next (srv w) = uint64 (g_admitted w) ∧ total (srv w) = uint64 (g_admitted w);
  b_auth : Forall (λ x, authority_ok x (clock w)) (authorities (srv w));
  b_current : snap_ok w (current (srv w));
  b_pending : Forall (λ p, snap_ok w p.1) (pending w);
  b_size : Z.of_nat (size (connections (srv w))) ≤ Z.max 0 (g_limit w) }.
Lemma uint64_succ n : uint64 (uint64 n + 1) = uint64 (n + 1).
Proof. unfold uint64. by rewrite Zplus_mod_idemp_l. Qed.
Lemma authority_ok_later x t t' : authority_ok x t → t ≤ t' → authority_ok x t'.
Proof.
  intros [? ? ? Hl] ?. split; [done..|]. intros host c Hc. eapply CA.leaf_ok_later; [by apply Hl|done].
Qed.
(** What a handler's step does to the authorities. *)
Lemma hstep_authority now au h a h' a' x m n :
  hstep now au h a h' a' x m n → Forall (λ y, authority_ok y now) au →
  match x with
  | Some y => authority_ok y now ∧ ∃ y0, au !! s_authority (h_snap h) = Some y0 ∧ CA.cert y = CA.cert y0 ∧ CA.key y = CA.key y0
  | None => True
  end.
Proof.
  intros Hs Hau. destruct Hs as [| | |? ? ? ? y0 ? ? ? ? Hy0 HC|? ? ? ? y0 ? ? ? ? Hy0 HC| | | | | | | | | |]; try done;
    (pose proof (proj1 (Forall_lookup _ _) Hau _ _ Hy0) as Hok;
     destruct (CA.Certificate_for_spec _ _ _ _ _ _ _ Hok (Z.le_refl _) HC) as (? & ? & ? & _); eauto).
Qed.
Lemma update_authorities i k x a s :
  authorities (update i k x a s) = match x with Some y => <[k := y]> (authorities s) | None => authorities s end.
Proof. by destruct x. Qed.
Lemma update_connections i k x a s : connections (update i k x a s) = <[i := a]> (connections s).
Proof. by destruct x. Qed.
Lemma accept_admitted snap raw now s s' id :
  accept snap raw now s = (s', Some id) →
  client_denied snap raw = false ∧ stopping s = false ∧ Z.of_nat (size (connections s)) < limit_of snap ∧
  id = uint64 (next s + 1) ∧
  s' = mkServer (current s) (authorities s) (resolver_config s)
         (<[id := new_active snap id now raw]> (connections s)) (failures s)
         (uint64 (total s + 1)) id (sent s) (received s) (stopping s) (wg s + 1).
Proof.
  unfold accept, accept_locked. destruct (client_denied snap raw); [done|].
  destruct (stopping s || _) eqn:E; [done|]. intros [= <- <-]. bools. by split_and!.
Qed.
Lemma accept_rejected snap raw now s s' :
  accept snap raw now s = (s', None) → ∃ kind, s' = failure kind s ∧
    (kind = "client_denied" ∨ kind = "connection_limit").
Proof.
  unfold accept, accept_locked. destruct (client_denied snap raw); [intros [= <-]; eauto|].
  destruct (stopping s || _); [|done]. intros [= <-]; eauto.
Qed.
Lemma Reload_cases load load_ca s r s' :
  Reload load load_ca s = (r, s') →
  (s' = s ∧ ∃ e, r = Err e) ∨
  (r = Ok tt ∧ ∃ c a, load = Ok c ∧ RestartRequired (s_config (current s)) c = false ∧ load_ca c = Ok a ∧
    s' = set_current s (mkSnapshot c (length (authorities s)) (uint64 (s_generation (current s) + 1))) a (CDNS c)).
Proof.
  unfold Reload. destruct load as [c|e]; [|intros [= <- <-]; left; split; [done|by eexists]]. cbv zeta.
  destruct (RestartRequired _ c) eqn:E; [intros Hq; injection Hq; intros <- <-; left; split; [done|by eexists]|].
  destruct (load_ca c) as [a|e] eqn:Ea; [|intros [= <- <-]; left; split; [done|by eexists]].
  intros [= <- <-]. right. split; [done|]. by exists c, a.
Qed.
Lemma snap_ok_mono w w' snap :
  snap_ok w snap → (length (authorities (srv w)) ≤ length (authorities (srv w')))%nat → g_limit w ≤ g_limit w' →
  snap_ok w' snap.
Proof. intros [? ?] ? ?. split; lia. Qed.
(** Rejecting, concluding and finishing leave the authorities and the admissions alone. *)
Lemma base_same w w' :
  base_ok w → clock w' = clock w → g_admitted w' = g_admitted w → g_limit w' = g_limit w →
  next (srv w') = next (srv w) → total (srv w') = total (srv w) → authorities (srv w') = authorities (srv w) →
  current (srv w') = current (srv w) → pending w' ⊆ pending w →
  (size (connections (srv w')) ≤ size (connections (srv w)))%nat → base_ok w'.
Proof.
  intros [Hc Ha Hcur Hp Hs] Et Eg El En Eto Eau Ecu Hpp Hsz. split.
  - by rewrite Eg, En, Eto.
  - by rewrite Eau, Et.
  - rewrite Ecu. eapply snap_ok_mono; [done|by rewrite Eau|lia].
  - rewrite Forall_forall in Hp |- *. intros p Hin. eapply snap_ok_mono; [by apply Hp, Hpp|by rewrite Eau|lia].
  - rewrite El. lia.
Qed.
Lemma pending_sub (l l' : list (snapshot * str)) x p : p = l ++ x :: l' → l ++ l' ⊆ p.
Proof. intros ->. intros y. rewrite !elem_of_app. intros [?|?]; [by left|right; by right]. Qed.
Lemma conclude_same b e s :
  authorities (conclude b e s) = authorities s ∧ current (conclude b e s) = current s ∧
  connections (conclude b e s) = connections s ∧ next (conclude b e s) = next s ∧ total (conclude b e s) = total s ∧
  sent (conclude b e s) = sent s ∧ received (conclude b e s) = received s ∧
  stopping (conclude b e s) = stopping s ∧ wg (conclude b e s) = wg s - 1.
Proof. unfold conclude. destruct e as [err|]; [|done]. by destruct (b && _). Qed.
Lemma base_step w w' : base_ok w → step w w' → base_ok w'.
Proof.
  intros Hb Hs. destruct Hs as [w t Ht|w raw|w l snap raw l' s id Hp Ha|w l snap raw l' s Hp Ha
    |w i h a h' a' x m n Hh Hc Hst|w i h a e Hh He Hc|w i h b e Hh He|w load load_ca r s Hca Hr|w|w Hstop].
  - destruct Hb as [Hc Ha Hcur Hp Hs']. split; [done| |done|done|done].
    eapply Forall_impl; [exact Ha|]. intros x Hx. eapply authority_ok_later; [exact Hx|done].
  - destruct Hb as [Hc Ha Hcur Hp Hs']. split; [done|done|exact Hcur|apply Forall_cons; split; [exact Hcur|exact Hp]|done].
  - apply accept_admitted in Ha as (_ & _ & Hlim & -> & ->). destruct Hb as [(Hg & Hn & Ht) Hau Hcur Hpe Hsz].
    split; simpl; [|done|exact Hcur| |].
    + rewrite Hn, Ht, uint64_succ. split; [lia|done].
    + apply pending_sub in Hp. rewrite Forall_forall in Hpe |- *. intros p Hin. by apply Hpe, Hp.
    + assert (limit_of snap ≤ g_limit w) as Hl.
      { rewrite Forall_forall in Hpe. apply (Hpe (snap, raw)). rewrite Hp. set_solver. }
      rewrite map_size_insert. case_match; simpl; lia.
  - apply accept_rejected in Ha as (kind & -> & _).
    eapply base_same; [exact Hb|done..|by eapply pending_sub|done].
  - pose proof (hstep_authority _ _ _ _ _ _ _ _ _ Hst (b_auth _ Hb)) as Hx.
    assert (length (authorities (update i (s_authority (h_snap h)) x a' (srv w))) = length (authorities (srv w))) as Hlen.
    { rewrite update_authorities. by destruct x; [rewrite length_insert|]. }
    destruct Hb as [Hcn Hau Hcur Hpe Hsz]. split; cbn [srv clock pending g_admitted g_limit].
    + destruct x; exact Hcn.
    + rewrite update_authorities. destruct x as [y|]; [|done]. apply Forall_insert; [done|apply Hx].
    + eapply snap_ok_mono; [destruct x; exact Hcur|cbn [srv]; by rewrite Hlen|done].
    + eapply Forall_impl; [exact Hpe|]. intros p Hsn. eapply snap_ok_mono; [exact Hsn|cbn [srv]; by rewrite Hlen|done].
    + rewrite update_connections, map_size_insert, Hc. done.
  - eapply base_same; [exact Hb|done..|]. simpl. rewrite map_size_delete_Some by done. lia.
  - destruct (conclude_same b e (srv w)) as (E1 & E2 & E3 & E4 & E5 & _).
    eapply base_same; [exact Hb|done..|cbn [srv]; by rewrite E3].
  - apply Reload_cases in Hr as [(-> & _)|(_ & c & ca & _ & _ & Hl & ->)].
    + destruct Hb as [Hcn Hau Hcur Hpe Hsz]. split; simpl; [done|done| | |lia].
      * eapply snap_ok_mono; [exact Hcur|done|simpl; lia].
      * eapply Forall_impl; [exact Hpe|]. intros p Hsn. eapply snap_ok_mono; [exact Hsn|done|simpl; lia].
    + destruct Hb as [Hcn Hau Hcur Hpe Hsz]. split; simpl; [done| | | |lia].
      * apply Forall_app; split; [done|]. apply Forall_singleton. specialize (Hca c). rewrite Hl in Hca. by eapply loads_ok.
      * split; simpl; [rewrite length_app; simpl; lia|lia].
      * eapply Forall_impl; [exact Hpe|]. intros p Hsn.
        eapply snap_ok_mono; [exact Hsn|simpl; rewrite length_app; lia|simpl; lia].
  - eapply base_same; [exact Hb|done..].
  - eapply base_same; [exact Hb|done..|]. simpl. by rewrite map_size_fmap.
Qed.
Lemma base_reach w : reach w → base_ok w.
Proof.
  induction 1 as [c a now Hl|w w' _ IH Hs]; [|by eapply base_step].
  split; simpl; [done| | |done|].
  - apply Forall_singleton. by eapply loads_ok.
  - split; simpl; [lia|done].
  - rewrite map_size_empty. lia.
Qed.

(** *** What a handler has established at each place *)
Definition host_ok (snap : snapshot) (hello : ClientHelloInfo) (host : str) (a : active) : Prop :=
  HelloName hello ≠ [] ∧ Domain (HelloName hello) = Ok host ∧ host ∈ Domains (s_config snap) ∧ SNI (record a) = host.
Definition cert_ok (now : Z) (au : list Authority) (snap : snapshot) (host : str) (c : Certificate) : Prop :=
  ∃ x, au !! s_authority snap = Some x ∧ CA.leaf_ok (CA.cert x) (CA.key x) host now c.
Record served (now : Z) (au : list Authority) (h : handler) (hello : ClientHelloInfo) (host : str)
    (c : Certificate) (u : UpConn) (ip : str) (a : active) : Prop := {
  sv_host : host_ok (h_snap h) hello host a;
  sv_cert : cert_ok now au (h_snap h) host c;
  sv_up : h_upstream h = Some u;
  sv_dial : dial_promise (s_config (h_snap h)) host (SupportedProtos hello) u ip }.
Definition answered (cfg : tls_Config) (c : Certificate) (u : UpConn) (ip : str) (a : active) : Prop :=
  cfg = answer c (u_state u) ∧ UpstreamALPN (record a) = NegotiatedProtocol (u_state u) ∧ CUpstream (record a) = ip.
Definition phase_ok (now : Z) (au : list Authority) (h : handler) (a : active) : Prop :=
  match h_phase h with
  | Begin | Handshaking | Returned _ => h_upstream h = None
  | Named hello host => h_upstream h = None ∧ host_ok (h_snap h) hello host a
  | Dialing hello host c => h_upstream h = None ∧ host_ok (h_snap h) hello host a ∧ cert_ok now au (h_snap h) host c
  | Dialled hello host c u mods ip => served now au h hello host c u ip a
  | Answered hello host cfg => ∃ c u ip, served now au h hello host c u ip a ∧ answered cfg c u ip a
  | Relaying hello host cfg => ∃ c u ip, served now au h hello host c u ip a ∧ answered cfg c u ip a ∧
      ClientALPN (record a) = NegotiatedProtocol (u_state u) ∧ VersionTLS12 ≤ ClientTLS (record a)
  | Ended _ _ => False
  end.
Record handler_ok (now : Z) (au : list Authority) (i : Z) (h : handler) (a : active) : Prop := {
  ho_id : ID (record a) = i;
  ho_client : client_denied (h_snap h) (Client (record a)) = false;
  ho_auth : is_Some (au !! s_authority (h_snap h));
  ho_phase : phase_ok now au h a }.

(** The authorities may issue more certificates and others may be loaded. *)
Definition au_sub (au au' : list Authority) : Prop :=
  ∀ k x, au !! k = Some x → ∃ x', au' !! k = Some x' ∧ CA.cert x' = CA.cert x ∧ CA.key x' = CA.key x.
Lemma au_sub_refl au : au_sub au au.
Proof. intros k x Hx. by exists x. Qed.
Lemma au_sub_app au l : au_sub au (au ++ l).
Proof. intros k x Hx. exists x. split; [|done]. by apply lookup_app_l_Some. Qed.
Lemma au_sub_insert au k y y0 :
  au !! k = Some y0 → CA.cert y = CA.cert y0 → CA.key y = CA.key y0 → au_sub au (<[k := y]> au).
Proof.
  intros Hy Hc Hk j x Hx. destruct (decide (j = k)) as [->|Hne].
  - exists y. rewrite list_lookup_insert_eq; [|by eapply lookup_lt_Some]. rewrite Hy in Hx. by injection Hx as <-.
  - exists x. by rewrite list_lookup_insert_ne.
Qed.
Lemma cert_ok_mono now now' au au' snap host c :
  cert_ok now au snap host c → now ≤ now' → au_sub au au' → cert_ok now' au' snap host c.
Proof.
  intros (x & Hx & Hl) Hn Hs. destruct (Hs _ _ Hx) as (x' & Hx' & Hc & Hk). exists x'. split; [done|].
  rewrite Hc, Hk. by eapply CA.leaf_ok_later.
Qed.
(** Only the clock, the authorities and the byte counts can differ. *)
Lemma served_mono now now' au au' h hello host c u ip a a' :
  served now au h hello host c u ip a → now ≤ now' → au_sub au au' → record a' = record a →
  served now' au' h hello host c u ip a'.
Proof.
  intros [Hh Hc Hu Hd] Hn Hs Hr. split; [|by eapply cert_ok_mono|done|done]. unfold host_ok in *. by rewrite Hr.
Qed.
Lemma handler_ok_mono now now' au au' i h a a' :
  handler_ok now au i h a → now ≤ now' → au_sub au au' → record a' = record a → handler_ok now' au' i h a'.
Proof.
  intros [Hi Hc [x Hx] Hp] Hn Hs Hr. split; [by rewrite Hr|by rewrite Hr| |].
  { destruct (Hs _ _ Hx) as (x' & ? & _). by exists x'. }
  unfold phase_ok, answered, host_ok in *.
  destruct (h_phase h); rewrite ?Hr; try done.
  - destruct Hp as (? & ? & ?). split; [done|split; [done|by eapply cert_ok_mono]].
  - by eapply served_mono.
  - destruct Hp as (c & u & ip & Hsv & Hp). exists c, u, ip. split; [by eapply served_mono|done].
  - destruct Hp as (c & u & ip & Hsv & Hp). exists c, u, ip. split; [by eapply served_mono|done].
Qed.

(** The protocol the client is given is the one the upstream selected, so that the check
    after the handshake cannot fail. *)
Lemma negotiated_same cert st offered :
  Compatible (NegotiatedProtocol st) offered = true →
  negotiateALPN (NextProtos (answer cert st)) offered = Ok (NegotiatedProtocol st).
Proof.
  unfold Compatible, negotiateALPN, answer. cbn [NextProtos].
  destruct (str_eqb_spec (NegotiatedProtocol st) "") as [E|Hne]; [by rewrite E|].
  intros (Hm & _)%andb_true_iff. destruct (bool_decide_reflect (offered = [])) as [->|_].
  { by apply str_mem_elem, not_elem_of_nil in Hm. }
  rewrite bool_decide_false by done. simpl. by rewrite Hm.
Qed.
Lemma hello_host_ok c up hello host :
  hello_host c up hello = Ok host →
  up = None ∧ HelloName hello ≠ [] ∧ Domain (HelloName hello) = Ok host ∧ host ∈ Domains c.
Proof.
  unfold hello_host. intros (_ & Hu%guard_Ok & Hk)%bind_Ok. apply bind_Ok in Hk as (_ & Hn%guard_Ok & Hk).
  apply bind_Ok in Hk as (h & Hd & Hk). apply bind_Ok in Hk as (_ & Ha%guard_Ok & [= <-]). unfold AllowsDomain in Ha. bools.
  split_and!; try done. by destruct up; [destruct Hu; eexists|].
Qed.
(** A step of a handler keeps what it has established and establishes what the next place
    requires. *)
Definition au_after (x : option Authority) (k : nat) (au : list Authority) : list Authority :=
  match x with Some y => <[k := y]> au | None => au end.
Lemma hstep_ok now au i h a h' a' x m n :
  hstep now au h a h' a' x m n → Forall (λ y, authority_ok y now) au → handler_ok now au i h a →
  handler_ok now (au_after x (s_authority (h_snap h)) au) i h' a' ∧ h_snap h' = h_snap h.
Proof.
  intros Hs Hau [Hi Hc Hx Hp]. unfold phase_ok in Hp.
  assert (∀ y, is_Some (au_after (Some y) (s_authority (h_snap h)) au !! s_authority (h_snap h))) as Hxi.
  { intros y. simpl. destruct Hx as [y0 Hy0]. exists y. by rewrite list_lookup_insert_eq by (by eapply lookup_lt_Some). }
  destruct Hs as [h a Hph|h a hello host Hph Hh|h a hello e Hph Hh|h a hello host y rnd c y' Hph Hy HC
    |h a hello host y rnd e y' Hph Hy HC|h a hello host c u mods ip Hph Hd|h a hello host c e Hph Hd
    |h a hello host c u mods ip Hph|h a hello host cfg p v Hph Hn Hk Hv|h a hello host cfg p e Hph Hn Hk
    |h a hello host cfg e Hph Hn|h a e Hph|h a hello host cfg k Hph Hk|h a hello host cfg k Hph Hk|h a hello host cfg e Hph];
    try rewrite Hph in Hp; (split; [|done]).
  - by split.
  - apply hello_host_ok in Hh as (? & ? & ? & ?). by split.
  - by split.
  - destruct Hp as [Hu Hh]. pose proof (proj1 (Forall_lookup _ _) Hau _ _ Hy) as Hok.
    destruct (CA.Certificate_for_spec _ _ _ _ _ _ _ Hok (Z.le_refl _) HC) as (_ & E1 & E2 & Hl & _).
    split; [done|done|apply Hxi|]. split; [done|]. split; [done|]. exists y'. rewrite E1, E2. split; [|done].
    simpl. by rewrite list_lookup_insert_eq by (by eapply lookup_lt_Some).
  - by split.
  - destruct Hp as (Hu & Hh & Hce). split; [done|done|done|]. split; [done|done|done|by eapply dials_ok].
  - by split.
  - destruct Hp as [Hh Hce Hu Hd]. split; [done|done|done|]. exists c, u, ip. by split.
  - destruct Hp as (c & u & ip & Hsv & -> & Ha1 & Ha2). split; [done|done|done|]. exists c, u, ip.
    pose proof (dp_alpn _ _ _ _ _ (sv_dial _ _ _ _ _ _ _ _ _ Hsv)) as Hal.
    rewrite (negotiated_same c (u_state u) _ Hal) in Hn. injection Hn as <-.
    destruct Hsv. by split_and!.
  - by split.
  - by split.
  - by split.
  - eapply handler_ok_mono; [by split; [done|done|done|unfold phase_ok; rewrite Hph]|done|apply au_sub_refl|done].
  - eapply handler_ok_mono; [by split; [done|done|done|unfold phase_ok; rewrite Hph]|done|apply au_sub_refl|done].
  - by split.
Qed.

(** *** The table of connections and the handlers

    The numbers are unique as long as fewer than 2^64 connections were admitted. *)
Definition few (w : world) : Prop := g_admitted w < 2 ^ 64.
Record table_ok (w : world) : Prop := {
  t_conn : ∀ i a, connections (srv w) !! i = Some a → ∃ h, handlers w !! i = Some h ∧
    handler_ok (clock w) (authorities (srv w)) i h a;
  t_hand : ∀ i h, handlers w !! i = Some h → 1 ≤ i ≤ g_admitted w ∧
    (is_Some (connections (srv w) !! i) ∨ ((∃ b e, h_phase h = Ended b e) ∧ h_upstream h = None));
  t_wg : wg (srv w) = Z.of_nat (size (handlers w)) }.
(** A step that leaves the table alone. *)
Lemma table_same w w' :
  table_ok w → clock w ≤ clock w' → au_sub (authorities (srv w)) (authorities (srv w')) →
  (∀ i a', connections (srv w') !! i = Some a' → ∃ a, connections (srv w) !! i = Some a ∧ record a' = record a) →
  (∀ i, is_Some (connections (srv w) !! i) → is_Some (connections (srv w') !! i)) →
  handlers w' = handlers w → g_admitted w' = g_admitted w → wg (srv w') = wg (srv w) → table_ok w'.
Proof.
  intros [Hc Hh Hw] Ht Hau Hcs Hcs' Eh Eg Ew. split.
  - intros i a' Ha'. destruct (Hcs i a' Ha') as (a & Ha & Hr). destruct (Hc i a Ha) as (h & Hi & Hok).
    exists h. split; [by rewrite Eh|]. by eapply handler_ok_mono.
  - intros i h Hi. rewrite Eh in Hi. destruct (Hh i h Hi) as [Hr Hor]. rewrite Eg. split; [done|].
    destruct Hor as [?|?]; [left; by apply Hcs'|by right].
  - by rewrite Ew, Eh.
Qed.
Lemma fresh_id w : base_ok w → g_admitted w + 1 < 2 ^ 64 → uint64 (next (srv w) + 1) = g_admitted w + 1.
Proof.
  intros [(Hg & -> & _) _ _ _ _] Hs. rewrite uint64_succ. unfold uint64. apply Z.mod_small. lia.
Qed.
Lemma fresh_unused w : table_ok w → connections (srv w) !! (g_admitted w + 1) = None ∧ handlers w !! (g_admitted w + 1) = None.
Proof.
  intros [Hc Hh _]. assert (handlers w !! (g_admitted w + 1) = None) as E.
  { destruct (handlers w !! (g_admitted w + 1)) eqn:E; [|done]. apply Hh in E as [? _]. lia. }
  split; [|done]. destruct (connections (srv w) !! (g_admitted w + 1)) eqn:E'; [|done].
  apply Hc in E' as (? & ? & _). congruence.
Qed.
(** A connection's handler, and a handler that is past its connection. *)
Lemma t_ok w : table_ok w → ∀ i h a, handlers w !! i = Some h → connections (srv w) !! i = Some a →
  handler_ok (clock w) (authorities (srv w)) i h a.
Proof. intros Ht i h a Hh Hc. destruct (t_conn _ Ht i a Hc) as (h0 & Hi & Hok). rewrite Hh in Hi. by injection Hi as <-. Qed.
Lemma ended_alone w i h b e :
  table_ok w → handlers w !! i = Some h → h_phase h = Ended b e → connections (srv w) !! i = None.
Proof.
  intros Ht Hh He. destruct (connections (srv w) !! i) as [a|] eqn:Hc; [|done].
  destruct (t_ok _ Ht i h a Hh Hc) as [_ _ _ Hph]. unfold phase_ok in Hph. by rewrite He in Hph.
Qed.
(** The steps that change the table: a client let in, a handler's step, the end of a
    connection and the end of its handler. *)
Lemma table_accept w l snap raw l' s id :
  base_ok w → table_ok w → g_admitted w + 1 < 2 ^ 64 → pending w = l ++ (snap, raw) :: l' →
  accept snap raw (clock w) (srv w) = (s, Some id) →
  table_ok (mkWorld s (clock w) (l ++ l') (<[id := mkHandler snap Begin None]> (handlers w))
    (g_admitted w + 1) (g_sent w) (g_received w) (g_limit w)).
Proof.
  intros Hb Ht Hf Hp Ha. apply accept_admitted in Ha as (Hal & _ & _ & -> & ->).
  rewrite (fresh_id w Hb) by done. destruct (fresh_unused w Ht) as [Fc Fh]. destruct Ht as [Hc Hh Hw]. split; simpl.
  - intros i a. destruct (decide (i = g_admitted w + 1)) as [->|Hne].
    + rewrite !lookup_insert_eq. intros [= <-]. eexists. split; [done|]. split; [done|done| |done]. simpl.
      apply lookup_lt_is_Some. pose proof (b_pending _ Hb) as Hpe. rewrite Forall_forall in Hpe.
      apply (Hpe (snap, raw)). rewrite Hp. set_solver.
    + rewrite !lookup_insert_ne by congruence. apply Hc.
  - pose proof (b_count _ Hb) as (Hg & _). intros i h. destruct (decide (i = g_admitted w + 1)) as [->|Hne].
    + rewrite !lookup_insert_eq. intros [= <-]. split; [lia|left; by eexists].
    + rewrite !lookup_insert_ne by congruence. intros Hi. destruct (Hh i h Hi). split; [lia|done].
  - rewrite map_size_insert, Fh, Hw. simpl. lia.
Qed.
Lemma table_handler w i h a h' a' x m n :
  base_ok w → table_ok w → handlers w !! i = Some h → connections (srv w) !! i = Some a →
  hstep (clock w) (authorities (srv w)) h a h' a' x m n →
  table_ok (mkWorld (update i (s_authority (h_snap h)) x a' (srv w)) (clock w) (pending w)
    (<[i := h']> (handlers w)) (g_admitted w) (g_sent w + m) (g_received w + n) (g_limit w)).
Proof.
  intros Hb Ht Hh Hc Hst. pose proof (t_ok _ Ht i h a Hh Hc) as Hok. destruct Ht as [Htc Hth Htw].
  pose proof (hstep_authority _ _ _ _ _ _ _ _ _ Hst (b_auth _ Hb)) as Hx.
  destruct (hstep_ok _ _ _ _ _ _ _ _ _ _ Hst (b_auth _ Hb) Hok) as [Hok' _].
  assert (au_sub (authorities (srv w)) (authorities (update i (s_authority (h_snap h)) x a' (srv w)))) as Hsub.
  { rewrite update_authorities. destruct x as [y|]; [|apply au_sub_refl].
    destruct Hx as (_ & y0 & Hy & ? & ?). by eapply au_sub_insert. }
  split; cbn [srv handlers clock g_admitted]; rewrite ?update_connections.
  - intros j b. destruct (decide (j = i)) as [->|Hne].
    + rewrite !lookup_insert_eq. intros [= <-]. exists h'. split; [done|]. by rewrite update_authorities.
    + rewrite !lookup_insert_ne by congruence. intros Hj. destruct (Htc j b Hj) as (k & Hk & Hkok).
      exists k. split; [done|]. by eapply handler_ok_mono.
  - intros j k. destruct (decide (j = i)) as [->|Hne].
    + rewrite !lookup_insert_eq. intros [= <-]. destruct (Hth i h Hh). split; [done|left; by eexists].
    + rewrite !lookup_insert_ne by congruence. apply Hth.
  - rewrite map_size_insert, Hh. simpl. by destruct x.
Qed.
Lemma table_finish w i h a e :
  table_ok w → handlers w !! i = Some h → h_phase h = Returned e → connections (srv w) !! i = Some a →
  table_ok (mkWorld (finish i a (srv w)) (clock w) (pending w)
    (<[i := at_phase h (Ended (stopping (srv w)) e)]> (handlers w)) (g_admitted w) (g_sent w) (g_received w) (g_limit w)).
Proof.
  intros Ht Hh He Hc. destruct (t_ok _ Ht i h a Hh Hc) as [_ _ _ Hph]. unfold phase_ok in Hph. rewrite He in Hph.
  destruct Ht as [Htc Hth Htw]. split; simpl.
  - intros j b [Hne Hj]%lookup_delete_Some. rewrite lookup_insert_ne by congruence. by apply Htc.
  - intros j k. destruct (decide (j = i)) as [->|Hne].
    + rewrite lookup_insert_eq. intros [= <-]. destruct (Hth i h Hh). split; [done|right]. split; [|done]. by eexists _, _.
    + rewrite lookup_insert_ne, lookup_delete_ne by congruence. apply Hth.
  - rewrite map_size_insert, Hh. done.
Qed.
Lemma table_conclude w i h b e :
  table_ok w → handlers w !! i = Some h → h_phase h = Ended b e →
  table_ok (mkWorld (conclude b e (srv w)) (clock w) (pending w) (delete i (handlers w))
    (g_admitted w) (g_sent w) (g_received w) (g_limit w)).
Proof.
  intros Ht Hh He. pose proof (ended_alone _ _ _ _ _ Ht Hh He) as Hno. destruct Ht as [Htc Hth Htw].
  destruct (conclude_same b e (srv w)) as (E1 & E2 & E3 & E4 & E5 & E6 & E7 & E8 & E9).
  split; cbn [srv handlers clock g_admitted]; rewrite ?E1, ?E3, ?E9.
  - intros j c Hj. rewrite lookup_delete_ne by congruence. by apply Htc.
  - intros j k [Hne Hj]%lookup_delete_Some. by apply Hth.
  - rewrite Htw, map_size_delete_Some by done. assert (size (handlers w) ≠ 0%nat); [|lia].
    intros E. apply map_size_empty_iff in E. rewrite E in Hh. discriminate Hh.
Qed.
Lemma table_step w w' : base_ok w → (few w → table_ok w) → step w w' → few w' → table_ok w'.
Proof.
  intros Hb Ht Hs Hf. assert (table_ok w) as Hw.
  { apply Ht. unfold few in *. destruct Hs; cbn [g_admitted with_srv] in Hf; lia. }
  clear Ht. destruct Hs as [w t Hct|w raw|w l snap raw l' s id Hp Ha|w l snap raw l' s Hp Ha
    |w i h a h' a' x m n Hh Hc Hst|w i h a e Hh He Hc|w i h b e Hh He|w load load_ca r s Hca Hr|w|w Hstop].
  - eapply table_same; [done|done|apply au_sub_refl|simpl; eauto|done..].
  - eapply table_same; [done|done|apply au_sub_refl|simpl; eauto|done..].
  - by eapply table_accept.
  - apply accept_rejected in Ha as (kind & -> & _).
    eapply table_same; [done|done|apply au_sub_refl|simpl; eauto|done..].
  - by eapply table_handler.
  - by eapply table_finish.
  - by eapply table_conclude.
  - apply Reload_cases in Hr as [(-> & _)|(_ & c & ca & _ & _ & _ & ->)];
      (eapply table_same; [done|done| |simpl; eauto|done..]); [apply au_sub_refl|apply au_sub_app].
  - eapply table_same; [done|done|apply au_sub_refl|simpl; eauto|done..].
  - eapply table_same; [done|done|apply au_sub_refl| | |done..]; simpl.
    + intros i a'. rewrite lookup_fmap. intros (a & Ha & ->)%fmap_Some. by exists a.
    + intros i. rewrite lookup_fmap. by intros [a ->].
Qed.
Lemma table_reach w : reach w → few w → table_ok w.
Proof.
  induction 1 as [c a now Hl|w w' Hr IH Hs]; [|eapply table_step; [by apply base_reach|done|done]].
  intros _. by split.
Qed.

(** *** The bytes *)
Definition sumZ (f : active → Z) (m : gmap Z active) : Z := foldr (λ a z, f a + z) 0 (map_to_list m).*2.
Lemma sumZ_perm f (l l' : list active) : l ≡ₚ l' → foldr (λ a z, f a + z) 0 l = foldr (λ a z, f a + z) 0 l'.
Proof. induction 1; simpl; lia. Qed.
Lemma sumZ_new f m i a : m !! i = None → sumZ f (<[i := a]> m) = f a + sumZ f m.
Proof.
  intros Hi. unfold sumZ. rewrite (sumZ_perm f _ (a :: (map_to_list m).*2)); [done|].
  by rewrite map_to_list_insert.
Qed.
Lemma sumZ_delete f m i a : m !! i = Some a → sumZ f m = f a + sumZ f (delete i m).
Proof. intros Hi. rewrite <- (insert_delete_id m i a Hi) at 1. by rewrite sumZ_new by apply lookup_delete_eq. Qed.
Lemma sumZ_insert f m i a a' : m !! i = Some a → sumZ f (<[i := a']> m) = f a' - f a + sumZ f m.
Proof.
  intros Hi. rewrite <- (insert_delete_eq m i a'), sumZ_new by apply lookup_delete_eq.
  rewrite (sumZ_delete f m i a Hi). lia.
Qed.
Lemma sumZ_fmap f g m : (∀ a, f (g a) = f a) → sumZ f (g <$> m) = sumZ f m.
Proof.
  intros Hg. unfold sumZ. rewrite map_to_list_fmap. induction (map_to_list m) as [|[i a] l IH]; [done|].
  csimpl. by rewrite Hg, IH.
Qed.
Lemma int64_add_l a b : int64 (int64 a + b) = int64 (a + b).
Proof.
  unfold int64. replace ((a + 2 ^ 63) mod 2 ^ 64 - 2 ^ 63 + b + 2 ^ 63) with ((a + 2 ^ 63) mod 2 ^ 64 + b) by lia.
  rewrite Zplus_mod_idemp_l. f_equal. f_equal. lia.
Qed.
Lemma int64_idem a : int64 (int64 a) = int64 a.
Proof. pose proof (int64_add_l a 0) as E. by rewrite !Z.add_0_r in E. Qed.
Lemma int64_eq a b c : int64 a = int64 b → int64 (a + c) = int64 (b + c).
Proof. intros E. rewrite <- (int64_add_l a), <- (int64_add_l b). by rewrite E. Qed.
Lemma sum_over_spec f m z : z = int64 z → sum_over f m z = int64 (z + sumZ f m).
Proof.
  intros Hz. unfold sum_over, sumZ. induction (map_to_list m).*2 as [|a l IH]; simpl.
  - by rewrite Z.add_0_r.
  - rewrite IH, int64_add_l. f_equal. lia.
Qed.
(** The finished connections' bytes and those of the connections in the table make up all
    the bytes relayed. *)
Definition balanced (acc : Z) (f : active → Z) (m : gmap Z active) (g : Z) : Prop :=
  acc = int64 acc ∧ int64 (acc + sumZ f m) = int64 g.
Lemma balanced_new acc f m g i a : balanced acc f m g → m !! i = None → f a = 0 → balanced acc f (<[i := a]> m) g.
Proof. intros [? E] Hi Ha. split; [done|]. by rewrite sumZ_new, Ha, Z.add_0_l. Qed.
Lemma balanced_insert acc f m g i a a' n :
  balanced acc f m g → m !! i = Some a → f a' = f a ∧ n = 0 ∨ f a' = int64 (f a + n) →
  balanced acc f (<[i := a']> m) (g + n).
Proof.
  intros [? E] Hi Ha. split; [done|]. rewrite (sumZ_insert f m i a a' Hi).
  destruct Ha as [[-> ->] | ->].
  - rewrite <- (int64_eq _ _ 0 E). f_equal. lia.
  - replace (acc + (int64 (f a + n) - f a + sumZ f m)) with (int64 (f a + n) + (acc - f a + sumZ f m)) by lia.
    rewrite int64_add_l. rewrite <- (int64_eq _ _ n E). f_equal. lia.
Qed.
Lemma balanced_finish acc f m g i a :
  balanced acc f m g → m !! i = Some a → balanced (int64 (acc + f a)) f (delete i m) g.
Proof.
  intros [? E] Hi. split; [by rewrite int64_idem|]. rewrite int64_add_l, <- E, (sumZ_delete f m i a Hi).
  f_equal. lia.
Qed.
Definition bytes_ok (w : world) : Prop :=
  balanced (sent (srv w)) a_sent (connections (srv w)) (g_sent w) ∧
  balanced (received (srv w)) a_received (connections (srv w)) (g_received w).
Lemma hstep_bytes now au h a h' a' x m n :
  hstep now au h a h' a' x m n →
  (a_sent a' = a_sent a ∧ m = 0 ∨ a_sent a' = int64 (a_sent a + m)) ∧
  (a_received a' = a_received a ∧ n = 0 ∨ a_received a' = int64 (a_received a + n)).
Proof. by intros []; split; (left; done) || (right; done). Qed.
Lemma bytes_step w w' : base_ok w → table_ok w → few w' → bytes_ok w → step w w' → bytes_ok w'.
Proof.
  intros Hb Ht Hf [Hs Hr] Hst. destruct Hst as [w t Hct|w raw|w l snap raw l' s id Hp Ha|w l snap raw l' s Hp Ha
    |w i h a h' a' x m n Hh Hc Hst|w i h a e Hh He Hc|w i h b e Hh He|w load load_ca r s Hca Hrl|w|w Hstop]; try done.
  - apply accept_admitted in Ha as (_ & _ & _ & -> & ->). unfold few in Hf. cbn [g_admitted] in Hf.
    rewrite (fresh_id w Hb) by lia. destruct (fresh_unused w Ht) as [Fc _]. split; by apply balanced_new.
  - apply accept_rejected in Ha as (kind & -> & _). done.
  - apply hstep_bytes in Hst as [Em En].
    split; cbn [srv g_sent g_received]; rewrite update_connections; destruct x; by eapply balanced_insert.
  - split; cbn [srv g_sent g_received finish sent received connections]; by apply balanced_finish.
  - destruct (conclude_same b e (srv w)) as (E1 & E2 & E3 & E4 & E5 & E6 & E7 & E8 & E9).
    split; cbn [srv g_sent g_received]; by rewrite E3, ?E6, ?E7.
  - apply Reload_cases in Hrl as [(-> & _)|(_ & c & ca & _ & _ & _ & ->)]; done.
  - split; unfold balanced; simpl; by rewrite sumZ_fmap.
Qed.
Lemma few_step w w' : step w w' → few w' → few w.
Proof. unfold few. intros []; simpl; lia. Qed.
Lemma bytes_reach w : reach w → few w → bytes_ok w.
Proof.
  induction 1 as [c a now Hl|w w' Hr IH Hs]; intros Hf; [done|].
  pose proof (few_step _ _ Hs Hf). eapply bytes_step; eauto using base_reach, table_reach.
Qed.

(** *** Progress: the steps of a handler, transfers apart, lead to its end *)
Definition rank (p : phase) : nat :=
  match p with
  | Begin => 8 | Handshaking => 7 | Named _ _ => 6 | Dialing _ _ _ => 5 | Dialled _ _ _ _ _ _ => 4
  | Answered _ _ _ => 3 | Relaying _ _ _ => 2 | Returned _ => 1 | Ended _ _ => 0
  end.
Lemma hstep_rank now au h a h' a' x m n :
  hstep now au h a h' a' x m n → (m = 0 ∧ n = 0 ∧ (rank (h_phase h') < rank (h_phase h))%nat) ∨ (h' = h ∧ 0 < m + n).
Proof.
  intros Hs. destruct Hs as [? ? Hp|? ? ? ? Hp|? ? ? ? Hp|? ? ? ? ? ? ? ? Hp|? ? ? ? ? ? ? ? Hp|? ? ? ? ? ? ? ? Hp
    |? ? ? ? ? ? Hp|? ? ? ? ? ? ? ? Hp|? ? ? ? ? ? ? Hp|? ? ? ? ? ? ? Hp|? ? ? ? ? ? Hp|? ? ? Hp|? ? ? ? ? ? Hp|? ? ? ? ? ? Hp|? ? ? ? ? ? Hp];
    try (right; split; [done|lia]); left; (split; [done|split; [done|]]); simpl;
    try (destruct Hp as [Hp|(? & ? & ? & Hp)]); rewrite Hp; simpl; lia.
Qed.
Definition no_entropy : Entropy := CA.mkEntropy (Err CA.not_valid) (Err CA.not_valid) None 0.
Lemma handler_moves now au i h a :
  handler_ok now au i h a → (∀ e, h_phase h ≠ Returned e) → ∃ h' a' x, hstep now au h a h' a' x 0 0 ∧ h' ≠ h.
Proof.
  intros [_ _ [x Hx] Hp] Hnr. unfold phase_ok in Hp.
  assert (∀ h', (rank (h_phase h') < rank (h_phase h))%nat → h' ≠ h) as Hne by (intros h' ? ->; lia).
  assert (∀ h' a' y, hstep now au h a h' a' y 0 0 → ∃ h' a' x, hstep now au h a h' a' x 0 0 ∧ h' ≠ h) as Hgo.
  { intros h' a' y Hs. exists h', a', y. split; [done|]. apply Hne. destruct (hstep_rank _ _ _ _ _ _ _ _ _ Hs) as [(_ & _ & ?)|[_ ?]]; lia. }
  destruct (h_phase h) eqn:E.
  - eapply Hgo. by apply h_begin.
  - eapply Hgo. apply (h_handshake_failed _ _ _ _ CA.not_valid). by left.
  - destruct (Certificate_for x now no_entropy host) as [[c|e] y] eqn:EC; eapply Hgo.
    + by eapply h_certificate.
    + by eapply h_no_certificate.
  - destruct (dials_total (s_config (h_snap h)) host (SupportedProtos hello)) as [[[[u mods] ip]|e] Hd]; eapply Hgo.
    + by eapply h_dial.
    + by eapply h_dial_failed.
  - eapply Hgo. by eapply h_answer.
  - eapply Hgo. apply (h_handshake_failed _ _ _ _ CA.not_valid). right. by eexists _, _, _.
  - eapply Hgo. by apply (h_relayed _ _ _ _ _ _ _ None E).
  - by edestruct Hnr.
  - done.
Qed.
(** The work left: what the handlers still have to do. *)
Definition work (m : gmap Z handler) : nat := foldr (λ p z, (S (rank (h_phase p.2)) + z)%nat) 0%nat (map_to_list m).
Lemma work_perm (l l' : list (Z * handler)) : l ≡ₚ l' →
  foldr (λ p z, (S (rank (h_phase p.2)) + z)%nat) 0%nat l = foldr (λ p z, (S (rank (h_phase p.2)) + z)%nat) 0%nat l'.
Proof. induction 1; cbn [foldr]; lia. Qed.
Lemma work_new m i h : m !! i = None → work (<[i := h]> m) = (S (rank (h_phase h)) + work m)%nat.
Proof.
  intros Hi. unfold work. by rewrite (work_perm _ ((i, h) :: map_to_list m)) by (by apply map_to_list_insert).
Qed.
Lemma work_delete m i h : m !! i = Some h → work m = (S (rank (h_phase h)) + work (delete i m))%nat.
Proof. intros Hi. rewrite <- (insert_delete_id m i h Hi) at 1. by rewrite work_new by apply lookup_delete_eq. Qed.
Lemma work_insert m i h h' : m !! i = Some h → (rank (h_phase h') < rank (h_phase h))%nat →
  (work (<[i := h']> m) < work m)%nat.
Proof.
  intros Hi Hr. rewrite <- (insert_delete_eq m i h'), work_new by apply lookup_delete_eq.
  rewrite (work_delete m i h Hi). lia.
Qed.
Lemma handlers_move w : reach w → few w → handlers w ≠ ∅ →
  ∃ w', step w w' ∧ (work (handlers w') < work (handlers w))%nat ∧ g_admitted w' = g_admitted w ∧
    stopping (srv w') = stopping (srv w).
Proof.
  intros Hr Hf Hne. apply map_choose in Hne as (i & h & Hi). pose proof (table_reach w Hr Hf) as [Hc Hh Hw].
  destruct (Hh i h Hi) as [_ [[a Ha]|[(b & e & He) _]]].
  - destruct (Hc i a Ha) as (h0 & Hi0 & Hok). rewrite Hi in Hi0. injection Hi0 as <-.
    destruct (h_phase h) as [| | | | | | |e|] eqn:Eph.
    8:{ eexists. split; [by eapply s_finish|]. cbn [handlers g_admitted srv]. split_and!; [|done|done].
        eapply work_insert; [done|]. rewrite Eph. simpl. lia. }
    all: destruct (handler_moves _ _ _ _ _ Hok) as (h' & a' & x & Hs & Hne); [by rewrite Eph|];
      eexists; (split; [by eapply s_handler|]); cbn [handlers g_admitted srv]; (split_and!; [|done|by destruct x]);
      (eapply work_insert; [done|]); apply hstep_rank in Hs as [(_ & _ & ?)|[? _]]; [lia|done].
  - eexists. split; [by eapply s_conclude|]. cbn [handlers g_admitted srv].
    destruct (conclude_same b e (srv w)) as (_ & _ & _ & _ & _ & _ & _ & E8 & _). split_and!; [|done|done].
    rewrite (work_delete _ i h Hi). lia.
Qed.
End Invariants.

(** *** The settings a reload keeps *)
Record same_settings (c d : Config) : Prop := {
  ss_listen : Listen c = Listen d;
  ss_port : Port (Config.Upstream c) = Port (Config.Upstream d);
  ss_ca : Config.CA c = Config.CA d;
  ss_state : StateDir (Config.Runtime c) = StateDir (Config.Runtime d);
  ss_socket : ControlSocket (Config.Runtime c) = ControlSocket (Config.Runtime d);
  ss_format : Format (Log c) = Format (Log d) }.
Lemma RestartRequired_false c d : RestartRequired c d = false ↔ same_settings c d.
Proof.
  unfold RestartRequired. split.
  - intros E. bools. by split.
  - intros [E1 E2 E3 E4 E5 E6]. rewrite E1, E2, E3, E4, E5, E6, Z.eqb_refl, !str_eqb_refl, !bool_decide_true by done. done.
Qed.
Lemma same_settings_trans c d e : same_settings c d → same_settings d e → same_settings c e.
Proof. intros [] []. split; congruence. Qed.
(** A property of every configuration in play: the one in force, and those that waiting
    clients and handlers hold. *)
Record policies `{Unicode, IDNA, Dialer, AuthoritySource} (P : Config → Prop) (w : world) : Prop := {
  po_current : P (s_config (current (srv w)));
  po_pending : Forall (λ p, P (s_config p.1)) (pending w);
  po_handlers : ∀ i h, handlers w !! i = Some h → P (s_config (h_snap h)) }.
Lemma hstep_snap `{Unicode, IDNA, Dialer, AuthoritySource} now au h a h' a' x m n :
  hstep now au h a h' a' x m n → h_snap h' = h_snap h.
Proof. by intros []. Qed.
(** It is enough that the next configuration in force has it. *)
Lemma policies_step `{Unicode, IDNA, Dialer, AuthoritySource} P w w' :
  policies P w → step w w' → P (s_config (current (srv w'))) → policies P w'.
Proof.
  intros [Hc Hp Hh] Hs Hnew. destruct Hs as [w t Hct|w raw|w l snap raw l' s id Hpe Ha|w l snap raw l' s Hpe Ha
    |w i h a h' a' x m n Hi Hco Hst|w i h a e Hi He Hco|w i h b e Hi He|w load load_ca r s Hca Hrl|w|w _]; try (by split).
  - split; [done|by apply Forall_cons|done].
  - rewrite Forall_forall in Hp. split; [done| |].
    + apply pending_sub in Hpe. apply Forall_forall. intros p Hin. by apply Hp, Hpe.
    + cbn [handlers]. intros j h [[<- <-]|[_ Hj]]%lookup_insert_Some; [|by eapply Hh].
      apply (Hp (snap, raw)). rewrite Hpe. set_solver.
  - rewrite Forall_forall in Hp. split; [done| |done].
    apply pending_sub in Hpe. apply Forall_forall. intros p Hin. by apply Hp, Hpe.
  - split; [done|done|]. cbn [handlers]. intros j k [[<- <-]|[_ Hj]]%lookup_insert_Some; [|by eapply Hh].
    rewrite (hstep_snap _ _ _ _ _ _ _ _ _ Hst). by eapply Hh.
  - split; [done|done|]. cbn [handlers]. intros j k [[<- <-]|[_ Hj]]%lookup_insert_Some; [exact (Hh _ _ Hi)|by eapply Hh].
  - split; cbn [srv pending handlers]; [done|done|]. intros j k [_ Hj]%lookup_delete_Some. by eapply Hh.
Qed.
(** Only a reload puts another configuration in force and moves the limit. *)
Lemma current_step `{Unicode, IDNA, Dialer, AuthoritySource} w w' : step w w' →
  same_settings (s_config (current (srv w))) (s_config (current (srv w'))) ∧
  (g_limit w' = g_limit w ∨ g_limit w' = Z.max (g_limit w) (limit_of (current (srv w')))).
Proof.
  assert (∀ c, same_settings c c) as Hrefl by (by split).
  intros Hs. destruct Hs as [w t Hct|w raw|w l snap raw l' s id Hpe Ha|w l snap raw l' s Hpe Ha
    |w i h a h' a' x m n Hi Hco Hst|w i h a e Hi He Hco|w i h b e Hi He|w load load_ca r s Hca Hrl|w|w _];
    (split; [|by first [left; reflexivity | right; reflexivity]]); try done.
  - by apply accept_admitted in Ha as (_ & _ & _ & _ & ->).
  - by apply accept_rejected in Ha as (kind & -> & _).
  - by destruct x.
  - destruct (conclude_same b e (srv w)) as (_ & E2 & _). cbn [srv]. by rewrite E2.
  - apply Reload_cases in Hrl as [(-> & _)|(_ & d & ca & _ & Hres & _ & ->)]; [done|]. simpl. by apply RestartRequired_false.
Qed.
Notation settled_config c := (policies (same_settings c)).
Lemma settled_step `{Unicode, IDNA, Dialer, AuthoritySource} c w w' :
  settled_config c w → step w w' → settled_config c w'.
Proof.
  intros Hw Hs. eapply policies_step; [exact Hw|exact Hs|]. eapply same_settings_trans; [apply Hw|by apply current_step].
Qed.
Lemma sorted_strict (l : list Connection) :
  NoDup (map ID l) → StronglySorted by_ID l → StronglySorted (λ c d, ID c < ID d) l.
Proof.
  induction l as [|c l IH]; [by constructor|]. intros [Hc Hn]%NoDup_cons Hs. inversion_clear Hs as [|? ? Hs' Hf].
  constructor; [by apply IH|]. rewrite Forall_forall in Hf |- *. intros d Hd. specialize (Hf d Hd). unfold by_ID in Hf.
  assert (ID c ≠ ID d); [|lia]. intros E. apply Hc. rewrite E. by apply list_elem_of_fmap_2.
Qed.

(** ** Properties *)
Section Properties.
Context `{Unicode, IDNA, Dialer, AuthoritySource}.

(** C1: Nothing is relayed without authorisation. Whatever the interleaving of the
    goroutines, a connection that has reached the relay comes from a client address its
    configuration allows, asked for a non-empty name whose normal form is one of the
    configured domains, was shown a certificate for exactly that name from the CA of its
    configuration, and is joined to an upstream connection that was dialled for the same
    name, to a permitted address, with certificate checks on; and both sides speak the same
    protocol, one the client offered. *)
Theorem relaying_authorized w i h hello host cfg :
  reach w → g_admitted w < 2 ^ 64 → handlers w !! i = Some h → h_phase h = Relaying hello host cfg →
  ∃ a u x, connections (srv w) !! i = Some a ∧
    client_denied (h_snap h) (Client (record a)) = false ∧
    HelloName hello ≠ [] ∧ Domain (HelloName hello) = Ok host ∧ host ∈ Domains (s_config (h_snap h)) ∧
    SNI (record a) = host ∧
    authorities (srv w) !! s_authority (h_snap h) = Some x ∧
    CA.leaf_ok (CA.cert x) (CA.key x) host (clock w) (CertificateOf cfg) ∧
    h_upstream h = Some u ∧
    dial_promise (s_config (h_snap h)) host (SupportedProtos hello) u (CUpstream (record a)) ∧
    ClientALPN (record a) = NegotiatedProtocol (u_state u) ∧
    UpstreamALPN (record a) = NegotiatedProtocol (u_state u) ∧
    VersionTLS12 ≤ ClientTLS (record a).
Proof.
  intros Hr Hf Hi Hp. destruct (table_reach w Hr Hf) as [Hc Hh _].
  destruct (Hh i h Hi) as [_ [[a Ha]|[(b & e & He) _]]]; [|congruence].
  destruct (Hc i a Ha) as (h0 & Hi0 & [_ Hcl _ Hok]). rewrite Hi in Hi0. injection Hi0 as <-.
  unfold phase_ok in Hok. rewrite Hp in Hok.
  destruct Hok as (c & u & ip & [(H1' & H2' & H3' & H4') (x & Hx & Hl) Hu Hd] & (-> & E1 & E2) & E3 & E4).
  exists a, u, x. split_and!; try done. by rewrite E2.
Qed.

(** The last check cannot fail. In every reachable state, when the callback has answered
    a client with a configuration, any protocol the client's handshake can choose is the one
    the upstream selected, so the comparison after the handshake succeeds; and a second
    callback on the connection is refused. *)
Theorem answered_agrees w i h hello host cfg p hello' :
  reach w → g_admitted w < 2 ^ 64 → handlers w !! i = Some h → h_phase h = Answered hello host cfg →
  negotiateALPN (NextProtos cfg) (SupportedProtos hello) = Ok p →
  handshake_check (h_upstream h) p = Ok tt ∧
  is_ok (hello_host (s_config (h_snap h)) (h_upstream h) hello') = false.
Proof.
  intros Hr Hf Hi Hp Hn. destruct (table_reach w Hr Hf) as [Hc Hh _].
  destruct (Hh i h Hi) as [_ [[a Ha]|[(b & e & He) _]]]; [|congruence].
  destruct (Hc i a Ha) as (h0 & Hi0 & [_ _ _ Hok]). rewrite Hi in Hi0. injection Hi0 as <-.
  unfold phase_ok in Hok. rewrite Hp in Hok.
  destruct Hok as (c & u & ip & [_ _ Hu Hd] & (-> & _)). rewrite Hu. split.
  - rewrite (negotiated_same _ _ _ (dp_alpn _ _ _ _ _ Hd)) in Hn. injection Hn as <-.
    unfold handshake_check. by rewrite str_eqb_refl.
  - unfold hello_host. by rewrite bool_decide_true.
Qed.

(** C20: The byte counts are exact. In every reachable state the totals that [Status] reports
    are all the bytes relayed so far in each direction, over live and finished connections,
    as 64-bit integers: closing a connection neither loses nor repeats any. *)
Theorem bytes_accounted w e :
  reach w → g_admitted w < 2 ^ 64 →
  SBytesSent (Status_of e (srv w)) = int64 (g_sent w) ∧
  SBytesReceived (Status_of e (srv w)) = int64 (g_received w).
Proof.
  intros Hr Hf. destruct (bytes_reach w Hr Hf) as [[E1 E2] [E3 E4]]. simpl.
  by rewrite !sum_over_spec.
Qed.

(** The list of connections is right: in every reachable state it holds exactly the live
    connections, each once, with its current byte counts, in the order of their numbers;
    numbers are never reused, every one is between 1 and the count of admissions; and there
    are never more than the largest limit a configuration has set. *)
Theorem Connections_spec w :
  reach w → g_admitted w < 2 ^ 64 →
  StronglySorted (λ c d, ID c < ID d) (Connections (srv w)) ∧
  (∀ c, c ∈ Connections (srv w) ↔ ∃ i a, connections (srv w) !! i = Some a ∧ c = with_bytes a) ∧
  (∀ c, c ∈ Connections (srv w) → 1 ≤ ID c ≤ g_admitted w) ∧
  length (Connections (srv w)) = Active (Status_of [] (srv w)) ∧
  Z.of_nat (length (Connections (srv w))) ≤ Z.max 0 (g_limit w).
Proof.
  intros Hr Hf. pose proof (table_reach w Hr Hf) as [Hc Hh _]. pose proof (base_reach w Hr) as Hb.
  set (l := map (λ p, with_bytes p.2) (map_to_list (connections (srv w)))).
  assert (Connections (srv w) ≡ₚ l) as Hperm by apply merge_sort_Permutation.
  assert (∀ i a, connections (srv w) !! i = Some a → ID (with_bytes a) = i) as Hid.
  { intros i a Ha. destruct (Hc i a Ha) as (h & _ & Hok). apply (ho_id _ _ _ _ _ Hok). }
  assert (∀ c, c ∈ Connections (srv w) ↔ ∃ i a, connections (srv w) !! i = Some a ∧ c = with_bytes a) as Hin.
  { intros c. rewrite Hperm. subst l. rewrite list_elem_of_fmap. split.
    - intros ([i a] & -> & Ha%elem_of_map_to_list). by exists i, a.
    - intros (i & a & Ha & ->). exists (i, a). split; [done|]. by apply elem_of_map_to_list. }
  assert (length (Connections (srv w)) = size (connections (srv w))) as Hlen.
  { rewrite Hperm. subst l. by rewrite length_fmap, length_map_to_list. }
  split_and!; [|done| |done|rewrite Hlen; by apply b_size].
  - apply sorted_strict.
    + rewrite Hperm. subst l. rewrite map_map. rewrite (list_fmap_ext _ fst).
      * apply NoDup_fst_map_to_list.
      * intros j [i a] Hj. apply list_elem_of_lookup_2, elem_of_map_to_list in Hj. by apply Hid.
    + apply StronglySorted_merge_sort; [intros x y z; unfold by_ID; lia|intros x y; unfold by_ID; lia].
  - intros c (i & a & Ha & ->)%Hin. rewrite (Hid i a Ha). destruct (Hc i a Ha) as (h & Hi & _). by apply (Hh i h).
Qed.

(** C19: A shutdown drains the server. Once it is stopping, no step of any goroutine admits a
    connection or starts a handler, and it stays stopping; from every reachable stopping
    state the handlers can run to their ends, each step but a transfer bringing the end
    nearer ([work]); and when the wait group is down to zero there is no handler and no
    connection left. *)
Theorem shutdown_drains w :
  reach w → g_admitted w < 2 ^ 64 → stopping (srv w) = true →
  (∀ w', step w w' → stopping (srv w') = true ∧ g_admitted w' = g_admitted w ∧
     dom (handlers w') ⊆ dom (handlers w)) ∧
  (∀ i h a h' a' x m n, handlers w !! i = Some h → hstep (clock w) (authorities (srv w)) h a h' a' x m n →
     0 < m + n ∨ (work (<[i := h']> (handlers w)) < work (handlers w))%nat) ∧
  (∃ w', rtc step w w' ∧ handlers w' = ∅ ∧ wg (srv w') = 0) ∧
  (wg (srv w) = 0 → handlers w = ∅ ∧ connections (srv w) = ∅).
Proof.
  intros Hr Hf Hstop. split_and!.
  - intros w' Hs. destruct Hs as [w t Hct|w raw|w l snap raw l' s id Hp Ha|w l snap raw l' s Hp Ha
      |w i h a h' a' x m n Hh Hc Hst|w i h a e Hh He Hc|w i h b e Hh He|w load load_ca r s Hca Hrl|w|w _]; try done.
    + by apply accept_admitted in Ha as (_ & ? & _); congruence.
    + by apply accept_rejected in Ha as (kind & -> & _).
    + simpl. split_and!; [by destruct x|done|]. rewrite dom_insert_lookup_L; [done|by eexists].
    + simpl. split_and!; [done|done|]. rewrite dom_insert_lookup_L; [done|by eexists].
    + destruct (conclude_same b e (srv w)) as (_ & _ & _ & _ & _ & _ & _ & E8 & _).
      cbn [srv handlers g_admitted]. rewrite E8, dom_delete_L. split_and!; [done|done|set_solver].
    + apply Reload_cases in Hrl as [(-> & _)|(_ & c & ca & _ & _ & _ & ->)]; done.
  - intros i h a h' a' x m n Hi Hs. apply hstep_rank in Hs as [(_ & _ & ?)|[_ ?]]; [right|by left].
    by apply (work_insert _ _ h).
  - remember (work (handlers w)) as k eqn:Hk. revert w Hr Hf Hstop Hk.
    induction k as [k IH] using lt_wf_ind. intros w Hr Hf Hstop Hk.
    destruct (decide (handlers w = ∅)) as [E|Hne].
    { exists w. split_and!; [done|done|]. rewrite (t_wg _ (table_reach w Hr Hf)), E. done. }
    destruct (handlers_move w Hr Hf Hne) as (w1 & Hs & Hlt & Hg & Hst).
    destruct (IH (work (handlers w1)) ltac:(lia) w1) as (w' & Hrtc & Hd); [by eapply reach_step|by rewrite Hg|congruence|done|].
    exists w'. split; [by eapply rtc_l|done].
  - intros Hw. destruct (table_reach w Hr Hf) as [Hc Hh Hwg].
    assert (handlers w = ∅) as E by (apply map_size_empty_iff; lia). split; [done|].
    apply map_empty. intros i. destruct (connections (srv w) !! i) as [a|] eqn:Ea; [|done].
    destruct (Hc i a Ea) as (h & Hi & _). by rewrite E, lookup_empty in Hi.
Qed.

(** A reload cannot change what needs a restart. In every state a server can reach from
    its start with the configuration [c], the configuration in force and the one each live
    connection was admitted under have [c]'s listeners, upstream port, CA files, state
    directory, control socket and log format. *)
Theorem fixed_settings c a now w :
  rtc step (New_world c a now) w →
  same_settings c (s_config (current (srv w))) ∧
  ∀ i h, handlers w !! i = Some h → same_settings c (s_config (h_snap h)).
Proof.
  intros Hr. enough (settled_config c w) as [? ? ?] by done.
  assert (settled_config c (New_world c a now)) as Hstart by (split; [done|by apply Forall_nil|done]).
  induction Hr as [w|w1 w2 w3 Hs Hr IH]; [done|]. apply IH. by eapply settled_step.
Qed.
End Properties.

(** ** The components behind the interfaces *)
(** [DialUpstream], over any network. *)
#[global] Instance upstream_dialer `{Unicode, Profiles.UTLS} : Dialer.
Proof.
  refine {| dials c host offered r := ∃ (N : Network) Lookup deadline,
              r = (DialUpstream Lookup deadline c host offered).1 |}.
  - intros c host offered u mods ip (N & Lookup & deadline & E). unfold DialUpstream in E.
    destruct (Lookup host) as [ips|e]; [|done]. symmetry in E.
    apply try_ips_Ok in E as (j & a & _ & Ha & _).
    destruct (attempt_Ok _ _ _ _ _ _ _ _ _ Ha) as (_ & [Hn _ Hal _] & local & _ & Hp & ->).
    destruct (New_conn _ _ _ _ _ _ _ Hn) as (? & ? & ?). split; [done|done|done|]. by exists local, a.
  - intros c host offered. by eexists _, demo_network, (λ _, Ok demo_ips), None.
Defined.
(** [ca.Load], on any file system and with any encoding of certificates. *)
#[global] Instance ca_source : AuthoritySource.
Proof.
  refine {| loads c now r := ∃ (K : Fsutil.Kernel) (E : CA.Encoding) o, CA.dated_in_seconds ∧
              r = (CA.Load (Cert (Config.CA c)) (Key (Config.CA c)) now o).1 |}.
  intros c now a (K & E & o & Hd & Hl). symmetry in Hl. by eapply CA.Load_ok.
Defined.

(** ** Witnesses *)
(** A server started on the CA that [CA.Init] makes, and one connection up to the relay. *)
#[local] Existing Instances ascii_only id_idna Profiles.demo_utls.
Definition demo_config : Config := Defaults "linux".
Definition demo_ca_files : result CA.Info * Fsutil.os :=
  @CA.Init Fsutil.no_faults CA.demo_encoding "/var/lib/utlsproxy/ca" "test CA" Hour 0 CA.demo_entropy
    (Fsutil.mkOs Fsutil.demo_fs 0 []).
Definition demo_load : result Authority :=
  (@CA.Load Fsutil.no_faults CA.demo_encoding (Cert (Config.CA demo_config)) (Key (Config.CA demo_config)) Minute
     demo_ca_files.2).1.
Definition demo_au : Authority := Eval vm_compute in match demo_load with Ok a => a | Err _ => CA.demo_authority end.
Lemma demo_loads : loads demo_config Minute (Ok demo_au).
Proof.
  exists Fsutil.no_faults, CA.demo_encoding, demo_ca_files.2. split; [exact CA.demo_dated|].
  vm_compute. reflexivity.
Qed.
Definition demo_w0 : world := New_world demo_config demo_au Minute.
Lemma demo_w0_reach : reach demo_w0.
Proof. exact (reach_new _ _ _ demo_loads). Qed.
Definition demo_snap : snapshot := mkSnapshot demo_config 0 1.
Definition demo_raw : str := "127.0.0.1:51000".
Definition demo_hello : ClientHelloInfo := mkHello "TLS.peet.ws" ["h2" : str; "http/1.1" : str].
(** The states of the run, one per step. *)
Definition demo_act (w : world) : active := default (new_active demo_snap 1 Minute demo_raw) (connections (srv w) !! 1).
Definition demo_h (w : world) : handler := default (mkHandler demo_snap Begin None) (handlers w !! 1).
Definition demo_w1 : world := mkWorld (srv demo_w0) Minute [(demo_snap, demo_raw)] ∅ 0 0 0 1024.
Definition demo_w2 : world :=
  mkWorld (accept demo_snap demo_raw Minute (srv demo_w1)).1 Minute ([] ++ [])
    (<[1 := mkHandler demo_snap Begin None]> ∅) (0 + 1) 0 0 1024.
(** The world after a step of connection 1. *)
Definition demo_next (w : world) (h' : handler) (a' : active) (x : option Authority) (m : Z) : world :=
  mkWorld (update 1 0 x a' (srv w)) (clock w) (pending w) (<[1 := h']> (handlers w)) (g_admitted w)
    (g_sent w + m) (g_received w + 0) (g_limit w).
Lemma demo_step w h h' a a' x m :
  reach w → handlers w !! 1 = Some h → connections (srv w) !! 1 = Some a → s_authority (h_snap h) = 0%nat →
  hstep (clock w) (authorities (srv w)) h a h' a' x m 0 → reach (demo_next w h' a' x m).
Proof.
  intros Hr Hh Ha Hs Hst. eapply reach_step; [exact Hr|].
  pose proof (s_handler w 1 h a h' a' x m 0 Hh Ha Hst) as Hw. by rewrite Hs in Hw.
Qed.
Lemma demo_w2_reach : reach demo_w2.
Proof.
  assert (reach demo_w1) as R1 by exact (reach_step _ _ demo_w0_reach (s_arrive demo_w0 demo_raw)).
  refine (reach_step _ _ R1 (s_accept demo_w1 [] demo_snap demo_raw [] _ 1 eq_refl _)).
  vm_compute. reflexivity.
Qed.
Definition demo_host : str := "tls.peet.ws".
Definition demo_cert : result Certificate * Authority := Certificate_for demo_au Minute CA.demo_entropy demo_host.
Definition demo_leaf : Certificate := Eval vm_compute in match demo_cert.1 with Ok c => c | Err _ => CA.demo_leaf end.
Definition demo_au' : Authority := Eval vm_compute in demo_cert.2.
Definition demo_h0 : handler := mkHandler demo_snap Begin None.
Definition demo_h1 : handler := at_phase demo_h0 Handshaking.
Definition demo_h2 : handler := at_phase demo_h1 (Named demo_hello demo_host).
Definition demo_h3 : handler := at_phase demo_h2 (Dialing demo_hello demo_host demo_leaf).
Definition demo_h4 : handler :=
  mkHandler demo_snap (Dialled demo_hello demo_host demo_leaf demo_up [] "10.0.0.2:443") (Some demo_up).
Definition demo_cfg : tls_Config := answer demo_leaf (u_state demo_up).
Definition demo_h5 : handler := at_phase demo_h4 (Answered demo_hello demo_host demo_cfg).
Definition demo_h6 : handler := at_phase demo_h5 (Relaying demo_hello demo_host demo_cfg).
Definition demo_a1 : active := set_cancel (new_active demo_snap 1 Minute demo_raw).
Definition demo_a2 : active := on_record (set_SNI demo_host) demo_a1.
Definition demo_a5 : active := on_record (set_upstream "10.0.0.2:443" [] (u_state demo_up)) demo_a2.
Definition demo_a6 : active := on_record (set_relaying 772 "h2") demo_a5.
Definition demo_w5 : world :=
  demo_next (demo_next (demo_next demo_w2 demo_h1 demo_a1 None 0) demo_h2 demo_a2 None 0)
    demo_h3 demo_a2 (Some demo_au') 0.
Definition demo_w7 : world := demo_next (demo_next demo_w5 demo_h4 demo_a2 None 0) demo_h5 demo_a5 None 0.
Definition demo_w9 : world := demo_next (demo_next demo_w7 demo_h6 demo_a6 None 0) demo_h6 (add_sent 100 demo_a6) None 100.
Ltac demo_go h a := eapply (demo_step _ h _ a);
  [|vm_compute; reflexivity|vm_compute; reflexivity|reflexivity|].
Lemma demo_w5_reach : reach demo_w5.
Proof.
  demo_go demo_h2 demo_a2; [demo_go demo_h1 demo_a1; [demo_go demo_h0 (new_active demo_snap 1 Minute demo_raw)|]|].
  - exact demo_w2_reach.
  - by apply h_begin.
  - by apply h_hello.
  - eapply (h_certificate _ _ _ _ demo_hello demo_host demo_au CA.demo_entropy); [reflexivity|reflexivity|].
    vm_compute. reflexivity.
Qed.
Lemma demo_w7_reach : reach demo_w7.
Proof.
  demo_go demo_h4 demo_a2; [demo_go demo_h3 demo_a2|].
  - exact demo_w5_reach.
  - apply (h_dial _ _ demo_h3 demo_a2 demo_hello demo_host demo_leaf demo_up [] "10.0.0.2:443"); [reflexivity|].
    exists demo_network, (λ _, Ok demo_ips), (Some 10). vm_compute. reflexivity.
  - by apply (h_answer _ _ demo_h4 _ demo_hello demo_host demo_leaf demo_up []).
Qed.
Lemma demo_w9_reach : reach demo_w9.
Proof.
  demo_go demo_h6 demo_a6; [demo_go demo_h5 demo_a5|].
  - exact demo_w7_reach.
  - apply (h_handshake _ _ demo_h5 demo_a5 demo_hello demo_host demo_cfg); try reflexivity. vm_compute. discriminate.
  - by apply (h_sent _ _ demo_h6 demo_a6 demo_hello demo_host demo_cfg 100).
Qed.

Lemma relaying_authorized_witness :
  Domain "TLS.peet.ws" = Ok demo_host ∧ CA.leaf_ok (CA.cert demo_au) (CA.key demo_au) demo_host Minute demo_leaf.
Proof.
  destruct (relaying_authorized demo_w9 1 demo_h6 demo_hello demo_host demo_cfg demo_w9_reach)
    as (a & u & x & _ & _ & _ & Hd & _ & _ & Hx & Hl & _); [vm_compute; reflexivity..|].
  split; [exact Hd|]. assert (x = demo_au') as -> by (vm_compute in Hx; injection Hx as <-; reflexivity). exact Hl.
Defined.
Lemma answered_agrees_witness : handshake_check (h_upstream demo_h5) "h2" = Ok tt.
Proof.
  destruct (answered_agrees demo_w7 1 demo_h5 demo_hello demo_host demo_cfg "h2" demo_hello demo_w7_reach)
    as [H _]; [vm_compute; reflexivity..|]. exact H.
Defined.
Lemma bytes_accounted_witness : SBytesSent (Status_of [] (srv demo_w9)) = 100.
Proof.
  destruct (bytes_accounted demo_w9 [] demo_w9_reach) as [H _]; [vm_compute; reflexivity|].
  rewrite H. reflexivity.
Defined.
Lemma Connections_spec_witness :
  StronglySorted (λ c d, ID c < ID d) (Connections (srv demo_w9)) ∧ length (Connections (srv demo_w9)) = 1%nat.
Proof.
  destruct (Connections_spec demo_w9 demo_w9_reach) as (H & _ & _ & Hl & _); [vm_compute; reflexivity|].
  split; [exact H|]. rewrite Hl. vm_compute. reflexivity.
Defined.
Definition demo_stopping : world := with_srv demo_w9 (set_stopping (srv demo_w9)).
Lemma shutdown_drains_witness : handlers demo_stopping ≠ ∅ ∧
  ∃ w', rtc step demo_stopping w' ∧ handlers w' = ∅ ∧ wg (srv w') = 0.
Proof.
  split; [vm_compute; discriminate|].
  exact (proj1 (proj2 (proj2 (shutdown_drains demo_stopping
    (reach_step _ _ demo_w9_reach (s_stop demo_w9)) ltac:(vm_compute; reflexivity) ltac:(vm_compute; reflexivity))))).
Defined.
(** A reload that lengthens the list of domains. *)
Definition demo_config2 : Config := set_Domains demo_config ["tls.peet.ws" : str; "example.org" : str].
Definition demo_load_ca (c : Config) : result Authority :=
  (@CA.Load Fsutil.no_faults CA.demo_encoding (Cert (Config.CA c)) (Key (Config.CA c)) Minute demo_ca_files.2).1.
Definition demo_reloaded : Server := (Reload (Ok demo_config2) demo_load_ca (srv demo_w0)).2.
Definition demo_w_reloaded : world :=
  mkWorld demo_reloaded Minute [] ∅ 0 0 0 (Z.max 1024 (limit_of (current demo_reloaded))).
Lemma fixed_settings_witness :
  Domains (s_config (current (srv demo_w_reloaded))) = Domains demo_config2 ∧
  same_settings demo_config (s_config (current (srv demo_w_reloaded))).
Proof.
  split; [vm_compute; reflexivity|].
  refine (proj1 (fixed_settings demo_config demo_au Minute demo_w_reloaded _)).
  apply rtc_once, (s_reload demo_w0 (Ok demo_config2) demo_load_ca (Ok tt) demo_reloaded).
  - intros c. exists Fsutil.no_faults, CA.demo_encoding, demo_ca_files.2. split; [exact CA.demo_dated|reflexivity].
  - vm_compute. reflexivity.
Defined.
