(* ===== verification/Gateway.v ===== *)
(** * Gateway: what the proxy server promises, and that it keeps it

    The gateway is the server as an operator sees it: rules, clients that have arrived under
    the rules of that moment, sessions with the host they are joined to, and byte counts.
    Every step of the goroutines of Proxy.v is a step of the gateway or none. *)
From S2P Require Import Prelude Strs NetIP Config Upstream Proxy.
From S2P Require CA Profiles.
Import CA (Authority).

(** ** The specification *)
Inductive stage := Opening | Joined (host : str) | Leaving.
Record session := mkSession { policy : Config; peer : str; at_stage : stage }.
Record gateway := mkGateway {
  rules : Config; arrived : list (Config * str); sessions : gmap Z session;
  admitted : Z; closing : bool; bytes_out : Z; bytes_in : Z }.
Definition permitted (c : Config) (client : str) : Prop :=
  ∃ a, ParseAddrPort client = Some a ∧ AllowsClient c (ap_addr a) = true.
Definition room (g : gateway) (c : Config) : Prop :=
  closing g = false ∧ Z.of_nat (size (sessions g)) < MaxConnections (Config.Runtime c).
Definition with_sessions (g : gateway) (m : gmap Z session) : gateway :=
  mkGateway (rules g) (arrived g) m (admitted g) (closing g) (bytes_out g) (bytes_in g).
Definition moved (s : session) (t : stage) : session := mkSession (policy s) (peer s) t.

Section Specification.
Context `{IDNA}.
Inductive gstep : gateway → gateway → Prop :=
  | g_arrive g client :
      gstep g (mkGateway (rules g) ((rules g, client) :: arrived g) (sessions g) (admitted g) (closing g) (bytes_out g) (bytes_in g))
  | g_admit g l c client l' : arrived g = l ++ (c, client) :: l' → permitted c client → room g c →
      gstep g (mkGateway (rules g) (l ++ l') (<[admitted g + 1 := mkSession c client Opening]> (sessions g))
                 (admitted g + 1) (closing g) (bytes_out g) (bytes_in g))
  | g_refuse g l c client l' : arrived g = l ++ (c, client) :: l' → ¬ (permitted c client ∧ room g c) →
      gstep g (mkGateway (rules g) (l ++ l') (sessions g) (admitted g) (closing g) (bytes_out g) (bytes_in g))
  | g_join g i s host : sessions g !! i = Some s → at_stage s = Opening → host ∈ Domains (policy s) →
      gstep g (with_sessions g (<[i := moved s (Joined host)]> (sessions g)))
  | g_transfer g i s host m n : sessions g !! i = Some s → at_stage s = Joined host → 0 ≤ m → 0 ≤ n →
      gstep g (mkGateway (rules g) (arrived g) (sessions g) (admitted g) (closing g) (bytes_out g + m) (bytes_in g + n))
  | g_hang_up g i s : sessions g !! i = Some s → at_stage s ≠ Leaving →
      gstep g (with_sessions g (<[i := moved s Leaving]> (sessions g)))
  | g_leave g i s : sessions g !! i = Some s → at_stage s = Leaving →
      gstep g (with_sessions g (delete i (sessions g)))
  | g_change g c : same_settings (rules g) c →
      gstep g (mkGateway c (arrived g) (sessions g) (admitted g) (closing g) (bytes_out g) (bytes_in g))
  | g_close g :
      gstep g (mkGateway (rules g) (arrived g) (sessions g) (admitted g) true (bytes_out g) (bytes_in g)).
Definition opened (c : Config) : gateway := mkGateway c [] ∅ 0 false 0 0.
End Specification.

(** ** The server as a gateway *)
Definition stage_of (p : phase) : stage :=
  match p with
  | Relaying _ host _ => Joined host
  | Returned _ | Ended _ _ => Leaving
  | _ => Opening
  end.
Definition session_of (a : active) (h : handler) : session :=
  mkSession (s_config (h_snap h)) (Client (record a)) (stage_of (h_phase h)).
Definition as_gateway (w : world) : gateway :=
  mkGateway (s_config (current (srv w))) (map (λ p, (s_config p.1, p.2)) (pending w))
    (map_zip_with session_of (connections (srv w)) (handlers w))
    (g_admitted w) (stopping (srv w)) (g_sent w) (g_received w).
(** What [Status] shows of a gateway. *)
Record shows (g : gateway) (st : Status) : Prop := {
  sh_rules : SConfig st = rules g;
  sh_active : Active st = size (sessions g);
  sh_total : Total st = uint64 (admitted g);
  sh_sent : SBytesSent st = int64 (bytes_out g);
  sh_received : SBytesReceived st = int64 (bytes_in g);
  sh_stopping : Health st = "ready" → closing g = false }.

Section Refinement.
Context `{Unicode, IDNA, Dialer, AuthoritySource}.
Notation zip := (map_zip_with session_of).
Lemma client_permitted snap raw : client_denied snap raw = false ↔ permitted (s_config snap) raw.
Proof.
  unfold client_denied, permitted. destruct (ParseAddrPort raw) as [a|]; [|naive_solver].
  rewrite negb_false_iff. naive_solver.
Qed.
Lemma zip_lookup (m : gmap Z active) (n : gmap Z handler) i a h :
  m !! i = Some a → n !! i = Some h → zip m n !! i = Some (session_of a h).
Proof. intros Ha Hh. rewrite map_lookup_zip_with, Ha. cbn. by rewrite Hh. Qed.
Lemma zip_insert (m : gmap Z active) (n : gmap Z handler) i a h :
  zip (<[i := a]> m) (<[i := h]> n) = <[i := session_of a h]> (zip m n).
Proof. by rewrite map_insert_zip_with. Qed.
Lemma zip_size w : table_ok w → size (zip (connections (srv w)) (handlers w)) = size (connections (srv w)).
Proof.
  intros [Hc _ _]. rewrite <- !size_dom, dom_map_zip_with_L. f_equal.
  apply leibniz_equiv. intros i. rewrite elem_of_intersection, !elem_of_dom. split; [by intros [? _]|].
  intros [a Ha]. split; [by eexists|]. destruct (Hc i a Ha) as (h & Hh & _). by eexists.
Qed.
(** Steps that change no session. *)
Lemma zip_same (m m' : gmap Z active) n :
  (∀ i, Client ∘ record <$> m' !! i = Client ∘ record <$> m !! i) → zip m' n = zip m n.
Proof.
  intros Hm. apply map_eq. intros i. rewrite !map_lookup_zip_with. specialize (Hm i).
  destruct (m' !! i) as [a'|], (m !! i) as [a|]; try done. cbn in *. injection Hm as Hm.
  destruct (n !! i); [|done]. cbn. unfold session_of. by rewrite Hm.
Qed.
Lemma zip_handler_gone (m : gmap Z active) n i : m !! i = None → zip m (delete i n) = zip m n.
Proof.
  intros Hm. apply map_eq. intros j. rewrite !map_lookup_zip_with. destruct (decide (j = i)) as [->|Hne].
  - by rewrite Hm.
  - by rewrite lookup_delete_ne by congruence.
Qed.
Lemma zip_finish (m : gmap Z active) n i h : zip (delete i m) (<[i := h]> n) = delete i (zip m n).
Proof.
  apply map_eq. intros j. rewrite map_lookup_zip_with. destruct (decide (j = i)) as [->|Hne].
  - by rewrite !lookup_delete_eq.
  - rewrite !lookup_delete_ne, lookup_insert_ne by congruence. by rewrite map_lookup_zip_with.
Qed.
(** What a handler's step is to the gateway. *)
Lemma hstep_session now au i h a h' a' x m n :
  handler_ok now au i h a → hstep now au h a h' a' x m n →
  h_snap h' = h_snap h ∧ Client (record a') = Client (record a) ∧ 0 ≤ m ∧ 0 ≤ n ∧
  (stage_of (h_phase h') = stage_of (h_phase h) ∧
     ((m = 0 ∧ n = 0) ∨ ∃ host, stage_of (h_phase h) = Joined host) ∨
   m = 0 ∧ n = 0 ∧ stage_of (h_phase h) = Opening ∧
     (∃ host, stage_of (h_phase h') = Joined host ∧ host ∈ Domains (s_config (h_snap h))) ∨
   m = 0 ∧ n = 0 ∧ stage_of (h_phase h) ≠ Leaving ∧ stage_of (h_phase h') = Leaving).
Proof.
  intros [_ _ _ Hok] Hs. unfold phase_ok in Hok.
  destruct Hs; cbn [at_phase returned h_snap h_phase on_record set_cancel record Client set_SNI set_upstream set_relaying
    add_sent add_received]; (split; [done|]); (split; [done|]); (split; [lia|]); (split; [lia|]);
    try (match goal with Hp : h_phase _ = _ |- _ => rewrite Hp in * end; cbn [stage_of] in *).
  all: try (left; split; [done|by left]).
  all: try (left; split; [done|right; by eexists]).
  all: try (right; right; done).
  - right. right. match goal with Hp : _ ∨ _ |- _ => destruct Hp as [E|(? & ? & ? & E)] end; by rewrite E.
  - right. left. split_and!; try done. destruct Hok as (c & u & ip & [(_ & _ & Hd & _) _ _ _] & _). by eexists.
  - right. right. match goal with Hp : _ ∨ _ |- _ => destruct Hp as [E|(? & ? & ? & E)] end; by rewrite E.
Qed.

Notation "w ⊑ w'" := (as_gateway w' = as_gateway w ∨ gstep (as_gateway w) (as_gateway w')) (at level 70, only parsing).
Notation rows l := (map (λ p : snapshot * str, (s_config p.1, p.2)) l).
(** The cases of a step that are not one line. *)
Lemma accept_refines w l snap raw l' s id :
  base_ok w → table_ok w → g_admitted w + 1 < 2 ^ 64 → pending w = l ++ (snap, raw) :: l' →
  accept snap raw (clock w) (srv w) = (s, Some id) →
  gstep (as_gateway w) (as_gateway (mkWorld s (clock w) (l ++ l') (<[id := mkHandler snap Begin None]> (handlers w))
    (g_admitted w + 1) (g_sent w) (g_received w) (g_limit w))).
Proof.
  intros Hb Ht Hf Hp Ha. apply accept_admitted in Ha as (Hal & Hstop & Hroom & -> & ->). rewrite (fresh_id w Hb) by done.
  refine (eq_rect _ (gstep _) (g_admit (as_gateway w) (rows l) (s_config snap) raw (rows l') _ _ _) _ _).
  - cbn [arrived as_gateway]. by rewrite Hp, map_app.
  - by apply client_permitted.
  - split; [done|]. cbn [sessions as_gateway]. by rewrite zip_size.
  - unfold as_gateway. cbn [srv pending handlers g_admitted g_sent g_received rules arrived sessions admitted closing
      bytes_out bytes_in current connections stopping]. by rewrite map_app, zip_insert.
Qed.
Lemma reject_refines w l snap raw l' s :
  table_ok w → pending w = l ++ (snap, raw) :: l' → accept snap raw (clock w) (srv w) = (s, None) →
  gstep (as_gateway w) (as_gateway (mkWorld s (clock w) (l ++ l') (handlers w) (g_admitted w) (g_sent w) (g_received w) (g_limit w))).
Proof.
  intros Ht Hp Ha. assert (¬ (permitted (s_config snap) raw ∧ room (as_gateway w) (s_config snap))) as Hno.
  { intros [Hal%client_permitted [Hst Hrm]]. cbn [closing sessions as_gateway] in Hst, Hrm. rewrite zip_size in Hrm by done.
    unfold accept, accept_locked in Ha. rewrite Hal, Hst in Ha. cbn [orb] in Ha.
    destruct (Z.leb_spec (MaxConnections (Config.Runtime (s_config snap))) (Z.of_nat (size (connections (srv w))))); [lia|done]. }
  apply accept_rejected in Ha as (kind & -> & _).
  refine (eq_rect _ (gstep _) (g_refuse (as_gateway w) (rows l) (s_config snap) raw (rows l') _ Hno) _ _).
  - cbn [arrived as_gateway]. by rewrite Hp, map_app.
  - unfold as_gateway. cbn. by rewrite map_app.
Qed.
(** What the gateway sees of a handler's step. *)
Lemma as_gateway_handler w i h a h' a' x m n :
  h_snap h' = h_snap h → Client (record a') = Client (record a) →
  as_gateway (mkWorld (update i (s_authority (h_snap h)) x a' (srv w)) (clock w) (pending w)
    (<[i := h']> (handlers w)) (g_admitted w) (g_sent w + m) (g_received w + n) (g_limit w)) =
  mkGateway (rules (as_gateway w)) (arrived (as_gateway w))
    (<[i := moved (session_of a h) (stage_of (h_phase h'))]> (sessions (as_gateway w)))
    (admitted (as_gateway w)) (closing (as_gateway w)) (g_sent w + m) (g_received w + n).
Proof.
  intros Esnap Ecl. assert (session_of a' h' = moved (session_of a h) (stage_of (h_phase h'))) as Es.
  { unfold session_of, moved. cbn. by rewrite Esnap, Ecl. }
  unfold as_gateway. cbn [srv pending handlers g_admitted g_sent g_received rules arrived sessions admitted closing].
  rewrite update_connections, zip_insert, Es. by destruct x.
Qed.
Lemma handler_refines w i h a h' a' x m n :
  table_ok w → handlers w !! i = Some h → connections (srv w) !! i = Some a →
  hstep (clock w) (authorities (srv w)) h a h' a' x m n →
  w ⊑ mkWorld (update i (s_authority (h_snap h)) x a' (srv w)) (clock w) (pending w)
        (<[i := h']> (handlers w)) (g_admitted w) (g_sent w + m) (g_received w + n) (g_limit w).
Proof.
  intros Ht Hh Hc Hst. pose proof (t_ok _ Ht i h a Hh Hc) as Hok.
  destruct (hstep_session _ _ _ _ _ _ _ _ _ _ Hok Hst) as (Esnap & Ecl & Hm & Hn & Hcase).
  pose proof (zip_lookup _ _ _ _ _ Hc Hh) as Hs. rewrite (as_gateway_handler w i h a) by done.
  destruct Hcase as [[E Hmn]|[(-> & -> & E1 & host & E2 & Hd)|(-> & -> & E1 & E2)]].
  - assert (moved (session_of a h) (stage_of (h_phase h')) = session_of a h) as -> by (by rewrite E).
    rewrite insert_id by done. destruct Hmn as [[-> ->]|[host Ej]].
    + left. unfold as_gateway. cbn. by rewrite !Z.add_0_r.
    + right. by apply (g_transfer (as_gateway w) i (session_of a h) host).
  - right. rewrite E2, !Z.add_0_r. by apply (g_join (as_gateway w) i (session_of a h)).
  - right. rewrite E2, !Z.add_0_r. by apply (g_hang_up (as_gateway w) i (session_of a h)).
Qed.
Lemma conclude_refines w i h b e :
  table_ok w → handlers w !! i = Some h → h_phase h = Ended b e →
  as_gateway (mkWorld (conclude b e (srv w)) (clock w) (pending w) (delete i (handlers w))
    (g_admitted w) (g_sent w) (g_received w) (g_limit w)) = as_gateway w.
Proof.
  intros Ht Hh He. destruct (conclude_same b e (srv w)) as (E1 & E2 & E3 & E4 & E5 & E6 & E7 & E8 & E9).
  unfold as_gateway. cbn [srv pending handlers g_admitted g_sent g_received].
  by rewrite E2, E3, E8, zip_handler_gone by (by eapply ended_alone).
Qed.
Lemma step_refines w w' : reach w → step w w' → few w' → w ⊑ w'.
Proof.
  intros Hr Hs Hf. pose proof (base_reach w Hr) as Hb. pose proof (few_step _ _ Hs Hf) as Hfw.
  pose proof (table_reach w Hr Hfw) as Ht.
  destruct Hs as [w t Hct|w raw|w l snap raw l' s id Hp Ha|w l snap raw l' s Hp Ha
    |w i h a h' a' x m n Hh Hc Hst|w i h a e Hh He Hc|w i h b e Hh He|w load load_ca r s Hca Hrl|w|w Hstop].
  - by left.
  - right. apply (g_arrive (as_gateway w)).
  - right. by eapply accept_refines.
  - right. by eapply reject_refines.
  - by apply (handler_refines w i h a).
  - right. pose proof (zip_lookup _ _ _ _ _ Hc Hh) as Hs.
    refine (eq_rect _ (gstep _) (g_leave (as_gateway w) i _ Hs _) _ _); [cbn; by rewrite He|].
    unfold as_gateway, with_sessions. cbn. by rewrite zip_finish.
  - left. by eapply conclude_refines.
  - apply Reload_cases in Hrl as [(-> & _)|(_ & d & ca & _ & Hres & _ & ->)]; [by left|].
    right. apply (g_change (as_gateway w)). by apply RestartRequired_false.
  - right. apply (g_close (as_gateway w)).
  - left. unfold as_gateway. cbn. rewrite (zip_same (connections (srv w))); [done|]. intros i.
    rewrite lookup_fmap. by destruct (connections (srv w) !! i).
Qed.

Lemma reach_refines w : reach w → few w → ∃ c, rtc gstep (opened c) (as_gateway w).
Proof.
  induction 1 as [c a now Hl|w w' Hr IH Hs]; intros Hf.
  - exists c. unfold as_gateway, New_world. cbn. by rewrite map_zip_with_empty.
  - destruct IH as [c Hc]; [by eapply few_step|]. exists c.
    destruct (step_refines w w' Hr Hs Hf) as [->|Hg]; [done|]. by eapply rtc_r.
Qed.

(** C2: The server keeps the gateway's promise. Whatever the interleaving of its goroutines,
    the server behaves as the gateway: a client is judged by the rules of the moment it
    arrived; it is let in only if these permit its address, there is room, and the server
    is not closing; a session is joined to a host only if its rules list the host; bytes
    are counted only for joined sessions; a session ends once; and the rules change only
    in what a reload may change. [Status] shows the gateway: its rules, its number of
    sessions, of admissions and of bytes. *)
Theorem server_refines_gateway w :
  reach w → g_admitted w < 2 ^ 64 →
  (∃ c, rtc gstep (opened c) (as_gateway w)) ∧
  (∀ w', step w w' → g_admitted w' < 2 ^ 64 → as_gateway w' = as_gateway w ∨ gstep (as_gateway w) (as_gateway w')) ∧
  (∀ e, shows (as_gateway w) (Status_of e (srv w))).
Proof.
  intros Hr Hf. split_and!; [by apply reach_refines|intros w' Hs Hf'; by apply step_refines|].
  intros e. destruct (bytes_reach w Hr Hf) as [[E1 E2] [E3 E4]]. pose proof (b_count _ (base_reach w Hr)) as (_ & _ & Et).
  split; cbn; try done.
  - by rewrite zip_size by (by apply table_reach).
  - by rewrite sum_over_spec.
  - by rewrite sum_over_spec.
  - destruct (e != ""); [done|]. by destruct (stopping (srv w)).
Qed.
End Refinement.

(** ** Witness: the run of Proxy.v up to its relay *)
#[local] Existing Instances ascii_only id_idna Profiles.demo_utls.
Lemma server_refines_gateway_witness :
  (∃ c, rtc gstep (opened c) (as_gateway demo_w9)) ∧
  at_stage <$> sessions (as_gateway demo_w9) !! 1 = Some (Joined demo_host) ∧
  shows (as_gateway demo_w9) (Status_of [] (srv demo_w9)).
Proof.
  destruct (server_refines_gateway demo_w9 demo_w9_reach) as (Hg & _ & Hs); [vm_compute; reflexivity|].
  split; [exact Hg|]. split; [vm_compute; reflexivity|exact (Hs [])].
Defined.
