(* ===== verification/Relay.v ===== *)
(** * Relay: the copying of bytes between client and upstream
    (src/internal/proxy/server.go, [relay] and [progressWriter])

    The goroutines of [relay] are a step relation: two copies, one in each direction, the
    idle timer, and the function itself, which waits for the results of the copies. What a
    connection's Read, Write and CloseWrite return is up to the environment, within their
    contracts. *)
From S2P Require Import Prelude Strs.

(** ** State *)
Inductive side := Up | Down.       (* client to upstream, upstream to client *)
#[global] Instance side_eq_dec : EqDecision side.
Proof. solve_decision. Defined.
(** What came with the bytes of a Read: more to come, the end, or an error. *)
Inductive read_end := More | EOF | ReadError (e : error).
(** Where a copy is: in Read; in Write with the bytes read and what came with them; in
    CloseWrite; finished, with the error it has sent. *)
Inductive cstate := Reading | Writing (buf : str) (er : read_end) | Closing | Finished (r : option error).
Record dir := mkDir {
  d_in : str;                (* read from the source so far *)
  d_out : str;               (* written to the destination so far *)
  d_count : Z;               (* the counter of the progressWriter *)
  d_state : cstate;
  d_eof : bool;              (* the source has ended *)
  d_shut : bool }.           (* the write half of the destination is closed *)
Inductive timer_state := Ticking | Fired (at_ : Z) | Stopped.
Record relay := mkRelay {
  dirs : side → dir;
  errs : list (option error);            (* the channel, of capacity 2 *)
  first : option (option error);
  result_ : option (option error);
  closed : bool;                         (* both connections are closed *)
  last : Z; now : Z; timer : timer_state;
  writes : list Z }.                     (* ghost: when bytes were written *)

Definition buffer_size : nat := 32 * 1024.
Definition new_dir : dir := mkDir [] [] 0 Reading false false.
Definition start (t : Z) : relay := mkRelay (λ _, new_dir) [] None None false t t Ticking [].

(** ** The copy of one direction *)
Definition set_state (d : dir) (s : cstate) : dir := mkDir (d_in d) (d_out d) (d_count d) s (d_eof d) (d_shut d).
(** [io.CopyBuffer] after the bytes of a Read are written: go on, or leave the loop. *)
Definition after_bytes (er : read_end) : cstate :=
  match er with More => Reading | EOF => Closing | ReadError e => Finished (Some e) end.
Definition do_read (d : dir) (data : str) (er : read_end) : dir :=
  mkDir (d_in d ++ data) (d_out d) (d_count d)
    (match data with [] => after_bytes er | _ => Writing data er end)
    (d_eof d || match er with EOF => true | _ => false end) (d_shut d).
Definition ErrShortWrite : error := errors_New "short write".
(** One turn of the loop after [n] of the bytes were written: the writer's counter, then
    the checks. *)
Definition do_write (d : dir) (buf : str) (er : read_end) (n : nat) (ew : option error) : dir :=
  mkDir (d_in d) (d_out d ++ take n buf) (d_count d + Z.of_nat n)
    (match ew with
     | Some e => Finished (Some e)
     | None => if (n =? length buf)%nat then after_bytes er else Finished (Some ErrShortWrite)
     end) (d_eof d) (d_shut d).
Definition do_close (d : dir) (r : option error) : dir :=
  mkDir (d_in d) (d_out d) (d_count d) (Finished r) (d_eof d)
    (match r with None => true | Some _ => d_shut d end).

(** The direction is updated, and its result sent if it has just finished. *)
Definition set_dir (s : relay) (k : side) (d : dir) (progress : bool) : relay :=
  mkRelay (λ j, if decide (j = k) then d else dirs s j)
    (match d_state d with Finished r => errs s ++ [r] | _ => errs s end)
    (first s) (result_ s) (closed s) (if progress then now s else last s) (now s) (timer s)
    (if progress then now s :: writes s else writes s).

Section Relay.
Variable idle : Z.

(** The contracts: a Read returns bytes or an error, at most a buffer of them; a Write
    reports at most what it was given; a Write on a closed connection fails. *)
Inductive rstep : relay → relay → Prop :=
  | r_read s k data er : d_state (dirs s k) = Reading → (length data ≤ buffer_size)%nat →
      data ≠ [] ∨ er ≠ More →
      rstep s (set_dir s k (do_read (dirs s k) data er) false)
  | r_write s k buf er n ew : d_state (dirs s k) = Writing buf er → (n ≤ length buf)%nat →
      (closed s = true → n = 0%nat ∧ ew ≠ None) →
      rstep s (set_dir s k (do_write (dirs s k) buf er n ew) (0 <? n)%nat)
  | r_close s k r : d_state (dirs s k) = Closing →
      rstep s (set_dir s k (do_close (dirs s k) r) false)
  | r_first s r rest : first s = None → errs s = r :: rest →
      rstep s (mkRelay (dirs s) rest (Some r) (result_ s)
                 (match r with Some _ => true | None => closed s end)
                 (last s) (now s) (timer s) (writes s))
  | r_second s f r rest : first s = Some f → result_ s = None → errs s = r :: rest →
      rstep s (mkRelay (dirs s) rest (first s) (Some (match f with Some e => Some e | None => r end)) (closed s)
                 (last s) (now s) Stopped (writes s))
  | r_tick s : timer s = Ticking → idle ≤ now s - last s →
      rstep s (mkRelay (dirs s) (errs s) (first s) (result_ s) (closed s) (last s) (now s) (Fired (now s)) (writes s))
  | r_clock s t : now s ≤ t →
      rstep s (mkRelay (dirs s) (errs s) (first s) (result_ s) (closed s) (last s) t (timer s) (writes s)).
Inductive rreach (t : Z) : relay → Prop :=
  | rr_start : rreach t (start t)
  | rr_step s s' : rreach t s → rstep s s' → rreach t s'.

(** ** One direction *)
Record dir_ok (d : dir) : Prop := {
  do_count : d_count d = Z.of_nat (length (d_out d));
  do_bytes : match d_state d with
             | Reading => d_in d = d_out d ∧ d_eof d = false
             | Writing buf er => d_in d = d_out d ++ buf ∧ (d_eof d = true ↔ er = EOF)
             | Closing => d_in d = d_out d ∧ d_eof d = true
             | Finished None => d_in d = d_out d ∧ d_eof d = true ∧ d_shut d = true
             | Finished (Some _) => ∃ rest, d_in d = d_out d ++ rest
             end;
  do_shut : d_shut d = true → d_state d = Finished None }.
Lemma after_bytes_ok d er :
  d_in d = d_out d → (d_eof d = true ↔ er = EOF) → d_state d = after_bytes er →
  match d_state d with
  | Reading => d_in d = d_out d ∧ d_eof d = false
  | Writing buf er => d_in d = d_out d ++ buf ∧ (d_eof d = true ↔ er = EOF)
  | Closing => d_in d = d_out d ∧ d_eof d = true
  | Finished None => d_in d = d_out d ∧ d_eof d = true ∧ d_shut d = true
  | Finished (Some _) => ∃ rest, d_in d = d_out d ++ rest
  end.
Proof.
  intros E He ->. destruct er; simpl.
  - split; [done|]. apply not_true_iff_false. intros H%He. done.
  - split; [done|]. by apply He.
  - exists []. by rewrite app_nil_r.
Qed.
Lemma do_read_ok d data er : dir_ok d → d_state d = Reading → dir_ok (do_read d data er).
Proof.
  intros [Hc Hb Hs] E. rewrite E in *. destruct Hb as [Hio He].
  assert (d_eof d || match er with EOF => true | _ => false end = true ↔ er = EOF) as Heof
    by (rewrite He; by destruct er).
  split; [done| |intros H; by apply Hs in H].
  destruct data as [|c data].
  - apply (after_bytes_ok _ er); [simpl; by rewrite app_nil_r|exact Heof|done].
  - simpl. by rewrite Hio.
Qed.
Lemma do_write_ok d buf er n ew :
  dir_ok d → d_state d = Writing buf er → (n ≤ length buf)%nat → dir_ok (do_write d buf er n ew).
Proof.
  intros [Hc Hb Hs] E Hn. rewrite E in *. destruct Hb as [Hio He].
  split; [simpl; rewrite length_app, length_take; lia| |intros H; by apply Hs in H].
  assert (∃ rest, d_in d = (d_out d ++ take n buf) ++ rest) as Hrest.
  { exists (drop n buf). by rewrite <- app_assoc, take_drop. }
  unfold do_write. destruct ew as [e|]; [done|]. destruct (Nat.eqb_spec n (length buf)) as [->|]; [|done].
  apply (after_bytes_ok _ er); [|done|done]. simpl. by rewrite firstn_all.
Qed.
Lemma do_close_ok d r : dir_ok d → d_state d = Closing → dir_ok (do_close d r).
Proof.
  intros [Hc Hb Hs] E. rewrite E in *. destruct Hb as [Hio He]. split; [done| |].
  - destruct r; simpl; [exists []; by rewrite app_nil_r|done].
  - destruct r; simpl; [intros H; by apply Hs in H|done].
Qed.

Lemma elem_of_list_two {A} (x y : A) : x ∈ [y; y] → x = y.
Proof. intros [?|[?|[]%not_elem_of_nil]%elem_of_cons]%elem_of_cons; done. Qed.

(** ** The whole *)
Definition finished (d : dir) : option (option error) :=
  match d_state d with Finished r => Some r | _ => None end.
Definition fins (s : relay) : list (option error) :=
  omap (λ k, finished (dirs s k)) [Up; Down].
Definition first_list (s : relay) : list (option error) := match first s with Some r => [r] | None => [] end.
(** The results sent are those the function has taken and those in the channel. *)
Definition results_ok (s : relay) : Prop :=
  ∃ second, first_list s ++ second ++ errs s ≡ₚ fins s ∧
    match result_ s with
    | None => second = []
    | Some res => ∃ f r, first s = Some f ∧ second = [r] ∧ res = match f with Some e => Some e | None => r end
    end.
Record times_ok (t : Z) (s : relay) : Prop := {
  tm_last : t ≤ last s ≤ now s;
  tm_writes : Forall (λ w, t ≤ w ≤ last s) (writes s);
  tm_fired : ∀ u, timer s = Fired u → t + idle ≤ u ≤ now s ∧ Forall (λ w, w + idle ≤ u ∨ u ≤ w) (writes s) }.
Record relay_ok (t : Z) (s : relay) : Prop := {
  ro_dirs : ∀ k, dir_ok (dirs s k);
  ro_results : results_ok s;
  ro_closed : closed s = true ↔ ∃ e, first s = Some (Some e);
  ro_times : times_ok t s }.

Lemma fins_set_dir s k d p :
  finished (dirs s k) = None →
  fins (set_dir s k d p) ≡ₚ fins s ++ match finished d with Some r => [r] | None => [] end.
Proof.
  intros Hk. unfold fins, set_dir. cbn [dirs].
  destruct k; csimpl; rewrite Hk; destruct (finished d) as [r|]; csimpl.
  - destruct (finished (dirs s Down)) as [r'|]; csimpl; [by apply Permutation_swap|done].
  - by rewrite app_nil_r.
  - destruct (finished (dirs s Up)) as [r'|]; csimpl; done.
  - destruct (finished (dirs s Up)) as [r'|]; csimpl; done.
Qed.
Lemma results_set_dir s k d p : results_ok s → finished (dirs s k) = None → results_ok (set_dir s k d p).
Proof.
  intros (second & Hp & Hr) Hk. exists second. split; [|exact Hr].
  rewrite (fins_set_dir s k d p Hk), <- Hp. unfold first_list, finished. simpl.
  destruct (d_state d); rewrite ?app_nil_r; [done..|]. by rewrite !app_assoc.
Qed.
Lemma times_set_dir t s k d p : times_ok t s → times_ok t (set_dir s k d p).
Proof.
  intros [Hl Hw Hf]. split; simpl.
  - destruct p; lia.
  - destruct p; [apply Forall_cons; split; [lia|]|done]. eapply Forall_impl; [exact Hw|]. intros w Hww. cbv beta in *. lia.
  - intros u Hu. destruct (Hf u Hu) as [? Hfa]. split; [done|]. destruct p; [|done].
    apply Forall_cons; split; [lia|done].
Qed.
Lemma ok_set_dir t s k d p :
  relay_ok t s → finished (dirs s k) = None → dir_ok d → relay_ok t (set_dir s k d p).
Proof.
  intros [Hd Hr Hc Ht] Hk Hd'. split; [|by apply results_set_dir|done|by apply times_set_dir].
  intros j. simpl. by destruct (decide (j = k)).
Qed.
Lemma relay_step t s s' : relay_ok t s → rstep s s' → relay_ok t s'.
Proof.
  intros Hok Hs. pose proof Hok as [Hd Hr Hc Ht].
  destruct Hs as [s k data er E Hl Hne|s k buf er n ew E Hn Hcl|s k r E|s r rest E Ee|s f r rest E Er Ee|s E Hi|s u Hu].
  - apply ok_set_dir; [done|unfold finished; by rewrite E|]. by apply do_read_ok.
  - apply ok_set_dir; [done|unfold finished; by rewrite E|]. by apply do_write_ok.
  - apply ok_set_dir; [done|unfold finished; by rewrite E|]. by apply do_close_ok.
  - split; [done| | |by destruct Ht].
    + destruct Hr as (second & Hp & Hres). exists second. unfold first_list in *. cbn [first result_ errs] in *.
      destruct (result_ s); [destruct Hres as (? & ? & ? & _); congruence|]. split; [|done]. subst second.
      rewrite E, Ee in Hp. exact Hp.
    + simpl. destruct r as [e|]; [split; [by exists e|done]|]. rewrite Hc, E. split; [by intros [? ?]|by intros [? ?]].
  - split; [done| |by rewrite <- Hc|].
    + destruct Hr as (second & Hp & Hres). rewrite Er in Hres. subst second.
      exists [r]. unfold first_list in *. cbn [first result_ errs] in *. rewrite E, Ee in *. split; [done|]. by exists f, r.
    + destruct Ht as [Ht1 Ht2 Ht3]. by split.
  - split; [done|done|done|]. destruct Ht as [Ht1 Ht2 Ht3]. split; simpl; [done|done|].
    intros u [= <-]. split; [lia|]. eapply Forall_impl; [exact Ht2|]. intros w Hww. cbv beta in *. left. lia.
  - split; [done|done|done|]. destruct Ht as [Ht1 Ht2 Ht3]. split; simpl; [lia|done|].
    intros v Hv. destruct (Ht3 v Hv). split; [lia|done].
Qed.
Lemma relay_reach t s : rreach t s → relay_ok t s.
Proof.
  induction 1 as [|s s' _ IH Hs]; [|by eapply relay_step]. split.
  - intros k. by split.
  - by exists [].
  - split; [done|by intros [? ?]].
  - split; simpl; [lia|by apply Forall_nil|done].
Qed.

(** What is left to do once both connections are closed. *)
Definition dir_rank (d : dir) : nat :=
  match d_state d with Reading => 3 | Writing _ _ => 2 | Closing => 1 | Finished _ => 0 end.
Definition rank (s : relay) : nat :=
  dir_rank (dirs s Up) + dir_rank (dirs s Down)
  + match first s with None => 2 | Some _ => match result_ s with None => 1 | Some _ => 0 end end.
Lemma rank_set_dir s k d p : (dir_rank d < dir_rank (dirs s k))%nat → (rank (set_dir s k d p) < rank s)%nat.
Proof. intros Hd. unfold rank, set_dir. simpl. destruct k; simpl; lia. Qed.
Lemma after_read_rank d data er : d_state d = Reading → data ≠ [] ∨ er ≠ More →
  (dir_rank (do_read d data er) < dir_rank d)%nat.
Proof.
  intros E Hne. unfold dir_rank at 2. rewrite E. unfold dir_rank. simpl.
  destruct data; [|lia]. destruct er; simpl; [by destruct Hne|lia|lia].
Qed.
(** Closing the connections makes every copy step a step towards the end. *)
Lemma closed_step s s' :
  closed s = true → rstep s s' → result_ s = None → closed s' = true ∧
  ((rank s' < rank s)%nat ∨
   (rank s' = rank s ∧ result_ s' = None ∧ dirs s' = dirs s ∧ first s' = first s ∧ errs s' = errs s)).
Proof.
  intros Hc Hs Hres.
  destruct Hs as [s k data er E Hl Hne|s k buf er n ew E Hn Hcl|s k r E|s r rest E Ee|s f r rest E Er Ee|s E Hi|s u Hu].
  - split; [done|left]. by apply rank_set_dir, after_read_rank.
  - split; [done|left]. apply rank_set_dir. unfold dir_rank at 2. rewrite E. unfold dir_rank. simpl.
    destruct (Hcl Hc) as [_ Hew]. destruct ew; [lia|done].
  - split; [done|left]. apply rank_set_dir. unfold dir_rank at 2. rewrite E. unfold dir_rank. simpl. lia.
  - split; [by destruct r|left]. unfold rank. simpl. rewrite E, Hres. lia.
  - split; [done|left]. unfold rank. simpl. rewrite E, Er. lia.
  - split; [done|right]. done.
  - split; [done|right]. done.
Qed.
Lemma relay_moves t s : relay_ok t s → closed s = true → result_ s = None → ∃ s', rstep s s' ∧ (rank s' < rank s)%nat.
Proof.
  intros Hok Hc Hres. destruct (ro_results _ _ Hok) as (second & Hp & Hsec). rewrite Hres in Hsec. subst second.
  assert (∀ s', rstep s s' → (dirs s' = dirs s ∧ first s' = first s ∧ errs s' = errs s → False) → ∃ s', rstep s s' ∧ (rank s' < rank s)%nat) as Hgo.
  { intros s' Hs Hne. exists s'. split; [done|]. destruct (closed_step s s' Hc Hs Hres) as [_ [?|(_ & _ & ?)]]; [done|tauto]. }
  destruct (first s) as [f|] eqn:Ef.
  2:{ destruct (ro_closed _ _ Hok) as [Hx _]. destruct (Hx Hc) as [e He]. congruence. }
  destruct (errs s) as [|r rest] eqn:Ee.
  - assert (∃ k, finished (dirs s k) = None) as [k Hk].
    { destruct (finished (dirs s Up)) eqn:E1; [|by exists Up]. destruct (finished (dirs s Down)) eqn:E2; [|by exists Down].
      exfalso. apply Permutation_length in Hp. unfold fins, first_list in Hp. rewrite Ef in Hp. csimpl in Hp.
      rewrite E1, E2 in Hp. done. }
    unfold finished in Hk. destruct (d_state (dirs s k)) as [|buf er| |r] eqn:Est.
    + eexists. split; [apply (r_read s k [] EOF Est); [simpl; unfold buffer_size; lia|by right]|].
      apply rank_set_dir. apply after_read_rank; [done|by right].
    + eexists. split; [apply (r_write s k buf er 0 (Some ErrShortWrite) Est); [lia|by split]|].
      apply rank_set_dir. unfold dir_rank at 2. rewrite Est. unfold dir_rank. simpl. lia.
    + eexists. split; [apply (r_close s k None Est)|].
      apply rank_set_dir. unfold dir_rank at 2. rewrite Est. unfold dir_rank. simpl. lia.
    + done.
  - eexists. split; [by eapply (r_second s f r rest)|]. unfold rank. simpl. rewrite Ef, Hres. lia.
Qed.

(** C4: No byte is invented, lost in the middle, reordered or miscounted. In every reachable
    state and in each direction, what was written to the destination is a prefix of what
    was read from the source, the counter is its length, and the write half of the
    destination is closed only after the source ended and every byte of it was written. *)
Theorem relay_delivers t s k :
  rreach t s →
  d_out (dirs s k) `prefix_of` d_in (dirs s k) ∧
  d_count (dirs s k) = Z.of_nat (length (d_out (dirs s k))) ∧
  (d_shut (dirs s k) = true → d_eof (dirs s k) = true ∧ d_out (dirs s k) = d_in (dirs s k)).
Proof.
  intros Hr. destruct (ro_dirs _ _ (relay_reach t s Hr) k) as [Hc Hb Hs]. split_and!; [|done|].
  - destruct (d_state (dirs s k)) as [|buf er| |[e|]].
    + by destruct Hb as [-> _].
    + destruct Hb as [-> _]. by exists buf.
    + by destruct Hb as [-> _].
    + destruct Hb as [rest ->]. by exists rest.
    + by destruct Hb as [-> _].
  - intros H. rewrite (Hs H) in Hb. by destruct Hb as (-> & ? & _).
Qed.

(** What [relay] returns says what happened. It returns only when both copies have
    finished. Without an error, each source ended, all its bytes were written and the write
    half after them was closed; an error is the one some copy finished with, and then
    either it was the first result or the first copy finished without one. *)
Theorem relay_result t s res :
  rreach t s → result_ s = Some res →
  ∃ ru rd, d_state (dirs s Up) = Finished ru ∧ d_state (dirs s Down) = Finished rd ∧
    match res with
    | None => ∀ k, d_eof (dirs s k) = true ∧ d_out (dirs s k) = d_in (dirs s k) ∧ d_shut (dirs s k) = true
    | Some e => (ru = Some e ∨ rd = Some e) ∧ (first s = Some (Some e) ∨ first s = Some None)
    end.
Proof.
  intros Hr Hres. pose proof (relay_reach t s Hr) as [Hd (second & Hp & Hsec) _ _].
  rewrite Hres in Hsec. destruct Hsec as (f & r & Hf & -> & Heq). unfold first_list in Hp. rewrite Hf in Hp.
  assert (∃ ru rd, finished (dirs s Up) = Some ru ∧ finished (dirs s Down) = Some rd ∧ [f; r] ≡ₚ [ru; rd]) as (ru & rd & Eu & Ed & Hpp).
  { unfold fins in Hp. csimpl in Hp. destruct (finished (dirs s Up)) as [ru|]; destruct (finished (dirs s Down)) as [rd|];
      csimpl in Hp; pose proof (Permutation_length Hp) as Hl; simpl in Hl; try lia.
    exists ru, rd. split_and!; [done|done|]. destruct (errs s); [done|simpl in Hl; lia]. }
  unfold finished in Eu, Ed. exists ru, rd.
  destruct (d_state (dirs s Up)) as [| | |u] eqn:Su; try done. destruct (d_state (dirs s Down)) as [| | |d] eqn:Sd; try done.
  injection Eu as ->. injection Ed as ->. split_and!; [done|done|].
  assert (∀ x, x ∈ [f; r] ↔ x = ru ∨ x = rd) as Hin by (intros x; rewrite Hpp; set_solver).
  subst res. destruct f as [e|]; [|destruct r as [e|]].
  - assert (Some e = ru ∨ Some e = rd) as He by (apply Hin; left). split; [|by left]. by destruct He; [left|right].
  - assert (Some e = ru ∨ Some e = rd) as He by (apply Hin; right; left). split; [|by right]. by destruct He; [left|right].
  - assert (∀ k, d_state (dirs s k) = Finished None) as Hfin.
    { assert (ru = None ∧ rd = None) as [-> ->]; [|by intros []].
      assert (ru ∈ [None; None] ∧ rd ∈ [None; None]) as [?%elem_of_list_two ?%elem_of_list_two]
        by (split; apply Hin; [by left|by right]). done. }
    intros k. destruct (Hd k) as [_ Hb _]. rewrite Hfin in Hb. by destruct Hb as (-> & ? & ?).
Qed.

(** The idle limit never cuts a busy connection: if the timer has fired at [u], at least
    the idle time had passed since the start and since every write before [u], in either
    direction. *)
Theorem idle_is_idle t s u :
  rreach t s → timer s = Fired u → t + idle ≤ u ∧ Forall (λ w, w + idle ≤ u ∨ u ≤ w) (writes s).
Proof. intros Hr Hu. destruct (tm_fired _ _ (ro_times _ _ (relay_reach t s Hr)) u Hu) as [? ?]. split; [lia|done]. Qed.

End Relay.

(** ** Witnesses *)
Definition demo_idle : Z := 300.
(** The client sends a request and ends; it is written in one go. *)
Definition demo_s1 : relay := set_dir (start 0) Up (do_read new_dir "GET /" EOF) false.
Definition demo_s2 : relay := set_dir demo_s1 Up (do_write (dirs demo_s1 Up) "GET /" EOF 5 None) true.
Definition demo_s3 : relay := set_dir demo_s2 Up (do_close (dirs demo_s2 Up) None) false.
Lemma demo_s3_reach : rreach demo_idle 0 demo_s3.
Proof.
  assert (rreach demo_idle 0 demo_s1) as R1.
  { eapply rr_step; [apply rr_start|]. apply (r_read demo_idle (start 0) Up); [reflexivity| |by left].
    unfold buffer_size; cbn [length]; change (length ("GET /" : str)) with 5%nat; lia. }
  assert (rreach demo_idle 0 demo_s2) as R2.
  { eapply rr_step; [exact R1|]. by apply (r_write demo_idle demo_s1 Up "GET /" EOF 5 None). }
  eapply rr_step; [exact R2|]. by apply (r_close demo_idle demo_s2 Up None).
Qed.
Lemma relay_delivers_witness :
  d_out (dirs demo_s3 Up) = ("GET /" : str) ∧ d_count (dirs demo_s3 Up) = 5 ∧ d_eof (dirs demo_s3 Up) = true.
Proof.
  destruct (relay_delivers demo_idle 0 demo_s3 Up demo_s3_reach) as (_ & Hc & Hs).
  destruct (Hs eq_refl) as [He Ho]. split; [exact Ho|]. split; [exact Hc|exact He].
Defined.
(** The upstream ends without an answer: the relay returns without an error. *)
Definition demo_s4 : relay := set_dir demo_s3 Down (do_read (dirs demo_s3 Down) [] EOF) false.
Definition demo_s5 : relay := set_dir demo_s4 Down (do_close (dirs demo_s4 Down) None) false.
Definition demo_s6 : relay :=
  mkRelay (dirs demo_s5) [None] (Some None) None false (last demo_s5) (now demo_s5) Ticking (writes demo_s5).
Definition demo_s7 : relay :=
  mkRelay (dirs demo_s5) [] (Some None) (Some None) false (last demo_s5) (now demo_s5) Stopped (writes demo_s5).
Lemma demo_s5_reach : rreach demo_idle 0 demo_s5.
Proof.
  assert (rreach demo_idle 0 demo_s4) as R4.
  { eapply rr_step; [exact demo_s3_reach|]. apply (r_read demo_idle demo_s3 Down); [reflexivity|apply Nat.le_0_l|by right]. }
  eapply rr_step; [exact R4|]. by apply (r_close demo_idle demo_s4 Down None).
Qed.
Lemma relay_result_witness :
  d_eof (dirs demo_s7 Down) = true ∧ d_out (dirs demo_s7 Down) = d_in (dirs demo_s7 Down) ∧
  d_shut (dirs demo_s7 Down) = true.
Proof.
  assert (rreach demo_idle 0 demo_s7) as R7.
  { eapply rr_step; [eapply rr_step; [exact demo_s5_reach|]|].
    - exact (r_first demo_idle demo_s5 None [None] eq_refl eq_refl).
    - exact (r_second demo_idle demo_s6 None None [] eq_refl eq_refl eq_refl). }
  destruct (relay_result demo_idle 0 demo_s7 None R7 eq_refl) as (ru & rd & _ & _ & H). exact (H Down).
Defined.
(** Nothing happens for the idle time. *)
Definition demo_quiet : relay :=
  mkRelay (λ _, new_dir) [] None None false 0 300 (Fired 300) [].
Lemma idle_is_idle_witness : timer demo_quiet = Fired 300 ∧ 0 + demo_idle ≤ 300.
Proof.
  split; [reflexivity|].
  assert (rreach demo_idle 0 demo_quiet) as R.
  { eapply rr_step; [eapply rr_step; [apply rr_start|]|].
    - apply (r_clock demo_idle (start 0) 300). simpl. lia.
    - apply (r_tick demo_idle (mkRelay (λ _, new_dir) [] None None false 0 300 Ticking [])); [reflexivity|].
      vm_compute. discriminate. }
  exact (proj1 (idle_is_idle demo_idle 0 demo_quiet 300 R eq_refl)).
Defined.
(** The client's connection breaks. *)
Definition demo_broken : relay :=
  mkRelay (dirs (set_dir (start 0) Up (do_read new_dir [] (ReadError ErrShortWrite)) false)) []
    (Some (Some ErrShortWrite)) None true 0 0 Ticking [].
