(* ===== verification/Logging.v ===== *)
(** * Logging: the rotating log file (src/internal/logging/rotate.go)

    The rotator is a record with the open file it holds; [closed] is the state of that
    [os.File], whose calls fail once it is closed. *)
From S2P Require Import Prelude Strs Fsutil.

Record Rotator := mkRotator { r_path : str; r_file : Z; closed : bool; r_size : Z; limit : Z }.
Definition limit_default : Z := 10 * 1024 * 1024.
Definition set_closed (r : Rotator) : Rotator := mkRotator (r_path r) (r_file r) true (r_size r) (limit r).
Definition file_closed : error := mkError "file already closed" [ErrClosed].

Section Logging.
Context `{Kernel}.
(** [O_APPEND|O_CREATE] without [O_EXCL]: an existing file is opened as it is. *)
Definition open_append (p : str) : M Z := syscall nothing (λ s,
  match follow 40 s p with
  | Some (n, _) => (Ok n, s)
  | None => match dents s !! p with
            | Some _ => (Err not_exist, s)
            | None => let '(n, s) := add_file s p 384 in (Ok n, s)
            end
  end).
Definition FStat (fd : Z) : M inode := query (λ s, of_option not_exist (inodes s !! fd)).
Definition Open (path : str) : M Rotator :=
  _ ← MkdirAll (Dir path) 448;
  i ← try (Lstat path);
  _ ← lift (match i with
            | Ok i => guard_err (negb (bool_decide (i_type i = FRegular)))
                        (errors_New ("log is not a regular file: " ++ path))
            | Err _ => Ok tt
            end);
  fd ← open_append path;
  st ← try (FStat fd);
  match st with
  | Err e => _ ← ignore (Close fd); fail e
  | Ok st => mret (mkRotator path fd false (Z.of_nat (length (i_data st))) limit_default)
  end.

(** The calls on the rotator's file. *)
Definition close_file (r : Rotator) : M unit := if closed r then fail file_closed else Close (r_file r).
Definition write_file (r : Rotator) (b : str) : M unit := if closed r then fail file_closed else Write (r_file r) b.
(** The old logs, youngest first, are the path followed by .1, .2 and .3. *)
Definition backup (path : str) (i : nat) : str :=
  match i with O => path | _ => path ++ "." ++ Itoa (Z.of_nat i) end.
(** The loop from 3 down to 1: a missing file is no error. *)
Fixpoint rename_all (path : str) (i : nat) : M unit :=
  match i with
  | O => mret tt
  | S j =>
      r ← try (Rename (backup path j) (backup path (S j)));
      match r with
      | Err e => if errors_Is e ErrNotExist then rename_all path j else fail e
      | Ok _ => rename_all path j
      end
  end.
(** How much of the data a Write has written when it fails: what the file has gained. *)
Definition written (fd : Z) (s s' : fs) : Z :=
  Z.of_nat (length (default [] (i_data <$> inodes s' !! fd)))
  - Z.of_nat (length (default [] (i_data <$> inodes s !! fd))).
(** [Rotator.Write]: the rotator it leaves, with the bytes written and the error. *)
Definition rotate (r : Rotator) : os → (Rotator * result unit) * os := λ o,
  match close_file r o with
  | (Err e, o) => ((set_closed r, Err e), o)       (* the descriptor is gone all the same *)
  | (Ok _, o) =>
      let r := set_closed r in
      match rename_all (r_path r) 3 o with
      | (Err e, o) => ((r, Err e), o)
      | (Ok _, o) =>
          match sys_create (r_path r) 384 o with
          | (Err e, o) => ((r, Err e), o)
          | (Ok fd, o) => ((mkRotator (r_path r) fd false 0 (limit r), Ok tt), o)
          end
      end
  end.
Definition append (r : Rotator) (b : str) : os → (Rotator * result unit) * os := λ o,
  let '(e, o') := write_file r b o in
  ((mkRotator (r_path r) (r_file r) (closed r) (r_size r + written (r_file r) (sys o) (sys o')) (limit r), e), o').
Definition Write_log (r : Rotator) (b : str) : os → (Rotator * result unit) * os := λ o,
  if limit r <? r_size r + Z.of_nat (length b) then
    match rotate r o with
    | ((r, Err e), o) => ((r, Err e), o)
    | ((r, Ok _), o) => append r b o
    end
  else append r b o.

(** A sequence of writes, with the outcome of each. *)
Fixpoint log_all (r : Rotator) (bs : list str) (o : os) : list (result unit) * Rotator * os :=
  match bs with
  | [] => ([], r, o)
  | b :: bs => let '((r, e), o) := Write_log r b o in
               let '(es, r, o) := log_all r bs o in (e :: es, r, o)
  end.

(** ** Lemmas *)
(** Without faults and with no other process at work a call does what it says. *)
Lemma run_syscall {A} partial (f : fs → result A * fs) o :
  quiet → (∀ n, fault n = None) →
  ∃ o', syscall partial f o = ((f (sys o)).1, o') ∧ sys o' = (f (sys o)).2.
Proof. intros alone sure. unfold syscall. rewrite alone, sure. destruct (f (sys o)) as [r s]. by eexists. Qed.
Definition mv (a b : str) (d : gmap str Z) : gmap str Z :=
  match d !! a with Some n => <[b := n]> (delete a d) | None => d end.
Fixpoint mv_all (path : str) (i : nat) (d : gmap str Z) : gmap str Z :=
  match i with O => d | S j => mv_all path j (mv (backup path j) (backup path (S j)) d) end.
Lemma rename_all_run path i o :
  quiet → (∀ n, fault n = None) →
  ∃ o', rename_all path i o = (Ok tt, o') ∧ sys o' = set_dents (sys o) (mv_all path i (dents (sys o))).
Proof.
  intros alone sure. revert o. induction i as [|j IH]; intros o; cbn [rename_all mv_all].
  { exists o. split; [done|]. by destruct (sys o). }
  unfold Rename. destruct (run_syscall (A := unit) nothing (λ s,
    match dents s !! backup path j with
    | Some n => (Ok tt, set_dents s (<[backup path (S j) := n]> (delete (backup path j) (dents s))))
    | None => (Err not_exist, s) end) o alone sure) as (o1 & E1 & E2).
  unfold try, mbind, M_bind. rewrite E1. cbv beta in E2. unfold mv.
  destruct (dents (sys o) !! backup path j) as [n|]; cbn [fst snd] in *.
  - destruct (IH o1) as (o2 & E3 & E4). rewrite E3. exists o2. split; [done|]. by rewrite E4, E2.
  - change (errors_Is not_exist ErrNotExist) with true. cbn iota.
    destruct (IH o1) as (o2 & E3 & E4). rewrite E3. exists o2. split; [done|]. by rewrite E4, E2.
Qed.
Lemma backup_inj path i j : (i ≤ 3)%nat → (j ≤ 3)%nat → backup path i = backup path j → i = j.
Proof.
  intros Hi Hj E. apply (f_equal (drop (length path))) in E.
  destruct i as [|[|[|[|]]]]; try lia; destruct j as [|[|[|[|]]]]; try lia; try done;
    unfold backup in E; rewrite ?drop_app_length, ?drop_all in E; by vm_compute in E.
Qed.
Lemma mv_lookup a b d q : a ≠ b → mv a b d !! q =
  match d !! a with
  | Some n => if decide (q = b) then Some n else if decide (q = a) then None else d !! q
  | None => d !! q
  end.
Proof.
  intros Hab. unfold mv. destruct (d !! a) as [n|] eqn:E; [|done].
  destruct (decide (q = b)) as [->|Hb]; [by rewrite lookup_insert_eq|]. rewrite lookup_insert_ne by congruence.
  destruct (decide (q = a)) as [->|Ha]; [by rewrite lookup_delete_eq|by rewrite lookup_delete_ne by congruence].
Qed.
(** What the three renames do to the directory. *)
Lemma mv_all_spec path d :
  let d' := mv_all path 3 d in
  d' !! backup path 0 = None ∧ d' !! backup path 1 = d !! backup path 0 ∧ d' !! backup path 2 = d !! backup path 1 ∧
  d' !! backup path 3 = match d !! backup path 2 with Some n => Some n | None => d !! backup path 3 end ∧
  ∀ q, (∀ i, (i ≤ 3)%nat → q ≠ backup path i) → d' !! q = d !! q.
Proof.
  assert (∀ i j, (i ≤ 3)%nat → (j ≤ 3)%nat → i ≠ j → backup path i ≠ backup path j) as Hne
    by (intros i j ? ? Hij E; by apply backup_inj in E).
  assert (backup path 0 ≠ backup path 1 ∧ backup path 0 ≠ backup path 2 ∧ backup path 0 ≠ backup path 3 ∧
          backup path 1 ≠ backup path 2 ∧ backup path 1 ≠ backup path 3 ∧ backup path 2 ≠ backup path 3)
    as (N1 & N2 & N3 & N4 & N5 & N6) by (split_and!; apply Hne; lia).
  set (p0 := backup path 0) in *. set (p1 := backup path 1) in *.
  set (p2 := backup path 2) in *. set (p3 := backup path 3) in *.
  assert (∀ q, mv_all path 3 d !! q = mv p0 p1 (mv p1 p2 (mv p2 p3 d)) !! q) as E by done.
  cbv zeta. rewrite !E. split_and!.
  5:{ intros q Hq. rewrite E.
      assert (q ≠ p0 ∧ q ≠ p1 ∧ q ≠ p2 ∧ q ≠ p3) as (Q0 & Q1 & Q2 & Q3) by (split_and!; apply Hq; lia).
      rewrite !mv_lookup by done. rewrite !decide_False by done. by repeat case_match. }
  all: rewrite ?E, !mv_lookup by done; repeat case_decide; try congruence;
    repeat case_match; congruence.
Qed.

(** The rotator's file is the one at its path, and its size is known. *)
Record log_ok (r : Rotator) (s : fs) (data : str) : Prop := {
  lo_open : closed r = false;
  lo_path : dents s !! r_path r = Some (r_file r);
  lo_data : ∃ i, inodes s !! r_file r = Some i ∧ i_data i = data;
  lo_size : r_size r = Z.of_nat (length data) }.
Lemma log_ok_read r s data : log_ok r s data → read s (r_path r) = Some data.
Proof. intros [_ Hp (i & Hi & <-) _]. unfold read, inode_at. rewrite Hp. cbn. by rewrite Hi. Qed.
Lemma append_run r b o data :
  quiet → (∀ n, fault n = None) → log_ok r (sys o) data →
  ∃ r' o', append r b o = ((r', Ok tt), o') ∧ log_ok r' (sys o') (data ++ b) ∧
    r_path r' = r_path r ∧ limit r' = limit r ∧ sys o' = on_inode (r_file r) (append_data b) (sys o).
Proof.
  intros alone sure [Ho Hp (i & Hi & Hd) Hs]. unfold append, write_file. rewrite Ho. unfold Write.
  destruct (run_syscall (A := unit) (λ k s, on_inode (r_file r) (append_data (take (short_write k) b)) s)
    (λ s, (Ok tt, on_inode (r_file r) (append_data b) s)) o alone sure) as (o1 & -> & E2).
  cbn [fst snd] in *. eexists _, o1. split; [reflexivity|]. rewrite E2. cbn [r_path limit].
  assert (inodes (on_inode (r_file r) (append_data b) (sys o)) !! r_file r = Some (append_data b i)) as Hi'
    by (simpl; by rewrite lookup_alter_eq, Hi).
  split_and!; [|done|done|done]. split; cbn [closed r_path r_file r_size]; [done|done| |].
  - exists (append_data b i). split; [done|]. simpl. by rewrite Hd.
  - unfold written. rewrite Hi', Hi, Hs. simpl. rewrite Hd, length_app. lia.
Qed.
Lemma rotate_run r o :
  quiet → (∀ n, fault n = None) → closed r = false →
  ∃ r' o', rotate r o = ((r', Ok tt), o') ∧ log_ok r' (sys o') [] ∧ r_path r' = r_path r ∧ limit r' = limit r ∧
    sys o' = (add_file (set_dents (sys o) (mv_all (r_path r) 3 (dents (sys o)))) (r_path r) 384).2.
Proof.
  intros alone sure Ho. unfold rotate, close_file. rewrite Ho. unfold Close.
  destruct (run_syscall (A := unit) nothing (λ s, (Ok tt, s)) o alone sure) as (o1 & -> & E1). cbn [fst snd] in *.
  destruct (rename_all_run (r_path r) 3 o1 alone sure) as (o2 & E2 & E3). cbn [r_path set_closed]. rewrite E2.
  unfold sys_create. set (f := λ s : fs, match dents s !! r_path r with Some _ => _ | None => _ end).
  destruct (run_syscall nothing f o2 alone sure) as (o3 & -> & E4).
  assert (f (sys o2) = (Ok (fresh_ino (sys o2)), (add_file (sys o2) (r_path r) 384).2)) as Ef.
  { unfold f. rewrite E3. cbn [dents set_dents]. destruct (mv_all_spec (r_path r) (dents (sys o1))) as (H0' & _).
    cbn [backup] in H0'. by rewrite H0'. }
  rewrite Ef in *. cbn [fst snd] in *. eexists _, o3. split; [reflexivity|]. cbn [r_path limit].
  assert (sys o3 = (add_file (set_dents (sys o) (mv_all (r_path r) 3 (dents (sys o)))) (r_path r) 384).2) as Es
    by (rewrite E4, E3, E1; done).
  split_and!; [|done|done|done]. rewrite E4. split; cbn [closed r_path r_file r_size]; [done| | |done].
  - simpl. by rewrite lookup_insert_eq.
  - eexists. simpl. by rewrite lookup_insert_eq.
Qed.

(** Every directory entry names an inode. *)
Definition no_dangling (s : fs) : Prop := ∀ q n, dents s !! q = Some n → is_Some (inodes s !! n).
Lemma read_rotated s d p q q' b :
  no_dangling s → q' ≠ p → d !! q' = dents s !! q →
  read (on_inode (fresh_ino s) (append_data b) (add_file (set_dents s d) p 384).2) q' = read s q.
Proof.
  intros Hs Hq Hd. unfold read, inode_at. simpl. rewrite lookup_insert_ne by congruence. rewrite Hd.
  destruct (dents s !! q) as [n|] eqn:E; [|done]. cbn. destruct (Hs q n E) as [i Hi].
  assert (n ≠ fresh_ino s) by (intros ->; by rewrite fresh_ino_None in Hi).
  change (fresh_ino (set_dents s d)) with (fresh_ino s).
  by rewrite lookup_alter_ne, lookup_insert_ne by congruence.
Qed.

(** C29: The log is bounded and its history kept. Without faults, a write to an open log
    appends the bytes to the file at the path if they fit under the limit. Otherwise the
    file becomes the first backup, the first the second and the second the third (an old
    third one is kept only if there was no second), and a new file at the path holds
    exactly the bytes. Either way the write succeeds, the size the rotator keeps is the
    file's, and it exceeds the limit only if this one write does. *)
Theorem Rotator_spec r b o data :
  quiet → (∀ n, fault n = None) → no_dangling (sys o) → log_ok r (sys o) data →
  let p := r_path r in
  let s := sys o in
  ∃ r' o', Write_log r b o = ((r', Ok tt), o') ∧
    (if limit r <? Z.of_nat (length data + length b) then
       log_ok r' (sys o') b ∧ read (sys o') (backup p 1) = Some data ∧
       read (sys o') (backup p 2) = read s (backup p 1) ∧
       (is_Some (dents s !! backup p 2) → read (sys o') (backup p 3) = read s (backup p 2))
     else log_ok r' (sys o') (data ++ b) ∧ dents (sys o') = dents s) ∧
    r_path r' = p ∧ r_size r' ≤ Z.max (limit r) (Z.of_nat (length b)).
Proof.
  intros alone sure Hdan Hok p s. pose proof (lo_size _ _ _ Hok) as Hsz. unfold Write_log.
  rewrite Hsz, <- Nat2Z.inj_add. destruct (limit r <? _) eqn:El; bools.
  - destruct (rotate_run r o alone sure (lo_open _ _ _ Hok)) as (r1 & o1 & -> & Hok1 & Hp1 & Hl1 & E1).
    destruct (append_run r1 b o1 [] alone sure Hok1) as (r2 & o2 & -> & Hok2 & Hp2 & Hl2 & E2).
    exists r2, o2. split; [done|]. rewrite app_nil_l in Hok2. rewrite Hp2, Hp1.
    pose proof (lo_size _ _ _ Hok2).
    assert (r_file r1 = fresh_ino s) as Hf.
    { pose proof (lo_path _ _ _ Hok1) as Hp. rewrite E1, Hp1 in Hp. simpl in Hp.
      rewrite lookup_insert_eq in Hp. by injection Hp. }
    rewrite Hf, E1 in E2. fold s p in E2.
    destruct (mv_all_spec p (dents s)) as (_ & M1 & M2 & M3 & _).
    assert (∀ j, (1 ≤ j ≤ 3)%nat → backup p j ≠ p) as Hne.
    { intros j Hj E. change p with (backup p 0) in E at 2. apply backup_inj in E; lia. }
    split_and!; [done| | | |done|lia]; [..|intros [n Hn]]; rewrite E2.
    + rewrite (read_rotated _ _ _ p _ _ Hdan (Hne 1%nat ltac:(lia)) M1). by eapply log_ok_read.
    + by apply read_rotated; [|apply Hne; lia|].
    + apply read_rotated; [done|apply Hne; lia|]. by rewrite M3, Hn.
  - destruct (append_run r b o data alone sure Hok) as (r1 & o1 & -> & Hok1 & Hp1 & Hl1 & E1).
    exists r1, o1. split; [done|]. rewrite E1. pose proof (lo_size _ _ _ Hok1) as Hs1. rewrite length_app in Hs1.
    rewrite E1 in Hok1. split_and!; [done|done|done|lia].
Qed.

(** A failed rotation is final: once the loop of renames or the creation of the new file
    has failed, the rotator holds a closed file, and every later write fails and changes
    nothing, whatever the state of the file system by then. *)
Theorem rotation_failure_is_final r o r' e o' bs o2 :
  rotate r o = ((r', Err e), o') →
  (log_all r' bs o2).1.1 = replicate (length bs) (Err file_closed) ∧ (log_all r' bs o2).2 = o2.
Proof.
  intros Hr. assert (closed r' = true) as Hc.
  { unfold rotate in Hr. destruct (close_file r o) as [[[]|e1] o1]; [|by injection Hr as <- _ _].
    cbv zeta in Hr. destruct (rename_all _ 3 o1) as [[[]|e2] o3]; [|by injection Hr as <- _ _].
    destruct (sys_create _ 384 o3) as [[fd|e3] o4]; [done|by injection Hr as <- _ _]. }
  clear Hr. revert r' Hc. induction bs as [|b bs IH]; intros r' Hc; [done|]. cbn [log_all length replicate].
  assert (∃ r'', Write_log r' b o2 = ((r'', Err file_closed), o2) ∧ closed r'' = true) as (r'' & -> & Hc').
  { unfold Write_log, rotate, append, close_file, write_file. rewrite Hc.
    destruct (limit r' <? _); eexists; (split; [reflexivity|done]). }
  specialize (IH r'' Hc'). destruct (log_all r'' bs o2) as [[es r3] o3]. simpl in *. by destruct IH as [-> ->].
Qed.
End Logging.

(** ** Witnesses *)
Definition demo_log_fs : fs :=
  mkFs {["/log" : str := 1; "/log.1" : str := 2]} ∅
    {[1 := mkInode FRegular 384 0 0 "abc" true []; 2 := mkInode FRegular 384 0 0 "old" true []]} ∅.
Definition demo_log : Rotator := mkRotator "/log" 1 false 3 5.
Definition demo_write : (Rotator * result unit) * os := @Write_log no_faults demo_log "defg" (mkOs demo_log_fs 0 []).
Lemma demo_log_ok : log_ok demo_log demo_log_fs "abc".
Proof.
  split; [reflexivity|vm_compute; reflexivity| |reflexivity].
  exists (mkInode FRegular 384 0 0 "abc" true []). split; vm_compute; reflexivity.
Qed.
Lemma demo_no_dangling : no_dangling demo_log_fs.
Proof.
  intros q n Hq. simpl in Hq. apply lookup_insert_Some in Hq as [[_ <-]|[_ Hq]]; [by eexists|].
  apply lookup_singleton_Some in Hq as [_ <-]. by eexists.
Qed.
Lemma Rotator_spec_witness :
  read (sys demo_write.2) "/log" = Some ("defg" : str) ∧ read (sys demo_write.2) "/log.1" = Some ("abc" : str) ∧
  read (sys demo_write.2) "/log.2" = Some ("old" : str).
Proof.
  destruct (@Rotator_spec no_faults demo_log "defg" (mkOs demo_log_fs 0 []) "abc"
    ltac:(intros k s; reflexivity) ltac:(reflexivity) demo_no_dangling demo_log_ok)
    as (r' & o' & E & (Hok & H1 & H2 & _) & Hp & _).
  assert (demo_write.2 = o') as Eo by (unfold demo_write; rewrite E; reflexivity). rewrite Eo.
  split; [|split].
  - rewrite <- (log_ok_read _ _ _ Hok), Hp. reflexivity.
  - exact H1.
  - refine (eq_trans H2 _). vm_compute. reflexivity.
Defined.
(** The second call, the first rename, fails, and no other call. *)
Definition full_disk : Kernel := demo_kernel (λ k, if (k =? 1)%nat then Some (errors_New "read-only file system") else None).
Definition demo_failed : (Rotator * result unit) * os := @rotate full_disk demo_log (mkOs demo_log_fs 0 []).
Lemma rotation_failure_is_final_witness :
  (@log_all full_disk demo_failed.1.1 ["x" : str; "y" : str] demo_failed.2).1.1 = [Err file_closed; Err file_closed].
Proof.
  refine (proj1 (@rotation_failure_is_final full_disk demo_log (mkOs demo_log_fs 0 []) demo_failed.1.1
    (errors_New "read-only file system") demo_failed.2 ["x" : str; "y" : str] demo_failed.2 _)).
  vm_compute. reflexivity.
Defined.
