(* ===== verification/Trust.v ===== *)
(** * Trust: the system's trust in the CA (src/internal/trust/trust.go and platform.go)

    [Execute] is a program over the file system of Fsutil. The store of trusted
    certificates is behind the class [Backend], as it is behind the code's interface of
    that name; the two backends of platform.go are instances. PEM, DER and JSON are the
    class [Formats]. *)
From S2P Require Import Prelude Strs Fsutil.
From S2P Require CA Config.

(** ** Certificates *)
Record Certificate := mkCertificate { X509 : CA.Certificate; PEM : str; SHA256 : str }.
Record StoreT := mkStore { Kind : str; Target : str; Scope : str }.
#[global] Instance StoreT_eq_dec : EqDecision StoreT.
Proof. solve_decision. Defined.
Record State := mkState { Installed : bool; Trusted : bool }.
Record receipt := mkReceipt { rc_version : Z; rc_sha : str; rc_store : StoreT; rc_phase : str }.

Class Formats := {
  pem_decode : str → option (str * str * str);          (* the type, the bytes and the rest *)
  pem_encode : str → str;                               (* of type CERTIFICATE *)
  parse_der : str → result CA.Certificate;
  self_signed : CA.Certificate → bool;                  (* CheckSignatureFrom itself *)
  der_of : CA.Certificate → str;                        (* Raw *)
  subject_of : CA.Certificate → str;                    (* Subject.String() *)
  sha256_hex : str → str;
  receipt_json : receipt → str;
  parse_receipt : str → result receipt }.

Section Certificates.
Context `{Formats}.
Definition begin_certificate : str := "-----BEGIN CERTIFICATE-----".
Definition not_public : error := errors_New "expected one public PEM CA certificate, not a private key or bundle".
Definition not_one : error := errors_New "expected exactly one PEM certificate".
Definition Parse (b : str) : result Certificate :=
  let b := TrimSpace b in
  if negb (HasPrefix b begin_certificate) then Err not_public
  else match pem_decode b with
       | None => Err not_one
       | Some (ty, bytes, rest) =>
           if (ty != "CERTIFICATE") || negb (length (TrimSpace rest) =? 0)%nat then Err not_one
           else
             c ← parse_der bytes;
             _ ← guard_err (negb (CA.IsCA c) || negb (CA.BasicConstraintsValid c)
                            || (Z.land (CA.KeyUsage c) CA.KeyUsageCertSign =? 0) || negb (self_signed c))
                   (errors_New "trust operations require a self-signed signing CA");
             Ok (mkCertificate c (pem_encode (der_of c)) (sha256_hex (der_of c)))
       end.
Definition validNow (now : Z) (c : Certificate) : bool :=
  negb (now <? CA.NotBefore (X509 c)) && (now <? CA.NotAfter (X509 c)).
(** [containsCertificate]: every PEM block consumes some of the bytes. *)
Fixpoint containsCertificate_loop (fuel : nat) (b : str) (fingerprint : str) : bool :=
  match fuel with
  | O => false
  | S n =>
      match pem_decode b with
      | None => false
      | Some (ty, bytes, rest) =>
          if ty != "CERTIFICATE" then containsCertificate_loop n rest fingerprint
          else match parse_der bytes with
               | Err _ => containsCertificate_loop n rest fingerprint
               | Ok c => (sha256_hex (der_of c) == fingerprint) || containsCertificate_loop n rest fingerprint
               end
      end
  end.
Definition containsCertificate (b fingerprint : str) : bool :=
  containsCertificate_loop (S (length b)) b fingerprint.
Context `{Kernel}.
Definition Load (path : str) : M Certificate :=
  b ← ReadFile path;
  _ ← lift (guard_err (1024 * 1024 <? Z.of_nat (length b)) (errors_New "CA certificate exceeds 1 MiB"));
  lift (Parse b).
End Certificates.

Class Backend `{Kernel} := {
  Store : Certificate → StoreT;
  Inspect : Certificate → M (State * option error);
  Add : Certificate → str → M unit;
  Remove_ca : Certificate → str → M unit }.

(** ** [Execute] *)
Record Report := mkReport {
  Action : str; RCertificate : str; Subject : str; RSHA256 : str; RStore : StoreT; RState : State;
  Managed : bool; OwnershipKnown : bool; Receipt : str; RecoveryCertificate : str;
  DryRun : bool; Changed : bool; Message : str }.
Definition no_store : StoreT := mkStore [] [] [].
Definition no_state : State := mkState false false.
Definition new_report (action : str) (dry : bool) : Report :=
  mkReport action [] [] [] no_store no_state false true [] [] dry false [].
Definition about (r : Report) (path subject dir : str) (c : Certificate) (st : StoreT) : Report :=
  mkReport (Action r) path subject (SHA256 c) st (RState r) (Managed r) (OwnershipKnown r)
    (dir ++ "/" ++ SHA256 c ++ ".json") (dir ++ "/" ++ SHA256 c ++ ".crt") (DryRun r) (Changed r) (Message r).
Definition set_known (r : Report) (b : bool) : Report :=
  mkReport (Action r) (RCertificate r) (Subject r) (RSHA256 r) (RStore r) (RState r) (Managed r) b (Receipt r)
    (RecoveryCertificate r) (DryRun r) (Changed r) (Message r).
Definition set_managed (r : Report) (b : bool) : Report :=
  mkReport (Action r) (RCertificate r) (Subject r) (RSHA256 r) (RStore r) (RState r) b (OwnershipKnown r) (Receipt r)
    (RecoveryCertificate r) (DryRun r) (Changed r) (Message r).
Definition set_state (r : Report) (s : State) : Report :=
  mkReport (Action r) (RCertificate r) (Subject r) (RSHA256 r) (RStore r) s (Managed r) (OwnershipKnown r) (Receipt r)
    (RecoveryCertificate r) (DryRun r) (Changed r) (Message r).
Definition set_message (r : Report) (changed : bool) (m : str) : Report :=
  mkReport (Action r) (RCertificate r) (Subject r) (RSHA256 r) (RStore r) (RState r) (Managed r) (OwnershipKnown r)
    (Receipt r) (RecoveryCertificate r) (DryRun r) changed m.

Definition ErrNotTrusted_error : error := mkError "CA is not trusted for TLS in the checked system store" [ErrNotTrusted].
Definition permission : error := mkError "permission denied" [ErrPermission].
(** What the code tells the user. *)
Definition checked_message : str := "Checks the system store/native TLS policy, not every browser or application trust store.".
Definition already_message : str := "Already trusted; no trust settings changed.".
Definition unmanaged_message : str :=
  " Pre-existing trust remains unmanaged and will not be removed by ca untrust.".
Definition would_add : str := "Would install this exact public CA and update system trust; no changes made.".
Definition failed_message : str :=
  "Trust installation failed; rollback attempted. If recovery files remain, retry ca untrust --cert with the recovery certificate.".
Definition added_message : str :=
  "Public CA installed and trusted. Restart affected clients; private keys were not accessed.".
Definition nothing_message : str := "No managed installation or trusted CA found; nothing to remove.".
Definition would_remove : str :=
  "Would remove only this receipt-owned certificate and update system trust; no changes made.".
Definition removed_message : str :=
  "Removed the managed trust installation; original CA files and private key are unchanged.".
Definition still_message : str := " The CA is still trusted through another installation; that trust was preserved.".
Definition manual_message : str :=
  "this exact CA already exists but is not trusted; configure its trust manually (utlsproxy will not take over an unmanaged certificate)".
Definition foreign_message : str :=
  "CA was not installed by utlsproxy; refusing to remove unmanaged trust (use the original installation method)".
Definition remains_message : str := "owned certificate remains installed after removal; receipt retained for retry".

(** [errors.Join] of an error and an error that may be nil. *)
Definition errors_Join (e : error) (f : option error) : error :=
  match f with
  | Some f => mkError (Error e ++ nl :: Error f) (chain e ++ chain f)
  | None => e
  end.

Section Execute.
Context `{Formats, Kernel, !Backend}.
(** The manager's fields besides the backend, [filepath.Abs] and the time. *)
Variables (dir : str) (protect : str → M unit) (Abs : str → result str) (now : Z).

Definition outcome : Type := M (Report * option error).
Definition stop (r : Report) (e : error) : outcome := mret (r, Some e).
(** [if err != nil { return r, err }]: the report is returned in any case. *)
Definition check {A} (r : Report) (m : M A) (wrap : error → error) (k : A → outcome) : outcome :=
  x ← try m;
  match x with Ok a => k a | Err e => stop r (wrap e) end.
Definition bad_receipt (rc : receipt) (c : Certificate) : bool :=
  negb (rc_version rc =? 1) || (rc_sha rc != SHA256 c) || negb (bool_decide (rc_store rc = Store c))
  || ((rc_phase rc != "pending") && (rc_phase rc != "installed")).
Definition readReceipt (path : str) (c : Certificate) : M (option receipt) :=
  x ← try (Regular path);
  match x with
  | Err e => if errors_Is e ErrNotExist then mret None else fail e
  | Ok _ =>
      b ← ReadFile path;
      rc ← lift (parse_receipt b);
      _ ← lift (guard_err (bad_receipt rc c) (errors_New "invalid or mismatched trust receipt; refusing to change trust"));
      mret (Some rc)
  end.
Definition removeReceipt (r : Report) : M unit :=
  _ ← Remove (Receipt r);
  Remove (RecoveryCertificate r).

(** *** trust *)
Definition with_phase (rc : receipt) (p : str) : receipt := mkReceipt (rc_version rc) (rc_sha rc) (rc_store rc) p.
Definition reinspect (c : Certificate) (r : Report) : outcome :=
  '(st, e) ← Inspect c;
  mret (set_state r st, match e with
                        | Some e => Some e
                        | None => if Trusted st then None else Some ErrNotTrusted_error
                        end).
Definition rollback (c : Certificate) (r : Report) (e : error) : outcome :=
  x ← try (Remove_ca c (RecoveryCertificate r));
  '(r, rb) ← match x with
             | Err f => mret (r, Some f)
             | Ok _ => y ← try (removeReceipt r);
                       match y with
                       | Err f => mret (r, Some f)
                       | Ok _ => mret (set_managed r false, None)
                       end
             end;
  '(st, probe) ← Inspect c;
  let '(r, rb) := match probe with
                  | None => (set_state r st, rb)
                  | Some p => (r, Some (match rb with Some f => errors_Join f (Some p) | None => p end))
                  end in
  stop (set_message r (Changed r) failed_message) (errors_Join e rb).
Definition add (c : Certificate) (r : Report) : outcome :=
  x ← try (Add c (RecoveryCertificate r));
  match x with
  | Err e => stop r e
  | Ok _ => reinspect c r
  end.
Definition install (c : Certificate) (r : Report) (owned : receipt) : outcome :=
  '(r, e) ← add c (set_managed r true);
  match e with
  | Some e => rollback c r e
  | None =>
      check r (Atomic (Receipt r) (receipt_json (with_phase owned "installed")) 384)
        (Errorf_w "CA trusted; pending receipt retained: ") (λ _,
      mret (set_message r true added_message, None))
  end.
(** The recovery certificate and the pending receipt come before anything is installed. *)
Definition record (c : Certificate) (r : Report) (k : receipt → outcome) : outcome :=
  let rc := mkReceipt 1 (SHA256 c) (RStore r) "pending" in
  check r (Exclusive (RecoveryCertificate r) (PEM c) 420) (Errorf_w "trust recovery snapshot: ") (λ _,
  x ← try (Exclusive (Receipt r) (receipt_json rc) 384);
  match x with
  | Err e => _ ← ignore (Remove (RecoveryCertificate r)); stop r e
  | Ok _ => k rc
  end).
Definition trust (dry : bool) (c : Certificate) (r : Report) (owned : option receipt) : outcome :=
  if Trusted (RState r) then
    mret (set_message r false (already_message ++ if Managed r then [] else unmanaged_message), None)
  else if Installed (RState r) && negb (bool_decide (is_Some owned)) then stop r (errors_New manual_message)
  else if dry then mret (set_message r false would_add, None)
  else match owned with
       | Some rc => install c r rc
       | None => record c r (install c r)
       end.

(** *** untrust *)
Definition untrust (dry : bool) (c : Certificate) (r : Report) (owned : option receipt) : outcome :=
  match owned with
  | None =>
      if Installed (RState r) || Trusted (RState r) then stop r (errors_New foreign_message)
      else mret (set_message r false nothing_message, None)
  | Some _ =>
      if dry then mret (set_message r false would_remove, None)
      else
        check r (Remove_ca c (RecoveryCertificate r)) (Errorf_w "removal failed; receipt retained for retry: ") (λ _,
        '(st, e) ← Inspect c;
        let r := set_state r st in
        match e with
        | Some e => stop r (Errorf_w "removal verification failed; receipt retained: " e)
        | None =>
            if Installed st then stop r (errors_New remains_message)
            else check r (removeReceipt r) id (λ _,
                 mret (set_message (set_managed r false) true
                         (removed_message ++ if Trusted st then still_message else []), None))
        end)
  end.

(** *** The whole *)
Definition act (action : str) (dry : bool) (c : Certificate) (r : Report) (owned : option receipt) : outcome :=
  if action == "trust-status" then
    mret (set_message r false checked_message, if Trusted (RState r) then None else Some ErrNotTrusted_error)
  else if action == "trust" then trust dry c r owned
  else untrust dry c r owned.
Definition inspect (action : str) (dry : bool) (c : Certificate) (r : Report) (owned : option receipt) : outcome :=
  '(st, e) ← Inspect c;
  let r := set_state r st in
  match e with Some e => stop r e | None => act action dry c r owned end.
Definition recovery (action : str) (dry : bool) (c : Certificate) (r : Report) (owned : option receipt) : outcome :=
  let r := set_managed r (bool_decide (is_Some owned)) in
  match owned with
  | None => inspect action dry c r owned
  | Some _ =>
      check r (Load (RecoveryCertificate r)) (Errorf_w "trust recovery certificate: ") (λ stored,
      if SHA256 stored != SHA256 c then stop r (errors_New "trust recovery certificate was modified")
      else inspect action dry c r owned)
  end.
Definition manage (action : str) (dry : bool) (c : Certificate) (r : Report) : outcome :=
  x ← try (readReceipt (Receipt r) c);
  match x with
  | Ok owned => recovery action dry c r owned
  | Err e => if (action == "trust-status") && errors_Is e ErrPermission
             then recovery action dry c (set_known r false) None
             else stop r e
  end.
Definition Execute (action path : str) (dry : bool) : outcome :=
  let r := new_report action dry in
  if negb (str_mem action ["trust" : str; "untrust" : str; "trust-status" : str])
  then stop r (errors_New "unknown trust action")
  else
    check r (Load path) id (λ c,
    match Abs path with
    | Err e => stop r e
    | Ok abs =>
        let r := about r abs (subject_of (X509 c)) dir c (Store c) in
        if (action == "trust") && negb (validNow now c)
        then stop r (errors_New "cannot trust a CA that is not currently valid")
        else if (action != "trust-status") && negb dry then
          if negb (euid =? 0) then stop r permission
          else check r (protect dir) id (λ _,
               check r (Lock (dir ++ "/trust.lock")) id (λ unlock,
               finally (manage action dry c r) unlock))
        else manage action dry c r
    end).
End Execute.

(** ** The two backends

    Commands are run through [runner]: the input, the path and the arguments, the combined
    output and an error. Their effect on the files is up to them. *)
Definition runner : Type := str → str → list str → M (str * option error).

(** *** Linux: a directory of anchors and a tool that rebuilds the bundle *)
Record linuxBackend := mkLinux {
  l_kind : str; l_dir : str; l_bundle : str; l_tool : str; l_args : list str }.
(** [update-ca-trust] takes the argument [extract]. *)
Definition linux_id (id : str) : option linuxBackend :=
  if str_mem id ["debian" : str; "ubuntu" : str] then
    Some (mkLinux "debian-ca-certificates" "/usr/local/share/ca-certificates" "/etc/ssl/certs/ca-certificates.crt"
            "/usr/sbin/update-ca-certificates" [])
  else if str_mem id ["fedora" : str; "rhel" : str; "centos" : str; "rocky" : str; "almalinux" : str] then
    Some (mkLinux "fedora-ca-trust" "/etc/pki/ca-trust/source/anchors" "/etc/pki/ca-trust/extracted/pem/tls-ca-bundle.pem"
            "/usr/bin/update-ca-trust" ["extract" : str])
  else if id == "arch" then
    Some (mkLinux "arch-ca-trust" "/etc/ca-certificates/trust-source/anchors" "/etc/ca-certificates/extracted/tls-ca-bundle.pem"
            "/usr/bin/update-ca-trust" ["extract" : str])
  else None.
Definition release_ids (release : str) : str :=
  fold_left (λ ids line,
    let '(k, v, ok) := Cut line (chr 61) in
    if ok && ((k == "ID") || (k == "ID_LIKE")) then ids ++ " " ++ Trim (TrimSpace v) [chr 34; chr 39] else ids)
    (Split release nl) [].
Definition unsupported_store : error := errors_New
  "unsupported Linux trust store; supported: Debian/Ubuntu, Fedora/RHEL and Arch Linux families; install ca.crt manually".
Definition linuxStore (release : str) : result linuxBackend :=
  of_option unsupported_store (head (omap linux_id (Fields (release_ids release)))).

Section Linux.
Context `{Formats, Kernel}.
(** [l_protect] and [l_checkTool]: the backend's fields of those names. *)
Variables (l : linuxBackend) (run : runner) (l_protect l_checkTool : str → M unit) (now : Z).
Definition Linux_Store (c : Certificate) : StoreT :=
  mkStore (l_kind l) (l_dir l ++ "/utlsproxy-" ++ SHA256 c ++ ".crt") "system CA trust (not restricted to SSL)".
Definition anchor (c : Certificate) : M bool :=
  let path := Target (Linux_Store c) in
  x ← try (Regular path);
  match x with
  | Err e => if errors_Is e ErrNotExist then mret false else fail e
  | Ok _ =>
      stored ← Load path;
      _ ← lift (guard_err (SHA256 stored != SHA256 c)
                  (errors_New "trust anchor path contains a different certificate; refusing replacement/removal"));
      mret true
  end.
Definition Linux_Inspect (c : Certificate) : M (State * option error) :=
  present ← try (anchor c);
  match present with
  | Err e => mret (no_state, Some e)
  | Ok present =>
      b ← try (ReadFile (l_bundle l));
      match b with
      | Err e => if errors_Is e ErrNotExist then mret (mkState present (validNow now c && containsCertificate [] (SHA256 c)), None)
                 else mret (no_state, Some e)
      | Ok b => mret (mkState present (validNow now c && containsCertificate b (SHA256 c)), None)
      end
  end.
Definition no_package : str := "install the distribution ca-certificates package: ".
Definition check_tool : M unit :=
  x ← try (l_checkTool (l_tool l));
  match x with Ok _ => mret tt | Err e => fail (Errorf_w no_package e) end.
Definition refresh : M unit :=
  _ ← check_tool;
  '(_, e) ← run [] (l_tool l) (l_args l);
  match e with None => mret tt | Some e => fail e end.
Definition write_anchor (c : Certificate) (present : bool) : M unit :=
  if present then mret tt else Exclusive (Target (Linux_Store c)) (PEM c) 420.
Definition delete_anchor (c : Certificate) (present : bool) : M unit :=
  if present then Remove (Target (Linux_Store c)) else mret tt.
Definition Linux_Add (c : Certificate) (snapshot : str) : M unit :=
  _ ← check_tool;
  _ ← l_protect (l_dir l);
  present ← anchor c;
  _ ← write_anchor c present;
  refresh.
Definition Linux_Remove (c : Certificate) (snapshot : str) : M unit :=
  _ ← l_protect (l_dir l);
  present ← anchor c;
  _ ← delete_anchor c present;
  refresh.
Definition linux_backend : Backend :=
  {| Store := Linux_Store; Inspect := Linux_Inspect; Add := Linux_Add; Remove_ca := Linux_Remove |}.
End Linux.

(** *** macOS: the system keychain, through [/usr/bin/security] *)
Section Mac.
Context `{Unicode, Formats, Kernel}.
(** [ctx_err]: whether the context of the calls is done. *)
Variables (keychain : str) (run : runner) (ctx_err : M (option error)).
Definition security : str := "/usr/bin/security".
Definition missingItem (b : str) : bool :=
  let s := ToLower b in
  Contains s "the specified item could not be found" || Contains s "no trust settings were found".
Definition Mac_Store (c : Certificate) : StoreT := mkStore "macos-keychain" keychain "SSL only; admin trust domain".
Definition fatal (r : str * option error) : option error :=
  match r.2 with Some e => if missingItem r.1 then None else Some e | None => None end.
Definition verify_args : list str :=
  ["verify-cert" : str; "-c" : str; "/dev/stdin" : str; "-p" : str; "ssl" : str; "-l" : str; "-L" : str; "-k" : str;
   keychain; "-q" : str].
Definition Mac_Inspect (c : Certificate) : M (State * option error) :=
  x ← run [] security ["find-certificate" : str; "-a" : str; "-p" : str; keychain];
  match fatal x with
  | Some e => mret (no_state, Some e)
  | None =>
      let installed := containsCertificate x.1 (SHA256 c) in
      '(_, e) ← run (PEM c) security verify_args;
      match e with
      | None => mret (mkState installed true, None)
      | Some e =>
          d ← ctx_err;
          match d with
          | Some d => mret (mkState installed false, Some d)
          | None => mret (mkState installed false, if errors_Is e ExitError then None else Some e)
          end
      end
  end.
Definition Mac_Add (c : Certificate) (snapshot : str) : M unit :=
  '(_, e) ← run [] security ["add-trusted-cert" : str; "-d" : str; "-r" : str; "trustRoot" : str; "-p" : str; "ssl" : str;
                             "-k" : str; keychain; snapshot];
  match e with Some e => fail e | None => mret tt end.
Definition Mac_Remove (c : Certificate) (snapshot : str) : M unit :=
  x ← run [] security ["remove-trusted-cert" : str; "-d" : str; snapshot];
  match fatal x with
  | Some e => fail e
  | None =>
      y ← run [] security ["delete-certificate" : str; "-Z" : str; SHA256 c; keychain];
      match fatal y with Some e => fail e | None => mret tt end
  end.
Definition mac_backend : Backend :=
  {| Store := Mac_Store; Inspect := Mac_Inspect; Add := Mac_Add; Remove_ca := Mac_Remove |}.
End Mac.

(** [New]: the platform's backend and the manager's directory. *)
Section New.
Context `{Kernel}.
Inductive platform := Mac (keychain : str) | Linux (l : linuxBackend).
Definition new_platform (GOOS : str) : M platform :=
  if GOOS == "darwin" then mret (Mac "/Library/Keychains/System.keychain")
  else if GOOS == "linux" then
    release ← ReadFile "/etc/os-release";
    l ← lift (linuxStore release);
    mret (Linux l)
  else fail (errors_New ("CA trust unsupported on " ++ GOOS ++ "; import the public CA manually")).
Definition New (GOOS : str) : M (platform * str) :=
  p ← new_platform GOOS;
  mret (p, Dir (Config.PConfig (Config.PlatformPaths GOOS)) ++ "/trust").
(** The two checks of directories: [lstat], [stat], [Abs] and [EvalSymlinks] as in [RootOwned]. *)
Variables (root_owned : fs → str → result unit).
Definition RootOwned_call (path : str) : M unit := query (λ s, root_owned s path).
Definition manager_protect (path : str) : M unit := _ ← PrivateDir path; RootOwned_call path.
Definition linux_protect (path : str) : M unit := _ ← MkdirAll path 493; RootOwned_call path.
End New.
