(* ===== verification/TrustSafety.v ===== *)
(** * Trust: what [Execute] may do to the system's trust (theorems about Trust.v)

    The anchor, the receipt and the recovery certificate are three names of the file
    system; the invariant relates them in every state the program goes through. *)
From S2P Require Import Prelude Strs Fsutil Frames Trust.
From S2P Require CA.

Section Calls.
Context `{Kernel} (good : fs → Prop).
Lemma hoare_check {A} r (m : M A) wrap k P (R : result A → fs → Prop) (Q : result (Report * option error) → fs → Prop) :
  hoare good P m R → (∀ e s, R (Err e) s → Q (Ok (r, Some (wrap e))) s) →
  (∀ a, hoare good (R (Ok a)) (k a) Q) → hoare good P (check r m wrap k) Q.
Proof.
  intros Hm He Hk. unfold check. eapply hoare_bind with (R := λ x s, match x with Ok x => R x s | Err _ => False end).
  { by eapply hoare_try. }
  { done. }
  intros [a|e]; [apply Hk|]. apply hoare_ret. intros s Hs. by apply He.
Qed.
End Calls.
Lemma hoare_and {A} `{Kernel} (good : fs → Prop) (P1 P2 : fs → Prop) (m : M A) (Q1 Q2 : result A → fs → Prop) :
  hoare good P1 m Q1 → hoare (λ _, True) P2 m Q2 → hoare good (λ s, P1 s ∧ P2 s) m (λ r s, Q1 r s ∧ Q2 r s).
Proof. intros Hm1 Hm2 o [HP1 HP2]. destruct (Hm1 o HP1) as [? ?], (Hm2 o HP2) as [? _]. done. Qed.

Section Safety.
Context `{Formats, Kernel}.
Variables (l : linuxBackend) (run : runner) (root_owned : fs → str → result unit).
Variables (dir : str) (Abs : str → result str) (now : Z) (c : Certificate).
Notation l_protect := (linux_protect root_owned).
Notation l_checkTool := (RootOwned_call root_owned).
Notation add_ := (Linux_Add l run l_protect l_checkTool).
Notation remove_ := (Linux_Remove l run l_protect l_checkTool).
#[local] Instance the_backend : Backend := linux_backend l run l_protect l_checkTool now.

(** ** The three files of a certificate *)
Definition anchor_path : str := Target (Linux_Store l c).
Definition receipt_path : str := dir ++ "/" ++ SHA256 c ++ ".json".
Definition recovery_path : str := dir ++ "/" ++ SHA256 c ++ ".crt".
Definition ours (q : str) : Prop := q = receipt_path ∨ q = recovery_path.
Definition the_three (q : str) : Prop := ours q ∨ q = anchor_path.
Definition parsed (b : str) : result Certificate :=
  _ ← guard_err (1024 * 1024 <? Z.of_nat (length b)) (errors_New "CA certificate exceeds 1 MiB");
  Parse b.
Definition loaded (s : fs) (p : str) : result Certificate := b ← read_file s p; parsed b.
Definition is_receipt (s : fs) : Prop :=
  ∃ i rc, inode_at s receipt_path = Some i ∧ i_type i = FRegular ∧
    parse_receipt (i_data i) = Ok rc ∧ bad_receipt rc c = false.
Definition is_copy (s : fs) : Prop :=
  ∃ i st, inode_at s recovery_path = Some i ∧ i_type i = FRegular ∧
    parsed (i_data i) = Ok st ∧ SHA256 st = SHA256 c.
(** The receipt and the recovery certificate: [untrust] finds what it needs. *)
Definition managed (s : fs) : Prop := is_receipt s ∧ is_copy s.
(** A certificate in the directory of anchors has its receipt. *)
Definition accounted (s : fs) : Prop := is_Some (dents s !! anchor_path) → managed s.

Hypothesis alone : quiet.
Hypothesis real : honest.
(** The distribution's tool rebuilds its bundle; it leaves the three files alone. *)
Hypothesis tool_spares : ∀ input path args, spares the_three (run input path args).
(** The directories and the lock are other names. *)
Record apart : Prop := {
  ap_dir : ¬ the_three dir;
  ap_anchors : ¬ the_three (l_dir l);
  ap_lock : ¬ the_three (dir ++ "/trust.lock");
  ap_anchor : ¬ ours anchor_path;
  ap_ours : receipt_path ≠ recovery_path }.
Hypothesis paths : apart.

Lemma managed_same s s' : managed s → same_at ours s s' → managed s'.
Proof.
  intros [(i & rc & Hi & ?) (j & st & Hj & ?)] Hs. split.
  - exists i, rc. split; [|done]. by eapply same_at_inode; [exact Hs|by left|].
  - exists j, st. split; [|done]. by eapply same_at_inode; [exact Hs|by right|].
Qed.
Lemma accounted_same s s' : accounted s → same_at the_three s s' → accounted s'.
Proof.
  intros Ha Hs Hi. rewrite (proj1 (Hs anchor_path (or_intror eq_refl))) in Hi.
  eapply managed_same; [by apply Ha|]. eapply same_at_mono, Hs. by left.
Qed.
Lemma accounted_absent s : dents s !! anchor_path = None → accounted s.
Proof. intros Hn [n Hs]. congruence. Qed.

(** ** What the parts spare *)
Lemma spares_run X input path args : (∀ q, X q → the_three q) → spares X (run input path args).
Proof. intros HX. by eapply spares_mono, tool_spares. Qed.
Lemma spares_Load X p : spares X (Load p).
Proof. unfold Load. auto with spares. Qed.
Lemma spares_anchor X : spares X (anchor l c).
Proof.
  unfold anchor, fail. auto 10 using spares_Load with spares.
Qed.
Lemma spares_Inspect X : spares X (Linux_Inspect l now c).
Proof. unfold Linux_Inspect. auto 10 using spares_anchor with spares. Qed.
Lemma spares_check_tool X : spares X (check_tool l l_checkTool).
Proof. unfold check_tool, RootOwned_call, fail. auto 10 with spares. Qed.
Lemma spares_refresh X : (∀ q, X q → the_three q) → spares X (refresh l run l_checkTool).
Proof.
  intros HX. unfold refresh, fail. apply spares_bind; [apply spares_check_tool|intros []].
  apply spares_bind; [by apply spares_run|]. intros [? [e|]]; auto with spares.
Qed.
Lemma spares_protect X : ¬ X (l_dir l) → spares X (l_protect (l_dir l)).
Proof. intros HX. unfold linux_protect, RootOwned_call. auto with spares. Qed.
Lemma ours_three q : ours q → the_three q.
Proof. by left. Qed.
Lemma spares_Add snapshot : spares ours (add_ c snapshot).
Proof.
  pose proof (ap_anchor paths). pose proof (ap_anchors paths) as Hl.
  unfold Linux_Add. apply spares_bind; [apply spares_check_tool|intros []].
  apply spares_bind; [apply spares_protect; intros ?; by apply Hl, ours_three|intros []].
  apply spares_bind; [apply spares_anchor|intros present].
  apply spares_bind; [unfold write_anchor; auto with spares|intros []].
  apply spares_refresh, ours_three.
Qed.
Lemma spares_Remove_ca snapshot : spares ours (remove_ c snapshot).
Proof.
  pose proof (ap_anchor paths). pose proof (ap_anchors paths) as Hl.
  unfold Linux_Remove. apply spares_bind; [apply spares_protect; intros ?; by apply Hl, ours_three|intros []].
  apply spares_bind; [apply spares_anchor|intros present].
  apply spares_bind; [unfold delete_anchor; auto with spares|intros []].
  apply spares_refresh, ours_three.
Qed.

(** ** What the parts find *)
Section Parts.
Variable good : fs → Prop.
Section At.
Variable s1 : fs.
Hypothesis Hg : good s1.
Notation at_s1 := (λ s, s = s1).
Lemma hoare_Load_file p : hoare good at_s1 (Load p) (λ r s, s = s1 ∧ match r with Ok st => loaded s1 p = Ok st | Err _ => True end).
Proof.
  unfold Load. eapply hoare_bind; [by apply hoare_ReadFile|by intros e s [-> _]|]. intros b.
  apply hoare_pure_r. intros Hb. eapply hoare_bind_lift; [|by intros e s _ ->].
  intros [] Hl. apply hoare_lift. intros s ->. split; [done|]. unfold loaded, parsed. rewrite Hb. cbn [mbind result_bind].
  rewrite Hl. cbn [mbind result_bind]. by destruct (Parse b).
Qed.
Lemma hoare_readReceipt : hoare good at_s1 (readReceipt receipt_path c) (λ r s, s = s1 ∧ match r with
  | Ok None => dents s1 !! receipt_path = None
  | Ok (Some rc) => is_receipt s1 ∧ bad_receipt rc c = false
  | Err _ => True end).
Proof.
  unfold readReceipt.
  eapply hoare_bind with (R := λ x s, match x with Ok x => s = s1 ∧ match x with
    | Ok _ => ∃ i, inode_at s1 receipt_path = Some i ∧ i_type i = FRegular
    | Err e => errors_Is e ErrNotExist = true → dents s1 !! receipt_path = None end | Err _ => False end).
  { eapply hoare_try; [by apply hoare_Regular|done]. }
  { done. }
  intros [u|e]; apply hoare_pure_r; intros Hr.
  - destruct Hr as (i & Hi & Ht). eapply hoare_bind; [by apply hoare_ReadFile|by intros e s [-> _]|].
    intros b. apply hoare_pure_r. intros Hb. rewrite (read_file_regular _ _ _ Hi Ht) in Hb. injection Hb as <-.
    eapply hoare_bind_lift; [|by intros e s _ ->]. intros rc Hrc.
    eapply hoare_bind_lift; [|by intros e s _ ->]. intros [] Hbad%guard_Ok.
    apply hoare_ret. intros s ->. split; [done|]. split; [by exists i, rc|done].
  - destruct (errors_Is e ErrNotExist).
    + apply hoare_ret. intros s ->. auto.
    + apply hoare_lift. by intros s ->.
Qed.
Lemma hoare_anchor : hoare good at_s1 (anchor l c) (λ r s, s = s1 ∧ match r with
  | Ok b => dents s1 !! anchor_path = None ↔ b = false | Err _ => True end).
Proof.
  unfold anchor.
  eapply hoare_bind with (R := λ x s, match x with Ok x => s = s1 ∧ match x with
    | Ok _ => ∃ i, inode_at s1 anchor_path = Some i ∧ i_type i = FRegular
    | Err e => errors_Is e ErrNotExist = true → dents s1 !! anchor_path = None end | Err _ => False end).
  { eapply hoare_try; [by apply hoare_Regular|done]. }
  { done. }
  intros [u|e]; apply hoare_pure_r; intros Hr.
  - destruct Hr as (i & Hi & _). eapply hoare_bind; [apply hoare_Load_file|by intros e s [-> _]|].
    intros st. apply hoare_pure_r. intros _. eapply hoare_bind_lift; [|by intros e s _ ->]. intros [] _.
    apply hoare_ret. intros s ->. split; [done|]. split; [|done]. intros Hn. unfold inode_at in Hi. by rewrite Hn in Hi.
  - destruct (errors_Is e ErrNotExist).
    + apply hoare_ret. intros s ->. split; [done|]. by rewrite Hr.
    + apply hoare_lift. by intros s ->.
Qed.
Lemma hoare_Inspect : hoare good at_s1 (Linux_Inspect l now c) (λ r s, s = s1 ∧ match r with
  | Ok (st, None) => dents s1 !! anchor_path = None ↔ Installed st = false | _ => True end).
Proof.
  unfold Linux_Inspect.
  eapply hoare_bind with (R := λ x s, match x with Ok x => s = s1 ∧ match x with
    | Ok b => dents s1 !! anchor_path = None ↔ b = false | Err _ => True end | Err _ => False end).
  { eapply hoare_try; [apply hoare_anchor|done]. }
  { done. }
  intros [b|e]; apply hoare_pure_r; intros Hb; [|apply hoare_ret; by intros s ->].
  eapply hoare_bind with (R := λ x s, match x with Ok x => s = s1 | Err _ => False end).
  { eapply hoare_try; [by apply hoare_ReadFile|by intros r s [-> _]]. }
  { done. }
  intros [d|e]; [apply hoare_ret; by intros s ->|].
  destruct (errors_Is e ErrNotExist); apply hoare_ret; by intros s ->.
Qed.
End At.
End Parts.
(** After a successful removal the anchor is gone. *)
Lemma hoare_removed snapshot :
  hoare (λ _, True) (λ _, True) (remove_ c snapshot)
    (λ r s, match r with Ok _ => dents s !! anchor_path = None | Err _ => True end).
Proof.
  unfold Linux_Remove. eapply hoare_bind with (R := λ _ _, True); [|done|intros []].
  { intros o _. split; [done|]. intros Ht. by apply Forall_true. }
  eapply hoare_bind with (R := λ r s, match r with Ok false => dents s !! anchor_path = None | _ => True end); [|done|].
  { intros o _. destruct (hoare_anchor (λ _, True) (sys o) I o eq_refl) as [[Hs Hr] Ht]. split; [|done].
    rewrite Hs. destruct (anchor l c o).1 as [[]|]; [done| |done]. by apply Hr. }
  intros present. eapply hoare_bind with (R := λ r s, match r with Ok _ => dents s !! anchor_path = None | _ => True end); [|done|].
  { destruct present; cbn [delete_anchor]; [|by apply hoare_ret].
    apply hoare_syscall; [done| |done]. intros s _. split; [|done]. cbv beta.
    fold anchor_path. destruct (dents s !! anchor_path) eqn:E; cbn [fst snd]; [|done].
    simpl. by rewrite lookup_delete_eq. }
  intros []. eapply hoare_conseq; [apply (hoare_spares (λ q, q = anchor_path) _ (λ _, True) (λ s, dents s !! anchor_path = None))| |].
  - apply spares_refresh. by right.
  - intros s s' Hs Hsame. by rewrite (proj1 (Hsame _ eq_refl)).
  - done.
  - done.
  - by intros [] s Hs.
Qed.

(** ** What keeps the invariant *)
Notation absent := (λ s, dents s !! anchor_path = None).
Notation safe := (λ _, accounted).
Lemma kept_absent {A} (m : M A) : spares (λ q, q = anchor_path) m → hoare accounted absent m (λ _, absent).
Proof.
  intros Hm. eapply hoare_spares; [exact Hm| |exact accounted_absent].
  intros s s' Hs Hsame. by rewrite (proj1 (Hsame _ eq_refl)).
Qed.
Lemma kept_managed {A} (m : M A) : spares ours m → hoare accounted managed m (λ _, managed).
Proof. intros Hm. eapply hoare_spares; [exact Hm|exact managed_same|by intros s Hs _]. Qed.
Lemma kept_accounted {A} (m : M A) : spares the_three m → hoare accounted accounted m (λ _, accounted).
Proof. intros Hm. eapply hoare_spares; [exact Hm|exact accounted_same|done]. Qed.
Lemma managed_accounted s : managed s → accounted s.
Proof. by intros Hs _. Qed.
(** JSON gives back the receipts that are written. *)
Definition our_receipt (phase : str) : receipt := mkReceipt 1 (SHA256 c) (Linux_Store l c) phase.
Hypothesis json : ∀ phase, parse_receipt (receipt_json (our_receipt phase)) = Ok (our_receipt phase).
Lemma bad_with_phase rc p : bad_receipt rc c = false → with_phase rc p = our_receipt p.
Proof.
  unfold bad_receipt, with_phase, our_receipt. intros Hb. bools. by destruct rc; simpl in *; subst.
Qed.
Lemma our_receipt_good phase : phase = "pending" ∨ phase = "installed" → bad_receipt (our_receipt phase) c = false.
Proof.
  intros Hp. unfold bad_receipt, our_receipt. cbn [rc_version rc_sha rc_store rc_phase].
  rewrite (str_eqb_refl (SHA256 c)), bool_decide_true by done. by destruct Hp as [->| ->].
Qed.

Section Report.
Variable r : Report.
(** The paths [Execute] has put into the report. *)
Definition names_files (r : Report) : Prop := Receipt r = receipt_path ∧ RecoveryCertificate r = recovery_path.
Hypothesis Hr : names_files r.
Lemma removeReceipt_absent : hoare accounted absent (removeReceipt r) (λ _, absent).
Proof.
  destruct Hr as [E1 E2]. pose proof (ap_anchor paths) as Ha. apply kept_absent. unfold removeReceipt. rewrite E1, E2.
  apply spares_bind; [|intros []]; apply spares_Remove; try done; intros E; apply Ha; [by left|by right].
Qed.
Lemma hoare_Remove_ca :
  hoare accounted managed (remove_ c (RecoveryCertificate r))
    (λ x s, managed s ∧ match x with Ok _ => absent s | Err _ => True end).
Proof.
  eapply hoare_conseq; [eapply hoare_and; [apply kept_managed, spares_Remove_ca|apply hoare_removed]|done|done].
Qed.
Lemma Atomic_managed :
  hoare accounted managed (Atomic (Receipt r) (receipt_json (our_receipt "installed")) 384) safe.
Proof.
  destruct Hr as [E1 E2]. set (rc := our_receipt "installed").
  assert (bad_receipt rc c = false) as Hb by (apply our_receipt_good; by right). intros o Ho. destruct Ho as [(i & rc0 & Hi & Ht & Hp & Hb0) Hc].
  pose proof (ap_ours paths) as Hne. rewrite E1. unfold inode_at in Hi.
  destruct (dents (sys o) !! receipt_path) as [n0|] eqn:Hd; [|done]. cbn in Hi.
  set (X := λ q, q = recovery_path). assert (∀ s, replacing X (sys o) receipt_path (receipt_json rc) i s → accounted s) as Hg.
  { intros s [Hs (i' & Hi' & Hcase)] _. split.
    - destruct Hcase as [->|[Ht' Hd']]; [by exists i, rc0|]. exists i', rc. rewrite Hd'. split_and!; try done. apply json.
    - destruct Hc as (j & st & Hj & ?). exists j, st. split; [|done]. by eapply same_at_inode; [exact Hs|done|]. }
  destruct (hoare_Atomic_replacing alone X (sys o) receipt_path (receipt_json rc) n0 i Hne Hd Hi) with
    (good := accounted) (mode := 384) (o := o) as [HQ Htr]; [|exact Hg|done|].
  - intros q ->. destruct Hc as (j & st & Hj & _). unfold inode_at in Hj.
    destruct (dents (sys o) !! recovery_path); [by eexists|done].
  - split; [by apply Hg|done].
Qed.
End Report.
Lemma names_set_state r st : names_files r → names_files (set_state r st).
Proof. done. Qed.
Lemma names_set_managed r b : names_files r → names_files (set_managed r b).
Proof. done. Qed.

Lemma hoare_reinspect r :
  names_files r → hoare accounted managed (reinspect c r)
    (λ x s, managed s ∧ match x with Ok (r', _) => names_files r' | Err _ => True end).
Proof.
  intros Hr. unfold reinspect. eapply hoare_bind; [apply kept_managed, spares_Inspect|done|].
  intros [st e]. apply hoare_ret. done.
Qed.
Lemma hoare_add r :
  names_files r → hoare accounted managed (add c r)
    (λ x s, managed s ∧ match x with Ok (r', _) => names_files r' | Err _ => True end).
Proof.
  intros Hr. unfold add. eapply hoare_bind with (R := λ x s, match x with Ok _ => managed s | Err _ => False end).
  { eapply hoare_try; [apply kept_managed, spares_Add|done]. }
  { done. }
  intros [[]|e]; [by apply hoare_reinspect|by apply hoare_ret].
Qed.
Lemma hoare_rollback r e : names_files r → hoare accounted managed (rollback c r e) safe.
Proof.
  intros Hr. unfold rollback.
  eapply hoare_bind with (R := λ x s, match x with
    | Ok (Ok _) => absent s | Ok (Err _) => managed s | Err _ => False end).
  { eapply hoare_try; [by apply hoare_Remove_ca|]. by intros [[]|f] s [? ?]. }
  { done. }
  intros x. eapply hoare_bind with (R := safe); [|done|].
  { destruct x as [[]|f]; [|apply hoare_ret; apply managed_accounted].
    eapply hoare_bind with (R := λ y s, match y with Ok _ => absent s | Err _ => False end).
    { eapply hoare_try; [by apply removeReceipt_absent|done]. }
    { done. }
    intros [[]|f]; apply hoare_ret; apply accounted_absent. }
  intros [r' rb]. eapply hoare_bind; [apply kept_accounted, spares_Inspect|done|].
  intros [st [p|]]; by apply hoare_ret.
Qed.
Lemma hoare_install r rc :
  names_files r → bad_receipt rc c = false → hoare accounted managed (install c r rc) safe.
Proof.
  intros Hr Hb. unfold install.
  eapply hoare_bind; [by apply hoare_add|by intros e s [? _]; apply managed_accounted|].
  intros [r' e]. apply hoare_pure_r. intros Hr'. destruct e as [e|]; [by apply hoare_rollback|].
  rewrite (bad_with_phase rc _ Hb).
  eapply hoare_check; [by apply Atomic_managed|done|]. intros []. by apply hoare_ret.
Qed.

(** What a successful [Exclusive] has written. *)
Lemma hoare_Exclusive_file s1 p b mode :
  hoare (λ _, True) (λ s, s = s1) (Exclusive p b mode)
    (λ r s, match r with Ok _ => inode_at s p = Some (exclusive_file mode b) | Err _ => True end).
Proof.
  eapply (hoare_conseq _ _ (keeps no_files (ddents s1))).
  - by apply hoare_Exclusive.
  - intros s ->. by split.
  - intros [[]|e] s; [|done]. intros [fd Hm]. eapply (keeps_inode_at _ _ _ _ fd); [by apply md_keeps in Hm|].
    unfold with_file. by rewrite decide_True.
Qed.
(** The recovery certificate that is written can be loaded. *)
Hypothesis recoverable : ∃ st, parsed (PEM c) = Ok st ∧ SHA256 st = SHA256 c.
Lemma hoare_record s1 r k :
  dents s1 !! anchor_path = None → names_files r → RStore r = Linux_Store l c →
  (∀ rc, bad_receipt rc c = false → hoare accounted managed (k rc) safe) →
  hoare accounted (λ s, s = s1) (record c r k) safe.
Proof.
  intros Ha [E1 E2] Es Hk. unfold record. rewrite E1, E2.
  set (X := λ q, q = anchor_path ∨ q = recovery_path).
  pose proof (ap_anchor paths) as Hanch. pose proof (ap_ours paths) as Hne.
  eapply hoare_check with (R := λ x s, absent s ∧ match x with Ok _ => is_copy s | Err _ => True end).
  - eapply hoare_conseq; [eapply (hoare_and _ absent (λ s, s = s1)); [apply kept_absent, spares_Exclusive|apply hoare_Exclusive_file]| |].
    + done.
    + intros E. apply Hanch. by right.
    + by intros s ->.
    + intros [[]|e] s [? Hi]; [|done]. split; [done|]. destruct recoverable as (st & ? & ?). by eexists _, st.
  - intros e s [Hs _]. by apply accounted_absent.
  - intros []. rewrite Es. fold (our_receipt "pending"). set (rc := our_receipt "pending").
    assert (bad_receipt rc c = false) as Hb by (apply our_receipt_good; by left).
    assert (hoare accounted (λ s, absent s ∧ is_copy s) (Exclusive receipt_path (receipt_json rc) 384)
      (λ x s, match x with Ok _ => managed s | Err _ => absent s end)) as He.
    { eapply hoare_conseq; [eapply (hoare_and _ (λ s, absent s ∧ is_copy s) (λ _, True) _ (λ _ s, absent s ∧ is_copy s)
        (λ x s, match x with Ok _ => inode_at s receipt_path = Some (exclusive_file 384 (receipt_json rc)) | Err _ => True end))| |].
      - eapply (hoare_spares X); [apply spares_Exclusive| |].
        + done.
        + intros [E|E]; [apply Hanch; by left|done].
        + intros s s' [Hs (i & st & Hi' & Hrest)] Hsame.
          split; [by rewrite (proj1 (Hsame anchor_path (or_introl eq_refl)))|].
          exists i, st. split; [|done]. by eapply same_at_inode; [exact Hsame|by right|].
        + intros s [Hs _]. by apply accounted_absent.
      - intros o _. by apply (hoare_Exclusive_file (sys o)).
      - done.
      - intros [[]|e] s [[Hs Hc] Hi]; [|done]. split; [|done]. eexists _, rc. split; [exact Hi|].
        split; [done|]. split; [apply json|done]. }
    eapply hoare_bind with (R := λ x s, match x with
      | Ok (Ok _) => managed s | Ok (Err _) => absent s | Err _ => False end).
    { eapply hoare_try; [exact He|]. by intros [[]|e] s. }
    { done. }
    intros [[]|e]; [by apply Hk|].
    eapply hoare_bind with (R := λ _, absent); [|by intros ? s Hs; apply accounted_absent|
      intros []; apply hoare_ret; apply accounted_absent].
    apply kept_absent, spares_ignore, spares_Remove; [done|]. intros E. apply Hanch. by right.
Qed.

(** ** The whole, from a state that is accounted for *)
Section Whole.
Variable s1 : fs.
Hypothesis Hs1 : accounted s1.
Notation at_s1 := (λ s, s = s1).
Definition owned_ok (owned : option receipt) : Prop :=
  match owned with
  | Some rc => managed s1 ∧ bad_receipt rc c = false
  | None => dents s1 !! receipt_path = None
  end.
Lemma unowned_absent : dents s1 !! receipt_path = None → dents s1 !! anchor_path = None.
Proof.
  intros Hn. destruct (dents s1 !! anchor_path) eqn:E; [|done]. destruct Hs1 as [(i & ? & Hi & _) _]; [by eexists|].
  unfold inode_at in Hi. by rewrite Hn in Hi.
Qed.
Lemma stop_safe {A} (a : A) : hoare accounted at_s1 (mret a) safe.
Proof. apply hoare_ret. by intros s ->. Qed.
Lemma from_managed {A} (m : M A) Q : managed s1 → hoare accounted managed m Q → hoare accounted at_s1 m Q.
Proof. intros Hm Hh. eapply hoare_conseq; [exact Hh|by intros s ->|done]. Qed.
Lemma hoare_trust dry r owned :
  names_files r → RStore r = Linux_Store l c → owned_ok owned → hoare accounted at_s1 (trust dry c r owned) safe.
Proof.
  intros Hr Es Ho. unfold trust. destruct (Trusted (RState r)); [apply stop_safe|].
  destruct (_ && _); [apply stop_safe|]. destruct dry; [apply stop_safe|].
  destruct owned as [rc|].
  - destruct Ho as [Hm Hb]. by apply from_managed, hoare_install.
  - apply hoare_record; [by apply unowned_absent|done|done|]. intros rc Hb. by apply hoare_install.
Qed.
Lemma hoare_untrust dry r owned :
  names_files r → owned_ok owned → hoare accounted at_s1 (untrust dry c r owned) safe.
Proof.
  intros Hr Ho. unfold untrust. destruct owned as [rc|]; [|destruct (_ || _); apply stop_safe].
  destruct dry; [apply stop_safe|]. destruct Ho as [Hm _]. apply from_managed; [done|].
  eapply hoare_check; [by apply hoare_Remove_ca|intros e s [? _]; by apply managed_accounted|].
  intros []. apply (hoare_conseq _ _ absent _ safe); [|intros s [_ Hs]; exact Hs|done].
  eapply hoare_bind with (R := λ _, absent); [apply kept_absent, spares_Inspect|intros e; exact accounted_absent|].
  intros [st [e|]]; [apply hoare_ret, accounted_absent|]. cbv zeta.
  destruct (Installed st); [apply hoare_ret, accounted_absent|].
  eapply hoare_check with (R := λ _, absent); [by apply removeReceipt_absent|intros e; exact accounted_absent|].
  intros []. apply hoare_ret, accounted_absent.
Qed.
Lemma hoare_inspect (action : str) dry r owned :
  names_files r → RStore r = Linux_Store l c → owned_ok owned ∨ action = "trust-status" →
  hoare accounted at_s1 (inspect action dry c r owned) safe.
Proof.
  intros Hr Es Ho. unfold inspect. eapply hoare_bind; [by apply hoare_Inspect|by intros e s [-> _]|].
  intros [st [e|]]; apply hoare_pure_r; intros _; [apply stop_safe|]. unfold act.
  destruct (str_eqb_spec action "trust-status") as [_|Hne]; [apply stop_safe|]. destruct Ho as [Ho|E]; [|destruct (Hne E)].
  destruct (action == "trust"); [by apply hoare_trust|by apply hoare_untrust].
Qed.
Hypothesis plain : ∀ i, inode_at s1 recovery_path = Some i → i_type i = FRegular.
Lemma hoare_recovery (action : str) dry r owned :
  names_files r → RStore r = Linux_Store l c →
  (match owned with
   | Some rc => is_receipt s1 ∧ bad_receipt rc c = false
   | None => dents s1 !! receipt_path = None ∨ action = "trust-status" end) →
  hoare accounted at_s1 (recovery action dry c r owned) safe.
Proof.
  intros Hr Es Ho. unfold recovery. destruct owned as [rc|].
  - destruct Ho as [Hrc Hb]. eapply hoare_check; [by apply hoare_Load_file|by intros e s [-> _]|].
    intros st. apply hoare_pure_r. intros Hl.
    destruct (str_eqb_spec (SHA256 st) (SHA256 c)) as [E|]; [|apply stop_safe].
    apply hoare_inspect; [done|done|]. left. split; [|done]. split; [done|].
    unfold loaded in Hl. cbn [RecoveryCertificate set_managed] in Hl. rewrite (proj2 Hr) in Hl.
    apply bind_Ok in Hl as (b & Hf & Hp). unfold read_file in Hf. cbn [follow] in Hf.
    destruct (dents s1 !! recovery_path) as [n|] eqn:Hd; [|done].
    destruct (inodes s1 !! n) as [i|] eqn:Hi; [|done].
    assert (inode_at s1 recovery_path = Some i) as Hin by (unfold inode_at; by rewrite Hd).
    rewrite (plain i Hin) in Hf. exists i, st. split; [done|]. split; [by apply plain|].
    rewrite (plain i Hin), bool_decide_false in Hf by done. by injection Hf as ->.
  - apply hoare_inspect; [done|done|]. destruct Ho; [by left|by right].
Qed.
Lemma hoare_manage (action : str) dry r :
  names_files r → RStore r = Linux_Store l c → hoare accounted at_s1 (manage action dry c r) safe.
Proof.
  intros Hr Es. unfold manage. rewrite (proj1 Hr).
  eapply hoare_bind with (R := λ x s, match x with Ok x => s = s1 ∧ match x with
    | Ok None => dents s1 !! receipt_path = None
    | Ok (Some rc) => is_receipt s1 ∧ bad_receipt rc c = false
    | Err _ => True end | Err _ => False end).
  { eapply hoare_try; [by apply hoare_readReceipt|done]. }
  { done. }
  intros [owned|e]; apply hoare_pure_r; intros Ho.
  - apply hoare_recovery; [done|done|]. destruct owned; [done|by left].
  - destruct (str_eqb_spec action "trust-status") as [E|]; [|apply stop_safe].
    destruct (errors_Is e ErrPermission); [|apply stop_safe]. apply hoare_recovery; [done|done|by right].
Qed.
End Whole.

(** *** A certificate that is there without a receipt *)
Lemma hoare_manage_foreign (good : fs → Prop) s1 (action : str) dry r :
  good s1 → Receipt r = receipt_path → dents s1 !! receipt_path = None → is_Some (dents s1 !! anchor_path) →
  hoare good (λ s, s = s1) (manage action dry c r) (λ _ s, s = s1).
Proof.
  intros Hg Hr Hn Ha. unfold manage. rewrite Hr.
  assert (∀ r, hoare good (λ s, s = s1) (recovery action dry c r None) (λ _ s, s = s1)) as Hrec.
  { clear r Hr. intros r. unfold recovery, inspect.
    eapply hoare_bind; [by apply hoare_Inspect|by intros e s [-> _]|].
    intros [st [e|]]; apply hoare_pure_r; intros Hi; [by apply hoare_ret|].
    assert (Installed st = true) as Hst.
    { destruct (Installed st); [done|]. destruct Ha as [n Ha]. rewrite (proj2 Hi eq_refl) in Ha. done. }
    unfold act, trust, untrust. cbn [RState set_state]. rewrite Hst. cbn [negb andb orb].
    rewrite !(bool_decide_false (is_Some (@None receipt))) by (by intros [? ?]). cbn [negb].
    destruct (action == "trust-status"); [by apply hoare_ret|]. destruct (action == "trust"); [|by apply hoare_ret].
    by destruct (Trusted st); apply hoare_ret. }
  eapply hoare_bind with (R := λ x s, match x with Ok x => s = s1 ∧ match x with
    | Ok None => True | Ok (Some rc) => is_receipt s1 | Err _ => True end | Err _ => False end).
  { eapply hoare_try; [by apply hoare_readReceipt|]. by intros [[rc|]|e] s [-> Hx]; (split; [done|]); [apply Hx|..]. }
  { done. }
  intros [[rc|]|e]; apply hoare_pure_r; intros Ho; [|apply Hrec|].
  - destruct Ho as (i & _ & Hi & _). unfold inode_at in Hi. by rewrite Hn in Hi.
  - destruct (_ && _); [apply Hrec|by apply hoare_ret].
Qed.

(** *** [Execute] *)
Definition plain (s : fs) : Prop :=
  ∀ n, dents s !! recovery_path = Some n → ∃ i, inodes s !! n = Some i ∧ i_type i = FRegular.
Lemma plain_regular s i : plain s → inode_at s recovery_path = Some i → i_type i = FRegular.
Proof.
  unfold inode_at. intros Hp Hi. destruct (dents s !! recovery_path) as [n|] eqn:E; [|done].
  destruct (Hp n E) as (j & Hj & Ht). cbn in Hi. congruence.
Qed.
Lemma plain_same s s' : plain s → same_at the_three s s' → plain s'.
Proof.
  intros Hp Hs n Hn. destruct (Hs recovery_path) as [Hd Hi]; [left; by right|]. rewrite Hd in Hn.
  destruct (Hp n Hn) as (i & Hin & Ht). exists i. split; [by apply Hi|done].
Qed.
Section Execute.
Variable X : str → Prop.
Hypotheses (X_dir : ¬ X dir) (X_lock : ¬ X (dir ++ "/trust.lock")).
Variables good I : fs → Prop.
Variable Q : result (Report * option error) → fs → Prop.
Hypothesis I_same : ∀ s s', I s → same_at X s s' → I s'.
Hypothesis I_good : ∀ s, I s → good s.
Hypothesis stopped : ∀ r e s, I s → Q (Ok (r, Some e)) s.
Hypothesis Q_same : ∀ x s s', Q x s → same_at X s s' → Q x s'.
Hypothesis Q_good : ∀ x s, Q x s → good s.
Variables (action : str) (dry : bool).
Hypothesis managing : ∀ s1 r, I s1 → names_files r → RStore r = Linux_Store l c →
  hoare good (λ s, s = s1) (manage action dry c r) Q.
Lemma hoare_Execute s0 path :
  I s0 → loaded s0 path = Ok c →
  hoare good (λ s, s = s0) (Execute dir (manager_protect root_owned) Abs now action path dry) Q.
Proof.
  intros H0' Hl. unfold Execute. destruct (negb _); [apply hoare_ret; intros s ->; auto|].
  eapply hoare_check; [by apply hoare_Load_file; auto|intros e s [-> _]; auto|]. intros c'.
  apply hoare_pure_r. rewrite Hl. intros [= <-].
  destruct (Abs path) as [abs|e]; [|apply hoare_ret; intros s ->; auto]. cbv zeta.
  set (r := about _ _ _ _ _ _). assert (names_files r) as Hr by done. assert (RStore r = Linux_Store l c) as Es by done.
  clearbody r. destruct (_ && negb (validNow now c)); [apply hoare_ret; intros s ->; auto|].
  destruct (_ && negb dry); [|by apply managing].
  destruct (negb (euid =? 0)); [apply hoare_ret; intros s ->; auto|].
  assert (∀ A (m : M A), spares X m → hoare good I m (λ _, I)) as Hsp.
  { intros A m Hm. eapply hoare_spares; [exact Hm|exact I_same|exact I_good]. }
  apply (hoare_conseq _ _ I _ Q); [|by intros s ->|done].
  eapply hoare_check; [apply Hsp; unfold manager_protect, RootOwned_call; auto with spares|intros e s Hs; by apply stopped|].
  intros []. eapply hoare_check with (R := λ x s, I s ∧ match x with Ok u => spares X u | Err _ => True end).
  { intros o Ho. destruct (Hsp _ _ (spares_Lock alone X _ X_lock) o Ho) as [HI Ht]. split; [|exact Ht]. split; [done|].
    destruct (Lock (dir ++ "/trust.lock") o).1 as [u|] eqn:E; [|done]. by eapply Lock_unlock. }
  { intros e s [Hs _]. by apply stopped. }
  intros u. apply hoare_pure_r. intros Hu. eapply hoare_finally with (R := Q).
  - intros o Ho. by apply (managing (sys o) r Ho Hr Es o).
  - intros x. eapply hoare_spares; [exact Hu|apply Q_same|apply Q_good].
Qed.
End Execute.


(** The file that blocks: [record] cannot make the recovery certificate anew. *)
Lemma record_blocked (good : fs → Prop) s1 r k :
  good s1 → is_Some (dents s1 !! recovery_path) → RecoveryCertificate r = recovery_path →
  hoare good (λ s, s = s1) (record c r k) (λ x s, s = s1 ∧ ∃ e, x = Ok (r, Some e)).
Proof.
  intros Hg [n Hn] Er. unfold record. rewrite Er.
  eapply hoare_check with (R := λ x s, s = s1 ∧ match x with Ok _ => False | Err _ => True end).
  - unfold Exclusive. eapply hoare_bind with (R := λ x s, s = s1 ∧ match x with Ok _ => False | Err _ => True end).
    + apply hoare_syscall; [done|..]; [|by intros s k' e ->]. intros s ->. cbv beta zeta. by rewrite Hn.
    + done.
    + intros fd. by apply hoare_pure_r.
  - intros e s [-> _]. split; [done|]. by eexists.
  - intros []. by apply hoare_pure_r.
Qed.
Lemma hoare_Inspect_absent (good : fs → Prop) s1 :
  good s1 → dents s1 !! anchor_path = None → containsCertificate [] (SHA256 c) = false →
  (∀ b, read_file s1 (l_bundle l) = Ok b → containsCertificate b (SHA256 c) = false) →
  hoare good (λ s, s = s1) (Linux_Inspect l now c) (λ x s, s = s1 ∧ match x with
    | Ok (st, None) => Installed st = false ∧ Trusted st = false
    | Ok (_, Some _) => True
    | Err _ => False end).
Proof.
  intros Hg Ha Hnil Hb. unfold Linux_Inspect.
  eapply hoare_bind with (R := λ x s, match x with Ok x => s = s1 ∧ match x with
    | Ok b => b = false | Err _ => True end | Err _ => False end).
  { eapply hoare_try; [by apply hoare_anchor|]. by intros [b|e] s [-> Hx]; [split; [|apply Hx]|]. }
  { done. }
  intros [b|e]; apply hoare_pure_r; intros Hp; [subst b|by apply hoare_ret].
  eapply hoare_bind with (R := λ x s, match x with Ok x => s = s1 ∧ match x with
    | Ok b => read_file s1 (l_bundle l) = Ok b | Err _ => True end | Err _ => False end).
  { eapply hoare_try; [by apply hoare_ReadFile|done]. }
  { done. }
  intros [d|e]; apply hoare_pure_r; intros Hd.
  - apply hoare_ret. intros s ->. split; [done|]. cbn [Installed Trusted]. by rewrite (Hb d Hd), andb_false_r.
  - destruct (errors_Is e ErrNotExist); apply hoare_ret; [|done]. intros s ->. split; [done|].
    cbn [Installed Trusted]. by rewrite Hnil, andb_false_r.
Qed.
Lemma hoare_manage_blocked (good : fs → Prop) s1 r :
  good s1 → names_files r → dents s1 !! receipt_path = None → is_Some (dents s1 !! recovery_path) →
  dents s1 !! anchor_path = None → containsCertificate [] (SHA256 c) = false →
  (∀ b, read_file s1 (l_bundle l) = Ok b → containsCertificate b (SHA256 c) = false) →
  hoare good (λ s, s = s1) (manage "trust" false c r) (λ x s, s = s1 ∧ ∃ r e, x = Ok (r, Some e)).
Proof.
  intros Hg [E1 E2] Hn Hk Ha Hnil Hb. unfold manage. rewrite E1.
  assert (∀ r e, hoare good (λ s, s = s1) (stop r e) (λ x s, s = s1 ∧ ∃ r e, x = Ok (r, Some e))) as Hstop.
  { intros r' e. apply hoare_ret. intros s ->. split; [done|by eexists _, _]. }
  eapply hoare_bind with (R := λ x s, match x with Ok x => s = s1 ∧ match x with
    | Ok (Some _) => False | _ => True end | Err _ => False end).
  { eapply hoare_try; [by apply hoare_readReceipt|]. intros [[rc|]|e] s [-> Hx]; (split; [done|]); [|done..].
    destruct Hx as [(i & _ & Hi & _) _]. unfold inode_at in Hi. by rewrite Hn in Hi. }
  { done. }
  intros [[rc|]|e]; apply hoare_pure_r; intros Ho; [done| |].
  - unfold recovery, inspect. eapply hoare_bind.
    { by apply hoare_Inspect_absent. }
    { by intros e s [_ ?]. }
    intros [st [e|]]; apply hoare_pure_r; intros Hst; [apply Hstop|].
    unfold act. change (("trust" : str) == "trust-status") with false. change (("trust" : str) == "trust") with true.
    unfold trust. cbn [RState set_state]. destruct Hst as [-> ->]. cbn [andb].
    eapply hoare_conseq; [by apply record_blocked|done|]. intros x s [-> [e ->]]. split; [done|by eexists _, _].
  - change (("trust" : str) == "trust-status") with false. apply Hstop.
Qed.
(** A recovery certificate without a receipt blocks the program for good. That is what
    is left when [trust] stops between its two files, or when the second removal of
    [removeReceipt] fails. From then on, while the CA is neither in place nor trusted, every
    [trust] fails, and it leaves the file where it is. *)
Theorem orphan_recovery_blocks_trust path bundle o x o' :
  loaded (sys o) path = Ok c →
  dents (sys o) !! receipt_path = None → is_Some (dents (sys o) !! recovery_path) → dents (sys o) !! anchor_path = None →
  inode_at (sys o) (l_bundle l) = Some bundle → i_type bundle = FRegular →
  containsCertificate (i_data bundle) (SHA256 c) = false → containsCertificate [] (SHA256 c) = false →
  l_bundle l ≠ dir → l_bundle l ≠ dir ++ "/trust.lock" →
  Execute dir (manager_protect root_owned) Abs now "trust" path false o = (x, o') →
  (∃ r e, x = Ok (r, Some e)) ∧ same_at the_three (sys o) (sys o').
Proof.
  intros Hl Hn Hk Ha Hbi Hbt Hb Hnil Hbd Hbl E. set (X := λ q, the_three q ∨ q = l_bundle l).
  set (I := same_at X (sys o)).
  set (Q := λ (x : result (Report * option error)) s, I s ∧ ∃ r e, x = Ok (r, Some e)).
  assert (∀ s s', I s → same_at X s s' → I s') as HI
    by (intros s s' Hs Hs'; exact (same_at_trans _ _ _ _ Hs Hs')).
  destruct (hoare_Execute X) with (good := I) (I := I) (Q := Q) (s0 := sys o) (path := path)
    (action := ("trust" : str)) (dry := false) (o := o) as [HQ _]; try done.
  - intros [Hx|Hx]; [by apply (ap_dir paths)|done].
  - intros [Hx|Hx]; [by apply (ap_lock paths)|done].
  - intros r e s Hs. split; [done|by eexists _, _].
  - intros y s s' [Hs Hy] Hs'. split; [by eapply HI|done].
  - by intros y s [Hs _].
  - intros s1 r Hs1 [E1 E2] Es.
    rewrite <- (proj1 (Hs1 receipt_path (or_introl (or_introl (or_introl eq_refl))))) in Hn.
    rewrite <- (proj1 (Hs1 recovery_path (or_introl (or_introl (or_intror eq_refl))))) in Hk.
    rewrite <- (proj1 (Hs1 anchor_path (or_introl (or_intror eq_refl)))) in Ha.
    apply (same_at_inode _ _ _ _ _ Hs1 (or_intror eq_refl)) in Hbi.
    eapply (hoare_conseq _ _ _ _ (λ y s, s = s1 ∧ ∃ r e, y = Ok (r, Some e))).
    + apply hoare_manage_blocked; try done. intros b Hrb. rewrite (read_file_regular _ _ _ Hbi Hbt) in Hrb.
      by injection Hrb as <-.
    + done.
    + by intros y s [-> Hy].
  - rewrite E in HQ. destruct HQ as [Hs Hx]. split; [done|]. eapply same_at_mono, Hs. by left.
Qed.
End Safety.

(** ** Any backend: dry runs, and what a success means *)
Definition reads_only {A} (m : M A) : Prop := ∀ o, sys (m o).2 = sys o.
Definition yields {A} (m : M A) (Φ : A → Prop) : Prop := ∀ o, match (m o).1 with Ok a => Φ a | Err _ => True end.
Section Monad.
Context `{Kernel}.
Lemma ro_pure {A} (r : result A) : reads_only (lift r).
Proof. by intros o. Qed.
Lemma ro_ret {A} (a : A) : reads_only (mret a : M A).
Proof. by intros o. Qed.
Lemma ro_bind {A B} (m : M A) (f : A → M B) : reads_only m → (∀ a, reads_only (f a)) → reads_only (m ≫= f).
Proof.
  intros Hm Hf o. specialize (Hm o). unfold mbind, M_bind. destruct (m o) as [[a|e] o']; [|done].
  by rewrite (Hf a o').
Qed.
Lemma ro_try {A} (m : M A) : reads_only m → reads_only (try m).
Proof. intros Hm o. specialize (Hm o). unfold try. by destruct (m o). Qed.
Lemma ro_query {A} (f : fs → result A) : quiet → reads_only (query f).
Proof. intros alone o. unfold query, syscall. rewrite alone. by destruct (fault (calls o)). Qed.
Lemma ro_check {A} r (m : M A) wrap k : reads_only m → (∀ a, reads_only (k a)) → reads_only (check r m wrap k).
Proof. intros Hm Hk. apply ro_bind; [by apply ro_try|]. intros [a|e]; [apply Hk|apply ro_ret]. Qed.
Lemma y_ret {A} (a : A) (Φ : A → Prop) : Φ a → yields (mret a) Φ.
Proof. by intros Ha o. Qed.
Lemma y_bind {A B} (m : M A) (f : A → M B) Φ : (∀ a, yields (f a) Φ) → yields (m ≫= f) Φ.
Proof. intros Hf o. unfold mbind, M_bind. destruct (m o) as [[a|e] o']; [apply Hf|done]. Qed.
Lemma y_finally {A} (m : M A) d Φ : yields m Φ → yields (finally m d) Φ.
Proof. intros Hm o. specialize (Hm o). unfold finally. by destruct (m o). Qed.
Lemma y_check {A} r (m : M A) wrap k Φ :
  (∀ e, Φ (r, Some e)) → (∀ a, yields (k a) Φ) → yields (check r m wrap k) Φ.
Proof. intros He Hk. apply y_bind. intros [a|e]; [apply Hk|by apply y_ret]. Qed.
End Monad.
Create HintDb reading discriminated.
#[export] Hint Resolve ro_pure ro_ret ro_try ro_query ro_check : reading.
#[export] Hint Extern 2 (reads_only (mbind _ _)) => apply ro_bind; [|intros] : reading.
#[export] Hint Extern 2 (reads_only (match ?x with _ => _ end)) => destruct x : reading.

Section Any.
Context `{Formats, Kernel, !Backend}.
Variables (dir : str) (protect : str → M unit) (Abs : str → result str) (now : Z).
Lemma ro_Load p : quiet → reads_only (Load p).
Proof. intros alone. unfold Load, ReadFile. auto 10 with reading. Qed.
Lemma ro_readReceipt p c : quiet → reads_only (readReceipt p c).
Proof. intros alone. unfold readReceipt, Regular, Lstat, ReadFile, fail. auto 20 with reading. Qed.
Lemma ro_act (action : str) dry c r owned :
  dry = true ∨ action = "trust-status" → reads_only (act action dry c r owned).
Proof.
  intros Hd. unfold act. destruct (str_eqb_spec action "trust-status") as [_|Hne]; [apply ro_ret|].
  destruct Hd as [->|E]; [|destruct (Hne E)]. unfold trust, untrust, stop. destruct owned; auto 10 with reading.
Qed.

(** Asking changes nothing: a status query, and a dry run of any action, leave the file
    system exactly as it was, whatever they find and whichever of their calls fail. *)
Theorem asking_changes_nothing (action : str) path dry o :
  quiet → (∀ c, reads_only (Inspect c)) → dry = true ∨ action = "trust-status" →
  sys (Execute dir protect Abs now action path dry o).2 = sys o.
Proof.
  intros alone Hi Hd. revert o. change (reads_only (Execute dir protect Abs now action path dry)).
  unfold Execute. destruct (negb _); [apply ro_ret|]. apply ro_check; [by apply ro_Load|]. intros c.
  destruct (Abs path) as [abs|e]; [|apply ro_ret]. cbv zeta. destruct (_ && negb (validNow now c)); [apply ro_ret|].
  replace ((action != "trust-status") && negb dry) with false.
  2:{ destruct Hd as [->| ->]; [by rewrite andb_false_r|]. by rewrite (str_eqb_refl "trust-status"). }
  assert (∀ r owned, reads_only (recovery action dry c r owned)) as Hr.
  { intros r owned. assert (∀ r owned, reads_only (inspect action dry c r owned)) as Hin.
    { intros r' owned'. unfold inspect. apply ro_bind; [apply Hi|]. intros [st [e|]]; [apply ro_ret|by apply ro_act]. }
    unfold recovery. destruct owned; [|apply Hin]. apply ro_check; [by apply ro_Load|]. intros st.
    destruct (_ != _); [apply ro_ret|apply Hin]. }
  unfold manage. apply ro_bind; [by apply ro_try, ro_readReceipt|].
  intros [owned|e]; [apply Hr|]. destruct (_ && _); [apply Hr|apply ro_ret].
Qed.

(** What a report without an error says. *)
Definition is_trusted (r : Report) : Prop := Trusted (RState r) = true.
Definition is_gone (r : Report) : Prop := Installed (RState r) = false ∧ Managed r = false.
Definition outcome_ok (action : str) (dry : bool) (x : Report * option error) : Prop :=
  x.2 = None →
  (action = "trust-status" → Trusted (RState x.1) = true) ∧
  (action = "trust" → dry = false → Trusted (RState x.1) = true) ∧
  (action = "untrust" → dry = false → Installed (RState x.1) = false ∧ Managed x.1 = false).
Lemma outcome_err action dry r e : outcome_ok action dry (r, Some e).
Proof. by intros ?. Qed.
Lemma y_stop action dry r e : yields (stop r e) (outcome_ok action dry).
Proof. apply y_ret, outcome_err. Qed.
Lemma y_add c r : yields (add c r) (λ x, x.2 = None → Trusted (RState x.1) = true).
Proof.
  unfold add. apply y_bind. intros [[]|e]; [|by apply y_ret]. unfold reinspect. apply y_bind. intros [st e].
  apply y_ret. cbn [fst snd RState set_state]. destruct e; [done|]. by destruct (Trusted st).
Qed.
Lemma y_bind_post {A B} (m : M A) (f : A → M B) Ψ Φ :
  yields m Ψ → (∀ a, Ψ a → yields (f a) Φ) → yields (m ≫= f) Φ.
Proof.
  intros Hm Hf o. specialize (Hm o). unfold mbind, M_bind. destruct (m o) as [[a|e] o']; [|done].
  by apply Hf.
Qed.
Lemma y_rollback action dry c r e : yields (rollback c r e) (outcome_ok action dry).
Proof.
  unfold rollback. apply y_bind. intros x. apply y_bind. intros [r' rb]. apply y_bind. intros [st [p|]]; apply y_stop.
Qed.
Lemma y_install c r rc : yields (install c r rc) (outcome_ok "trust" false).
Proof.
  unfold install. eapply y_bind_post; [apply y_add|]. intros [r' [e|]] Ht; [apply y_rollback|].
  apply y_check; [apply outcome_err|]. intros []. apply y_ret. intros _. cbn [fst snd RState set_message].
  specialize (Ht eq_refl). cbn [fst] in Ht. by split_and!.
Qed.
Lemma y_trust dry c r owned : yields (trust dry c r owned) (outcome_ok "trust" dry).
Proof.
  unfold trust. destruct (Trusted (RState r)) eqn:Ht; [apply y_ret; intros _; by split_and!|].
  destruct (_ && _); [apply y_stop|]. destruct dry; [apply y_ret; intros _; by split_and!|].
  destruct owned; [apply y_install|]. unfold record. apply y_check; [apply outcome_err|]. intros [].
  apply y_bind. intros [[]|e]; [apply y_install|]. apply y_bind. intros []. apply y_stop.
Qed.
Lemma y_untrust dry c r owned :
  Managed r = bool_decide (is_Some owned) → yields (untrust dry c r owned) (outcome_ok "untrust" dry).
Proof.
  intros Hm. unfold untrust. destruct owned as [rc|].
  - destruct dry; [apply y_ret; intros _; by split_and!|]. apply y_check; [apply outcome_err|]. intros [].
    apply y_bind. intros [st [e|]]; [apply y_stop|]. cbv zeta. destruct (Installed st) eqn:Hs; [apply y_stop|].
    apply y_check; [apply outcome_err|]. intros []. apply y_ret. intros _. by split_and!.
  - destruct (Installed (RState r)) eqn:Hs; [apply y_stop|]. cbn [orb]. destruct (Trusted (RState r)); [apply y_stop|].
    apply y_ret. intros _. by split_and!.
Qed.
Lemma y_recovery (action : str) dry c r owned :
  str_mem action ["trust" : str; "untrust" : str; "trust-status" : str] = true →
  yields (recovery action dry c r owned) (outcome_ok action dry).
Proof.
  intros Ha. assert (∀ r', Managed r' = bool_decide (is_Some owned) → yields (inspect action dry c r' owned) (outcome_ok action dry)) as Hin.
  { intros r' Hm. unfold inspect. apply y_bind. intros [st [e|]]; [apply y_stop|]. unfold act.
    destruct (str_eqb_spec action "trust-status") as [->|Hn1].
    { apply y_ret. intros E. cbn [snd fst RState set_message set_state] in *. by destruct (Trusted st). }
    destruct (str_eqb_spec action "trust") as [->|Hn2]; [apply y_trust|].
    apply str_mem_elem in Ha. rewrite !elem_of_cons in Ha.
    destruct Ha as [?|[->|[?|?%not_elem_of_nil]]]; [done| |done..]. by apply y_untrust. }
  unfold recovery. destruct owned; [|by apply Hin]. apply y_check; [apply outcome_err|]. intros st.
  destruct (_ != _); [apply y_stop|by apply Hin].
Qed.

End Any.
Lemma ro_Linux_Inspect `{Formats, Kernel} l now c : quiet → reads_only (Linux_Inspect l now c).
Proof.
  intros alone. unfold Linux_Inspect, anchor, Regular, Lstat, Load, ReadFile, fail. auto 30 with reading.
Qed.

(** ** Witnesses

    A Debian machine on which the CA's certificate is in [/ca.crt]; the tool copies it into
    the bundle. *)
Definition demo_der : str := "ca".
Definition demo_linux : linuxBackend := default (mkLinux [] [] [] [] []) (linux_id "debian").
Definition demo_store : StoreT :=
  mkStore "debian-ca-certificates" "/usr/local/share/ca-certificates/utlsproxy-5a.crt"
    "system CA trust (not restricted to SSL)".
#[local] Instance demo_formats : Formats := {|
  pem_decode b := match strip_prefix begin_certificate b with Some r => Some ("CERTIFICATE" : str, r, []) | None => None end;
  pem_encode d := begin_certificate ++ d;
  parse_der d := if d == demo_der then Ok CA.demo_ca else Err CA.not_valid;
  self_signed _ := true;
  der_of _ := demo_der;
  subject_of _ := "CN=demo";
  sha256_hex _ := "5a";
  receipt_json := rc_phase;
  parse_receipt b := Ok (mkReceipt 1 "5a" demo_store b) |}.
Definition demo_pem : str := begin_certificate ++ demo_der.
Definition demo_cert : Certificate := mkCertificate CA.demo_ca demo_pem "5a".
Definition demo_dir : str := "/etc/utlsproxy/trust".
Definition demo_machine (more : gmap str Z) : fs :=
  mkFs (<["/ca.crt" : str := 1]> more) ∅
    {[1 := mkInode FRegular 420 0 0 demo_pem true []; 2 := mkInode FRegular 420 0 0 [] true []]} ∅.
#[local] Existing Instance no_faults.
Definition demo_tool : runner := λ _ _ _, _ ← ignore (Exclusive (l_bundle demo_linux) demo_pem 420); mret ([], None).
Definition no_check : fs → str → result unit := λ _ _, Ok tt.
Definition demo_execute (action : str) (dry : bool) (s : fs) : result (Report * option error) * os :=
  @Execute demo_formats no_faults
    (@linux_backend demo_formats no_faults demo_linux demo_tool (@linux_protect no_faults no_check)
       (@RootOwned_call no_faults no_check) (2 * Hour))
    demo_dir (@manager_protect no_faults no_check) Ok (2 * Hour) action "/ca.crt" dry (mkOs s 0 []).
Lemma demo_quiet : @quiet no_faults.
Proof. by intros k s. Qed.
Lemma demo_honest : @honest no_faults.
Proof. by intros n e. Qed.
Lemma demo_spares input path args :
  spares (the_three demo_linux demo_dir demo_cert) (demo_tool input path args).
Proof.
  apply spares_bind; [|intros []; apply spares_ret]. apply spares_ignore, spares_Exclusive; [exact demo_quiet|].
  intros [[E|E]|E]; vm_compute in E; discriminate E.
Qed.
Lemma demo_apart : apart demo_linux demo_dir demo_cert.
Proof.
  split; [intros [[E|E]|E]..| |intros E]; try (vm_compute in E; discriminate E).
  intros [E|E]; vm_compute in E; discriminate E.
Qed.
Lemma demo_json phase : parse_receipt (receipt_json (our_receipt demo_linux demo_cert phase))
                        = Ok (our_receipt demo_linux demo_cert phase).
Proof. reflexivity. Qed.
Lemma demo_recoverable : ∃ st, parsed (PEM demo_cert) = Ok st ∧ SHA256 st = SHA256 demo_cert.
Proof. exists demo_cert. vm_compute. split; reflexivity. Qed.
Lemma demo_plain more : more !! (recovery_path demo_dir demo_cert) = None → plain demo_dir demo_cert (demo_machine more).
Proof.
  intros Hm n Hn. unfold demo_machine in Hn. cbn [dents] in Hn. rewrite lookup_insert_ne in Hn; [congruence|].
  intros E. vm_compute in E. discriminate E.
Qed.
Definition demo_trust : result (Report * option error) * os := demo_execute "trust" false (demo_machine ∅).
Definition demo_orphan : gmap str Z := {[recovery_path demo_dir demo_cert := 1; l_bundle demo_linux := 2]}.
Definition demo_blocked : result (Report * option error) * os := demo_execute "trust" false (demo_machine demo_orphan).
Lemma orphan_recovery_blocks_trust_witness :
  (∃ r e, demo_blocked.1 = Ok (r, Some e)) ∧ is_Some (dents (sys demo_blocked.2) !! recovery_path demo_dir demo_cert).
Proof.
  destruct (@orphan_recovery_blocks_trust demo_formats no_faults demo_linux demo_tool no_check demo_dir Ok (2 * Hour)
    demo_cert demo_quiet demo_honest demo_apart "/ca.crt" (mkInode FRegular 420 0 0 [] true [])
    (mkOs (demo_machine demo_orphan) 0 []) demo_blocked.1 demo_blocked.2) as [Hx Hs];
    try exact (surjective_pairing demo_blocked); try (vm_compute; reflexivity); try (intros E; vm_compute in E; discriminate E).
  - eexists. vm_compute. reflexivity.
  - split; [exact Hx|]. destruct (Hs (recovery_path demo_dir demo_cert)) as [E _]; [left; right; reflexivity|].
    rewrite E. eexists. vm_compute. reflexivity.
Defined.
Lemma asking_changes_nothing_witness : sys (demo_execute "trust" true (demo_machine ∅)).2 = demo_machine ∅.
Proof.
  refine (@asking_changes_nothing demo_formats no_faults _ demo_dir _ Ok (2 * Hour) "trust" "/ca.crt" true
    (mkOs (demo_machine ∅) 0 []) demo_quiet _ (or_introl eq_refl)).
  intros c. apply ro_Linux_Inspect. exact demo_quiet.
Defined.
