(* ===== verification/Service.v ===== *)
(** * Service: the native system service (src/internal/service/service.go)

    The generated definitions, and the installation and removal of the service as programs
    over the file system of Fsutil, with the rollback of a failed installation. The service
    manager and the daemon that answers on the control socket are arguments. *)
From S2P Require Import Prelude Strs Config Fsutil.

Definition Label : str := "local.utlsproxy".
Record Plan := mkPlan {
  pl_Executable : str; pl_DefinitionPath : str; pl_Configuration : str; pl_Definition : str; pl_Log : str }.
Record Manifest := mkManifest {
  m_Version : Z; m_Executable : str; m_ExecutableSHA : str; m_DefinitionPath : str; m_DefinitionSHA : str;
  m_Config : str; m_Socket : str }.
#[global] Instance Manifest_eq_dec : EqDecision Manifest.
Proof. solve_decision. Defined.

(** ** Text of the definitions *)
Definition percent : byte := chr 37.
Definition dollar : byte := chr 36.
Definition backslash : byte := chr 92.
Definition quote : byte := chr 34.
Definition systemdArg (s : str) : str :=
  let s := ReplaceAll s percent [percent; percent] in
  let s := ReplaceAll s dollar [dollar; dollar] in
  let s := ReplaceAll s backslash [backslash; backslash] in
  let s := ReplaceAll s quote [backslash; quote] in
  quote :: s ++ [quote].

(** [utf8.DecodeRune]: the length of the valid encoding at the head, if there is one. *)
Definition continuation : byte → bool := in_range 128 191.
Definition rune_length (s : str) : option nat :=
  match s with
  | [] => None
  | a :: t =>
      if in_range 0 127 a then Some 1%nat
      else if in_range 194 223 a then
        match t with b :: _ => if continuation b then Some 2%nat else None | _ => None end
      else if in_range 224 239 a then
        match t with
        | b :: c :: _ =>
            let lo := if code a =? 224 then 160 else 128 in
            let hi := if code a =? 237 then 159 else 191 in
            if in_range lo hi b && continuation c then Some 3%nat else None
        | _ => None
        end
      else if in_range 240 244 a then
        match t with
        | b :: c :: d :: _ =>
            let lo := if code a =? 240 then 144 else 128 in
            let hi := if code a =? 244 then 143 else 191 in
            if in_range lo hi b && continuation c && continuation d then Some 4%nat else None
        | _ => None
        end
      else None
  end.
(** U+FFFD, which stands for what XML cannot hold. *)
Definition replacement : str := [chr 239; chr 191; chr 189].
(** The noncharacters U+FFFE and U+FFFF. *)
Definition noncharacter (r : str) : bool :=
  bool_decide (r = [chr 239; chr 191; chr 190]) || bool_decide (r = [chr 239; chr 191; chr 191]).
Definition escape_byte (c : byte) : str :=
  let z := code c in
  if z =? 34 then "&#34;" else if z =? 39 then "&#39;" else if z =? 38 then "&amp;"
  else if z =? 60 then "&lt;" else if z =? 62 then "&gt;" else if z =? 9 then "&#x9;"
  else if z =? 10 then "&#xA;" else if z =? 13 then "&#xD;"
  else if z <? 32 then replacement else [c].
(** [xml.EscapeText]. *)
Fixpoint escape_loop (fuel : nat) (s : str) : str :=
  match fuel with
  | O => []
  | S n =>
      match s with
      | [] => []
      | c :: t =>
          match rune_length s with
          | Some 1%nat => escape_byte c ++ escape_loop n t
          | Some k => (if noncharacter (take k s) then replacement else take k s) ++ escape_loop n (drop k s)
          | None => replacement ++ escape_loop n t
          end
      end
  end.
Definition escaped (s : str) : str := escape_loop (length s) s.

(** Strings of several lines; [%s] and [%d] are filled in. *)
Definition line (s : str) : str := s ++ [nl].
Definition quoted (s : str) : str := quote :: s ++ [quote].
Definition shutdown_seconds (c : Config) : Z := ShutdownTimeout (Config.Runtime c) / Second + 5.
Definition launchd_definition (p : Paths) (c : Config) (path : str) : str :=
  line ("<?xml version=" ++ quoted "1.0" ++ " encoding=" ++ quoted "UTF-8" ++ "?>")
  ++ line ("<!DOCTYPE plist PUBLIC " ++ quoted "-//Apple//DTD PLIST 1.0//EN" ++ " "
           ++ quoted "http://www.apple.com/DTDs/PropertyList-1.0.dtd" ++ ">")
  ++ line ("<plist version=" ++ quoted "1.0" ++ "><dict>")
  ++ line ("<key>Label</key><string>" ++ Label ++ "</string>")
  ++ line ("<key>ProgramArguments</key><array><string>" ++ escaped (PExecutable p)
           ++ "</string><string>serve</string><string>--config</string><string>" ++ escaped path
           ++ "</string><string>--log-file</string><string>" ++ escaped (PLog p) ++ "</string></array>")
  ++ line "<key>RunAtLoad</key><true/><key>KeepAlive</key><true/>"
  ++ line "<key>ThrottleInterval</key><integer>5</integer>"
  ++ line ("<key>ExitTimeOut</key><integer>" ++ Itoa (shutdown_seconds c) ++ "</integer>")
  ++ line "<key>UserName</key><string>root</string><key>Umask</key><integer>63</integer>"
  ++ line "</dict></plist>".
Definition exec_start (executable path : str) : str :=
  systemdArg executable ++ " serve --config " ++ systemdArg path.
Definition systemd_definition (p : Paths) (c : Config) (path : str) : str :=
  line "[Unit]" ++ line "Description=utlsproxy TLS fingerprint proxy" ++ line "After=network-online.target"
  ++ line "Wants=network-online.target" ++ line "StartLimitIntervalSec=60" ++ line "StartLimitBurst=5" ++ line ""
  ++ line "[Service]" ++ line "Type=simple"
  ++ line ("ExecStart=" ++ exec_start (PExecutable p) path)
  ++ line "User=root" ++ line "Restart=always" ++ line "RestartSec=3"
  ++ line ("TimeoutStopSec=" ++ Itoa (shutdown_seconds c))
  ++ line "UMask=0077" ++ line "StandardOutput=journal" ++ line "StandardError=journal" ++ line ""
  ++ line "[Install]" ++ line "WantedBy=multi-user.target".
Definition no_newlines : error := errors_New "service paths must not contain newlines or NUL".
Definition Generate (osName : str) (p : Paths) (c : Config) (path : str) : result Plan :=
  _ ← each (λ s, guard_err (ContainsAny s [nl; chr 13; chr 0]) no_newlines) [path; PExecutable p; PLog p];
  if osName == "darwin" then Ok (mkPlan (PExecutable p) (PService p) path (launchd_definition p c path) (PLog p))
  else if osName == "linux" then Ok (mkPlan (PExecutable p) (PService p) path (systemd_definition p c path) (PLog p))
  else Err (errors_New ("service installation unsupported on " ++ osName)).

(** ** The service manager *)
(** What the daemon answers on its control socket. *)
Record DaemonStatus := mkDaemon { d_ConfigPath : str; d_Health : str; d_Reasons : list str }.
Definition degraded (reasons : list str) : error :=
  mkError ("daemon is degraded: " ++ Join reasons "; ") [ErrDegraded].
Definition not_permitted : error := mkError "permission denied" [ErrPermission].

Section Service.
Context `{Kernel}.
(** The platform; a command with its output and error; the daemon's answer to a status
    request; whether the caller's context is done; the number of turns of the wait for the
    daemon that fit in its 15 seconds (at most 75, each takes at least 200 ms). *)
Variables (GOOS : str) (exec : str → list str → M (str * option error)).
Variables (probe : str → M DaemonStatus) (ctx_err : M (option error)) (turns : nat).
Definition paths : Paths := PlatformPaths GOOS.
Definition unavailable : error := errors_New "native service manager unavailable; use foreground serve".
Definition tool : M str :=
  if GOOS == "darwin" then mret ("/bin/launchctl" : str)
  else if GOOS == "linux" then
    x ← try (Stat "/usr/bin/systemctl");
    match x with
    | Ok _ => mret ("/usr/bin/systemctl" : str)
    | Err _ => y ← try (Stat "/bin/systemctl");
               match y with Ok _ => mret ("/bin/systemctl" : str) | Err _ => fail unavailable end
    end
  else fail unavailable.
Definition run (args : list str) : M (str * option error) :=
  x ← try tool;
  match x with
  | Err e => mret ([], Some e)
  | Ok bin =>
      '(b, e) ← exec bin args;
      mret (b, match e with
               | None => None
               | Some e => Some (mkError (bin ++ " " ++ show_strs args ++ ": " ++ Error e ++ ": " ++ TrimSpace b) (chain e))
               end)
  end.
Definition unit_name : str := "utlsproxy.service".
Definition domain_target : str := "system/" ++ Label.
Definition properties : str := "--property=LoadState,ActiveState,SubState,UnitFileState,MainPID,Result".
Definition Native (action : str) : M (str * option error) :=
  if (action != "status") && negb (euid =? 0) then mret ([], Some not_permitted)
  else if GOOS == "darwin" then
    if action == "status" then run ["print" : str; domain_target]
    else if action == "start" then
      '(_, e) ← run ["print" : str; domain_target];
      match e with
      | None => run ["kickstart" : str; domain_target]
      | Some _ => run ["bootstrap" : str; "system" : str; PService paths]
      end
    else if action == "stop" then run ["bootout" : str; domain_target]
    else if action == "restart" then
      '(_, e) ← run ["print" : str; domain_target];
      match e with
      | None => run ["kickstart" : str; "-k" : str; domain_target]
      | Some _ => run ["bootstrap" : str; "system" : str; PService paths]
      end
    else mret ([], Some (errors_New ("unknown service action " ++ action)))
  else if action == "status" then
    '(text, e) ← run ["show" : str; unit_name; properties];
    match e with
    | None => if Contains text ("ActiveState=active" ++ [nl]) then mret (text, None)
              else mret (text, Some (errors_New "service is not active"))
    | Some _ => mret (text, e)
    end
  else
    _ ← (if (action == "restart") || (action == "start") then run ["reset-failed" : str; unit_name] else mret ([], None));
    if (action == "start") || (action == "stop") || (action == "restart") then run [action; unit_name]
    else mret ([], Some (errors_New ("unknown service action " ++ action))).

(** ** The manifest of an installation *)
(** JSON and SHA-256. *)
Variables (manifest_json : Manifest → str) (parse_manifest : str → result Manifest) (sha : str → str).
Definition manifestPath : str := Dir (PConfig paths) ++ "/installation.json".
Definition readManifest : M Manifest :=
  b ← ReadFile manifestPath;
  m ← lift (parse_manifest b);
  _ ← lift (guard_err (negb (m_Version m =? 1) || (m_Executable m != PExecutable paths)
                       || (m_DefinitionPath m != PService paths)) (errors_New "invalid installation manifest"));
  mret m.
Definition inspectOwned (path want : str) : M unit :=
  _ ← Regular path;
  b ← ReadFile path;
  lift (guard_err (sha b != want) (errors_New ("owned installation file was modified: " ++ path))).

(** ** Waiting for the daemon *)
Fixpoint awaitDaemon_loop (n : nat) (socket path : str) : M unit :=
  match n with
  | O => fail (errors_New "service did not expose the expected control socket within 15s")
  | S n =>
      let wait := (d ← ctx_err; match d with Some e => fail e | None => awaitDaemon_loop n socket path end) in
      x ← try (probe socket);
      match x with
      | Ok st => if d_ConfigPath st == path
                 then lift (guard_err (d_Health st != "ready") (degraded (d_Reasons st)))
                 else wait
      | Err _ => wait
      end
  end.
Definition awaitDaemon (socket path : str) : M unit := awaitDaemon_loop turns socket path.

(** ** [Install] *)
(** [Abs], [EvalSymlinks], [RootOwned], the program's own file, and the time in the backup's name. *)
Variables (Abs : str → result str) (eval_links : fs → str → result str) (root_owned : fs → str → result unit).
Variables (Executable : result str) (stamp : str).
(** The order in which Go visits a map. *)
Variable visit : ∀ {A}, list A → list A.
Definition outcome : Type := M (Plan * str * option error).
Definition stop (plan : Plan) (e : error) : outcome := mret (plan, [], Some e).
Definition check {A} (plan : Plan) (m : M A) (k : A → outcome) : outcome :=
  x ← try m;
  match x with Ok a => k a | Err e => stop plan e end.
(** A call of the service manager where an error ends the installation. *)
Definition must (m : M (str * option error)) : M unit :=
  '(_, e) ← m;
  match e with None => mret tt | Some e => fail e end.
Definition attempt (m : M unit) : M (option error) :=
  x ← try m;
  mret (match x with Ok _ => None | Err e => Some e end).
Definition RootOwned_ (path : str) : M unit := query (λ s, root_owned s path).
Fixpoint each_ {A} (f : A → M unit) (l : list A) : M unit :=
  match l with
  | [] => mret tt
  | x :: l => _ ← f x; each_ f l
  end.
Definition at_boot (f : str) : M unit :=
  _ ← RootOwned_ f;
  real ← query (λ s, eval_links s f);
  lift (guard_err (HasPrefix real "/Volumes/" || HasPrefix real "/media/" || HasPrefix real "/run/user/")
          (errors_New ("service path may be unavailable at boot: " ++ real))).
(** The check of a target: [old] is the manifest, if there is one. *)
Definition target_ok (old : option Manifest) (target : str) : M unit :=
  x ← try (Lstat target);
  match x with
  | Ok _ =>
      match old with
      | None => fail (errors_New ("unowned installation target exists: " ++ target))
      | Some m => inspectOwned target (if target == PService paths then m_DefinitionSHA m else m_ExecutableSHA m)
      end
  | Err e => if errors_Is e ErrNotExist then mret tt else fail e
  end.
Definition old_manifest : M (option Manifest) :=
  x ← try readManifest;
  match x with
  | Ok m => mret (Some m)
  | Err e => if errors_Is e ErrNotExist then mret None else fail e
  end.
Definition enable : M unit :=
  if GOOS == "darwin" then must (run ["enable" : str; domain_target]) else must (run ["enable" : str; unit_name]).
(** What was there before, for the rollback. *)
Record saved := mkSaved { sv_binary : str; sv_definition : str; sv_manifest : str }.
Definition read_or_nothing (p : str) : M str :=
  x ← try (ReadFile p);
  mret (match x with Ok b => b | Err _ => [] end).
Definition backup_old (stateDir : str) : M saved :=
  b ← read_or_nothing (PExecutable paths);
  d ← read_or_nothing (PService paths);
  m ← read_or_nothing manifestPath;
  let dir := stateDir ++ "/service-backup-" ++ stamp in
  _ ← PrivateDir dir;
  _ ← each_ (λ nb, Exclusive (dir ++ "/" ++ nb.1) nb.2 384)
        (visit [("utlsproxy" : str, b); ("service" : str, d); ("installation.json" : str, m)]);
  mret (mkSaved b d m).
Definition errors_Join (e : error) (l : list (option error)) : error :=
  fold_left (λ e f, match f with
                    | Some f => mkError (Error e ++ nl :: Error f) (chain e ++ chain f)
                    | None => e
                    end) l e.
Definition restore (old : option saved) (p : str) (b : saved → str) (mode : Z) : M unit :=
  match old with Some sv => Atomic p (b sv) mode | None => Remove p end.
Definition no_manifest_left (e : option error) : option error :=
  match e with Some e => if errors_Is e ErrNotExist then None else Some e | None => None end.
Definition rollback_manifest (old : option saved) : M (option error) :=
  match old with
  | Some sv => attempt (Atomic manifestPath (sv_manifest sv) 384)
  | None => e ← attempt (Remove manifestPath); mret (no_manifest_left e)
  end.
Definition rollback (plan : Plan) (old : option saved) (wroteBin wroteDef : bool) (cause : error) : outcome :=
  _ ← Native "stop";
  p1 ← (if wroteBin then attempt (restore old (PExecutable paths) sv_binary 493) else mret None);
  p2 ← (if wroteDef then attempt (restore old (PService paths) sv_definition 420) else mret None);
  p3 ← rollback_manifest old;
  p4 ← (if GOOS == "linux" then attempt (must (run ["daemon-reload" : str])) else mret None);
  p5 ← (match old with
        | Some _ => attempt (must (Native "start"))
        | None => if GOOS == "linux" then _ ← run ["disable" : str; unit_name]; mret None else mret None
        end);
  mret (plan, "installation failed; restored previous owned files where possible" : str,
        Some (errors_Join cause [p1; p2; p3; p4; p5])).
(** [if err != nil { return rollback(err) }] *)
Definition undo {A} (m : M A) (back : error → outcome) (k : A → outcome) : outcome :=
  x ← try m;
  match x with Ok a => k a | Err e => back e end.
Definition new_manifest (plan : Plan) (binary path socket : str) : Manifest :=
  mkManifest 1 (PExecutable paths) (sha binary) (PService paths) (sha (pl_Definition plan)) path socket.
Definition activate (plan : Plan) (socket path : str) (back : error → outcome) : outcome :=
  undo (if GOOS == "darwin" then enable else _ ← must (run ["daemon-reload" : str]); enable) back (λ _,
  undo (must (Native "start")) back (λ _,
  x ← try (awaitDaemon socket path);
  match x with
  | Ok _ => mret (plan, "installed, enabled at boot, and running" : str, None)
  | Err e => if errors_Is e ErrDegraded then mret (plan, "installed and started; daemon is degraded" : str, Some e)
             else back e
  end)).
Definition write_files (plan : Plan) (old : option (Manifest * saved)) (binary path socket : str) : outcome :=
  let sv := snd <$> old in
  let same := match old with Some (m, _) => m_ExecutableSHA m == sha binary | None => false end in
  undo (if same then mret tt else Atomic (PExecutable paths) binary 493) (rollback plan sv false false) (λ _,
  let wroteBin := negb same in
  undo (Atomic (PService paths) (pl_Definition plan) 420) (rollback plan sv wroteBin false) (λ _,
  undo (Atomic manifestPath (manifest_json (new_manifest plan binary path socket)) 384) (rollback plan sv wroteBin true) (λ _,
  activate plan socket path (rollback plan sv wroteBin true)))).
Definition replace_files (plan : Plan) (old : option (Manifest * saved)) (binary path socket : str) : outcome :=
  match old with
  | None => write_files plan old binary path socket
  | Some _ =>
      '(_, e) ← Native "status";
      match e with
      | Some _ => write_files plan old binary path socket
      | None =>
          '(_, e) ← Native "stop";
          match e with
          | Some e => mret (plan, "service update stopped before replacing files" : str, Some e)
          | None => write_files plan old binary path socket
          end
      end
  end.
(** The installation is there already. *)
Definition unchanged (plan : Plan) (socket path : str) : outcome :=
  check plan enable (λ _,
  check plan (must (Native "start")) (λ _,
  x ← try (awaitDaemon socket path);
  match x with
  | Ok _ => mret (plan, "installation unchanged; enabled at boot and running" : str, None)
  | Err e => mret (plan, "installation unchanged; service health check did not pass" : str, Some e)
  end)).
Definition same_installation (m : Manifest) (plan : Plan) (binary path socket : str) : bool :=
  (m_ExecutableSHA m == sha binary) && (m_DefinitionSHA m == sha (pl_Definition plan))
  && (m_Config m == path) && (m_Socket m == socket).
Definition prepare_dirs (c : Config) : M unit :=
  _ ← each_ (λ d, _ ← MkdirAll d 493; RootOwned_ d) [Dir (PExecutable paths); Dir (PService paths)];
  _ ← PrivateDir (StateDir (Config.Runtime c));
  RootOwned_ (StateDir (Config.Runtime c)).
Definition foreground : error := errors_New "foreground daemon is running; stop it before installing the service".
(** The part under the lock. *)
Definition install_locked (c : Config) (plan : Plan) (path : str) : outcome :=
  let socket := ControlSocket (Config.Runtime c) in
  check plan old_manifest (λ old,
  check plan (each_ (target_ok old) [PExecutable paths; PService paths]) (λ _,
  check plan (lift Executable) (λ self,
  check plan (ReadFile self) (λ binary,
  x ← try (probe socket);
  if is_ok x && negb (bool_decide (is_Some old)) then stop plan foreground
  else
    check plan (prepare_dirs c) (λ _,
    match old with
    | None => replace_files plan None binary path socket
    | Some m =>
        if same_installation m plan binary path socket then unchanged plan socket path
        else check plan (backup_old (StateDir (Config.Runtime c))) (λ sv,
             replace_files plan (Some (m, sv)) binary path socket)
    end))))).
Definition no_plan : Plan := mkPlan [] [] [] [] [].
Definition Install (c : Config) (path : str) (dry : bool) : outcome :=
  match Abs path with
  | Err e => stop no_plan e
  | Ok path =>
      match Generate GOOS paths c path with
      | Err e => stop no_plan e
      | Ok plan =>
          if dry then mret (plan, "dry run: no files or service state changed" : str, None)
          else if negb (euid =? 0) then stop plan not_permitted
          else
            check plan tool (λ _,
            check plan (each_ at_boot [path; Cert (Config.CA c); Key (Config.CA c)]) (λ _,
            check plan (PrivateDir (Dir manifestPath)) (λ _,
            check plan (Lock (manifestPath ++ ".lock")) (λ unlock,
            finally (install_locked c plan path) unlock))))
      end
  end.

(** ** [Uninstall] *)
Definition answer : Type := M (str * option error).
Definition refuse (e : error) : answer := mret ([], Some e).
Definition ask {A} (m : M A) (k : A → answer) : answer :=
  x ← try m;
  match x with Ok a => k a | Err e => refuse e end.
Definition nothing_installed : answer := mret ("no owned service installation found" : str, None).
Definition linux_only (args : list str) : M unit := if GOOS == "linux" then must (run args) else mret tt.
Definition uninstall_files (m : Manifest) : answer :=
  ask (linux_only ["disable" : str; unit_name]) (λ _,
  ask (Remove (m_DefinitionPath m)) (λ _,
  ask (linux_only ["daemon-reload" : str]) (λ _,
  ask (Remove (m_Executable m)) (λ _,
  ask (Remove manifestPath) (λ _,
  mret ("service uninstalled; CA, configuration, state and logs retained" : str, None)))))).
Definition uninstall_owned (m : Manifest) : answer :=
  ask (each_ (λ ph, inspectOwned ph.1 ph.2)
         (visit [(m_Executable m, m_ExecutableSHA m); (m_DefinitionPath m, m_DefinitionSHA m)])) (λ _,
  '(_, stopErr) ← Native "stop";
  match stopErr with
  | None => uninstall_files m
  | Some e => x ← try (probe (m_Socket m));
              if is_ok x then refuse e else uninstall_files m
  end).
Definition would_remove (m : Manifest) : str :=
  "Would stop/unregister service and remove " ++ m_Executable m ++ ", " ++ m_DefinitionPath m ++ ", " ++ manifestPath
  ++ "; preserve CA/config/state/logs".
Definition uninstall_locked (dry : bool) : answer :=
  x ← try readManifest;
  match x with
  | Err e => if errors_Is e ErrNotExist then nothing_installed else refuse e
  | Ok m => if dry then mret (would_remove m, None)
            else if negb (euid =? 0) then refuse not_permitted else uninstall_owned m
  end.
Definition Uninstall (dry : bool) : answer :=
  if dry then uninstall_locked dry
  else if negb (euid =? 0) then refuse not_permitted
  else
    x ← try (Stat (Dir manifestPath));
    if match x with Err e => errors_Is e ErrNotExist | Ok _ => false end then nothing_installed
    else ask (Lock (manifestPath ++ ".lock")) (λ unlock, finally (uninstall_locked dry) unlock).
End Service.
