(* ===== verification/ServiceSafety.v ===== *)
(** * Service: theorems about Service.v

    The quoting of the unit file, what an installation may overwrite, and what is left when
    it fails. *)
From S2P Require Import Prelude Strs Config Fsutil Frames Service.

(** ** The unit file

    What systemd documents about a quoted word of a command line: a backslash escapes a
    backslash or a quote, [%%] is a percent sign and [$$] a dollar sign; a single one
    starts a specifier or a variable. *)
Fixpoint unquote (s : str) : option (str * str) :=
  match s with
  | [] => None
  | c :: t =>
      if beq c quote then Some ([], t)
      else if beq c backslash then
        match t with
        | d :: t' => if beq d backslash || beq d quote then '(w, r) ← unquote t'; Some (d :: w, r) else None
        | [] => None
        end
      else '(w, r) ← unquote t; Some (c :: w, r)
  end.
Fixpoint undouble (c : byte) (s : str) : option str :=
  match s with
  | [] => Some []
  | x :: t =>
      if beq x c then
        match t with
        | y :: t' => if beq y c then cons c <$> undouble c t' else None
        | [] => None
        end
      else cons x <$> undouble c t
  end.
Definition quoted_word (s : str) : option (str * str) :=
  match s with
  | c :: t => if beq c quote then '(w, r) ← unquote t; w ← undouble percent w; Some (w, r) else None
  | [] => None
  end.
(** The command line: a quoted program, plain words, and a quoted last argument. *)
Definition parse_exec (s : str) : option (list str) :=
  '(program, r) ← quoted_word s;
  r ← strip_prefix " serve --config " r;
  '(arg, r) ← quoted_word r;
  arg ← undouble dollar arg;
  if decide (r = []) then Some [program; "serve" : str; "--config" : str; arg] else None.

Lemma undouble_ReplaceAll c s : undouble c (ReplaceAll s c [c; c]) = Some s.
Proof.
  induction s as [|x s IH]; [done|]. cbn [ReplaceAll]. destruct (beq_spec x c) as [->|Hne].
  - cbn [app undouble]. by rewrite !beq_refl, IH.
  - cbn [app undouble]. destruct (beq_spec x c); [done|]. by rewrite IH.
Qed.
Definition backslashed (s : str) : str :=
  ReplaceAll (ReplaceAll s backslash [backslash; backslash]) quote [backslash; quote].
Lemma unquote_backslashed s r : unquote (backslashed s ++ quote :: r) = Some (s, r).
Proof.
  induction s as [|x s IH]; [done|]. unfold backslashed in *. cbn [ReplaceAll].
  destruct (beq_spec x backslash) as [->|Hb].
  - cbn [app ReplaceAll]. change (beq backslash quote) with false. cbn [app unquote].
    change (beq backslash quote) with false. rewrite beq_refl. cbn [orb]. by rewrite IH.
  - cbn [app ReplaceAll]. destruct (beq_spec x quote) as [->|Hq].
    + cbn [app unquote]. change (beq backslash quote) with false. rewrite !beq_refl.
      change (beq quote backslash) with false. cbn [orb]. by rewrite IH.
    + cbn [app unquote]. destruct (beq_spec x quote); [done|]. destruct (beq_spec x backslash); [done|]. by rewrite IH.
Qed.
Lemma quoted_word_systemdArg s r : quoted_word (systemdArg s ++ r) = Some (ReplaceAll s dollar [dollar; dollar], r).
Proof.
  unfold systemdArg. fold (backslashed (ReplaceAll (ReplaceAll s percent [percent; percent]) dollar [dollar; dollar])).
  cbn [app quoted_word]. rewrite beq_refl, <- app_assoc. cbn [app]. rewrite unquote_backslashed. cbn.
  assert (∀ t, ReplaceAll (ReplaceAll t percent [percent; percent]) dollar [dollar; dollar]
             = ReplaceAll (ReplaceAll t dollar [dollar; dollar]) percent [percent; percent]) as Hc.
  { clear. induction t as [|x t IH]; [done|]. cbn [ReplaceAll]. destruct (beq_spec x percent) as [->|Hp].
    - change (beq percent dollar) with false. cbn [app ReplaceAll]. change (beq percent dollar) with false.
      rewrite beq_refl. cbn [app]. by rewrite IH.
    - cbn [app ReplaceAll]. destruct (beq_spec x dollar) as [->|Hd].
      + cbn [app ReplaceAll]. change (beq dollar percent) with false. cbn [app]. by rewrite IH.
      + cbn [app ReplaceAll]. destruct (beq_spec x percent); [done|]. cbn [app]. by rewrite IH. }
  by rewrite Hc, undouble_ReplaceAll.
Qed.
Lemma ReplaceAll_notin s c r : c ∉ s → ReplaceAll s c r = s.
Proof.
  induction s as [|x s IH]; [done|]. intros [Hx Hs]%not_elem_of_cons. cbn [ReplaceAll].
  destruct (beq_spec x c) as [->|]; [done|]. cbn [app]. by rewrite IH.
Qed.
Lemma parse_exec_start e p : dollar ∉ e → parse_exec (exec_start e p) = Some [e; "serve" : str; "--config" : str; p].
Proof.
  intros He. unfold parse_exec, exec_start. rewrite quoted_word_systemdArg. cbn [mbind option_bind].
  rewrite strip_prefix_app. cbn [mbind option_bind].
  replace (systemdArg p) with (systemdArg p ++ []) by apply app_nil_r.
  rewrite quoted_word_systemdArg. cbn [mbind option_bind]. rewrite undouble_ReplaceAll. cbn [mbind option_bind].
  rewrite decide_True by done. by rewrite ReplaceAll_notin.
Qed.
Lemma ReplaceAll_elem x s c r : x ∈ ReplaceAll s c r → x ∈ s ∨ x ∈ r.
Proof.
  induction s as [|y s IH]; [by left|]. cbn [ReplaceAll]. rewrite elem_of_app. intros [Hx|Hx].
  - destruct (beq y c); [by right|]. left. apply elem_of_cons. left. by apply list_elem_of_singleton in Hx.
  - destruct (IH Hx); [left; by right|by right].
Qed.
Lemma systemdArg_no_newline s : nl ∉ s → nl ∉ systemdArg s.
Proof.
  intros Hs. unfold systemdArg. rewrite elem_of_cons, elem_of_app, list_elem_of_singleton.
  assert (∀ r : str, bool_decide (nl ∈ r) = false → nl ∉ r) as Hd by (by intros r ?%bool_decide_eq_false).
  intros [E|[Hx|E]]; [by vm_compute in E| |by vm_compute in E].
  repeat match type of Hx with
  | _ ∈ ReplaceAll _ _ _ => apply ReplaceAll_elem in Hx as [Hx|Hx]; [|by apply Hd in Hx]
  end. done.
Qed.
Lemma Split_cons_line s b : nl ∉ s → Split (line s ++ b) nl = s :: Split b nl.
Proof. intros Hs. unfold line. rewrite <- app_assoc. by apply Split_line. Qed.
(** Decimal numbers are digits and a minus sign. *)
Definition numeral (c : byte) : Prop := c = dash ∨ is_digit c = true.
Lemma Itoa_numeral z : Forall numeral (Itoa z).
Proof.
  assert (∀ y, 0 ≤ y → Forall numeral (Itoa y)) as Hp.
  { intros y Hy. eapply Forall_impl; [apply (Itoa_digits y Hy)|]. intros c Hc. by right. }
  destruct (Z_lt_ge_dec z 0) as [Hz|Hz]; [|apply Hp; lia].
  destruct z as [|p|p]; [lia|lia|]. apply Forall_cons. split; [by left|]. exact (Hp (Z.pos p) ltac:(lia)).
Qed.
Lemma Itoa_no_newline z : nl ∉ Itoa z.
Proof.
  intros Hn. pose proof (Itoa_numeral z) as Hf. rewrite Forall_forall in Hf.
  destruct (Hf _ Hn) as [E|E]; vm_compute in E; discriminate E.
Qed.
Lemma not_in (x : byte) (t : str) : bool_decide (x ∈ t) = false → x ∉ t.
Proof. by intros ?%bool_decide_eq_false. Qed.
(** The lines of the unit file around the command line. *)
Definition unit_head : list str :=
  map String.list_ascii_of_string ["[Unit]"; "Description=utlsproxy TLS fingerprint proxy"; "After=network-online.target";
    "Wants=network-online.target"; "StartLimitIntervalSec=60"; "StartLimitBurst=5"; ""; "[Service]"; "Type=simple"]%string.
Definition unit_tail (c : Config) : list str :=
  map String.list_ascii_of_string ["User=root"; "Restart=always"; "RestartSec=3"]%string
  ++ ["TimeoutStopSec=" ++ Itoa (shutdown_seconds c)]
  ++ map String.list_ascii_of_string ["UMask=0077"; "StandardOutput=journal"; "StandardError=journal"; ""; "[Install]";
       "WantedBy=multi-user.target"; ""]%string.

(** C40: No path can inject a directive into the unit file. Whatever the configuration's
    path, the definition that [Generate] makes for Linux has the same lines but one, and
    that one, read back by systemd's rules for quotes, specifiers and variables, is the
    command of exactly four words: the program, [serve], [--config] and the path. *)
Theorem unit_file_roundtrip c path plan :
  Generate "linux" (PlatformPaths "linux") c path = Ok plan →
  ∃ command, Split (pl_Definition plan) nl = unit_head ++ ("ExecStart=" ++ command) :: unit_tail c ∧
    parse_exec command = Some [PExecutable (PlatformPaths "linux"); "serve" : str; "--config" : str; path].
Proof.
  unfold Generate. intros Hg. apply bind_Ok in Hg as (x & Hp & Hg). apply each_Ok in Hp.
  apply Forall_cons in Hp as [Hp _]. apply guard_Ok in Hp.
  assert (nl ∉ path) as Hn.
  { intros Hn. unfold ContainsAny in Hp. assert (existsb (λ c, bool_decide (c ∈ [nl; chr 13; chr 0])) path = true) as E.
    { apply existsb_exists. exists nl. split; [by apply list_elem_of_In|]. apply bool_decide_eq_true. left. }
    rewrite E in Hp. done. }
  change (("linux" : str) == "darwin") with false in Hg. change (("linux" : str) == "linux") with true in Hg.
  injection Hg as <-. cbn [pl_Definition].
  exists (exec_start (PExecutable (PlatformPaths "linux")) path). split; [|apply parse_exec_start, (not_in dollar); by vm_compute].
  assert (∀ t : str, bool_decide (nl ∈ t) = false → nl ∉ t) as Hc by exact (not_in nl).
  unfold systemd_definition, unit_head, unit_tail.
  repeat (rewrite Split_cons_line; [|by apply Hc]).
  assert (nl ∉ exec_start (PExecutable (PlatformPaths "linux")) path) as He.
  { unfold exec_start. rewrite !elem_of_app. intros [Hx|[Hx|Hx]]; [|by apply Hc in Hx|by apply systemdArg_no_newline in Hx].
    by apply systemdArg_no_newline in Hx; [|apply Hc]. }
  rewrite Split_cons_line.
  2:{ rewrite elem_of_app. intros [Hx|Hx]; [by apply Hc in Hx|by apply He]. }
  repeat (rewrite Split_cons_line; [|by apply Hc]).
  rewrite Split_cons_line.
  2:{ rewrite elem_of_app. intros [Hx|Hx]; [by apply Hc in Hx|by apply Itoa_no_newline in Hx]. }
  repeat (rewrite Split_cons_line; [|by apply Hc]).
  replace (line "WantedBy=multi-user.target") with (line "WantedBy=multi-user.target" ++ []) by apply app_nil_r.
  by rewrite Split_cons_line by (by apply Hc).
Qed.

(** ** Programs that always return *)
Definition total {A} (m : M A) : Prop := ∀ o, is_ok (m o).1 = true.
Lemma total_ret {A} (a : A) : total (mret a : M A).
Proof. by intros o. Qed.
Lemma total_try {A} (m : M A) : total (try m).
Proof. intros o. unfold try. by destruct (m o). Qed.
Lemma total_bind {A B} (m : M A) (f : A → M B) : total m → (∀ a, total (f a)) → total (m ≫= f).
Proof. intros Hm Hf o. specialize (Hm o). unfold mbind, M_bind. destruct (m o) as [[a|e] o']; [apply Hf|done]. Qed.

Section Safety.
Context `{Kernel}.
Variables (GOOS : str) (exec : str → list str → M (str * option error)).
Variables (probe : str → M DaemonStatus) (ctx_err : M (option error)) (turns : nat).
Variables (manifest_json : Manifest → str) (parse_manifest : str → result Manifest) (sha : str → str).
Variables (Abs : str → result str) (eval_links : fs → str → result str) (root_owned : fs → str → result unit).
Variables (Executable : result str) (stamp : str).
Variable visit : ∀ {A}, list A → list A.
Notation exe := (PExecutable (paths GOOS)).
Notation svc := (PService (paths GOOS)).
Notation man := (manifestPath GOOS).

(** ** The files of an installation *)
Definition mine (q : str) : Prop := q = exe ∨ q = svc ∨ q = man.
Hypothesis alone : quiet.
(** The service manager's commands and the daemon leave these files alone; a command that
    fails says so. *)
Hypothesis exec_spares : ∀ bin args, spares mine (exec bin args).
Hypothesis exec_total : ∀ bin args, total (exec bin args).
Hypothesis probe_spares : ∀ socket, spares mine (probe socket).
Hypothesis ctx_spares : spares mine ctx_err.

Lemma spares_tool : spares mine (tool GOOS).
Proof. unfold tool, fail, Stat. auto 10 with spares. Qed.
Lemma spares_manager args : spares mine (run GOOS exec args).
Proof.
  unfold run. apply spares_bind; [apply spares_try, spares_tool|]. intros [bin|e]; [|apply spares_ret].
  apply spares_bind; [apply exec_spares|]. intros [b [e|]]; apply spares_ret.
Qed.
Lemma total_run args : total (run GOOS exec args).
Proof.
  apply total_bind; [apply total_try|]. intros [bin|e]; [|apply total_ret].
  apply total_bind; [apply exec_total|]. intros [b [e|]]; apply total_ret.
Qed.
Lemma spares_Native action : spares mine (Native GOOS exec action).
Proof.
  unfold Native. repeat first [apply spares_manager | apply spares_ret | case_match
    | apply spares_bind; [|intros ?] ].
Qed.
Lemma total_Native action : total (Native GOOS exec action).
Proof.
  unfold Native. repeat first [apply total_run | apply total_ret | case_match
    | apply total_bind; [|intros ?] ].
Qed.
Lemma spares_must m : spares mine m → spares mine (must m).
Proof. intros Hm. unfold must. apply spares_bind; [done|]. intros [? [e|]]; [apply spares_lift|apply spares_ret]. Qed.
Lemma spares_attempt m : spares mine m → spares mine (attempt m).
Proof. intros Hm. unfold attempt. apply spares_bind; [by apply spares_try|]. intros x. apply spares_ret. Qed.
Lemma total_attempt m : total (attempt m).
Proof. apply total_bind; [apply total_try|]. intros x. apply total_ret. Qed.
Lemma spares_enable : spares mine (enable GOOS exec).
Proof. unfold enable. case_match; apply spares_must, spares_manager. Qed.
Lemma spares_awaitDaemon n socket path : spares mine (awaitDaemon probe ctx_err n socket path).
Proof.
  unfold awaitDaemon. induction n as [|n IH]; cbn [awaitDaemon_loop]; [apply spares_lift|].
  assert (spares mine (d ← ctx_err; match d with Some e => fail e | None => awaitDaemon_loop probe ctx_err n socket path end)) as Hw.
  { apply spares_bind; [done|]. intros [e|]; [apply spares_lift|exact IH]. }
  apply spares_bind; [apply spares_try, probe_spares|]. intros [st|e]; [|exact Hw].
  destruct (_ == _); [apply spares_lift|exact Hw].
Qed.
Lemma spares_each_ {A} (f : A → M unit) l : (∀ x, x ∈ l → spares mine (f x)) → spares mine (each_ f l).
Proof.
  induction l as [|x l IH]; intros Hf; cbn [each_]; [apply spares_ret|].
  apply spares_bind; [apply Hf; left|]. intros []. apply IH. intros y Hy. apply Hf. by right.
Qed.
(** Directories and lock files are other files; the backup's are too. *)
Record apart (c : Config) : Prop := {
  ap_state : ¬ mine (StateDir (Config.Runtime c));
  ap_backup : ¬ mine (StateDir (Config.Runtime c) ++ "/service-backup-" ++ stamp);
  ap_backups name : ¬ mine ((StateDir (Config.Runtime c) ++ "/service-backup-" ++ stamp) ++ "/" ++ name) }.
Lemma not_mine (p : Paths → str) :
  (∀ os, os = ("darwin" : str) ∨ os = ("linux" : str) →
     bool_decide (p (PlatformPaths os) = PExecutable (PlatformPaths os)
       ∨ p (PlatformPaths os) = PService (PlatformPaths os)
       ∨ p (PlatformPaths os) = Dir (PConfig (PlatformPaths os)) ++ "/installation.json") = false) →
  ¬ mine (p (paths GOOS)).
Proof.
  intros Hp. unfold mine, manifestPath, paths.
  assert (PlatformPaths GOOS = PlatformPaths "darwin" ∨ PlatformPaths GOOS = PlatformPaths "linux") as [E|E].
  { unfold PlatformPaths. destruct (GOOS == "darwin"); [by left|by right]. }
  - rewrite E. specialize (Hp "darwin" (or_introl eq_refl)). by apply bool_decide_eq_false in Hp.
  - rewrite E. specialize (Hp "linux" (or_intror eq_refl)). by apply bool_decide_eq_false in Hp.
Qed.
Lemma not_mine_dirs : ¬ mine (Dir exe) ∧ ¬ mine (Dir svc) ∧ ¬ mine (Dir man) ∧ ¬ mine (man ++ ".lock").
Proof.
  split_and!.
  - by (apply (not_mine (λ p, Dir (PExecutable p))); intros os [->| ->]; vm_compute).
  - by (apply (not_mine (λ p, Dir (PService p))); intros os [->| ->]; vm_compute).
  - by (apply (not_mine (λ p, Dir (Dir (PConfig p) ++ "/installation.json"))); intros os [->| ->]; vm_compute).
  - by (apply (not_mine (λ p, (Dir (PConfig p) ++ "/installation.json") ++ ".lock")); intros os [->| ->]; vm_compute).
Qed.
Lemma spares_prepare_dirs c : apart c → spares mine (prepare_dirs GOOS root_owned c).
Proof.
  intros Hc. destruct not_mine_dirs as (He & Hs & _). unfold prepare_dirs, RootOwned_.
  apply spares_bind.
  - apply spares_each_. intros d Hd. apply spares_bind; [|intros []; by apply spares_query].
    apply spares_MkdirAll; [done|]. apply elem_of_cons in Hd as [->|Hd]; [done|]. by apply list_elem_of_singleton in Hd as ->.
  - intros []. apply spares_bind; [apply spares_PrivateDir; [done|apply Hc]|intros []; by apply spares_query].
Qed.
Lemma spares_read_or_nothing p : spares mine (read_or_nothing p).
Proof. unfold read_or_nothing. auto with spares. Qed.
Lemma spares_backup_old c : apart c → spares mine (backup_old GOOS stamp (@visit) (StateDir (Config.Runtime c))).
Proof.
  intros Hc. unfold backup_old. do 3 (apply spares_bind; [apply spares_read_or_nothing|intros ?]). cbv zeta.
  apply spares_bind; [apply spares_PrivateDir; [done|apply Hc]|intros []].
  apply spares_bind; [|intros []; apply spares_ret]. apply spares_each_. intros [n b] _.
  apply spares_Exclusive; [done|]. apply Hc.
Qed.

(** ** Without faults of the file system *)
Section Sure.
Hypothesis sure : ∀ n, fault n = None.
Hypothesis temp_apart : ∀ s d, ¬ mine (temp_name s d).
Notation H_ P m Q := (hoare (λ _, True) P m Q).
Notation has v := (holds mine v).
Lemma mine_exe : mine exe.
Proof. by left. Qed.
Lemma mine_svc : mine svc.
Proof. by right; left. Qed.
Lemma mine_man : mine man.
Proof. by right; right. Qed.
Lemma three_differ : exe ≠ svc ∧ exe ≠ man ∧ svc ≠ man.
Proof.
  unfold manifestPath, paths, PlatformPaths. destruct (GOOS == "darwin"); (split_and!; intros E; vm_compute in E; discriminate E).
Qed.
Lemma keep {A} v (m : M A) : spares mine m → H_ (has v) m (λ _, has v).
Proof. apply holds_keep. Qed.
Lemma keep_total {A} v (m : M A) : spares mine m → total m → H_ (has v) m (λ r s, has v s ∧ is_ok r = true).
Proof. intros Hm Ht o Ho. destruct (keep v m Hm o Ho) as [? ?]. split; [split; [done|apply Ht]|done]. Qed.
Lemma then_ {A B} (m : M A) (f : A → M B) P R Q :
  H_ P m (λ r s, R s ∧ is_ok r = true) → (∀ a, H_ R (f a) Q) → H_ P (m ≫= f) Q.
Proof. intros Hm Hf. eapply hoare_bind; [exact Hm|by intros e s [_ ?]|]. intros a. apply hoare_pure_r. intros _. apply Hf. Qed.

(** *** The rollback *)
Section Rollback.
Variable v0 : view.
Variable old : option saved.
(** What was saved is what was there. *)
Definition saved_ok : Prop := match old with
  | Some sv => v0 exe = Some (sv_binary sv) ∧ v0 svc = Some (sv_definition sv) ∧ v0 man = Some (sv_manifest sv)
  | None => v0 exe = None ∧ v0 svc = None ∧ v0 man = None
  end.
Hypothesis Hsaved : saved_ok.
Lemma restore_ok (v : view) p b mode :
  mine p → (match old with Some sv => v0 p = Some (b sv) | None => v0 p = None ∧ is_Some (v p) end) →
  H_ (has v) (attempt (restore old p b mode)) (λ r s, has (update v p (v0 p)) s ∧ is_ok r = true).
Proof.
  intros Hp Hv. unfold attempt. eapply (hoare_bind _ _ _ _ (λ x s, has (update v p (v0 p)) s ∧ is_ok x = true));
    [|by intros e s [_ ?]|intros x; apply hoare_ret; by intros s [? _]].
  eapply hoare_try with (R := λ _ s, has (update v p (v0 p)) s); [|by intros r s Hs].
  unfold restore. destruct old as [sv|].
  - rewrite Hv. eapply hoare_conseq; [by apply sure_Atomic|done|by intros r s [_ ?]].
  - destruct Hv as [-> [d Hd]]. eapply hoare_conseq; [by apply (sure_Remove mine alone sure v p)|done|].
    intros r s. rewrite Hd. by intros [_ ?].
Qed.
Lemma rollback_manifest_ok (v : view) :
  H_ (has v) (rollback_manifest GOOS old) (λ r s, has (update v man (v0 man)) s ∧ is_ok r = true).
Proof.
  unfold rollback_manifest. unfold saved_ok in Hsaved. destruct old as [sv|].
  - destruct Hsaved as (_ & _ & ->). unfold attempt.
    eapply hoare_bind with (R := λ x s, has (update v man (Some (sv_manifest sv))) s ∧ is_ok x = true);
      [|by intros e s [_ ?]|intros x; apply hoare_ret; by intros s [? _]].
    eapply hoare_try; [by apply sure_Atomic; try apply mine_man|by intros r s [_ ?]].
  - destruct Hsaved as (_ & _ & ->).
    eapply hoare_bind with (R := λ x s, has (update v man None) s ∧ is_ok x = true);
      [|by intros e s [_ ?]|intros x; apply hoare_ret; by intros s [? _]].
    unfold attempt. eapply hoare_bind with (R := λ x s, has (update v man None) s ∧ is_ok x = true);
      [|by intros e s [_ ?]|intros x; apply hoare_ret; by intros s [? _]].
    eapply hoare_try; [apply (sure_Remove mine alone sure v man mine_man)|].
    intros r s. destruct (v man) as [d|] eqn:E; [by intros [_ ?]|]. intros [_ Hs]. split; [|done].
    eapply holds_ext, Hs. intros q _. unfold update. by destruct (decide (q = man)) as [->|].
Qed.
Definition failed (plan : Plan) (r : result (Plan * str * option error)) (s : fs) : Prop :=
  ∃ t e, r = Ok (plan, t, Some e) ∧ has v0 s.
Lemma rollback_ok plan (v : view) (wroteBin wroteDef : bool) cause :
  (if wroteBin then is_Some (v exe) else v exe = v0 exe) →
  (if wroteDef then is_Some (v svc) else v svc = v0 svc) →
  H_ (has v) (rollback GOOS exec plan old wroteBin wroteDef cause) (failed plan).
Proof.
  intros Hb Hd. destruct three_differ as (Hes & Hem & Hsm). pose proof Hsaved as Hsv. unfold saved_ok in Hsv.
  unfold rollback.
  eapply then_; [apply keep_total; [apply spares_Native|apply total_Native]|intros _].
  set (v1 := if wroteBin then update v exe (v0 exe) else v). eapply (then_ _ _ _ (has v1)).
  { unfold v1. destruct wroteBin; [|apply hoare_ret; by intros s Hs]. apply restore_ok; [apply mine_exe|].
    destruct old; [by destruct Hsv as (? & _)|]. by destruct Hsv as (? & _). }
  intros p1. set (v2 := if wroteDef then update v1 svc (v0 svc) else v1). eapply (then_ _ _ _ (has v2)).
  { unfold v2. destruct wroteDef; [|apply hoare_ret; by intros s Hs]. apply restore_ok; [apply mine_svc|].
    assert (v1 svc = v svc) as Hv1 by (unfold v1; destruct wroteBin; [|done]; unfold update; by rewrite decide_False).
    destruct old; [by destruct Hsv as (_ & ? & _)|]. rewrite Hv1. by destruct Hsv as (_ & ? & _). }
  intros p2. eapply (then_ _ _ _ (has v0)).
  { eapply hoare_conseq; [apply rollback_manifest_ok|done|]. intros r s [Hs Hr]. split; [|done].
    eapply holds_ext, Hs. intros q Hq. unfold update. destruct (decide (q = man)) as [->|Hqm]; [done|].
    destruct Hq as [->|[->|?]]; [| |done].
    - unfold v2, v1. destruct wroteDef, wroteBin; unfold update; rewrite ?decide_True by done;
        rewrite ?(decide_False (P := exe = svc)) by done; rewrite ?decide_True by done; done.
    - unfold v2, v1. destruct wroteDef, wroteBin; unfold update; rewrite ?decide_True by done;
        rewrite ?(decide_False (P := svc = exe)) by done; done. }
  intros p3. eapply (then_ _ _ _ (has v0)).
  { destruct (GOOS == "linux"); [apply keep_total; [apply spares_attempt, spares_must, spares_manager|apply total_attempt]|
      apply hoare_ret; by intros s Hs]. }
  intros p4. eapply (then_ _ _ _ (has v0)).
  { destruct old; [apply keep_total; [apply spares_attempt, spares_must, spares_Native|apply total_attempt]|].
    destruct (GOOS == "linux"); [|apply hoare_ret; by intros s Hs].
    eapply then_; [apply keep_total; [apply spares_manager|apply total_run]|]. intros x. apply hoare_ret. by intros s Hs. }
  intros p5. apply hoare_ret. intros s Hs. by eexists _, _.
Qed.
End Rollback.

(** *** A new installation *)
(** The errors of JSON are not about missing files, and a manifest is read back as written. *)
Hypothesis json_errors : ∀ b e, parse_manifest b = Err e → errors_Is e ErrNotExist = false.
Definition reads_back (path socket : str) : Prop := ∀ plan binary,
  let m := new_manifest GOOS sha plan binary path socket in parse_manifest (manifest_json m) = Ok m.
Section New.
Variables (plan : Plan) (path socket : str) (v0 : view).
Hypothesis json : reads_back path socket.
(** The manifest in place describes the files in place, which are those of the plan. *)
Record described (s : fs) : Prop := {
  de_files : ∃ binary definition text m,
    has (λ q, if decide (q = exe) then Some binary else if decide (q = svc) then Some definition else Some text) s ∧
    parse_manifest text = Ok m ∧ m_ExecutableSHA m = sha binary ∧ m_DefinitionSHA m = sha definition ∧
    sha definition = sha (pl_Definition plan) ∧ m_Config m = path ∧ m_Socket m = socket }.
Definition all_or_nothing (r : result (Plan * str * option error)) (s : fs) : Prop :=
  ∃ p t e, r = Ok (p, t, e) ∧ (described s ∨ (is_Some e ∧ has v0 s)).
Lemma stop_ok p e : H_ (has v0) (stop p e) all_or_nothing.
Proof. apply hoare_ret. intros s Hs. eexists _, _, _. split; [done|]. right. by split. Qed.
Lemma return_ok (v : view) p t e : (∀ s, has v s → described s) → H_ (has v) (mret (p, t, e) : outcome) all_or_nothing.
Proof. intros Hd. apply hoare_ret. intros s Hs. eexists _, _, _. split; [done|]. left. by apply Hd. Qed.
Lemma check_ok {A} p (m : M A) k (R : A → Prop) :
  H_ (has v0) m (λ r s, has v0 s ∧ match r with Ok a => R a | Err _ => True end) →
  (∀ a, R a → H_ (has v0) (k a) all_or_nothing) → H_ (has v0) (check p m k) all_or_nothing.
Proof.
  intros Hm Hk. unfold check.
  eapply hoare_bind with (R := λ x s, has v0 s ∧ match x with Ok (Ok a) => R a | Ok (Err _) => True | Err _ => False end).
  { eapply hoare_try; [exact Hm|by intros [a|e] s]. }
  { by intros e s [_ ?]. }
  intros [a|e]; apply hoare_pure_r; [apply Hk|intros _; apply stop_ok].
Qed.
Lemma check_spares {A} p (m : M A) k :
  spares mine m → (∀ a, H_ (has v0) (k a) all_or_nothing) → H_ (has v0) (check p m k) all_or_nothing.
Proof.
  intros Hm Hk. apply (check_ok _ _ _ (λ _, True)); [|intros a _; apply Hk].
  eapply hoare_conseq; [by apply keep|done|]. intros [a|e] s Hs; done.
Qed.
Lemma undo_spares {A} (v : view) (m : M A) back k Q :
  spares mine m → (∀ e, H_ (has v) (back e) Q) → (∀ a, H_ (has v) (k a) Q) → H_ (has v) (undo m back k) Q.
Proof.
  intros Hm Hb Hk. unfold undo. eapply then_.
  - apply keep_total; [by apply spares_try|apply total_try].
  - intros [a|e]; [apply Hk|apply Hb].
Qed.
Lemma activate_ok (v : view) back :
  (∀ s, has v s → described s) → (∀ e, H_ (has v) (back e) all_or_nothing) →
  H_ (has v) (activate GOOS exec probe ctx_err turns plan socket path back) all_or_nothing.
Proof.
  intros Hd Hb. unfold activate. apply undo_spares; [|exact Hb|intros _].
  { destruct (GOOS == "darwin"); [apply spares_enable|].
    apply spares_bind; [apply spares_must, spares_manager|intros []; apply spares_enable]. }
  apply undo_spares; [apply spares_must, spares_Native|exact Hb|intros _].
  eapply then_; [apply keep_total; [apply spares_try, spares_awaitDaemon|apply total_try]|].
  intros [u|e]; [by apply return_ok|]. destruct (errors_Is e ErrDegraded); [by apply return_ok|apply Hb].
Qed.
Lemma unchanged_ok :
  (∀ s, has v0 s → described s) →
  H_ (has v0) (unchanged GOOS exec probe ctx_err turns plan socket path) all_or_nothing.
Proof.
  intros Hd. unfold unchanged. apply check_spares; [apply spares_enable|intros _].
  apply check_spares; [apply spares_must, spares_Native|intros _].
  eapply then_; [apply keep_total; [apply spares_try, spares_awaitDaemon|apply total_try]|].
  intros [u|e]; by apply return_ok.
Qed.
(** The manifest and the saved files, if there is an installation. *)
Definition old_ok (old : option (Manifest * saved)) : Prop :=
  saved_ok v0 (snd <$> old) ∧
  match old with Some (m, sv) => sha (sv_binary sv) = m_ExecutableSHA m | None => True end.
Lemma failed_all old' r s : failed v0 old' r s → all_or_nothing r s.
Proof. intros (t & e & -> & Hs). eexists _, _, _. split; [done|]. by right. Qed.
Lemma write_files_ok old binary :
  old_ok old →
  H_ (has v0) (write_files GOOS exec probe ctx_err turns manifest_json sha plan old binary path socket) all_or_nothing.
Proof.
  intros [Hsv Hold]. destruct three_differ as (Hes & Hem & Hsm). unfold write_files. cbv zeta.
  set (same := match old with Some (m, _) => m_ExecutableSHA m == sha binary | None => false end).
  set (v1 := if same then v0 else update v0 exe (Some binary)).
  assert (∀ v (m : M unit) v' (back : error → outcome) (k : unit → outcome),
    H_ (has v) m (λ r s, r = Ok tt ∧ has v' s) → H_ (has v') (k tt) all_or_nothing →
    H_ (has v) (undo m back k) all_or_nothing) as Hundo.
  { intros v m v' back k Hm Hk. unfold undo. eapply hoare_bind with (R := λ x s, x = Ok (Ok tt) ∧ has v' s).
    - eapply hoare_try; [exact Hm|]. by intros r s [-> ?].
    - by intros e s [? _].
    - intros x. apply hoare_pure. intros [= ->]. exact Hk. }
  assert (∃ b, v1 exe = Some b ∧ sha b = sha binary ∧ (same = true → v0 exe = Some b)) as (b & Hb & Hsha & Hsame).
  { unfold v1, same. destruct old as [[m sv]|]; [destruct (str_eqb_spec (m_ExecutableSHA m) (sha binary)) as [E|E]|].
    - exists (sv_binary sv). destruct Hsv as (? & _). split_and!; [done|congruence|done].
    - exists binary. unfold update. by rewrite decide_True.
    - exists binary. unfold update. by rewrite decide_True. }
  apply (Hundo _ _ v1).
  { unfold v1. destruct same; [apply hoare_ret; by intros s Hs|]. apply sure_Atomic; first [done|apply mine_exe]. }
  apply (Hundo _ _ (update v1 svc (Some (pl_Definition plan)))).
  { apply sure_Atomic; first [done|apply mine_svc]. }
  set (m := new_manifest GOOS sha plan binary path socket).
  set (v3 := update (update v1 svc (Some (pl_Definition plan))) man (Some (manifest_json m))).
  apply (Hundo _ _ v3).
  { apply sure_Atomic; first [done|apply mine_man]. }
  assert (v3 exe = Some b ∧ v3 svc = Some (pl_Definition plan) ∧ v3 man = Some (manifest_json m)) as (E1 & E2 & E3).
  { unfold v3, update. rewrite !(decide_False (P := exe = man)), !(decide_False (P := exe = svc)),
      !(decide_False (P := svc = man)), !decide_True by done. done. }
  apply activate_ok.
  - intros s Hs. constructor. exists b, (pl_Definition plan), (manifest_json m), m. split_and!; try done.
    + eapply holds_ext, Hs. intros q [->|[->| ->]].
      * by rewrite decide_True.
      * rewrite decide_False, decide_True by done. done.
      * rewrite !decide_False by congruence. done.
    + exact (json plan binary).
  - intros e. eapply hoare_conseq; [apply (rollback_ok v0 (snd <$> old) Hsv plan v3 (negb same) true e)|done|].
    + destruct same eqn:Es; cbn [negb]; [|by eexists]. rewrite E1. symmetry. by apply Hsame.
    + by eexists.
    + intros r s. apply failed_all.
Qed.
Lemma replace_files_ok old binary :
  old_ok old →
  H_ (has v0) (replace_files GOOS exec probe ctx_err turns manifest_json sha plan old binary path socket) all_or_nothing.
Proof.
  intros Ho. unfold replace_files. destruct old as [old|]; [|by apply write_files_ok].
  eapply then_; [apply keep_total; [apply spares_Native|apply total_Native]|]. intros [b [e|]]; [by apply write_files_ok|].
  eapply then_; [apply keep_total; [apply spares_Native|apply total_Native]|]. intros [b' [e|]]; [|by apply write_files_ok].
  apply hoare_ret. intros s Hs. eexists _, _, _. split; [done|]. right. by split.
Qed.
End New.

(** *** The checks before it *)
Section Checks.
Variable v0 : view.
Lemma old_manifest_ok :
  H_ (has v0) (old_manifest GOOS parse_manifest) (λ r s, has v0 s ∧ match r with
    | Ok (Some m) => ∃ b, v0 man = Some b ∧ parse_manifest b = Ok m
    | Ok None => v0 man = None
    | Err _ => True end).
Proof.
  unfold old_manifest. eapply hoare_bind with (R := λ x s, has v0 s ∧ match x with
    | Ok (Ok m) => ∃ b, v0 man = Some b ∧ parse_manifest b = Ok m
    | Ok (Err e) => errors_Is e ErrNotExist = true → v0 man = None
    | Err _ => False end).
  { eapply hoare_try with (R := λ x s, has v0 s ∧ match x with
      | Ok m => ∃ b, v0 man = Some b ∧ parse_manifest b = Ok m
      | Err e => errors_Is e ErrNotExist = true → v0 man = None end); [|by intros [m|e] s].
    unfold readManifest. eapply hoare_bind; [apply (sure_ReadFile mine alone sure v0 man mine_man)| |].
    - intros e s [Hs He]. split; [done|]. by destruct (v0 man).
    - intros b. apply hoare_pure_r. intros Hb. destruct (v0 man) as [b'|]; [|done]. injection Hb as ->.
      apply hoare_bind_lift; [|intros e s He Hs; split; [done|]; intros Hn; by rewrite (json_errors _ _ He) in Hn].
      intros m Hm. apply hoare_bind_lift; [|intros e s [_ <-]%guard_Err Hs; by split].
      intros [] _. apply hoare_ret. intros s Hs. split; [done|]. by exists b'. }
  { by intros e s [_ ?]. }
  intros [m|e]; apply hoare_pure_r; intros Hm; [by apply hoare_ret|].
  destruct (errors_Is e ErrNotExist); [apply hoare_ret; auto|by apply hoare_lift].
Qed.
Definition want (m : Manifest) (t : str) : str := if t == svc then m_DefinitionSHA m else m_ExecutableSHA m.
Definition target_fact (old : option Manifest) (t : str) : Prop :=
  match old with None => v0 t = None | Some m => ∀ b, v0 t = Some b → sha b = want m t end.
Lemma target_ok_spec old t :
  mine t →
  H_ (has v0) (target_ok GOOS sha old t) (λ r s, has v0 s ∧ match r with Ok _ => target_fact old t | Err _ => True end).
Proof.
  intros Ht. unfold target_ok. eapply hoare_bind with (R := λ x s, has v0 s ∧ match x with
    | Ok (Ok _) => is_Some (v0 t) | Ok (Err e) => v0 t = None | Err _ => False end).
  { eapply hoare_try; [apply (sure_query mine alone sure _ v0)|]. intros r s [Hs ->].
    specialize (Hs t Ht) as Hf. destruct (v0 t) as [b|].
    - destruct Hf as (i & Hi & _). rewrite Hi. split; [done|]. by eexists.
    - unfold inode_at. rewrite Hf. split; [done|done]. }
  { by intros e s [_ ?]. }
  intros [i|e]; apply hoare_pure_r; intros Hi.
  - destruct Hi as [b Hb]. destruct old as [m|]; [|by apply hoare_lift]. unfold inspectOwned. fold (want m t).
    eapply hoare_bind with (R := λ _ s, has v0 s); [apply keep; by apply spares_Regular|done|intros []].
    eapply hoare_bind; [by apply (sure_ReadFile mine alone sure v0 t Ht)|by intros e s [? _]|].
    intros d. apply hoare_pure_r. intros Hd. rewrite Hb in Hd. injection Hd as ->. apply hoare_lift.
    intros s Hs. split; [done|]. destruct (str_eqb_spec (sha b) (want m t)) as [E|]; cbn; [|done].
    intros b' Hb'. unfold target_fact in *. congruence.
  - destruct (errors_Is e ErrNotExist); [|by apply hoare_lift]. apply hoare_ret. intros s Hs. split; [done|].
    unfold target_fact. destruct old; [|done]. intros b Hb. congruence.
Qed.
Lemma targets_ok old :
  H_ (has v0) (each_ (target_ok GOOS sha old) [exe; svc]) (λ r s, has v0 s ∧ match r with
    | Ok _ => target_fact old exe ∧ target_fact old svc | Err _ => True end).
Proof.
  cbn [each_]. eapply hoare_bind; [apply target_ok_spec, mine_exe|by intros e s [? _]|]. intros []. apply hoare_pure_r. intros He.
  eapply hoare_bind; [apply target_ok_spec, mine_svc|by intros e s [? _]|]. intros []. apply hoare_pure_r. intros Hs.
  apply hoare_ret. auto.
Qed.
Lemma read_known p b : mine p → v0 p = Some b → H_ (has v0) (read_or_nothing p) (λ r s, has v0 s ∧ r = Ok b).
Proof.
  intros Hp Hb. unfold read_or_nothing. eapply hoare_bind with (R := λ x s, has v0 s ∧ x = Ok (Ok b)).
  { eapply hoare_try; [by apply (sure_ReadFile mine alone sure v0 p Hp)|]. intros r s [? ->]. by rewrite Hb. }
  { by intros e s [_ ?]. }
  intros x. apply hoare_pure_r. intros [= ->]. by apply hoare_ret.
Qed.
Lemma backup_old_ok c be bs bm :
  apart c → v0 exe = Some be → v0 svc = Some bs → v0 man = Some bm →
  H_ (has v0) (backup_old GOOS stamp (@visit) (StateDir (Config.Runtime c)))
    (λ r s, has v0 s ∧ match r with Ok sv => sv = mkSaved be bs bm | Err _ => True end).
Proof.
  intros Hc He Hs Hm. unfold backup_old.
  eapply hoare_bind; [apply (read_known exe be mine_exe He)|by intros e s [? _]|]. intros x. apply hoare_pure_r. intros [= ->].
  eapply hoare_bind; [apply (read_known svc bs mine_svc Hs)|by intros e s [? _]|]. intros x. apply hoare_pure_r. intros [= ->].
  eapply hoare_bind; [apply (read_known man bm mine_man Hm)|by intros e s [? _]|]. intros x. apply hoare_pure_r. intros [= ->].
  cbv zeta. eapply hoare_bind; [apply keep, spares_PrivateDir; [done|apply Hc]|by intros e s ?|intros []].
  eapply hoare_bind; [apply (keep v0), spares_each_; intros [n b] _; apply spares_Exclusive; [done|apply Hc]|by intros e s ?|].
  intros []. by apply hoare_ret.
Qed.
End Checks.

(** ** [Install] *)
Section Install.
Variables (c : Config) (v0 : view).
Hypothesis Hc : apart c.
(** An installation that is there is there with both its files. *)
Hypothesis complete : is_Some (v0 man) → is_Some (v0 exe) ∧ is_Some (v0 svc).
Notation socket := (ControlSocket (Config.Runtime c)).
Lemma install_locked_ok plan path :
  reads_back path socket →
  H_ (has v0) (install_locked GOOS exec probe ctx_err turns manifest_json parse_manifest sha root_owned Executable stamp
    (@visit) c plan path) (all_or_nothing plan path socket v0).
Proof.
  intros json. unfold install_locked. eapply check_ok; [apply old_manifest_ok|]. intros old Hold.
  eapply check_ok; [apply targets_ok|]. intros [] [He Hs].
  apply check_spares; [apply spares_lift|intros self]. apply check_spares; [by apply spares_ReadFile|intros binary].
  eapply then_; [apply keep_total; [apply spares_try, probe_spares|apply total_try]|]. intros x.
  destruct (_ && _); [apply stop_ok|]. apply check_spares; [by apply spares_prepare_dirs|intros _].
  destruct old as [m|].
  - destruct Hold as (bm & Hbm & Hm). destruct complete as [[be Hbe] [bs Hbs]]; [by rewrite Hbm|].
    pose proof (He be Hbe) as He'. pose proof (Hs bs Hbs) as Hs'. unfold want in He', Hs'.
    rewrite str_eqb_refl in Hs'. destruct (str_eqb_spec exe svc) as [E|_]; [destruct three_differ; done|].
    destruct (same_installation _ _ _ _ _ _) eqn:Hsame.
    + unfold same_installation in Hsame. bools. apply (unchanged_ok plan path socket v0). intros s Hv. constructor.
      exists be, bs, bm, m. split_and!; try congruence. eapply holds_ext, Hv. intros q [->|[->| ->]].
      * by rewrite decide_True.
      * destruct three_differ as (? & _). rewrite decide_False, decide_True by done. done.
      * destruct three_differ as (_ & ? & ?). rewrite !decide_False by congruence. done.
    + eapply check_ok; [by apply (backup_old_ok v0 c be bs bm)|]. intros sv ->.
      apply replace_files_ok; [exact json|]. split; [done|]. cbn [sv_binary]. congruence.
  - apply replace_files_ok; [exact json|]. split; [|done]. by split_and!.
Qed.
Lemma Install_ok path :
  (∀ abs, Abs path = Ok abs → reads_back abs socket) →
  H_ (has v0) (Install GOOS exec probe ctx_err turns manifest_json parse_manifest sha Abs eval_links root_owned Executable stamp
    (@visit) c path false)
    (λ r s, ∃ plan abs, Abs path = Ok abs ∧ Generate GOOS (paths GOOS) c abs = Ok plan ∧ all_or_nothing plan abs socket v0 r s ∨
       ∃ p t e, r = Ok (p, t, Some e) ∧ has v0 s).
Proof.
  intros json. unfold Install. destruct (Abs path) as [abs|e] eqn:Ea.
  2:{ apply hoare_ret. intros s Hs. exists no_plan, []. right. by eexists _, _, _. }
  destruct (Generate GOOS (paths GOOS) c abs) as [plan|e] eqn:Eg.
  2:{ apply hoare_ret. intros s Hs. exists no_plan, []. right. by eexists _, _, _. }
  assert (∀ m : outcome, H_ (has v0) m (all_or_nothing plan abs socket v0) → H_ (has v0) m (λ r s, ∃ plan0 abs0,
    Ok abs = Ok abs0 ∧ Generate GOOS (paths GOOS) c abs0 = Ok plan0 ∧ all_or_nothing plan0 abs0 socket v0 r s ∨
    ∃ p t e, r = Ok (p, t, Some e) ∧ has v0 s)) as Hwrap.
  { intros m Hm. eapply hoare_conseq; [exact Hm|done|]. intros r s Hr. exists plan, abs. by left. }
  apply Hwrap. clear Hwrap. destruct (negb _); [apply stop_ok|].
  destruct not_mine_dirs as (_ & _ & Hd & Hl).
  apply check_spares; [apply spares_tool|intros _].
  apply check_spares; [|intros _].
  { apply spares_each_. intros f _. unfold at_boot, RootOwned_. auto 10 with spares. }
  apply check_spares; [by apply spares_PrivateDir|intros _].
  apply (check_ok _ _ _ _ _ _ _ (λ u, spares mine u)).
  { intros o Ho. destruct (keep v0 _ (spares_Lock alone mine _ Hl) o Ho) as [Hv Ht]. split; [|done]. split; [done|].
    destruct (Lock (man ++ ".lock") o).1 as [u|] eqn:E; [|done]. by eapply Lock_unlock. }
  intros u Hu. eapply hoare_finally; [by apply install_locked_ok, json|]. intros r.
  eapply hoare_spares; [exact Hu| |done]. intros s s' (p & t & e & -> & Hcase) Hsame.
  eexists _, _, _. split; [done|]. destruct Hcase as [[(b & d & x & m & Hv & Hrest)]|[He Hv]].
  - left. constructor. exists b, d, x, m. split; [by eapply holds_same|done].
  - right. split; [done|]. by eapply holds_same.
Qed.
End Install.

(** ** An installation without its definition *)
Section Half.
Variables (v0 : view) (text : str) (m : Manifest).
Hypothesis Htext : v0 man = Some text.
Hypothesis Hparse : parse_manifest text = Ok m.
Hypothesis Hours : m_Version m = 1 ∧ m_Executable m = exe ∧ m_DefinitionPath m = svc.
Hypothesis Hgone : v0 svc = None.
Hypothesis visited : ∀ A (l : list A), visit l ≡ₚ l.
Lemma readManifest_ok : H_ (has v0) (readManifest GOOS parse_manifest) (λ r s, has v0 s ∧ r = Ok m).
Proof.
  destruct Hours as (Ev & Ee & Ed). unfold readManifest.
  eapply hoare_bind; [by apply (sure_ReadFile mine alone sure v0 man mine_man)| |].
  { intros e s [_ He]. rewrite Htext in He. done. }
  intros b. apply hoare_pure_r. intros Hb. rewrite Htext in Hb. injection Hb as ->. rewrite Hparse.
  apply hoare_bind_lift; [intros m' [= <-]|done]. rewrite Ev, Ee, Ed, !str_eqb_refl.
  apply hoare_bind_lift; [|done]. intros [] _. by apply hoare_ret.
Qed.
Lemma inspect_gone want : H_ (has v0) (inspectOwned sha svc want) (λ r s, has v0 s ∧ is_ok r = false).
Proof.
  unfold inspectOwned. eapply hoare_bind with (R := λ r s, has v0 s ∧ is_ok r = false); [|by intros e s|].
  2:{ intros []. by apply hoare_pure_r. }
  unfold Regular. eapply hoare_bind; [apply (sure_query mine alone sure _ v0)|by intros e s [? _]|].
  intros i o [Hs Hi]. exfalso. specialize (Hs svc mine_svc). rewrite Hgone in Hs.
  unfold inode_at in Hi. by rewrite Hs in Hi.
Qed.
Lemma inspection_fails l :
  svc ∈ l.*1 → H_ (has v0) (each_ (λ ph, inspectOwned sha ph.1 ph.2) l) (λ r s, has v0 s ∧ is_ok r = false).
Proof.
  induction l as [|[p h] l IH]; intros Hin; [by apply not_elem_of_nil in Hin|]. cbn [each_ fst snd].
  destruct (decide (p = svc)) as [->|Hne].
  - eapply hoare_bind; [apply inspect_gone|by intros e s|]. intros []. by apply hoare_pure_r.
  - eapply hoare_bind with (R := λ _, has v0); [apply keep; unfold inspectOwned; auto 10 with spares|by intros e s|].
    intros []. apply IH. cbn [fmap list_fmap fst] in Hin. apply elem_of_cons in Hin as [?|Hin]; [congruence|done].
Qed.
Lemma Uninstall_fails :
  H_ (λ s, has v0 s ∧ is_Some (follow 40 s (Dir man))) (Uninstall GOOS exec probe parse_manifest sha (@visit) false)
    (λ r s, has v0 s ∧ ∃ e, r = Ok ([], Some e)).
Proof.
  assert (∀ e, H_ (has v0) (refuse e) (λ r s, has v0 s ∧ ∃ e, r = Ok ([], Some e))) as Hrefuse.
  { intros e. apply hoare_ret. intros s Hs. split; [done|by eexists]. }
  assert (∀ A (n : M A) k (R : A → Prop),
    H_ (has v0) n (λ r s, has v0 s ∧ match r with Ok a => R a | Err _ => True end) →
    (∀ a, R a → H_ (has v0) (k a) (λ r s, has v0 s ∧ ∃ e, r = Ok ([], Some e))) →
    H_ (has v0) (ask n k) (λ r s, has v0 s ∧ ∃ e, r = Ok ([], Some e))) as Hask.
  { intros A n k R Hn Hk. unfold ask.
    eapply hoare_bind with (R := λ x s, has v0 s ∧ match x with Ok (Ok a) => R a | Ok (Err _) => True | Err _ => False end).
    { eapply hoare_try; [exact Hn|by intros [a|e] s]. }
    { by intros e s [_ ?]. }
    intros [a|e]; apply hoare_pure_r; [apply Hk|intros _; apply Hrefuse]. }
  unfold Uninstall. destruct (negb (euid =? 0)) eqn:Eu; [intros o [Hs _]; by apply Hrefuse|].
  eapply hoare_bind with (R := λ x s, has v0 s ∧ ∃ y, x = Ok (Ok y)).
  { eapply hoare_try with (R := λ x s, has v0 s ∧ ∃ y, x = Ok y); [|by intros r s [? [y ->]]; split; [|eexists]].
    apply hoare_syscall_sure; [done|done|]. intros s [Hs [y Hy]]. cbn [fst snd]. rewrite Hy. split; [done|by eexists]. }
  { by intros e s [_ [? ?]]. }
  intros x. apply hoare_pure_r. intros [y [= ->]]. destruct not_mine_dirs as (_ & _ & _ & Hl).
  apply (Hask _ _ _ (λ u, spares mine u)).
  { intros o Ho. destruct (keep v0 _ (spares_Lock alone mine _ Hl) o Ho) as [Hv Ht]. split; [|done]. split; [done|].
    destruct (Lock (man ++ ".lock") o).1 as [u|] eqn:E; [|done]. by eapply Lock_unlock. }
  intros u Hu. eapply hoare_finally.
  2:{ intros r. eapply hoare_spares; [exact Hu| |done]. intros s s' [Hs Hr] Hsame. split; [by eapply holds_same|exact Hr]. }
  unfold uninstall_locked. eapply hoare_bind with (R := λ x s, has v0 s ∧ x = Ok (Ok m)).
  { eapply hoare_try; [apply readManifest_ok|]. by intros r s [? ->]. }
  { by intros e s [_ ?]. }
  intros x. apply hoare_pure_r. intros [= ->]. rewrite Eu. unfold uninstall_owned. apply (Hask _ _ _ (λ _, False)); [|done].
  eapply hoare_conseq; [apply inspection_fails|done|by intros [[]|e] s [? ?]].
  rewrite (Permutation_map fst (visited _ _)). destruct Hours as (_ & -> & ->). cbn. right. left.
Qed.
Variables (c : Config) (path abs : str) (plan : Plan) (binary : str).
Hypothesis Hc : apart c.
Hypothesis Habs : Abs path = Ok abs.
Hypothesis Hplan : Generate GOOS (paths GOOS) c abs = Ok plan.
Hypothesis Hself : Executable = Ok exe.
Hypothesis Hbinary : v0 exe = Some binary.
Hypothesis Hsame : same_installation sha m plan binary abs (ControlSocket (Config.Runtime c)) = true.
Lemma Install_keeps :
  H_ (has v0) (Install GOOS exec probe ctx_err turns manifest_json parse_manifest sha Abs eval_links root_owned Executable stamp
    (@visit) c path false) (λ _, has v0).
Proof.
  assert (∀ A p (n : M A) k, spares mine n → (∀ a, H_ (has v0) (k a) (λ _, has v0)) →
    H_ (has v0) (check p n k) (λ _, has v0)) as Hcheck.
  { intros A p n k Hn Hk. unfold check. eapply hoare_bind with (R := λ _, has v0); [by apply keep, spares_try|done|].
    intros [a|e]; [apply Hk|by apply hoare_ret]. }
  unfold Install. rewrite Habs, Hplan. destruct (negb _); [by apply hoare_ret|].
  destruct not_mine_dirs as (_ & _ & Hd & Hl).
  apply Hcheck; [apply spares_tool|intros _]. apply Hcheck; [|intros _].
  { apply spares_each_. intros f _. unfold at_boot, RootOwned_. auto 10 with spares. }
  apply Hcheck; [by apply spares_PrivateDir|intros _]. unfold check at 1.
  eapply hoare_bind with (R := λ x s, has v0 s ∧ match x with Ok (Ok u) => spares mine u | _ => True end).
  { intros o Ho. destruct (keep v0 _ (spares_try _ _ (spares_Lock alone mine _ Hl)) o Ho) as [Hv Ht]. split; [|done]. split; [done|].
    unfold try. destruct (Lock (man ++ ".lock") o) as [[u|e] o'] eqn:E; cbn [fst]; [|done]. eapply (Lock_unlock alone mine _ o). by rewrite E. }
  { by intros e s [? _]. }
  intros [u|e]; apply hoare_pure_r; [|intros _; by apply hoare_ret]. intros Hu.
  eapply hoare_finally with (R := λ _, has v0); [|intros r; eapply hoare_spares; [exact Hu|apply holds_same|done]].
  unfold install_locked. unfold check at 1. unfold old_manifest.
  eapply hoare_bind with (R := λ x s, has v0 s ∧ x = Ok (Ok (Some m))).
  { eapply hoare_try with (R := λ x s, has v0 s ∧ x = Ok (Some m)); [|by intros r s [? ->]].
    eapply hoare_bind with (R := λ x s, has v0 s ∧ x = Ok (Ok m)).
    { eapply hoare_try; [apply readManifest_ok|]. by intros r s [? ->]. }
    { by intros e s [_ ?]. }
    intros x. apply hoare_pure_r. intros [= ->]. by apply hoare_ret. }
  { by intros e s [_ ?]. }
  intros x. apply hoare_pure_r. intros [= ->].
  apply Hcheck; [apply spares_each_; intros t _; unfold target_ok, inspectOwned, Lstat, fail; auto 10 with spares|intros _].
  rewrite Hself. unfold check at 1. eapply hoare_bind with (R := λ x s, has v0 s ∧ x = Ok (Ok exe)).
  { eapply hoare_try with (R := λ x s, has v0 s ∧ x = Ok exe); [by apply hoare_lift|]. by intros r s [? ->]. }
  { by intros e s [_ ?]. }
  intros x. apply hoare_pure_r. intros [= ->]. unfold check at 1.
  eapply hoare_bind with (R := λ x s, has v0 s ∧ x = Ok (Ok binary)).
  { eapply hoare_try; [apply (sure_ReadFile mine alone sure v0 exe mine_exe)|]. intros r s [? ->]. by rewrite Hbinary. }
  { by intros e s [_ ?]. }
  intros x. apply hoare_pure_r. intros [= ->].
  eapply then_; [apply keep_total; [apply spares_try, probe_spares|apply total_try]|]. intros x.
  destruct (_ && _); [by apply hoare_ret|]. apply Hcheck; [by apply spares_prepare_dirs|intros _]. rewrite Hsame.
  unfold unchanged. apply Hcheck; [apply spares_enable|intros _]. apply Hcheck; [apply spares_must, spares_Native|intros _].
  eapply then_; [apply keep_total; [apply spares_try, spares_awaitDaemon|apply total_try]|].
  intros [? |?]; by apply hoare_ret.
Qed.
End Half.
End Sure.

(** ** Files that are not the program's

    Now calls may fail. *)
Section Foreign.
Hypothesis real : honest.
Variable s0 : fs.
Notation kept := (same_at mine s0).
(** A target that is there without a manifest, or is not the file the manifest describes. *)
Definition theirs (t : str) : Prop :=
  is_Some (dents s0 !! t) ∧
  (dents s0 !! man = None ∨
   ∃ i j, inode_at s0 man = Some i ∧ i_type i = FRegular ∧ inode_at s0 t = Some j ∧
     (i_type j = FRegular → ∀ m, parse_manifest (i_data i) = Ok m → sha (i_data j) ≠ want m t)).
Lemma at_each {A} (m : M A) P Q : (∀ s1, P s1 → hoare kept (λ s, s = s1) m Q) → hoare kept P m Q.
Proof. intros Hm o Ho. by apply (Hm (sys o) Ho o). Qed.
Lemma same_at_regular s1 q i : kept s1 → mine q → inode_at s0 q = Some i → i_type i = FRegular → read_file s1 q = Ok (i_data i).
Proof. intros Hs Hq Hi Ht. apply read_file_regular; [|done]. by eapply same_at_inode. Qed.
(** What a manifest that could be read says. *)
Definition manifest_fact (old : option Manifest) : Prop :=
  match old with
  | Some m => is_Some (dents s0 !! man) ∧ ∀ i, inode_at s0 man = Some i → i_type i = FRegular → parse_manifest (i_data i) = Ok m
  | None => True
  end.
Lemma manifest_read :
  hoare kept kept (old_manifest GOOS parse_manifest) (λ r s, kept s ∧ match r with Ok old => manifest_fact old | Err _ => True end).
Proof.
  apply at_each. intros s1 Hs1. unfold old_manifest. eapply hoare_bind with (R := λ x s, kept s ∧ match x with
    | Ok (Ok m) => manifest_fact (Some m) | Ok (Err _) => True | Err _ => False end).
  { eapply hoare_try with (R := λ x s, kept s ∧ match x with
      | Ok m => manifest_fact (Some m) | Err _ => True end); [|by intros [m|e] s].
    unfold readManifest. eapply hoare_bind; [by apply hoare_ReadFile|by intros e s [-> _]|].
    intros b. apply hoare_pure_r. intros Hb. apply hoare_bind_lift; [|by intros e s _ ->].
    intros m Hm. apply hoare_bind_lift; [|by intros e s _ ->].
    intros [] _. apply hoare_ret. intros s ->. split; [done|]. split.
    - destruct (dents s0 !! man) eqn:E; [by eexists|]. exfalso. unfold read_file in Hb. cbn [follow] in Hb.
      by rewrite (proj1 (Hs1 man mine_man)), E in Hb.
    - intros i Hi Ht. rewrite (same_at_regular s1 man i) in Hb by (done || apply mine_man). by injection Hb as <-. }
  { by intros e s [_ ?]. }
  intros [m|e]; apply hoare_pure_r; intros Hm; [by apply hoare_ret|].
  destruct (errors_Is e ErrNotExist); [by apply hoare_ret|by apply hoare_lift].
Qed.
Lemma target_refused t old :
  mine t → theirs t → manifest_fact old →
  hoare kept kept (target_ok GOOS sha old t) (λ r s, kept s ∧ is_ok r = false).
Proof.
  intros Ht [[n Hn] Hcase] Hold. apply at_each. intros s1 Hs1. unfold target_ok.
  eapply hoare_bind with (R := λ x s, s = s1 ∧ match x with
    | Ok (Ok _) => True | Ok (Err e) => errors_Is e ErrNotExist = false | Err _ => False end).
  { eapply hoare_try with (R := λ x s, s = s1 ∧ match x with
      | Ok _ => True | Err e => errors_Is e ErrNotExist = false end); [|by intros [i|e] s].
    apply hoare_query_fault; [done|by intros s ->| |].
    - intros s ->. split; [done|]. destruct (inode_at s1 t); [done|]. cbn [of_option]. unfold missing.
      by rewrite (proj1 (Hs1 t Ht)), Hn.
    - intros s k e -> He. split; [done|]. by eapply real. }
  { by intros e s [_ ?]. }
  intros [i|e]; apply hoare_pure_r; intros He; [clear He|rewrite He; by apply hoare_lift; intros s ->].
  destruct old as [m|]; [|by apply hoare_lift; intros s ->]. destruct Hold as [[k Hk] Hm].
  destruct Hcase as [Hno|(i' & j & Hi & Hit & Hj & Hne)]; [congruence|]. specialize (Hm i' Hi Hit).
  unfold inspectOwned. fold (want m t). eapply hoare_bind; [by apply hoare_Regular|by intros e s [-> _]|].
  intros []. apply hoare_pure_r. intros (j' & Hj' & Hjt).
  assert (j' = j) as -> by (pose proof (same_at_inode _ _ _ _ _ Hs1 Ht Hj); congruence).
  eapply hoare_bind; [by apply hoare_ReadFile|by intros e s [-> _]|]. intros d. apply hoare_pure_r. intros Hd.
  rewrite (same_at_regular s1 t j) in Hd by done. injection Hd as <-. apply hoare_lift. intros s ->. split; [done|].
  specialize (Hne Hjt m Hm). by destruct (str_eqb_spec (sha (i_data j)) (want m t)).
Qed.
Lemma stays {A} (m : M A) : spares mine m → hoare kept kept m (λ _, kept).
Proof.
  intros Hm. eapply hoare_spares; [exact Hm| |done]. intros s s' Hs Hs'. exact (same_at_trans _ _ _ _ Hs Hs').
Qed.
Lemma spares_target_ok old t : spares mine (target_ok GOOS sha old t).
Proof. unfold target_ok, inspectOwned, Lstat, fail. auto 10 with spares. Qed.
Definition refused (r : result (Plan * str * option error)) (s : fs) : Prop :=
  kept s ∧ ∃ p t e, r = Ok (p, t, Some e).
Lemma stop_refused p e : hoare kept kept (stop p e) refused.
Proof. apply hoare_ret. intros s Hs. split; [done|by eexists _, _, _]. Qed.
Lemma check_refused {A} p (m : M A) k (R : A → Prop) :
  hoare kept kept m (λ r s, kept s ∧ match r with Ok a => R a | Err _ => True end) →
  (∀ a, R a → hoare kept kept (k a) refused) → hoare kept kept (check p m k) refused.
Proof.
  intros Hm Hk. unfold check.
  eapply hoare_bind with (R := λ x s, kept s ∧ match x with Ok (Ok a) => R a | Ok (Err _) => True | Err _ => False end).
  { eapply hoare_try; [exact Hm|by intros [a|e] s]. }
  { by intros e s [_ ?]. }
  intros [a|e]; apply hoare_pure_r; [apply Hk|intros _; apply stop_refused].
Qed.
Lemma check_stays {A} p (m : M A) k :
  spares mine m → (∀ a, hoare kept kept (k a) refused) → hoare kept kept (check p m k) refused.
Proof.
  intros Hm Hk. apply (check_refused _ _ _ (λ _, True)); [|intros a _; apply Hk].
  eapply hoare_conseq; [by apply stays|done|by intros [a|e] s].
Qed.
Lemma locked_refused c plan path :
  theirs exe ∨ theirs svc →
  hoare kept kept (install_locked GOOS exec probe ctx_err turns manifest_json parse_manifest sha root_owned Executable stamp
    (@visit) c plan path) refused.
Proof.
  intros Hth. unfold install_locked. apply (check_refused _ _ _ manifest_fact); [apply manifest_read|]. intros old Hold.
  apply (check_refused _ _ _ (λ _, False)); [|done]. cbn [each_].
  assert (∀ Q, Q = (λ (r : result unit) s, kept s ∧ match r with Ok _ => False | Err _ => True end) →
    ∀ t, mine t → theirs t → hoare kept kept (target_ok GOOS sha old t) Q) as Hno.
  { intros Q -> t Ht Hx. eapply hoare_conseq; [by apply target_refused|done|]. by intros [[]|e] s [? ?]. }
  destruct Hth as [Hx|Hx].
  - eapply hoare_bind; [by apply (Hno _ eq_refl); [apply mine_exe|]|by intros e s|]. intros []. by apply hoare_pure_r.
  - eapply hoare_bind; [by apply stays, spares_target_ok|by intros e s|]. intros [].
    eapply hoare_bind; [by apply (Hno _ eq_refl); [apply mine_svc|]|by intros e s|]. intros []. by apply hoare_pure_r.
Qed.
End Foreign.

(** ** Properties *)
Notation Install_ := (Install GOOS exec probe ctx_err turns manifest_json parse_manifest sha Abs eval_links root_owned
  Executable stamp (@visit)).
Notation Uninstall_ := (Uninstall GOOS exec probe parse_manifest sha (@visit)).

(** C38: A file that is not the program's is never touched. If there is something where the
    program or the service definition belongs, and there is no manifest, or it is not the
    file that the manifest describes, then [Install] fails, and none of the three files
    has changed at any moment, whichever calls fail. *)
Theorem Install_spares_foreign_files c path o x o' :
  honest → theirs (sys o) exe ∨ theirs (sys o) svc → trace o = [] →
  Install_ c path false o = (x, o') →
  (∃ p t e, x = Ok (p, t, Some e)) ∧ Forall (same_at mine (sys o)) (states o').
Proof.
  intros real Hth Ht E. set (s0 := sys o) in *.
  assert (hoare (same_at mine s0) (same_at mine s0) (Install_ c path false) (refused s0)) as Hh.
  { unfold Install. destruct (Abs path) as [abs|e]; [|apply stop_refused].
    destruct (Generate GOOS (paths GOOS) c abs) as [plan|e]; [|apply stop_refused].
    destruct (negb _); [apply stop_refused|]. destruct not_mine_dirs as (_ & _ & Hd & Hl).
    apply check_stays; [apply spares_tool|intros _]. apply check_stays; [|intros _].
    { apply spares_each_. intros f _. unfold at_boot, RootOwned_. auto 10 with spares. }
    apply check_stays; [by apply spares_PrivateDir|intros _].
    apply (check_refused _ _ _ _ (λ u, spares mine u)).
    { intros o1 Ho. destruct (stays s0 _ (spares_Lock alone mine _ Hl) o1 Ho) as [Hv Htr]. split; [|done]. split; [done|].
      destruct (Lock (man ++ ".lock") o1).1 as [u|] eqn:El; [|done]. by eapply Lock_unlock. }
    intros u Hu. eapply hoare_finally; [by apply locked_refused|]. intros r.
    eapply hoare_spares; [exact Hu| |by intros s [? _]]. intros s s' [Hs Hr] Hsame. split; [|done].
    exact (same_at_trans _ _ _ _ Hs Hsame). }
  destruct (Hh o) as [[Hs Hx] Htr]; [done|]. rewrite E in *. cbn [fst snd] in *. split; [done|].
  apply Forall_cons. split; [done|]. apply Htr. rewrite Ht. by apply Forall_nil.
Qed.


(** C39: A removal that stops halfway is final. [Uninstall] removes the definition first; if it
    is gone and the manifest and the program are still there, every [Uninstall] fails, and
    [Install] of the same program for the same configuration finds nothing to do: neither
    brings the definition back nor removes the rest. *)
Theorem half_removed_is_stuck c path abs plan m text binary v o :
  (∀ n, fault n = None) → (∀ A (l : list A), visit l ≡ₚ l) →
  v man = Some text → parse_manifest text = Ok m →
  m_Version m = 1 → m_Executable m = exe → m_DefinitionPath m = svc →
  v svc = None → v exe = Some binary → holds mine v (sys o) → is_Some (follow 40 (sys o) (Dir man)) →
  apart c → Abs path = Ok abs → Generate GOOS (paths GOOS) c abs = Ok plan → Executable = Ok exe →
  same_installation sha m plan binary abs (ControlSocket (Config.Runtime c)) = true →
  (∃ e, (Uninstall_ false o).1 = Ok ([], Some e)) ∧ holds mine v (sys (Uninstall_ false o).2) ∧
  holds mine v (sys (Install_ c path false o).2).
Proof.
  intros sure Hp Ht Hm E1 E2 E3 Hg Hb Hv Hdir Hc Ha Hpl Hx Hs.
  destruct (Uninstall_fails sure v text m Ht Hm (conj E1 (conj E2 E3)) Hg Hp o (conj Hv Hdir)) as [[HU Hr] _].
  split; [exact Hr|]. split; [exact HU|].
  exact (proj1 (Install_keeps sure v text m Ht Hm (conj E1 (conj E2 E3)) c path abs plan binary Hc Ha Hpl Hx Hb Hs o Hv)).
Qed.
End Safety.

(** ** Witnesses

    A machine with systemd on which [/opt/utlsproxy] is run to install the service; the
    daemon answers once the manifest is there. *)
#[local] Existing Instance no_faults.
Definition demo_paths : Paths := PlatformPaths "linux".
Definition demo_man : str := manifestPath "linux".
Definition demo_config : Config := Defaults "linux".
Definition demo_path : str := PConfig demo_paths.
Definition demo_sha (b : str) : str := take 1 (b ++ [chr 48]).
Definition demo_json (m : Manifest) : str := m_ExecutableSHA m ++ m_DefinitionSHA m ++ m_Config m.
Definition demo_parse (b : str) : result Manifest := Ok
  (mkManifest 1 (PExecutable demo_paths) (take 1 b) (PService demo_paths) (take 1 (drop 1 b)) (drop 2 b)
     (ControlSocket (Config.Runtime demo_config))).
Definition demo_exec : str → list str → M (str * option error) := λ _ _, mret ([], None).
Definition demo_probe : str → M DaemonStatus := λ _, _ ← ReadFile demo_man; mret (mkDaemon demo_path "ready" []).
Definition demo_done : M (option error) := mret None.
Definition demo_here (b : str) : inode := mkInode FRegular 493 0 0 b true [].
Definition demo_machine (exe svc man : option str) : fs :=
  let add p n (b : option str) (s : fs) := match b with
    | Some b => mkFs (<[p := n]> (dents s)) (ddents s) (<[n := demo_here b]> (inodes s)) (locks s) | None => s end in
  add (PExecutable demo_paths) 10 exe (add (PService demo_paths) 11 svc (add demo_man 12 man
    (mkFs {["/usr/bin/systemctl" : str := 1; "/opt/utlsproxy" : str := 2; Dir demo_man := 3]} ∅
       {[1 := demo_here "systemctl"; 2 := demo_here "program"; 3 := mkInode FDir 448 0 0 [] true []]} ∅))).
Definition demo_view (exe svc man : option str) : view := λ q,
  if decide (q = PExecutable demo_paths) then exe else if decide (q = PService demo_paths) then svc else man.
Definition no_check : fs → str → result unit := λ _ _, Ok tt.
Definition demo_install (self : str) (s : fs) : result (Plan * str * option error) * os :=
  @Install no_faults "linux" demo_exec demo_probe demo_done 5 demo_json demo_parse demo_sha Ok (λ _, Ok) no_check (Ok self)
    "20240101" (λ _ l, l) demo_config demo_path false (mkOs s 0 []).
Definition demo_uninstall (s : fs) : result (str * option error) * os :=
  @Uninstall no_faults "linux" demo_exec demo_probe demo_parse demo_sha (λ _ l, l) false (mkOs s 0 []).
Lemma service_quiet : @quiet no_faults.
Proof. by intros k s. Qed.
Lemma demo_exec_spares bin args : spares (mine "linux") (demo_exec bin args).
Proof. apply spares_ret. Qed.
Lemma demo_exec_total bin args : total (demo_exec bin args).
Proof. apply total_ret. Qed.
Lemma demo_probe_spares socket : spares (mine "linux") (demo_probe socket).
Proof. apply spares_bind; [apply spares_ReadFile, service_quiet|]. intros b. apply spares_ret. Qed.
Lemma demo_done_spares : spares (mine "linux") demo_done.
Proof. apply spares_ret. Qed.
Lemma service_apart : apart "linux" "20240101" demo_config.
Proof. split; [|..|intros name]; intros [E|[E|E]]; vm_compute in E; discriminate E. Qed.
Lemma demo_temp s d : ¬ mine "linux" (@temp_name no_faults s d).
Proof.
  assert (last (@temp_name no_faults s d) = Some (chr 48)) as Hl.
  { cbn [temp_name no_faults demo_kernel]. unfold long_name. rewrite replicate_S_end.
    rewrite app_assoc. apply last_snoc. }
  intros [E|[E|E]]; rewrite E in Hl; vm_compute in Hl; discriminate Hl.
Qed.
Lemma demo_reads_back abs :
  Ok demo_path = Ok abs → reads_back "linux" demo_json demo_parse demo_sha abs (ControlSocket (Config.Runtime demo_config)).
Proof.
  intros [= <-] plan binary. unfold demo_json, demo_parse, new_manifest, demo_sha. cbv zeta.
  cbn [m_ExecutableSHA m_DefinitionSHA m_Config]. destruct binary as [|b binary], (pl_Definition plan) as [|d def]; reflexivity.
Qed.
Lemma demo_holds exe svc man : holds (mine "linux") (demo_view exe svc man) (demo_machine exe svc man).
Proof.
  intros q [->|[->| ->]]; destruct exe, svc, man; vm_compute; first [reflexivity | eexists; split; [reflexivity|by split]].
Qed.
Definition fresh_machine : fs := demo_machine None None None.
Definition demo_fresh : result (Plan * str * option error) * os := demo_install "/opt/utlsproxy" fresh_machine.
(** It is installed. *)
Example demo_fresh_installed :
  option_map (λ i, i_data i) (inode_at (sys demo_fresh.2) (PExecutable demo_paths)) = Some ("program" : str) ∧
  demo_fresh.1 = Ok (match Generate "linux" demo_paths demo_config demo_path with Ok p => p | Err _ => no_plan end,
                     "installed, enabled at boot, and running" : str, None).
Proof. vm_compute. split; reflexivity. Qed.
Definition demo_foreign : result (Plan * str * option error) * os :=
  demo_install "/opt/utlsproxy" (demo_machine (Some ("mine" : str)) None None).
Lemma Install_spares_foreign_files_witness :
  (∃ p t e, demo_foreign.1 = Ok (p, t, Some e)) ∧
  Forall (same_at (mine "linux") (demo_machine (Some ("mine" : str)) None None)) (states demo_foreign.2).
Proof.
  refine (@Install_spares_foreign_files no_faults "linux" demo_exec demo_probe demo_done 5 demo_json demo_parse demo_sha Ok
    (λ _, Ok) no_check (Ok ("/opt/utlsproxy" : str)) "20240101" (λ _ l, l) service_quiet demo_config demo_path
    (mkOs (demo_machine (Some ("mine" : str)) None None) 0 []) demo_foreign.1 demo_foreign.2 _ _ eq_refl (surjective_pairing _)).
  - intros n e E. discriminate E.
  - left. split; [eexists; vm_compute; reflexivity|left; vm_compute; reflexivity].
Defined.
Definition demo_plan : Plan := match Generate "linux" demo_paths demo_config demo_path with Ok p => p | Err _ => no_plan end.
Definition demo_manifest : Manifest :=
  new_manifest "linux" demo_sha demo_plan "program" demo_path (ControlSocket (Config.Runtime demo_config)).
Definition half_removed : fs := demo_machine (Some ("program" : str)) None (Some (demo_json demo_manifest)).
Lemma half_removed_is_stuck_witness :
  (∃ e, (demo_uninstall half_removed).1 = Ok ([], Some e)) ∧
  dents (sys (demo_install (PExecutable demo_paths) half_removed).2) !! PService demo_paths = None.
Proof.
  destruct (@half_removed_is_stuck no_faults "linux" demo_exec demo_probe demo_done 5 demo_json demo_parse demo_sha Ok
    (λ _, Ok) no_check (Ok (PExecutable demo_paths)) "20240101" (λ _ l, l) service_quiet demo_exec_spares demo_probe_spares
    demo_done_spares demo_config demo_path demo_path demo_plan demo_manifest (demo_json demo_manifest) "program"
    (demo_view (Some ("program" : str)) None (Some (demo_json demo_manifest))) (mkOs half_removed 0 [])) as (HU & _ & HI);
    try exact service_apart; try apply demo_holds; try (vm_compute; reflexivity).
  - eexists. vm_compute. reflexivity.
  - split; [exact HU|]. specialize (HI (PService demo_paths) (or_intror (or_introl eq_refl))). exact HI.
Defined.
Lemma unit_file_roundtrip_witness :
  ∃ plan, Generate "linux" demo_paths demo_config "/etc/two words/$HOME %n.json" = Ok plan ∧
  ∃ command, Split (pl_Definition plan) nl = unit_head ++ ("ExecStart=" ++ command) :: unit_tail demo_config ∧
    parse_exec command = Some [PExecutable demo_paths; "serve" : str; "--config" : str; "/etc/two words/$HOME %n.json" : str].
Proof.
  eexists. split; [reflexivity|]. apply unit_file_roundtrip. reflexivity.
Defined.
