(* ===== verification/Command.v ===== *)
(** * Command: what every command of the CLI shares
    (coded, invalid, Execute and emit in src/internal/cli/cli.go)

    Commands are programs of the monad [C]: programs of Fsutil's [M] that also print. The
    flags are parsed as Go's [flag] package parses them. *)
From S2P Require Import Prelude Strs NetIP Profiles Config Durations Fsutil Frames Hosts CA Proxy Trust Service.

(** ** Exit codes *)
Definition with_code (code : Z) (e : error) : error := mkError (Error e) (Coded code :: chain e).
Definition invalid (e : error) : error := with_code 2 e.
(** [errors.As] for the type [coded]: the first one in the chain. *)
Fixpoint first_code (l : list sentinel) : option Z :=
  match l with [] => None | Coded c :: _ => Some c | _ :: l => first_code l end.
Definition exit_code (r : result unit) : Z :=
  match r with
  | Ok _ => 0
  | Err err =>
      if errors_Is err FlagHelp then 0
      else match first_code (chain err) with
           | Some c => c
           | None => if errors_Is err ErrPermission then 4 else if errors_Is err ErrDegraded then 5 else 1
           end
  end.

(** ** Programs that print *)
(** A value printed as JSON ([emit]) or as lines made from it. *)
Record Fingerprint := mkFingerprint { HTTP : str; JA3 : str; JA4 : str; Akamai : str }.
Inductive printed :=
  | ShownHelp | ShownVersion | ShownProfiles (l : list Profile) | ShownProfile (p : Profile) | ShownConfig (c : Config)
  | ShownInfo (i : CA.Info) | ShownReport (r : Trust.Report) | ShownNative (action text : str) (ok : bool) | ShownHosts (p : Hosts.Plan)
  | ShownInstall (p : Service.Plan) | ShownStatus (s : Proxy.Status) | ShownReply (s : str)
  | ShownDoctor (daemon : str) (probe : option (result str))
  | ShownTest (profile : str) (direct proxied : Fingerprint) (changed preserved : bool).
Inductive line := Line (s : str) | Json (p : printed) | Human (p : printed).
Record term := mkTerm { t_os : os; t_out : list line }.
Definition C (A : Type) : Type := term → result A * term.
#[global] Instance C_ret : MRet C := λ A a t, (Ok a, t).
#[global] Instance C_bind : MBind C := λ A B f m t,
  match m t with (Ok a, t') => f a t' | (Err e, t') => (Err e, t') end.
Definition call {A} (m : M A) : C A := λ t, let '(r, o) := m (t_os t) in (r, mkTerm o (t_out t)).
Definition done_with {A} (r : result A) : C A := λ t, (r, t).
Definition quit {A} (e : error) : C A := done_with (Err e).
Definition say (l : line) : C unit := λ t, (Ok tt, mkTerm (t_os t) (t_out t ++ [l])).
Definition emit (p : printed) : C unit := say (Json p).
Definition show (asJSON : bool) (p : printed) : C unit := say (if asJSON then Json p else Human p).
(** [if e != nil { return f(e) }] *)
Definition or_else {A} (f : error → error) (m : C A) : C A := λ t,
  match m t with (Ok a, t') => (Ok a, t') | (Err e, t') => (Err (f e), t') end.
Definition catch {A} (m : C A) : C (result A) := λ t, let '(r, t') := m t in (Ok r, t').
(** [return e], where [e] may be nil. *)
Definition give (e : option error) : C unit := match e with None => mret tt | Some e => quit e end.

(** ** Flags *)
Definition equals : byte := chr 61.
Inductive kind := KString | KBool | KDuration.
Inductive value := VString (s : str) | VBool (b : bool) | VDuration (d : Z).
#[global] Instance value_eq_dec : EqDecision value.
Proof. solve_decision. Defined.
Definition settings : Type := list (str * value).
Definition help_requested : error := mkError "flag: help requested" [FlagHelp].
Definition flag_error (m : str) : error := errors_New m.
Definition ParseBool (s : str) : option bool :=
  if str_mem s ["1" : str; "t" : str; "T" : str; "true" : str; "TRUE" : str; "True" : str] then Some true
  else if str_mem s ["0" : str; "f" : str; "F" : str; "false" : str; "FALSE" : str; "False" : str] then Some false
  else None.
(** [flag.Value.Set]. *)
Definition Set_ (name : str) (k : kind) (s : str) : result value :=
  match k with
  | KString => Ok (VString s)
  | KBool => match ParseBool s with Some b => Ok (VBool b) | None => Err (flag_error ("invalid boolean value for -" ++ name)) end
  | KDuration => match ParseDuration s with Ok d => Ok (VDuration d) | Err _ => Err (flag_error ("invalid value for flag -" ++ name)) end
  end.
Fixpoint formal_kind (name : str) (l : list (str * kind)) : option kind :=
  match l with [] => None | (n, k) :: l => if n == name then Some k else formal_kind name l end.
(** The name of an argument that is a flag: one or two hyphens and something else. *)
Inductive argument := Plain | Terminator | Flag (text : str).
Definition classify (s : str) : argument :=
  match s with
  | c :: d :: t =>
      if negb (beq c dash) then Plain
      else if beq d dash then match t with [] => Terminator | _ => Flag t end
      else Flag (d :: t)
  | _ => Plain
  end.
(** [FlagSet.Parse]: the settings in their order, and the arguments that are left. *)
Fixpoint Parse_flags (formal : list (str * kind)) (args : list str) : result (settings * list str) :=
  match args with
  | [] => Ok ([], [])
  | s :: rest =>
      match classify s with
      | Plain => Ok ([], args)
      | Terminator => Ok ([], rest)
      | Flag text =>
          match text with
          | [] => Err (flag_error ("bad flag syntax: " ++ s))
          | c :: _ =>
              if beq c dash || beq c equals then Err (flag_error ("bad flag syntax: " ++ s))
              else
                let '(name, v, hasValue) := Cut text equals in
                match formal_kind name formal with
                | None => Err (if (name == "help") || (name == "h") then help_requested
                               else flag_error ("flag provided but not defined: -" ++ name))
                | Some KBool =>
                    x ← (if hasValue : bool then Set_ name KBool v else Ok (VBool true));
                    '(l, others) ← Parse_flags formal rest;
                    Ok ((name, x) :: l, others)
                | Some k =>
                    if hasValue : bool then
                      x ← Set_ name k v;
                      '(l, others) ← Parse_flags formal rest;
                      Ok ((name, x) :: l, others)
                    else
                      match rest with
                      | [] => Err (flag_error ("flag needs an argument: -" ++ name))
                      | v :: rest =>
                          x ← Set_ name k v;
                          '(l, others) ← Parse_flags formal rest;
                          Ok ((name, x) :: l, others)
                      end
                end
          end
      end
  end.
(** The value a variable ends up with: the last setting of its flag. *)
Fixpoint last_set (name : str) (l : settings) : option value :=
  match l with
  | [] => None
  | (n, v) :: l => match last_set name l with Some v => Some v | None => if n == name then Some v else None end
  end.
Definition is_set (l : settings) (name : str) : bool := match last_set name l with Some _ => true | None => false end.
Definition string_flag (l : settings) (name dflt : str) : str :=
  match last_set name l with Some (VString s) => s | _ => dflt end.
Definition bool_flag (l : settings) (name : str) : bool :=
  match last_set name l with Some (VBool b) => b | _ => false end.
Definition duration_flag (l : settings) (name : str) (dflt : Z) : Z :=
  match last_set name l with Some (VDuration d) => d | _ => dflt end.

(** ** Inversion: how a command can succeed *)
Lemma C_bind_Ok {A B} (m : C A) (f : A → C B) t b t' :
  (m ≫= f) t = (Ok b, t') → ∃ a t1, m t = (Ok a, t1) ∧ f a t1 = (Ok b, t').
Proof. unfold mbind, C_bind. destruct (m t) as [[a|e] t1]; [|done]. by exists a, t1. Qed.
Lemma or_else_Ok {A} f (m : C A) t a t' : or_else f m t = (Ok a, t') → m t = (Ok a, t').
Proof. unfold or_else. by destruct (m t) as [[x|e] t1]. Qed.
Lemma call_Ok {A} (m : M A) t a t' : call m t = (Ok a, t') → ∃ o, m (t_os t) = (Ok a, o) ∧ t' = mkTerm o (t_out t).
Proof. unfold call. destruct (m (t_os t)) as [r o]. intros [= -> <-]. by exists o. Qed.
Lemma done_with_Ok {A} (r : result A) t a t' : done_with r t = (Ok a, t') → r = Ok a ∧ t' = t.
Proof. by intros [= -> ->]. Qed.
Lemma M_bind_Ok {A B} (m : M A) (f : A → M B) o b o' :
  (m ≫= f) o = (Ok b, o') → ∃ a o1, m o = (Ok a, o1) ∧ f a o1 = (Ok b, o').
Proof. unfold mbind, M_bind. destruct (m o) as [[a|e] o1]; [|done]. by exists a, o1. Qed.

(** ** What commands leave alone *)
Section Leaves.
Context `{Kernel}.
Definition leaves (X : str → Prop) {A} (m : C A) : Prop :=
  ∀ t, same_at X (sys (t_os t)) (sys (t_os (m t).2)).
Lemma leaves_call {A} X (m : M A) : spares X m → leaves X (call m).
Proof.
  intros Hm t. destruct (Hm (sys (t_os t)) (λ _, True) (λ _ _, I) (t_os t) eq_refl) as [Hs _].
  unfold call. destruct (m (t_os t)) as [r o]. exact Hs.
Qed.
Lemma leaves_ret {A} X (a : A) : leaves X (mret a : C A).
Proof. intros t. reflexivity. Qed.
Lemma leaves_done_with {A} X (r : result A) : leaves X (done_with r).
Proof. intros t. reflexivity. Qed.
Lemma leaves_say X l : leaves X (say l).
Proof. intros t. reflexivity. Qed.
Lemma leaves_bind {A B} X (m : C A) (f : A → C B) : leaves X m → (∀ a, leaves X (f a)) → leaves X (m ≫= f).
Proof.
  intros Hm Hf t. specialize (Hm t). unfold mbind, C_bind. destruct (m t) as [[a|e] t']; [|exact Hm].
  eapply same_at_trans; [exact Hm|apply Hf].
Qed.
Lemma leaves_or_else {A} X f (m : C A) : leaves X m → leaves X (or_else f m).
Proof. intros Hm t. specialize (Hm t). unfold or_else. by destruct (m t) as [[a|e] t']. Qed.
Lemma leaves_checked {A B} X f (r : result A) (k : A → C B) :
  (∀ a, r = Ok a → leaves X (k a)) → leaves X (or_else f (done_with r) ≫= k).
Proof. intros Hk t. unfold mbind, C_bind, or_else, done_with. destruct r as [a|e]; [by apply Hk|reflexivity]. Qed.
Lemma leaves_catch {A} X (m : C A) : leaves X m → leaves X (catch m).
Proof. intros Hm t. specialize (Hm t). unfold catch. by destruct (m t). Qed.
End Leaves.
Create HintDb frames.
#[export] Hint Resolve spares_lift spares_ret spares_query spares_ReadFile spares_Regular : frames.
#[export] Hint Resolve leaves_ret leaves_done_with leaves_say : frames.
(** Along the structure of a program, down to calls that the hints cover. *)
Ltac frame :=
  repeat lazymatch goal with
  | |- spares _ (mbind _ _) => apply spares_bind; [|intros ?]
  | |- spares _ (try _) => apply spares_try
  | |- spares _ (ignore _) => apply spares_ignore
  | |- spares _ (finally _ _) => apply spares_finally
  | |- spares _ (fail _) => apply spares_lift
  | |- spares _ (match ?x with _ => _ end) => destruct x
  | |- spares _ (let _ := _ in _) => cbv zeta
  | |- leaves _ (mbind _ _) => apply leaves_bind; [|intros ?]
  | |- leaves _ (call _) => apply leaves_call
  | |- leaves _ (or_else _ _) => apply leaves_or_else
  | |- leaves _ (catch _) => apply leaves_catch
  | |- leaves _ (quit _) => apply leaves_done_with
  | |- leaves _ (emit _) => apply leaves_say
  | |- leaves _ (show _ _) => apply leaves_say
  | |- leaves _ (match ?x with _ => _ end) => destruct x
  | |- leaves _ (let _ := _ in _) => cbv zeta
  | _ => solve [eauto with frames]
  end.
