(* ===== verification/TestCommand.v ===== *)
(** * TestCommand: the temporary test
    (src/internal/cli/temporary_test_command.go)

    [temporaryTest] as a program: a temporary directory, a CA and a configuration in it, a
    daemon that runs meanwhile, two requests and their comparison, and the clean-up. The
    daemon, the network and the time are arguments. *)
From S2P Require Import Prelude Strs NetIP Config ConfigJSON JSONText Durations Fsutil Frames ConfigLoad Control Upstream CA Proxy Command.

Definition fingerprintURL : str := "https://tls.peet.ws/api/all".
(** The files of a directory and the directory itself. *)
Definition under (dir q : str) : bool := (q == dir) || HasPrefix q (dir ++ "/").

Section Test.
Context `{Unicode, IDNA, Kernel, CA.Encoding}.
(** ** The file system calls of the command *)
Definition MkdirTemp (dir pattern : str) : M str := syscall nothing (λ s,
  let p := temp_name s (dir ++ "/" ++ pattern) in
  let n := fresh_ino s in
  (Ok p, mkFs (<[p := n]> (dents s)) (ddents s) (<[n := mkInode FDir 448 euid euid [] true []]> (inodes s)) (locks s))).
(** [os.RemoveAll]; when it fails some of the files, chosen by [partly], are gone. *)
Variable partly : nat → str → bool.
Definition without (gone : str → bool) (s : fs) : fs :=
  set_dents s (base.filter (λ kv, gone kv.1 = false) (dents s)).
Definition RemoveAll (dir : str) : M unit :=
  syscall (λ k s, without (λ q, under dir q && partly k q) s) (λ s, (Ok tt, without (under dir) s)).

(** ** The outside: a free port, TCP dials, the HTTPS exchange on a connection with the
    system's roots or given ones, the daemon's goroutine, its control socket, DNS. *)
Variables (GOOS : str) (now : Z) (rnd : Entropy).
Variable reserve : M str.                                  (* net.Listen on port 0, closed *)
Variables (InterfaceAddrs : M (list str)) (tcp : str → M unit).
Variable exchange : str → option str → M (Z * str * str).  (* code, status and body *)
Variable parse_fingerprint : str → result Fingerprint.
Variable has_certificate : str → bool.                     (* AppendCertsFromPEM *)
Variable finished : M (option (option error)).             (* the daemon's result, if it has ended *)
Variable http_status : str → M (Z * str * str).            (* GET /v1/status on a socket *)
Variable parse_status : str → result Status.
Variable pause : M (option error).                         (* 20 ms, or the context's error *)
Variable halt : M (option error).                          (* cancel, and the daemon's result within 5 s *)
Variable lookup : DNS → str → M (list Addr).
(** The polls that fit in the command's 90 seconds. *)
Variable turns : nat.

(** ** Requests *)
Definition endpoint_status (status : str) : error := errors_New ("fingerprint endpoint returned " ++ status).
Definition missing_hash : error := errors_New "fingerprint response missing JA3/JA4".
(** [http.Transport] refuses a dial that returns neither a connection nor an error. *)
Definition no_connection : error := errors_New "net/http: Transport.DialContext hook returned (nil, nil)".
Definition max_response : nat := Z.to_nat (1024 * 1024).
Definition fetchFingerprint (dial : M (option str)) (roots : option str) : M Fingerprint :=
  c ← dial;
  conn ← lift (of_option no_connection c);
  '(code, status, body) ← exchange conn roots;
  _ ← lift (guard_err (negb (code =? 200)) (endpoint_status status));
  f ← lift (parse_fingerprint (take max_response body));
  _ ← lift (guard_err ((JA3 f == "") || (JA4 f == "")) missing_hash);
  mret f.
(** The addresses in turn; [last] is nil before the first error. *)
Fixpoint baselineDial (redirect : str) (ips : list Addr) (last : option error) : M (option str) :=
  match ips with
  | [] => match last with Some e => fail e | None => mret None end
  | ip :: ips =>
      addrs ← try InterfaceAddrs;
      match CheckDestination addrs ip redirect with
      | Err e => baselineDial redirect ips (Some e)
      | Ok _ =>
          let address := JoinHostPort (AddrString ip) "443" in
          x ← try (tcp address);
          match x with
          | Ok _ => mret (Some address)
          | Err e => baselineDial redirect ips (Some e)
          end
      end
  end.

(** ** Deferred calls whose error joins the command's *)
Definition join (r : result unit) (e : option error) : result unit :=
  match r, e with
  | r, None => r
  | Ok _, Some e => Err e
  | Err r, Some e => Err (mkError (Error r ++ nl :: Error e) (chain r ++ chain e))
  end.
Definition deferred (m : C unit) (d : M (option error)) : C unit :=
  r ← catch m; e ← call d; done_with (join r e).

(** ** The command *)
Definition test_config (dir profile dnsOption : str) : Config :=
  let c := set_Domains (Defaults GOOS) ["tls.peet.ws" : str] in
  let u := Config.Upstream c in let d := CDNS c in let r := Config.Runtime c in
  let c := set_Upstream (mkUpstream (Port u) profile (ALPNMode u)) c in
  let c := set_Runtime (mkRuntime (dir ++ "/state") (dir ++ "/state/control.sock") (MaxConnections r)
             (HandshakeTimeout r) (IdleTimeout r) (200 * Millisecond)) c in
  let c := set_CA (mkCA (dir ++ "/ca/ca.crt") (dir ++ "/ca/ca.key")) c in
  if dnsOption != "auto" then
    set_DNS (mkDNS "manual" (Split dnsOption (chr 44)) (RefreshInterval d) (Timeout d) (CacheSize d)) c
  else c.
Definition not_ready (reasons : list str) : error := errors_New ("automatic DNS unavailable: " ++ show_strs reasons).
Definition startup (e : option error) : error :=
  match e with
  | Some e => Errorf_w "temporary daemon startup: " e
  | None => errors_New "temporary daemon startup: %!w(<nil>)"
  end.
Fixpoint await_ready (n : nat) (socket : str) : M unit :=
  match n with
  | O => fail (mkError "context deadline exceeded" [DeadlineExceeded])
  | S n =>
      d ← finished;
      match d with
      | Some e => fail (startup e)
      | None =>
          reply ← try (http_status socket);
          match Control.Request reply parse_status socket with
          | Ok st => lift (guard_err (Health st != "ready") (not_ready (Reasons st)))
          | Err _ => e ← pause; match e with Some e => fail e | None => await_ready n socket end
          end
      end
  end.
Definition invalid_ca : error := errors_New "invalid temporary CA".
Definition unmet : error :=
  errors_New "fingerprint comparison did not meet expected TLS-change / HTTP2-preservation checks".
Definition tls_changed (direct proxied : Fingerprint) : bool := JA4 direct != JA4 proxied.
Definition http2_preserved (direct proxied : Fingerprint) : bool :=
  (Akamai direct != "") && (Akamai direct == Akamai proxied).
Definition session (c : Config) (address profile : str) (asJSON : bool) : C unit :=
  _ ← call (await_ready turns (ControlSocket (Config.Runtime c)));
  ips ← call (lookup (CDNS c) "tls.peet.ws");
  _ ← (if asJSON then mret tt
       else say (Line ("Testing " ++ fingerprintURL ++ " with profile " ++ profile ++ " on " ++ address)));
  direct ← or_else (Errorf_w "direct request: ")
             (call (fetchFingerprint (baselineDial (HostsAddress c) ips None) None));
  roots ← call (ReadFile (Cert (Config.CA c)));
  _ ← done_with (guard_err (negb (has_certificate roots)) invalid_ca);
  proxied ← or_else (Errorf_w "proxied request: ")
              (call (fetchFingerprint (_ ← tcp address; mret (Some address)) (Some roots)));
  let changed := tls_changed direct proxied in
  let preserved := http2_preserved direct proxied in
  _ ← show asJSON (ShownTest profile direct proxied changed preserved);
  done_with (guard_err (negb changed || negb preserved) unmet).
Definition with_daemon (c : Config) (dir address profile : str) (asJSON : bool) : C unit :=
  _ ← call (CA.Init (Dir (Cert (Config.CA c))) "utlsproxy temporary test CA" (24 * Hour) now rnd);
  _ ← call (Exclusive (dir ++ "/config.json") (Marshal (encode_config c)) 384);
  _ ← call (CA.Load (Cert (Config.CA c)) (Key (Config.CA c)) now);
  deferred (session c address profile asJSON) halt.
Definition in_directory (dir profile dnsOption : str) (asJSON : bool) : C unit :=
  address ← call reserve;
  let c := set_Listen [address] (test_config dir profile dnsOption) in
  c ← or_else invalid (done_with (checked (Validate c)));
  with_daemon c dir address profile asJSON.
Definition attempt_ (m : M unit) : M (option error) :=
  x ← try m; mret (match x with Ok _ => None | Err e => Some e end).
Definition temporaryTest (profile dnsOption : str) (asJSON : bool) : C unit :=
  dir ← call (MkdirTemp "/tmp" "utlsproxy-test-");
  deferred (in_directory dir profile dnsOption asJSON) (attempt_ (RemoveAll dir)).
End Test.

(** ** Lemmas: what the command leaves alone *)
Definition outside (dir q : str) : Prop := under dir q = false.
Lemma under_self dir : under dir dir = true.
Proof. unfold under. by rewrite str_eqb_refl. Qed.
Lemma under_child dir f : under dir (dir ++ "/" ++ f) = true.
Proof. unfold under. rewrite app_assoc, HasPrefix_app. by rewrite orb_true_r. Qed.
Lemma Dir_in d f : d ≠ [] → slash ∉ f → Dir (d ++ slash :: f) = d.
Proof.
  intros Hd Hf. unfold Dir. rewrite (proj2 (CutLast_Some _ _ _ _)) by done. by destruct d.
Qed.

Section Frame.
Context `{Unicode, IDNA, Kernel, CA.Encoding}.
Hypothesis alone : quiet.
Variables (partly : nat → str → bool) (GOOS : str) (now : Z) (rnd : Entropy).
Variables (reserve : M str) (InterfaceAddrs : M (list str)) (tcp : str → M unit).
Variables (exchange : str → option str → M (Z * str * str)) (parse_fingerprint : str → result Fingerprint).
Variables (has_certificate : str → bool) (finished : M (option (option error))).
Variables (http_status : str → M (Z * str * str)) (parse_status : str → result Status).
Variables (pause halt : M (option error)) (lookup : DNS → str → M (list Addr)) (turns : nat).
(** What the daemon and the network do is confined to the temporary directory. *)
Record confined (X : str → Prop) : Prop := {
  cf_reserve : spares X reserve;
  cf_interfaces : spares X InterfaceAddrs;
  cf_tcp a : spares X (tcp a);
  cf_exchange a r : spares X (exchange a r);
  cf_finished : spares X finished;
  cf_http s : spares X (http_status s);
  cf_pause : spares X pause;
  cf_halt : spares X halt;
  cf_lookup d n : spares X (lookup d n) }.
Variable dir : str.
Hypothesis Hout : confined (outside dir).
Hint Resolve cf_reserve cf_interfaces cf_tcp cf_exchange cf_finished cf_http cf_pause cf_halt cf_lookup : frames.
Hint Extern 5 (¬ outside dir _) => unfold outside; rewrite ?under_self, ?under_child; discriminate : frames.

Lemma spares_Init d name validity : ¬ outside dir d → ¬ outside dir (d ++ "/ca.crt") → ¬ outside dir (d ++ "/ca.key") →
  spares (outside dir) (CA.Init d name validity now rnd).
Proof.
  intros Hd Hc Hk. unfold CA.Init, CA.absent, Lstat, CA.Inspect. frame.
  - by apply spares_PrivateDir.
  - by apply spares_Exclusive.
  - by apply spares_Exclusive.
  - by apply spares_Remove.
Qed.
Lemma spares_CA_Load X certPath keyPath : spares X (CA.Load certPath keyPath now).
Proof. unfold CA.Load, CA.LoadX509KeyPair, Stat. frame. Qed.
Lemma spares_fetch dial roots : spares (outside dir) dial →
  spares (outside dir) (fetchFingerprint exchange parse_fingerprint dial roots).
Proof. intros Hd. unfold fetchFingerprint. frame. Qed.
Lemma spares_baselineDial redirect ips last : spares (outside dir) (baselineDial InterfaceAddrs tcp redirect ips last).
Proof.
  revert last. induction ips as [|ip ips IH]; intros last; [destruct last; frame|].
  cbn [baselineDial]. frame.
Qed.
Lemma spares_await_ready n socket : spares (outside dir) (await_ready finished http_status parse_status pause n socket).
Proof. induction n as [|n IH]; [frame|]. cbn [await_ready]. frame. Qed.
Definition session_ := session InterfaceAddrs tcp exchange parse_fingerprint has_certificate finished http_status parse_status pause lookup turns.
Lemma leaves_session c address profile asJSON : leaves (outside dir) (session_ c address profile asJSON).
Proof.
  unfold session_, session. frame; try (by apply spares_await_ready); apply spares_fetch; [apply spares_baselineDial|frame].
Qed.
Lemma leaves_deferred (m : C unit) (d : M (option error)) :
  leaves (outside dir) m → spares (outside dir) d → leaves (outside dir) (deferred m d).
Proof. intros Hm Hd. unfold deferred. frame. Qed.
Definition with_daemon_ := with_daemon now rnd InterfaceAddrs tcp exchange parse_fingerprint has_certificate finished
  http_status parse_status pause halt lookup turns.
Lemma leaves_with_daemon c address profile asJSON : dir ≠ [] → Cert (Config.CA c) = dir ++ "/ca/ca.crt" →
  leaves (outside dir) (with_daemon_ c dir address profile asJSON).
Proof.
  intros Hne Hc. assert (Dir (Cert (Config.CA c)) = dir ++ "/" ++ "ca") as Ed.
  { rewrite Hc. change (dir ++ "/ca/ca.crt") with (dir ++ ("/ca" : str) ++ slash :: ("ca.crt" : str)).
    rewrite app_assoc. apply Dir_in; [by destruct dir|by_compute]. }
  unfold with_daemon_, with_daemon. rewrite Ed. frame.
  - apply spares_Init; unfold outside; rewrite <- ?app_assoc, under_child; done.
  - apply spares_Exclusive; [done|]. unfold outside. change (dir ++ "/config.json") with (dir ++ "/" ++ ("config.json" : str)).
    by rewrite under_child.
  - apply spares_CA_Load.
  - apply leaves_deferred; [apply leaves_session|frame].
Qed.
Definition in_directory_ := in_directory GOOS now rnd reserve InterfaceAddrs tcp exchange parse_fingerprint has_certificate
  finished http_status parse_status pause halt lookup turns.
Lemma leaves_in_directory profile dnsOption asJSON : dir ≠ [] → leaves (outside dir) (in_directory_ dir profile dnsOption asJSON).
Proof.
  intros Hne. unfold in_directory_, in_directory. apply leaves_bind; [frame|]. intros address. apply leaves_checked.
  intros c Hc%checked_Ok. apply leaves_with_daemon; [done|]. apply Validate_None in Hc as (_ & _ & -> & _).
  unfold test_config. by destruct (dnsOption != "auto").
Qed.
Lemma spares_RemoveAll : spares (outside dir) (RemoveAll partly dir).
Proof.
  assert (∀ gone s, (∀ q, gone q = true → under dir q = true) → same_at (outside dir) s (without gone s)) as Hw.
  { intros gone s Hg q Hq. unfold without. cbn [dents inodes set_dents]. split; [|done].
    destruct (dents s !! q) as [n|] eqn:E.
    - apply map_lookup_filter_Some. split; [done|]. cbn. destruct (gone q) eqn:Eg; [|done]. apply Hg in Eg. unfold outside in Hq. congruence.
    - apply map_lookup_filter_None. by left. }
  apply spares_syscall; [done| |].
  - intros s. by apply Hw.
  - intros k s. apply Hw. by intros q [? _]%andb_true_iff.
Qed.
(** Either everything is gone, or the removal's own failure is reported. *)
Lemma RemoveAll_result o : let '(r, o') := attempt_ (RemoveAll partly dir) o in
  (∃ x, r = Ok x ∧ match x with
   | None => ∀ q, under dir q = true → dents (sys o') !! q = None
   | Some e => ∃ k, fault k = Some e end).
Proof.
  unfold attempt_, RemoveAll, syscall, try, mbind, M_bind, mret, M_ret. destruct (fault (calls o)) as [e|] eqn:E.
  - eexists. split; [done|]. by exists (calls o).
  - eexists. split; [done|]. intros q Hq. cbn. apply map_lookup_filter_None. right. intros x _. cbn. congruence.
Qed.
End Frame.

(** ** Properties *)
Section Properties.
Context `{Unicode, IDNA, Kernel, CA.Encoding}.
Variables (partly : nat → str → bool) (GOOS : str) (now : Z) (rnd : Entropy).
Variables (reserve : M str) (InterfaceAddrs : M (list str)) (tcp : str → M unit).
Variables (exchange : str → option str → M (Z * str * str)) (parse_fingerprint : str → result Fingerprint).
Variables (has_certificate : str → bool) (finished : M (option (option error))).
Variables (http_status : str → M (Z * str * str)) (parse_status : str → result Status).
Variables (pause halt : M (option error)) (lookup : DNS → str → M (list Addr)) (turns : nat).
Definition the_test (profile dnsOption : str) (asJSON : bool) : C unit :=
  temporaryTest partly GOOS now rnd reserve InterfaceAddrs tcp exchange parse_fingerprint has_certificate finished
    http_status parse_status pause halt lookup turns profile dnsOption asJSON.


(** What a successful request, and a report of success, must have shown. *)
Definition complete_print (f : Fingerprint) : Prop := JA3 f ≠ [] ∧ JA4 f ≠ [].
Lemma fetch_complete dial roots o f o' :
  fetchFingerprint exchange parse_fingerprint dial roots o = (Ok f, o') → complete_print f.
Proof.
  unfold fetchFingerprint. intros (c & o1 & _ & Hr)%M_bind_Ok. apply M_bind_Ok in Hr as (conn & o2 & _ & Hr).
  apply M_bind_Ok in Hr as ([[code status] body] & o3 & _ & Hr). apply M_bind_Ok in Hr as ([] & o4 & _ & Hr).
  apply M_bind_Ok in Hr as (f' & o5 & _ & Hr). apply M_bind_Ok in Hr as ([] & o6 & [= Hg <-] & [= <- <-]).
  apply guard_Ok in Hg. bools. by split.
Qed.
(** A successful test is a verified comparison. The command ends without an error only
    after a request made directly and one made through the proxy were both answered with
    complete fingerprints, the TLS fingerprints of the two differ, and the HTTP/2
    fingerprints are equal and not empty; and the last thing it prints is that report. *)
Theorem test_verdict profile dnsOption asJSON t t' :
  the_test profile dnsOption asJSON t = (Ok tt, t') →
  ∃ direct proxied, complete_print direct ∧ complete_print proxied ∧
    JA4 direct ≠ JA4 proxied ∧ Akamai direct = Akamai proxied ∧ Akamai direct ≠ [] ∧
    last (t_out t') = Some (let p := ShownTest profile direct proxied true true in if asJSON then Json p else Human p).
Proof.
  assert (∀ (m : C unit) d t t', deferred m d t = (Ok tt, t') → ∃ t1, m t = (Ok tt, t1) ∧ t_out t' = t_out t1) as Hdef.
  { intros m d s s' (r & s1 & Hm & Hr)%C_bind_Ok. unfold catch in Hm. destruct (m s) as [[[]|e] s2]; injection Hm as <- <-;
      apply C_bind_Ok in Hr as (x & s3 & (o & _ & ->)%call_Ok & [Hj ->]%done_with_Ok); [by exists s2|by destruct x]. }
  intros (dir & t1 & _ & Ht)%C_bind_Ok. apply Hdef in Ht as (t2 & Ht & ->). clear t'.
  apply C_bind_Ok in Ht as (address & t3 & _ & Ht). apply C_bind_Ok in Ht as (c & t4 & _ & Ht).
  apply C_bind_Ok in Ht as (i & t5 & _ & Ht). apply C_bind_Ok in Ht as ([] & t6 & _ & Ht).
  apply C_bind_Ok in Ht as (a & t7 & _ & Ht). apply Hdef in Ht as (t8 & Ht & ->).
  apply C_bind_Ok in Ht as ([] & t9 & _ & Ht). apply C_bind_Ok in Ht as (ips & t10 & _ & Ht).
  apply C_bind_Ok in Ht as ([] & t11 & _ & Ht). apply C_bind_Ok in Ht as (direct & t12 & Hd & Ht).
  apply C_bind_Ok in Ht as (roots & t13 & _ & Ht). apply C_bind_Ok in Ht as ([] & t14 & _ & Ht).
  apply C_bind_Ok in Ht as (proxied & t15 & Hp & Ht). apply C_bind_Ok in Ht as ([] & t16 & Hs & Ht).
  apply done_with_Ok in Ht as [Hg ->]. injection Hs as <-.
  destruct (tls_changed direct proxied) eqn:Hc, (http2_preserved direct proxied) eqn:Hh; try done. clear Hg.
  apply or_else_Ok, call_Ok in Hd as (o1 & Hd & _). apply or_else_Ok, call_Ok in Hp as (o2 & Hp & _).
  exists direct, proxied. split; [by eapply fetch_complete|]. split; [by eapply fetch_complete|].
  unfold tls_changed, http2_preserved in *. bools. split_and!; [done..|]. cbn [t_out]. rewrite last_snoc. by destruct asJSON.
Qed.
End Properties.

(** ** Witnesses *)
Definition demo_print (tls : str) : Fingerprint := mkFingerprint "h2" "771,4865" tls "1:65536".
Definition demo_status : Status := mkStatus "ready" [] (Defaults "linux") 1 0 0 0 0 ∅.
Definition demo_test : C unit :=
  @the_test ascii_only demo_idna no_faults CA.demo_encoding (λ _ _, false) "linux" 0 CA.demo_entropy (mret ("127.0.0.1:40001" : str))
    (mret ["127.0.0.1/8" : str]) (λ _, mret tt)
    (λ _ roots, mret (200, "200 OK" : str, match roots with None => "direct" : str | Some _ => "proxied" : str end))
    (λ b, Ok (demo_print b)) (λ _, true) (mret None) (λ _, mret (200, "200 OK" : str, [])) (λ _, Ok demo_status) (mret None) (mret None)
    (λ _ _, mret [V4 3405803783]) 10 "chrome-133" "auto" true.
Definition demo_term : term := mkTerm (mkOs (mkFs ∅ ∅ ∅ ∅) 0 []) [].
Lemma test_verdict_witness : ∃ direct proxied, JA4 direct ≠ JA4 proxied ∧
  last (t_out (demo_test demo_term).2) = Some (Json (ShownTest "chrome-133" direct proxied true true)).
Proof.
  destruct (@test_verdict ascii_only demo_idna no_faults CA.demo_encoding (λ _ _, false) "linux" 0 CA.demo_entropy
    (mret ("127.0.0.1:40001" : str)) (mret ["127.0.0.1/8" : str]) (λ _, mret tt)
    (λ _ roots, mret (200, "200 OK" : str, match roots with None => "direct" : str | Some _ => "proxied" : str end))
    (λ b, Ok (demo_print b)) (λ _, true) (mret None) (λ _, mret (200, "200 OK" : str, [])) (λ _, Ok demo_status) (mret None) (mret None)
    (λ _ _, mret [V4 3405803783]) 10 "chrome-133" "auto" true demo_term (demo_test demo_term).2) as (d & p & _ & _ & Hd & _ & _ & Hl).
  - assert ((demo_test demo_term).1 = Ok tt) as E by (vm_compute; reflexivity).
    rewrite <- E. exact (surjective_pairing _).
  - exists d, p. split; [exact Hd|exact Hl].
Defined.
