(* ===== verification/Daemon.v ===== *)
(** * Daemon: the start and the end of the daemon, and its control interface
    (Server.Run in src/internal/proxy/server.go)

    [Run] takes the state directory and the control socket, opens the listeners, serves, and
    gives everything back. Serving itself is the step relation of Proxy.v; here it is the
    argument [main]. [api] is the HTTP interface on the control socket. *)
From S2P Require Import Prelude Strs Config Fsutil Frames ConfigLoad Control CA Proxy.

Section Daemon.
Context `{Kernel}.
(** A dial of the control socket; a TCP listener, and closing it; the main loop, with the
    listeners it closes at its end. *)
Variables (dial : fs → str → result unit) (listen_tcp : str → M Z) (close_tcp : Z → M unit).
Variable main : list Z → M (option error).
Fixpoint close_all (ls : list Z) : M unit :=
  match ls with [] => mret tt | l :: ls => _ ← ignore (close_tcp l); close_all ls end.
Fixpoint open_all (opened : list Z) (addrs : list str) : M (list Z) :=
  match addrs with
  | [] => mret opened
  | a :: addrs =>
      r ← try (listen_tcp a);
      match r with
      | Ok l => open_all (opened ++ [l]) addrs
      | Err e => _ ← close_all opened; fail e
      end
  end.
Definition give_error (e : option error) : M unit := match e with Some e => fail e | None => mret tt end.
Definition serve_on (c : Config) : M unit :=
  '(_, cleanup) ← Control.Listen dial (ControlSocket (Config.Runtime c));
  finally (ls ← open_all [] (Config.Listen c); e ← main ls; give_error e) cleanup.
Definition Run (c : Config) : M unit :=
  _ ← PrivateDir (StateDir (Config.Runtime c));
  unlock ← Lock (JoinPath (StateDir (Config.Runtime c)) "daemon.lock");
  finally (serve_on c) unlock.
End Daemon.

(** ** The control interface *)
Inductive reply :=
  | RStatus (s : Status) | RConnections (l : list Connection) | RReloaded | RError (code : Z) (m : str).
(** A pattern with [GET] also takes [HEAD]; what has no pattern is not found, and a known path
    with another method is not allowed. *)
Definition is_get (method : str) : bool := (method == "GET") || (method == "HEAD").
Definition api (LastError : str) (load : result Config) (load_ca : Config → result Authority) (method path : str) (s : Server)
    : reply * Server :=
  let wrong : reply * Server := (RError 405 "Method Not Allowed", s) in
  if path == "/v1/status" then if is_get method then (RStatus (Status_of LastError s), s) else wrong
  else if path == "/v1/connections" then if is_get method then (RConnections (Connections s), s) else wrong
  else if path == "/v1/reload" then
    if method == "POST" then
      match Reload load load_ca s with
      | (Ok _, s) => (RReloaded, s)
      | (Err e, s) => (RError 400 (Error e), s)
      end
    else wrong
  else (RError 404 "404 page not found", s).

(** ** Lemmas *)
Section Lemmas.
Context `{Kernel}.
Hypothesis alone : quiet.
Variables (dial : fs → str → result unit) (listen_tcp : str → M Z) (close_tcp : Z → M unit).
Hypothesis tcp_inert : ∀ a o, sys (listen_tcp a o).2 = sys o.
Hypothesis close_inert : ∀ l o, sys (close_tcp l o).2 = sys o.
Lemma close_all_inert ls o : sys (close_all close_tcp ls o).2 = sys o.
Proof.
  revert o. induction ls as [|l ls IH]; intros o; [done|]. cbn [close_all]. unfold mbind, M_bind, ignore.
  by rewrite IH, close_inert.
Qed.
Lemma open_all_inert opened addrs o : sys (open_all listen_tcp close_tcp opened addrs o).2 = sys o.
Proof.
  revert opened o. induction addrs as [|a addrs IH]; intros opened o; [done|]. cbn [open_all].
  unfold mbind, M_bind, try. pose proof (tcp_inert a o) as Ht. destruct (listen_tcp a o) as [[l|e] o1]; cbn [snd] in Ht.
  - by rewrite IH.
  - pose proof (close_all_inert opened o1) as Hc. destruct (close_all close_tcp opened o1) as [[u|e'] o2]; cbn in *; congruence.
Qed.
Lemma open_all_length opened addrs o ls o' :
  open_all listen_tcp close_tcp opened addrs o = (Ok ls, o') → length ls = (length opened + length addrs)%nat.
Proof.
  revert opened o. induction addrs as [|a addrs IH]; intros opened o; cbn [open_all].
  - intros [= <- _]. cbn. lia.
  - unfold mbind, M_bind, try. destruct (listen_tcp a o) as [[l|e] o1].
    + intros Ho%IH. rewrite length_app in Ho. cbn [length] in *. lia.
    + by destruct (close_all close_tcp opened o1) as [[u|e'] o2].
Qed.
Lemma bind_ext {A B} (m : M A) (f g : A → M B) o :
  (∀ a o', m o = (Ok a, o') → f a o' = g a o') → (m ≫= f) o = (m ≫= g) o.
Proof. intros Hf. unfold mbind, M_bind. destruct (m o) as [[a|e] o']; [by apply Hf|done]. Qed.
Lemma finally_ext {A} (m n : M A) d o : m o = n o → finally m d o = finally n d o.
Proof. unfold finally. by intros ->. Qed.
Lemma spares_clear_path X path : ¬ X path → spares X (clear_path dial path).
Proof.
  intros Hp. unfold clear_path, Lstat, Dial. apply spares_bind; [by apply spares_try, spares_query|]. intros [i|e].
  - destruct (negb _); [apply spares_lift|]. apply spares_bind; [by apply spares_try, spares_query|].
    intros [u|e]; [apply spares_lift|]. destruct (negb _); [apply spares_lift|by apply spares_Remove].
  - destruct (errors_Is e ErrNotExist); [apply spares_ret|apply spares_lift].
Qed.
End Lemmas.

(** ** Properties *)
Section Properties.
Context `{Kernel}.
Variables (dial : fs → str → result unit) (listen_tcp : str → M Z) (close_tcp : Z → M unit).

(** C32: The daemon serves only when it is alone. Connections are accepted, and the control
    interface answers, only in states in which the control socket is the daemon's own,
    private, and its lock is held, with every listener of the configuration open: what the
    main loop would do in any other state has no influence on any run, because no run, on
    any machine, whatever calls fail, reaches the main loop in such a state. *)
Theorem serves_alone main1 main2 c o :
  quiet → (∀ a o, sys (listen_tcp a o).2 = sys o) → (∀ l o, sys (close_tcp l o).2 = sys o) →
  (∀ ls o fd, listening (ControlSocket (Config.Runtime c)) 384 fd (sys o) → length ls = length (Config.Listen c) →
     main1 ls o = main2 ls o) →
  Run dial listen_tcp close_tcp main1 c o = Run dial listen_tcp close_tcp main2 c o.
Proof.
  intros alone Ht Hc Hm. unfold Run. apply bind_ext. intros [] o1 _. apply bind_ext. intros unlock o2 _.
  apply finally_ext. unfold serve_on. apply bind_ext. intros [fd cleanup] o3 HL.
  destruct (Listen_listens dial alone (ControlSocket (Config.Runtime c)) o2 I) as [Hl _]. rewrite HL in Hl. destruct Hl as [Hl _].
  apply finally_ext, bind_ext. intros ls o4 Ho.
  pose proof (open_all_inert listen_tcp close_tcp Ht Hc [] (Config.Listen c) o3) as Hs. rewrite Ho in Hs. cbn [snd] in Hs.
  unfold mbind, M_bind. rewrite (Hm ls o4 fd); [done| |].
  - by rewrite Hs.
  - by apply open_all_length in Ho.
Qed.
End Properties.

(** ** Witness: a main loop that would fail without its socket is never found out *)
#[local] Existing Instance no_faults.
Definition demo_tcp (a : str) : M Z := mret 7.
Definition demo_main (ls : list Z) : M (option error) := mret None.
Definition wary_main (ls : list Z) : M (option error) := λ o,
  match dents (sys o) !! ("/var/run/utlsproxy/control.sock" : str) with Some _ => (Ok None, o) | None => (Err stale, o) end.
Definition demo_start : os := mkOs demo_machine 0 [].
Lemma serves_alone_witness :
  (Run dead demo_tcp (λ _, mret tt) demo_main (Defaults "linux") demo_start).1
  = (Run dead demo_tcp (λ _, mret tt) wary_main (Defaults "linux") demo_start).1.
Proof.
  apply (f_equal fst). apply (@serves_alone no_faults dead demo_tcp (λ _, mret tt) demo_main wary_main (Defaults "linux") demo_start).
  - intros k s. reflexivity.
  - reflexivity.
  - reflexivity.
  - intros ls o fd Hl _. pose proof (li_entry _ _ _ _ Hl) as He.
    change (dents (sys o) !! ("/var/run/utlsproxy/control.sock" : str) = Some fd) in He. unfold wary_main. rewrite He. reflexivity.
Defined.
Lemma demo_start_serves : (Run dead demo_tcp (λ _, mret tt) demo_main (Defaults "linux") demo_start).1 = Ok tt.
Proof. vm_compute. reflexivity. Qed.
