(* ===== verification/Cli.v ===== *)
(** * Cli: the command line (run and its helpers in src/internal/cli/cli.go)

    The arguments become an [invocation]; [dispatch] runs it with the components. What is
    outside the program is the class [Outside]. *)
From S2P Require Import Prelude Strs NetIP Profiles Config ConfigJSON JSONText Durations Fsutil Frames ConfigLoad Control Discovery Hosts HostsApply.
From S2P Require Import Upstream CA Proxy Daemon Logging Trust Service Command TestCommand.

(** ** The outside *)
Class Outside `{Kernel, Dialer} := {
  GOOS : str;
  Version_of : str;
  Abs : str → result str;
  eval_links : fs → str → result str;
  sha256 : str → str;
  now : Z;
  stamp : str;
  entropy : Entropy;
  InterfaceAddrs : M (list str);
  DialTCP : str → M unit;
  http : str → str → str → M (Z * str * str);             (* socket, method and path *)
  parse_status : str → result Status;
  parse_any : str → result str;
  dial_now : Config → str → list str → M (UpConn * list str * str);
  dial_now_dials c host offered o : dials c host offered (dial_now c host offered o).1;
  resolver_error : DNS → M str;                            (* the resolver's last error *)
  lookup_now : DNS → str → M (list Addr);
  run_tool : runner;
  exec : str → list str → M (str * option error);
  daemon_status : str → M DaemonStatus;
  context_error : M (option error);
  wait_turns : nat;
  manifest_json : Manifest → str;
  parse_manifest : str → result Manifest;
  root_owned : fs → str → result unit;
  Executable : result str;
  visit : ∀ A, list A → list A;
  dial_unix : fs → str → result unit;
  listen_tcp : str → M Z;
  close_tcp : Z → M unit;
  main_loop : Config → str → list Z → M (option error);    (* Proxy.v's steps, with the signals *)
  (* the temporary test *)
  partly : nat → str → bool;
  reserve_port : M str;
  exchange : str → option str → M (Z * str * str);
  parse_fingerprint : str → result Fingerprint;
  has_certificate : str → bool;
  test_daemon : M (option (option error));
  test_pause : M (option error);
  test_halt : M (option error);
  test_turns : nat }.

(** ** Arguments *)
Record invocation := mkInvocation { cmd : str; sub : str; name : str; given : settings }.
Section Arguments.
Context `{Unicode}.
Definition takes_sub (cmd : str) : bool :=
  str_mem cmd ["config" : str; "ca" : str; "profiles" : str; "hosts" : str; "service" : str].
Definition use_ca : error := invalid (errors_New "use ca init, inspect, trust, trust-status or untrust").
Definition S_ (n : str) : str * kind := (n, KString).
Definition B_ (n : str) : str * kind := (n, KBool).
(** The flags of a command besides [config] and [json]. *)
Definition flags_of (cmd sub : str) : result (list (str * kind)) :=
  if cmd == "config" then Ok [S_ "output"; B_ "effective"; B_ "local"]
  else if cmd == "ca" then
    if sub == "init" then Ok [S_ "dir"; S_ "name"; ("validity" : str, KDuration)]
    else if str_mem sub ["inspect" : str; "trust" : str; "untrust" : str; "trust-status" : str] then
      Ok (S_ "cert" :: if (sub == "trust") || (sub == "untrust") then [B_ "dry-run"] else [])
    else Err use_ca
  else if cmd == "serve" then Ok [S_ "listen"; S_ "profile"; S_ "alpn-mode"; S_ "dns"; S_ "log-file"]
  else if str_mem cmd ["status" : str; "connections" : str; "reload" : str] then Ok [S_ "socket"]
  else if cmd == "doctor" then Ok [S_ "domain"]
  else if cmd == "test" then Ok [S_ "profile"; S_ "dns"]
  else if cmd == "hosts" then Ok [S_ "address"; B_ "dry-run"]
  else if (cmd == "install-service") || (cmd == "uninstall-service") then
    Ok (B_ "dry-run" :: if cmd == "uninstall-service" then [B_ "remove-hosts"; B_ "keep-hosts"] else [])
  else if str_mem cmd ["profiles" : str; "service" : str; "version" : str] then Ok []
  else Err (invalid (errors_New ("unknown command " ++ Quote cmd))).
Definition map_err {A} (f : error → error) (r : result A) : result A :=
  match r with Ok a => Ok a | Err e => Err (f e) end.
Definition with_flags (cmd sub name : str) (rest : list str) : result (option invocation) :=
  fl ← flags_of cmd sub;
  '(l, others) ← map_err invalid (Parse_flags (S_ "config" :: B_ "json" :: fl) rest);
  match others with
  | [] => Ok (Some (mkInvocation cmd sub name l))
  | _ => Err (invalid (errors_New ("unexpected arguments: " ++ show_strs others)))
  end.
Definition is_help (s : str) : bool := (s == "--help") || (s == "-h").
(** [None]: the help text is wanted. *)
Definition parse_args (args : list str) : result (option invocation) :=
  match args with
  | [] => Ok None
  | cmd :: rest =>
      if (cmd == "help") || is_help cmd then Ok None
      else if takes_sub cmd then
        match rest with
        | [] => Err (invalid (errors_New (cmd ++ " requires a subcommand")))
        | sub :: rest =>
            if is_help sub then Ok None
            else if (cmd == "profiles") && (sub == "show") then
              match rest with
              | [] => Err (invalid (errors_New "profiles show requires NAME"))
              | name :: rest => with_flags cmd sub name rest
              end
            else with_flags cmd sub [] rest
        end
      else with_flags cmd [] [] rest
  end.

End Arguments.

Section Cli.
Context `{Unicode, IDNA, Kernel, Dialer, CA.Encoding, Formats, !Outside}.
Definition platform_paths : Paths := PlatformPaths GOOS.
Definition config_path (l : settings) : str := string_flag l "config" (PConfig platform_paths).
Definition load_config (path : str) : M Config := ConfigLoad.Load Abs GOOS path.

(** ** [config init] *)
Definition local_config (abs : str) (c : Config) : Config :=
  let base := DirOf abs in
  let r := Config.Runtime c in
  let state := JoinPath base "state" in
  set_Runtime (mkRuntime state (JoinPath state "control.sock") (MaxConnections r) (HandshakeTimeout r) (IdleTimeout r) (ShutdownTimeout r))
    (set_CA (mkCA (JoinPath (JoinPath base "ca") "ca.crt") (JoinPath (JoinPath base "ca") "ca.key"))
       (set_Listen ["127.0.0.1:8443" : str] c)).
Definition config_text (c : Config) : str := MarshalIndent (encode_config c) ++ [nl].
Definition config_init (l : settings) : C unit :=
  let output := string_flag l "output" "" in
  abs ← done_with (Abs (if output == "" then config_path l else output));
  let c := Defaults GOOS in
  let c := if bool_flag l "local" then local_config abs c else c in
  c ← or_else invalid (done_with (checked (Validate c)));
  _ ← call (MkdirAll (DirOf abs) 448);
  _ ← call (Exclusive abs (config_text c) 384);
  say (Line ("Created " ++ abs ++ [nl] ++ "Edit domains and settings before running.")).

(** ** [ca] *)
Definition Base (p : str) : str := match CutLast p slash with Some (_, b) => b | None => p end.
(** The manager that [trust.New] makes, with its backend. *)
Definition trust_execute (p : Trust.platform) (dir action path : str) (dry : bool) : M (Trust.Report * option error) :=
  let B := match p with
           | Mac keychain => mac_backend keychain run_tool context_error
           | Linux l => linux_backend l run_tool (linux_protect root_owned) (RootOwned_call root_owned) now
           end in
  @Trust.Execute _ _ B dir (manager_protect root_owned) Abs now action path dry.
Definition ca_trust (sub cert : str) (dry asJSON : bool) : C unit :=
  '(p, dir) ← call (Trust.New GOOS);
  '(report, e) ← call (trust_execute p dir sub cert dry);
  _ ← show asJSON (ShownReport report);
  match e with
  | Some e => quit (if errors_Is e ErrNotTrusted && (sub == "trust-status") then with_code 5 e else e)
  | None => mret tt
  end.
Definition needs_directory : error :=
  invalid (errors_New "ca init needs a directory containing ca.crt and ca.key; specify --dir").
Definition ca_init_dir (dir defaultCert defaultKey : str) : result str :=
  if dir == "" then
    if (DirOf defaultCert != DirOf defaultKey) || (Base defaultCert != "ca.crt") || (Base defaultKey != "ca.key")
    then Err needs_directory
    else Ok (DirOf defaultCert)
  else Ok dir.
Definition ca_command (sub : str) (l : settings) : C unit :=
  let asJSON := bool_flag l "json" in
  '(defaultCert, defaultKey) ←
    (if is_set l "config" then
       c ← or_else invalid (call (load_config (config_path l)));
       mret (Cert (Config.CA c), Key (Config.CA c))
     else mret (JoinPath (PCA platform_paths) "ca.crt", JoinPath (PCA platform_paths) "ca.key"));
  let cert := string_flag l "cert" "" in
  let cert := if cert == "" then defaultCert else cert in
  if (sub == "trust") || (sub == "untrust") || (sub == "trust-status") then
    ca_trust sub cert (bool_flag l "dry-run") asJSON
  else
    info ← (if sub == "init" then
              dir ← done_with (ca_init_dir (string_flag l "dir" "") defaultCert defaultKey);
              dir ← done_with (Abs dir);
              call (CA.Init dir (string_flag l "name" "utlsproxy Local CA")
                      (duration_flag l "validity" (10 * 365 * 24 * Hour)) now entropy)
            else if sub == "inspect" then call (CA.Inspect cert)
            else quit use_ca);
    show asJSON (ShownInfo info).

(** ** The hosts file *)
Definition hosts_file : str := "/etc/hosts".
(** [hosts.Prepare] on the files as they are. *)
Definition Prepare_now (path : str) (domains : list str) (address : str) (remove : bool) : M (Hosts.Plan * option error) :=
  r ← try (resolved ← query (λ s, eval_links s path); _ ← Fsutil.Regular resolved; b ← ReadFile resolved; mret (resolved, b));
  mret (match r with
        | Err e => (zero_Plan, Some e)
        | Ok (resolved, b) => Hosts.Prepare (λ _, Ok resolved) (λ _, Ok tt) (λ _, Ok b) path domains address remove
        end).
Definition is_local (address : str) (local : list Addr) : bool :=
  match ParseAddr address with Some ip => IsLoopback ip || bool_decide (ip ∈ local) | None => false end.
Definition local_addresses : M (list Addr) := addrs ← try InterfaceAddrs; lift (LocalAddresses addrs).
Definition lan_note : str :=
  "LAN target: only TCP reachability can be checked; verify the remote domain allowlist and CA trust on each client.".
(** What [changeHosts] does with the plan. *)
Definition apply_plan (p : Hosts.Plan) (stateDir : str) (dry : bool) : C unit :=
  _ ← say (Line (Diff p));
  if dry || negb (Hosts.Changed p) then mret tt
  else if negb (euid =? 0) then quit not_permitted
  else
    '(backup, e) ← call (HostsApply.Apply sha256 p stateDir stamp);
    match e with Some e => quit e | None => say (Line ("Hosts updated. Backup: " ++ backup ++ [nl]
      ++ "Refresh browser connections; OS/browser DNS caches may need refreshing.")) end.
Definition changeHosts (c : option Config) (address : str) (remove dry : bool) : C unit :=
  '(domains, stateDir) ←
    match c with
    | None => mret ([], PState platform_paths)
    | Some c =>
        local ← call local_addresses;
        _ ← (if is_local address local then mret tt else say (Line lan_note));
        mret (Domains c, StateDir (Config.Runtime c))
    end;
  '(p, e) ← call (Prepare_now hosts_file domains address remove);
  match e with Some e => quit e | None => apply_plan p stateDir dry end.

(** ** Requests to the daemon *)
Definition status_of (socket : str) : M Status :=
  reply ← try (http socket "GET" "/v1/status");
  lift (Control.Request reply parse_status socket).
Definition degraded_error : error := mkError "daemon is degraded" [ErrDegraded].
Definition inspect (cmd socket : str) (asJSON : bool) : C unit :=
  if cmd == "status" then
    s ← or_else (with_code 3) (call (status_of socket));
    _ ← show asJSON (ShownStatus s);
    if Health s != "ready" then quit degraded_error else mret tt
  else
    let '(path, method) := if cmd == "reload" then ("/v1/reload" : str, "POST" : str) else ("/v1/connections" : str, "GET" : str) in
    v ← or_else (with_code 3) (call (reply ← try (http socket method path); lift (Control.Request reply parse_any socket)));
    emit (ShownReply v).

(** ** [hosts apply]: what must hold before the file is changed *)
Definition protocols : list str := ["h2" : str; "http/1.1" : str].
Definition listens_on (ip : Addr) (l : str) : bool :=
  match ParseAddrPort l with
  | Some a => (ap_port a =? 443) && (addr_eqb (ap_addr a) ip || IsUnspecified (ap_addr a))
  | None => false
  end.
Definition not_ready_error : error := errors_New "hosts apply requires a ready daemon".
Definition not_listening : error := errors_New "daemon must listen on the hosts destination at port 443".
Definition not_allowed (d : str) : error := errors_New ("daemon does not allow " ++ d ++ "; reload first").
Fixpoint probe_all (c : Config) (domains : list str) : M unit :=
  match domains with
  | [] => mret tt
  | d :: domains =>
      r ← try (dial_now c d protocols);
      match r with
      | Err e => fail (Errorf_w ("hosts preflight " ++ d ++ ": ") e)
      | Ok _ => probe_all c domains
      end
  end.
Definition check_daemon (c : Config) (address : str) : M unit :=
  s ← status_of (ControlSocket (Config.Runtime c));
  _ ← lift (guard_err (Health s != "ready") not_ready_error);
  let ip := default AddrZero (ParseAddr address) in
  _ ← lift (guard_err (negb (existsb (listens_on ip) (Config.Listen (SConfig s)))) not_listening);
  _ ← lift (each (λ d, guard_err (negb (AllowsDomain (SConfig s) d)) (not_allowed d)) (Domains c));
  probe_all (SConfig s) (Domains c).
Definition hostsPreflight (c : Config) (address : str) : M unit :=
  local ← local_addresses;
  if negb (is_local address local) then DialTCP (JoinHostPort address "443")
  else check_daemon c address.
Definition bad_address : error := invalid (errors_New "--address must be unicast IPv4").
Definition unicast4 (address : str) : bool :=
  match ParseAddr address with
  | Some ip => Is4 ip && negb (IsUnspecified ip) && negb (IsMulticast ip)
  | None => false
  end.
Definition hosts_command (sub : str) (l : settings) (c : Config) : C unit :=
  let address := string_flag l "address" "" in
  let address := if address == "" then HostsAddress c else address in
  let dry := bool_flag l "dry-run" in
  _ ← done_with (guard_err (negb (unicast4 address)) bad_address);
  if sub == "status" then
    '(p, e) ← call (Prepare_now hosts_file (Domains c) address false);
    _ ← show (bool_flag l "json") (ShownHosts p);
    give e
  else if sub != "apply" then quit (invalid (errors_New "use hosts status, apply or remove"))
  else
    _ ← (if dry then mret tt else call (hostsPreflight c address));
    changeHosts (Some c) address false dry.

(** ** [uninstall-service], [service], [install-service] *)
Definition both_flags : error := invalid (errors_New "choose only one of --remove-hosts and --keep-hosts").
Definition entries_exist : error :=
  invalid (errors_New "managed hosts entries exist; specify --remove-hosts or --keep-hosts").
Definition run_answer (m : M (str * option error)) : C unit :=
  '(text, e) ← call m; _ ← say (Line text); give e.
Definition uninstall_service (l : settings) : C unit :=
  let removeHosts := bool_flag l "remove-hosts" in
  let keepHosts := bool_flag l "keep-hosts" in
  let dry := bool_flag l "dry-run" in
  _ ← done_with (guard_err (removeHosts && keepHosts) both_flags);
  '(p, e) ← call (Prepare_now hosts_file [] "" true);
  _ ← give e;
  _ ← done_with (guard_err ((0 <? length (Hosts.Managed p))%nat && negb removeHosts && negb keepHosts) entries_exist);
  _ ← (if removeHosts then changeHosts None "" true dry else mret tt);
  run_answer (Service.Uninstall GOOS exec daemon_status parse_manifest sha256 visit dry).
Definition service_command (sub : str) (l : settings) : C unit :=
  '(text, e) ← call (Service.Native GOOS exec sub);
  _ ← (if bool_flag l "json" then emit (ShownNative sub text (match e with None => true | Some _ => false end))
       else say (Line text));
  match e with
  | Some e => quit (if sub == "status" then with_code 3 e else e)
  | None => mret tt
  end.
Definition install_service (l : settings) (c : Config) : C unit :=
  let dry := bool_flag l "dry-run" in
  '(p, text, e) ← call (Service.Install GOOS exec daemon_status context_error wait_turns manifest_json parse_manifest sha256 Abs eval_links
                          root_owned Executable stamp visit c (config_path l) dry);
  _ ← (if dry || bool_flag l "json" then emit (ShownInstall p) else mret tt);
  _ ← say (Line text);
  give e.

(** ** The configuration with the command line's overrides *)
Definition override (l : settings) (c : Config) : Config :=
  let c := if is_set l "listen" then set_Listen [string_flag l "listen" ""] c else c in
  let u := Config.Upstream c in
  let c := if is_set l "profile" then set_Upstream (mkUpstream (Port u) (string_flag l "profile" "") (ALPNMode u)) c else c in
  let u := Config.Upstream c in
  let c := if is_set l "alpn-mode" then set_Upstream (mkUpstream (Port u) (UProfile u) (string_flag l "alpn-mode" "")) c else c in
  let d := CDNS c in
  let dns := string_flag l "dns" "" in
  if is_set l "dns" then
    if dns == "auto" then set_DNS (mkDNS "auto" [] (RefreshInterval d) (Timeout d) (CacheSize d)) c
    else set_DNS (mkDNS "manual" (Split dns (chr 44)) (RefreshInterval d) (Timeout d) (CacheSize d)) c
  else c.
Definition load (l : settings) : M Config :=
  c ← load_config (config_path l);
  lift (checked (Validate (override l c))).

(** ** [doctor] *)
Definition exact_domain : error := invalid (errors_New "doctor --domain requires an exact configured domain").
Definition doctor (c : Config) (domain : str) : C unit :=
  _ ← call (resolver_error (CDNS c));
  state ← call (try (status_of (ControlSocket (Config.Runtime c))));
  let daemon := match state with Ok s => Health s | Err _ => "not running at configured socket" : str end in
  probe ← (if domain != "" then
             host ← or_else (λ _, exact_domain) (done_with (Domain domain));
             _ ← done_with (guard_err (negb (AllowsDomain c host)) exact_domain);
             r ← call (try (dial_now c host protocols));
             mret (Some r)
           else mret None);
  _ ← emit (ShownDoctor daemon (match probe with Some (Ok (_, _, ip)) => Some (Ok ip) | Some (Err e) => Some (Err e) | None => None end));
  match probe with
  | Some (Err e) => quit e
  | _ => last_error ← call (resolver_error (CDNS c)); if last_error != "" then quit degraded_error else mret tt
  end.

(** ** [serve] *)
Inductive signal := Interrupt | Terminate | Hangup.
Inductive reaction := DoReload | DoCancel.
(** The goroutine that takes signals: the first one that stops the daemon is the last. *)
Fixpoint signal_loop (l : list signal) : list reaction :=
  match l with
  | [] => []
  | Hangup :: l => DoReload :: signal_loop l
  | _ :: _ => [DoCancel]
  end.
Definition serve (l : settings) (c : Config) : C unit :=
  let logFile := string_flag l "log-file" "" in
  let go :=
    abs ← done_with (Abs (config_path l));
    _ ← call (CA.Load (Cert (Config.CA c)) (Key (Config.CA c)) now);
    call (Daemon.Run dial_unix listen_tcp close_tcp (main_loop c abs) c) in
  if logFile != "" then
    rot ← call (Logging.Open logFile);
    r ← catch go;
    _ ← call (ignore (close_file rot));
    done_with r
  else go.

(** ** [run] *)
Definition temporary_test (profile dnsOption : str) (asJSON : bool) : C unit :=
  temporaryTest partly GOOS now entropy reserve_port InterfaceAddrs DialTCP exchange parse_fingerprint has_certificate
    test_daemon (λ s, http s "GET" "/v1/status") parse_status test_pause test_halt lookup_now test_turns profile dnsOption asJSON.
Definition profiles_command (sub name : str) : C unit :=
  if sub == "list" then emit (ShownProfiles List)
  else if sub == "show" then p ← or_else invalid (done_with (Profiles.Get name)); emit (ShownProfile p)
  else quit (invalid (errors_New "use profiles list or profiles show NAME")).
Definition with_config (i : invocation) (c : Config) : C unit :=
  let l := given i in
  if str_mem (cmd i) ["status" : str; "connections" : str; "reload" : str] then
    inspect (cmd i) (ControlSocket (Config.Runtime c)) (bool_flag l "json")
  else if cmd i == "hosts" then hosts_command (sub i) l c
  else if (cmd i == "config") && (sub i == "show") then emit (ShownConfig c)
  else
    _ ← call (CA.Load (Cert (Config.CA c)) (Key (Config.CA c)) now);
    if cmd i == "config" then
      if sub i != "validate" then quit (invalid (errors_New "use config init, validate or show"))
      else say (Line "Configuration and CA are valid.")
    else if cmd i == "doctor" then doctor c (string_flag l "domain" "")
    else if cmd i == "install-service" then install_service l c
    else if cmd i == "serve" then serve l c
    else quit (invalid (errors_New ("unsupported command " ++ cmd i))).
Definition dispatch (i : invocation) : C unit :=
  let l := given i in
  if cmd i == "version" then show (bool_flag l "json") ShownVersion
  else if cmd i == "test" then
    temporary_test (string_flag l "profile" "chrome-133") (string_flag l "dns" "auto") (bool_flag l "json")
  else if cmd i == "profiles" then profiles_command (sub i) (name i)
  else if cmd i == "service" then service_command (sub i) l
  else if (cmd i == "config") && (sub i == "init") then config_init l
  else if cmd i == "ca" then ca_command (sub i) l
  else if (cmd i == "hosts") && (sub i == "remove") then changeHosts None "" true (bool_flag l "dry-run")
  else if cmd i == "uninstall-service" then uninstall_service l
  else
    let socket := string_flag l "socket" "" in
    if str_mem (cmd i) ["status" : str; "connections" : str; "reload" : str] && (socket != "") then
      inspect (cmd i) socket (bool_flag l "json")
    else c ← or_else invalid (call (load l)); with_config i c.
Definition run (args : list str) : C unit :=
  i ← done_with (parse_args args);
  match i with
  | None => say (Human ShownHelp)
  | Some i => dispatch i
  end.
(** [Execute]: the exit code, and what was done. *)
Definition Execute (args : list str) (t : term) : Z * term := let '(r, t') := run args t in (exit_code r, t').
End Cli.
