(* ===== verification/CliSafety.v ===== *)
(** * CliSafety: what the command line promises

    The flags are read back as they were written; what is not understood changes nothing;
    the exit codes of the inspection; and the configuration that [config init] writes. *)
From S2P Require Import ServiceSafety TrustSafety.
From S2P Require Import Prelude Strs NetIP Config ConfigJSON JSONText Durations Fsutil Frames ConfigLoad Control Hosts HostsApply.
From S2P Require Import Upstream CA Proxy Service Trust Command TestCommand Cli.

(** ** Flags *)
Definition show_bool (b : bool) : str := if b then "true" else "false".
Definition show_value (v : value) : str :=
  match v with VString s => s | VBool b => show_bool b | VDuration d => Duration_String d end.
Definition kind_of (v : value) : kind := match v with VString _ => KString | VBool _ => KBool | VDuration _ => KDuration end.
(** The ways to write a setting: as one argument, with one hyphen or two; as two arguments
    when its flag is not a boolean; and the flag alone for a boolean that is set. *)
Definition flag_name (double : bool) (n : str) : str := if double then dash :: dash :: n else dash :: n.
Inductive written : str * value → list str → Prop :=
  | written_one double n v : written (n, v) [flag_name double n ++ equals :: show_value v]
  | written_two double n v : kind_of v ≠ KBool → written (n, v) [flag_name double n; show_value v]
  | written_alone double n : written (n, VBool true) [flag_name double n].
Definition proper_name (n : str) : Prop := n ≠ [] ∧ equals ∉ n ∧ head n ≠ Some dash.
Definition proper_setting (formal : list (str * kind)) (nv : str * value) : Prop :=
  proper_name nv.1 ∧ formal_kind nv.1 formal = Some (kind_of nv.2) ∧
  match nv.2 with VDuration d => - 2 ^ 63 ≤ d < 2 ^ 63 | _ => True end.
Lemma Set_show name v : match v with VDuration d => - 2 ^ 63 ≤ d < 2 ^ 63 | _ => True end →
  Set_ name (kind_of v) (show_value v) = Ok v.
Proof.
  destruct v as [s|b|d]; intros Hd; [done|by destruct b|]. cbn. by rewrite ParseDuration_String.
Qed.
Lemma app_first_inj {A} (c : A) a b a' b' : c ∉ a → c ∉ a' → a ++ c :: b = a' ++ c :: b' → a = a' ∧ b = b'.
Proof.
  intros Ha Ha'. revert a' Ha'. induction a as [|x a IH]; intros [|y a'] Ha' E; cbn in E.
  - by injection E.
  - injection E as -> _. exfalso. apply Ha'. by left.
  - injection E as -> _. exfalso. apply Ha. by left.
  - injection E as -> E. destruct (IH ltac:(set_solver) a' ltac:(set_solver) E) as [-> ->]. done.
Qed.
Lemma Cut_at n v : equals ∉ n → Cut (n ++ equals :: v) equals = (n, v, true).
Proof.
  intros Hn. destruct (Cut_spec (n ++ equals :: v) equals) as [(b & a & -> & E & Hb)|[_ Hx]].
  - by destruct (app_first_inj _ _ _ _ _ Hn Hb E) as [-> ->].
  - exfalso. apply Hx. set_solver.
Qed.
Lemma Cut_none n : equals ∉ n → Cut n equals = (n, [], false).
Proof.
  intros Hn. destruct (Cut_spec n equals) as [(b & a & _ & E & _)|[-> _]]; [|done]. exfalso. apply Hn. rewrite E. set_solver.
Qed.
Lemma classify_flag double n r : proper_name n → classify (flag_name double n ++ r) = Flag (n ++ r).
Proof.
  intros (Hn & _ & Hd). destruct n as [|c n]; [done|]. destruct double; cbn [flag_name app classify].
  - rewrite !beq_refl. done.
  - rewrite beq_refl. cbn [negb]. destruct (beq_spec c dash) as [->|_]; [done|]. done.
Qed.
(** One setting is parsed, however it is written. *)
Lemma parse_written formal nv args l rest others :
  proper_setting formal nv → written nv args → Parse_flags formal rest = Ok (l, others) →
  Parse_flags formal (args ++ rest) = Ok (nv :: l, others).
Proof.
  intros (Hn & Hk & Hd) Hw Hr. pose proof Hn as (Hne & Heq & Hdash).
  assert (∀ r, match nv.1 ++ r with [] => False | c :: _ => beq c dash || beq c equals = false end) as Hhead.
  { intros r. destruct nv as [[|c n] v]; [done|]. cbn in *. destruct (beq_spec c dash) as [->|_]; [done|].
    destruct (beq_spec c equals) as [->|_]; [|done]. exfalso. apply Heq. by left. }
  destruct Hw as [double n v|double n v Hnb|double n]; cbn [fst snd app] in *; cbn [Parse_flags].
  - rewrite classify_flag by done. specialize (Hhead (equals :: show_value v)).
    destruct (n ++ equals :: show_value v) as [|c t] eqn:E; [done|]. rewrite Hhead, <- E, Cut_at by done.
    rewrite Hk. pose proof (Set_show n v Hd) as Hs. destruct v; cbn [kind_of] in *; rewrite Hs; cbn [mbind result_bind]; by rewrite Hr.
  - rewrite <- (app_nil_r (flag_name double n)), classify_flag by done. rewrite app_nil_r. specialize (Hhead []). rewrite app_nil_r in Hhead.
    destruct n as [|c t] eqn:E; [done|]. rewrite Hhead, Cut_none by done.
    rewrite Hk. pose proof (Set_show (c :: t) v Hd) as Hs. destruct v; cbn [kind_of] in *; [|done|]; rewrite Hs; cbn [mbind result_bind]; by rewrite Hr.
  - rewrite <- (app_nil_r (flag_name double n)), classify_flag by done. rewrite app_nil_r. specialize (Hhead []). rewrite app_nil_r in Hhead.
    destruct n as [|c t] eqn:E; [done|]. rewrite Hhead, Cut_none by done.
    rewrite Hk. cbn [kind_of mbind result_bind]. by rewrite Hr.
Qed.
Lemma parse_settings formal l argss rest :
  Forall (proper_setting formal) l → Forall2 written l argss → (∀ s r, rest = s :: r → classify s = Plain) →
  Parse_flags formal (mjoin argss ++ rest) = Ok (l, rest).
Proof.
  intros Hp Hw Hr. revert Hp. induction Hw as [|nv args l argss Hw _ IH]; intros Hp.
  - destruct rest as [|s r]; [done|]. cbn [mjoin list_join app Parse_flags]. by rewrite (Hr s r eq_refl).
  - apply Forall_cons in Hp as [Hnv Hp]. rewrite mjoin_cons, <- app_assoc. eapply parse_written; [done|done|by apply IH].
Qed.
(** C33: The command line means what it says: whatever settings of a command's flags are given,
    each in any of the ways a flag can be written (one hyphen or two, the value after an
    equals sign or as the next argument, a boolean flag alone), the command runs with exactly
    these settings, in their order, with the strings, booleans and durations they were
    written from; and a first argument that is no flag is refused. *)
Theorem flags_roundtrip `{Unicode} cmd sub name fl l argss rest :
  flags_of cmd sub = Ok fl → Forall (proper_setting (S_ "config" :: B_ "json" :: fl)) l → Forall2 written l argss →
  (∀ s r, rest = s :: r → classify s = Plain) →
  with_flags cmd sub name (mjoin argss ++ rest)
  = match rest with
    | [] => Ok (Some (mkInvocation cmd sub name l))
    | _ => Err (invalid (errors_New ("unexpected arguments: " ++ show_strs rest)))
    end.
Proof.
  intros Hf Hp Hw Hr. unfold with_flags. rewrite Hf. cbn [mbind result_bind]. rewrite (parse_settings _ _ _ _ Hp Hw Hr).
  by destruct rest.
Qed.

(** ** What is not understood, and the inspection *)
Lemma with_flags_Err `{Unicode} cmd sub name rest e : with_flags cmd sub name rest = Err e → first_code (chain e) = Some 2.
Proof.
  unfold with_flags. destruct (flags_of cmd sub) as [fl|e'] eqn:Ef; cbn [mbind result_bind].
  - destruct (Parse_flags _ rest) as [[l others]|e']; cbn [map_err mbind result_bind]; [|by intros [= <-]].
    destruct others; [done|by intros [= <-]].
  - intros [= <-]. revert Ef. unfold flags_of.
    repeat match goal with |- context [if ?b then _ else _] => destruct b end; try done; by intros [= <-].
Qed.
Lemma parse_args_Err `{Unicode} args e : parse_args args = Err e → first_code (chain e) = Some 2.
Proof.
  destruct args as [|c rest]; [done|]. cbn [parse_args]. destruct (_ || _); [done|]. destruct (takes_sub c); [|apply with_flags_Err].
  destruct rest as [|s rest]; [by intros [= <-]|]. destruct (is_help s); [done|]. destruct (_ && _); [|apply with_flags_Err].
  destruct rest; [by intros [= <-]|apply with_flags_Err].
Qed.
(** Evaluate the comparisons of literals that choose the command. *)
Ltac choose := cbn [cmd sub name given];
  repeat match goal with
  | |- context [?a == ?b] => let r := eval vm_compute in (a == b) in
      lazymatch r with true => change (a == b) with true | false => change (a == b) with false end
  | |- context [str_mem ?a ?b] => let r := eval vm_compute in (str_mem a b) in
      lazymatch r with true => change (str_mem a b) with true | false => change (str_mem a b) with false end
  end; cbn [andb orb negb].
Section Codes.
Context `{Unicode, IDNA, Kernel, Dialer, CA.Encoding, Formats, !Outside}.
(** A command line that is not understood does nothing: with an unknown command or
    subcommand, an unknown or malformed flag, a value that does not parse or an argument
    too many, the exit code is 2 (0 when a flag asked for help), no file and no process was
    touched and nothing was printed. *)
Theorem not_understood args e t :
  parse_args args = Err e → Execute args t = (if errors_Is e FlagHelp then 0 else 2, t).
Proof.
  intros Hp. unfold Execute, run, mbind, C_bind, done_with. rewrite Hp. cbn [exit_code].
  by rewrite (parse_args_Err _ _ Hp).
Qed.
End Codes.

(** ** The configuration that [config init] writes *)
Lemma IsAbs_join base x : IsAbs base = true → x ≠ [] → IsAbs (JoinPath base x) = true.
Proof.
  intros Hb Hx. destruct (IsAbs x) eqn:E.
  2:{ pose proof (IsAbs_relative base x Hb Hx) as Hr. unfold relative in Hr. rewrite E in Hr.
      assert ((x == "") = false) as Hx' by (by apply str_eqb_neq). rewrite Hx' in Hr. exact Hr. }
  unfold JoinPath. assert ((x == "") = false) as -> by (by apply str_eqb_neq). destruct base as [|c b]; [done|].
  assert (((c :: b) == "") = false) as -> by (by apply str_eqb_neq). by apply IsAbs_Clean.
Qed.
Lemma IsAbs_DirOf p : IsAbs p = true → IsAbs (DirOf p) = true.
Proof.
  intros Hp. unfold DirOf. destruct (CutLast p slash) as [[d f]|] eqn:E.
  - apply CutLast_Some in E as [-> _]. apply IsAbs_Clean. by destruct d.
  - exfalso. destruct p as [|c p]; [done|]. cbn in Hp. destruct (beq_spec c slash) as [->|]; [|done].
    assert (∃ b a, slash :: p = b ++ slash :: a ∧ slash ∉ a) as (b & a & Eb & Ha).
    { clear E Hp. induction p as [|x p IH] using rev_ind; [exists [], []; split; [done|by apply not_elem_of_nil]|]. destruct IH as (b & a & Eb & Ha).
      destruct (decide (x = slash)) as [->|Hx].
      - exists (slash :: p), []. split; [done|set_solver].
      - exists b, (a ++ [x]). split; [by rewrite app_comm_cons, Eb, <- app_assoc|set_solver]. }
    rewrite (proj2 (CutLast_Some _ _ _ _) (conj Eb Ha)) in E. done.
Qed.
(** Paths made of valid UTF-8 are valid UTF-8. *)
Lemma utf8_Split s : utf8 s → Forall utf8 (Split s slash).
Proof.
  remember (length s) as n eqn:En. assert (length s ≤ n)%nat as Hn by lia. clear En. revert s Hn.
  induction n as [|n IH]; intros s Hn Hs; destruct (Cut_spec s slash) as [(b & a & _ & E & Hb)|[_ Hx]].
  - exfalso. rewrite E, length_app in Hn. cbn in Hn. lia.
  - rewrite Split_notin by done. by apply Forall_singleton.
  - rewrite E in Hs |- *. apply utf8_cut in Hs as [Ha Hc]; [|done]. rewrite Split_line by done. apply Forall_cons.
    split; [done|]. apply IH; [|done]. rewrite E, length_app in Hn. cbn in Hn. lia.
  - rewrite Split_notin by done. by apply Forall_singleton.
Qed.
Lemma utf8_Join l : Forall utf8 l → utf8 (Join l [slash]).
Proof.
  induction 1 as [|x l Hx Hl IH]; [constructor|]. destruct l as [|y l]; [exact Hx|].
  change (Join (x :: y :: l) [slash]) with (x ++ [slash] ++ Join (y :: l) [slash]). apply utf8_app; [done|].
  apply utf8_app; [by apply utf8_ascii|done].
Qed.
Lemma utf8_clean_parts r acc l : Forall utf8 acc → Forall utf8 l → Forall utf8 (clean_parts r acc l).
Proof.
  intros Ha Hl. revert acc Ha. induction Hl as [|x l Hx _ IH]; intros acc Ha; [done|]. cbn [clean_parts].
  destruct (_ || _); [by apply IH|]. destruct (x == ".."); [|by apply IH, Forall_cons].
  destruct acc as [|y acc]; [apply IH; destruct r; [done|by apply Forall_singleton]|].
  destruct (y == ".."); [by apply IH, Forall_cons|]. apply Forall_cons in Ha as [_ Ha]. by apply IH.
Qed.
Lemma utf8_Clean p : utf8 p → utf8 (Clean p).
Proof.
  intros Hp. unfold Clean. assert (utf8 (Join (reverse (clean_parts (IsAbs p) [] (Split p slash))) [slash])) as Hb.
  { apply utf8_Join, Forall_reverse, utf8_clean_parts; [by apply Forall_nil|by apply utf8_Split]. }
  destruct (IsAbs p); [by apply utf8_one|]. destruct (_ == _); [by apply utf8_ascii|done].
Qed.
Lemma utf8_JoinPath a b : utf8 a → utf8 b → utf8 (JoinPath a b).
Proof.
  intros Ha Hb. unfold JoinPath. destruct (_ && _); [constructor|]. destruct (a == ""); [by apply utf8_Clean|].
  destruct (b == ""); [by apply utf8_Clean|]. apply utf8_Clean, utf8_app; [done|by apply utf8_one].
Qed.
Lemma utf8_DirOf p : utf8 p → utf8 (DirOf p).
Proof.
  intros Hp. unfold DirOf. destruct (CutLast p slash) as [[d f]|] eqn:E; [|by apply utf8_ascii].
  apply CutLast_Some in E as [-> _]. apply utf8_cut in Hp as [Hd _]; [|done]. apply utf8_Clean, utf8_app; [done|by apply utf8_ascii].
Qed.
Lemma utf8_domain d : wf_domain d → utf8 d.
Proof.
  intros (_ & _ & HF). apply utf8_ascii, forallb_forall. intros c Hc%list_elem_of_In.
  destruct (Split_elem_bytes _ dot _ Hc) as [->|(l & Hl & Hcl)]; [done|]. rewrite Forall_forall in HF. by eapply wf_label_bytes; [apply HF|].
Qed.
Section Init.
Context `{Unicode, IDNA, Kernel, Dialer, CA.Encoding, Formats, !Outside}.
(** Documented behaviour: [idna.Lookup] is idempotent; [filepath.Abs] makes a path absolute
    and accepts every absolute path. *)
Hypothesis ToASCII_idem : ∀ s a, ToASCII s = Ok a → ToASCII a = Ok a.
Hypothesis Abs_absolute : ∀ p q, Abs p = Ok q → IsAbs q = true.
Hypothesis Abs_total : ∀ p, IsAbs p = true → is_ok (Abs p) = true.
Lemma config_init_Ok l t t' : config_init l t = (Ok tt, t') → ∃ abs c o1,
  Abs (if string_flag l "output" "" == "" then config_path l else string_flag l "output" "") = Ok abs ∧
  Validate (if bool_flag l "local" then local_config abs (Defaults GOOS) else Defaults GOOS) = (c, None) ∧
  MkdirAll (DirOf abs) 448 (t_os t) = (Ok tt, o1) ∧ Exclusive abs (config_text c) 384 o1 = (Ok tt, t_os t').
Proof.
  unfold config_init. intros (abs & t1 & [Ha ->]%done_with_Ok & Hr)%C_bind_Ok.
  apply C_bind_Ok in Hr as (c & t2 & [Hc ->]%or_else_Ok%done_with_Ok & Hr). apply checked_Ok in Hc.
  apply C_bind_Ok in Hr as ([] & t3 & (o1 & Hm & ->)%call_Ok & Hr).
  apply C_bind_Ok in Hr as ([] & t4 & (o2 & He & ->)%call_Ok & Hr). injection Hr as <-. cbn [t_os t_out] in *.
  exists abs, c, o1. done.
Qed.
Lemma init_paths l abs c :
  IsAbs abs = true → Validate (if bool_flag l "local" then local_config abs (Defaults GOOS) else Defaults GOOS) = (c, None) →
  Forall (λ p, IsAbs p = true) (paths_of c).
Proof.
  intros Ha (_ & _ & -> & _)%Validate_None. apply IsAbs_DirOf in Ha. unfold paths_of.
  destruct (bool_flag l "local"); cbn.
  - repeat (apply Forall_cons; split); [..|by apply Forall_nil]; repeat apply IsAbs_join; done.
  - unfold PlatformPaths. destruct (GOOS == "darwin"); by_compute.
Qed.
Lemma init_writable l abs c :
  utf8 abs → Validate (if bool_flag l "local" then local_config abs (Defaults GOOS) else Defaults GOOS) = (c, None) →
  writable (encode_config c).
Proof.
  intros Ha Hv. pose proof (wf_domains _ (Validate_wf _ _ Hv)) as Hd. apply Validate_None in Hv as (_ & _ & Hc & _).
  apply utf8_DirOf in Ha.
  assert (∀ (s : str), is_ascii s = true → utf8 s) as Hascii by exact utf8_ascii.
  assert (Forall writable (map JStr (Domains c))) as Hdom.
  { apply Forall_fmap. eapply Forall_impl; [exact Hd|]. intros d ?%utf8_domain. by constructor. }
  rewrite Hc. clear Hc Hd. revert Hdom. generalize (Domains c). clear c. intros ds Hds.
  assert (∀ x : str, is_ascii x = true → utf8 (JoinPath (DirOf abs) x)) as Hj.
  { intros x Hx. apply utf8_JoinPath; [done|by apply Hascii]. }
  assert (∀ x y : str, is_ascii x = true → is_ascii y = true → utf8 (JoinPath (JoinPath (DirOf abs) x) y)) as Hjj.
  { intros x y Hx Hy. apply utf8_JoinPath; [by apply Hj|by apply Hascii]. }
  unfold encode_config, strings, num, duration.
  destruct (bool_flag l "local"); unfold local_config, Defaults, PlatformPaths; destruct (GOOS == "darwin"); cbv zeta; fields;
    repeat lazymatch goal with
    | |- writable (JNum _) => apply writable_num
    | |- writable (JArr (map JStr ds)) => apply writable_arr, Hds
    | |- writable (JArr _) => apply writable_arr
    | |- writable (JObj _) => apply writable_obj
    | |- writable (JStr _) => apply writable_str
    | |- utf8 (JoinPath (JoinPath _ _) _) => apply Hjj; vm_compute; reflexivity
    | |- utf8 (JoinPath _ _) => apply Hj; vm_compute; reflexivity
    | |- utf8 _ => apply Hascii; vm_compute; reflexivity
    | |- Forall _ (fmap _ _) => cbv [fmap list_fmap fst snd]
    | |- Forall _ (map _ _) => cbn [map]
    | |- Forall _ [] => apply Forall_nil; exact I
    | |- Forall _ (_ :: _) => apply Forall_cons; split
    end.
Qed.
End Init.

(** ** Witnesses

    A machine on which nothing fails; its daemon is ready, and no network host is answered. *)
Definition demo_dialer : Dialer.
Proof.
  refine {| dials _ _ _ r := ∃ e, r = Err e |}.
  - intros c host offered u mods ip [e E]. discriminate E.
  - intros c host offered. exists (Err not_exist). by exists not_exist.
Defined.
Definition demo_abs (p : str) : result str := if IsAbs p then Ok p else Err not_exist.
Definition demo_daemon : Status := mkStatus "ready" [] (Defaults "linux") 1 0 0 0 0 ∅.
(** [exec] runs the programs the service manager is asked for. *)
Definition demo_outside : @Outside no_faults demo_dialer.
Proof.
  refine {| GOOS := "linux"; Version_of := "1"; Abs := demo_abs; eval_links _ p := Ok p; sha256 s := s; now := 0; stamp := "t0";
    entropy := CA.demo_entropy; InterfaceAddrs := mret ["192.0.2.7/24" : str]; DialTCP _ := mret tt;
    http _ _ _ := mret (200, "200 OK" : str, []); parse_status _ := Ok demo_daemon; parse_any _ := Ok [];
    dial_now _ _ _ := fail not_exist; resolver_error _ := mret []; lookup_now _ _ := mret []; run_tool _ _ _ := mret ([], None);
    exec _ _ := mret ([], None); daemon_status _ := fail not_exist; context_error := mret None; wait_turns := 1%nat;
    manifest_json := ServiceSafety.demo_json; parse_manifest := ServiceSafety.demo_parse; root_owned _ _ := Ok tt;
    Executable := Ok ("/opt/utlsproxy" : str); visit _ l := l; dial_unix _ _ := Err not_exist; listen_tcp _ := mret 7;
    close_tcp _ := mret tt; main_loop _ _ _ := mret None; partly _ _ := false; reserve_port := mret [];
    exchange _ _ := fail not_exist; parse_fingerprint _ := Err not_exist; has_certificate _ := false; test_daemon := mret None;
    test_pause := mret None; test_halt := mret None; test_turns := 1%nat |}.
  intros c host offered o. exists not_exist. reflexivity.
Defined.
Definition demo_term (s : fs) : term := mkTerm (mkOs s 0 []) [].
Lemma flags_roundtrip_witness :
  @with_flags ascii_only "ca" "init" [] ["--config=/etc/x.json" : str; "-validity" : str; "1h30m0s" : str; "--json" : str]
  = Ok (Some (mkInvocation "ca" "init" []
      [("config" : str, VString "/etc/x.json"); ("validity" : str, VDuration (90 * Minute)); ("json" : str, VBool true)])).
Proof.
  apply (@flags_roundtrip ascii_only "ca" "init" [] [S_ "dir"; S_ "name"; ("validity" : str, KDuration)]
    [("config" : str, VString "/etc/x.json"); ("validity" : str, VDuration (90 * Minute)); ("json" : str, VBool true)]
    [["--config=/etc/x.json" : str]; ["-validity" : str; "1h30m0s" : str]; ["--json" : str]] []).
  - vm_compute. reflexivity.
  - repeat (apply Forall_cons; split); [..|by apply Forall_nil];
      (split; [split; [discriminate|split; [apply (bool_decide_unpack _); vm_compute; exact I|discriminate]]|]);
      (split; [vm_compute; reflexivity|]); [exact I|split; vm_compute; [discriminate|reflexivity]|exact I].
  - constructor; [|constructor; [|constructor; [|constructor]]].
    + exact (written_one true "config" (VString "/etc/x.json")).
    + exact (written_two false "validity" (VDuration (90 * Minute)) ltac:(discriminate)).
    + exact (written_alone true "json").
  - intros s r E. discriminate E.
Defined.
Lemma not_understood_witness :
  @Execute ascii_only demo_idna no_faults demo_dialer CA.demo_encoding TrustSafety.demo_formats demo_outside
     ["frobnicate" : str] (demo_term (mkFs ∅ ∅ ∅ ∅)) = (2, demo_term (mkFs ∅ ∅ ∅ ∅)).
Proof.
  rewrite (@not_understood ascii_only demo_idna no_faults demo_dialer CA.demo_encoding TrustSafety.demo_formats demo_outside
    ["frobnicate" : str] (invalid (errors_New ("unknown command " ++ @Quote ascii_only "frobnicate"))) (demo_term (mkFs ∅ ∅ ∅ ∅))); vm_compute; reflexivity.
Defined.
Definition demo_init : settings := [("output" : str, VString "/home/u/cfg/config.json"); ("local" : str, VBool true)].
Definition demo_initialised : result unit * term :=
  @config_init ascii_only demo_idna no_faults demo_dialer demo_outside demo_init (demo_term (mkFs ∅ ∅ ∅ ∅)).
Definition demo_config : Config := Eval vm_compute in
  (@Validate ascii_only demo_idna (@local_config "/home/u/cfg/config.json" (Defaults "linux"))).1.
