(* ===== verification/CliHosts.v ===== *)
(** * CliHosts: the hosts file and the service on the command line

    What must hold before [hosts apply] changes the hosts file, what a dry run changes, and
    the order of the hosts file and the service in [uninstall-service]. *)
From S2P Require Import Prelude Strs NetIP Config ConfigLoad Fsutil Frames Control TrustSafety Trust Hosts HostsApply Upstream CA Proxy Service ServiceSafety.
From S2P Require Import Command TestCommand Cli CliSafety.

Definition everything : str → Prop := λ _, True.

Section Hosts.
Context `{Unicode, IDNA, Kernel, Dialer, CA.Encoding, Formats, !Outside}.
Hypothesis alone : quiet.
(** Talking to the network and to the daemon changes no file here. *)
Record harmless : Prop := {
  hl_interfaces : spares everything InterfaceAddrs;
  hl_tcp a : spares everything (DialTCP a);
  hl_http s m p : spares everything (http s m p);
  hl_dial c h l : spares everything (dial_now c h l) }.
Hypothesis network : harmless.
Hint Resolve hl_interfaces hl_tcp hl_http hl_dial : frames.

Lemma spares_load X l : spares X (load l).
Proof. unfold load, load_config, ConfigLoad.Load. frame. Qed.
Lemma spares_Prepare_now X p ds a rm : spares X (Prepare_now p ds a rm).
Proof. unfold Prepare_now. frame. Qed.
Lemma spares_local_addresses : spares everything local_addresses.
Proof. unfold local_addresses. frame. Qed.
Lemma spares_probe_all c ds : spares everything (probe_all c ds).
Proof. induction ds as [|d ds IH]; cbn [probe_all]; frame. Qed.
Lemma spares_preflight c address : spares everything (hostsPreflight c address).
Proof.
  unfold hostsPreflight, check_daemon, status_of. frame; first [apply spares_local_addresses | apply spares_probe_all | frame].
Qed.

(** ** [hosts apply] *)
(** What the preflight has seen: the target is elsewhere and takes connections on port 443;
    or it is this machine, and its daemon is ready, listens there on port 443, allows every
    domain and has reached every one of them through its own resolver and profile. *)
Definition daemon_serves (c : Config) (address : str) (s : Status) : Prop :=
  Health s = "ready" ∧
  (∃ l, l ∈ Config.Listen (SConfig s) ∧ listens_on (default AddrZero (ParseAddr address)) l = true) ∧
  Forall (λ d, AllowsDomain (SConfig s) d = true) (Domains c) ∧
  Forall (λ d, ∃ u ip, dial_promise (SConfig s) d protocols u ip) (Domains c).
Definition preflight_seen (c : Config) (address : str) : Prop :=
  ∃ local, (∃ o, (local_addresses o).1 = Ok local) ∧
    (is_local address local = false ∧ (∃ o, (DialTCP (JoinHostPort address "443") o).1 = Ok tt)
     ∨ is_local address local = true ∧
       ∃ s, (∃ o, (status_of (ControlSocket (Config.Runtime c)) o).1 = Ok s) ∧ daemon_serves c address s).
Lemma probe_all_Ok c ds o o' : probe_all c ds o = (Ok tt, o') → Forall (λ d, ∃ u ip, dial_promise c d protocols u ip) ds.
Proof.
  revert o. induction ds as [|d ds IH]; intros o; [by constructor|]. cbn [probe_all]. unfold mbind, M_bind, try.
  pose proof (dial_now_dials c d protocols o) as Hd. destruct (dial_now c d protocols o) as [[[[u mods] ip]|e] o1]; [|done].
  intros Hr%IH. apply Forall_cons. split; [|done]. exists u, ip. by eapply dials_ok.
Qed.
Lemma preflight_Ok c address o o' : hostsPreflight c address o = (Ok tt, o') → preflight_seen c address.
Proof.
  unfold hostsPreflight. intros (local & o1 & Hl & Hr)%M_bind_Ok. exists local. split; [exists o; by rewrite Hl|].
  destruct (is_local address local) eqn:Ei; cbn [negb] in Hr; [right|left]; (split; [done|]).
  2:{ exists o1. by rewrite Hr. }
  unfold check_daemon in Hr. apply M_bind_Ok in Hr as (s & o2 & Hs & Hr). exists s. split; [exists o1; by rewrite Hs|].
  apply M_bind_Ok in Hr as ([] & o3 & [= Hh <-] & Hr). apply M_bind_Ok in Hr as ([] & o4 & [= Hx <-] & Hr).
  apply M_bind_Ok in Hr as ([] & o5 & [= Ha <-] & Hr). apply guard_Ok in Hh, Hx. bools.
  apply existsb_exists in Hx as (x & Hx & Hlis). split_and!.
  - done.
  - exists x. split; [by apply list_elem_of_In|done].
  - apply each_Ok in Ha. eapply Forall_impl; [exact Ha|]. intros d Hd. apply guard_Ok in Hd. by bools.
  - by eapply probe_all_Ok.
Qed.

(** ** Dry runs *)
Lemma spares_CA_Load' X certPath keyPath : spares X (CA.Load certPath keyPath now).
Proof. by apply spares_CA_Load. Qed.
Lemma leaves_give X e : leaves X (give e).
Proof. unfold give. frame. Qed.
Lemma leaves_changeHosts_dry c address rm : leaves everything (changeHosts c address rm true).
Proof.
  unfold changeHosts, apply_plan. cbn [orb]. frame; first [apply spares_local_addresses | apply spares_Prepare_now].
Qed.
Lemma leaves_hosts_dry sub l c : bool_flag l "dry-run" = true → leaves everything (hosts_command sub l c).
Proof.
  intros Hdry. unfold hosts_command. rewrite Hdry. cbv zeta. apply leaves_bind; [frame|]. intros [].
  destruct (sub == "status").
  - apply leaves_bind; [apply leaves_call, spares_Prepare_now|]. intros [p e]. apply leaves_bind; [frame|]. intros _. apply leaves_give.
  - destruct (sub != "apply"); [frame|]. apply leaves_bind; [frame|]. intros _. apply leaves_changeHosts_dry.
Qed.
Lemma spares_Uninstall_dry X : spares X (Service.Uninstall GOOS exec daemon_status parse_manifest sha256 visit true).
Proof.
  unfold Service.Uninstall, uninstall_locked, readManifest, nothing_installed, refuse. frame.
Qed.
Lemma spares_Install_dry X c path :
  spares X (Service.Install GOOS exec daemon_status context_error wait_turns manifest_json parse_manifest sha256 Abs eval_links
    root_owned Executable stamp visit c path true).
Proof. unfold Service.Install, Service.stop. frame. Qed.
(** C30: A dry run changes nothing: with [--dry-run], [hosts], [install-service] and
    [uninstall-service], with whatever other options, whatever the configuration and the
    daemon answer and whatever calls fail, leave every file as it is; they only look and
    print. *)
Theorem dry_run_changes_nothing i t :
  cmd i ∈ ["hosts" : str; "install-service" : str; "uninstall-service" : str] → bool_flag (given i) "dry-run" = true →
  same_at everything (sys (t_os t)) (sys (t_os (dispatch i t).2)).
Proof.
  intros Hcmd Hdry. revert t. change (leaves everything (dispatch i)). destruct i as [c s n l]. cbn [cmd given] in *.
  unfold dispatch. cbn [cmd given sub name].
  rewrite !elem_of_cons in Hcmd. destruct Hcmd as [->|[->|[->|Hcmd]]]; [..|by apply not_elem_of_nil in Hcmd]; choose.
  - destruct (s == "remove"); [rewrite Hdry; apply leaves_changeHosts_dry|].
    apply leaves_bind; [frame; apply spares_load|]. intros c. unfold with_config. choose. by apply leaves_hosts_dry.
  - apply leaves_bind; [frame; apply spares_load|]. intros c. unfold with_config. choose.
    apply leaves_bind; [apply leaves_call, spares_CA_Load'|]. intros _. unfold install_service. rewrite Hdry. cbv zeta.
    apply leaves_bind; [apply leaves_call, spares_Install_dry|]. intros [[p text] e].
    apply leaves_bind; [frame|]. intros _. apply leaves_bind; [frame|]. intros _. apply leaves_give.
  - unfold uninstall_service. rewrite Hdry. cbv zeta. apply leaves_bind; [frame|]. intros _.
    apply leaves_bind; [apply leaves_call, spares_Prepare_now|]. intros [p e]. apply leaves_bind; [apply leaves_give|]. intros _.
    apply leaves_bind; [frame|]. intros _. apply leaves_bind; [destruct (bool_flag l "remove-hosts"); [apply leaves_changeHosts_dry|frame]|].
    intros _. unfold run_answer. apply leaves_bind; [apply leaves_call, spares_Uninstall_dry|]. intros [text e'].
    apply leaves_bind; [frame|]. intros _. apply leaves_give.
Qed.
End Hosts.

(** ** [uninstall-service] *)
Definition managed_entries `{Unicode} (b : str) : list str :=
  match block b with Ok (Some (s, e)) => managed_lines (take (e - s) (drop s b)) | _ => [] end.
Lemma edit_removes `{Unicode} path b ds a p : edit path b ds a true = (p, None) →
  Hosts.Path p = path ∧ Managed p = managed_entries b ∧ managed_entries (After p) = [] ∧ (Hosts.Changed p = false → After p = b).
Proof.
  unfold edit, managed_entries. destruct (block b) as [found|] eqn:Eb; [|done]. cbn [negb andb].
  set (out := (match found with Some (s, e) => (_, _) | None => ([], b) end)).
  destruct out as [m o] eqn:Eo. intros [= <-]. cbn [Hosts.Path Managed After Hosts.Changed]. split; [done|].
  apply block_parts in Eb as (pre & blk & post & Hp & Hf).
  assert (m = match found with Some (s, e) => managed_lines (take (e - s) (drop s b)) | None => [] end ∧ o = pre ++ post) as [-> ->].
  { subst out. destruct Hf as [(-> & -> & -> & ->)|[Hne ->]]; [injection Eo as <- <-; by rewrite app_nil_r|].
    injection Eo as <- <-. split; [done|]. rewrite (parts_app _ _ _ _ Hp) at 1 2. rewrite take_app_length.
    by rewrite app_assoc, <- length_app, drop_app_length. }
  split; [done|]. split; [|intros Hc%negb_false_iff; by apply str_eqb_eq in Hc].
  assert (block (pre ++ post) = Ok None) as ->; [|done]. apply block_parts.
  destruct Hf as [(-> & -> & -> & _)|[Hne _]].
  - rewrite app_nil_r. exists b, [], []. split; [done|by left].
  - exists (pre ++ post), [], []. split; [|by left]. apply parts_remove in Hp. by destruct blk.
Qed.
Lemma query_Ok `{Kernel} {A} (f : fs → result A) o a o' : quiet → query f o = (Ok a, o') → f (sys o) = Ok a ∧ sys o' = sys o.
Proof.
  intros alone. unfold query, syscall. rewrite alone. destruct (fault (calls o)); [done|]. cbv zeta beta. by intros [= Hf <-].
Qed.
Section Uninstall.
Context `{Unicode, IDNA, Kernel, Dialer, CA.Encoding, Formats, !Outside}.
Hypothesis alone : quiet.
Lemma ro_Prepare_now path ds a rm : reads_only (Prepare_now path ds a rm).
Proof.
  unfold Prepare_now, Regular. apply ro_bind; [apply ro_try|intros [[? ?]|?]; apply ro_ret].
  apply ro_bind; [by apply ro_query|intros resolved]. apply ro_bind; [apply ro_bind; [by apply ro_query|intros ?; apply ro_pure]|intros []].
  apply ro_bind; [by apply ro_query|intros ?; apply ro_ret].
Qed.
(** The file that the hosts file's path leads to. *)
Variables (real : str) (s0 : fs) (i0 : inode).
Hypothesis Hreal : eval_links s0 hosts_file = Ok real.
Hypothesis Hfile : inode_at s0 real = Some i0.
Hypothesis Hreg : i_type i0 = FRegular.
Lemma Prepare_now_seen o p o' : sys o = s0 → Prepare_now hosts_file [] "" true o = (Ok (p, None), o') →
  edit real (i_data i0) [] "" true = (p, None).
Proof.
  intros Ho. unfold Prepare_now. intros (r & o1 & Hr & Hp)%M_bind_Ok. unfold try in Hr.
  match type of Hr with context [match ?m with _ => _ end] => destruct m as [[[resolved b]|e] o2] eqn:Er end; injection Hr as <- <-; [|done].
  apply M_bind_Ok in Er as (x & o3 & [Hx E3]%query_Ok & Er); [|done]. rewrite Ho in *. rewrite Hreal in Hx. injection Hx as <-.
  apply M_bind_Ok in Er as ([] & o4 & Hr4 & Er). assert (sys o4 = s0) as E4.
  { assert (reads_only (Regular real)) as Hro by (unfold Regular; apply ro_bind; [by apply ro_query|intros ?; apply ro_pure]).
    specialize (Hro o3). rewrite Hr4 in Hro. cbn in Hro. congruence. }
  apply M_bind_Ok in Er as (b' & o5 & [Hb E5]%query_Ok & Er); [|done]. injection Er as <- <- <-.
  rewrite E4, (read_file_regular _ _ _ Hfile Hreg) in Hb. injection Hb as <-.
  injection Hp as Hp _. revert Hp. unfold Hosts.Prepare. cbn [mbind result_bind]. unfold guard_err. destruct (_ >? _); [done|]. cbn. done.
Qed.

Notation mine := (mine GOOS).
Notation at_hosts := (λ q, q = real).
(** The hosts file is not one of the service's files; the commands of the service manager and
    the daemon's answers leave it alone; temporary names are other names. *)
Record separate : Prop := {
  sp_mine : ¬ mine real;
  sp_lock : manifestPath GOOS ++ ".lock" ≠ real;
  sp_exec bin args : spares at_hosts (exec bin args);
  sp_daemon socket : spares at_hosts (daemon_status socket);
  sp_temp s d : ¬ mine (temp_name s d) ∧ temp_name s d ≠ real }.
Hypothesis Hsep : separate.
Lemma spares_run_hosts args : spares at_hosts (Service.run GOOS exec args).
Proof. unfold Service.run, tool, Stat. frame; apply (sp_exec Hsep). Qed.
Lemma spares_Native_hosts action : spares at_hosts (Native GOOS exec action).
Proof. unfold Native. frame; apply spares_run_hosts. Qed.
Lemma spares_each_hosts {A} (f : A → M unit) l : (∀ x, spares at_hosts (f x)) → spares at_hosts (each_ f l).
Proof. intros Hf. induction l as [|x l IH]; cbn [each_]; frame; done. Qed.
Lemma spares_ask {A} X (m : M A) k : spares X m → (∀ a, spares X (k a)) → spares X (ask m k).
Proof. intros Hm Hk. unfold ask, refuse. frame. Qed.
Lemma readManifest_paths o m : (readManifest GOOS parse_manifest o).1 = Ok m → mine (m_Executable m) ∧ mine (m_DefinitionPath m).
Proof.
  destruct (readManifest _ _ o) as [r o'] eqn:E. cbn [fst]. intros ->. unfold readManifest in E.
  apply M_bind_Ok in E as (b & o1 & _ & E). apply M_bind_Ok in E as (m' & o2 & _ & E).
  apply M_bind_Ok in E as ([] & o3 & [= Hg _] & E). injection E as <- _. apply guard_Ok in Hg. bools.
  unfold mine. split; [left|right; left]; done.
Qed.
Lemma spares_Uninstall_hosts dry :
  spares at_hosts (Service.Uninstall GOOS exec daemon_status parse_manifest sha256 visit dry).
Proof.
  assert (∀ q, mine q → ¬ at_hosts q) as Hm by (intros q Hq ->; by apply (sp_mine Hsep)).
  assert (spares at_hosts (uninstall_locked GOOS exec daemon_status parse_manifest sha256 visit dry)) as Hl.
  { unfold uninstall_locked. apply spares_bind_post; [unfold readManifest; frame|]. intros [m|e] [o Ho]; [|unfold nothing_installed, refuse; frame].
    assert ((readManifest GOOS parse_manifest o).1 = Ok m) as [He Hd]%readManifest_paths.
    { unfold try in Ho. destruct (readManifest _ _ o). by injection Ho. }
    unfold refuse, uninstall_owned, uninstall_files, linux_only, must, inspectOwned.
    repeat first [apply spares_run_hosts | apply spares_Native_hosts | apply spares_ask; [|intros ?] | apply spares_each_hosts; intros ?
      | apply (sp_daemon Hsep) | apply (spares_Remove alone); by apply Hm | progress frame].
    all: apply (spares_Remove alone), Hm; right; by right. }
  unfold Service.Uninstall, nothing_installed, refuse. destruct dry; [done|]. destruct (negb _); [frame|].
  apply spares_bind; [unfold Stat; frame|intros x]. destruct (match x with Ok _ => _ | Err _ => _ end); [frame|].
  unfold ask. apply spares_bind_post; [apply spares_try, (spares_Lock alone), (sp_lock Hsep)|]. intros [u|e] [o Ho]; [|frame].
  apply spares_finally; [done|]. apply (Lock_unlock alone _ (manifestPath GOOS ++ ".lock") o). unfold try in Ho.
  destruct (Lock _ o). by injection Ho.
Qed.
Hypothesis Hset : settled s0 real.
Hypothesis Hkeys : Forall (λ k, k ≠ []) (i_xattrs i0).*1.
Definition unmanaged (s : fs) : Prop := ∃ i, inode_at s real = Some i ∧ managed_entries (i_data i) = [].
Lemma spares_Apply_mine p : Hosts.Path p = real → spares mine (HostsApply.Apply sha256 p (PState platform_paths) stamp).
Proof.
  intros Hp. apply (spares_Apply _ _ _ alone); [rewrite Hp; apply (sp_mine Hsep)|intros s d; apply (sp_temp Hsep)|..];
    unfold mine, manifestPath, paths, platform_paths, PlatformPaths; destruct (GOOS == "darwin");
    intros [E|[E|E]]; vm_compute in E; discriminate E.
Qed.
(** With [remove], [changeHosts] touches no file of the service, and once it has succeeded,
    and it was not a dry run, no entries are left. *)
Lemma changeHosts_removes dry t : sys (t_os t) = s0 →
  same_at mine s0 (sys (t_os (changeHosts None "" true dry t).2)) ∧
  ((changeHosts None "" true dry t).1 = Ok tt → dry = false → unmanaged (sys (t_os (changeHosts None "" true dry t).2))).
Proof.
  intros Ht. unfold changeHosts, mbind, C_bind, mret, C_ret, call.
  pose proof (ro_Prepare_now hosts_file [] "" true (t_os t)) as Hro. rewrite Ht in Hro.
  destruct (Prepare_now hosts_file [] "" true (t_os t)) as [[[p [e|]]|e] o1] eqn:Ep; cbn [fst snd t_os quit done_with] in *;
    [by rewrite Hro| |by rewrite Hro].
  apply Prepare_now_seen in Ep as (Hp & _ & Hun & Hch)%edit_removes; [|done].
  unfold apply_plan, mbind, C_bind, say. cbn [t_os t_out].
  destruct (dry || negb (Hosts.Changed p)) eqn:Ed; cbn [mret C_ret fst snd t_os].
  { unfold mret, C_ret. cbn [fst snd t_os]. rewrite Hro. split; [done|]. intros _ ->. cbn [orb] in Ed. apply negb_true_iff in Ed.
    exists i0. split; [done|]. by rewrite <- (Hch Ed). }
  apply orb_false_iff in Ed as [-> Hc%negb_false_iff]. destruct (negb (euid =? 0)); cbn [quit done_with fst snd t_os].
  { by rewrite Hro. }
  unfold call. cbn [t_os t_out]. rewrite <- Hp in *.
  destruct (hoare_Apply sha256 p (PState platform_paths) stamp s0 i0 alone Hset Hfile Hreg Hkeys) with (o := o1) as [[Ha _] _];
    [intros s; rewrite Hp; apply (sp_temp Hsep)|done|done|].
  destruct (spares_Apply_mine p Hp s0 (λ _, True) (λ _ _, I) o1 Hro) as [Hs _].
  destruct (HostsApply.Apply _ _ _ _ o1) as [[[bk [e|]]|e] o2]; cbn [fst snd t_os] in *; [by split|..|by split].
  split; [exact Hs|]. intros _ _. destruct Ha as (_ & _ & _ & i & Hi & Hin & _). exists i. split; [|by rewrite Hin]. by rewrite <- Hp.
Qed.
(** C18: [uninstall-service] does not strand the hosts file. When the command has changed any
    file of the installation, then no managed entry is left in the hosts file at its end,
    unless [--keep-hosts] was given, and then the hosts file is as it was. If there are
    managed entries and neither [--remove-hosts] nor [--keep-hosts] is given, the command
    fails and changes nothing at all. All this whatever calls fail. *)
Theorem uninstall_strands_nothing l t :
  sys (t_os t) = s0 →
  let '(r, t') := uninstall_service l t in
  (same_at mine s0 (sys (t_os t')) ∨ bool_flag l "keep-hosts" = true ∧ same_at at_hosts s0 (sys (t_os t')) ∨ unmanaged (sys (t_os t'))) ∧
  (bool_flag l "remove-hosts" = false → bool_flag l "keep-hosts" = false → managed_entries (i_data i0) ≠ [] →
   is_ok r = false ∧ same_at everything s0 (sys (t_os t'))).
Proof.
  intros Ht. unfold uninstall_service. cbv zeta. set (dry := bool_flag l "dry-run").
  assert (∀ X, spares X (Service.Uninstall GOOS exec daemon_status parse_manifest sha256 visit dry) →
    leaves X (run_answer (Service.Uninstall GOOS exec daemon_status parse_manifest sha256 visit dry))) as Htail.
  { intros X HX. unfold run_answer. apply leaves_bind; [by apply leaves_call|]. intros [text e]. frame. apply leaves_give. }
  set (tail := run_answer _) in *. pose proof (Htail _ (spares_Uninstall_hosts dry)) as Hhosts.
  unfold mbind, C_bind, done_with, call, give.
  destruct (bool_flag l "remove-hosts" && bool_flag l "keep-hosts") eqn:Eb; cbn [guard_err].
  { apply andb_prop in Eb as [-> ->]. rewrite Ht. by split; [left|]. }
  pose proof (ro_Prepare_now hosts_file [] "" true (t_os t)) as Hro. rewrite Ht in Hro.
  destruct (Prepare_now hosts_file [] "" true (t_os t)) as [[[p [e|]]|e] o1] eqn:Ep; cbn [fst snd t_os] in *; unfold quit, done_with;
    [cbn [t_os]; rewrite Hro; by split; [left|]| |rewrite Hro; by split; [left|]].
  apply Prepare_now_seen in Ep as (Hp & Hm & Hun & Hch)%edit_removes; [|done]. rewrite Hm. unfold mret, C_ret.
  destruct (bool_flag l "remove-hosts") eqn:Er.
  - rewrite andb_false_r. cbn [andb guard_err].
    destruct (changeHosts_removes dry (mkTerm o1 (t_out t)) Hro) as [Hs Hdone].
    destruct (changeHosts None "" true dry (mkTerm o1 (t_out t))) as [[[]|e] t1] eqn:Ec; cbn [fst snd] in *; [|split; [by left|done]].
    specialize (Hhosts t1). pose proof (Htail mine) as Hdry. destruct (tail t1) as [r t2] eqn:Et. cbn [snd] in *.
    split; [|done]. destruct dry eqn:Ed.
    + left. specialize (Hdry (spares_Uninstall_dry alone mine) t1). rewrite Et in Hdry. by eapply (same_at_trans mine).
    + right. right. destruct (Hdone eq_refl eq_refl) as (i & Hi & Hnone). exists i. split; [|done].
      by eapply same_at_inode; [exact Hhosts| |].
  - cbn [andb negb]. rewrite andb_true_r. destruct (bool_flag l "keep-hosts") eqn:Ek.
    + rewrite andb_false_r. cbn [guard_err]. specialize (Hhosts (mkTerm o1 (t_out t))). cbn [t_os] in Hhosts. rewrite Hro in Hhosts.
      destruct (tail _) as [r t2]. split; [right; by left|done].
    + cbn [negb]. rewrite andb_true_r. destruct (managed_entries (i_data i0)) as [|x xs] eqn:Eme; cbn [length Nat.ltb Nat.leb guard_err].
      * specialize (Hhosts (mkTerm o1 (t_out t))). cbn [t_os] in Hhosts. rewrite Hro in Hhosts.
        destruct (tail _) as [r t2]. split; [|done]. right. right. exists i0. by split; [eapply same_at_inode|].
      * cbn [t_os]. rewrite Hro. by split; [left|].
Qed.
End Uninstall.

(** ** Witnesses *)
#[local] Existing Instances ascii_only ConfigLoad.demo_idna no_faults demo_dialer CA.demo_encoding TrustSafety.demo_formats demo_outside.
Lemma demo_harmless : harmless.
Proof. split; intros; apply spares_ret || apply spares_lift. Qed.
Definition demo_apply : settings := [("address" : str, VString "192.0.2.9")].
(** The other machine answers, and the hosts file changes. *)
Definition demo_domains : Config := set_Domains (Defaults "linux") ["api.test" : str].
Definition demo_applied : result unit * term := hosts_command "apply" demo_apply demo_domains (demo_term demo_fs).
Definition demo_dry : invocation := mkInvocation "uninstall-service" [] [] [("dry-run" : str, VBool true); ("keep-hosts" : str, VBool true)].
Lemma dry_run_changes_nothing_witness :
  same_at everything demo_fs (sys (t_os (dispatch demo_dry (demo_term demo_fs)).2)).
Proof.
  apply (dry_run_changes_nothing demo_quiet demo_harmless demo_dry (demo_term demo_fs)); [|reflexivity].
  apply (bool_decide_unpack _). vm_compute. exact I.
Defined.
(** The hosts file has an entry, and the service is installed. *)
Definition demo_installed : fs :=
  let s := demo_machine (Some ("p" : str)) (Some ("d" : str)) (Some ("pd/etc/utlsproxy/config.json" : str)) in
  let i := mkInode FRegular 420 0 0 (Hosts.Begin ++ [nl] ++ "127.0.0.1 api.test" ++ [nl] ++ End_ ++ [nl]) true [] in
  mkFs (<["/etc/hosts" : str := 20]> (dents s)) (<["/etc/hosts" : str := 20]> (ddents s)) (<[20 := i]> (inodes s)) (locks s).
Definition demo_removed : result unit * term :=
  uninstall_service [("remove-hosts" : str, VBool true)] (demo_term demo_installed).
Lemma demo_separate : separate "/etc/hosts".
Proof.
  split.
  - intros [E|[E|E]]; vm_compute in E; discriminate E.
  - vm_compute. discriminate.
  - intros. apply spares_ret.
  - intros. apply spares_lift.
  - intros s d. split; [apply demo_temp|]. intros E. apply (f_equal last) in E. cbn [temp_name no_faults demo_kernel] in E.
    unfold long_name in E. rewrite replicate_S_end, app_assoc, last_snoc in E. vm_compute in E. discriminate E.
Qed.
Lemma uninstall_strands_nothing_witness :
  demo_removed.1 = Ok tt ∧ unmanaged "/etc/hosts" (sys (t_os demo_removed.2)).
Proof.
  assert (demo_removed.1 = Ok tt) as Hr by (vm_compute; reflexivity). split; [exact Hr|].
  pose proof (uninstall_strands_nothing demo_quiet "/etc/hosts" demo_installed _ eq_refl eq_refl eq_refl demo_separate) as Hu.
  specialize (Hu ltac:(split; [reflexivity|intros n [= <-]; eexists; split; reflexivity]) ltac:(by apply Forall_nil)
    [("remove-hosts" : str, VBool true)] (demo_term demo_installed) eq_refl).
  change (uninstall_service _ (demo_term demo_installed)) with demo_removed in Hu. rewrite (surjective_pairing demo_removed) in Hu.
  destruct Hu as [[Hs|[[E _]|Hu]] _]; [exfalso|discriminate E|exact Hu].
  pose proof (proj1 (Hs (PExecutable (PlatformPaths "linux")) (or_introl eq_refl))) as Hd. vm_compute in Hd. discriminate Hd.
Defined.
