(* ===== verification/System.v ===== *)
(** * System: the daemon as one system (the serve command of src/internal/cli/cli.go,
    Server.Reload in src/internal/proxy/server.go, Resolver.Configure in
    src/internal/dns/resolver.go)

    The server and the resolver run side by side on configurations that the command line's
    [load] makes. A reload first puts the new configuration in force and then configures the
    resolver; between the two every goroutine of both can act. *)
From S2P Require Import CliSafety.
From S2P Require Import Prelude Strs NetIP Profiles Config ConfigJSON JSONText Fsutil ConfigLoad Resolver.
From S2P Require Import CA Proxy Trust Command Cli.

(** ** The configurations of a command line *)
(** What the options of [serve] fix, whatever the file says. *)
Record overridden (l : settings) (c : Config) : Prop := {
  ov_listen : is_set l "listen" = true → Config.Listen c = [string_flag l "listen" ""];
  ov_profile : is_set l "profile" = true → UProfile (Config.Upstream c) = string_flag l "profile" "";
  ov_alpn : is_set l "alpn-mode" = true → ALPNMode (Config.Upstream c) = string_flag l "alpn-mode" "";
  ov_dns : is_set l "dns" = true →
    if string_flag l "dns" "" == "auto" then Mode (CDNS c) = "auto" ∧ Servers (CDNS c) = []
    else Mode (CDNS c) = "manual" ∧ Servers (CDNS c) = Split (string_flag l "dns" "") (chr 44) }.
Lemma override_overridden l c : overridden l (override l c).
Proof.
  unfold override. cbv zeta. destruct (is_set l "dns") eqn:E1; [destruct (string_flag l "dns" "" == "auto") eqn:Ed|];
    destruct (is_set l "alpn-mode") eqn:E2, (is_set l "profile") eqn:E3, (is_set l "listen") eqn:E4; fields;
    (split; rewrite ?E1, ?E2, ?E3, ?E4, ?Ed; intros Hs; first [discriminate Hs | fields; first [reflexivity | split; reflexivity]]).
Qed.
(** What the options leave is the file's. *)
Record from_file (c0 c : Config) : Prop := {
  ff_domains : Domains c = Domains c0; ff_ca : Config.CA c = Config.CA c0; ff_runtime : Config.Runtime c = Config.Runtime c0;
  ff_clients : ClientCIDRs c = ClientCIDRs c0; ff_hosts : HostsAddress c = HostsAddress c0; ff_log : Log c = Log c0;
  ff_port : Port (Config.Upstream c) = Port (Config.Upstream c0); ff_size : CacheSize (CDNS c) = CacheSize (CDNS c0) }.
Lemma override_from_file l c : from_file c (override l c).
Proof.
  unfold override. cbv zeta. destruct (is_set l "dns"); [destruct (string_flag l "dns" "" == "auto")|];
    destruct (is_set l "alpn-mode"), (is_set l "profile"), (is_set l "listen"); fields; by split.
Qed.
Section System.
Context `{Unicode, IDNA, Kernel, Dialer, AuthoritySource, !Outside}.
Hypothesis ToASCII_idem : ∀ s a, ToASCII s = Ok a → ToASCII a = Ok a.
Lemma load_inv l o c o' : load l o = (Ok c, o') →
  ∃ c0, load_config (config_path l) o = (Ok c0, o') ∧ wf c ∧ overridden l c ∧ from_file c0 c.
Proof.
  unfold load. intros (c0 & o1 & Hl & Hr)%M_bind_Ok. injection Hr as Hv <-. apply checked_Ok in Hv. exists c0.
  split; [done|]. split; [by eapply Validate_wf|].
  pose proof (override_overridden l c0) as [Hl1 Hl2 Hl3 Hl4]. pose proof (override_from_file l c0) as [F1 F2 F3 F4 F5 F6 F7 F8].
  assert (validate_domains [] (Domains c0) = (Domains c0, None)) as Hd.
  { unfold load_config in Hl. destruct (Load_inv Abs GOOS (config_path l) o c0) as (? & ? & ? & ? & _ & _ & _ & _ & _ & _ & Hx);
      [by rewrite Hl|]. by apply Validate_idempotent, Validate_None in Hx as (_ & ? & _). }
  apply Validate_None in Hv as (_ & Hd' & Hc & _). rewrite F1, Hd in Hd'. injection Hd' as Hd'.
  rewrite Hc, <- Hd'. split; split; cbn [set_Domains Config.Listen Config.Upstream CDNS Domains Config.CA Config.Runtime ClientCIDRs HostsAddress Log]; done.
Qed.

(** ** The server and the resolver *)
Variable l : settings.
(** What the [load] of this command line may return; a reload calls it again. *)
Definition loaded (c : Config) : Prop := ∃ o, (load l o).1 = Ok c.
Record system := mkSystem { server : Proxy.world; names : Resolver.world; reloading : bool }.
Inductive sstep : system → system → Prop :=
  | y_server w w' r b : Proxy.step w w' → current (srv w') = current (srv w) → resolver_config (srv w') = resolver_config (srv w) →
      sstep (mkSystem w r b) (mkSystem w' r b)
  | y_reload w r load_ load_ca s : (∀ c, load_ = Ok c → loaded c) → (∀ c, loads c (Proxy.clock w) (load_ca c)) →
      Reload load_ load_ca (srv w) = (Ok tt, s) →
      sstep (mkSystem w r false)
        (mkSystem (Proxy.mkWorld s (Proxy.clock w) (pending w) (handlers w) (g_admitted w) (g_sent w) (g_received w)
                     (Z.max (g_limit w) (limit_of (current s)))) r true)
  | y_configure w r :
      sstep (mkSystem w r true) (mkSystem w (with_res r (Configure (resolver_config (srv w)) (res r))) false)
  | y_names w r r' b : Resolver.step (λ _, False) r r' → sstep (mkSystem w r b) (mkSystem w r' b).
Inductive daemon : system → Prop :=
  | daemon_start c a now t : loaded c → loads c now (Ok a) →
      daemon (mkSystem (New_world c a now) (Resolver.mkWorld (Resolver.New (CDNS c)) t None ∅ []) false)
  | daemon_step y y' : daemon y → sstep y y' → daemon y'.

(** ** Invariants *)
Definition good (c : Config) : Prop := wf c ∧ overridden l c.
Lemma loaded_good c : loaded c → good c.
Proof. intros [o Ho]. destruct (load l o) as [r o'] eqn:E. cbn in Ho. subst r. by apply load_inv in E as (_ & _ & ? & ? & _). Qed.
Lemma daemon_reach y : daemon y → Proxy.reach (server y).
Proof.
  induction 1 as [c a now t Hl Ha|y y' _ IH Hs]; [by eapply reach_new|]. destruct Hs as [w w' r b Hs _ _|w r load_ load_ca s Hl Hca Hr|w r|w r r' b Hs].
  - by eapply Proxy.reach_step.
  - eapply Proxy.reach_step; [exact IH|]. by eapply s_reload.
  - exact IH.
  - exact IH.
Qed.
Definition named (c : DNS) : Prop := ∃ d, loaded d ∧ c = CDNS d.
Record in_order (y : system) : Prop := {
  io_current : loaded (s_config (current (srv (server y))));
  io_policies : policies good (server y);
  io_resolver : resolver_config (srv (server y)) = CDNS (s_config (current (srv (server y))));
  io_names : reloading y = false → cfg (res (names y)) = resolver_config (srv (server y));
  io_limit : g_limit (server y) ≤ 65536 }.
Lemma limit_good snap : good (s_config snap) → limit_of snap ≤ 65536.
Proof. intros [Hw _]. apply (wf_conns _ Hw). Qed.
Lemma limit_step w w' : Proxy.step w w' → good (s_config (current (srv w'))) → g_limit w ≤ 65536 → g_limit w' ≤ 65536.
Proof. intros [_ [->| ->]]%current_step Hg%limit_good Hl; lia. Qed.
Lemma in_order_step y y' : in_order y → sstep y y' → in_order y'.
Proof.
  intros [Hc Hp Hr Hn Hl] Hs. destruct Hs as [w w' r b Hs E Er|w r load_ load_ca s Hld Hca Hrl|w r|w r r' b Hs]; cbn [server names reloading] in *.
  - assert (good (s_config (current (srv w')))) as Hg by (rewrite E; by apply loaded_good).
    split; cbn [server names reloading]; [by rewrite E|by eapply policies_step|by rewrite Er, E|by rewrite Er|by eapply limit_step].
  - assert (Proxy.step w (Proxy.mkWorld s (Proxy.clock w) (pending w) (handlers w) (g_admitted w) (g_sent w) (g_received w)
      (Z.max (g_limit w) (limit_of (current s))))) as Hs by (by eapply s_reload).
    apply Reload_cases in Hrl as [[_ [e He]]|(_ & c & a & Eload & _ & _ & Es)]; [done|]. pose proof (Hld c Eload) as Hlo.
    assert (s_config (current s) = c) as Ec by (by rewrite Es).
    assert (good (s_config (current s))) as Hg by (rewrite Ec; by apply loaded_good).
    split; cbn [server names reloading srv]; [by rewrite Ec|by eapply policies_step|by rewrite Es|done|].
    by eapply limit_step in Hs.
  - split; cbn [server names reloading]; try done. 
  - split; cbn [server names reloading]; try done. intros Hb. rewrite (step_cfg _ _ Hs). by apply Hn.
Qed.
Lemma daemon_in_order y : daemon y → in_order y.
Proof.
  induction 1 as [c a now t Hl Ha|y y' _ IH Hs]; [|by eapply in_order_step]. pose proof (loaded_good c Hl) as Hg.
  split; cbn; [done|split; [done|by apply Forall_nil|done]|done|done|]. apply (limit_good (mkSnapshot c 0 1) Hg).
Qed.
Lemma daemon_names y : daemon y → ∃ c n, Resolver.reach named c n (names y).
Proof.
  induction 1 as [c a now t Hl Ha|y y' Hy IH Hs].
  - exists (CDNS c), 0. constructor. by exists c.
  - destruct IH as (c & n & Hr). pose proof (daemon_in_order y Hy) as [Hc _ Hrc _ _].
    destruct Hs as [w w' r b Hs E Er|w r load_ load_ca s Hld Hca Hrl|w r|w r r' b Hs]; cbn [server names reloading] in *;
      [by exists c, n..|exists c, (n + 1)|exists c, (n + 1)]; (eapply Resolver.reach_step; [exact Hr|]).
    + constructor. rewrite Hrc. by eexists.
    + eapply step_mono, Hs. done.
Qed.

(** ** Properties *)
(** C3: A running daemon keeps to its configuration. Whatever its goroutines and its reloads
    do, the configuration in force and the one every live connection was admitted under are
    well formed and have exactly the listener, the profile, the ALPN mode and the DNS servers
    that the command line of [serve] gave, on reloads too; and between reloads the resolver
    works with the DNS settings in force. *)
Theorem daemon_keeps_configuration y :
  daemon y →
  let c := s_config (current (srv (server y))) in
  wf c ∧ overridden l c ∧ (reloading y = false → cfg (res (names y)) = CDNS c) ∧
  ∀ i h, handlers (server y) !! i = Some h → wf (s_config (h_snap h)) ∧ overridden l (s_config (h_snap h)).
Proof.
  intros [_ [[Hw Ho] _ Hh] Hr Hn _]%daemon_in_order. cbv zeta. rewrite <- Hr. done.
Qed.
(** C35: A running daemon's tables are bounded, whatever clients do and however often it is
    reloaded: at most 65536 connections are in the table, and at most 65536 answers in the
    cache of names, the largest limits that a configuration can set. *)
Theorem daemon_bounded y :
  daemon y →
  Z.of_nat (size (connections (srv (server y)))) ≤ 65536 ∧ Z.of_nat (size (Resolver.cache (res (names y)))) ≤ 65536.
Proof.
  intros Hy. split.
  - pose proof (b_size _ (base_reach _ (daemon_reach y Hy))). pose proof (io_limit _ (daemon_in_order y Hy)). lia.
  - destruct (daemon_names y Hy) as (c & n & Hr). apply (reach_small named 65536) in Hr as [_ _ ?]; [done|].
    intros d (e & [Hw _]%loaded_good & ->). apply (wf_cache _ Hw).
Qed.
End System.

(** ** Witnesses: a daemon that is started and reloaded with two options *)
#[local] Existing Instances ascii_only ConfigLoad.demo_idna no_faults demo_dialer demo_outside.
Definition demo_options : settings :=
  [("listen" : str, VString "127.0.0.1:9443"); ("dns" : str, VString "9.9.9.9:53,149.112.112.112:53")].
Definition demo_written : Config := set_CA (Config.CA Proxy.demo_config) (Defaults "linux").
Definition demo_machine : os :=
  mkOs (mkFs {["/etc/utlsproxy/config.json" : str := 1]} ∅
          {[1 := mkInode FRegular 384 0 0 (config_text demo_written) true []]} ∅) 0 [].
Definition demo_served : Config := Eval vm_compute in match (load demo_options demo_machine).1 with Ok c => c | Err _ => demo_written end.
Lemma demo_loaded : loaded demo_options demo_served.
Proof. exists demo_machine. vm_compute. reflexivity. Qed.
Lemma demo_authority : loads demo_served Minute (Ok demo_au).
Proof. exists no_faults, CA.demo_encoding, demo_ca_files.2. split; [exact CA.demo_dated|]. vm_compute. reflexivity. Qed.
Definition demo_start : system :=
  mkSystem (New_world demo_served demo_au Minute) (Resolver.mkWorld (Resolver.New (CDNS demo_served)) 0 None ∅ []) false.
Definition demo_again : Server := (Reload (Ok demo_served) demo_load_ca (srv (server demo_start))).2.
Definition demo_running : system :=
  let w := server demo_start in
  mkSystem (Proxy.mkWorld demo_again (Proxy.clock w) (pending w) (handlers w) (g_admitted w) (g_sent w) (g_received w)
              (Z.max (g_limit w) (limit_of (current demo_again))))
    (with_res (names demo_start) (Configure (resolver_config demo_again) (res (names demo_start)))) false.
Lemma demo_runs : daemon demo_options demo_running.
Proof.
  eapply daemon_step; [eapply daemon_step; [exact (daemon_start demo_options demo_served demo_au Minute 0 demo_loaded demo_authority)|]|apply y_configure].
  apply (y_reload demo_options (server demo_start) (names demo_start) (Ok demo_served) demo_load_ca demo_again).
  - intros c [= <-]. exact demo_loaded.
  - intros c. exists no_faults, CA.demo_encoding, demo_ca_files.2. split; [exact CA.demo_dated|reflexivity].
  - vm_compute. reflexivity.
Qed.
Lemma demo_idem (s a : str) : ToASCII s = Ok a → ToASCII a = Ok a.
Proof. by intros [= <-]. Qed.
Lemma daemon_keeps_configuration_witness :
  Config.Listen (s_config (current (srv (server demo_running)))) = ["127.0.0.1:9443" : str] ∧
  Servers (cfg (res (names demo_running))) = ["9.9.9.9:53" : str; "149.112.112.112:53" : str].
Proof.
  destruct (daemon_keeps_configuration demo_idem demo_options demo_running demo_runs) as (_ & [Hl _ _ Hd] & Hn & _).
  split; [exact (Hl eq_refl)|]. rewrite (Hn eq_refl). exact (proj2 (Hd eq_refl)).
Defined.
Lemma daemon_bounded_witness : Z.of_nat (size (connections (srv (server demo_running)))) ≤ 65536.
Proof. exact (proj1 (daemon_bounded demo_idem demo_options demo_running demo_runs)). Defined.
